(* ===== verification/_CoqProject ===== *)
-Q . S2P
Prelude.v
Json.v
Sha256.v
Datetime.v
Signals.v
SignalMemory.v
SignalCodec.v
SignalRecords.v
SignalStore.v
StoreIngest.v
StoreScan.v
StoreSteps.v
StoreHistory.v
StoreOperations.v
StoreGuarantees.v
StoreMatching.v
StoreRegistration.v
StoreRefinement.v
StoreDemo.v
Timestamps.v
ResourceClaims.v
ObjectiveLedger.v
LedgerMoves.v
LedgerGuarantees.v
LedgerAdmission.v
LedgerDemo.v
Effects.v
Permissions.v
PermissionRules.v
PermissionDemo.v
Attention.v
AttentionRules.v
AttentionDemo.v
WakeClock.v
WakeRecords.v
WakeDelivery.v
WakeRules.v
WakeDemo.v
MenuControl.v
MenuRules.v
MenuDemo.v
