(* ===== verification/Prelude.v ===== *)
(** * Codex Wake: a verification library for the durable wake engine

    Codex Wake waits for signals (CI runs, files, processes, webhooks) on
    behalf of coding agents and wakes them once, durably.  This library models
    the parts of the Python program under src/src/codex_wake that carry its
    durable state, each as the source has it, and proves what they promise.

    ** The program's parts and the files that model them

    - signals.py: the vocabulary of requests, contracts, observations and
      results, their validation and matching ([Signals]), and the in-memory
      engine [InMemorySignalModule] ([SignalMemory]: state record [mem],
      operations [arm], [ingest], [source_checkpoint], [evaluate]).
    - signal_store.py: the SQLite journal [SQLiteSignalModule].  [SignalCodec]
      holds the payload helpers and readers of the JSON columns, [SignalStore]
      the tables of [_SCHEMA] as the record [journal] and every operation that
      writes them, one transaction body per BEGIN/COMMIT of the source.  Each
      body answers [Commit], [Rollback] or [Raise]; [transact] runs it under an
      [Env] that says where SQLite or a commit hook fails.
    - signal_records.py: the wake records and their publication as files
      ([SignalRecords]), behind the class [RecordPublisher], whose laws
      ([RecordPublisherLaws]) the file publisher discharges and the journal's
      theorems use.
    - resource_claims.py: exclusive custody of directories ([ResourceClaims]:
      the stored file, its shape check, transaction, and the operations).
    - objective_ledger.py: the token and time accounting of an objective
      ([ObjectiveLedger]: the stored state as the record [ledger], one body per
      method, and [perform], which runs any call).
    - session_permissions.py: the host-owned action policy ([Permissions]: the
      typed documents, their validation, the files of all roots as the state
      [world], the store of a root with its routing, [configure],
      [change_session], [bind_domain], [evaluate] and [check_operation]), with
      the owner state of wake_policy.py and parse_timestamp of records.py that
      it reads.
    - attention_queue.py: requests for a human decision ([Attention]: rows, the
      validation, the transaction, one body per operation).
    - native_intents.py, native_delivery.py, permission_wake.py and the policy
      part of wake_policy.py: [WakeClock] (clock evidence and [eligibility]),
      [WakeRecords] (the record and the values of the runtime adapter),
      [WakeDelivery] ([dispatch] down to the calls of the adapter, with the
      frozen routes, [evaluate], [reconcile_native], [apply_owner_state]).  The
      file of the record and the calls of [submit] are the state [store].
    - guarded_interactions.py: custody of terminal panes and the one menu the
      automation may open and close in them ([MenuControl]: frames, tokens, the
      files and the keys sent as the state [world], [configure], [inspect],
      [change_owner], [run], [reconcile]).
    - Shared: [Effects] (calls that read and write a store and may raise, with
      the rule [keeps] for what a call leaves and the rules of
      [triple] for calls that may raise or die), [Json] (Python strings as UTF-8, [json.dumps] and [json.loads]),
      [Sha256], [Datetime] (ISO timestamps), [Timestamps] (wall-clock numbers
      as a class with laws that floats satisfy, lexical POSIX paths).

    They interact as in the program: the journal calls the codec for every
    column, the publisher for every record and the source adapter once per arm;
    sources call [ingest]; the daemon calls [evaluate] and
    [reconcile_publications]; claims and ledger stand on their own files; every
    transition of the attention queue asks the action policy again; so does the
    dispatch of a wake, three times on each route, and a menu run before each
    of its keys.

    ** What the theorems show

    - The journal over any history ([StoreSteps], [StoreHistory],
      [StoreOperations]: a call, whatever fails in it, is a sequence of
      committed transactions, and histories interleave them): its invariant
      holds ([journal_reachable_inv]); ingestion is all or nothing, exactly
      once under retry, and refines the in-memory engine ([StoreGuarantees],
      [StoreRefinement]); a new match is the earliest wanted receipt, is found
      when it exists, happens once, never after an end or an expiry
      ([StoreMatching]); arming is atomic and idempotent, acknowledged records
      are on disk ([StoreRegistration]); compaction respects pins.
    - Records: built records decode, publication overwrites nothing and can be
      retried ([SignalRecords]); columns round-trip ([SignalCodec]).
    - The in-memory engine: the same promises as a reference ([SignalMemory]).
    - Claims: custody is exclusive, generations fence old owners, no call
      publishes an unreadable file, a failed claim is made at most once.
    - The ledger ([LedgerMoves]: every call is a sequence of atomic changes;
      [LedgerGuarantees], [LedgerAdmission]): the stored accounts are well
      formed, configurations are authorized, nothing is taken back, admitted
      requests stay within every allowance and leave protected completion work
      funded, settlements count once, correction cycles are bounded, and the
      possible errors are known.
    - The policy ([PermissionRules]): an allowed action rests on the stored
      layers or a live approval and on every fixed rule; the most specific layer
      decides; a session's change reaches no further than its authority and
      never grants it anything; revisions are fenced and their history is kept.
    - Attention ([AttentionRules]): transitions keep the queue valid and
      readable, rows have a forward life cycle, a response is a qualified act
      of an operator, it is consumed at most once under a standing approval
      (by [evaluate_allowed]), and asking is idempotent.
    - Native wakes ([WakeRules], on triples for calls that may raise or die): at
      most one submission can have reached the runtime over any history, it was
      an intent on disk with the hash of its text, it is never repeated, it
      rests on the policy ([evaluate_allowed]), the frozen routes, the observed
      recipient and the clock; a wake that may go out does; exceptions stay
      inside; a completed owner retires its wakes.  [WakeClock]: a wake that
      the gate lets pass is due and has time left, for truthful evidence.
    - Guarded menus ([MenuRules]): over any history of configurations, changes
      of custody and menu runs, every key was sent under the automation's
      custody, with its intent on disk; no operation repeats a key; a takeover
      and an unresolved effect hold later keys back; old tokens stay refused;
      the wait for a frame ends; a run on a pane that behaves completes.
    - [StoreDemo], [LedgerDemo], [PermissionDemo], [AttentionDemo], [WakeDemo]
      and [MenuDemo] run concrete histories by evaluation and apply the theorems
      to them; [LedgerDemo], [PermissionDemo], [WakeDemo] and [MenuDemo] show
      runs in which the code is weaker than its own checks suggest.

    ** Representation choices and bounds

    Python integers are [Z].  Strings are their UTF-8 bytes; JSON values have
    no floats.  Exceptions and error codes are the strings of [Raised] and of
    the result types; message texts are not carried.  Instants of the journal
    are microseconds in [Z] within Python's calendar; wall-clock numbers of the
    claims and the ledger are an abstract [Timestamp], instantiated with whole
    seconds in the demonstrations.  The seconds of wake scheduling are
    rationals: sums of floats are exact here, and the outward rounding of the
    two quotients is a pair of functions.  [loads] recurses on fuel taken from
    the length of the text, which [loads_dumps] shows to be enough, [sha256] on
    the number of words of the padded message, of which each block takes 16.
    The wait for a frame polls at most [polls] = 42 times, which [menu_wait_ends]
    shows to be enough for its deadline of 2 seconds at .05 seconds a poll.
    All other recursion is structural.  Failures of the file system, of SQLite, of
    hooks and of locks are arguments of the operations, so the theorems hold
    for every pattern of failures.

    ** Not modelled

    Schema creation, migration and the read-only reports of the journal; the
    probe of the installed record reader; the constructors' path checks; error
    message texts; the JSON shapes that the typed documents of the policy and
    of the attention queue exclude.  Of native wakes: the registration of an
    intent and of its policy, the record's fingerprint and identifier syntax,
    records of the older schemas, fields that only repeat a constant or a
    timestamp; [UUID]'s parser is an argument.  Of guarded menus: the recorded
    times, the failures of the locks and the private-path checks.  The command line, the network
    sources and webhook administration, the controller, mailbox, goal
    supervision, sessions, agents, native runtimes, terminals, accounts and
    profiles, time providers, release tooling and scripts are other parts of the
    program. *)
From stdpp Require Export base tactics option list gmap strings numbers sorting.

(** ** Automation *)
Ltac div_lia := Z.to_euclidean_division_equations; lia.

(** ** Results of fallible Python code

    [Done a] is a normal return, [Raised e] an exception; the exception is
    carried as its class or code (the message text plays no role). *)
Inductive result (E A : Type) : Type :=
| Done (a : A)
| Raised (e : E).
Arguments Done {E A} a.
Arguments Raised {E A} e.

#[export] Instance result_ret E : MRet (result E) := λ A a, Done a.
#[export] Instance result_bind E : MBind (result E) := λ A B k r,
  match r with
  | Done a => k a
  | Raised e => Raised e
  end.

Lemma result_bind_Done {E A B} (r : result E A) (k : A → result E B) b :
  r ≫= k = Done b ↔ ∃ a, r = Done a ∧ k a = Done b.
Proof. destruct r; compute; naive_solver. Qed.

(** The exceptions a computation may raise. *)
Definition only {E A} (ok : E → Prop) (r : result E A) : Prop := ∀ e, r = Raised e → ok e.
Lemma only_Done {E A} (ok : E → Prop) (y : A) : only ok (Done y).
Proof. by intros ?. Qed.
Lemma only_Raised {E A} (ok : E → Prop) e : ok e → only (A:=A) ok (Raised e).
Proof. by intros ? ? [= <-]. Qed.
Lemma only_weaken {E A} (ok ok' : E → Prop) (r : result E A) : (∀ e, ok e → ok' e) → only ok r → only ok' r.
Proof. intros Hok Hr e He. by apply Hok, Hr. Qed.
Lemma only_bind {E A B} (ok : E → Prop) (r : result E A) (k : A → result E B) :
  only ok r → (∀ y, r = Done y → only ok (k y)) → only ok (r ≫= k).
Proof. intros Hr Hk e. destruct r as [y|e']; simpl; [by apply Hk|]. intros [= <-]. by apply Hr. Qed.

(** ** Insertion-ordered dictionaries

    A Python [dict] whose iteration order is observable: assignment to an
    existing key keeps its position, a new key goes to the end. *)
Section Dict.
Context {K V : Type} `{EqDecision K}.

Fixpoint dict_get (k : K) (d : list (K * V)) : option V :=
  match d with
  | [] => None
  | (k', v) :: d' => if decide (k = k') then Some v else dict_get k d'
  end.

Fixpoint dict_set (k : K) (v : V) (d : list (K * V)) : list (K * V) :=
  match d with
  | [] => [(k, v)]
  | (k', v') :: d' => if decide (k = k') then (k', v) :: d' else (k', v') :: dict_set k v d'
  end.

Definition dict_keys (d : list (K * V)) : list K := d.*1.

Lemma dict_get_set_eq k v d : dict_get k (dict_set k v d) = Some v.
Proof. induction d as [|[k' v'] d IH]; simpl; repeat case_decide; simpl; by repeat case_decide. Qed.

Lemma dict_get_set_ne k k' v d : k ≠ k' → dict_get k (dict_set k' v d) = dict_get k d.
Proof.
  intros Hne. induction d as [|[k0 v0] d IH]; simpl; repeat case_decide; simpl;
    repeat case_decide; congruence.
Qed.

Lemma dict_get_set k k' v d :
  dict_get k (dict_set k' v d) = if decide (k = k') then Some v else dict_get k d.
Proof. case_decide; subst; [apply dict_get_set_eq | by apply dict_get_set_ne]. Qed.

Lemma dict_get_elem k v d : dict_get k d = Some v → (k, v) ∈ d.
Proof.
  induction d as [|[k' v'] d IH]; simpl; [done|]. case_decide; intros; simplify_eq; set_solver.
Qed.

Lemma dict_get_None k d : dict_get k d = None ↔ k ∉ dict_keys d.
Proof.
  induction d as [|[k' v'] d IH]; simpl; [split; set_solver|].
  case_decide; subst; rewrite ?not_elem_of_cons; naive_solver set_solver.
Qed.

Lemma dict_elem_get k v d : NoDup (dict_keys d) → (k, v) ∈ d → dict_get k d = Some v.
Proof.
  induction d as [|[k' v'] d IH]; simpl; [set_solver|].
  intros [Hni Hnd]%NoDup_cons [Heq|Hin]%elem_of_cons.
  - simplify_eq. by rewrite decide_True.
  - rewrite decide_False; [by apply IH|]. intros ->. apply Hni.
    apply list_elem_of_fmap. by exists (k', v).
Qed.

Lemma dict_keys_cons k v d : dict_keys ((k, v) :: d) = k :: dict_keys d.
Proof. done. Qed.

Lemma dict_keys_set k v d :
  dict_keys (dict_set k v d) = if decide (k ∈ dict_keys d) then dict_keys d else dict_keys d ++ [k].
Proof.
  induction d as [|[k' v'] d IH]; simpl.
  - done.
  - destruct (decide (k = k')) as [->|Hne]; rewrite !dict_keys_cons, ?IH;
      repeat case_decide; set_solver.
Qed.

Lemma dict_keys_set_NoDup k v d : NoDup (dict_keys d) → NoDup (dict_keys (dict_set k v d)).
Proof.
  intros Hnd. rewrite dict_keys_set. case_decide; [done|].
  apply NoDup_app. split_and!; [done| set_solver | apply NoDup_singleton].
Qed.

Lemma dict_set_new k v d : k ∉ dict_keys d → dict_set k v d = d ++ [(k, v)].
Proof.
  induction d as [|[k' v'] d IH]; simpl; [done|]. intros Hni.
  rewrite decide_False by set_solver. rewrite IH; set_solver.
Qed.
End Dict.

Lemma dict_set_elem {K V} `{EqDecision K} (k : K) (v : V) d kv :
  kv ∈ dict_set k v d → kv = (k, v) ∨ kv ∈ d.
Proof.
  induction d as [|[k' v'] d IH]; simpl; [|case_decide; subst]; rewrite ?elem_of_cons; naive_solver.
Qed.
Lemma dict_get_app {K V} `{EqDecision K} (k : K) (d1 d2 : list (K * V)) :
  dict_get k (d1 ++ d2) = match dict_get k d1 with Some v => Some v | None => dict_get k d2 end.
Proof. induction d1 as [|[k' v'] d1 IH]; simpl; [done|]. by case_decide. Qed.

(** ** Lists *)
Lemma forallb_Forall {A} (f : A → bool) l : forallb f l = true ↔ Forall (λ x, f x = true) l.
Proof. rewrite forallb_forall, Forall_forall. by setoid_rewrite list_elem_of_In. Qed.
Lemma list_filter_ext_in {A} (P Q : A → Prop) `{!∀ x, Decision (P x), !∀ x, Decision (Q x)} (l : list A) :
  (∀ x, x ∈ l → (P x ↔ Q x)) → filter P l = filter Q l.
Proof.
  induction l as [|x l IH]; [done|]. intros HPQ. rewrite !filter_cons.
  rewrite IH by set_solver. specialize (HPQ x ltac:(set_solver)). repeat case_decide; naive_solver.
Qed.
Lemma list_filter_all {A} (P : A → Prop) `{!∀ x, Decision (P x)} (l : list A) : Forall P l → filter P l = l.
Proof. induction 1 as [|x l Hx _ IH]; [done|]. by rewrite filter_cons, decide_True, IH. Qed.
