(* ===== verification/Json.v ===== *)
(** * Python text and JSON

    A Python [str] is represented by its UTF-8 bytes (a Rocq [string]):
    [len(s.encode("utf-8"))] is [String.length s], code-point order is byte
    order.  [json] is the part of the JSON data model the modelled components
    serialise: no floats (an input with one is rejected by [loads]).
    [dumps] is [json.dumps(v, sort_keys=True, separators=(",", ":"),
    ensure_ascii=False)], [dumps_ascii] the same with the default
    [ensure_ascii=True], [loads] is [json.loads].  [loads_dumps] is the round
    trip every journal column goes through. *)
From Stdlib Require Import Ascii DecimalString DecimalZ.
From S2P Require Import Prelude.

(** ** Decimal integers *)
Definition Z_dec (z : Z) : string := NilEmpty.string_of_int (Z.to_int z).
Definition dec_Z (s : string) : option Z := Z.of_int <$> NilEmpty.int_of_string s.

Lemma dec_Z_dec z : dec_Z (Z_dec z) = Some z.
Proof. unfold dec_Z, Z_dec. rewrite NilEmpty.isi. simpl. by rewrite DecimalZ.of_to. Qed.

Lemma Z_dec_inj z1 z2 : Z_dec z1 = Z_dec z2 → z1 = z2.
Proof. intros H. apply (f_equal dec_Z) in H. rewrite !dec_Z_dec in H. by simplify_eq. Qed.

(** [f"{n:0{width}d}"] for a nonnegative [n]: zero padding on the left. *)
Fixpoint repeat_char (c : ascii) (n : nat) : string :=
  match n with 0 => EmptyString | S n => String c (repeat_char c n) end.
Definition zero_pad (width : nat) (s : string) : string :=
  repeat_char "0" (width - String.length s) +:+ s.

(** ** Code points *)
Definition byte_of (c : ascii) : Z := Z.of_N (N_of_ascii c).
Definition chr (z : Z) : ascii := ascii_of_N (Z.to_N z).

(** Decoding as a state machine over the bytes: [need] continuation bytes
    are still missing from the code point [acc]. *)
Fixpoint utf8_decode_from (need : nat) (acc : Z) (s : string) : list Z :=
  match s with
  | EmptyString => []
  | String c s' =>
    let b := byte_of c in
    if (b <? 128)%Z then b :: utf8_decode_from 0 0 s'
    else if (b <? 192)%Z then
      match need with
      | 0 => utf8_decode_from 0 0 s'
      | 1 => (acc * 64 + b mod 64)%Z :: utf8_decode_from 0 0 s'
      | S n => utf8_decode_from n (acc * 64 + b mod 64) s'
      end
    else if (b <? 224)%Z then utf8_decode_from 1 (b mod 32) s'
    else if (b <? 240)%Z then utf8_decode_from 2 (b mod 16) s'
    else utf8_decode_from 3 (b mod 8) s'
  end.
Definition code_points (s : string) : list Z := utf8_decode_from 0 0 s.
(** [len(s)]. *)
Definition str_len (s : string) : Z := Z.of_nat (length (code_points s)).

Definition utf8_encode (cp : Z) : string :=
  if (cp <? 128)%Z then String (chr cp) EmptyString
  else if (cp <? 2048)%Z then
    String (chr (192 + cp / 64)) (String (chr (128 + cp mod 64)) EmptyString)
  else if (cp <? 65536)%Z then
    String (chr (224 + cp / 4096)) (String (chr (128 + (cp / 64) mod 64))
      (String (chr (128 + cp mod 64)) EmptyString))
  else
    String (chr (240 + cp / 262144)) (String (chr (128 + (cp / 4096) mod 64))
      (String (chr (128 + (cp / 64) mod 64)) (String (chr (128 + cp mod 64)) EmptyString))).

(** ** String literals *)
Definition dquote : ascii := chr 34.
Definition backslash : ascii := chr 92.

Definition hex_digit (z : Z) : ascii :=
  if (z <? 10)%Z then chr (48 + z) else chr (87 + z).
Definition hex4 (z : Z) : string :=
  String (hex_digit (z / 4096)) (String (hex_digit ((z / 256) mod 16))
    (String (hex_digit ((z / 16) mod 16)) (String (hex_digit (z mod 16)) EmptyString))).
Definition unhex_digit (c : ascii) : option Z :=
  let b := byte_of c in
  if ((48 <=? b) && (b <=? 57))%Z then Some (b - 48)%Z
  else if ((97 <=? b) && (b <=? 102))%Z then Some (b - 87)%Z
  else if ((65 <=? b) && (b <=? 70))%Z then Some (b - 55)%Z
  else None.
Definition unhex4 (a b c d : ascii) : option Z :=
  x ← unhex_digit a; y ← unhex_digit b; z ← unhex_digit c; w ← unhex_digit d;
  Some (x * 4096 + y * 256 + z * 16 + w)%Z.

Definition escape2 (c : ascii) : string := String backslash (String c EmptyString).
Definition escape_u (z : Z) : string := String backslash (String "u" (hex4 z)).

(** The short escapes shared by both encoders. *)
Definition short_escape (b : Z) : option string :=
  if (b =? 34)%Z then Some (escape2 dquote)
  else if (b =? 92)%Z then Some (escape2 backslash)
  else if (b =? 8)%Z then Some (escape2 "b")
  else if (b =? 12)%Z then Some (escape2 "f")
  else if (b =? 10)%Z then Some (escape2 "n")
  else if (b =? 13)%Z then Some (escape2 "r")
  else if (b =? 9)%Z then Some (escape2 "t")
  else None.

(** [ensure_ascii=False]: only quotes, backslashes and C0 controls. *)
Definition escape_byte (c : ascii) : string :=
  match short_escape (byte_of c) with
  | Some e => e
  | None => if (byte_of c <? 32)%Z then escape_u (byte_of c) else String c EmptyString
  end.
Fixpoint escape (s : string) : string :=
  match s with
  | EmptyString => EmptyString
  | String c s' => escape_byte c +:+ escape s'
  end.
Definition quote (s : string) : string := String dquote (escape s +:+ String dquote EmptyString).

(** [ensure_ascii=True]: everything outside printable ASCII, astral code
    points as a surrogate pair. *)
Definition escape_code_point (cp : Z) : string :=
  match short_escape cp with
  | Some e => e
  | None =>
    if ((32 <=? cp) && (cp <=? 126))%Z then String (chr cp) EmptyString
    else if (cp <? 65536)%Z then escape_u cp
    else escape_u (55296 + ((cp - 65536) / 1024) mod 1024) +:+
         escape_u (56320 + (cp - 65536) mod 1024)
  end.
Definition quote_ascii (s : string) : string :=
  String dquote (foldr String.append EmptyString (escape_code_point <$> code_points s)
    +:+ String dquote EmptyString).

(** ** Values *)
Inductive json : Type :=
| JNull
| JBool (b : bool)
| JInt (z : Z)
| JStr (s : string)
| JArr (l : list json)
| JObj (o : list (string * json)).

Section json_ind.
Variable P : json → Prop.
Hypothesis HNull : P JNull.
Hypothesis HBool : ∀ b, P (JBool b).
Hypothesis HInt : ∀ z, P (JInt z).
Hypothesis HStr : ∀ s, P (JStr s).
Hypothesis HArr : ∀ l, Forall P l → P (JArr l).
Hypothesis HObj : ∀ o, Forall (λ kv, P kv.2) o → P (JObj o).

Fixpoint json_nested_ind (v : json) : P v :=
  match v with
  | JNull => HNull
  | JBool b => HBool b
  | JInt z => HInt z
  | JStr s => HStr s
  | JArr l => HArr l ((fix go l : Forall P l :=
      match l with
      | [] => Forall_nil_2 _
      | x :: l => Forall_cons_2 _ _ _ (json_nested_ind x) (go l)
      end) l)
  | JObj o => HObj o ((fix go o : Forall (λ kv : string * json, P kv.2) o :=
      match o with
      | [] => Forall_nil_2 _
      | (k, x) :: o => Forall_cons_2 _ (k, x) _ (json_nested_ind x) (go o)
      end) o)
  end.
End json_ind.

#[export] Instance json_eq_dec : EqDecision json.
Proof.
  refine (fix go (x y : json) : Decision (x = y) :=
    match x, y with
    | JNull, JNull => left eq_refl
    | JBool a, JBool b => cast_if (decide (a = b))
    | JInt a, JInt b => cast_if (decide (a = b))
    | JStr a, JStr b => cast_if (decide (a = b))
    | JArr a, JArr b => cast_if (@decide (a = b) (@list_eq_dec _ go a b))
    | JObj a, JObj b =>
      cast_if (@decide (a = b) (@list_eq_dec _ (@prod_eq_dec _ _ _ go) a b))
    | _, _ => right _
    end); clear go; abstract congruence.
Defined.

(** ** Sorting the keys of an object *)
Fixpoint insert_key {A} (kv : string * A) (l : list (string * A)) : list (string * A) :=
  match l with
  | [] => [kv]
  | kv' :: l' => if String.leb kv.1 kv'.1 then kv :: l else kv' :: insert_key kv l'
  end.
Definition sort_keys {A} (l : list (string * A)) : list (string * A) := foldr insert_key [] l.

Fixpoint join (sep : string) (l : list string) : string :=
  match l with
  | [] => EmptyString
  | [x] => x
  | x :: l' => x +:+ sep +:+ join sep l'
  end.

(** ** Encoding *)
Definition brackets (a b : ascii) (body : string) : string :=
  String a (body +:+ String b EmptyString).

Section dumps_with.
Variable q : string → string.
Definition member (kv : string * string) : string := q kv.1 +:+ ":" +:+ kv.2.

Fixpoint dumps_with (v : json) : string :=
  match v with
  | JNull => "null"
  | JBool true => "true"
  | JBool false => "false"
  | JInt z => Z_dec z
  | JStr s => q s
  | JArr l => brackets "[" "]" (join "," (List.map dumps_with l))
  | JObj o => brackets "{" "}" (join "," (List.map member
      (sort_keys (List.map (λ '(k, x), (k, dumps_with x)) o))))
  end.
End dumps_with.

Definition dumps : json → string := dumps_with quote.
Definition dumps_ascii : json → string := dumps_with quote_ascii.

(** The pieces of [json.dumps(v, sort_keys=True, separators=(',', ':'))], for
    values that hold timestamps. *)
Definition text_object (members : list (string * string)) : string :=
  brackets "{" "}" (join "," (member quote_ascii <$> members)).
Definition text_array (items : list string) : string := brackets "[" "]" (join "," items).

(** What the text forgets: the order of the members. *)
Fixpoint canon (v : json) : json :=
  match v with
  | JArr l => JArr (List.map canon l)
  | JObj o => JObj (sort_keys (List.map (λ '(k, x), (k, canon x)) o))
  | _ => v
  end.

(** ** Decoding *)
Definition is_ws (c : ascii) : bool :=
  let b := byte_of c in (b =? 32)%Z || (b =? 9)%Z || (b =? 10)%Z || (b =? 13)%Z.
Fixpoint skip_ws (s : string) : string :=
  match s with
  | String c s' => if is_ws c then skip_ws s' else s
  | EmptyString => s
  end.

(** The characters of an integer literal. *)
Definition num_char (c : ascii) : bool :=
  let b := byte_of c in ((48 <=? b) && (b <=? 57) || (b =? 45))%Z.
(** The characters that would make it a float. *)
Definition float_char (c : ascii) : bool :=
  let b := byte_of c in ((b =? 46) || (b =? 101) || (b =? 69))%Z.
Fixpoint span (p : ascii → bool) (s : string) : string * string :=
  match s with
  | EmptyString => (EmptyString, EmptyString)
  | String c s' => if p c then let '(a, b) := span p s' in (String c a, b) else (EmptyString, s)
  end.
Fixpoint all_chars (p : ascii → bool) (s : string) : bool :=
  match s with EmptyString => true | String c s' => p c && all_chars p s' end.
Definition starts_with (p : ascii → bool) (s : string) : bool :=
  match s with EmptyString => false | String c _ => p c end.

(** [-?(0|[1-9]\d* )] *)
Definition int_literal (s : string) : bool :=
  match s with
  | String "-" EmptyString => false
  | String "-" (String "0" (String _ _)) => false
  | String "0" (String _ _) => false
  | EmptyString => false
  | _ => true
  end.
Definition parse_int (s : string) : option (json * string) :=
  let '(digits, rest) := span num_char s in
  if int_literal digits && negb (starts_with float_char rest) then
    z ← dec_Z digits; Some (JInt z, rest)
  else None.

(** The body of a string literal after its opening quote. *)
Fixpoint parse_string (s : string) : option (string * string) :=
  match s with
  | EmptyString => None
  | String c s1 =>
    if decide (c = dquote) then Some (EmptyString, s1)
    else if decide (c = backslash) then
      match s1 with
      | EmptyString => None
      | String e s2 =>
        let simple (x : ascii) := '(t, r) ← parse_string s2; Some (String x t, r) in
        if decide (e = dquote) then simple dquote
        else if decide (e = backslash) then simple backslash
        else if decide (e = "/"%char) then simple "/"%char
        else if decide (e = "b"%char) then simple (chr 8)
        else if decide (e = "f"%char) then simple (chr 12)
        else if decide (e = "n"%char) then simple (chr 10)
        else if decide (e = "r"%char) then simple (chr 13)
        else if decide (e = "t"%char) then simple (chr 9)
        else if decide (e = "u"%char) then
          match s2 with
          | String h1 (String h2 (String h3 (String h4 s3))) =>
            hi ← unhex4 h1 h2 h3 h4;
            let alone := '(t, r) ← parse_string s3; Some (utf8_encode hi +:+ t, r) in
            if decide (55296 ≤ hi < 56320)%Z then
              match s3 with
              | String b (String u (String l1 (String l2 (String l3 (String l4 s4))))) =>
                if decide (b = backslash ∧ u = "u"%char) then
                  lo ← unhex4 l1 l2 l3 l4;
                  if decide (56320 ≤ lo < 57344)%Z then
                    '(t, r) ← parse_string s4;
                    Some (utf8_encode (65536 + (hi - 55296) * 1024 + (lo - 56320)) +:+ t, r)
                  else alone
                else alone
              | _ => alone
              end
            else alone
          | _ => None
          end
        else None
      end
    else if (byte_of c <? 32)%Z then None
    else '(t, r) ← parse_string s1; Some (String c t, r)
  end.

Fixpoint strip_prefix (p s : string) : option string :=
  match p, s with
  | EmptyString, _ => Some s
  | String a p', String b s' => if decide (a = b) then strip_prefix p' s' else None
  | _, _ => None
  end.

(** The next significant character, when it is [c]. *)
Definition expect (c : ascii) (s : string) : option string :=
  match skip_ws s with
  | String c' r => if decide (c' = c) then Some r else None
  | EmptyString => None
  end.

(** Values, elements and members; [fuel] bounds the nesting and the length
    and [loads] supplies the length of the text, one character at least being
    consumed by each call. *)
Fixpoint parse_value (fuel : nat) (s : string) {struct fuel} : option (json * string) :=
  match fuel with
  | 0 => None
  | S fuel =>
    match skip_ws s with
    | EmptyString => None
    | String c s1 as s =>
      if decide (c = dquote) then '(t, r) ← parse_string s1; Some (JStr t, r)
      else if decide (c = "["%char) then
        match expect "]" s1 with
        | Some r => Some (JArr [], r)
        | None => '(l, r) ← parse_elements fuel s1; Some (JArr l, r)
        end
      else if decide (c = "{"%char) then
        match expect "}" s1 with
        | Some r => Some (JObj [], r)
        | None => '(o, r) ← parse_members fuel [] s1; Some (JObj o, r)
        end
      else if decide (c = "n"%char) then r ← strip_prefix "null" s; Some (JNull, r)
      else if decide (c = "t"%char) then r ← strip_prefix "true" s; Some (JBool true, r)
      else if decide (c = "f"%char) then r ← strip_prefix "false" s; Some (JBool false, r)
      else parse_int s
    end
  end
with parse_elements (fuel : nat) (s : string) {struct fuel} : option (list json * string) :=
  match fuel with
  | 0 => None
  | S fuel =>
    '(v, r) ← parse_value fuel s;
    match expect "," r with
    | Some r' => '(l, r'') ← parse_elements fuel r'; Some (v :: l, r'')
    | None => r' ← expect "]" r; Some ([v], r')
    end
  end
with parse_members (fuel : nat) (seen : list (string * json)) (s : string) {struct fuel} :
    option (list (string * json) * string) :=
  match fuel with
  | 0 => None
  | S fuel =>
    s1 ← expect dquote s;
    '(k, r) ← parse_string s1;
    r1 ← expect ":" r;
    '(v, r2) ← parse_value fuel r1;
    match expect "," r2 with
    | Some r3 => parse_members fuel (dict_set k v seen) r3
    | None => r3 ← expect "}" r2; Some (dict_set k v seen, r3)
    end
  end.

Definition loads (s : string) : option json :=
  '(v, r) ← parse_value (S (String.length s)) s;
  match skip_ws r with EmptyString => Some v | _ => None end.

Example loads_ex1 :
  dumps <$> loads (dumps (JObj [("b", JArr [JInt (-12); JNull]); ("a", JStr (String dquote "x"))]))
  = Some (dumps (JObj [("b", JArr [JInt (-12); JNull]); ("a", JStr (String dquote "x"))])).
Proof. vm_compute. reflexivity. Qed.
Example dumps_ascii_ex : dumps_ascii (JStr "é") = String dquote ("\u00e9" +:+ String dquote "").
Proof. vm_compute. reflexivity. Qed.

(** ** Comparison and truth *)
(** Python equality of JSON values: key order is irrelevant, [True == 1]. *)
Fixpoint json_norm (v : json) : json :=
  match v with
  | JBool b => JInt (if b then 1 else 0)
  | JArr l => JArr (List.map json_norm l)
  | JObj o => JObj (List.map (λ '(k, x), (k, json_norm x)) o)
  | _ => v
  end.
Definition json_py_eqb (a b : json) : bool := bool_decide (canon (json_norm a) = canon (json_norm b)).
Definition json_truthy (v : json) : bool :=
  match v with
  | JNull => false
  | JBool b => b
  | JInt z => negb (z =? 0)%Z
  | JStr s => negb (bool_decide (s = EmptyString))
  | JArr l => negb (bool_decide (l = []))
  | JObj o => negb (bool_decide (o = []))
  end.

(** ** The round trip *)
Lemma app_cons (x : ascii) (a b : string) : String x a +:+ b = String x (a +:+ b).
Proof. reflexivity. Qed.
Lemma app_empty (b : string) : EmptyString +:+ b = b.
Proof. reflexivity. Qed.
Lemma string_app_assoc (a b c : string) : (a +:+ b) +:+ c = a +:+ (b +:+ c).
Proof. induction a as [|x a IH]; [done|]. by rewrite !app_cons, IH. Qed.
Lemma string_app_nil_r (a : string) : a +:+ EmptyString = a.
Proof. induction a as [|x a IH]; [done|]. by rewrite !app_cons, IH. Qed.
Lemma string_length_app (a b : string) :
  String.length (a +:+ b) = String.length a + String.length b.
Proof. induction a as [|x a IH]; [done|]. rewrite !app_cons. simpl. by rewrite IH. Qed.

Lemma parse_escape_byte c t :
  parse_string (escape_byte c +:+ t) = '(x, r) ← parse_string t; Some (String c x, r).
Proof. destruct c as [[] [] [] [] [] [] [] []]; reflexivity. Qed.

Lemma parse_string_escape s rest :
  parse_string (escape s +:+ String dquote rest) = Some (s, rest).
Proof.
  induction s as [|c s IH]; [done|].
  change (escape (String c s)) with (escape_byte c +:+ escape s).
  rewrite string_app_assoc, parse_escape_byte, IH. done.
Qed.

Lemma insert_key_Permutation {A} (kv : string * A) l : insert_key kv l ≡ₚ kv :: l.
Proof.
  induction l as [|kv' l IH]; simpl; [done|]. case_match; [done|].
  rewrite IH. constructor.
Qed.
Lemma sort_keys_Permutation {A} (l : list (string * A)) : sort_keys l ≡ₚ l.
Proof. induction l as [|kv l IH]; simpl; [done|]. by rewrite insert_key_Permutation, IH. Qed.

Lemma insert_key_map {A B} (f : A → B) kv l :
  insert_key (prod_map id f kv) (prod_map id f <$> l) = prod_map id f <$> insert_key kv l.
Proof.
  induction l as [|kv' l IH]; simpl; [done|].
  destruct (String.leb _ _); csimpl; [done|]. by rewrite <-IH.
Qed.
Lemma sort_keys_map {A B} (f : A → B) l :
  sort_keys (prod_map id f <$> l) = prod_map id f <$> sort_keys l.
Proof. induction l as [|kv l IH]; csimpl; [done|]. by rewrite <-insert_key_map, <-IH. Qed.

(** *** Integer literals *)
Lemma span_app p a rest :
  all_chars p a = true → starts_with p rest = false → span p (a +:+ rest) = (a, rest).
Proof.
  induction a as [|c a IH]; rewrite ?app_cons, ?app_empty; simpl; intros Ha Hr.
  - destruct rest as [|c rest]; simpl in *; [done|]. by rewrite Hr.
  - apply andb_true_iff in Ha as [-> Ha]. by rewrite IH.
Qed.

Lemma uint_chars d : all_chars num_char (NilEmpty.string_of_uint d) = true.
Proof. induction d; simpl; auto. Qed.
Lemma Z_dec_chars z : all_chars num_char (Z_dec z) = true.
Proof. unfold Z_dec. destruct (Z.to_int z) as [d|d]; simpl; apply uint_chars. Qed.

Lemma nb_digits_nzhead d : Decimal.nb_digits (Decimal.nzhead d) ≤ Decimal.nb_digits d.
Proof. induction d; simpl; lia. Qed.
Lemma unorm_no_leading_zero d : Decimal.unorm (Decimal.D0 d) = Decimal.D0 d → d = Decimal.Nil.
Proof.
  unfold Decimal.unorm. simpl. pose proof (nb_digits_nzhead d) as Hle.
  destruct (Decimal.nzhead d) eqn:E; intros H; simplify_eq; try done.
  simpl in Hle. lia.
Qed.
Lemma pos_dec_literal p :
  ∃ c s, NilEmpty.string_of_uint (Pos.to_uint p) = String c s ∧ c ≠ "-"%char ∧
         (c = "0"%char → s = EmptyString).
Proof.
  pose proof (DecimalPos.Unsigned.to_of (Pos.to_uint p)) as Hn.
  rewrite DecimalPos.Unsigned.of_to in Hn. simpl in Hn.
  destruct (Pos.to_uint p) eqn:E; [done|..]; eexists _, _; (split_and!; [done..|]); intros H;
    try discriminate H.
  by rewrite (unorm_no_leading_zero u).
Qed.
Lemma Z_dec_literal z : int_literal (Z_dec z) = true.
Proof.
  destruct z as [|p|p]; [done| |]; unfold Z_dec; simpl;
    destruct (pos_dec_literal p) as (c & s & -> & Hm & H0).
  - destruct (decide (c = "0"%char)) as [->|Hc]; [by rewrite H0|].
    destruct c as [[] [] [] [] [] [] [] []]; try done; by destruct s.
  - destruct (decide (c = "0"%char)) as [->|Hc]; [by rewrite H0|].
    destruct c as [[] [] [] [] [] [] [] []]; try done; by destruct s.
Qed.

Lemma parse_int_dec z rest :
  starts_with num_char rest = false → starts_with float_char rest = false →
  parse_int (Z_dec z +:+ rest) = Some (JInt z, rest).
Proof.
  intros Hn Hf. unfold parse_int. rewrite span_app by (done || apply Z_dec_chars).
  by rewrite Z_dec_literal, Hf, dec_Z_dec.
Qed.

(** *** Values *)
Fixpoint jsize (v : json) : nat :=
  match v with
  | JArr l => S (sum_list_with (λ x, S (jsize x)) l)
  | JObj o => S (sum_list_with (λ '(_, x), S (jsize x)) o)
  | _ => 1
  end.

(** No object repeats a key: the values a Python [dict] can hold. *)
Fixpoint json_ok (v : json) : Prop :=
  match v with
  | JArr l => foldr (λ x P, json_ok x ∧ P) True l
  | JObj o => NoDup o.*1 ∧ foldr (λ '(_, x) P, json_ok x ∧ P) True o
  | _ => True
  end.
Lemma json_ok_arr l : json_ok (JArr l) ↔ Forall json_ok l.
Proof. simpl. induction l as [|x l IH]; simpl; [done|]. by rewrite Forall_cons, IH. Qed.
Lemma json_ok_obj o : json_ok (JObj o) ↔ NoDup o.*1 ∧ Forall (λ kv, json_ok kv.2) o.
Proof.
  simpl. f_equiv. induction o as [|[k x] o IH]; simpl; [done|]. by rewrite Forall_cons, IH.
Qed.

(** What may follow a value: nothing that extends a number. *)
Definition boundary (rest : string) : Prop :=
  starts_with num_char rest = false ∧ starts_with float_char rest = false.

Lemma expect_hit c rest : is_ws c = false → expect c (String c rest) = Some rest.
Proof. intros H. unfold expect. simpl. rewrite H. by rewrite decide_True. Qed.
Lemma expect_miss c c' rest : is_ws c' = false → c' ≠ c → expect c (String c' rest) = None.
Proof. intros H Hne. unfold expect. simpl. rewrite H. by rewrite decide_False. Qed.

(** The first character of an encoded value. *)
Lemma dumps_head v : ∃ c s, dumps v = String c s ∧ is_ws c = false ∧
  c ≠ "]"%char ∧ c ≠ "}"%char.
Proof.
  destruct v as [|[]|z|s|l|o]; try by (eexists _, _; split_and!).
  unfold dumps. simpl. pose proof (Z_dec_chars z) as Hc. pose proof (Z_dec_literal z) as Hl.
  destruct (Z_dec z) as [|c s]; [done|]. exists c, s. simpl in Hc.
  apply andb_true_iff in Hc as [Hc _].
  split_and!; [done|..]; destruct c as [[] [] [] [] [] [] [] []]; done.
Qed.

Lemma sum_list_with_Permutation {A} (f : A → nat) l k :
  l ≡ₚ k → sum_list_with f l = sum_list_with f k.
Proof. induction 1; simpl; lia. Qed.

Lemma member_length q kv : String.length (member q kv) =
  String.length (q kv.1) + S (String.length kv.2).
Proof. unfold member. by rewrite !string_length_app. Qed.

Lemma jsize_length v : jsize v ≤ String.length (dumps v).
Proof.
  induction v as [|[]|z|s|l IH|o IH] using json_nested_ind; simpl; try lia.
  - destruct (dumps_head (JInt z)) as (c & s & Hd & _). change (Z_dec z = String c s) in Hd.
    rewrite Hd. simpl. lia.
  - unfold dumps. simpl. unfold brackets. simpl. rewrite string_length_app. simpl.
    assert (sum_list_with (λ x, S (jsize x)) l ≤
      S (String.length (join "," (List.map dumps l)))); [|unfold dumps in *; lia].
    induction IH as [|x l Hx _ IHl]; simpl; [lia|]. destruct l as [|y l]; simpl in *; [lia|].
    rewrite !string_length_app. simpl. lia.
  - unfold dumps. simpl. unfold brackets. simpl. rewrite string_length_app. simpl.
    set (f := λ '(k, x), (k, dumps_with quote x)).
    assert (∀ p : list (string * json), Forall (λ kv, jsize kv.2 ≤ String.length (dumps kv.2)) p →
      sum_list_with (λ '(_, x), S (jsize x)) p ≤
      S (String.length (join "," (List.map (member quote) (List.map f p))))) as Hp.
    { intros p Hp. induction Hp as [|[k x] p Hx _ IHp]; simpl; [lia|].
      pose proof (member_length quote (f (k, x))) as Hm. simpl in Hm, Hx.
      destruct p as [|y p]; simpl in *;
        rewrite ?string_length_app; simpl; unfold dumps in *; lia. }
    assert (List.map f o = prod_map id (dumps_with quote) <$> o) as ->
      by (apply list_fmap_ext; by intros ? [] ?).
    rewrite sort_keys_map.
    replace (sum_list_with (λ '(_, x), S (jsize x)) o)
      with (sum_list_with (λ '(_, x), S (jsize x)) (sort_keys o))
      by apply sum_list_with_Permutation, sort_keys_Permutation.
    assert (Forall (λ kv, jsize kv.2 ≤ String.length (dumps kv.2)) (sort_keys o)) as Hs%Hp
      by by rewrite sort_keys_Permutation.
    replace (prod_map id (dumps_with quote) <$> sort_keys o) with (List.map f (sort_keys o))
      by (symmetry; apply list_fmap_ext; by intros ? [] ?).
    lia.
Qed.

Lemma dict_set_snoc {V} (k : string) (v : V) d : k ∉ d.*1 → dict_set k v d = d ++ [(k, v)].
Proof. apply dict_set_new. Qed.

Lemma member_app k d rest : member quote (k, d) +:+ rest =
  String dquote (escape k +:+ String dquote (String ":" (d +:+ rest))).
Proof.
  unfold member, quote. simpl. by rewrite !string_app_assoc, app_cons, !string_app_assoc.
Qed.

Lemma join_cons sep x y l : join sep (x :: y :: l) = x +:+ sep +:+ join sep (y :: l).
Proof. done. Qed.
#[local] Arguments expect : simpl never.
#[local] Arguments join : simpl never.

Section round_trip.
Notation f := (prod_map (A:=string) (A':=string) id dumps).
Notation parses v := (∀ fuel rest, jsize v ≤ fuel → boundary rest →
  parse_value fuel (dumps v +:+ rest) = Some (canon v, rest)).

Lemma boundary_char c rest :
  num_char c = false → float_char c = false → boundary (String c rest).
Proof. done. Qed.

Lemma parse_elements_dumps l fuel rest :
  l ≠ [] → Forall (λ v, parses v) l → sum_list_with (λ x, S (jsize x)) l ≤ fuel →
  parse_elements fuel (join "," (dumps <$> l) +:+ String "]" rest)
    = Some (canon <$> l, rest).
Proof.
  intros Hne Hl. revert fuel Hne. induction Hl as [|x l Hx Hl IH]; [done|].
  intros fuel _ Hf. simpl in Hf. destruct fuel as [|fuel]; [lia|].
  destruct l as [|y l].
  - simpl. change (join "," [dumps x]) with (dumps x). rewrite Hx by (done || lia). simpl.
    done.
  - cbn [fmap list_fmap]. rewrite join_cons. change (list_fmap _ _ dumps) with (fmap (M:=list) dumps).
    change (dumps y :: (dumps <$> l)) with (dumps <$> y :: l).
    rewrite !string_app_assoc, app_cons, app_empty. simpl parse_elements.
    rewrite Hx by (done || lia). simpl. rewrite ?expect_hit by done.
    rewrite IH by (done || simpl in *; lia). done.
Qed.

Lemma parse_members_dumps o fuel seen rest :
  o ≠ [] → NoDup (seen.*1 ++ o.*1) → Forall (λ kv, parses kv.2) o →
  sum_list_with (λ '(_, x), S (jsize x)) o ≤ fuel →
  parse_members fuel seen
    (join "," (List.map (member quote) (f <$> o)) +:+ String "}" rest)
    = Some (seen ++ (prod_map id canon <$> o), rest).
Proof.
  intros Hne Hnd Ho. revert fuel seen Hne Hnd.
  induction Ho as [|[k x] o Hx Ho IH]; [done|].
  intros fuel seen _ Hnd Hf. simpl in Hf. destruct fuel as [|fuel]; [lia|]. simpl in Hx.
  assert (k ∉ seen.*1) as Hk.
  { apply NoDup_app in Hnd as (_ & Hd & _). intros Hin. apply (Hd k Hin). simpl. set_solver. }
  destruct o as [|y o].
  - change (join "," (List.map (member quote) (f <$> [(k, x)])))
      with (member quote (k, dumps x)).
    rewrite member_app. simpl parse_members. rewrite ?expect_hit by done. simpl.
    rewrite parse_string_escape. simpl.
    rewrite ?expect_hit by done. simpl. rewrite Hx by (done || lia). simpl.
    rewrite ?expect_miss, ?expect_hit by done. simpl. by rewrite dict_set_snoc.
  - cbn [fmap list_fmap List.map]. rewrite join_cons.
    set (J := join "," _). change (prod_map id dumps (k, x)) with (k, dumps x).
    rewrite string_app_assoc, member_app. simpl parse_members. rewrite ?expect_hit by done. simpl.
    rewrite parse_string_escape. simpl. rewrite ?expect_hit by done. simpl.
    rewrite !string_app_assoc, app_cons, app_empty, Hx by (done || lia). simpl.
    rewrite ?expect_hit by done. rewrite dict_set_snoc by done.
    subst J. rewrite (IH fuel); [|done|..].
    + by rewrite <-app_assoc.
    + rewrite fmap_app, <-app_assoc. done.
    + simpl in *. lia.
Qed.

Lemma expect_dumps_miss c x l t : c = "]"%char ∨ c = "}"%char →
  expect c (join "," (dumps <$> x :: l) +:+ t) = None.
Proof.
  intros Hc. destruct (dumps_head x) as (c' & s & E & Hw & Hn1 & Hn2).
  assert (∃ s', join "," (dumps <$> x :: l) +:+ t = String c' s') as [s' ->].
  { destruct l; csimpl; rewrite ?join_cons, ?string_app_assoc.
    - change (join "," [dumps x]) with (dumps x). rewrite E, app_cons. eauto.
    - rewrite E, app_cons. eauto. }
  apply expect_miss; [done|]. destruct Hc; congruence.
Qed.
Lemma expect_members_miss o t : o ≠ [] →
  expect "}" (join "," (List.map (member quote) (f <$> o)) +:+ t) = None.
Proof.
  intros Hne. destruct o as [|[k x] o]; [done|].
  assert (∃ s', join "," (List.map (member quote) (f <$> (k, x) :: o)) +:+ t
    = String dquote s') as [s' ->].
  { destruct o as [|y o]; cbn [fmap list_fmap List.map].
    - change (join "," [member quote (prod_map id dumps (k, x))])
        with (member quote (k, dumps x)). rewrite member_app. eauto.
    - rewrite join_cons, string_app_assoc. change (prod_map id dumps (k, x)) with (k, dumps x).
      rewrite member_app. eauto. }
  by apply expect_miss.
Qed.
Lemma dumps_obj o : dumps (JObj o) =
  brackets "{" "}" (join "," (List.map (member quote) (f <$> sort_keys o))).
Proof.
  rewrite <-(sort_keys_map dumps o). unfold dumps. simpl. do 3 f_equal.
  f_equal. apply list_fmap_ext. by intros ? [] ?.
Qed.
Lemma canon_obj o : canon (JObj o) = JObj (prod_map id canon <$> sort_keys o).
Proof.
  rewrite <-(sort_keys_map canon o). simpl. do 2 f_equal. apply list_fmap_ext. by intros ? [] ?.
Qed.

Lemma parse_value_dumps v : json_ok v → parses v.
Proof.
  induction v as [|[]|z|s|l IH|o IH] using json_nested_ind; intros Hok fuel rest Hf Hb;
    (destruct fuel as [|fuel]; [simpl in Hf; lia|]).
  1-3: done.
  - pose proof (Z_dec_chars z) as Hc. pose proof (Z_dec_literal z) as Hl.
    pose proof (parse_int_dec z rest (proj1 Hb) (proj2 Hb)) as Hp.
    change (dumps (JInt z)) with (Z_dec z). destruct (Z_dec z) as [|c s]; [done|].
    simpl in Hc. apply andb_true_iff in Hc as [Hc _]. rewrite app_cons in *. simpl.
    destruct c as [[] [] [] [] [] [] [] []]; done.
  - change (dumps (JStr s)) with (quote s). unfold quote. rewrite app_cons. simpl.
    by rewrite string_app_assoc, app_cons, app_empty, parse_string_escape.
  - apply json_ok_arr in Hok. simpl in Hf.
    assert (Forall (λ v, parses v) l) as Hl
      by (rewrite Forall_forall in IH, Hok |- *; intros x Hx; apply (IH x Hx), Hok, Hx).
    change (dumps (JArr l)) with (brackets "[" "]" (join "," (dumps <$> l))).
    unfold brackets. rewrite app_cons, string_app_assoc, app_cons, app_empty. simpl.
    destruct l as [|x l]; [done|].
    rewrite (expect_dumps_miss "]") by (left; done).
    rewrite parse_elements_dumps by (done || lia). done.
  - apply json_ok_obj in Hok as [Hnd Hok]. simpl in Hf.
    assert (Forall (λ kv, parses kv.2) (sort_keys o)) as Ho.
    { rewrite sort_keys_Permutation.
      rewrite Forall_forall in IH, Hok |- *. intros kv Hin. apply (IH kv Hin), Hok, Hin. }
    rewrite dumps_obj, canon_obj. unfold brackets.
    rewrite app_cons, string_app_assoc, app_cons, app_empty. simpl.
    destruct (decide (o = [])) as [->|Hne]; [done|].
    assert (sort_keys o ≠ []) as Hne'.
    { intros E. apply Hne. apply Permutation_nil_r. by rewrite <-E, sort_keys_Permutation. }
    rewrite expect_members_miss by done.
    rewrite parse_members_dumps; [done|done|..].
    + by rewrite sort_keys_Permutation.
    + done.
    + rewrite (sum_list_with_Permutation _ _ _ (sort_keys_Permutation o)). lia.
Qed.
End round_trip.

(** [json.loads] inverts the canonical encoder, up to the order of members. *)
Lemma loads_dumps v : json_ok v → loads (dumps v) = Some (canon v).
Proof.
  intros Hok. unfold loads. rewrite <-(string_app_nil_r (dumps v)) at 2.
  rewrite parse_value_dumps; [done|done| |done].
  pose proof (jsize_length v). lia.
Qed.

(** *** Zero padding keeps the value *)
Lemma uint_zeros k s d : NilEmpty.uint_of_string s = Some d →
  ∃ d', NilEmpty.uint_of_string (repeat_char "0" k +:+ s) = Some d' ∧ Z.of_uint d' = Z.of_uint d.
Proof.
  intros Hs. induction k as [|k (d' & Hd' & Hz)]; [cbn [repeat_char]|].
  - exists d. by rewrite app_empty.
  - cbn [repeat_char]. rewrite app_cons. cbn [NilEmpty.uint_of_string]. rewrite Hd'. simpl. by eexists.
Qed.
Lemma zero_pad_inj w n m : (0 ≤ n)%Z → (0 ≤ m)%Z → zero_pad w (Z_dec n) = zero_pad w (Z_dec m) → n = m.
Proof.
  intros Hn Hm Heq.
  assert (∀ z, (0 ≤ z)%Z → ∃ d, NilEmpty.uint_of_string (zero_pad w (Z_dec z)) = Some d ∧ Z.of_uint d = z) as Hz.
  { intros z Hz. unfold zero_pad. assert (∃ u, Z.to_int z = Decimal.Pos u) as [u Hu].
    { destruct z; simpl; try lia; by eexists. }
    assert (NilEmpty.uint_of_string (Z_dec z) = Some u) as Hs.
    { unfold Z_dec. rewrite Hu. simpl. apply NilEmpty.usu. }
    destruct (uint_zeros (w - String.length (Z_dec z)) _ _ Hs) as (d & Hd & Hv). exists d. split; [done|].
    rewrite Hv. pose proof (DecimalZ.of_to z) as Ho. by rewrite Hu in Ho. }
  destruct (Hz n Hn) as (d & Hd & <-), (Hz m Hm) as (d' & Hd' & <-). rewrite Heq in Hd. congruence.
Qed.
