(* ===== verification/Sha256.v ===== *)
(** * SHA-256

    [hashlib.sha256(text.encode("utf-8")).hexdigest()]: the journal
    fingerprints every registration, contract and observation with it.  The
    function is executable (FIPS 180-4 on 32-bit words held in [Z]); no
    theorem assumes it injective, the ones that need two texts to be told
    apart say so about the texts at hand. *)
From S2P Require Import Prelude Json.

Definition round_constants : list Z := [
    1116352408; 1899447441; 3049323471; 3921009573; 961987163; 1508970993; 2453635748;
    2870763221; 3624381080; 310598401; 607225278; 1426881987; 1925078388; 2162078206;
    2614888103; 3248222580; 3835390401; 4022224774; 264347078; 604807628; 770255983;
    1249150122; 1555081692; 1996064986; 2554220882; 2821834349; 2952996808; 3210313671;
    3336571891; 3584528711; 113926993; 338241895; 666307205; 773529912; 1294757372;
    1396182291; 1695183700; 1986661051; 2177026350; 2456956037; 2730485921; 2820302411;
    3259730800; 3345764771; 3516065817; 3600352804; 4094571909; 275423344; 430227734;
    506948616; 659060556; 883997877; 958139571; 1322822218; 1537002063; 1747873779;
    1955562222; 2024104815; 2227730452; 2361852424; 2428436474; 2756734187; 3204031479;
    3329325298]%Z.
Definition initial_hash : list Z := [
    1779033703; 3144134277; 1013904242; 2773480762; 1359893119; 2600822924; 528734635;
    1541459225]%Z.

Definition word_mask : Z := 4294967295%Z.
Definition add32 (a b : Z) : Z := Z.land (a + b) word_mask.
Definition not32 (a : Z) : Z := Z.lxor a word_mask.
Definition rotr (n x : Z) : Z :=
  Z.lor (Z.shiftr x n) (Z.land (Z.shiftl x (32 - n)) word_mask).
Definition xor3 (a b c : Z) : Z := Z.lxor a (Z.lxor b c).

Fixpoint bytes_of (s : string) : list Z :=
  match s with EmptyString => [] | String c s' => byte_of c :: bytes_of s' end.

(** Message, the bit 1, zeros to 56 modulo 64, and the bit length. *)
Definition padded (s : string) : list Z :=
  let msg := bytes_of s in
  let n := Z.of_nat (length msg) in
  msg ++ 128%Z :: replicate (Z.to_nat ((55 - n) mod 64)) 0%Z ++
  ((λ i, Z.land (Z.shiftr (8 * n) (8 * i)) 255) <$> [7; 6; 5; 4; 3; 2; 1; 0]%Z).

Fixpoint words_of (l : list Z) : list Z :=
  match l with
  | a :: b :: c :: d :: l' => (a * 16777216 + b * 65536 + c * 256 + d)%Z :: words_of l'
  | _ => []
  end.

(** The schedule, most recent word first: [w] holds at least 16 words. *)
Definition next_word (w : list Z) : Z :=
  let at_ i := default 0%Z (w !! i) in
  let s0 := xor3 (rotr 7 (at_ 14)) (rotr 18 (at_ 14)) (Z.shiftr (at_ 14) 3) in
  let s1 := xor3 (rotr 17 (at_ 1)) (rotr 19 (at_ 1)) (Z.shiftr (at_ 1) 10) in
  add32 (add32 (at_ 15) s0) (add32 (at_ 6) s1).
Definition schedule (block : list Z) : list Z :=
  reverse (Nat.iter 48 (λ w, next_word w :: w) (reverse block)).

Definition hash_round (st : list Z) (kw : Z * Z) : list Z :=
  match st with
  | [a; b; c; d; e; f; g; h] =>
    let s1 := xor3 (rotr 6 e) (rotr 11 e) (rotr 25 e) in
    let ch := Z.lxor (Z.land e f) (Z.land (not32 e) g) in
    let t1 := add32 (add32 h s1) (add32 (add32 ch kw.1) kw.2) in
    let s0 := xor3 (rotr 2 a) (rotr 13 a) (rotr 22 a) in
    let maj := xor3 (Z.land a b) (Z.land a c) (Z.land b c) in
    [add32 t1 (add32 s0 maj); a; b; c; add32 d t1; e; f; g]
  | _ => st
  end.
Definition hash_block (st block : list Z) : list Z :=
  zip_with add32 st (foldl hash_round st (zip round_constants (schedule block))).
Fixpoint hash_blocks (fuel : nat) (st words : list Z) : list Z :=
  match fuel with
  | 0 => st
  | S fuel => match words with [] => st | _ => hash_blocks fuel (hash_block st (take 16 words)) (drop 16 words) end
  end.

Definition hex8 (w : Z) : string := hex4 (Z.shiftr w 16) +:+ hex4 (Z.land w 65535).

(** One block per 16 words, so the number of words is fuel enough. *)
Definition sha256 (s : string) : string :=
  let words := words_of (padded s) in
  foldr String.append EmptyString (hex8 <$> hash_blocks (length words) initial_hash words).

Example sha256_abc : sha256 "abc" =
  "ba7816bf8f01cfea414140de5dae2223b00361a396177a9cb410ff61f20015ad".
Proof. vm_compute. reflexivity. Qed.
Example sha256_two_blocks :
  sha256 "abcdbcdecdefdefgefghfghighijhijkijkljklmklmnlmnomnopnopq" =
  "248d6a61d20638b8e5c026930c3e6039a33ce45964ff2167f6ecedd419db06c1".
Proof. vm_compute. reflexivity. Qed.
#[global] Opaque sha256.
