(* ===== verification/Datetime.v ===== *)
(** * Aware datetimes and their text

    An aware [datetime] is its instant: microseconds since the Unix epoch
    ([Z]); [astimezone(UTC)] is then the identity.  Python's calendar holds the
    years 1 to 9999, [calendar_range].  [format_time] is the journal's
    [value.astimezone(UTC).isoformat().replace("+00:00", "Z")], [parse_time] its
    [datetime.fromisoformat(value.replace("Z", "+00:00")).astimezone(UTC)] on
    the extended spelling [isoformat] writes (other ISO spellings, which no
    modelled component writes, are rejected). *)
From Stdlib Require Import Ascii.
From S2P Require Import Prelude Json.
Open Scope Z_scope.

Definition us_second : Z := 1000000.
Definition us_day : Z := 86400000000.
Definition calendar_min : Z := -62135596800000000.
Definition calendar_max : Z := 253402300799999999.
Definition calendar_range (t : Z) : Prop := calendar_min ≤ t ≤ calendar_max.

(** ** The proleptic Gregorian calendar, in 400-year eras starting in March *)
Record civil := Civil { year : Z; month : Z; day : Z }.
#[export] Instance civil_eq_dec : EqDecision civil.
Proof. solve_decision. Defined.

Definition month_of_doy (doy : Z) : Z * Z :=
  let mp := (5 * doy + 2) / 153 in
  (if mp <? 10 then mp + 3 else mp - 9, doy - (153 * mp + 2) / 5 + 1).
Definition civil_of_era_day (doe : Z) : Z * Z * Z :=
  let n100 := (doe / 36524) `min` 3 in
  let r100 := doe - n100 * 36524 in
  let n4 := r100 / 1461 in
  let r4 := r100 - n4 * 1461 in
  let n1 := (r4 / 365) `min` 3 in
  let '(m, d) := month_of_doy (r4 - n1 * 365) in
  (n100 * 100 + n4 * 4 + n1, m, d).
Definition civil_from_days (n : Z) : civil :=
  let z := n + 719468 in
  let '(yoe, m, d) := civil_of_era_day (z mod 146097) in
  Civil (yoe + z / 146097 * 400 + (if m <=? 2 then 1 else 0)) m d.
Definition doy_of (m d : Z) : Z := (153 * (m + (if m >? 2 then -3 else 9)) + 2) / 5 + d - 1.
Definition era_day_of (yoe m d : Z) : Z := yoe * 365 + yoe / 4 - yoe / 100 + doy_of m d.
Definition days_from_civil (c : civil) : Z :=
  let y := year c - (if month c <=? 2 then 1 else 0) in
  y / 400 * 146097 + era_day_of (y mod 400) (month c) (day c) - 719468.

(** ** Fixed-width decimal fields *)
Definition digit (v : Z) : ascii := chr (48 + v).
Fixpoint pad (n : nat) (v : Z) : string :=
  match n with
  | O => EmptyString
  | S n => String (digit (v / 10 ^ Z.of_nat n mod 10)) (pad n v)
  end.
Definition undigit (c : ascii) : option Z :=
  let b := byte_of c in if (48 <=? b) && (b <=? 57) then Some (b - 48) else None.
Fixpoint digits (n : nat) (acc : Z) (s : string) : option (Z * string) :=
  match n with
  | O => Some (acc, s)
  | S n => match s with
           | String c s' => d ← undigit c; digits n (acc * 10 + d) s'
           | EmptyString => None
           end
  end.
Definition lit (c : ascii) (s : string) : option string :=
  match s with
  | String c' s' => if decide (c' = c) then Some s' else None
  | EmptyString => None
  end.

(** ** Formatting *)
Definition format_date (c : civil) : string :=
  pad 4 (year c) +:+ "-" +:+ pad 2 (month c) +:+ "-" +:+ pad 2 (day c).
Definition isoformat_utc (suffix : string) (t : Z) : string :=
  let us := t mod us_day in
  let s := us / us_second in
  format_date (civil_from_days (t / us_day)) +:+ "T" +:+
  pad 2 (s / 3600) +:+ ":" +:+ pad 2 (s / 60 mod 60) +:+ ":" +:+ pad 2 (s mod 60) +:+
  (if us mod us_second =? 0 then EmptyString else "." +:+ pad 6 (us mod us_second)) +:+ suffix.
Definition format_time (t : Z) : string := isoformat_utc "Z" t.
(** [format_utc] of records.py drops the microseconds first. *)
Definition format_utc (t : Z) : string := format_time (t - t mod us_second).

(** ** Parsing *)
Fixpoint replace_Z (s : string) : string :=
  match s with
  | EmptyString => EmptyString
  | String c s' => if decide (c = "Z"%char) then "+00:00" +:+ replace_Z s' else String c (replace_Z s')
  end.

(** At most [n] fraction digits count, further ones are dropped. *)
Fixpoint fraction_digits (n : nat) (acc : Z) (s : string) : Z * string :=
  match s with
  | String c s' =>
    match undigit c with
    | Some d => match n with
                | O => fraction_digits O acc s'
                | S n => fraction_digits n (acc * 10 + d) s'
                end
    | None => (acc * 10 ^ Z.of_nat n, s)
    end
  | EmptyString => (acc * 10 ^ Z.of_nat n, s)
  end.
Definition fraction (s : string) : option (Z * string) :=
  match s with
  | String c (String d s') =>
    if decide (c = "."%char ∨ c = ","%char) then
      _ ← undigit d; Some (fraction_digits 6 0 (String d s'))
    else Some (0, s)
  | _ => Some (0, s)
  end.
Definition offset (s : string) : option Z :=
  match s with
  | String c s' =>
    sign ← (if decide (c = "+"%char) then Some 1 else if decide (c = "-"%char) then Some (-1) else None);
    '(h, s) ← digits 2 0 s'; s ← lit ":" s; '(m, s) ← digits 2 0 s;
    if decide (h < 24 ∧ m < 60 ∧ s = EmptyString) then Some (sign * (h * 60 + m) * 60 * us_second)
    else None
  | EmptyString => None
  end.
Definition fromisoformat (s : string) : option Z :=
  '(y, s) ← digits 4 0 s; s ← lit "-" s;
  '(mo, s) ← digits 2 0 s; s ← lit "-" s;
  '(d, s) ← digits 2 0 s; s ← lit "T" s;
  '(h, s) ← digits 2 0 s; s ← lit ":" s;
  '(mi, s) ← digits 2 0 s; s ← lit ":" s;
  '(sec, s) ← digits 2 0 s;
  '(us, s) ← fraction s;
  off ← offset s;
  let c := Civil y mo d in
  (* a date is valid when it is the date of its own day number *)
  if decide (1 ≤ y ∧ civil_from_days (days_from_civil c) = c ∧ h < 24 ∧ mi < 60 ∧ sec < 60) then
    let t := days_from_civil c * us_day + (h * 3600 + mi * 60 + sec) * us_second + us - off in
    if decide (calendar_min ≤ t ≤ calendar_max) then Some t else None
  else None.
Definition parse_time (s : string) : option Z := fromisoformat (replace_Z s).

Example format_time_ex : format_time 1767323045000123 = "2026-01-02T03:04:05.000123Z".
Proof. vm_compute. reflexivity. Qed.
Example format_time_ex2 : format_time calendar_min = "0001-01-01T00:00:00Z".
Proof. vm_compute. reflexivity. Qed.
Example parse_time_ex : parse_time "2024-02-29T23:59:59.5+01:30" = Some 1709245799500000.
Proof. vm_compute. reflexivity. Qed.
Example parse_time_bad : parse_time "2023-02-29T00:00:00Z" = None.
Proof. vm_compute. reflexivity. Qed.

(** ** The round trip *)
Definition doy_check (doy : Z) : bool :=
  let '(m, d) := month_of_doy doy in
  (1 <=? m) && (m <=? 12) && (1 <=? d) && (d <=? 31) && (doy_of m d =? doy) &&
  Bool.eqb (m <=? 2) (306 <=? doy).
Lemma doy_checked doy : 0 ≤ doy < 366 → doy_check doy = true.
Proof.
  intros H. assert (forallb doy_check (seqZ 0 366) = true) as Hall by (vm_compute; reflexivity).
  rewrite forallb_forall in Hall. apply Hall, list_elem_of_In, elem_of_seqZ. lia.
Qed.

Lemma era_checked doe : 0 ≤ doe < 146097 →
  let '(yoe, m, d) := civil_of_era_day doe in
  0 ≤ yoe < 400 ∧ 1 ≤ m ≤ 12 ∧ 1 ≤ d ≤ 31 ∧ era_day_of yoe m d = doe ∧
  (doe < 306 ∨ 1 ≤ yoe + (if m <=? 2 then 1 else 0)) ∧
  (doe > 146036 ∨ yoe + (if m <=? 2 then 1 else 0) < 400).
Proof.
  intros H. unfold civil_of_era_day.
  remember ((doe / 36524) `min` 3) as n100 eqn:E100. remember (doe - n100 * 36524) as r100 eqn:R100.
  remember (r100 / 1461) as n4 eqn:E4. remember (r100 - n4 * 1461) as r4 eqn:R4.
  remember ((r4 / 365) `min` 3) as n1 eqn:E1.
  assert (0 ≤ n100 ≤ 3) by div_lia. assert (0 ≤ r100 ≤ 36524 ∧ (n100 < 3 → r100 < 36524)) by div_lia.
  assert (0 ≤ n4 ≤ 24) by div_lia. assert (0 ≤ r4 ≤ 1460) by div_lia. assert (0 ≤ n1 ≤ 3) by div_lia.
  assert (0 ≤ r4 - n1 * 365 < 366) as Hdoy by div_lia.
  pose proof (doy_checked _ Hdoy) as Hc. unfold doy_check in Hc.
  destruct (month_of_doy _) as [m d].
  rewrite !andb_true_iff in Hc. destruct Hc as [[[[[? ?] ?] ?] ?] Hm%Bool.eqb_prop].
  unfold era_day_of.
  assert ((n100 * 100 + n4 * 4 + n1) / 4 = n100 * 25 + n4) as -> by div_lia.
  assert ((n100 * 100 + n4 * 4 + n1) / 100 = n100) as -> by div_lia.
  destruct (m <=? 2) eqn:?; div_lia.
Qed.

Lemma civil_round_trip n : days_from_civil (civil_from_days n) = n.
Proof.
  unfold civil_from_days. set (z := n + 719468).
  pose proof (Z.mod_pos_bound z 146097 ltac:(lia)) as Hz.
  pose proof (era_checked _ Hz) as Hc.
  destruct (civil_of_era_day (z mod 146097)) as [[yoe m] d].
  unfold days_from_civil. simpl.
  replace (yoe + z / 146097 * 400 + (if m <=? 2 then 1 else 0) - (if m <=? 2 then 1 else 0))
    with (yoe + z / 146097 * 400) by lia.
  destruct Hc as (? & ? & ? & ? & ? & ?).
  rewrite Z.div_add, Z.mod_add, Z.div_small, Z.mod_small by lia.
  pose proof (Z.div_mod z 146097). lia.
Qed.

Lemma civil_bounds n : -719162 ≤ n ≤ 2932896 →
  let c := civil_from_days n in
  1 ≤ year c ≤ 9999 ∧ 1 ≤ month c ≤ 12 ∧ 1 ≤ day c ≤ 31.
Proof.
  intros Hn. unfold civil_from_days. set (z := n + 719468).
  pose proof (Z.mod_pos_bound z 146097 ltac:(lia)) as Hz.
  pose proof (Z.div_mod z 146097 ltac:(lia)) as Hdm.
  pose proof (era_checked _ Hz) as Hc.
  destruct (civil_of_era_day (z mod 146097)) as [[yoe m] d]. simpl.
  destruct Hc as (? & ? & ? & ? & ? & ?).
  assert (0 ≤ z / 146097 ≤ 24) by (subst z; lia).
  destruct (m <=? 2); lia.
Qed.

Lemma undigit_digit v : 0 ≤ v < 10 → undigit (digit v) = Some v.
Proof.
  intros Hv. assert (v ∈ [0;1;2;3;4;5;6;7;8;9]) as Hin.
  { rewrite !elem_of_cons. lia. }
  rewrite !elem_of_cons, elem_of_nil in Hin. by destruct_or! Hin; subst.
Qed.
Lemma digits_pad n v acc rest :
  digits n acc (pad n v +:+ rest) = Some (acc * 10 ^ Z.of_nat n + v mod 10 ^ Z.of_nat n, rest).
Proof.
  revert acc. induction n as [|n IH]; intros acc; simpl pad.
  - simpl. rewrite app_empty, Z.mod_1_r. do 2 f_equal. lia.
  - rewrite app_cons. cbn [digits].
    rewrite undigit_digit by (apply Z.mod_pos_bound; lia). simpl. rewrite IH. do 2 f_equal.
    rewrite Nat2Z.inj_succ, Z.pow_succ_r, (Z.mul_comm 10 (10 ^ _)) by lia.
    rewrite (Z.rem_mul_r v) by lia. lia.
Qed.
Lemma digits_pad_small n v rest : 0 ≤ v < 10 ^ Z.of_nat n →
  digits n 0 (pad n v +:+ rest) = Some (v, rest).
Proof. intros Hv. rewrite digits_pad, Z.mod_small by done. done. Qed.
Lemma lit_hit c rest : lit c (String c rest) = Some rest.
Proof. simpl. by rewrite decide_True. Qed.
(** No field of the text contains the letter that [replace_Z] rewrites. *)
Lemma replace_Z_pad n v rest : replace_Z (pad n v +:+ rest) = pad n v +:+ replace_Z rest.
Proof.
  induction n as [|n IH]; simpl pad; [done|]. rewrite !app_cons. simpl.
  rewrite decide_False, IH; [done|].
  assert (∀ v, 0 ≤ v < 10 → digit v ≠ "Z"%char) as Hd.
  { intros w Hw Heq. pose proof (undigit_digit w Hw) as Hu. by rewrite Heq in Hu. }
  apply Hd, Z.mod_pos_bound. lia.
Qed.

Lemma offset_utc : offset "+00:00" = Some 0.
Proof. reflexivity. Qed.

Lemma fraction_utc us : 0 ≤ us < us_second →
  fraction (if us =? 0 then "+00:00" else String "." (pad 6 us +:+ "+00:00")) = Some (us, "+00:00").
Proof.
  intros Hus. destruct (us =? 0) eqn:E; [assert (us = 0) as -> by lia; reflexivity|].
  pose proof (digits_pad_small 6 us "+00:00" ltac:(unfold us_second in Hus; lia)) as Hd.
  cbn [pad] in *. rewrite !app_cons in *. cbn [digits] in Hd. cbn [fraction].
  rewrite decide_True by (by left).
  repeat (rewrite undigit_digit in Hd by (apply Z.mod_pos_bound; lia); cbn [option_bind mbind digits] in Hd).
  rewrite !app_empty in *.
  rewrite undigit_digit by (apply Z.mod_pos_bound; lia). cbn [option_bind mbind].
  repeat (cbn [fraction_digits]; rewrite undigit_digit by (apply Z.mod_pos_bound; lia)).
  simpl fraction_digits. f_equal. injection Hd as Hd. f_equal. rewrite <- Hd at 7. lia.
Qed.

Lemma replace_Z_suffix us :
  replace_Z ((if us =? 0 then EmptyString else "." +:+ pad 6 us) +:+ "Z") =
  if us =? 0 then "+00:00" else String "." (pad 6 us +:+ "+00:00").
Proof.
  destruct (us =? 0); [reflexivity|].
  rewrite app_cons, app_empty, app_cons. cbn [replace_Z].
  rewrite decide_False by done. f_equal. apply replace_Z_pad.
Qed.

Lemma replace_Z_skip c rest : c ≠ "Z"%char → replace_Z (String c rest) = String c (replace_Z rest).
Proof. intros Hc. simpl. by rewrite decide_False. Qed.

(** Formatting an instant of Python's calendar and parsing it back is the
    identity. *)
Theorem parse_format_time t : calendar_range t → parse_time (format_time t) = Some t.
Proof.
  intros Ht. unfold parse_time, format_time, isoformat_utc, format_date.
  set (c := civil_from_days (t / us_day)). set (us := t mod us_day).
  assert (-719162 ≤ t / us_day ≤ 2932896) as Hday by
    (unfold calendar_range, calendar_min, calendar_max, us_day in *; div_lia).
  assert (0 ≤ us < us_day) as Hus by (apply Z.mod_pos_bound; done).
  pose proof (civil_bounds _ Hday) as (Hy & Hm & Hd).
  pose proof (civil_round_trip (t / us_day)) as Hrt. fold c in Hy, Hm, Hd, Hrt.
  assert (0 ≤ us / us_second < 86400) as Hsec by (unfold us_second, us_day in *; div_lia).
  assert (0 ≤ us / us_second / 3600 < 24) as Hh by div_lia.
  assert (0 ≤ us / us_second / 60 mod 60 < 60) as Hmi by (apply Z.mod_pos_bound; lia).
  assert (0 ≤ us / us_second mod 60 < 60) as Hs by (apply Z.mod_pos_bound; lia).
  assert (0 ≤ us mod us_second < us_second) as Hf by (apply Z.mod_pos_bound; done).
  rewrite !string_app_assoc, !app_cons, !app_empty.
  repeat first [rewrite replace_Z_pad | rewrite replace_Z_skip by done].
  rewrite replace_Z_suffix.
  unfold fromisoformat.
  repeat first [rewrite digits_pad_small by lia; cbn [mbind option_bind] | rewrite lit_hit; cbn [mbind option_bind]].
  rewrite (fraction_utc _ Hf). cbn [mbind option_bind]. rewrite offset_utc. cbn [mbind option_bind].
  replace (Civil (year c) (month c) (day c)) with c by (by destruct c).
  rewrite decide_True by (rewrite Hrt; split_and!; done || lia).
  rewrite Hrt.
  assert (t = t / us_day * us_day + us) as Ht' by (unfold us, us_day; div_lia).
  assert (us = us / us_second * us_second + us mod us_second) by
    (unfold us_second; clear; div_lia).
  assert (∀ s, 0 ≤ s < 86400 → s / 3600 * 3600 + s / 60 mod 60 * 60 + s mod 60 = s) as Hsplit
    by (intros; div_lia).
  rewrite Hsplit by done.
  replace (t / us_day * us_day + _ + _ - 0) with t by lia. by rewrite decide_True.
Qed.
