(* ===== verification/Signals.v ===== *)
(** * The signal vocabulary (src/src/codex_wake/signals.py)

    The dataclasses of signals.py as records and inductive types, the pure
    validation and matching helpers, and the adapter and runner interfaces.
    [Literal] fields are strings, as the code compares them; instants are
    microseconds ([Datetime]); an [Invalid] or [Degraded] carries its wake id
    and code, not the explanatory [issues] text. *)
From S2P Require Import Prelude Json.
Open Scope Z_scope.

(** ** JSON scalars and Python equality *)
Inductive JsonScalar : Type :=
| SStr (s : string)
| SInt (z : Z)
| SBool (b : bool).
#[export] Instance JsonScalar_eq_dec : EqDecision JsonScalar.
Proof. solve_decision. Defined.

(** The classes [type(value)] can be, and the ones a contract can name. *)
Inductive JsonType : Type := TStr | TInt | TBool | TOther (name : string).
#[export] Instance JsonType_eq_dec : EqDecision JsonType.
Proof. solve_decision. Defined.

Definition type_of (v : JsonScalar) : JsonType :=
  match v with SStr _ => TStr | SInt _ => TInt | SBool _ => TBool end.

(** Python's [True == 1]: equality is equality of the numeric values. *)
Definition norm (v : JsonScalar) : JsonScalar :=
  match v with SBool b => SInt (if b then 1 else 0) | _ => v end.
Definition py_eqb (a b : JsonScalar) : bool := bool_decide (norm a = norm b).

Definition scalar_json (v : JsonScalar) : json :=
  match v with SStr s => JStr s | SInt z => JInt z | SBool b => JBool b end.

Notation attributes := (gmap string JsonScalar).
Definition attributes_json (a : attributes) : json :=
  JObj (prod_map id scalar_json <$> map_to_list a).

(** ** Requests *)
Inductive WhereClause : Type :=
| Eq (field : string) (value : JsonScalar)
| In (field : string) (values : list JsonScalar).
#[export] Instance WhereClause_eq_dec : EqDecision WhereClause.
Proof. solve_decision. Defined.

Definition clause_field (c : WhereClause) : string :=
  match c with Eq f _ => f | In f _ => f end.

Record SignalRequest := {
  spec_contract_version : JsonScalar;
  spec_source : string;
  spec_source_instance : string;
  spec_semantics : string;
  spec_kind : string;
  spec_subject : string;
  spec_condition : string;
  spec_where : list WhereClause;
  spec_verification : string;
}.
#[export] Instance SignalRequest_eq_dec : EqDecision SignalRequest.
Proof. solve_decision. Defined.

Record Resume := {
  resume_prompt : string;
  resume_cwd : string;
  resume_target : list (string * json);
}.
#[export] Instance Resume_eq_dec : EqDecision Resume.
Proof. solve_decision. Defined.

Record WakeIntent := {
  intent_when : SignalRequest;
  intent_resume : Resume;
  intent_expires_at : option Z;
  intent_max_attempts : Z;
}.

(** ** Sources *)
Record SourceAnchor := {
  local_after_sequence : Z;
  source_anchor : string;
  baseline : attributes;
  recovery : string;
}.
#[export] Instance SourceAnchor_eq_dec : EqDecision SourceAnchor.
Proof. solve_decision. Defined.

Record SourceContract := {
  contract_source : string;
  contract_source_instance : string;
  kinds : gset string;
  subjects : gset string;
  allowed_attributes : gmap string JsonType;
  max_clauses : Z;
  max_in_values : Z;
  max_attribute_bytes : Z;
  max_evidence_ref_bytes : Z;
  occurrence_order_attribute : option string;
}.
#[export] Instance SourceContract_eq_dec : EqDecision SourceContract.
Proof. solve_decision. Defined.

Record Verification := { verification_state : string; verification_method : string }.
#[export] Instance Verification_eq_dec : EqDecision Verification.
Proof. solve_decision. Defined.

Record NormalizedObservation := {
  obs_source : string;
  obs_source_instance : string;
  obs_kind : string;
  obs_subject : string;
  occurrence_namespace : string;
  occurrence_value : string;
  occurred_at : Z;
  observed_at : Z;
  obs_attributes : attributes;
  verification : Verification;
  evidence_ref : option string;
}.
#[export] Instance NormalizedObservation_eq_dec : EqDecision NormalizedObservation.
Proof. solve_decision. Defined.

Record SourceCommit := {
  commit_source : string;
  commit_source_instance : string;
  checkpoint : string;
  checkpoint_order : Z;
  observed_through : Z;
}.
#[export] Instance SourceCommit_eq_dec : EqDecision SourceCommit.
Proof. solve_decision. Defined.

(** ** Outcomes *)
Record ReceiptRef := { receipt_id : string; local_sequence : Z; duplicate : bool }.
#[export] Instance ReceiptRef_eq_dec : EqDecision ReceiptRef.
Proof. solve_decision. Defined.

Record Ingested := { receipts : list ReceiptRef; ingested_checkpoint : string }.

Record EvaluationLimits := {
  max_candidates : Z;
  limit_attribute_bytes : Z;
  limit_evidence_ref_bytes : Z;
}.

Record EvidenceSummary := {
  evidence_receipt_id : string;
  evidence_local_sequence : Z;
  evidence_evidence_ref : option string;
  evidence_attributes : attributes;
  evidence_verification_state : string;
  evidence_verification_method : string;
}.
#[export] Instance EvidenceSummary_eq_dec : EqDecision EvidenceSummary.
Proof. solve_decision. Defined.

Record Matched := {
  matched_wake_id : string;
  match_token : string;
  matched_receipt : EvidenceSummary;
  matched_at : Z;
}.
#[export] Instance Matched_eq_dec : EqDecision Matched.
Proof. solve_decision. Defined.

Record NotReady := { not_ready_wake_id : string; scanned_through_sequence : Z }.
Record Expired := { expired_wake_id : string; expired_at : Z }.
Record Invalid := invalid { invalid_wake_id : option string; invalid_code : string }.
Record Degraded := {
  degraded_wake_id : option string;
  degraded_code : string;
  retry_at : option Z;
  degraded_evidence_ref : option string;
}.
Definition degraded (w : option string) (code : string) : Degraded :=
  {| degraded_wake_id := w; degraded_code := code; retry_at := None; degraded_evidence_ref := None |}.

#[export] Instance NotReady_eq_dec : EqDecision NotReady.
Proof. solve_decision. Defined.
#[export] Instance Expired_eq_dec : EqDecision Expired.
Proof. solve_decision. Defined.
#[export] Instance Invalid_eq_dec : EqDecision Invalid.
Proof. solve_decision. Defined.
#[export] Instance Degraded_eq_dec : EqDecision Degraded.
Proof. solve_decision. Defined.
#[export] Instance Ingested_eq_dec : EqDecision Ingested.
Proof. solve_decision. Defined.

Record Registration := {
  registration_wake_id : string;
  registration_arm_id : string;
  registration_contract_version : Z;
  registration_source : string;
  registration_source_instance : string;
  registration_subject : string;
  registration_registered_at : Z;
  registration_recovery : string;
}.

Record ArmedSignal := {
  wake_id : string;
  arm_id : string;
  spec : SignalRequest;
  anchor : SourceAnchor;
  registered_at : Z;
  expires_at : option Z;
  publication : string;
}.
#[export] Instance ArmedSignal_eq_dec : EqDecision ArmedSignal.
Proof. solve_decision. Defined.

(** The unions the engine returns. *)
Inductive ArmResult := ArmDone (a : ArmedSignal) | ArmDegraded (d : Degraded) | ArmInvalid (i : Invalid).
Inductive AnchorResult :=
| AnchorDone (a : SourceAnchor) | AnchorDegraded (d : Degraded) | AnchorInvalid (i : Invalid).
Inductive IngestResult :=
| IngestDone (r : Ingested) | IngestDegraded (d : Degraded) | IngestInvalid (i : Invalid).
Inductive Evaluation :=
| EvalMatched (m : Matched) | EvalNotReady (n : NotReady) | EvalDegraded (d : Degraded)
| EvalInvalid (i : Invalid) | EvalExpired (e : Expired).
#[export] Instance IngestResult_eq_dec : EqDecision IngestResult.
Proof. solve_decision. Defined.
#[export] Instance Evaluation_eq_dec : EqDecision Evaluation.
Proof. solve_decision. Defined.
#[export] Instance ArmResult_eq_dec : EqDecision ArmResult.
Proof. solve_decision. Defined.

(** ** Interfaces *)
(** The [SignalSourceAdapter] protocol; an adapter may keep state and raise. *)
Class SignalSourceAdapter (A : Type) := {
  contract : A → result string SourceContract;
  establish_anchor : A → SignalRequest → Z → result string AnchorResult * A;
}.

Record ArmContext {A : Type} := {
  idempotency_key : string;
  intent_fingerprint : string;
  context_registered_at : Z;
  context_expires_at : option Z;
  context_resume : Resume;
  adapter : A;
  max_attempts : Z;
}.
Arguments ArmContext A : clear implicits.

(** [ScriptedSourceAdapter]: the [n]-th call answers the [n]-th configured
    result, the last one for ever; the constructor refuses an empty script. *)
Record ScriptedSourceAdapter := {
  scripted_contract : SourceContract;
  scripted_anchors : list AnchorResult;
  anchor_calls : nat;
}.
Definition scripted_init (c : SourceContract) (anchor : option AnchorResult)
    (anchors : list AnchorResult) : result string ScriptedSourceAdapter :=
  match (match anchors with [] => option_list anchor | _ => anchors end) with
  | [] => Raised "ValueError"
  | configured => Done {| scripted_contract := c; scripted_anchors := configured; anchor_calls := 0 |}
  end.
Definition scripted_establish (a : ScriptedSourceAdapter) : AnchorResult * ScriptedSourceAdapter :=
  let index := Nat.min (anchor_calls a) (length (scripted_anchors a) - 1) in
  (nth index (scripted_anchors a) (AnchorInvalid (invalid None EmptyString)),
   {| scripted_contract := scripted_contract a; scripted_anchors := scripted_anchors a;
      anchor_calls := S (anchor_calls a) |}).
#[export] Instance scripted_adapter : SignalSourceAdapter ScriptedSourceAdapter := {
  contract a := Done (scripted_contract a);
  establish_anchor a _ _ := let '(r, a) := scripted_establish a in (Done r, a);
}.

(** ** Health of a source *)
Definition _SOURCE_HEALTH_CODES : list string := [
  "RUNTIME_NOT_OBSERVED"; "RUNTIME_READY"; "RUNTIME_SOURCE_UNSUPPORTED";
  "RUNTIME_AUTHORIZATION_DENIED"; "RUNTIME_OBSERVATION_UNAVAILABLE";
  "RUNTIME_OBSERVATION_AMBIGUOUS"; "RUNTIME_BASELINE_MATCHES"; "RUNTIME_RESOURCE_LIMIT";
  "RUNTIME_ANCHOR_INVALID"; "RUNTIME_REQUEST_INVALID"; "RUNTIME_CHECKPOINT_UNAVAILABLE";
  "RUNTIME_CHECKPOINT_INVALID"; "RUNTIME_INGEST_UNAVAILABLE"; "RUNTIME_PUBLICATION_UNAVAILABLE";
  "SYSTEMD_READY"; "SYSTEMD_SOURCE_UNSUPPORTED"; "SYSTEMD_CAPABILITY_DENIED";
  "SYSTEMD_AUTHORIZATION_DENIED"; "SYSTEMD_SIGNAL_NOT_ALLOWED"; "SYSTEMD_BASELINE_MATCHES";
  "SYSTEMD_OBSERVATION_UNAVAILABLE"; "SYSTEMD_UNIT_UNAVAILABLE"; "SYSTEMD_RESOURCE_LIMIT";
  "SYSTEMD_CHECKPOINT_UNAVAILABLE"; "SYSTEMD_CHECKPOINT_INVALID"; "SYSTEMD_INGEST_UNAVAILABLE";
  "SYSTEMD_ANCHOR_INVALID";
  "GITHUB_AUTH_UNAVAILABLE"; "GITHUB_RATE_LIMITED"; "GITHUB_SOURCE_UNAVAILABLE";
  "GITHUB_VERIFICATION_FAILED"; "GITHUB_RESPONSE_INVALID";
  "GITHUB_POLL_BUDGET_EXHAUSTED"; "GITHUB_COVERAGE_UNPROVEN";
  "GITHUB_HISTORY_GAP"; "GITHUB_PAGINATION_INVALID"; "STORE_UNAVAILABLE";
  "HTTP_JSON_SOURCE_UNAVAILABLE";
  "A2A_READY"; "A2A_ANCHOR_INVALID"; "A2A_AUTHORITY_UNAVAILABLE";
  "A2A_PUBLICATION_UNAVAILABLE" ].

Record SourceInstanceReconcileResult := {
  instance_source : string;
  instance_source_instance : string;
  instance_scanned : Z;
  instance_observed : Z;
  instance_degraded : Z;
  health_code : string;
  instance_observed_at : option Z;
}.
Record SourceReconcileResult := {
  reconcile_source : string;
  scanned : Z;
  observed : Z;
  reconcile_degraded : Z;
  instances : list SourceInstanceReconcileResult;
}.

(** [__post_init__]: the constructor refuses an unknown health code (the
    types and awareness of the fields are the record's). *)
Definition reconcile_row (source source_instance : string) (sc ob dg : Z) (code : string)
    (at_ : option Z) : result string SourceInstanceReconcileResult :=
  if (80 <? str_len code) ||
     (negb (bool_decide (code = EmptyString)) && negb (bool_decide (code ∈ _SOURCE_HEALTH_CODES)))
  then Raised "ValueError"
  else Done {| instance_source := source; instance_source_instance := source_instance;
               instance_scanned := sc; instance_observed := ob; instance_degraded := dg;
               health_code := code; instance_observed_at := at_ |}.

Record UnavailableSourceRunner := {
  runner_source : string;
  runner_source_instance : string;
  runner_health_code : string;
}.
Definition unavailable_reconcile (r : UnavailableSourceRunner) (now : Z) :
    result string SourceReconcileResult :=
  row ← reconcile_row (runner_source r) (runner_source_instance r) 0 0 1 (runner_health_code r) (Some now);
  Done {| reconcile_source := runner_source r; scanned := 0; observed := 0; reconcile_degraded := 1;
          instances := [row] |}.

(** ** Validation *)
Definition _invalid_signal : Invalid := invalid None "INVALID_SIGNAL".

Definition _valid_occurrence_order (c : SourceContract) (spec : SignalRequest) : bool :=
  match occurrence_order_attribute c with
  | None => true
  | Some key =>
    bool_decide (allowed_attributes c !! key = Some TInt) &&
    bool_decide ((spec_semantics spec, spec_condition spec) = ("occurrence", "occurs"))
  end.

Definition valid_clause (c : SourceContract) (clause : WhereClause) : bool :=
  match allowed_attributes c !! clause_field clause with
  | None => false
  | Some expected_type =>
    match clause with
    | Eq _ value => bool_decide (type_of value = expected_type)
    | In _ values =>
      negb (bool_decide (values = []) || (max_in_values c <? Z.of_nat (length values))) &&
      forallb (λ value, bool_decide (type_of value = expected_type)) values
    end
  end.

Definition _validate_signal (spec : SignalRequest) (c : SourceContract) : option Invalid :=
  if negb (_valid_occurrence_order c spec) then Some _invalid_signal
  else if negb (bool_decide (spec_contract_version spec = SInt 1)) then Some _invalid_signal
  else if negb (bool_decide (spec_source spec = contract_source c) &&
                bool_decide (spec_source_instance spec = contract_source_instance c))
  then Some _invalid_signal
  else if negb (bool_decide (spec_kind spec ∈ kinds c) && bool_decide (spec_subject spec ∈ subjects c))
  then Some _invalid_signal
  else if negb (bool_decide ((spec_semantics spec, spec_condition spec) ∈
                  [("occurrence", "occurs"); ("state", "holds"); ("state", "becomes")]))
  then Some _invalid_signal
  else if max_clauses c <? Z.of_nat (length (spec_where spec)) then Some _invalid_signal
  else if forallb (valid_clause c) (spec_where spec) then None
  else Some _invalid_signal.

Definition _validate_occurrence_anchor (c : SourceContract) (spec : SignalRequest)
    (anchor : SourceAnchor) : option Invalid :=
  if _valid_occurrence_order c spec &&
     match occurrence_order_attribute c with
     | None => true
     | Some key => bool_decide (type_of <$> baseline anchor !! key = Some TInt)
     end
  then None
  else Some (invalid None "OCCURRENCE_ANCHOR_INVALID").

(** ** Matching *)
(** [value > anchor.baseline[key]] on an [int] value: a missing key is a
    [KeyError], a string baseline a [TypeError]. *)
Definition _occurrence_is_after_anchor (obs_attrs : attributes) (c : SourceContract)
    (anchor : SourceAnchor) : result string (bool + Invalid) :=
  match occurrence_order_attribute c with
  | None => Done (inl true)
  | Some key =>
    match obs_attrs !! key with
    | Some (SInt value) =>
      match norm <$> baseline anchor !! key with
      | Some (SInt base) => Done (inl (base <? value))
      | Some _ => Raised "TypeError"
      | None => Raised "KeyError"
      end
    | _ => Done (inr (invalid None "OCCURRENCE_ORDER_INVALID"))
    end
  end.

Definition clause_matches (attrs : attributes) (clause : WhereClause) : bool :=
  match clause with
  | Eq f value => match attrs !! f with Some v => py_eqb v value | None => false end
  | In f values => match attrs !! f with Some v => existsb (py_eqb v) values | None => false end
  end.
Definition _matches (attrs : attributes) (clauses : list WhereClause) : bool :=
  forallb (clause_matches attrs) clauses.

(** ** The attributes an observation may carry *)
(** [str.casefold] on the code points whose folding contains ASCII (the whole
    table); any other code point is left alone, no test below sees it. *)
Definition casefold_point (cp : Z) : list Z :=
  if (65 <=? cp) && (cp <=? 90) then [cp + 32]
  else match dict_get cp [
    (223, [115; 115]); (304, [105; 775]); (329, [700; 110]); (383, [115]);
    (496, [106; 780]); (7830, [104; 817]); (7831, [116; 776]); (7832, [119; 778]);
    (7833, [121; 778]); (7834, [97; 702]); (7838, [115; 115]); (8490, [107]);
    (64256, [102; 102]); (64257, [102; 105]); (64258, [102; 108]);
    (64259, [102; 102; 105]); (64260, [102; 102; 108]); (64261, [115; 116]); (64262, [115; 116]) ] with
  | Some folded => folded
  | None => [cp]
  end.
Definition casefold (s : string) : list Z := code_points s ≫= casefold_point.

Fixpoint is_prefix (p s : list Z) : bool :=
  match p, s with
  | [], _ => true
  | a :: p', b :: s' => (a =? b) && is_prefix p' s'
  | _, _ => false
  end.
Fixpoint contains (part s : list Z) : bool :=
  is_prefix part s || match s with [] => false | _ :: s' => contains part s' end.

Definition forbidden_name (name : string) : bool :=
  existsb (λ part, contains (code_points part) (casefold name))
    ["authorization"; "cookie"; "password"; "secret"; "signature"; "token"].

Definition attribute_allowed (c : SourceContract) (kv : string * JsonScalar) : bool :=
  negb (forbidden_name kv.1) && bool_decide (allowed_attributes c !! kv.1 = Some (type_of kv.2)).
Definition attributes_allowed (c : SourceContract) (a : attributes) : bool :=
  forallb (attribute_allowed c) (map_to_list a).
