(* ===== verification/SignalMemory.v ===== *)
(** * The in-memory signal engine (signals.py, [InMemorySignalModule])

    The whole module as a state record [mem] and its four operations; the
    first half of the file translates the code, the second proves what the
    engine promises: its invariant over every history, atomic and idempotent
    ingestion, and evaluation that picks the earliest eligible receipt and
    then never changes its mind.  An operation returns the value or exception
    of the call together with the state the call leaves behind. *)
From S2P Require Import Prelude Json Signals.
Open Scope Z_scope.

Notation occurrence := (string * string * string * string)%type.

(** Dataclass equality, which compares attribute values with Python [==]. *)
Definition observation_key (o : NormalizedObservation) : NormalizedObservation :=
  {| obs_source := obs_source o; obs_source_instance := obs_source_instance o;
     obs_kind := obs_kind o; obs_subject := obs_subject o;
     occurrence_namespace := occurrence_namespace o; occurrence_value := occurrence_value o;
     occurred_at := occurred_at o; observed_at := observed_at o;
     obs_attributes := norm <$> obs_attributes o;
     verification := verification o; evidence_ref := evidence_ref o |}.
Definition observation_eqb (a b : NormalizedObservation) : bool :=
  bool_decide (observation_key a = observation_key b).

Definition identity (o : NormalizedObservation) : occurrence :=
  (obs_source o, obs_source_instance o, occurrence_namespace o, occurrence_value o).
Definition source_key (o : NormalizedObservation) : string * string :=
  (obs_source o, obs_source_instance o).

Record mem := Mem {
  _registrations : list (string * (string * ArmedSignal));
  _preparations : gmap string (string * string);
  _contracts : gmap (string * string) SourceContract;
  _receipts : list (occurrence * (NormalizedObservation * ReceiptRef));
  _checkpoints : gmap (string * string) SourceCommit;
  _reservations : gmap string Matched;
  _next_sequence : Z;
}.
Definition mem_init : mem := Mem [] ∅ ∅ [] ∅ ∅ 1.

(** ** arm *)
Definition arm_identifier (wake_id : string) : string := "arm_" +:+ wake_id.

Definition arm `{SignalSourceAdapter A} (m : mem) (wake_id : string) (spec : SignalRequest)
    (context : ArmContext A) : result string ArmResult * mem * A :=
  match contract (adapter context) with
  | Raised e => (Raised e, m, adapter context)
  | Done c =>
  match _validate_signal spec c with
  | Some i => (Done (ArmInvalid i), m, adapter context)
  | None =>
    match dict_get (idempotency_key context) (_registrations m) with
    | Some (fingerprint, armed) =>
      if bool_decide (fingerprint = intent_fingerprint context)
      then (Done (ArmDone armed), m, adapter context)
      else (Done (ArmInvalid (invalid (Some (Signals.wake_id armed)) "IDEMPOTENCY_CONFLICT")), m, adapter context)
    | None =>
      match (match _preparations m !! idempotency_key context with
             | Some (fingerprint, reserved) =>
               if bool_decide (fingerprint = intent_fingerprint context)
               then inr (reserved, m)
               else inl (invalid (Some reserved) "IDEMPOTENCY_CONFLICT")
             | None => inr (wake_id, Mem (_registrations m)
                 (<[idempotency_key context := (intent_fingerprint context, wake_id)]> (_preparations m))
                 (_contracts m) (_receipts m) (_checkpoints m) (_reservations m) (_next_sequence m))
             end) with
      | inl i => (Done (ArmInvalid i), m, adapter context)
      | inr (wake_id, m) =>
        match establish_anchor (adapter context) spec (context_registered_at context) with
        | (Raised e, a) => (Raised e, m, a)
        | (Done (AnchorDegraded d), a) =>
          (Done (ArmDegraded {| degraded_wake_id := Some wake_id; degraded_code := degraded_code d;
             retry_at := retry_at d; degraded_evidence_ref := degraded_evidence_ref d |}), m, a)
        | (Done (AnchorInvalid i), a) => (Done (ArmInvalid i), m, a)
        | (Done (AnchorDone anchor), a) =>
          match _validate_occurrence_anchor c spec anchor with
          | Some i => (Done (ArmInvalid i), m, a)
          | None =>
            let armed := {| Signals.wake_id := wake_id; arm_id := arm_identifier wake_id; Signals.spec := spec;
                Signals.anchor := anchor; registered_at := context_registered_at context;
                expires_at := context_expires_at context; publication := "published" |} in
            (Done (ArmDone armed),
             Mem (dict_set (idempotency_key context) (intent_fingerprint context, armed) (_registrations m))
               (_preparations m)
               (<[(contract_source c, contract_source_instance c) := c]> (_contracts m))
               (_receipts m) (_checkpoints m) (_reservations m) (_next_sequence m), a)
          end
        end
      end
    end
  end
  end.

(** ** ingest *)
Definition checkpoint_conflict (previous : option SourceCommit) (commit : SourceCommit) : option Invalid :=
  match previous with
  | None => None
  | Some p =>
    if checkpoint_order commit <? checkpoint_order p
    then Some (invalid None "CHECKPOINT_REGRESSION")
    else if (checkpoint_order commit =? checkpoint_order p) &&
            negb (bool_decide (checkpoint commit = checkpoint p))
    then Some (invalid None "CHECKPOINT_CONFLICT")
    else None
  end.

(** The checks of one observation against its source's contract, in the
    order of the loop body. *)
Definition outside_contract (c : SourceContract) (o : NormalizedObservation) : bool :=
  negb (bool_decide (obs_kind o ∈ kinds c)) || negb (bool_decide (obs_subject o ∈ subjects c)) ||
  bool_decide (occurrence_namespace o = EmptyString) || bool_decide (occurrence_value o = EmptyString) ||
  negb (bool_decide (verification_state (verification o) ∈ ["verified"; "pending"; "rejected"])) ||
  bool_decide (verification_method (verification o) = EmptyString).
Definition utf8_bytes (s : string) : Z := Z.of_nat (String.length s).
Definition evidence_too_long (limit : Z) (r : option string) : bool :=
  match r with Some r => limit <? utf8_bytes r | None => false end.
Definition attribute_bytes (a : attributes) : Z :=
  Z.of_nat (String.length (dumps_ascii (attributes_json a))).
Definition check_observation (c : SourceContract) (o : NormalizedObservation) : option Invalid :=
  if outside_contract c o then Some (invalid None "OBSERVATION_OUTSIDE_CONTRACT")
  else if evidence_too_long (max_evidence_ref_bytes c) (evidence_ref o)
       then Some (invalid None "EVIDENCE_LIMIT_EXCEEDED")
  else if negb (attributes_allowed c (obs_attributes o)) then Some (invalid None "ATTRIBUTE_NOT_ALLOWED")
  else if max_attribute_bytes c <? attribute_bytes (obs_attributes o)
       then Some (invalid None "ATTRIBUTE_LIMIT_EXCEEDED")
  else None.

Notation staging := (list (occurrence * NormalizedObservation)).
Definition conflicts (existing : option NormalizedObservation) (o : NormalizedObservation) : bool :=
  match existing with Some o' => negb (observation_eqb o' o) | None => false end.
(** One round of the staging loop; [inr] is the extended [staged] dict. *)
Definition stage_observation (m : mem) (staged : staging) (o : NormalizedObservation) : Invalid + staging :=
  match _contracts m !! source_key o with
  | None => inl (invalid None "SOURCE_NOT_CONFIGURED")
  | Some c =>
    match check_observation c o with
    | Some i => inl i
    | None =>
      if conflicts (fst <$> dict_get (identity o) (_receipts m)) o
      then inl (invalid None "OCCURRENCE_IDENTITY_CONFLICT")
      else if conflicts (dict_get (identity o) staged) o
      then inl (invalid None "OCCURRENCE_IDENTITY_CONFLICT")
      else inr (dict_set (identity o) o staged)
    end
  end.
Fixpoint stage (m : mem) (staged : staging) (obs : list NormalizedObservation) : Invalid + staging :=
  match obs with
  | [] => inr staged
  | o :: obs =>
    match stage_observation m staged o with
    | inl i => inl i
    | inr staged => stage m staged obs
    end
  end.

Definition event_id (sequence : Z) : string := "event_" +:+ zero_pad 12 (Z_dec sequence).
(** One round of the loop that turns staged observations into receipts. *)
Definition add_receipt (m : mem) (item : occurrence * NormalizedObservation) : mem :=
  match dict_get item.1 (_receipts m) with
  | Some _ => m
  | None =>
    Mem (_registrations m) (_preparations m) (_contracts m)
      (dict_set item.1 (item.2, {| receipt_id := event_id (_next_sequence m);
          local_sequence := _next_sequence m; duplicate := false |}) (_receipts m))
      (_checkpoints m) (_reservations m) (_next_sequence m + 1)
  end.

Fixpoint ingest_results (m : mem) (preexisting returned : list occurrence)
    (obs : list NormalizedObservation) : result string (list ReceiptRef) :=
  match obs with
  | [] => Done []
  | o :: obs =>
    match dict_get (identity o) (_receipts m) with
    | None => Raised "KeyError"
    | Some (_, receipt) =>
      let was_duplicate := bool_decide (identity o ∈ preexisting) || bool_decide (identity o ∈ returned) in
      rest ← ingest_results m preexisting (returned ++ [identity o]) obs;
      Done ({| receipt_id := receipt_id receipt; local_sequence := local_sequence receipt;
               duplicate := was_duplicate |} :: rest)
    end
  end.

Definition set_checkpoint (m : mem) (k : string * string) (commit : SourceCommit) : mem :=
  Mem (_registrations m) (_preparations m) (_contracts m) (_receipts m)
    (<[k := commit]> (_checkpoints m)) (_reservations m) (_next_sequence m).

Definition ingest (m : mem) (observations : list NormalizedObservation) (commit : SourceCommit) :
    result string IngestResult * mem :=
  let key := (commit_source commit, commit_source_instance commit) in
  if existsb (λ o, negb (bool_decide (source_key o = key))) observations
  then (Done (IngestInvalid (invalid None "SOURCE_COMMIT_MISMATCH")), m)
  else match checkpoint_conflict (_checkpoints m !! key) commit with
  | Some i => (Done (IngestInvalid i), m)
  | None =>
    match stage m [] observations with
    | inl i => (Done (IngestInvalid i), m)
    | inr staged =>
      let m' := foldl add_receipt m staged in
      match ingest_results m' (dict_keys (_receipts m)) [] observations with
      | Raised e => (Raised e, m')
      | Done refs =>
        (Done (IngestDone {| receipts := refs; ingested_checkpoint := checkpoint commit |}),
         set_checkpoint m' key commit)
      end
    end
  end.

Definition source_checkpoint (m : mem) (source source_instance : string) : option SourceCommit :=
  _checkpoints m !! (source, source_instance).

(** ** evaluate *)
Notation candidate := (NormalizedObservation * ReceiptRef)%type.

(** What one round of the loop over the receipts makes of a row. *)
Inductive row :=
| Skip
| AwaitsVerification
| Candidate
| Bad (i : Invalid).

Definition classify (c : SourceContract) (armed : ArmedSignal) (item : candidate) : result string row :=
  let '(o, r) := item in
  if local_sequence r <=? local_after_sequence (anchor armed) then Done Skip
  else if negb (bool_decide ((obs_source o, obs_source_instance o, obs_kind o, obs_subject o) =
                  (spec_source (spec armed), spec_source_instance (spec armed),
                   spec_kind (spec armed), spec_subject (spec armed))))
  then Done Skip
  else
    after ← _occurrence_is_after_anchor (obs_attributes o) c (anchor armed);
    Done match after with
         | inr i => Bad i
         | inl after =>
           if negb after || negb (_matches (obs_attributes o) (spec_where (spec armed))) then Skip
           else if bool_decide (spec_verification (spec armed) = "required") &&
                   negb (bool_decide (verification_state (verification o) = "verified"))
           then if bool_decide (verification_state (verification o) = "pending")
                then AwaitsVerification else Skip
           else Candidate
         end.

(** The loop: the candidates, and whether a matching receipt still awaits
    verification. *)
Fixpoint scan_receipts (c : SourceContract) (armed : ArmedSignal) (rows : list candidate) :
    result string (Invalid + list candidate * bool) :=
  match rows with
  | [] => Done (inr ([], false))
  | item :: rows =>
    class ← classify c armed item;
    match class with
    | Bad i => Done (inl i)
    | Skip => scan_receipts c armed rows
    | AwaitsVerification =>
      rest ← scan_receipts c armed rows;
      Done (match rest with inr (cs, _) => inr (cs, true) | inl i => inl i end)
    | Candidate =>
      rest ← scan_receipts c armed rows;
      Done (match rest with inr (cs, pending) => inr (item :: cs, pending) | inl i => inl i end)
    end
  end.

Definition candidate_le (a b : candidate) : Prop := local_sequence a.2 ≤ local_sequence b.2.
#[export] Instance candidate_le_dec a b : Decision (candidate_le a b) := Z_le_dec _ _.

#[export] Instance candidate_le_trans : Transitive candidate_le.
Proof. intros a b c. unfold candidate_le. lia. Qed.
#[export] Instance candidate_le_total : Total candidate_le.
Proof. intros a b. unfold candidate_le. lia. Qed.

Definition evidence_of (item : candidate) : EvidenceSummary :=
  {| evidence_receipt_id := receipt_id item.2; evidence_local_sequence := local_sequence item.2;
     evidence_evidence_ref := evidence_ref item.1; evidence_attributes := obs_attributes item.1;
     evidence_verification_state := verification_state (verification item.1);
     evidence_verification_method := verification_method (verification item.1) |}.

Definition reserve (m : mem) (w : string) (matched : Matched) : mem :=
  Mem (_registrations m) (_preparations m) (_contracts m) (_receipts m) (_checkpoints m)
    (<[w := matched]> (_reservations m)) (_next_sequence m).

Definition decide_candidates (m : mem) (w : string) (now : Z) (limits : EvaluationLimits)
    (candidates : list candidate) (pending : bool) : Evaluation * mem :=
  let candidates := merge_sort candidate_le candidates in
  if max_candidates limits <? Z.of_nat (length candidates)
  then (EvalDegraded (degraded (Some w) "EVALUATION_BUDGET_EXHAUSTED"), m)
  else match candidates with
  | [] =>
    if pending then (EvalDegraded (degraded (Some w) "VERIFICATION_PENDING"), m)
    else (EvalNotReady {| not_ready_wake_id := w; scanned_through_sequence := _next_sequence m - 1 |}, m)
  | (o, r) :: _ =>
    if (limit_attribute_bytes limits <? attribute_bytes (obs_attributes o)) ||
       (limit_evidence_ref_bytes limits <? utf8_bytes (default EmptyString (evidence_ref o)))
    then (EvalDegraded (degraded (Some w) "EVALUATION_BUDGET_EXHAUSTED"), m)
    else
      let matched := {| matched_wake_id := w; match_token := "match:" +:+ w +:+ ":" +:+ receipt_id r;
                        matched_receipt := evidence_of (o, r); matched_at := now |} in
      (EvalMatched matched, reserve m w matched)
  end.

(** The durable registration of a wake, for contracts ordered by an
    attribute; otherwise the caller's armed signal is used as it is. *)
Definition durable_signal (m : mem) (w : string) (c : SourceContract) (armed : ArmedSignal) :
    option ArmedSignal :=
  match occurrence_order_attribute c with
  | None => Some armed
  | Some _ =>
    match List.find (λ a, bool_decide (Signals.wake_id a = w)) ((snd ∘ snd) <$> _registrations m) with
    | Some durable => if bool_decide (arm_id durable = arm_id armed) then Some durable else None
    | None => None
    end
  end.

Definition evaluate_receipts (m : mem) (w : string) (c : SourceContract) (armed : ArmedSignal)
    (now : Z) (limits : EvaluationLimits) : result string Evaluation * mem :=
  match scan_receipts c armed (snd <$> _receipts m) with
  | Raised e => (Raised e, m)
  | Done (inl i) => (Done (EvalInvalid i), m)
  | Done (inr (candidates, pending)) =>
    let '(e, m) := decide_candidates m w now limits candidates pending in (Done e, m)
  end.

Definition evaluate (m : mem) (w : string) (armed : ArmedSignal) (now : Z) (limits : EvaluationLimits) :
    result string Evaluation * mem :=
  if negb (bool_decide (w = Signals.wake_id armed))
  then (Done (EvalInvalid (invalid (Some w) "INVALID_ARM")), m)
  else match _contracts m !! (spec_source (spec armed), spec_source_instance (spec armed)) with
  | None => (Done (EvalInvalid (invalid (Some w) "INVALID_ARM")), m)
  | Some c =>
    match durable_signal m w c armed with
    | None => (Done (EvalInvalid (invalid (Some w) "INVALID_ARM")), m)
    | Some armed =>
      match _validate_occurrence_anchor c (spec armed) (anchor armed) with
      | Some i => (Done (EvalInvalid i), m)
      | None =>
        match _reservations m !! w with
        | Some existing => (Done (EvalMatched existing), m)
        | None =>
          if negb (bool_decide (publication armed = "published"))
          then (Done (EvalDegraded (degraded (Some w) "ARM_NOT_PUBLISHED")), m)
          else match expires_at armed with
          | Some e =>
            if e <=? now then (Done (EvalExpired {| expired_wake_id := w; expired_at := e |}), m)
            else evaluate_receipts m w c armed now limits
          | None => evaluate_receipts m w c armed now limits
          end
        end
      end
    end
  end.

(** ** Histories *)
Inductive mem_step (m m' : mem) : Prop :=
| step_arm (A : Type) (HA : SignalSourceAdapter A) w sp (context : ArmContext A) r a :
    arm m w sp context = (r, m', a) → mem_step m m'
| step_ingest obs commit r : ingest m obs commit = (r, m') → mem_step m m'
| step_evaluate w armed now limits r : evaluate m w armed now limits = (r, m') → mem_step m m'.

Definition receipt_of (n : Z) : ReceiptRef :=
  {| receipt_id := event_id n; local_sequence := n; duplicate := false |}.

Record mem_inv (m : mem) : Prop := {
  inv_nodup : NoDup (dict_keys (_receipts m));
  inv_identity : ∀ k o r, (k, (o, r)) ∈ _receipts m → k = identity o;
  inv_refs : (snd ∘ snd) <$> _receipts m = receipt_of <$> seqZ 1 (_next_sequence m - 1);
  inv_next : 1 ≤ _next_sequence m;
  inv_reservations : ∀ w mt, _reservations m !! w = Some mt →
    matched_wake_id mt = w ∧
    ∃ item, item ∈ snd <$> _receipts m ∧ matched_receipt mt = evidence_of item ∧
            match_token mt = "match:" +:+ w +:+ ":" +:+ receipt_id item.2;
}.

(** What later states keep of earlier ones. *)
Definition commit_le (p q : SourceCommit) : Prop :=
  checkpoint_order p < checkpoint_order q ∨
  (checkpoint_order p = checkpoint_order q ∧ checkpoint p = checkpoint q).
Record mem_le (m m' : mem) : Prop := {
  le_receipts : _receipts m `prefix_of` _receipts m';
  le_registrations : ∀ k v, dict_get k (_registrations m) = Some v → dict_get k (_registrations m') = Some v;
  le_preparations : _preparations m ⊆ _preparations m';
  le_checkpoints : ∀ k p, _checkpoints m !! k = Some p →
    ∃ q, _checkpoints m' !! k = Some q ∧ commit_le p q;
  le_reservations : _reservations m ⊆ _reservations m';
}.

#[export] Instance commit_le_preorder : PreOrder commit_le.
Proof. split; [intros p | intros p q r]; unfold commit_le; [by right | intuition (lia || congruence)]. Qed.
#[export] Instance mem_le_preorder : PreOrder mem_le.
Proof.
  split.
  - intros m. split; [done|done|done| |done]. intros k p Hp. exists p. split; [done|reflexivity].
  - intros m1 m2 m3 H1 H2. split.
    + etrans; [apply le_receipts, H1 | apply le_receipts, H2].
    + intros. by apply H2, H1.
    + etrans; [apply le_preparations, H1 | apply le_preparations, H2].
    + intros k p Hp. destruct (le_checkpoints _ _ H1 _ _ Hp) as (q & Hq & ?).
      destruct (le_checkpoints _ _ H2 _ _ Hq) as (q' & ? & ?). exists q'. split; [done|by etrans].
    + etrans; [apply le_reservations, H1 | apply le_reservations, H2].
Qed.

(** *** arm *)
Lemma arm_frame `{SignalSourceAdapter A} m w sp (context : ArmContext A) r m' a :
  arm m w sp context = (r, m', a) →
  _receipts m' = _receipts m ∧ _checkpoints m' = _checkpoints m ∧
  _reservations m' = _reservations m ∧ _next_sequence m' = _next_sequence m ∧
  _preparations m ⊆ _preparations m' ∧
  (∀ k v, dict_get k (_registrations m) = Some v → dict_get k (_registrations m') = Some v).
Proof.
  unfold arm. intros Harm.
  repeat (case_match; simplify_eq/=; try done); split_and!; try done;
    try (by apply insert_subseteq);
    intros; rewrite dict_get_set_ne by congruence; done.
Qed.

(** *** ingest *)
Lemma add_receipt_frame m item :
  _registrations (add_receipt m item) = _registrations m ∧
  _preparations (add_receipt m item) = _preparations m ∧
  _contracts (add_receipt m item) = _contracts m ∧
  _checkpoints (add_receipt m item) = _checkpoints m ∧
  _reservations (add_receipt m item) = _reservations m.
Proof. unfold add_receipt. by case_match. Qed.

Lemma add_receipts_frame m items : let m' := foldl add_receipt m items in
  _registrations m' = _registrations m ∧ _preparations m' = _preparations m ∧
  _contracts m' = _contracts m ∧ _checkpoints m' = _checkpoints m ∧ _reservations m' = _reservations m.
Proof.
  revert m. induction items as [|item items IH]; simpl; intros m; [done|].
  destruct (add_receipt_frame m item) as (?&?&?&?&?), (IH (add_receipt m item)) as (?&?&?&?&?).
  split_and!; congruence.
Qed.

(** The receipts a batch of staged observations creates. *)
Fixpoint new_receipts (n : Z) (items : staging) : list (occurrence * (NormalizedObservation * ReceiptRef)) :=
  match items with
  | [] => []
  | (k, o) :: items => (k, (o, receipt_of n)) :: new_receipts (n + 1) items
  end.
Definition fresh_items (m : mem) (items : staging) : staging :=
  filter (λ item, item.1 ∉ dict_keys (_receipts m)) items.

Lemma add_receipts m items : NoDup (dict_keys items) →
  let fresh := fresh_items m items in
  _receipts (foldl add_receipt m items) = _receipts m ++ new_receipts (_next_sequence m) fresh ∧
  _next_sequence (foldl add_receipt m items) = _next_sequence m + Z.of_nat (length fresh).
Proof.
  revert m. induction items as [|[k o] items IH]; simpl; intros m Hnd.
  - rewrite app_nil_r. split; [done|lia].
  - apply NoDup_cons in Hnd as [Hk Hnd]. simpl in Hk.
    unfold add_receipt; simpl. unfold fresh_items. rewrite filter_cons. simpl.
    destruct (dict_get k (_receipts m)) as [e|] eqn:Hget.
    + rewrite decide_False by (rewrite <- dict_get_None; congruence).
      apply (IH m Hnd).
    + rewrite decide_True by (by rewrite <- dict_get_None).
      assert (k ∉ dict_keys (_receipts m)) as Hni by (by apply dict_get_None).
      destruct (IH (Mem (_registrations m) (_preparations m) (_contracts m)
        (dict_set k (o, receipt_of (_next_sequence m)) (_receipts m))
        (_checkpoints m) (_reservations m) (_next_sequence m + 1)) Hnd) as [Hr Hn].
      assert (filter (λ item, item.1 ∉ dict_keys (dict_set k (o, receipt_of (_next_sequence m)) (_receipts m))) items
              = fresh_items m items) as Hf.
      { apply list_filter_ext_in. intros [k' o'] Hin. simpl.
        rewrite dict_keys_set, decide_False, not_elem_of_app, list_elem_of_singleton by done.
        split; [tauto|]. intros; split; [done|]. intros ->.
        apply Hk, list_elem_of_fmap. by exists (k, o'). }
      unfold fresh_items in Hr, Hn. simpl in Hr, Hn. rewrite Hf in Hr, Hn.
      fold (fresh_items m items). simpl.
      split; [etrans; [exact Hr|] | etrans; [exact Hn|lia]].
      rewrite dict_set_new by done. by rewrite <- app_assoc.
Qed.

Lemma stage_observation_ok m staged o staged' :
  stage_observation m staged o = inr staged' ↔
  (∃ c, _contracts m !! source_key o = Some c ∧ check_observation c o = None) ∧
  conflicts (fst <$> dict_get (identity o) (_receipts m)) o = false ∧
  conflicts (dict_get (identity o) staged) o = false ∧
  staged' = dict_set (identity o) o staged.
Proof.
  unfold stage_observation. split.
  - intros. repeat case_match; simplify_eq. eauto 10.
  - intros ((c & -> & ->) & -> & -> & ->). done.
Qed.

Lemma stage_NoDup m staged obs staged' :
  stage m staged obs = inr staged' → NoDup (dict_keys staged) → NoDup (dict_keys staged').
Proof.
  revert staged. induction obs as [|o obs IH]; simpl; intros staged Hst Hnd; [by simplify_eq|].
  destruct (stage_observation m staged o) as [|s1] eqn:Hs; [done|].
  apply stage_observation_ok in Hs as (_ & _ & _ & ->).
  apply IH in Hst; [done|]. by apply dict_keys_set_NoDup.
Qed.

(** The staged dict holds exactly the identities of the batch, each with an
    observation equal to every observation of that identity. *)
Lemma conflicts_false existing o : conflicts existing o = false →
  existing = None ∨ ∃ o', existing = Some o' ∧ observation_key o' = observation_key o.
Proof.
  destruct existing as [o'|]; [|by left]. simpl. unfold observation_eqb.
  rewrite negb_false_iff, bool_decide_eq_true. eauto.
Qed.
Lemma conflicts_same o' o : observation_key o' = observation_key o → conflicts (Some o') o = false.
Proof. intros H. simpl. unfold observation_eqb. by rewrite H, bool_decide_true. Qed.

Lemma observation_key_identity o o' : observation_key o = observation_key o' → identity o = identity o'.
Proof. intros H. change (identity (observation_key o) = identity (observation_key o')). by rewrite H. Qed.

Definition staged_ok (staged : staging) : Prop := ∀ k o, (k, o) ∈ staged → k = identity o.

Lemma stage_staged_ok m staged obs staged' :
  stage m staged obs = inr staged' → staged_ok staged → staged_ok staged'.
Proof.
  revert staged. induction obs as [|o obs IH]; simpl; intros staged Hst Hok; [by simplify_eq|].
  destruct (stage_observation m staged o) as [|s1] eqn:Hs; [done|].
  apply stage_observation_ok in Hs as (_ & _ & _ & ->). apply (IH _ Hst).
  intros k o' [?|?]%dict_set_elem; simplify_eq; eauto.
Qed.

(** [staged] remembers, up to equality, an observation it already held. *)
Lemma stage_keeps m staged obs staged' k o1 :
  stage m staged obs = inr staged' → dict_get k staged = Some o1 →
  ∃ o2, dict_get k staged' = Some o2 ∧ observation_key o2 = observation_key o1.
Proof.
  revert staged o1. induction obs as [|o obs IH]; simpl; intros staged o1 Hst Hget; [simplify_eq; eauto|].
  destruct (stage_observation m staged o) as [|s1] eqn:Hs; [done|].
  apply stage_observation_ok in Hs as (_ & _ & Hc & ->).
  destruct (decide (k = identity o)) as [->|Hne].
  - destruct (conflicts_false _ _ Hc) as [?|(o' & Ho' & Hk)]; [congruence|].
    assert (o' = o1) as -> by congruence.
    destruct (IH _ _ Hst (dict_get_set_eq _ _ _)) as (o2 & ? & ?). exists o2. split; congruence.
  - apply (IH _ o1 Hst). by rewrite dict_get_set_ne.
Qed.

Lemma stage_covers m staged obs staged' o :
  stage m staged obs = inr staged' → o ∈ obs →
  ∃ o2, dict_get (identity o) staged' = Some o2 ∧ observation_key o2 = observation_key o.
Proof.
  revert staged. induction obs as [|o0 obs IH]; intros staged Hst Hin; [set_solver|]. simpl in Hst.
  destruct (stage_observation m staged o0) as [|s1] eqn:Hs; [done|].
  apply stage_observation_ok in Hs as (_ & _ & Hc & ->).
  apply elem_of_cons in Hin as [->|Hin]; [|by eapply IH].
  apply (stage_keeps _ _ _ _ _ _ Hst), dict_get_set_eq.
Qed.

(** The distinct identities of a batch, in the order of first occurrence. *)
Definition distinct_identities (ks : list occurrence) (obs : list NormalizedObservation) : list occurrence :=
  foldl (λ ks o, if decide (identity o ∈ ks) then ks else ks ++ [identity o]) ks obs.

Lemma stage_keys m staged obs staged' :
  stage m staged obs = inr staged' → dict_keys staged' = distinct_identities (dict_keys staged) obs.
Proof.
  revert staged. induction obs as [|o obs IH]; simpl; intros staged Hst; [by simplify_eq|].
  destruct (stage_observation m staged o) as [|s1] eqn:Hs; [done|].
  apply stage_observation_ok in Hs as (_ & _ & _ & ->).
  rewrite (IH _ Hst), dict_keys_set. done.
Qed.

Lemma new_receipts_keys n items : dict_keys (new_receipts n items) = dict_keys items.
Proof. revert n. induction items as [|[k o] items IH]; intros n; [done|]. unfold dict_keys in *. simpl. by rewrite IH. Qed.
Lemma new_receipts_refs n items :
  (snd ∘ snd) <$> new_receipts n items = receipt_of <$> seqZ n (Z.of_nat (length items)).
Proof.
  revert n. induction items as [|[k o] items IH]; intros n; [done|].
  cbn [new_receipts length]. rewrite seqZ_cons by lia. rewrite !fmap_cons, IH. simpl.
  by replace (Z.pred (Z.of_nat (S (length items)))) with (Z.of_nat (length items)) by lia.
Qed.
Lemma new_receipts_get n items k o :
  dict_get k items = Some o → ∃ j, dict_get k (new_receipts n items) = Some (o, receipt_of j).
Proof.
  revert n. induction items as [|[k' o'] items IH]; simpl; intros n; [done|].
  case_decide; intros; simplify_eq; eauto.
Qed.
Lemma new_receipts_elem n items k o r : (k, (o, r)) ∈ new_receipts n items → (k, o) ∈ items.
Proof.
  revert n. induction items as [|[k' o'] items IH]; simpl; intros n; [set_solver|].
  rewrite !elem_of_cons. intros [|]; simplify_eq; eauto.
Qed.
Lemma fresh_items_get m items k o :
  dict_get k (_receipts m) = None → dict_get k items = Some o → dict_get k (fresh_items m items) = Some o.
Proof.
  intros Hk%dict_get_None. unfold fresh_items.
  induction items as [|[k' o'] items IH]; simpl; [done|]. rewrite filter_cons. simpl.
  destruct (decide (k = k')) as [->|]; intros.
  - simplify_eq. rewrite decide_True by done. simpl. by rewrite decide_True.
  - case_decide; simpl; [rewrite decide_False by done|]; by apply IH.
Qed.

(** What a batch leaves behind, before the checkpoint moves. *)
Lemma staged_receipt m obs staged o :
  stage m [] obs = inr staged → o ∈ obs →
  ∃ stored j, dict_get (identity o) (_receipts (foldl add_receipt m staged)) = Some (stored, j) ∧
    observation_key stored = observation_key o.
Proof.
  intros Hst Hin. pose proof (stage_NoDup _ _ _ _ Hst (NoDup_nil_2)) as Hnd.
  destruct (add_receipts m staged Hnd) as [-> _]. rewrite dict_get_app.
  destruct (dict_get (identity o) (_receipts m)) as [[stored j]|] eqn:Hold.
  - exists stored, j. split; [done|].
    assert (∀ staged0, stage m staged0 obs = inr staged → observation_key stored = observation_key o) as H;
      [|by eapply H].
    clear Hst Hnd. induction obs as [|o0 obs IH]; [set_solver|]. intros st Hst. simpl in Hst.
    destruct (stage_observation m st o0) as [|s1] eqn:Hs; [done|].
    apply elem_of_cons in Hin as [->|Hin]; [|by eapply IH].
    apply stage_observation_ok in Hs as (_ & Hc & _ & _). rewrite Hold in Hc.
    destruct (conflicts_false _ _ Hc) as [?|(o' & Ho' & Hk)]; [done|].
    simpl in Ho'. by injection Ho' as <-.
  - destruct (stage_covers _ _ _ _ _ Hst Hin) as (o2 & Hget & Hkey).
    destruct (new_receipts_get (_next_sequence m) _ _ _ (fresh_items_get _ _ _ _ Hold Hget)) as [j Hj].
    eauto.
Qed.

Lemma ingest_results_total m pre ret obs :
  (∀ o, o ∈ obs → ∃ e, dict_get (identity o) (_receipts m) = Some e) →
  ∃ refs, ingest_results m pre ret obs = Done refs.
Proof.
  revert ret. induction obs as [|o obs IH]; intros ret Hall; [by eexists|]. cbn [ingest_results].
  destruct (Hall o ltac:(set_solver)) as [[st j] ->].
  destruct (IH (ret ++ [identity o]) ltac:(set_solver)) as [refs ->]. by eexists.
Qed.

Lemma ingest_results_nth m pre ret obs refs i o :
  ingest_results m pre ret obs = Done refs → obs !! i = Some o →
  ∃ stored r, dict_get (identity o) (_receipts m) = Some (stored, r) ∧
    refs !! i = Some {| receipt_id := receipt_id r; local_sequence := local_sequence r;
      duplicate := bool_decide (identity o ∈ pre) ||
                   bool_decide (identity o ∈ ret ++ (identity <$> take i obs)) |}.
Proof.
  revert ret refs i. induction obs as [|o0 obs IH]; intros ret refs i; [done|]. cbn [ingest_results].
  destruct (dict_get (identity o0) (_receipts m)) as [[st j]|] eqn:Hget; [|done].
  destruct (ingest_results m pre (ret ++ [identity o0]) obs) as [rest|] eqn:Hrest; [|done].
  intros Hrefs Hi. injection Hrefs as <-. destruct i as [|i]; simpl in Hi.
  - injection Hi as ->. exists st, j. by rewrite app_nil_r.
  - destruct (IH _ _ _ Hrest Hi) as (st' & r' & ? & Hr). exists st', r'. split; [done|].
    etrans; [exact Hr|]. cbn [take fmap list_fmap]. by rewrite <- app_assoc.
Qed.
Lemma ingest_results_length m pre ret obs refs :
  ingest_results m pre ret obs = Done refs → length refs = length obs.
Proof.
  revert ret refs. induction obs as [|o0 obs IH]; intros ret refs; cbn [ingest_results]; [by intros [= <-]|].
  destruct (dict_get (identity o0) (_receipts m)) as [[st j]|] eqn:Hget; [|done].
  destruct (ingest_results m pre (ret ++ [identity o0]) obs) as [rest|] eqn:Hrest; [|done].
  intros [= <-]. simpl. f_equal. by eapply IH.
Qed.

(** The decisions of [ingest], as one case analysis. *)
Definition commit_key (commit : SourceCommit) : string * string :=
  (commit_source commit, commit_source_instance commit).
Lemma ingest_cases m obs commit :
  (∃ i, ingest m obs commit = (Done (IngestInvalid i), m)) ∨
  (∃ staged refs, Forall (λ o, source_key o = commit_key commit) obs ∧
     checkpoint_conflict (_checkpoints m !! commit_key commit) commit = None ∧
     stage m [] obs = inr staged ∧
     ingest_results (foldl add_receipt m staged) (dict_keys (_receipts m)) [] obs = Done refs ∧
     ingest m obs commit =
       (Done (IngestDone {| receipts := refs; ingested_checkpoint := checkpoint commit |}),
        set_checkpoint (foldl add_receipt m staged) (commit_key commit) commit)).
Proof.
  unfold ingest. fold (commit_key commit). destruct (existsb _ obs) eqn:Hsrc; [by left; eexists|].
  destruct (checkpoint_conflict _ commit) eqn:Hcp; [by left; eexists|].
  destruct (stage m [] obs) as [i|staged] eqn:Hst; [by left; eexists|].
  destruct (ingest_results_total (foldl add_receipt m staged) (dict_keys (_receipts m)) [] obs) as [refs Hrefs].
  { intros o Hin. destruct (staged_receipt _ _ _ _ Hst Hin) as (st & j & Hget & _). eauto. }
  rewrite Hrefs. right. exists staged, refs. split_and!; try done.
  apply Forall_forall. intros o Hin. apply not_true_iff_false in Hsrc.
  destruct (decide (source_key o = commit_key commit)) as [|Hne]; [done|].
  destruct Hsrc. apply existsb_exists. exists o. split; [by apply list_elem_of_In|].
  by rewrite bool_decide_false.
Qed.

Lemma checkpoint_conflict_None p commit : checkpoint_conflict (Some p) commit = None ↔ commit_le p commit.
Proof.
  unfold checkpoint_conflict, commit_le.
  destruct (Z.ltb_spec (checkpoint_order commit) (checkpoint_order p)); [split; [done|lia]|].
  destruct (Z.eqb_spec (checkpoint_order commit) (checkpoint_order p)); simpl; [|split; [left; lia|done]].
  case_bool_decide; simpl; [by split; [right|]|].
  split; [done|]. intros [?|[? ?]]; [lia|congruence].
Qed.

(** *** evaluate *)
Lemma decide_candidates_frame m w now limits cs pending e m' :
  decide_candidates m w now limits cs pending = (e, m') →
  m' = m ∨ ∃ mt, e = EvalMatched mt ∧ m' = reserve m w mt.
Proof. unfold decide_candidates. intros. repeat (case_match; simplify_eq); eauto. Qed.

(** The evaluation either settles on what the state already says, or on the
    receipts of a validated and durable armed signal. *)
Lemma evaluate_cases m w armed now limits r m' :
  evaluate m w armed now limits = (r, m') →
  (m' = m ∧ ∃ e, r = Done e ∧ ∀ mt, e = EvalMatched mt → _reservations m !! w = Some mt) ∨
  (w = Signals.wake_id armed ∧ _reservations m !! w = None ∧
   ∃ c durable, _contracts m !! (spec_source (spec armed), spec_source_instance (spec armed)) = Some c ∧
     durable_signal m w c armed = Some durable ∧
     _validate_occurrence_anchor c (spec durable) (anchor durable) = None ∧
     publication durable = "published" ∧
     (∀ t, expires_at durable = Some t → now < t) ∧
     evaluate_receipts m w c durable now limits = (r, m')).
Proof.
  unfold evaluate. intros Hev.
  repeat (case_match; simplify_eq); try (left; split; [done|]; eexists; split; [done|]; naive_solver);
    right; repeat match goal with
      | H : negb _ = false |- _ => apply negb_false_iff in H
      | H : bool_decide _ = true |- _ => apply bool_decide_eq_true in H
      end; split_and!; try done; eexists _, _; split_and!; try done; naive_solver lia.
Qed.

(** What the code means by a receipt that satisfies an armed signal. *)
Definition clause_holds (attrs : attributes) (clause : WhereClause) : Prop :=
  ∃ v, attrs !! clause_field clause = Some v ∧
    match clause with
    | Eq _ value => norm v = norm value
    | In _ values => ∃ value, value ∈ values ∧ norm v = norm value
    end.
Definition after_anchor (c : SourceContract) (armed : ArmedSignal) (o : NormalizedObservation) : Prop :=
  match occurrence_order_attribute c with
  | None => True
  | Some key => ∃ v b, obs_attributes o !! key = Some (SInt v) ∧
      norm <$> baseline (anchor armed) !! key = Some (SInt b) ∧ b < v
  end.
Definition about_signal (armed : ArmedSignal) (item : candidate) : Prop :=
  local_after_sequence (anchor armed) < local_sequence item.2 ∧
  (obs_source item.1, obs_source_instance item.1, obs_kind item.1, obs_subject item.1) =
  (spec_source (spec armed), spec_source_instance (spec armed), spec_kind (spec armed), spec_subject (spec armed)).
Record eligible (c : SourceContract) (armed : ArmedSignal) (item : candidate) : Prop := {
  eligible_about : about_signal armed item;
  eligible_after : after_anchor c armed item.1;
  eligible_where : Forall (clause_holds (obs_attributes item.1)) (spec_where (spec armed));
  eligible_verified : spec_verification (spec armed) = "required" →
    verification_state (verification item.1) = "verified";
}.

Lemma clause_matches_spec attrs clause : clause_matches attrs clause = true ↔ clause_holds attrs clause.
Proof.
  unfold clause_matches, clause_holds, py_eqb.
  destruct clause as [f value|f values]; simpl; destruct (attrs !! f) as [v|].
  - rewrite bool_decide_eq_true. split; [eauto|by intros (? & [= <-] & ?)].
  - split; [done|by intros (? & ? & _)].
  - rewrite existsb_exists. split.
    + intros (x & Hx%list_elem_of_In & ?%bool_decide_eq_true). eauto.
    + intros (? & [= <-] & x & ? & ?). exists x. rewrite <- list_elem_of_In, bool_decide_eq_true. done.
  - split; [done|by intros (? & ? & _)].
Qed.
Lemma matches_spec attrs clauses : _matches attrs clauses = true ↔ Forall (clause_holds attrs) clauses.
Proof.
  unfold _matches. rewrite forallb_forall, Forall_forall. setoid_rewrite <- list_elem_of_In.
  by setoid_rewrite clause_matches_spec.
Qed.

(** On a validated anchor the order test neither raises nor misjudges. *)
Lemma after_anchor_spec c armed o : _validate_occurrence_anchor c (spec armed) (anchor armed) = None →
  (∃ i, _occurrence_is_after_anchor (obs_attributes o) c (anchor armed) = Done (inr i) ∧ ¬ after_anchor c armed o) ∨
  (∃ b, _occurrence_is_after_anchor (obs_attributes o) c (anchor armed) = Done (inl b) ∧
        (b = true ↔ after_anchor c armed o)).
Proof.
  unfold _validate_occurrence_anchor, _occurrence_is_after_anchor, after_anchor.
  destruct (_ && _) eqn:Hv; [|done]. intros _. apply andb_true_iff in Hv as [_ Hv].
  destruct (occurrence_order_attribute c) as [key|]; [|right; naive_solver].
  apply bool_decide_eq_true in Hv. destruct (baseline (anchor armed) !! key) as [[| |]|]; try done.
  destruct (obs_attributes o !! key) as [[| |]|]; try (left; eexists; split; [done|naive_solver]).
  right. simpl. eexists. split; [done|]. rewrite Z.ltb_lt. naive_solver.
Qed.

Definition is_candidate (c : SourceContract) (armed : ArmedSignal) (item : candidate) : bool :=
  match classify c armed item with Done Candidate => true | _ => false end.

Lemma classify_spec c armed item : _validate_occurrence_anchor c (spec armed) (anchor armed) = None →
  (∃ class, classify c armed item = Done class) ∧ (is_candidate c armed item = true ↔ eligible c armed item).
Proof.
  intros Hv. destruct item as [o r]. unfold is_candidate, classify.
  destruct (Z.leb_spec (local_sequence r) (local_after_sequence (anchor armed))).
  { split; [eauto|]. split; [done|]. intros [[? _] _ _ _]. simpl in *. lia. }
  case_bool_decide as Heq; simpl negb; cbv iota.
  2: { split; [eauto|]. split; [done|]. by intros [[_ ?] _ _ _]. }
  destruct (after_anchor_spec c armed o Hv) as [(i & -> & Hna)|(b & -> & Hb)]; simpl.
  { split; [eauto|]. split; [done|]. by intros [_ ? _ _]. }
  split; [eauto|]. pose proof (matches_spec (obs_attributes o) (spec_where (spec armed))) as Hm.
  destruct b; simpl; [|split; [done|]; intros [_ Ha _ _]; naive_solver].
  destruct (_matches _ _); simpl; [|split; [done|]; intros [_ _ Hw _]; naive_solver].
  destruct (bool_decide (spec_verification _ = _)) eqn:Hreq; simpl.
  - apply bool_decide_eq_true in Hreq. case_bool_decide as Hver; simpl.
    + split; [|done]. intros _. split; [done|by apply Hb|by apply Hm|done].
    + split; [by destruct (bool_decide _)|]. intros [_ _ _ Hx]. destruct Hver. by apply Hx.
  - apply bool_decide_eq_false in Hreq. split; [|done]. intros _. split; [done|by apply Hb|by apply Hm|done].
Qed.

Lemma scan_spec c armed rows : _validate_occurrence_anchor c (spec armed) (anchor armed) = None →
  ∃ res, scan_receipts c armed rows = Done res ∧
    ∀ cs pending, res = inr (cs, pending) → cs = List.filter (is_candidate c armed) rows.
Proof.
  intros Hv. induction rows as [|item rows IH]; [by eexists; split; [done|]; intros; simplify_eq|].
  destruct IH as (res & Hres & Hcs). destruct (classify_spec c armed item Hv) as [[class Hc] _].
  cbn [scan_receipts List.filter]. unfold is_candidate at 1. rewrite Hc. simpl.
  destruct class; rewrite ?Hres; (eexists; split; [done|]); intros cs pending Heq; eauto; try done.
  - destruct res as [|[cs' p']]; simplify_eq. eauto.
  - destruct res as [|[cs' p']]; simplify_eq. erewrite <- Hcs; done.
Qed.

(** *** Preservation *)
Lemma ingest_frame m obs commit r m' : ingest m obs commit = (r, m') → mem_le m m'.
Proof.
  intros Hi. destruct (ingest_cases m obs commit) as [(i & Heq)|(staged & refs & _ & Hcp & Hst & _ & Heq)];
    rewrite Hi in Heq; simplify_eq; [done|].
  pose proof (stage_NoDup _ _ _ _ Hst (NoDup_nil_2)) as Hnd.
  destruct (add_receipts m staged Hnd) as [Hr _], (add_receipts_frame m staged) as (Hreg & Hprep & _ & Hc & Hres).
  split; simpl.
  - rewrite Hr. by apply prefix_app_r.
  - by rewrite Hreg.
  - by rewrite Hprep.
  - intros k p Hp. rewrite Hc. destruct (decide (k = commit_key commit)) as [->|Hne].
    + rewrite Hp in Hcp. apply checkpoint_conflict_None in Hcp. exists commit. by rewrite lookup_insert_eq.
    + exists p. rewrite lookup_insert_ne by done. done.
  - by rewrite Hres.
Qed.

Lemma mem_step_le m m' : mem_step m m' → mem_le m m'.
Proof.
  intros [A HA w sp context r a Harm|obs commit r Hi|w armed now limits r Hev].
  - destruct (arm_frame _ _ _ _ _ _ _ Harm) as (Hr & Hc & Hres & _ & Hp & Hreg).
    split; rewrite ?Hr, ?Hres; try done. intros k p. rewrite Hc. intros. by exists p.
  - by eapply ingest_frame.
  - destruct (evaluate_cases _ _ _ _ _ _ _ Hev) as [[-> _]|(-> & Hnone & c & d & _ & _ & _ & _ & _ & Hr)]; [done|].
    unfold evaluate_receipts in Hr.
    destruct (scan_receipts _ _ _) as [[|[cs p]]|]; simplify_eq; try done.
    destruct (decide_candidates _ _ _ _ _ _) as [e m''] eqn:Hd. simplify_eq.
    destruct (decide_candidates_frame _ _ _ _ _ _ _ _ Hd) as [->|(mt & _ & ->)]; [done|].
    split; try done; [|by apply insert_subseteq]. intros k q Hq. by exists q.
Qed.

Lemma steps_le m m' : rtc mem_step m m' → mem_le m m'.
Proof. induction 1 as [|m1 m2 m3 H12 _ IH]; [done|]. etrans; [by apply mem_step_le|done]. Qed.

Lemma mem_init_inv : mem_inv mem_init.
Proof. split; simpl; try done; [constructor|set_solver]. Qed.

Lemma mem_inv_ext m m' : mem_inv m →
  _receipts m' = _receipts m → _next_sequence m' = _next_sequence m → _reservations m' = _reservations m →
  mem_inv m'.
Proof. intros [? ? ? ? ?] Hr Hn Hres. split; rewrite ?Hr, ?Hn, ?Hres; done. Qed.

Lemma ingest_inv m obs commit r m' : mem_inv m → ingest m obs commit = (r, m') → mem_inv m'.
Proof.
  intros Hinv Hi.
  destruct (ingest_cases m obs commit) as [(i & Heq)|(staged & refs & _ & _ & Hst & _ & Heq)];
    rewrite Hi in Heq; simplify_eq; [done|].
  pose proof (stage_NoDup _ _ _ _ Hst (NoDup_nil_2)) as Hnd.
  assert (staged_ok staged) as Hok by (eapply stage_staged_ok; [done|]; intros ??; set_solver).
  destruct (add_receipts m staged Hnd) as [Hr Hn], (add_receipts_frame m staged) as (_ & _ & _ & _ & Hres).
  destruct Hinv as [I1 I2 I3 I4 I5]. split; simpl; rewrite ?Hr, ?Hn, ?Hres.
  - unfold dict_keys in *. rewrite fmap_app. change (?d.*1) with (dict_keys d). rewrite new_receipts_keys.
    apply NoDup_app. split_and!; [done| |].
    + intros k Hin Hf. apply list_elem_of_fmap in Hf as ([k' o] & -> & Hf).
      apply list_elem_of_filter in Hf as [Hf _]. done.
    + eapply sublist_NoDup; [exact Hnd|]. apply fmap_sublist, sublist_filter.
  - intros k o r [Hin|Hin]%elem_of_app; [by eapply I2|]. apply new_receipts_elem in Hin.
    apply list_elem_of_filter in Hin as [_ Hin]. by apply Hok.
  - rewrite fmap_app, I3, new_receipts_refs, <- fmap_app. f_equal.
    replace (_next_sequence m + Z.of_nat (length (fresh_items m staged)) - 1)
      with ((_next_sequence m - 1) + Z.of_nat (length (fresh_items m staged))) by lia.
    rewrite seqZ_app by lia. do 2 f_equal. lia.
  - lia.
  - intros w mt Hmt. destruct (I5 w mt Hmt) as (? & item & Hin & ?). split; [done|]. exists item.
    split; [|done]. rewrite fmap_app. set_solver.
Qed.

Lemma evaluate_reserves w c d now limits m r m' : mem_inv m → _reservations m !! w = None →
  _validate_occurrence_anchor c (spec d) (anchor d) = None →
  evaluate_receipts m w c d now limits = (r, m') →
  ∃ e, r = Done e ∧
    ((∀ mt, e ≠ EvalMatched mt) ∧ m' = m ∨
     ∃ item mt, e = EvalMatched mt ∧ m' = reserve m w mt ∧ matched_wake_id mt = w ∧ matched_at mt = now ∧
       match_token mt = "match:" +:+ w +:+ ":" +:+ receipt_id item.2 ∧ matched_receipt mt = evidence_of item ∧
       item ∈ snd <$> _receipts m ∧ eligible c d item ∧
       (∀ other, other ∈ snd <$> _receipts m → eligible c d other →
          local_sequence item.2 ≤ local_sequence other.2)).
Proof.
  intros Hinv Hnone Hv. unfold evaluate_receipts.
  destruct (scan_spec c d (snd <$> _receipts m) Hv) as (res & -> & Hcs).
  destruct res as [i|[cs pending]].
  { intros [= <- <-]. eexists. split; [done|]. left. naive_solver. }
  specialize (Hcs _ _ eq_refl).
  assert (∀ item, item ∈ cs ↔ item ∈ snd <$> _receipts m ∧ eligible c d item) as Hmem.
  { intros item. rewrite Hcs, list_elem_of_In, filter_In, <- list_elem_of_In.
    by rewrite (proj2 (classify_spec c d item Hv)). }
  unfold decide_candidates.
  pose proof (merge_sort_Permutation candidate_le cs) as Hperm.
  assert (StronglySorted candidate_le (merge_sort candidate_le cs)) as Hsort.
  { apply (StronglySorted_merge_sort candidate_le). }
  destruct (max_candidates limits <? _).
  { intros [= <- <-]. eexists. split; [done|]. left. naive_solver. }
  destruct (merge_sort candidate_le cs) as [|[o r0] tl] eqn:Hms.
  { destruct pending; intros [= <- <-]; (eexists; split; [done|]); left; naive_solver. }
  destruct (_ || _).
  { intros [= <- <-]. eexists. split; [done|]. left. naive_solver. }
  intros [= <- <-]. eexists. split; [done|]. right. exists (o, r0). eexists. split_and!; try done.
  - apply Hmem. rewrite <- Hperm. set_solver.
  - apply Hmem. rewrite <- Hperm. set_solver.
  - intros other Hin Hel. assert (other ∈ (o, r0) :: tl) as Ho by (rewrite Hperm; by apply Hmem).
    apply StronglySorted_inv in Hsort as [_ Hall]. rewrite Forall_forall in Hall.
    apply elem_of_cons in Ho as [->|Ho]; [lia|]. by apply (Hall _ Ho).
Qed.

Lemma mem_step_inv m m' : mem_inv m → mem_step m m' → mem_inv m'.
Proof.
  intros Hinv [A HA w sp context r a Harm|obs commit r Hi|w armed now limits r Hev].
  - destruct (arm_frame _ _ _ _ _ _ _ Harm) as (? & _ & ? & ? & _). by eapply mem_inv_ext.
  - by eapply ingest_inv.
  - destruct (evaluate_cases _ _ _ _ _ _ _ Hev) as [[-> _]|(-> & Hnone & c & d & _ & _ & Hv & _ & _ & Hr)]; [done|].
    destruct (evaluate_reserves _ _ _ _ _ _ _ _ Hinv Hnone Hv Hr) as (e & _ & [[_ ->]|H]); [done|].
    destruct H as (item & mt & _ & -> & Hw & _ & Ht & Hev' & Hin & _).
    destruct Hinv as [I1 I2 I3 I4 I5]. split; try done. simpl. intros w' mt'.
    destruct (decide (w' = Signals.wake_id armed)) as [->|Hne].
    + rewrite lookup_insert_eq. intros [= <-]. eauto 10.
    + rewrite lookup_insert_ne by done. apply I5.
Qed.

Lemma steps_inv m m' : rtc mem_step m m' → mem_inv m → mem_inv m'.
Proof. induction 1; eauto using mem_step_inv. Qed.

(** *** What the operations promise *)
(** (invariant). In every state a history of calls can reach, the receipts
    carry the identities of their observations without repetition and the
    sequences 1, 2, 3, ... in order, and every reservation is the evidence of
    a stored receipt. *)
Theorem reachable_inv m : rtc mem_step mem_init m → mem_inv m.
Proof. intros H. apply (steps_inv _ _ H), mem_init_inv. Qed.

(** (safety). Over any history, source checkpoints never regress, and
    receipts, registrations, preparations and reservations are only ever
    added: nothing a caller was told is revised. *)
Theorem history_monotone m m' : rtc mem_step m m' → mem_le m m'.
Proof. apply steps_le. Qed.

(** (functional). [ingest] never raises; it either rejects the batch and
    leaves the state alone, or appends one receipt per fresh identity, numbered
    in order of first occurrence, answers every observation with the receipt of
    its identity and an exact duplicate flag, and commits the checkpoint. *)
Theorem ingest_functional m obs commit r m' : ingest m obs commit = (r, m') →
  (∃ i, r = Done (IngestInvalid i) ∧ m' = m) ∨
  (∃ refs fresh, r = Done (IngestDone {| receipts := refs; ingested_checkpoint := checkpoint commit |}) ∧
     _receipts m' = _receipts m ++ new_receipts (_next_sequence m) fresh ∧
     dict_keys fresh = filter (λ k, k ∉ dict_keys (_receipts m)) (distinct_identities [] obs) ∧
     source_checkpoint m' (commit_source commit) (commit_source_instance commit) = Some commit ∧
     length refs = length obs ∧
     ∀ j o, obs !! j = Some o → ∃ stored ref,
       dict_get (identity o) (_receipts m') = Some (stored, ref) ∧ observation_eqb stored o = true ∧
       refs !! j = Some {| receipt_id := receipt_id ref; local_sequence := local_sequence ref;
         duplicate := bool_decide (identity o ∈ dict_keys (_receipts m)) ||
                      bool_decide (identity o ∈ identity <$> take j obs) |}).
Proof.
  intros Hi. destruct (ingest_cases m obs commit) as [(i & Heq)|(staged & refs & _ & _ & Hst & Hrefs & Heq)];
    rewrite Hi in Heq; simplify_eq; [by left; eexists|right].
  pose proof (stage_NoDup _ _ _ _ Hst (NoDup_nil_2)) as Hnd.
  destruct (add_receipts m staged Hnd) as [Hr _].
  exists refs, (fresh_items m staged). split_and!; try done.
  - change [] with (@dict_keys occurrence NormalizedObservation []).
    rewrite <- (stage_keys _ _ _ _ Hst). unfold fresh_items. clear.
    induction staged as [|[k o] staged IH]; [done|]. rewrite dict_keys_cons, !filter_cons. simpl.
    case_decide; [rewrite dict_keys_cons|]; by rewrite IH.
  - unfold source_checkpoint. simpl. apply lookup_insert_eq.
  - by eapply ingest_results_length.
  - intros j o Hj. destruct (ingest_results_nth _ _ _ _ _ _ _ Hrefs Hj) as (stored & ref & Hget & Hnth).
    exists stored, ref. split_and!; [done| |done].
    destruct (staged_receipt _ _ _ o Hst) as (st & r0 & Hget' & Hkey); [by eapply list_elem_of_lookup_2|].
    assert (st = stored) as -> by congruence. unfold observation_eqb. by rewrite Hkey, bool_decide_true.
Qed.

Lemma stage_again m m1 staged0 obs staged :
  stage m staged0 obs = inr staged → _contracts m1 = _contracts m →
  (∀ o, o ∈ obs → ∃ st r, dict_get (identity o) (_receipts m1) = Some (st, r) ∧
     observation_key st = observation_key o) →
  stage m1 staged0 obs = inr staged.
Proof.
  intros Hst Hc Hall. revert staged0 Hst. induction obs as [|o obs IH]; intros staged0 Hst; [done|].
  simpl in *. destruct (stage_observation m staged0 o) as [|s1] eqn:Hs; [done|].
  apply stage_observation_ok in Hs as (Hco & _ & Hs2 & ->).
  destruct (Hall o ltac:(set_solver)) as (st & r & Hget & Hkey).
  assert (stage_observation m1 staged0 o = inr (dict_set (identity o) o staged0)) as ->.
  { apply stage_observation_ok. rewrite Hc, Hget. split_and!; try done. by apply conflicts_same. }
  apply IH; [|done]. intros o' ?. apply Hall. set_solver.
Qed.

Lemma add_receipts_present m items :
  (∀ k, k ∈ dict_keys items → k ∈ dict_keys (_receipts m)) → foldl add_receipt m items = m.
Proof.
  intros Hall. induction items as [|[k o] items IH]; [done|]. simpl.
  rewrite dict_keys_cons in Hall. replace (add_receipt m (k, o)) with m; [apply IH; set_solver|].
  unfold add_receipt. simpl. destruct (dict_get k (_receipts m)) eqn:Hget; [done|].
  apply dict_get_None in Hget. set_solver.
Qed.

Definition as_duplicate (r : ReceiptRef) : ReceiptRef :=
  {| receipt_id := receipt_id r; local_sequence := local_sequence r; duplicate := true |}.

Lemma ingest_accept m obs commit staged refs :
  Forall (λ o, source_key o = commit_key commit) obs →
  checkpoint_conflict (_checkpoints m !! commit_key commit) commit = None →
  stage m [] obs = inr staged →
  ingest_results (foldl add_receipt m staged) (dict_keys (_receipts m)) [] obs = Done refs →
  ingest m obs commit =
    (Done (IngestDone {| receipts := refs; ingested_checkpoint := checkpoint commit |}),
     set_checkpoint (foldl add_receipt m staged) (commit_key commit) commit).
Proof.
  intros Hsrc Hcp Hst Hrefs. unfold ingest. fold (commit_key commit). rewrite Hcp, Hst, Hrefs.
  destruct (existsb _ obs) eqn:Hex; [|done].
  apply existsb_exists in Hex as (o & Hin%list_elem_of_In & Hne).
  rewrite Forall_forall in Hsrc. rewrite bool_decide_true in Hne by (by apply Hsrc). done.
Qed.

Lemma ingest_results_ext m m' pre ret obs :
  _receipts m = _receipts m' → ingest_results m pre ret obs = ingest_results m' pre ret obs.
Proof. intros Hr. revert ret. induction obs as [|o obs IH]; intros ret; [done|]. cbn [ingest_results]. by rewrite Hr, IH. Qed.

(** Once every identity of the batch has its receipt, the answers depend on
    the receipts alone. *)
Lemma ingest_results_duplicates m pre obs refs pre' :
  ingest_results m pre [] obs = Done refs →
  (∀ o, o ∈ obs → identity o ∈ pre') →
  ingest_results m pre' [] obs = Done (as_duplicate <$> refs).
Proof.
  intros Hrefs Hpre.
  destruct (ingest_results_total m pre' [] obs) as [refs' Hrefs'].
  { intros o [j Hj]%list_elem_of_lookup_1.
    destruct (ingest_results_nth _ _ _ _ _ _ _ Hrefs Hj) as (? & ? & ? & _). eauto. }
  rewrite Hrefs'. f_equal. apply list_eq. intros j. rewrite list_lookup_fmap.
  destruct (obs !! j) as [o|] eqn:Hj.
  - destruct (ingest_results_nth _ _ _ _ _ _ _ Hrefs Hj) as (st & r & Hg & ->).
    destruct (ingest_results_nth _ _ _ _ _ _ _ Hrefs' Hj) as (st' & r' & Hg' & ->).
    simpl. rewrite Hg in Hg'. injection Hg' as <- <-.
    rewrite bool_decide_true by (apply Hpre; by eapply list_elem_of_lookup_2). done.
  - apply lookup_ge_None_1 in Hj. rewrite !lookup_ge_None_2; [done| |].
    + by rewrite (ingest_results_length _ _ _ _ _ Hrefs).
    + by rewrite (ingest_results_length _ _ _ _ _ Hrefs').
Qed.

(** (functional). Ingesting an accepted batch again, with the same commit,
    is accepted, changes nothing, and answers the same receipts, all marked as
    duplicates. *)
Theorem ingest_idempotent m obs commit refs m1 :
  ingest m obs commit = (Done (IngestDone refs), m1) →
  ingest m1 obs commit =
    (Done (IngestDone {| receipts := as_duplicate <$> receipts refs;
       ingested_checkpoint := checkpoint commit |}), m1).
Proof.
  intros Hi. destruct (ingest_cases m obs commit) as [(i & Heq)|(staged & rs & Hsrc & Hcp & Hst & Hrefs & Heq)];
    rewrite Hi in Heq; simplify_eq/=.
  set (m0 := foldl add_receipt m staged) in *. set (m1 := set_checkpoint m0 (commit_key commit) commit).
  pose proof (stage_NoDup _ _ _ _ Hst (NoDup_nil_2)) as Hnd.
  pose proof (add_receipts_frame m staged) as (_ & _ & Hcon & _).
  assert (stage m1 [] obs = inr staged) as Hst1.
  { eapply stage_again; [done|done|]. intros o Hin. by apply (staged_receipt m obs). }
  assert (ingest_results m1 (dict_keys (_receipts m)) [] obs = Done rs) as Hrefs'.
  { rewrite <- Hrefs. by apply ingest_results_ext. }
  assert (foldl add_receipt m1 staged = m1) as Hsame.
  { apply add_receipts_present. intros k Hk. unfold m1, m0. simpl.
    destruct (add_receipts m staged Hnd) as [-> _]. unfold dict_keys. rewrite fmap_app.
    change (?d.*1) with (dict_keys d). rewrite new_receipts_keys.
    destruct (decide (k ∈ dict_keys (_receipts m))); [set_solver|]. apply elem_of_app. right.
    unfold dict_keys in *. apply list_elem_of_fmap in Hk as ([k' o] & -> & Hk). apply list_elem_of_fmap.
    exists (k', o). split; [done|]. by apply list_elem_of_filter. }
  assert (set_checkpoint m1 (commit_key commit) commit = m1) as Hcp1.
  { unfold m1, set_checkpoint. simpl. f_equal. apply insert_insert_eq. }
  rewrite (ingest_accept m1 obs commit staged (as_duplicate <$> rs)); try done.
  - by rewrite Hsame, Hcp1.
  - unfold m1. simpl. rewrite lookup_insert_eq. by apply checkpoint_conflict_None.
  - rewrite Hsame. eapply (ingest_results_duplicates m1); [exact Hrefs'|].
    intros o Hin. destruct (staged_receipt m obs staged o Hst Hin) as (st & r & Hget & _).
    apply dict_get_elem in Hget. apply list_elem_of_fmap. by exists (identity o, (st, r)).
Qed.

(** The batches the engine accepts, without the staging dict. *)
Record admissible (m : mem) (obs : list NormalizedObservation) (commit : SourceCommit) : Prop := {
  adm_source : Forall (λ o, source_key o = commit_key commit) obs;
  adm_checkpoint : ∀ p, _checkpoints m !! commit_key commit = Some p → commit_le p commit;
  adm_contract : ∀ o, o ∈ obs → ∃ c, _contracts m !! source_key o = Some c ∧ check_observation c o = None;
  adm_stored : ∀ o st r, o ∈ obs → dict_get (identity o) (_receipts m) = Some (st, r) →
    observation_key st = observation_key o;
  adm_batch : ∀ o o', o ∈ obs → o' ∈ obs → identity o = identity o' → observation_key o = observation_key o';
}.

Lemma stage_admissible m staged0 obs :
  (∃ staged, stage m staged0 obs = inr staged) ↔
  (∀ o, o ∈ obs →
     (∃ c, _contracts m !! source_key o = Some c ∧ check_observation c o = None) ∧
     (∀ st r, dict_get (identity o) (_receipts m) = Some (st, r) → observation_key st = observation_key o) ∧
     (∀ o', dict_get (identity o) staged0 = Some o' → observation_key o' = observation_key o)) ∧
  (∀ o o', o ∈ obs → o' ∈ obs → identity o = identity o' → observation_key o = observation_key o').
Proof.
  assert (∀ e o, (conflicts e o = false ↔ ∀ o', e = Some o' → observation_key o' = observation_key o)) as Hcf.
  { intros e o. split; [intros [->|(o2 & -> & ?)]%conflicts_false o' [= <-]; done|].
    intros H. destruct e as [o'|]; [by apply conflicts_same, H|done]. }
  assert (∀ (e : option (NormalizedObservation * ReceiptRef)) o,
    (conflicts (fst <$> e) o = false ↔ ∀ st r, e = Some (st, r) → observation_key st = observation_key o)) as Hcf'.
  { intros [[st r]|] o; rewrite Hcf; simpl; split; intros Heq; [intros ?? [= <- <-]|intros ? [= <-]| |]; eauto; done. }
  revert staged0. induction obs as [|o obs IH]; intros staged0; simpl.
  { split; [split; set_solver|eauto]. }
  split.
  - intros [staged Hst]. destruct (stage_observation m staged0 o) as [|s1] eqn:Hs; [done|].
    apply stage_observation_ok in Hs as (Hc & Hs1 & Hs2 & ->).
    rewrite Hcf' in Hs1. rewrite Hcf in Hs2.
    destruct (proj1 (IH _) (ex_intro _ _ Hst)) as [Hall Hpair].
    assert (∀ o', o' ∈ obs → identity o = identity o' → observation_key o = observation_key o') as Ho.
    { intros o' Hin Hid. destruct (Hall o' Hin) as (_ & _ & Hd). apply Hd. rewrite <- Hid. apply dict_get_set_eq. }
    split.
    + intros o' [->|Hin]%elem_of_cons; [done|]. destruct (Hall o' Hin) as (? & ? & Hd).
      split_and!; [done|done|]. intros o2 Hget. destruct (decide (identity o' = identity o)) as [Hid|Hid].
      * rewrite Hid in Hget. rewrite (Hs2 _ Hget). by apply Ho.
      * apply Hd. by rewrite dict_get_set_ne.
    + intros o1 o2 [->|H1]%elem_of_cons [->|H2]%elem_of_cons Hid; [done|by apply Ho| |by apply Hpair].
      symmetry. by apply Ho.
  - intros [Hall Hpair]. destruct (Hall o ltac:(by left)) as (Hc & Hs1 & Hs2).
    assert (stage_observation m staged0 o = inr (dict_set (identity o) o staged0)) as ->.
    { apply stage_observation_ok. rewrite Hcf', Hcf. done. }
    apply IH. split; [|intros; apply Hpair; [by right|by right|done]].
    intros o' Hin. destruct (Hall o' ltac:(by right)) as (? & ? & Hd).
    split_and!; [done|done|]. intros o2. rewrite dict_get_set. case_decide as Hid; [|apply Hd].
    intros [= <-]. apply Hpair; [by left|by right|done].
Qed.

(** (functional). [ingest] accepts exactly the admissible batches: one
    source, no checkpoint regression, every observation within its contract
    and equal to whatever its identity already stands for. *)
Theorem ingest_accepts_iff m obs commit :
  (∃ refs m', ingest m obs commit = (Done (IngestDone refs), m')) ↔ admissible m obs commit.
Proof.
  split.
  - intros (refs & m' & Hi).
    destruct (ingest_cases m obs commit) as [(i & Heq)|(staged & rs & Hsrc & Hcp & Hst & _)]; [congruence|].
    destruct (proj1 (stage_admissible m [] obs) (ex_intro _ _ Hst)) as [Hall Hpair].
    split; try done; [|intros o Hin; by apply Hall|intros o st r Hin; by apply Hall].
    intros p Hp. rewrite Hp in Hcp. by apply checkpoint_conflict_None.
  - intros [Hsrc Hcp Hc Hst Hb]. destruct (proj2 (stage_admissible m [] obs)) as [staged Hs].
    { split; [|done]. intros o Hin. split_and!; [by apply Hc|intros st r; by apply Hst|done]. }
    destruct (ingest_results_total (foldl add_receipt m staged) (dict_keys (_receipts m)) [] obs) as [rs Hrs].
    { intros o Hin. destruct (staged_receipt _ _ _ _ Hs Hin) as (st & j & ? & _). eauto. }
    eexists _, _. apply ingest_accept; try done.
    destruct (_checkpoints m !! commit_key commit) eqn:Hp; [|done]. by apply checkpoint_conflict_None, Hcp.
Qed.

Lemma evaluate_matched m w armed now limits mt m' :
  mem_inv m → evaluate m w armed now limits = (Done (EvalMatched mt), m') → _reservations m' !! w = Some mt.
Proof.
  intros Hinv Hev.
  destruct (evaluate_cases _ _ _ _ _ _ _ Hev) as [(-> & e & [= <-] & Hm)|(-> & Hnone & c & d & _ & _ & Hv & _ & _ & Hr)];
    [by apply Hm|].
  destruct (evaluate_reserves _ _ _ _ _ _ _ _ Hinv Hnone Hv Hr) as (e & [= <-] & [[Hno _]|H]);
    [by destruct (Hno mt)|].
  destruct H as (item & mt' & [= <-] & -> & _). apply lookup_insert_eq.
Qed.

(** (safety). A wake matches at most once: whatever happens after a match,
    and whichever armed signal, time and limits a later evaluation is given,
    a match it reports is the first one. *)
Theorem match_stable m w armed now limits mt m1 m2 armed' now' limits' mt' m3 :
  rtc mem_step mem_init m → evaluate m w armed now limits = (Done (EvalMatched mt), m1) →
  rtc mem_step m1 m2 → evaluate m2 w armed' now' limits' = (Done (EvalMatched mt'), m3) → mt' = mt.
Proof.
  intros Hm Hev Hsteps Hev'. pose proof (steps_inv _ _ Hm mem_init_inv) as Hinv.
  pose proof (evaluate_matched _ _ _ _ _ _ _ Hinv Hev) as Hres.
  pose proof (lookup_weaken _ _ _ _ Hres (le_reservations _ _ (steps_le _ _ Hsteps))) as Hres2.
  destruct (evaluate_cases _ _ _ _ _ _ _ Hev') as [(-> & e & [= <-] & Hm')|(-> & Hnone & _)];
    [|congruence]. rewrite (Hm' _ eq_refl) in Hres2. congruence.
Qed.

(** (functional). [evaluate] never raises, and a new match is sound and
    earliest: its evidence is a stored receipt that satisfies the armed signal
    (after the anchor, same source and subject, every clause, verified when
    required), no stored receipt that satisfies it has a smaller sequence, and
    the wake was neither matched nor expired. *)
Theorem evaluate_sound m w armed now limits r m' :
  rtc mem_step mem_init m → evaluate m w armed now limits = (r, m') →
  (∃ e, r = Done e) ∧
  ∀ mt, r = Done (EvalMatched mt) → _reservations m !! w = None →
    ∃ c durable item,
      _contracts m !! (spec_source (spec armed), spec_source_instance (spec armed)) = Some c ∧
      durable_signal m w c armed = Some durable ∧
      item ∈ snd <$> _receipts m ∧ eligible c durable item ∧ matched_receipt mt = evidence_of item ∧
      matched_wake_id mt = w ∧ matched_at mt = now ∧ (∀ t, expires_at durable = Some t → now < t) ∧
      ∀ other, other ∈ snd <$> _receipts m → eligible c durable other →
        local_sequence item.2 ≤ local_sequence other.2.
Proof.
  intros Hm Hev. pose proof (steps_inv _ _ Hm mem_init_inv) as Hinv.
  destruct (evaluate_cases _ _ _ _ _ _ _ Hev) as [(-> & e & -> & Hm')|(-> & Hnone & c & d & Hc & Hd & Hv & _ & Hex & Hr)].
  { split; [eauto|]. intros mt [= ->] Hnone. rewrite (Hm' _ eq_refl) in Hnone. done. }
  destruct (evaluate_reserves _ _ _ _ _ _ _ _ Hinv Hnone Hv Hr) as (e & -> & [[Hno _]|H]).
  { split; [eauto|]. intros mt [= ->]. by destruct (Hno mt). }
  destruct H as (item & mt' & -> & -> & ? & ? & _ & ? & ? & ? & ?). split; [eauto|].
  intros mt [= <-] _. by exists c, d, item.
Qed.

(** Every row about the signal carries an integer order attribute, when the
    contract names one. *)
Definition ordered_rows (c : SourceContract) (armed : ArmedSignal) (rows : list candidate) : Prop :=
  ∀ key item, occurrence_order_attribute c = Some key → item ∈ rows → about_signal armed item →
    ∃ z, obs_attributes item.1 !! key = Some (SInt z).

Lemma classify_not_bad c armed item i :
  (∀ key, occurrence_order_attribute c = Some key → about_signal armed item →
     ∃ z, obs_attributes item.1 !! key = Some (SInt z)) →
  classify c armed item ≠ Done (Bad i).
Proof.
  destruct item as [o r]. simpl. intros Hord. unfold classify, _occurrence_is_after_anchor.
  destruct (Z.leb_spec (local_sequence r) (local_after_sequence (anchor armed))); [done|].
  case_bool_decide as Heq; simpl; [|done].
  destruct (occurrence_order_attribute c) as [key|].
  - destruct (Hord key eq_refl) as [z ->]; [by split|].
    destruct (norm <$> baseline (anchor armed) !! key) as [[| |]|]; simpl; try done. by repeat case_match.
  - simpl. by repeat case_match.
Qed.

Lemma scan_ordered c armed rows : _validate_occurrence_anchor c (spec armed) (anchor armed) = None →
  ordered_rows c armed rows →
  ∃ pending, scan_receipts c armed rows = Done (inr (List.filter (is_candidate c armed) rows, pending)).
Proof.
  intros Hv Hord. assert (∃ p, scan_receipts c armed rows = Done (inr p)) as [[cs pending] Hs].
  { induction rows as [|item rows IH]; [by eexists|].
    destruct IH as [[cs p] Hs]; [intros key it Hk Hin; apply (Hord key it Hk); by right|].
    destruct (classify_spec c armed item Hv) as [[class Hc] _].
    pose proof (classify_not_bad c armed item) as Hnb. cbn [scan_receipts]. rewrite Hc. simpl. rewrite Hs.
    destruct class as [| | |i]; simpl; eauto.
    exfalso. apply (Hnb i); [|done]. intros key Hk Hab. apply (Hord key item Hk); [by left|done]. }
  destruct (scan_spec c armed rows Hv) as (res & Hres & Hcs).
  rewrite Hs in Hres. injection Hres as <-. exists pending. by rewrite Hs, (Hcs _ _ eq_refl).
Qed.

(** (liveness). Evaluation misses nothing: for a known, published, unexpired
    and not yet matched signal whose receipts carry their order attribute, a
    stored receipt that satisfies it makes [evaluate] match now, as soon as the
    limits admit the candidates and their evidence. *)
Theorem evaluate_live m w armed now limits c durable item :
  w = Signals.wake_id armed → _reservations m !! w = None →
  _contracts m !! (spec_source (spec armed), spec_source_instance (spec armed)) = Some c →
  durable_signal m w c armed = Some durable →
  _validate_occurrence_anchor c (spec durable) (anchor durable) = None →
  publication durable = "published" → (∀ t, expires_at durable = Some t → now < t) →
  ordered_rows c durable (snd <$> _receipts m) →
  Z.of_nat (length (_receipts m)) ≤ max_candidates limits →
  (∀ it, it ∈ snd <$> _receipts m → attribute_bytes (obs_attributes it.1) ≤ limit_attribute_bytes limits ∧
     utf8_bytes (default EmptyString (evidence_ref it.1)) ≤ limit_evidence_ref_bytes limits) →
  item ∈ snd <$> _receipts m → eligible c durable item →
  ∃ mt, evaluate m w armed now limits = (Done (EvalMatched mt), reserve m w mt).
Proof.
  intros Hw Hnone Hc Hd Hv Hp Hex Hord Hmax Hlim Hin Hel.
  assert (evaluate m w armed now limits = evaluate_receipts m w c durable now limits) as ->.
  { unfold evaluate. rewrite (bool_decide_true (w = _)), Hc, Hd, Hv, Hnone, bool_decide_true by done. simpl.
    destruct (expires_at durable) as [t|]; [|done].
    destruct (Z.leb_spec t now); [specialize (Hex t eq_refl); lia|done]. }
  unfold evaluate_receipts. destruct (scan_ordered c durable _ Hv Hord) as [pending ->].
  unfold decide_candidates. set (cs := List.filter _ _).
  pose proof (merge_sort_Permutation candidate_le cs) as Hperm.
  assert (∀ it, it ∈ cs → it ∈ snd <$> _receipts m) as Hsub.
  { intros it Hit%list_elem_of_In. apply filter_In in Hit as [Hit _]. by apply list_elem_of_In. }
  assert (item ∈ merge_sort candidate_le cs) as Hics.
  { rewrite Hperm, list_elem_of_In. apply filter_In. rewrite <- list_elem_of_In. split; [done|].
    by apply classify_spec. }
  destruct (Z.ltb_spec (max_candidates limits) (Z.of_nat (length (merge_sort candidate_le cs)))) as [Hlt|_].
  { exfalso. rewrite Hperm in Hlt. pose proof (filter_length_le (is_candidate c durable) (snd <$> _receipts m)) as Hfl.
    rewrite length_fmap in Hfl. unfold cs in Hlt. lia. }
  destruct (merge_sort candidate_le cs) as [|[o r] tl]; [by apply not_elem_of_nil in Hics|].
  destruct (Hlim (o, r)) as [H1 H2]; [apply Hsub; rewrite <- Hperm; by left|]. simpl in H1, H2.
  destruct (Z.ltb_spec (limit_attribute_bytes limits) (attribute_bytes (obs_attributes o))); [lia|].
  destruct (Z.ltb_spec (limit_evidence_ref_bytes limits) (utf8_bytes (default EmptyString (evidence_ref o)))); [lia|].
  by eexists.
Qed.

(** (functional). Arming is idempotent for ever: once a key is armed, any
    later call with that key and an acceptable specification answers the very
    same armed signal when the fingerprint is the same and a conflict naming
    its wake otherwise, without consulting the adapter or changing the state. *)
Theorem arm_idempotent {A B} `{SignalSourceAdapter A, SignalSourceAdapter B}
    m w sp (context : ArmContext A) armed m1 a m2 w' sp' (context' : ArmContext B) c :
  arm m w sp context = (Done (ArmDone armed), m1, a) → rtc mem_step m1 m2 →
  idempotency_key context' = idempotency_key context →
  contract (adapter context') = Done c → _validate_signal sp' c = None →
  arm m2 w' sp' context' =
    (Done (if bool_decide (intent_fingerprint context = intent_fingerprint context') then ArmDone armed
           else ArmInvalid (invalid (Some (Signals.wake_id armed)) "IDEMPOTENCY_CONFLICT")),
     m2, adapter context').
Proof.
  intros Harm Hsteps Hkey Hc Hval.
  assert (dict_get (idempotency_key context) (_registrations m1) = Some (intent_fingerprint context, armed)) as Hreg.
  { unfold arm in Harm.
    repeat (case_match; simplify_eq/=); try apply dict_get_set_eq.
    by rewrite bool_decide_eq_true in *; subst. }
  apply (le_registrations _ _ (steps_le _ _ Hsteps)) in Hreg.
  unfold arm. rewrite Hc, Hval, Hkey, Hreg. by case_bool_decide.
Qed.

(** ** A concrete history *)
Definition demo_contract : SourceContract :=
  {| contract_source := "github"; contract_source_instance := "main"; kinds := {["ci"]};
     subjects := {["pr/1"]}; allowed_attributes := {["state" := TStr; "order" := TInt]};
     max_clauses := 16; max_in_values := 32; max_attribute_bytes := 4096; max_evidence_ref_bytes := 1024;
     occurrence_order_attribute := Some "order" |}.
Definition demo_spec : SignalRequest :=
  {| spec_contract_version := SInt 1; spec_source := "github"; spec_source_instance := "main";
     spec_semantics := "occurrence"; spec_kind := "ci"; spec_subject := "pr/1"; spec_condition := "occurs";
     spec_where := [In "state" [SStr "failure"; SStr "success"]]; spec_verification := "required" |}.
Definition demo_anchor : SourceAnchor :=
  {| local_after_sequence := 0; source_anchor := "a"; baseline := {["order" := SInt 5]};
     recovery := "local_journal" |}.
Definition demo_adapter : ScriptedSourceAdapter :=
  {| scripted_contract := demo_contract; scripted_anchors := [AnchorDone demo_anchor]; anchor_calls := 0 |}.
Definition demo_context (fingerprint : string) : ArmContext ScriptedSourceAdapter :=
  {| idempotency_key := "k"; intent_fingerprint := fingerprint; context_registered_at := 0;
     context_expires_at := Some 1000;
     context_resume := {| resume_prompt := "p"; resume_cwd := "/"; resume_target := [] |};
     adapter := demo_adapter; max_attempts := 3 |}.
Definition demo_observation (value : string) (order : Z) (state : string) : NormalizedObservation :=
  {| obs_source := "github"; obs_source_instance := "main"; obs_kind := "ci"; obs_subject := "pr/1";
     occurrence_namespace := "run"; occurrence_value := value; occurred_at := 1; observed_at := 2;
     obs_attributes := {["state" := SStr state; "order" := SInt order]};
     verification := {| verification_state := "verified"; verification_method := "api" |};
     evidence_ref := Some "ref" |}.
Definition demo_commit (order : Z) : SourceCommit :=
  {| commit_source := "github"; commit_source_instance := "main"; checkpoint := "c" +:+ Z_dec order;
     checkpoint_order := order; observed_through := 2 |}.
Definition demo_batch : list NormalizedObservation :=
  [demo_observation "1" 5 "success"; demo_observation "2" 6 "pending"; demo_observation "3" 7 "success";
   demo_observation "3" 7 "success"].
Definition demo_limits : EvaluationLimits :=
  {| max_candidates := 10; limit_attribute_bytes := 4096; limit_evidence_ref_bytes := 1024 |}.
Definition demo_armed : ArmedSignal :=
  {| wake_id := "w"; arm_id := "arm_w"; spec := demo_spec; anchor := demo_anchor; registered_at := 0;
     expires_at := Some 1000; publication := "published" |}.
Definition demo_m1 : mem := (arm mem_init "w" demo_spec (demo_context "f")).1.2.
Definition demo_m2 : mem := (ingest demo_m1 demo_batch (demo_commit 1)).2.
Definition demo_m3 : mem := (evaluate demo_m2 "w" demo_armed 10 demo_limits).2.

Lemma demo_step1 : mem_step mem_init demo_m1.
Proof. eapply (step_arm _ _ ScriptedSourceAdapter _ "w" demo_spec (demo_context "f")). vm_compute. reflexivity. Qed.
Lemma demo_step2 : mem_step demo_m1 demo_m2.
Proof. eapply (step_ingest _ _ demo_batch (demo_commit 1)). vm_compute. reflexivity. Qed.
Lemma demo_step3 : mem_step demo_m2 demo_m3.
Proof. eapply (step_evaluate _ _ "w" demo_armed 10 demo_limits). vm_compute. reflexivity. Qed.
Lemma demo_reachable : rtc mem_step mem_init demo_m2.
Proof. eapply rtc_l, rtc_once; [apply demo_step1|apply demo_step2]. Qed.

Definition demo_matched : Matched :=
  {| matched_wake_id := "w"; match_token := "match:w:event_000000000003";
     matched_receipt := evidence_of (demo_observation "3" 7 "success", receipt_of 3); matched_at := 10 |}.

Lemma reachable_inv_witness : mem_inv demo_m2.
Proof. apply (reachable_inv demo_m2), demo_reachable. Defined.
Lemma history_monotone_witness : mem_le mem_init demo_m2.
Proof. apply (history_monotone mem_init demo_m2), demo_reachable. Defined.
Lemma ingest_functional_witness :
  (∃ i, (ingest demo_m1 demo_batch (demo_commit 1)).1 = Done (IngestInvalid i) ∧ demo_m2 = demo_m1) ∨
  (∃ refs fresh, (ingest demo_m1 demo_batch (demo_commit 1)).1 =
      Done (IngestDone {| receipts := refs; ingested_checkpoint := "c1" |}) ∧
     _receipts demo_m2 = new_receipts 1 fresh).
Proof.
  destruct (ingest_functional demo_m1 demo_batch (demo_commit 1)
    (ingest demo_m1 demo_batch (demo_commit 1)).1 demo_m2) as [H|(refs & fresh & H1 & H2 & _)].
  - vm_compute. reflexivity.
  - by left.
  - right. exists refs, fresh. split; [exact H1|exact H2].
Defined.
Definition demo_refs : Ingested :=
  {| receipts := [receipt_of 1; receipt_of 2; receipt_of 3; as_duplicate (receipt_of 3)];
     ingested_checkpoint := "c1" |}.
Lemma ingest_idempotent_witness :
  ingest demo_m2 demo_batch (demo_commit 1) =
    (Done (IngestDone {| receipts := as_duplicate <$> receipts demo_refs; ingested_checkpoint := "c1" |}), demo_m2).
Proof. apply (ingest_idempotent demo_m1 demo_batch (demo_commit 1) demo_refs demo_m2). vm_compute. reflexivity. Defined.
Lemma match_stable_witness : demo_matched = demo_matched.
Proof.
  apply (match_stable demo_m2 "w" demo_armed 10 demo_limits demo_matched demo_m3 demo_m3 demo_armed 20
    demo_limits demo_matched demo_m3); [apply demo_reachable| |apply rtc_refl|]; vm_compute; reflexivity.
Defined.
Lemma evaluate_sound_witness :
  evaluate demo_m2 "w" demo_armed 10 demo_limits = (Done (EvalMatched demo_matched), demo_m3) ∧
  ∃ c durable item, durable_signal demo_m2 "w" c demo_armed = Some durable ∧
    item ∈ snd <$> _receipts demo_m2 ∧ eligible c durable item.
Proof.
  split; [vm_compute; reflexivity|].
  destruct (evaluate_sound demo_m2 "w" demo_armed 10 demo_limits (Done (EvalMatched demo_matched)) demo_m3)
    as [_ H]; [apply demo_reachable|vm_compute; reflexivity|].
  destruct (H demo_matched eq_refl ltac:(vm_compute; reflexivity)) as (c & d & item & _ & ? & ? & ? & _).
  by exists c, d, item.
Defined.
Definition demo_item : candidate := (demo_observation "3" 7 "success", receipt_of 3).
Lemma demo_rows : snd <$> _receipts demo_m2 =
  [(demo_observation "1" 5 "success", receipt_of 1); (demo_observation "2" 6 "pending", receipt_of 2); demo_item].
Proof. vm_compute. reflexivity. Qed.
Lemma demo_rows_ordered : ordered_rows demo_contract demo_armed (snd <$> _receipts demo_m2).
Proof.
  intros key item Hkey Hin _. injection Hkey as <-. rewrite demo_rows in Hin.
  rewrite !elem_of_cons, elem_of_nil in Hin. destruct_or! Hin; subst; by eexists.
Qed.
Lemma demo_rows_small it : it ∈ snd <$> _receipts demo_m2 →
  attribute_bytes (obs_attributes it.1) ≤ limit_attribute_bytes demo_limits ∧
  utf8_bytes (default EmptyString (evidence_ref it.1)) ≤ limit_evidence_ref_bytes demo_limits.
Proof.
  rewrite demo_rows, !elem_of_cons, elem_of_nil. intros Hin.
  destruct_or! Hin; subst; split; vm_compute; congruence.
Qed.
Lemma demo_item_eligible : eligible demo_contract demo_armed demo_item.
Proof. apply (classify_spec demo_contract demo_armed demo_item); vm_compute; reflexivity. Qed.
Lemma evaluate_live_witness : ∃ mt,
  evaluate demo_m2 "w" demo_armed 10 demo_limits = (Done (EvalMatched mt), reserve demo_m2 "w" mt).
Proof.
  apply (evaluate_live demo_m2 "w" demo_armed 10 demo_limits demo_contract demo_armed demo_item).
  1-6: vm_compute; reflexivity.
  - intros t [= <-]. vm_compute. reflexivity.
  - apply demo_rows_ordered.
  - vm_compute. congruence.
  - apply demo_rows_small.
  - rewrite demo_rows. right. right. by left.
  - apply demo_item_eligible.
Defined.
Lemma arm_idempotent_witness :
  arm demo_m2 "other" demo_spec (demo_context "g") =
    (Done (ArmInvalid (invalid (Some "w") "IDEMPOTENCY_CONFLICT")), demo_m2, demo_adapter).
Proof.
  etrans; [apply (arm_idempotent mem_init "w" demo_spec (demo_context "f") demo_armed demo_m1
    {| scripted_contract := demo_contract; scripted_anchors := [AnchorDone demo_anchor]; anchor_calls := 1 |}
    demo_m2 "other" demo_spec (demo_context "g") demo_contract)|].
  - vm_compute. reflexivity.
  - apply rtc_once, demo_step2.
  - reflexivity.
  - reflexivity.
  - vm_compute. reflexivity.
  - vm_compute. reflexivity.
Defined.
