(* ===== verification/SignalCodec.v ===== *)
(** * The JSON columns of the journal (signal_store.py, the payload helpers)

    What [_canonical_json] is given for a request, a contract, an
    observation, a baseline and a match, the readers of the same columns, and
    the round trip of each.  A reader answers [None] where the code raises: a
    missing key, text that is no JSON, or a member of another JSON type. *)
From S2P Require Import Prelude Json Sha256 Datetime Signals.
Open Scope Z_scope.

Definition _canonical_json (v : json) : string := dumps v.
Definition _fingerprint (text : string) : string := sha256 text.
Definition _format_time (t : Z) : string := format_time t.
Definition _parse_time (s : string) : option Z := parse_time s.

Lemma _parse_format_time t : calendar_range t → _parse_time (_format_time t) = Some t.
Proof. apply parse_format_time. Qed.
#[global] Opaque _parse_time _format_time.

(** ** Members of an object *)
Definition field (k : string) (v : json) : option json :=
  match v with JObj o => dict_get k o | _ => None end.
Definition as_str (v : json) : option string := match v with JStr s => Some s | _ => None end.
Definition as_int (v : json) : option Z := match v with JInt z => Some z | _ => None end.
Definition as_opt_str (v : json) : option (option string) :=
  match v with JStr s => Some (Some s) | JNull => Some None | _ => None end.
Definition as_arr (v : json) : option (list json) := match v with JArr l => Some l | _ => None end.
Definition as_obj (v : json) : option (list (string * json)) := match v with JObj o => Some o | _ => None end.
Definition as_scalar (v : json) : option JsonScalar :=
  match v with
  | JStr s => Some (SStr s) | JInt z => Some (SInt z) | JBool b => Some (SBool b)
  | _ => None
  end.
Definition str_field (k : string) (v : json) : option string := field k v ≫= as_str.
Definition int_field (k : string) (v : json) : option Z := field k v ≫= as_int.
Definition opt_str (s : option string) : json := match s with Some s => JStr s | None => JNull end.
Definition opt_int (z : option Z) : json := match z with Some z => JInt z | None => JNull end.

Definition read_attributes (v : json) : option attributes :=
  o ← as_obj v;
  l ← mapM (λ '(k, x), s ← as_scalar x; Some (k, s)) o;
  Some (list_to_map l).

(** ** Requests *)
Definition clause_payload (c : WhereClause) : json :=
  match c with
  | Eq f v => JObj [("op", JStr "eq"); ("field", JStr f); ("value", scalar_json v)]
  | In f vs => JObj [("op", JStr "in"); ("field", JStr f); ("values", JArr (scalar_json <$> vs))]
  end.
Definition _spec_payload (spec : SignalRequest) : json := JObj [
  ("contract_version", scalar_json (spec_contract_version spec));
  ("source", JStr (spec_source spec));
  ("source_instance", JStr (spec_source_instance spec));
  ("semantics", JStr (spec_semantics spec));
  ("kind", JStr (spec_kind spec));
  ("subject", JStr (spec_subject spec));
  ("condition", JStr (spec_condition spec));
  ("where", JArr (clause_payload <$> spec_where spec));
  ("verification", JStr (spec_verification spec)) ].

Definition read_clause (v : json) : option WhereClause :=
  op ← str_field "op" v;
  f ← str_field "field" v;
  if decide (op = "eq")
  then x ← field "value" v; x ← as_scalar x; Some (Eq f x)
  else l ← field "values" v; l ← as_arr l; vs ← mapM as_scalar l; Some (In f vs).
Definition spec_of_payload (p : json) : option SignalRequest :=
  w ← field "where" p; w ← as_arr w; clauses ← mapM read_clause w;
  cv ← field "contract_version" p; contract_version ← as_scalar cv;
  source ← str_field "source" p;
  source_instance ← str_field "source_instance" p;
  semantics ← str_field "semantics" p;
  kind ← str_field "kind" p;
  subject ← str_field "subject" p;
  condition ← str_field "condition" p;
  verification ← str_field "verification" p;
  Some {| spec_contract_version := contract_version; spec_source := source;
          spec_source_instance := source_instance; spec_semantics := semantics; spec_kind := kind;
          spec_subject := subject; spec_condition := condition; spec_where := clauses;
          spec_verification := verification |}.
Definition _spec_from_json (value : string) : option SignalRequest := loads value ≫= spec_of_payload.

(** ** Resumption *)
Definition _resume_payload (r : Resume) : json := JObj [
  ("prompt", JStr (resume_prompt r)); ("cwd", JStr (resume_cwd r)); ("target", JObj (resume_target r)) ].
Definition _resume_from_json (value : string) : option Resume :=
  p ← loads value;
  prompt ← str_field "prompt" p;
  cwd ← str_field "cwd" p;
  target ← field "target" p; target ← as_obj target;
  Some {| resume_prompt := prompt; resume_cwd := cwd; resume_target := target |}.

(** ** Contracts *)
(** [_TYPE_NAMES] and its inverse; another type is a [KeyError]. *)
Definition _TYPE_NAMES (t : JsonType) : option string :=
  match t with TStr => Some "str" | TInt => Some "int" | TBool => Some "bool" | TOther _ => None end.
Definition _TYPES (name : string) : option JsonType :=
  if decide (name = "str") then Some TStr
  else if decide (name = "int") then Some TInt
  else if decide (name = "bool") then Some TBool
  else None.

Definition string_sort (l : list string) : list string := merge_sort String.le l.
Definition _contract_payload (c : SourceContract) : option json :=
  allowed ← mapM (λ '(name, t), n ← _TYPE_NAMES t; Some (name, JStr n)) (map_to_list (allowed_attributes c));
  Some (JObj ([
    ("source", JStr (contract_source c));
    ("source_instance", JStr (contract_source_instance c));
    ("kinds", JArr (JStr <$> string_sort (elements (kinds c))));
    ("subjects", JArr (JStr <$> string_sort (elements (subjects c))));
    ("allowed_attributes", JObj allowed);
    ("max_clauses", JInt (max_clauses c));
    ("max_in_values", JInt (max_in_values c));
    ("max_attribute_bytes", JInt (max_attribute_bytes c));
    ("max_evidence_ref_bytes", JInt (max_evidence_ref_bytes c)) ] ++
    match occurrence_order_attribute c with
    | Some key => [("occurrence_order_attribute", JStr key)]
    | None => []
    end)).

Definition read_strings (v : json) : option (list string) := l ← as_arr v; mapM as_str l.
Definition contract_of_payload (p : json) : option SourceContract :=
  source ← str_field "source" p;
  source_instance ← str_field "source_instance" p;
  ks ← field "kinds" p; ks ← read_strings ks;
  ss ← field "subjects" p; ss ← read_strings ss;
  al ← field "allowed_attributes" p; al ← as_obj al;
  allowed ← mapM (λ '(name, x), n ← as_str x; t ← _TYPES n; Some (name, t)) al;
  mc ← int_field "max_clauses" p;
  mi ← int_field "max_in_values" p;
  ma ← int_field "max_attribute_bytes" p;
  me ← int_field "max_evidence_ref_bytes" p;
  order ← match field "occurrence_order_attribute" p with
          | None => Some None
          | Some x => as_opt_str x
          end;
  Some {| contract_source := source; contract_source_instance := source_instance;
          kinds := list_to_set ks; subjects := list_to_set ss; allowed_attributes := list_to_map allowed;
          max_clauses := mc; max_in_values := mi; max_attribute_bytes := ma; max_evidence_ref_bytes := me;
          occurrence_order_attribute := order |}.
Definition _contract_from_json (value : string) : option SourceContract := loads value ≫= contract_of_payload.

(** ** Observations *)
Definition _identity (o : NormalizedObservation) : string * string * string * string :=
  (obs_source o, obs_source_instance o, occurrence_namespace o, occurrence_value o).
Definition verification_payload (v : Verification) : json :=
  JObj [("state", JStr (verification_state v)); ("method", JStr (verification_method v))].
Definition _observation_payload (o : NormalizedObservation) : json := JObj [
  ("source", JStr (obs_source o));
  ("source_instance", JStr (obs_source_instance o));
  ("kind", JStr (obs_kind o));
  ("subject", JStr (obs_subject o));
  ("occurrence_namespace", JStr (occurrence_namespace o));
  ("occurrence_value", JStr (occurrence_value o));
  ("occurred_at", JStr (_format_time (occurred_at o)));
  ("observed_at", JStr (_format_time (observed_at o)));
  ("attributes", attributes_json (obs_attributes o));
  ("verification", verification_payload (verification o));
  ("evidence_ref", opt_str (evidence_ref o)) ].

Definition observation_of_payload (p : json) : option NormalizedObservation :=
  source ← str_field "source" p;
  source_instance ← str_field "source_instance" p;
  kind ← str_field "kind" p;
  subject ← str_field "subject" p;
  namespace ← str_field "occurrence_namespace" p;
  value ← str_field "occurrence_value" p;
  occurred ← str_field "occurred_at" p; occurred ← _parse_time occurred;
  observed ← str_field "observed_at" p; observed ← _parse_time observed;
  attrs ← field "attributes" p; attrs ← read_attributes attrs;
  v ← field "verification" p; state ← str_field "state" v; method ← str_field "method" v;
  ref ← field "evidence_ref" p; ref ← as_opt_str ref;
  Some {| obs_source := source; obs_source_instance := source_instance; obs_kind := kind;
          obs_subject := subject; occurrence_namespace := namespace; occurrence_value := value;
          occurred_at := occurred; observed_at := observed; obs_attributes := attrs;
          verification := {| verification_state := state; verification_method := method |};
          evidence_ref := ref |}.
Definition _observation_from_json (value : string) : option NormalizedObservation :=
  loads value ≫= observation_of_payload.

(** ** Anchors' baselines *)
Definition baseline_of_json (value : string) : option attributes := loads value ≫= read_attributes.

(** ** Matches *)
Definition _matched_payload (m : Matched) : json :=
  let r := matched_receipt m in JObj [
  ("wake_id", JStr (matched_wake_id m));
  ("match_token", JStr (match_token m));
  ("receipt_id", JStr (evidence_receipt_id r));
  ("local_sequence", JInt (evidence_local_sequence r));
  ("evidence_ref", opt_str (evidence_evidence_ref r));
  ("attributes", attributes_json (evidence_attributes r));
  ("verification_state", JStr (evidence_verification_state r));
  ("verification_method", JStr (evidence_verification_method r));
  ("matched_at", JStr (_format_time (matched_at m))) ].

Definition str_field_default (k : string) (v : json) (d : string) : option string :=
  match field k v with None => Some d | Some x => as_str x end.
Definition matched_of_payload (p : json) : option Matched :=
  w ← str_field "wake_id" p;
  token ← str_field "match_token" p;
  rid ← str_field "receipt_id" p;
  sequence ← int_field "local_sequence" p;
  ref ← field "evidence_ref" p; ref ← as_opt_str ref;
  attrs ← field "attributes" p; attrs ← read_attributes attrs;
  state ← str_field_default "verification_state" p "verified";
  method ← str_field_default "verification_method" p EmptyString;
  at_ ← str_field "matched_at" p; at_ ← _parse_time at_;
  Some {| matched_wake_id := w; match_token := token;
          matched_receipt := {| evidence_receipt_id := rid; evidence_local_sequence := sequence;
            evidence_evidence_ref := ref; evidence_attributes := attrs;
            evidence_verification_state := state; evidence_verification_method := method |};
          matched_at := at_ |}.
Definition matched_of_json (value : string) : option Matched := loads value ≫= matched_of_payload.

(** ** Round trips *)
Lemma dict_get_Permutation {V} (k : string) (l l' : list (string * V)) :
  NoDup l.*1 → l ≡ₚ l' → dict_get k l = dict_get k l'.
Proof.
  intros Hnd Hp. assert (NoDup l'.*1) as Hnd' by (by rewrite <- Hp).
  destruct (dict_get k l) as [v|] eqn:Hl.
  - symmetry. apply dict_elem_get; [done|]. rewrite <- Hp. by apply dict_get_elem.
  - destruct (dict_get k l') as [v|] eqn:Hl'; [|done]. apply dict_get_elem in Hl'. rewrite <- Hp in Hl'.
    apply dict_elem_get in Hl'; [|done]. congruence.
Qed.
Lemma dict_get_map {V W} (f : V → W) (k : string) (l : list (string * V)) :
  dict_get k (prod_map id f <$> l) = f <$> dict_get k l.
Proof. induction l as [|[k' v] l IH]; csimpl; [done|]. by case_decide. Qed.

(** Reading a member of what was written. *)
Lemma field_canon k v : json_ok v → field k (canon v) = canon <$> field k v.
Proof.
  destruct v as [| | | | |o]; try done. rewrite json_ok_obj. intros [Hnd _].
  rewrite canon_obj. cbn [field]. rewrite dict_get_map. f_equal.
  apply dict_get_Permutation; rewrite sort_keys_Permutation; done.
Qed.

Lemma canon_scalar s : canon (scalar_json s) = scalar_json s.
Proof. by destruct s. Qed.
Lemma as_scalar_json s : as_scalar (scalar_json s) = Some s.
Proof. by destruct s. Qed.
Lemma json_ok_scalar s : json_ok (scalar_json s).
Proof. by destruct s. Qed.
Lemma canon_opt_str s : canon (opt_str s) = opt_str s.
Proof. by destruct s. Qed.
Lemma as_opt_str_json s : as_opt_str (opt_str s) = Some s.
Proof. by destruct s. Qed.
Lemma json_ok_opt_str s : json_ok (opt_str s).
Proof. by destruct s. Qed.

Lemma mapM_fmap_Some {A B} (f : B → option A) (g : A → B) (l : list A) :
  (∀ x, f (g x) = Some x) → mapM f (g <$> l) = Some l.
Proof. intros Hfg. induction l as [|x l IH]; [done|]. cbn. by rewrite Hfg, IH. Qed.

Lemma json_ok_attributes a : json_ok (attributes_json a).
Proof.
  unfold attributes_json. apply json_ok_obj. split.
  - rewrite <- list_fmap_compose. apply (NoDup_fmap_fst _); [|apply NoDup_map_to_list].
    intros k v1 v2 H1%elem_of_map_to_list H2%elem_of_map_to_list. congruence.
  - apply Forall_fmap, Forall_true. intros [k v]. apply json_ok_scalar.
Qed.
Lemma canon_attributes a :
  canon (attributes_json a) = JObj (prod_map id scalar_json <$> sort_keys (map_to_list a)).
Proof.
  unfold attributes_json. rewrite canon_obj, sort_keys_map. f_equal. rewrite <- list_fmap_compose.
  apply list_fmap_ext. intros _ [k v] _. simpl. by rewrite canon_scalar.
Qed.
Lemma read_attributes_canon a : read_attributes (canon (attributes_json a)) = Some a.
Proof.
  rewrite canon_attributes. unfold read_attributes. cbn [as_obj mbind option_bind].
  rewrite (mapM_fmap_Some _ (prod_map id scalar_json)); cbn [mbind option_bind].
  - f_equal. erewrite list_to_map_proper; [apply list_to_map_to_list| |apply sort_keys_Permutation].
    rewrite sort_keys_Permutation. apply NoDup_fst_map_to_list.
  - intros [k v]. cbn. by rewrite as_scalar_json.
Qed.

(** A literal object is well formed when its keys are distinct and its values
    are; the values' own facts are in the [json_ok] hints. *)
Create HintDb json_ok.
#[export] Hint Resolve json_ok_attributes json_ok_opt_str json_ok_scalar : json_ok.
Ltac json_ok_object :=
  apply json_ok_obj; split;
  [ refine (bool_decide_unpack _ _); vm_compute; exact I
  | repeat (apply Forall_cons; split); try apply Forall_nil_2; try done; cbn [snd]; auto with json_ok ].
(** Read every member of what a writer produced.  [sfield] is [field] by
    boolean comparison of the keys, which the kernel evaluates in one pass. *)
Fixpoint sget {V} (k : string) (o : list (string * V)) : option V :=
  match o with
  | [] => None
  | (k', v) :: o => if String.eqb k k' then Some v else sget k o
  end.
Lemma sget_dict_get {V} k (o : list (string * V)) : sget k o = dict_get k o.
Proof.
  induction o as [|[k' v] o IH]; simpl; [done|].
  destruct (String.eqb_spec k k'); [by rewrite decide_True|by rewrite decide_False].
Qed.
Definition sfield (k : string) (v : json) : option json :=
  match v with JObj o => sget k o | _ => None end.
Lemma sfield_field k v : sfield k v = field k v.
Proof. destruct v; simpl; try done. apply sget_dict_get. Qed.
Lemma field_read k v x : json_ok v → sfield k v = Some x → field k (canon v) = Some (canon x).
Proof. intros Hok Hf. rewrite sfield_field in Hf. by rewrite field_canon, Hf. Qed.
Lemma field_missing k v : json_ok v → sfield k v = None → field k (canon v) = None.
Proof. intros Hok Hf. rewrite sfield_field in Hf. by rewrite field_canon, Hf. Qed.
Lemma canon_str s : canon (JStr s) = JStr s.
Proof. done. Qed.
Lemma canon_int z : canon (JInt z) = JInt z.
Proof. done. Qed.
Lemma canon_arr l : canon (JArr l) = JArr (canon <$> l).
Proof. done. Qed.
Lemma bind_Some {A B} (x : A) (f : A → option B) : Some x ≫= f = f x.
Proof. done. Qed.
Lemma as_str_eq s : as_str (JStr s) = Some s.
Proof. done. Qed.
Lemma as_int_eq z : as_int (JInt z) = Some z.
Proof. done. Qed.
Lemma as_arr_eq l : as_arr (JArr l) = Some l.
Proof. done. Qed.
Lemma as_obj_eq o : as_obj (JObj o) = Some o.
Proof. done. Qed.
(** By rewriting only: conversion would evaluate the rest of the reader. *)
Ltac read_reduce :=
  repeat first
    [ rewrite bind_Some; cbv beta | rewrite canon_str | rewrite canon_int | rewrite as_str_eq | rewrite as_int_eq
    | rewrite read_attributes_canon | rewrite canon_opt_str | rewrite as_opt_str_json
    | rewrite canon_scalar | rewrite as_scalar_json | rewrite as_arr_eq | rewrite as_obj_eq | rewrite _parse_format_time by done ].
Ltac read_fields Hok :=
  unfold str_field, int_field, str_field_default;
  repeat (match goal with
    | |- context [field ?k (canon ?v)] => rewrite (field_read k v _ Hok eq_refl)
    end; read_reduce).

Lemma json_ok_verification v : json_ok (verification_payload v).
Proof. json_ok_object. Qed.
#[export] Hint Resolve json_ok_verification : json_ok.
Lemma observation_payload_ok o : json_ok (_observation_payload o).
Proof. unfold _observation_payload. json_ok_object. Qed.

Definition obs_times_ok (o : NormalizedObservation) : Prop :=
  calendar_range (occurred_at o) ∧ calendar_range (observed_at o).

Lemma observation_round_trip o : obs_times_ok o →
  _observation_from_json (_canonical_json (_observation_payload o)) = Some o.
Proof.
  intros [H1 H2]. unfold _observation_from_json, _canonical_json.
  pose proof (observation_payload_ok o) as Hok. rewrite (loads_dumps _ Hok). cbn [mbind option_bind].
  unfold observation_of_payload. read_fields Hok.
  pose proof (json_ok_verification (verification o)) as Hokv. read_fields Hokv.
  by destruct o as [? ? ? ? ? ? ? ? ? [? ?] ?].
Qed.

Lemma matched_payload_ok m : json_ok (_matched_payload m).
Proof. unfold _matched_payload. json_ok_object. Qed.
Lemma matched_round_trip m : calendar_range (matched_at m) →
  matched_of_json (_canonical_json (_matched_payload m)) = Some m.
Proof.
  intros Ht. unfold matched_of_json, _canonical_json.
  pose proof (matched_payload_ok m) as Hok. rewrite (loads_dumps _ Hok). cbn [mbind option_bind].
  unfold matched_of_payload. read_fields Hok.
  by destruct m as [? ? [? ? ? ? ? ?] ?].
Qed.

Lemma baseline_round_trip a : baseline_of_json (_canonical_json (attributes_json a)) = Some a.
Proof.
  unfold baseline_of_json, _canonical_json. rewrite loads_dumps by apply json_ok_attributes.
  apply read_attributes_canon.
Qed.

Lemma canon_scalars (l : list JsonScalar) : canon <$> (scalar_json <$> l) = scalar_json <$> l.
Proof. rewrite <- list_fmap_compose. apply list_fmap_ext. intros ? x ?. apply canon_scalar. Qed.
Lemma json_ok_scalars (l : list JsonScalar) : json_ok (JArr (scalar_json <$> l)).
Proof. apply json_ok_arr, Forall_fmap, Forall_true. intros. apply json_ok_scalar. Qed.
#[export] Hint Resolve json_ok_scalars : json_ok.

Lemma json_ok_clause c : json_ok (clause_payload c).
Proof. destruct c; json_ok_object. Qed.
Lemma read_clause_canon c : read_clause (canon (clause_payload c)) = Some c.
Proof.
  pose proof (json_ok_clause c) as Hok. unfold read_clause. destruct c; cbn [clause_payload] in *.
  - read_fields Hok. rewrite decide_True by done. read_fields Hok. done.
  - read_fields Hok. rewrite decide_False by done. read_fields Hok. rewrite canon_arr. cbn [as_arr mbind option_bind].
    rewrite canon_scalars, (mapM_fmap_Some as_scalar scalar_json) by apply as_scalar_json. done.
Qed.

Lemma json_ok_clauses l : json_ok (JArr (clause_payload <$> l)).
Proof. apply json_ok_arr, Forall_fmap, Forall_true. intros. apply json_ok_clause. Qed.
#[export] Hint Resolve json_ok_clauses : json_ok.
Lemma spec_payload_ok s : json_ok (_spec_payload s).
Proof. unfold _spec_payload. json_ok_object. Qed.
Lemma spec_round_trip s : _spec_from_json (_canonical_json (_spec_payload s)) = Some s.
Proof.
  unfold _spec_from_json, _canonical_json. pose proof (spec_payload_ok s) as Hok.
  rewrite (loads_dumps _ Hok). cbn [mbind option_bind]. unfold spec_of_payload. read_fields Hok.
  rewrite canon_arr. read_reduce. rewrite <- list_fmap_compose.
  rewrite (mapM_fmap_Some read_clause (canon ∘ clause_payload)) by apply read_clause_canon.
  read_reduce. by destruct s.
Qed.

Lemma json_ok_strings l : json_ok (JArr (JStr <$> l)).
Proof. by apply json_ok_arr, Forall_fmap, Forall_true. Qed.
#[export] Hint Resolve json_ok_strings : json_ok.
Lemma read_strings_canon l : read_strings (canon (JArr (JStr <$> l))) = Some l.
Proof.
  rewrite canon_arr. unfold read_strings. cbn [as_arr mbind option_bind].
  rewrite <- list_fmap_compose. by apply mapM_fmap_Some.
Qed.
Lemma set_round_trip (s : gset string) : list_to_set (string_sort (elements s)) = s.
Proof. apply set_eq. intros x. unfold string_sort. by rewrite elem_of_list_to_set, merge_sort_Permutation, elem_of_elements. Qed.

Lemma types_round_trip t n : _TYPE_NAMES t = Some n → _TYPES n = Some t.
Proof. by destruct t; intros [= <-]. Qed.
Lemma mapM_Permutation {A B} (f : A → option B) l l' r :
  l ≡ₚ l' → mapM f l = Some r → ∃ r', mapM f l' = Some r' ∧ r ≡ₚ r'.
Proof.
  intros Hp. revert r. induction Hp as [|x l l' Hp IH|x y l|l1 l2 l3 _ IH1 _ IH2]; intros r; cbn.
  - intros [= <-]. by eexists.
  - destruct (f x) as [y|]; [|done]. cbn. destruct (mapM f l) as [r0|] eqn:Hr; [|done]. cbn. intros [= <-].
    destruct (IH _ eq_refl) as (r' & -> & Hp'). eexists. split; [done|]. by constructor.
  - destruct (f x) as [x'|], (f y) as [y'|]; cbn; try done. destruct (mapM f l) as [r0|]; [|done]. cbn.
    intros [= <-]. eexists. split; [done|]. constructor.
  - intros Hr. destruct (IH1 _ Hr) as (r1 & Hr1 & ?). destruct (IH2 _ Hr1) as (r2 & ? & ?).
    exists r2. split; [done|]. by etrans.
Qed.

(** The type names of a contract, written and read back. *)
Definition write_type (kv : string * JsonType) : option (string * json) :=
  let '(name, t) := kv in n ← _TYPE_NAMES t; Some (name, JStr n).
Definition read_type (kv : string * json) : option (string * JsonType) :=
  let '(name, x) := kv in n ← as_str x; t ← _TYPES n; Some (name, t).
Lemma types_written l al : mapM write_type l = Some al →
  al.*1 = l.*1 ∧ Forall (λ kv, json_ok kv.2) al ∧ prod_map id canon <$> al = al ∧ mapM read_type al = Some l.
Proof.
  revert al. induction l as [|[k t] l IH]; intros al; cbn; [by intros [= <-]|].
  destruct (_TYPE_NAMES t) as [n|] eqn:Hn; [|done]. cbn.
  destruct (mapM write_type l) as [al0|]; [|done]. cbn. intros [= <-].
  destruct (IH _ eq_refl) as (H1 & H2 & H3 & H4). split_and!.
  - csimpl. by f_equal.
  - by constructor.
  - csimpl. by f_equal.
  - cbn. by rewrite (types_round_trip _ _ Hn), H4.
Qed.

Lemma contract_payload_ok c p : _contract_payload c = Some p → json_ok p.
Proof.
  unfold _contract_payload. fold write_type. destruct (mapM write_type _) as [al|] eqn:Hal; [|done].
  cbn [mbind option_bind]. intros [= <-].
  destruct (types_written _ _ Hal) as (Hk & Hok & _ & _).
  assert (json_ok (JObj al)) by (apply json_ok_obj; split; [rewrite Hk; apply NoDup_fst_map_to_list|done]).
  destruct (occurrence_order_attribute c); json_ok_object.
Qed.

Lemma contract_round_trip c p : _contract_payload c = Some p → _contract_from_json (_canonical_json p) = Some c.
Proof.
  intros Hp. pose proof (contract_payload_ok _ _ Hp) as Hok. revert Hp.
  unfold _contract_from_json, _canonical_json. rewrite (loads_dumps _ Hok). cbn [mbind option_bind].
  unfold _contract_payload. fold write_type. destruct (mapM write_type _) as [al|] eqn:Hal; [|done].
  cbn [mbind option_bind]. intros [= <-]. unfold contract_of_payload. fold read_type.
  destruct (types_written _ _ Hal) as (_ & _ & Hcan & Hread).
  destruct (mapM_Permutation read_type al (sort_keys al) _ ltac:(by rewrite sort_keys_Permutation) Hread)
    as (l' & Hl' & Hperm).
  assert (canon (JObj al) = JObj (sort_keys al)) as Hcanon.
  { rewrite canon_obj, <- sort_keys_map. by rewrite Hcan. }
  assert (list_to_map l' = allowed_attributes c) as Hmap.
  { rewrite <- (list_to_map_to_list (allowed_attributes c)). symmetry.
    apply list_to_map_proper; [apply NoDup_fst_map_to_list|done]. }
  destruct (occurrence_order_attribute c) as [key|] eqn:Hkey; cbn [app] in *;
    repeat first [ progress (read_fields Hok) | rewrite read_strings_canon; read_reduce
                 | rewrite Hcanon; read_reduce | rewrite Hl'; read_reduce ].
  - rewrite Hmap, !set_round_trip. destruct c; simpl in Hkey; by subst.
  - rewrite (field_missing "occurrence_order_attribute" _ Hok eq_refl). read_reduce.
    rewrite Hmap, !set_round_trip. destruct c; simpl in Hkey; by subst.
Qed.

Arguments _canonical_json : simpl never.
Arguments _fingerprint : simpl never.

