(* ===== verification/SignalRecords.v ===== *)
(** * Wake records and their publication (src/src/codex_wake/signal_records.py)

    The schema-v2 record of an armed signal ([build_signal_record]), its
    structural check ([decode_signal_record]) and the publisher that projects
    exact record bytes into the status directories of a wake root.  The wake
    root is a finite map from (directory, id) to the bytes of
    [<directory>/<id>.json]; the capability probe, the process table and the
    points where the file system may fail are data of the publisher. *)
From Stdlib Require Import Ascii.
From S2P Require Import Prelude Json Sha256 Datetime Signals SignalCodec.
Open Scope Z_scope.

Definition SIGNAL_RECORD_SCHEMA_VERSION : Z := 2.

(** [SIGNAL_IDENTIFIER_RE]: one letter or digit, then at most 127 of them or
    [_] or [-]. *)
Definition identifier_start (c : ascii) : bool :=
  let b := byte_of c in
  ((65 <=? b) && (b <=? 90)) || ((97 <=? b) && (b <=? 122)) || ((48 <=? b) && (b <=? 57)).
Definition identifier_char (c : ascii) : bool :=
  identifier_start c || (byte_of c =? 95) || (byte_of c =? 45).
Fixpoint string_forall (p : ascii → bool) (s : string) : bool :=
  match s with EmptyString => true | String c s => p c && string_forall p s end.
Definition safe_identifier (s : string) : bool :=
  match s with
  | EmptyString => false
  | String c rest => identifier_start c && string_forall identifier_char rest && (String.length rest <=? 127)%nat
  end.
Definition is_safe_signal_identifier (v : option json) : bool :=
  match v with Some (JStr s) => safe_identifier s | _ => false end.

(** ** The structural check *)
(** A nonempty string, and membership in a set of strings of a value that may
    be of any type: an unhashable one is a [TypeError]. *)
Definition nonempty_str (v : option json) : bool :=
  match v with Some (JStr s) => negb (bool_decide (s = EmptyString)) | _ => false end.
Definition is_obj (v : option json) : bool := match v with Some (JObj _) => true | _ => false end.
Definition is_arr (v : option json) : bool := match v with Some (JArr _) => true | _ => false end.
Definition is_int (v : option json) : bool := match v with Some (JInt _) => true | _ => false end.
Definition is_str (v : option json) : bool := match v with Some (JStr _) => true | _ => false end.
Definition str_in (v : option json) (l : list string) : bool :=
  match v with Some (JStr s) => bool_decide (s ∈ l) | _ => false end.
Definition member_of (v : option json) (l : list string) : result string bool :=
  match v with
  | Some (JArr _) | Some (JObj _) => Raised "TypeError"
  | _ => Done (str_in v l)
  end.
(** [v == 1]. *)
Definition equals_one (v : option json) : bool :=
  match v with Some (JInt 1) | Some (JBool true) => true | _ => false end.

Definition clause_ok (clause : json) : result string bool :=
  match clause with
  | JObj o =>
    known ← member_of (dict_get "op" o) ["eq"; "in"];
    if negb known then Done false
    else if negb (nonempty_str (dict_get "field" o)) then Done false
    else if bool_decide (dict_get "op" o = Some (JStr "eq")) && bool_decide (dict_get "value" o = None)
    then Done false
    else if bool_decide (dict_get "op" o = Some (JStr "in")) && negb (is_arr (dict_get "values" o))
    then Done false
    else Done true
  | _ => Done false
  end.
Fixpoint clauses_ok (l : list json) : result string bool :=
  match l with
  | [] => Done true
  | clause :: l => ok ← clause_ok clause; if (ok : bool) then clauses_ok l else Done false
  end.

Definition record_statuses : list string :=
  ["pending"; "firing"; "submitted"; "failed"; "cancelled"; "expired"; "archived"].
Definition required_strings : list string :=
  ["id"; "arm_id"; "journal_uuid"; "created_at"; "updated_at"; "cwd"; "prompt"; "status"; "next_attempt_at"].
Definition predicate_strings : list string :=
  ["arm_id"; "source"; "source_instance"; "semantics"; "kind"; "subject"; "condition"; "verification"].

(** The checks on the record's own members, before its predicate. *)
Definition envelope_ok (r : list (string * json)) : bool :=
  let get k := dict_get k r in
  forallb (λ k, nonempty_str (get k)) required_strings &&
  is_safe_signal_identifier (get "id") && is_safe_signal_identifier (get "arm_id") &&
  str_in (get "status") record_statuses &&
  (match get "record_revision" with Some (JInt n) => 1 <=? n | _ => false end) &&
  is_int (get "attempts") && is_int (get "max_attempts") && is_int (get "ack_timeout_seconds") &&
  is_arr (get "events") && is_obj (get "target").
Definition predicate_ok (r p : list (string * json)) : bool :=
  let get k := dict_get k p in
  bool_decide (get "type" = Some (JStr "signal")) &&
  forallb (λ k, nonempty_str (get k)) predicate_strings &&
  bool_decide (get "arm_id" = dict_get "arm_id" r) && equals_one (get "contract_version") &&
  is_safe_signal_identifier (get "arm_id") &&
  str_in (get "semantics") ["occurrence"; "state"] &&
  str_in (get "condition") ["occurs"; "holds"; "becomes"] &&
  str_in (get "verification") ["required"; "not_required"].
Definition anchor_ok (a : list (string * json)) : result string bool :=
  let get k := dict_get k a in
  if negb (match get "local_after_sequence" with Some (JInt n) => 0 <=? n | _ => false end) then Done false
  else if negb (is_str (get "source_anchor") && is_obj (get "baseline")) then Done false
  else member_of (get "recovery") ["local_journal"; "source_replay"; "state_recheck"].

Definition decode_signal_record (record : json) : result string (option json) :=
  match record with
  | JObj r =>
    if negb (bool_decide (dict_get "schema_version" r = Some (JInt SIGNAL_RECORD_SCHEMA_VERSION)))
    then Done None
    else if negb (envelope_ok r) then Done None
    else match dict_get "predicate" r with
    | Some (JObj p) =>
      if negb (predicate_ok r p) then Done None
      else match dict_get "where" p, dict_get "anchor" p with
      | Some (JArr w), Some (JObj a) =>
        ok ← anchor_ok a;
        if negb ok then Done None
        else
          ok ← clauses_ok w;
          if (ok : bool) then Done (Some record) else Done None
      | _, _ => Done None
      end
    | _ => Done None
    end
  | _ => Done None
  end.

Lemma decoded_identifier record : decode_signal_record record = Done (Some record) →
  ∃ w, str_field "id" record = Some w ∧ safe_identifier w = true.
Proof.
  destruct record as [| | | | |r]; try done. unfold decode_signal_record. destruct (negb _); [done|].
  destruct (envelope_ok r) eqn:He; [|done]. intros _. unfold envelope_ok in He. rewrite !andb_true_iff in He.
  destruct He as [[[[[[[[[_ He] _] _] _] _] _] _] _] _]. unfold str_field. cbn [field].
  destruct (dict_get "id" r) as [[| | |s| |]|]; try done. by exists s.
Qed.

(** ** Building a record *)
Section Build.
(** [Path.resolve] of the resumption's directory. *)
Variable resolve : string → string.

Definition predicate_payload (armed : ArmedSignal) : json := JObj [
  ("type", JStr "signal");
  ("contract_version", scalar_json (spec_contract_version (spec armed)));
  ("arm_id", JStr (arm_id armed));
  ("source", JStr (spec_source (spec armed)));
  ("source_instance", JStr (spec_source_instance (spec armed)));
  ("semantics", JStr (spec_semantics (spec armed)));
  ("kind", JStr (spec_kind (spec armed)));
  ("subject", JStr (spec_subject (spec armed)));
  ("condition", JStr (spec_condition (spec armed)));
  ("where", JArr (clause_payload <$> spec_where (spec armed)));
  ("verification", JStr (spec_verification (spec armed)));
  ("anchor", JObj [
    ("local_after_sequence", JInt (local_after_sequence (anchor armed)));
    ("source_anchor", JStr (source_anchor (anchor armed)));
    ("baseline", attributes_json (baseline (anchor armed)));
    ("recovery", JStr (recovery (anchor armed))) ]) ].
Definition record_payload (armed : ArmedSignal) (resume : Resume) (journal_uuid : string)
    (revision max_attempts : Z) : json :=
  let timestamp := _format_time (registered_at armed) in JObj [
  ("schema_version", JInt SIGNAL_RECORD_SCHEMA_VERSION);
  ("id", JStr (wake_id armed));
  ("arm_id", JStr (arm_id armed));
  ("journal_uuid", JStr journal_uuid);
  ("record_revision", JInt revision);
  ("created_at", JStr timestamp);
  ("updated_at", JStr timestamp);
  ("cwd", JStr (resolve (resume_cwd resume)));
  ("target", JObj (resume_target resume));
  ("predicate", predicate_payload armed);
  ("prompt", JStr (resume_prompt resume));
  ("status", JStr "pending");
  ("attempts", JInt 0);
  ("max_attempts", JInt max_attempts);
  ("ack_timeout_seconds", JInt 30);
  ("next_attempt_at", JStr timestamp);
  ("events", JArr [JObj [("at", JStr timestamp); ("type", JStr "created");
                         ("message", JStr "Signal wake record created")]]) ].

Definition newline : string := String (chr 10) EmptyString.
(** The bytes of a record file and their digest. *)
Definition record_bytes (encoded : string) : string := encoded +:+ newline.
Definition record_digest (encoded : string) : string := sha256 (record_bytes encoded).
Definition build_signal_record (armed : ArmedSignal) (resume : Resume) (journal_uuid : string)
    (revision max_attempts : Z) : string * string :=
  let encoded := _canonical_json (record_payload armed resume journal_uuid revision max_attempts) in
  (encoded, record_digest encoded).
End Build.

(** ** Publication *)
Inductive outcome := Applied | Missing | Conflict | Unavailable.
#[export] Instance outcome_eq_dec : EqDecision outcome.
Proof. solve_decision. Defined.

(** What the journal asks of a publisher.  [holds p j] says that the exact
    record of payload [j] is in the wake root. *)
Class RecordPublisher (P : Type) := {
  capability_code : P → option string * P;
  inspect : P → string → string → outcome * P;
  apply : P → string → string → outcome * P;
  remove_superseded_pending : P → json → result string bool * P;
  holds : P → string → Prop;
}.
(** Its contract: an inspection that answers [Applied] saw the exact bytes,
    whose digest is the one asked for, and inspecting changes no record. *)
Class RecordPublisherLaws (P : Type) `{RecordPublisher P} := {
  inspect_applied p j s p' : inspect p j s = (Applied, p') → holds p' j ∧ s = record_digest j;
  capability_keeps p p' c j : capability_code p = (c, p') → holds p j → holds p' j;
}.

Record ManagedReaderCapability := {
  capability_root : string;
  reader_id : string;
  generation : Z;
  schema_versions : list Z;
  active : bool;
  pid : option Z;
  process_start_time_ticks : option Z;
  process_boot_id : option string;
}.

(** The publisher: its wake root, the answers of the capability probe (the
    [n]-th call to it), the process table, the file system operations that
    fail, the files, and how many probes were made. *)
Record FilePublisher := {
  wake_root : string;
  capability_probe : nat → option ManagedReaderCapability;
  process_exists : Z → bool;
  process_identity : Z → option (option Z);
  boot_id_value : option string;
  io_fails : string → bool;
  files : gmap (string * string) string;
  probes : nat;
}.
Definition with_files (p : FilePublisher) (f : gmap (string * string) string) : FilePublisher :=
  {| wake_root := wake_root p; capability_probe := capability_probe p; process_exists := process_exists p;
     process_identity := process_identity p; boot_id_value := boot_id_value p; io_fails := io_fails p;
     files := f; probes := probes p |}.
Definition next_probe (p : FilePublisher) : FilePublisher :=
  {| wake_root := wake_root p; capability_probe := capability_probe p; process_exists := process_exists p;
     process_identity := process_identity p; boot_id_value := boot_id_value p; io_fails := io_fails p;
     files := files p; probes := S (probes p) |}.

(** [capability_code] on the capability a probe answered. *)
Definition capability_valid (p : FilePublisher) (c : ManagedReaderCapability) : bool :=
  bool_decide (capability_root c = wake_root p) && active c && negb (bool_decide (reader_id c = EmptyString)) &&
  (1 <=? generation c) && bool_decide (SIGNAL_RECORD_SCHEMA_VERSION ∈ schema_versions c) &&
  match pid c with
  | None => true
  | Some pid =>
    process_exists p pid &&
    match process_identity p pid with
    | None => false
    | Some ticks =>
      match process_start_time_ticks c with None => true | Some t => bool_decide (ticks = Some t) end &&
      match process_boot_id c with None => true | Some b => bool_decide (boot_id_value p = Some b) end
    end
  end.
Definition file_capability_code (p : FilePublisher) : option string * FilePublisher :=
  (match capability_probe p (probes p) with
   | Some c => if capability_valid p c then None else Some "READER_CAPABILITY_UNAVAILABLE"
   | None => Some "READER_CAPABILITY_UNAVAILABLE"
   end, next_probe p).

Definition file_inspect (p : FilePublisher) (payload_json payload_sha256 : string) : outcome * FilePublisher :=
  let '(code, p) := file_capability_code p in
  match code with
  | Some _ => (Unavailable, p)
  | None =>
    match loads payload_json with
    | None => (Conflict, p)
    | Some payload =>
      match decode_signal_record payload with
      | Raised _ => (Conflict, p)
      | Done None => (Conflict, p)
      | Done (Some _) =>
        match str_field "id" payload, str_field "status" payload with
        | Some wake_id, Some status =>
          if io_fails p "read" then (Conflict, p)
          else match files p !! (status, wake_id) with
          | None => (Missing, p)
          | Some bytes =>
            if negb (bool_decide (record_digest payload_json = payload_sha256)) then (Conflict, p)
            else if bool_decide (bytes = record_bytes payload_json) then (Applied, p) else (Conflict, p)
          end
        | _, _ => (Conflict, p)
        end
      end
    end
  end.

(** [_remove_superseded_source]: drop the pending record of the same wake and
    journal, unless its revision is newer. *)
Definition int_of_field (k : string) (v : json) : Z := default 0 (int_field k v).
Definition _remove_superseded_source (p : FilePublisher) (payload : json) (final : string * string) : FilePublisher :=
  if negb (str_in (field "status" payload)
             ["firing"; "submitted"; "failed"; "cancelled"; "expired"; "archived"]) then p
  else match str_field "id" payload with
  | None => p
  | Some wake_id =>
    if bool_decide (("pending", wake_id) = final) then p
    else match files p !! ("pending", wake_id) with
    | None => p
    | Some text =>
      match loads text with
      | None => p
      | Some source =>
        match decode_signal_record source with
        | Done (Some decoded) =>
          if negb (bool_decide (field "id" decoded = Some (JStr wake_id))) ||
             negb (bool_decide (field "journal_uuid" decoded = field "journal_uuid" payload)) ||
             (int_of_field "record_revision" payload <? int_of_field "record_revision" decoded)
          then p
          else if io_fails p "before_pending_unlink" then p
          else with_files p (delete ("pending", wake_id) (files p))
        | _ => p
        end
      end
    end
  end.

(** [apply]; a failing file system operation answers [Unavailable], before or
    after the atomic replacement of the final file. *)
Definition file_apply (p : FilePublisher) (payload_json payload_sha256 : string) : outcome * FilePublisher :=
  let '(code, p) := file_capability_code p in
  match code with
  | Some _ => (Unavailable, p)
  | None =>
    match loads payload_json with
    | None => (Unavailable, p)
    | Some payload =>
      match field "id" payload, field "status" payload with
      | Some idv, Some statusv =>
        match idv, member_of (Some statusv) ["pending"; "firing"; "cancelled"; "expired"] with
        | JStr wake_id, Raised _ => if bool_decide (wake_id = EmptyString) then (Conflict, p) else (Unavailable, p)
        | JStr wake_id, Done ok =>
          if bool_decide (wake_id = EmptyString) || negb ok then (Conflict, p)
          else match decode_signal_record payload with
          | Raised _ => (Unavailable, p)
          | Done None => (Conflict, p)
          | Done (Some _) =>
            if negb (bool_decide (record_digest payload_json = payload_sha256)) then (Conflict, p)
            else
              let status := default EmptyString (as_str statusv) in
              if io_fails p "read" then (Unavailable, p)
              else match files p !! (status, wake_id) with
              | Some bytes =>
                if negb (bool_decide (bytes = record_bytes payload_json)) then (Conflict, p)
                else (Applied, _remove_superseded_source p payload (status, wake_id))
              | None =>
                if io_fails p "write" then (Unavailable, p)
                else
                  let '(code, p) := file_capability_code p in
                  match code with
                  | Some _ => (Unavailable, p)
                  | None =>
                    let p := with_files p (<[(status, wake_id) := record_bytes payload_json]> (files p)) in
                    if io_fails p "after_replace" then (Unavailable, p)
                    else (Applied, _remove_superseded_source p payload (status, wake_id))
                  end
              end
          end
        | _, _ => (Conflict, p)
        end
      | _, _ => (Unavailable, p)
      end
    end
  end.

Definition file_remove_superseded_pending (p : FilePublisher) (terminal : json) : result string bool * FilePublisher :=
  match decode_signal_record terminal with
  | Raised e => (Raised e, p)
  | Done None => (Done false, p)
  | Done (Some payload) =>
    if negb (str_in (field "status" payload) ["submitted"; "failed"; "cancelled"; "expired"; "archived"])
    then (Done false, p)
    else match str_field "id" payload, str_field "status" payload with
    | Some wake_id, Some status =>
      let dir := if decide (status = "archived") then "archive" else status in
      match files p !! (dir, wake_id) with
      | None => (Done false, p)
      | Some _ =>
        let p := _remove_superseded_source p payload (dir, wake_id) in
        (Done (bool_decide (files p !! ("pending", wake_id) = None)), p)
      end
    | _, _ => (Done false, p)
    end
  end.

Definition file_holds (p : FilePublisher) (payload_json : string) : Prop :=
  ∃ payload wake_id status, loads payload_json = Some payload ∧ str_field "id" payload = Some wake_id ∧
    str_field "status" payload = Some status ∧ files p !! (status, wake_id) = Some (record_bytes payload_json).

#[export] Instance file_publisher : RecordPublisher FilePublisher := {
  capability_code := file_capability_code;
  inspect := file_inspect;
  apply := file_apply;
  remove_superseded_pending := file_remove_superseded_pending;
  holds := file_holds;
}.

(** ** A record that is built is a record that decodes *)
Lemma canon_obj_read v o : v = JObj o → json_ok v →
  ∃ r, canon v = JObj r ∧ ∀ k x, sfield k v = Some x → dict_get k r = Some (canon x).
Proof.
  intros -> Hok. destruct (canon (JObj o)) as [| | | | |r] eqn:Hc; try (rewrite canon_obj in Hc; done).
  exists r. split; [done|]. intros k x Hk. pose proof (field_read k (JObj o) x Hok Hk) as Hf. by rewrite Hc in Hf.
Qed.

Record buildable (resolve : string → string) (armed : ArmedSignal) (resume : Resume) (journal_uuid : string) : Prop := {
  b_id : safe_identifier (wake_id armed) = true;
  b_arm_id : safe_identifier (arm_id armed) = true;
  b_uuid : journal_uuid ≠ EmptyString;
  b_cwd : resolve (resume_cwd resume) ≠ EmptyString;
  b_prompt : resume_prompt resume ≠ EmptyString;
  b_target : json_ok (JObj (resume_target resume));
  b_version : spec_contract_version (spec armed) = SInt 1;
  b_texts : Forall (λ s, s ≠ EmptyString)
    [spec_source (spec armed); spec_source_instance (spec armed); spec_kind (spec armed); spec_subject (spec armed)];
  b_semantics : spec_semantics (spec armed) ∈ ["occurrence"; "state"];
  b_condition : spec_condition (spec armed) ∈ ["occurs"; "holds"; "becomes"];
  b_verification : spec_verification (spec armed) ∈ ["required"; "not_required"];
  b_where : Forall (λ c, clause_field c ≠ EmptyString) (spec_where (spec armed));
  b_after : 0 ≤ local_after_sequence (anchor armed);
  b_recovery : recovery (anchor armed) ∈ ["local_journal"; "source_replay"; "state_recheck"];
}.

Lemma safe_identifier_nonempty s : safe_identifier s = true → s ≠ EmptyString.
Proof. by destruct s. Qed.
Lemma str_in_elem s l : s ∈ l → str_in (Some (JStr s)) l = true.
Proof. intros. simpl. by rewrite bool_decide_true. Qed.
Lemma nonempty_str_ok s : s ≠ EmptyString → nonempty_str (Some (JStr s)) = true.
Proof. intros. simpl. by rewrite bool_decide_false. Qed.

Lemma clause_ok_payload c : clause_field c ≠ EmptyString → clause_ok (canon (clause_payload c)) = Done true.
Proof.
  intros Hf. pose proof (json_ok_clause c) as Hok.
  destruct c as [f v|f vs]; cbn [clause_payload clause_field] in *;
    destruct (canon_obj_read _ _ eq_refl Hok) as (r & -> & Hr); cbn [clause_ok];
    rewrite (Hr "op" _ eq_refl), (Hr "field" _ eq_refl), canon_str, nonempty_str_ok by done.
  - by rewrite (Hr "value" _ eq_refl).
  - by rewrite (Hr "values" _ eq_refl).
Qed.
Lemma clauses_ok_payload l : Forall (λ c, clause_field c ≠ EmptyString) l →
  clauses_ok (canon <$> (clause_payload <$> l)) = Done true.
Proof. induction 1 as [|c l Hc _ IH]; [done|]. csimpl. by rewrite (clause_ok_payload c Hc). Qed.

Lemma anchor_payload_ok a : json_ok (JObj [
    ("local_after_sequence", JInt (local_after_sequence a)); ("source_anchor", JStr (source_anchor a));
    ("baseline", attributes_json (baseline a)); ("recovery", JStr (recovery a)) ]).
Proof. json_ok_object. Qed.
#[export] Hint Resolve anchor_payload_ok : json_ok.
Lemma predicate_payload_ok armed : json_ok (predicate_payload armed).
Proof. unfold predicate_payload. json_ok_object. Qed.
#[export] Hint Resolve predicate_payload_ok : json_ok.
Lemma record_payload_ok resolve armed resume uuid revision attempts :
  json_ok (JObj (resume_target resume)) → json_ok (record_payload resolve armed resume uuid revision attempts).
Proof.
  intros Ht. unfold record_payload. json_ok_object.
  apply json_ok_arr. repeat constructor; try done; cbn; refine (bool_decide_unpack _ _); vm_compute; exact I.
Qed.

Section BuiltRecord.
Context (resolve : string → string) (armed : ArmedSignal) (resume : Resume) (uuid : string).
Context (revision attempts : Z).
Context (Hb : buildable resolve armed resume uuid) (Hrev : 1 ≤ revision).
Let payload : json := record_payload resolve armed resume uuid revision attempts.

Lemma format_time_nonempty t : _format_time t ≠ EmptyString.
Proof. Transparent _format_time. unfold _format_time, format_time, isoformat_utc, format_date. cbn [pad]. rewrite !app_cons. done. Qed.

Lemma built_envelope r :
  (∀ k x, sfield k payload = Some x → dict_get k r = Some (canon x)) → envelope_ok r = true.
Proof.
  intros Hr. destruct Hb as [Hid Harm Huuid Hcwd Hprompt _ _ _ _ _ _ _ _ _].
  pose proof (safe_identifier_nonempty _ Hid). pose proof (safe_identifier_nonempty _ Harm).
  pose proof (format_time_nonempty (registered_at armed)).
  unfold envelope_ok. cbn [forallb required_strings].
  repeat match goal with
    | |- context [dict_get ?k r] => rewrite (Hr k _ eq_refl)
    end.
  rewrite !canon_str, !nonempty_str_ok by done. cbn [is_safe_signal_identifier]. rewrite Hid, Harm. simpl.
  by destruct (Z.leb_spec 1 revision); [|lia].
Qed.

Lemma built_predicate r p :
  dict_get "arm_id" r = Some (JStr (arm_id armed)) →
  (∀ k x, sfield k (predicate_payload armed) = Some x → dict_get k p = Some (canon x)) →
  predicate_ok r p = true.
Proof.
  intros Hr Hp. destruct Hb as [_ Harm _ _ _ _ Hver Htx Hsem Hcond Hvf _ _ _].
  pose proof (safe_identifier_nonempty _ Harm).
  repeat match goal with H : Forall _ (_ :: _) |- _ => apply Forall_cons in H as [? ?] end.
  assert (∀ s (l : list string), s ∈ l → EmptyString ∉ l → s ≠ EmptyString) as Hne by (intros s l ? ? ->; done).
  assert (spec_semantics (spec armed) ≠ EmptyString) by (apply (Hne _ _ Hsem); set_solver).
  assert (spec_condition (spec armed) ≠ EmptyString) by (apply (Hne _ _ Hcond); set_solver).
  assert (spec_verification (spec armed) ≠ EmptyString) by (apply (Hne _ _ Hvf); set_solver).
  unfold predicate_ok. cbn [forallb predicate_strings]. rewrite Hr.
  repeat match goal with
    | |- context [dict_get ?k p] => rewrite (Hp k _ eq_refl)
    end.
  rewrite !canon_str, canon_scalar, !nonempty_str_ok by done. cbn [is_safe_signal_identifier]. rewrite Hver, Harm.
  rewrite !str_in_elem by done. by rewrite !bool_decide_true.
Qed.

Lemma built_record_decodes :
  loads (build_signal_record resolve armed resume uuid revision attempts).1 = Some (canon payload) ∧
  decode_signal_record (canon payload) = Done (Some (canon payload)).
Proof.
  pose proof (record_payload_ok resolve armed resume uuid revision attempts (b_target _ _ _ _ Hb)) as Hok.
  split; [by apply loads_dumps|].
  destruct (canon_obj_read payload _ eq_refl Hok) as (r & Hc & Hr).
  rewrite Hc. unfold decode_signal_record. rewrite (Hr "schema_version" _ eq_refl).
  rewrite canon_int, bool_decide_true by done. cbn [negb].
  rewrite (built_envelope r Hr). cbn [negb]. rewrite (Hr "predicate" _ eq_refl).
  destruct (canon_obj_read (predicate_payload armed) _ eq_refl (predicate_payload_ok armed)) as (p & Hcp & Hp).
  rewrite Hcp. rewrite (built_predicate r p (Hr "arm_id" _ eq_refl) Hp). cbn [negb].
  rewrite (Hp "where" _ eq_refl), (Hp "anchor" _ eq_refl), canon_arr.
  destruct (canon_obj_read _ _ eq_refl (anchor_payload_ok (anchor armed))) as (a & -> & Ha).
  assert (anchor_ok a = Done true) as ->.
  { unfold anchor_ok. rewrite (Ha "local_after_sequence" _ eq_refl), (Ha "source_anchor" _ eq_refl).
    rewrite (Ha "baseline" _ eq_refl), (Ha "recovery" _ eq_refl), canon_attributes, canon_int, !canon_str.
    destruct Hb as [_ _ _ _ _ _ _ _ _ _ _ _ Hafter Hrec].
    destruct (Z.leb_spec 0 (local_after_sequence (anchor armed))); [|lia]. cbn.
    by rewrite (bool_decide_true _ Hrec). }
  cbn. by rewrite (clauses_ok_payload _ (b_where _ _ _ _ Hb)).
Qed.
End BuiltRecord.

(** (roundtrip). A record built for an armed signal is exactly what the
    structural check accepts when the file is read back. *)
Theorem build_decodes resolve armed resume uuid revision attempts :
  buildable resolve armed resume uuid → 1 ≤ revision →
  ∃ payload, loads (build_signal_record resolve armed resume uuid revision attempts).1 = Some payload ∧
    decode_signal_record payload = Done (Some payload) ∧
    str_field "id" payload = Some (wake_id armed) ∧ str_field "arm_id" payload = Some (arm_id armed) ∧
    str_field "journal_uuid" payload = Some uuid ∧ str_field "status" payload = Some "pending" ∧
    int_field "record_revision" payload = Some revision.
Proof.
  intros Hb Hrev. destruct (built_record_decodes resolve armed resume uuid revision attempts Hb Hrev) as [Hl Hd].
  pose proof (record_payload_ok resolve armed resume uuid revision attempts (b_target _ _ _ _ Hb)) as Hok.
  eexists. split_and!; [exact Hl|exact Hd|..]; read_fields Hok; done.
Qed.

(** ** What publication does to the wake root *)
(** The pending record [b] gives way to a record of the same wake and journal
    that is not pending and at least as new. *)
Definition superseded (payload : json) (k : string * string) (b : string) : Prop :=
  ∃ wake_id decoded, k = ("pending", wake_id) ∧ str_field "id" payload = Some wake_id ∧
    str_in (field "status" payload) ["firing"; "submitted"; "failed"; "cancelled"; "expired"; "archived"] = true ∧
    loads b ≫= (λ source, match decode_signal_record source with Done d => d | _ => None end) = Some decoded ∧
    field "id" decoded = Some (JStr wake_id) ∧ field "journal_uuid" decoded = field "journal_uuid" payload ∧
    int_of_field "record_revision" decoded ≤ int_of_field "record_revision" payload.

Lemma remove_superseded_spec p payload final :
  _remove_superseded_source p payload final = p ∨
  ∃ k b, k ≠ final ∧ files p !! k = Some b ∧ superseded payload k b ∧
    _remove_superseded_source p payload final = with_files p (delete k (files p)).
Proof.
  unfold _remove_superseded_source.
  destruct (str_in _ _) eqn:Hst; [|by left]. cbn [negb].
  destruct (str_field "id" payload) as [w|] eqn:Hid; [|by left].
  case_bool_decide as Hfin; [by left|].
  destruct (files p !! ("pending", w)) as [text|] eqn:Hf; [|by left].
  destruct (loads text) as [source|] eqn:Hl; [|by left].
  destruct (decode_signal_record source) as [[decoded|]|] eqn:Hd; try by left.
  destruct (_ || _) eqn:Hc; [by left|]. destruct (io_fails p _); [by left|].
  right. apply orb_false_iff in Hc as [[Hc1 Hc2]%orb_false_iff Hc3].
  apply negb_false_iff, bool_decide_eq_true in Hc1, Hc2. apply Z.ltb_ge in Hc3.
  exists ("pending", w), text. split_and!; try done.
  exists w, decoded. rewrite Hl. cbn. rewrite Hd. done.
Qed.
Lemma remove_superseded_files p payload final k :
  files (_remove_superseded_source p payload final) !! k = files p !! k ∨
  ∃ b, k ≠ final ∧ files p !! k = Some b ∧ superseded payload k b ∧
    files (_remove_superseded_source p payload final) !! k = None.
Proof.
  destruct (remove_superseded_spec p payload final) as [->|(k0 & b & Hne & Hb & Hs & ->)]; [by left|].
  simpl. destruct (decide (k = k0)) as [->|].
  - right. exists b. by rewrite lookup_delete_eq.
  - left. by rewrite lookup_delete_ne.
Qed.

(** The one file a payload is published to. *)
Definition final_key (payload : json) : option (string * string) :=
  w ← str_field "id" payload; s ← str_field "status" payload; Some (s, w).

(** What an application does, in one place: nothing; nothing but find the
    record there; or write it. *)
Lemma file_apply_cases p j s o p' : file_apply p j s = (o, p') →
  (files p' = files p ∧ o ≠ Applied) ∨
  ∃ payload k, loads j = Some payload ∧ final_key payload = Some k ∧ s = record_digest j ∧
    ((files p !! k = Some (record_bytes j) ∧ o = Applied ∧
      ∃ p1, files p1 = files p ∧ p' = _remove_superseded_source p1 payload k) ∨
     (files p !! k = None ∧ ∃ p1, files p1 = <[k := record_bytes j]> (files p) ∧
        ((o = Unavailable ∧ p' = p1) ∨ (o = Applied ∧ p' = _remove_superseded_source p1 payload k)))).
Proof.
  unfold file_apply. destruct (file_capability_code p) as [code p0] eqn:Hcap.
  assert (files p0 = files p ∧ io_fails p0 = io_fails p) as [Hp0 Hio].
  { unfold file_capability_code in Hcap. by injection Hcap as _ <-. }
  destruct code as [|]; [intros [= <- <-]; by left|].
  destruct (loads j) as [payload|] eqn:Hl; [|intros [= <- <-]; by left].
  destruct (field "id" payload) as [idv|] eqn:Hid; [|intros [= <- <-]; by left].
  destruct (field "status" payload) as [sv|] eqn:Hsv; [|intros [= <- <-]; by left].
  destruct idv as [| | |w| |]; try (intros [= <- <-]; by left).
  destruct (member_of (Some sv) _) as [ok|] eqn:Hm; [|case_bool_decide; intros [= <- <-]; by left].
  destruct (_ || _) eqn:Hor; [intros [= <- <-]; by left|].
  destruct (decode_signal_record payload) as [[d|]|]; try (intros [= <- <-]; by left).
  destruct (bool_decide (record_digest j = s)) eqn:Hsha; [|intros [= <- <-]; by left].
  apply bool_decide_eq_true in Hsha. cbn [negb].
  assert (∃ st, sv = JStr st) as [st ->].
  { apply orb_false_iff in Hor as [_ Hor]. apply negb_false_iff in Hor. subst ok.
    destruct sv; try done. by eexists. }
  cbn [as_str default]. change (id st) with st. destruct (io_fails p0 "read"); [intros [= <- <-]; by left|].
  assert (final_key payload = Some (st, w)) as Hfk.
  { unfold final_key, str_field. by rewrite Hid, Hsv. }
  rewrite Hp0.
  destruct (files p !! (st, w)) as [bytes|] eqn:Hfile.
  - destruct (bool_decide (bytes = record_bytes j)) eqn:Hb; cbn [negb]; [|intros [= <- <-]; by left].
    apply bool_decide_eq_true in Hb. intros [= <- <-]. right.
    exists payload, (st, w). split_and!; try done. left. subst bytes. split_and!; try done. by exists p0.
  - destruct (io_fails p0 "write"); [intros [= <- <-]; by left|].
    destruct (file_capability_code p0) as [code2 p1] eqn:Hcap2.
    assert (files p1 = files p) as Hp1.
    { unfold file_capability_code in Hcap2. injection Hcap2 as _ <-. done. }
    destruct code2; [intros [= <- <-]; left; by rewrite Hp1|].
    intros Hres. right. exists payload, (st, w). split_and!; try done. right. split; [done|].
    exists (with_files p1 (<[(st, w) := record_bytes j]> (files p1))). split; [simpl; by rewrite Hp1|].
    destruct (io_fails _ "after_replace"); injection Hres as <- <-; [by left|by right].
Qed.

Lemma final_key_holds p j payload k : loads j = Some payload → final_key payload = Some k →
  files p !! k = Some (record_bytes j) → file_holds p j.
Proof.
  unfold final_key. intros Hl Hk Hf.
  destruct (str_field "id" payload) as [w|] eqn:Hid; [|done].
  destruct (str_field "status" payload) as [st|] eqn:Hst; [|done]. injection Hk as <-.
  by exists payload, w, st.
Qed.

(** C33 (safety). Publication never overwrites: after [apply], with whatever
    file system failures and capability answers, every file is as before, or
    is the payload's own final file with exactly its bytes, or is the pending
    record the payload supersedes, removed.  An [Applied] outcome means the
    exact bytes are there under the digest asked for. *)
Theorem apply_safe p j s o p' : file_apply p j s = (o, p') →
  (∀ k b, files p !! k = Some b → files p' !! k = Some b ∨
     (files p' !! k = None ∧ ∃ payload, loads j = Some payload ∧ superseded payload k b)) ∧
  (∀ k b, files p' !! k = Some b → files p !! k = Some b ∨
     (b = record_bytes j ∧ loads j ≫= final_key = Some k ∧ files p !! k = None)) ∧
  (o = Applied → file_holds p' j ∧ s = record_digest j).
Proof.
  intros Ha. destruct (file_apply_cases _ _ _ _ _ Ha) as [[Hf Ho]|(payload & k0 & Hl & Hk & Hs & Hcase)].
  { rewrite Hf. split_and!; [by left|by left|done]. }
  destruct Hcase as [(Hin & -> & p1 & Hp1 & ->)|(Hout & p1 & Hp1 & Hres)].
  - split_and!.
    + intros k b Hb. destruct (remove_superseded_files p1 payload k0 k) as [->|(b' & _ & Hb' & Hsup & ->)];
        rewrite ?Hp1; [by left|]. right. rewrite Hp1, Hb in Hb'. injection Hb' as <-. eauto.
    + intros k b. destruct (remove_superseded_files p1 payload k0 k) as [->|(b' & _ & _ & _ & ->)]; [|done].
      rewrite Hp1. by left.
    + intros _. split; [|done]. eapply final_key_holds; [done..|].
      destruct (remove_superseded_files p1 payload k0 k0) as [->|(b' & ? & _)]; [|done]. by rewrite Hp1.
  - assert (∀ q, q = p1 ∨ q = _remove_superseded_source p1 payload k0 → ∀ k,
      files q !! k = files p1 !! k ∨ ∃ b, k ≠ k0 ∧ files p1 !! k = Some b ∧ superseded payload k b ∧ files q !! k = None)
      as Hq.
    { intros q [->| ->] k; [by left|apply remove_superseded_files]. }
    assert (p' = p1 ∨ p' = _remove_superseded_source p1 payload k0) as Hp' by naive_solver.
    split_and!.
    + intros k b Hb. assert (k ≠ k0) by congruence.
      destruct (Hq p' Hp' k) as [->|(b' & _ & Hb' & Hsup & ->)]; rewrite Hp1, lookup_insert_ne in *; [by left|done| |done].
      right. split; [done|]. assert (b' = b) as -> by congruence. eauto.
    + intros k b. destruct (Hq p' Hp' k) as [->|(b' & _ & _ & _ & ->)]; [|done]. rewrite Hp1.
      destruct (decide (k = k0)) as [->|]; [rewrite lookup_insert_eq|rewrite lookup_insert_ne by done; by left].
      intros [= <-]. right. by rewrite Hl.
    + intros _. split; [|done]. eapply final_key_holds; [done..|].
      destruct (Hq p' Hp' k0) as [->|(b' & ? & _)]; [|done]. rewrite Hp1. apply lookup_insert_eq.
Qed.

#[export] Instance file_publisher_laws : RecordPublisherLaws FilePublisher.
Proof.
  split.
  - intros p j s p' Hi. change (file_inspect p j s = (Applied, p')) in Hi. change (file_holds p' j ∧ s = record_digest j).
    unfold file_inspect in Hi. destruct (file_capability_code p) as [[c|] p0]; [done|].
    destruct (loads j) as [payload|] eqn:Hl; [|done].
    destruct (decode_signal_record payload) as [[d|]|]; try done.
    destruct (str_field "id" payload) as [w|] eqn:Hid; [|done].
    destruct (str_field "status" payload) as [st|] eqn:Hst; [|done].
    destruct (io_fails p0 "read"); [done|].
    destruct (files p0 !! (st, w)) as [bytes|] eqn:Hf; [|done].
    destruct (bool_decide (record_digest j = s)) eqn:Hd; [|done].
    destruct (bool_decide (bytes = record_bytes j)) eqn:Hb; [|done].
    apply bool_decide_eq_true in Hd, Hb. injection Hi as <-. split; [|done].
    exists payload, w, st. by rewrite Hf, Hb.
  - intros p p' c j. cbn. unfold file_capability_code. intros [= _ <-]. done.
Qed.

(** A publisher whose reader is alive at every probe and whose file system
    works. *)
Record healthy (p : FilePublisher) : Prop := {
  healthy_probe : ∀ n, ∃ c, capability_probe p n = Some c ∧ capability_valid p c = true;
  healthy_io : ∀ op, io_fails p op = false;
}.
Lemma healthy_capability p : healthy p → file_capability_code p = (None, next_probe p).
Proof. intros [Hp _]. unfold file_capability_code. by destruct (Hp (probes p)) as (c & -> & ->). Qed.
Lemma healthy_next p : healthy p → healthy (next_probe p).
Proof. intros [Hp Hi]. split; [|exact Hi]. intros n. destruct (Hp n) as (c & ? & ?). exists c. done. Qed.

Lemma healthy_apply q0 q j s : healthy q0 → healthy q → (file_apply q0 j s).1 = Applied →
  (∀ payload k, loads j = Some payload → final_key payload = Some k →
     files q !! k = None ∨ files q !! k = Some (record_bytes j)) →
  (file_apply q j s).1 = Applied.
Proof.
  intros H0 H Ha Hfree. revert Ha. unfold file_apply.
  rewrite (healthy_capability q0 H0), (healthy_capability q H).
  destruct (loads j) as [payload|]; [|done].
  destruct (field "id" payload) as [[| | |w| |]|] eqn:Hid; try done; destruct (field "status" payload) as [sv|] eqn:Hsv; try done.
  destruct (member_of (Some sv) _) as [ok|] eqn:Hm; [|by destruct (bool_decide (w = EmptyString))].
  destruct (_ || _) eqn:Hor; [done|].
  destruct (decode_signal_record payload) as [[d|]|]; try done.
  destruct (bool_decide (record_digest j = s)); [|done]. cbn [negb].
  apply orb_false_iff in Hor as [_ Hor%negb_false_iff]. subst ok.
  assert (∃ st, sv = JStr st) as [st ->] by (destruct sv; try done; by eexists).
  specialize (Hfree payload (st, w) eq_refl). unfold final_key, str_field in Hfree. rewrite Hid, Hsv in Hfree.
  specialize (Hfree eq_refl). cbn [as_str default]. change (id st) with st.
  rewrite !(healthy_io _ (healthy_next _ H)), (healthy_capability _ (healthy_next _ H)).
  intros _. change (files (next_probe q)) with (files q). destruct Hfree as [-> | ->].
  - cbn. by rewrite (healthy_io _ H).
  - by rewrite bool_decide_true.
Qed.

(** (safety). Publication survives a crash: if [apply] was interrupted by any
    capability loss or file system failure, before or after the atomic
    replacement, then applying the same payload later with a working publisher
    on the files it left succeeds whenever it would have succeeded at first,
    and the exact bytes are there. *)
Theorem apply_retry p j s o p' q0 q :
  file_apply p j s = (o, p') → healthy q0 → files q0 = files p → (file_apply q0 j s).1 = Applied →
  healthy q → files q = files p' →
  (file_apply q j s).1 = Applied ∧ file_holds (file_apply q j s).2 j.
Proof.
  intros Hp Hq0 Hf0 Ha0 Hq Hf.
  assert ((file_apply q j s).1 = Applied) as Ha.
  { apply (healthy_apply q0); try done. intros payload k Hl Hk. rewrite Hf.
    assert (files p !! k = None ∨ files p !! k = Some (record_bytes j)) as Hpk.
    { destruct (file_apply q0 j s) as [o0 q0'] eqn:Heq. simpl in Ha0. subst o0.
      destruct (file_apply_cases _ _ _ _ _ Heq) as [[_ ?]|(pl & k' & Hl' & Hk' & _ & Hc)]; [done|].
      rewrite Hl in Hl'. injection Hl' as <-. rewrite Hk in Hk'. injection Hk' as <-. rewrite Hf0 in Hc.
      destruct Hc as [(? & _)|(? & _)]; [by right|by left]. }
    destruct (file_apply_cases _ _ _ _ _ Hp) as [[-> _]|(pl & k' & Hl' & Hk' & _ & Hc)]; [done|].
    rewrite Hl in Hl'. injection Hl' as <-. rewrite Hk in Hk'. injection Hk' as <-. right.
    destruct Hc as [(Hin & _ & p1 & Hp1 & ->)|(_ & p1 & Hp1 & [[_ ->]|[_ ->]])].
    - destruct (remove_superseded_files p1 payload k k) as [->|(? & ? & _)]; [|done]. by rewrite Hp1.
    - rewrite Hp1. apply lookup_insert_eq.
    - destruct (remove_superseded_files p1 payload k k) as [->|(? & ? & _)]; [|done]. rewrite Hp1. apply lookup_insert_eq. }
  split; [done|]. destruct (file_apply q j s) as [o1 q1] eqn:Heq. simpl in *. subst o1.
  destruct (file_apply_cases _ _ _ _ _ Heq) as [[_ ?]|(pl & k' & Hl' & Hk' & _ & Hc)]; [done|].
  eapply final_key_holds; [done..|]. destruct Hc as [(Hin & _ & p1 & Hp1 & ->)|(_ & p1 & Hp1 & [[? ->]|[_ ->]])]; [|done|].
  - destruct (remove_superseded_files p1 pl k' k') as [->|(? & ? & _)]; [|done]. by rewrite Hp1.
  - destruct (remove_superseded_files p1 pl k' k') as [->|(? & ? & _)]; [|done]. rewrite Hp1. apply lookup_insert_eq.
Qed.
