(* ===== verification/SignalStore.v ===== *)
(** * The durable journal (src/src/codex_wake/signal_store.py)

    [SQLiteSignalModule]: the tables of [_SCHEMA] as a record of rows, whose
    JSON and time columns hold text as in the database, and every operation as
    one or more transactions over it.  A transaction body is a function from
    the tables to a commit, a rollback or an exception; [transact] runs it
    under an environment that says where SQLite or a checkpoint hook fails, so
    that an operation is atomic by construction of its transactions only, not
    as a whole.  Multi-transaction operations thread the publisher's state
    between their transactions. *)
From S2P Require Import Prelude Json Sha256 Datetime Signals SignalCodec SignalRecords.
Open Scope Z_scope.

(** ** Tables *)
Record instance_row := {
  si_contract_json : string;
  si_contract_fingerprint : string;
  si_created_at : string;
}.
Record state_row := {
  ss_checkpoint : option string;
  ss_checkpoint_order : option Z;
  ss_observed_through : option string;
  ss_last_local_sequence : Z;
  ss_lease_owner : option string;
  ss_lease_generation : Z;
  ss_lease_expires_at : option string;
}.
Record arm_row := {
  row_arm_id : string;
  row_wake_id : string;
  row_idempotency_key : string;
  row_intent_fingerprint : string;
  row_state : string;
  row_source : string;
  row_source_instance : string;
  row_kind : string;
  row_subject : string;
  row_spec_json : string;
  row_resume_json : string;
  row_registered_at : string;
  row_expires_at : option string;
  row_local_after_sequence : option Z;
  row_source_anchor : option string;
  row_baseline_json : option string;
  row_recovery : option string;
  row_preparer_token : option string;
  row_preparation_expires_at : option string;
  row_prepared_at : option string;
  row_published_at : option string;
}.
Record receipt_row := {
  rc_local_sequence : Z;
  rc_receipt_id : string;
  rc_source : string;
  rc_source_instance : string;
  rc_occurrence_namespace : string;
  rc_occurrence_value : string;
  rc_content_fingerprint : string;
  rc_kind : string;
  rc_subject : string;
  rc_occurred_at : string;
  rc_observed_at : string;
  rc_attributes_json : string;
  rc_verification_state : string;
  rc_verification_method : string;
  rc_evidence_ref : option string;
  rc_observation_json : string;
}.
Record progress_row := {
  pr_scanned_through_sequence : Z;
  pr_revision : Z;
  pr_updated_at : string;
}.
Record reservation_row := {
  mr_receipt_id : option string;
  mr_match_token : string;
  mr_matched_at : string;
  mr_evidence_json : string;
}.
Record pin_row := {
  pin_wake_id : string;
  pin_receipt_id : option string;
  pin_min_local_sequence : option Z;
  pin_reason : string;
  pin_created_at : string;
  pin_released_at : option string;
}.
Record lifecycle_row := {
  lc_desired_status : string;
  lc_desired_revision : Z;
  lc_applied_status : option string;
  lc_applied_revision : option Z;
  lc_updated_at : string;
}.
Record outbox_row := {
  ob_operation : string;
  ob_target_status : option string;
  ob_source_status : option string;
  ob_payload_json : string;
  ob_payload_sha256 : string;
  ob_state : string;
  ob_attempt_count : Z;
  ob_last_attempt_at : option string;
  ob_created_at : string;
  ob_applied_at : option string;
  ob_blocked_code : option string;
}.
Record tombstone_row := {
  ts_intent_fingerprint : string;
  ts_wake_id : string;
  ts_terminal_status : string;
  ts_retired_at : string;
}.

(** The arms are keyed by their UNIQUE wake id, the tombstones by their
    idempotency key; the receipts are kept in insertion order. *)
Record journal := Journal {
  next_sequence : Z;
  migrated_at : string;
  journal_uuid : string;
  source_instances : gmap (string * string) instance_row;
  source_state : gmap (string * string) state_row;
  arms : gmap string arm_row;
  receipts : list receipt_row;
  evaluation_progress : gmap string progress_row;
  match_reservations : gmap string reservation_row;
  retention_pins : gmap string pin_row;
  wake_lifecycle : gmap string lifecycle_row;
  record_outbox : gmap (string * Z) outbox_row;
  registration_tombstones : gmap string tombstone_row;
}.

Definition set_meta (n : Z) (m : string) (j : journal) : journal :=
  Journal n m (journal_uuid j) (source_instances j) (source_state j) (arms j) (receipts j)
    (evaluation_progress j) (match_reservations j) (retention_pins j) (wake_lifecycle j) (record_outbox j)
    (registration_tombstones j).
Definition set_source_instances x (j : journal) : journal :=
  Journal (next_sequence j) (migrated_at j) (journal_uuid j) x (source_state j) (arms j) (receipts j)
    (evaluation_progress j) (match_reservations j) (retention_pins j) (wake_lifecycle j) (record_outbox j)
    (registration_tombstones j).
Definition set_source_state x (j : journal) : journal :=
  Journal (next_sequence j) (migrated_at j) (journal_uuid j) (source_instances j) x (arms j) (receipts j)
    (evaluation_progress j) (match_reservations j) (retention_pins j) (wake_lifecycle j) (record_outbox j)
    (registration_tombstones j).
Definition set_arms x (j : journal) : journal :=
  Journal (next_sequence j) (migrated_at j) (journal_uuid j) (source_instances j) (source_state j) x (receipts j)
    (evaluation_progress j) (match_reservations j) (retention_pins j) (wake_lifecycle j) (record_outbox j)
    (registration_tombstones j).
Definition set_receipts x (j : journal) : journal :=
  Journal (next_sequence j) (migrated_at j) (journal_uuid j) (source_instances j) (source_state j) (arms j) x
    (evaluation_progress j) (match_reservations j) (retention_pins j) (wake_lifecycle j) (record_outbox j)
    (registration_tombstones j).
Definition set_progress x (j : journal) : journal :=
  Journal (next_sequence j) (migrated_at j) (journal_uuid j) (source_instances j) (source_state j) (arms j)
    (receipts j) x (match_reservations j) (retention_pins j) (wake_lifecycle j) (record_outbox j)
    (registration_tombstones j).
Definition set_reservations x (j : journal) : journal :=
  Journal (next_sequence j) (migrated_at j) (journal_uuid j) (source_instances j) (source_state j) (arms j)
    (receipts j) (evaluation_progress j) x (retention_pins j) (wake_lifecycle j) (record_outbox j)
    (registration_tombstones j).
Definition set_pins x (j : journal) : journal :=
  Journal (next_sequence j) (migrated_at j) (journal_uuid j) (source_instances j) (source_state j) (arms j)
    (receipts j) (evaluation_progress j) (match_reservations j) x (wake_lifecycle j) (record_outbox j)
    (registration_tombstones j).
Definition set_lifecycle x (j : journal) : journal :=
  Journal (next_sequence j) (migrated_at j) (journal_uuid j) (source_instances j) (source_state j) (arms j)
    (receipts j) (evaluation_progress j) (match_reservations j) (retention_pins j) x (record_outbox j)
    (registration_tombstones j).
Definition set_outbox x (j : journal) : journal :=
  Journal (next_sequence j) (migrated_at j) (journal_uuid j) (source_instances j) (source_state j) (arms j)
    (receipts j) (evaluation_progress j) (match_reservations j) (retention_pins j) (wake_lifecycle j) x
    (registration_tombstones j).
Definition set_tombstones x (j : journal) : journal :=
  Journal (next_sequence j) (migrated_at j) (journal_uuid j) (source_instances j) (source_state j) (arms j)
    (receipts j) (evaluation_progress j) (match_reservations j) (retention_pins j) (wake_lifecycle j)
    (record_outbox j) x.

(** A journal as [_initialize] creates it. *)
Definition journal_init (uuid created_at : string) : journal :=
  Journal 1 created_at uuid ∅ ∅ ∅ [] ∅ ∅ ∅ ∅ ∅ ∅.

(** ** Transactions *)
(** [Commit a j hook] commits [j] and then runs the named checkpoint hook. *)
Inductive tx (A : Type) : Type :=
| Commit (a : A) (j : journal) (hook : option string)
| Rollback (a : A)
| Raise.
Arguments Commit {A} a j hook.
Arguments Rollback {A} a.
Arguments Raise {A}.

(** The surroundings of a call: where the database or a hook raises (by the
    name of the place), the lease clock ([None]: it raises), the identifier
    [uuid4] answers, and [Path.resolve]. *)
Record Env := {
  fails : string → bool;
  lease_clock : option Z;
  owner : string;
  source_lease_seconds : Z;
  resolve : string → string;
}.

(** Connection and BEGIN may fail, then the body runs, then the commit (with
    the hook before it) may fail, and a hook after the commit may raise. *)
Definition transact {A} (env : Env) (name : string) (unavailable : A) (body : journal → tx A) (j : journal) : A * journal :=
  if fails env (name +:+ ":begin") then (unavailable, j)
  else match body j with
  | Raise => (unavailable, j)
  | Rollback a => (a, j)
  | Commit a j' hook =>
    if fails env (name +:+ ":commit") then (unavailable, j)
    else match hook with
         | Some h => if fails env h then (unavailable, j') else (a, j')
         | None => (a, j')
         end
  end.

Definition store_unavailable (w : option string) : Degraded := degraded w "STORE_UNAVAILABLE".

(** Truth of a nullable text column. *)
Definition truthy (s : option string) : bool :=
  match s with Some s => negb (bool_decide (s = EmptyString)) | None => false end.

(** ** Rows and values *)
Definition _armed_from_row (r : arm_row) : option ArmedSignal :=
  after ← row_local_after_sequence r;
  b ← row_baseline_json r; baseline ← baseline_of_json b;
  sp ← _spec_from_json (row_spec_json r);
  registered ← _parse_time (row_registered_at r);
  expires ← (if truthy (row_expires_at r)
             then t ← row_expires_at r; t ← _parse_time t; Some (Some t)
             else Some None);
  Some {| wake_id := row_wake_id r; arm_id := row_arm_id r; spec := sp;
          anchor := {| local_after_sequence := after; source_anchor := default EmptyString (row_source_anchor r);
                       baseline := baseline; recovery := default EmptyString (row_recovery r) |};
          registered_at := registered; expires_at := expires; publication := row_state r |}.
Definition _matched_from_row (r : reservation_row) : option Matched := matched_of_json (mr_evidence_json r).

Definition rc_identity (r : receipt_row) : string * string * string * string :=
  (rc_source r, rc_source_instance r, rc_occurrence_namespace r, rc_occurrence_value r).
(** SELECT ... FROM receipts WHERE the four identity columns. *)
Definition find_receipt (j : journal) (i : string * string * string * string) : option receipt_row :=
  List.find (λ r, bool_decide (rc_identity r = i)) (receipts j).

Definition find_arm_by_key (j : journal) (key : string) : option arm_row :=
  List.find (λ r, bool_decide (row_idempotency_key r = key)) (snd <$> map_to_list (arms j)).
Definition find_arm_by_id (j : journal) (id : string) : option arm_row :=
  List.find (λ r, bool_decide (row_arm_id r = id)) (snd <$> map_to_list (arms j)).

(** UPDATE arms ... WHERE. *)
Definition update_arms (p : arm_row → bool) (f : arm_row → arm_row) (j : journal) : journal :=
  set_arms ((λ r, if p r then f r else r) <$> arms j) j.
Definition arm_with_state (st : string) (r : arm_row) : arm_row :=
  {| row_arm_id := row_arm_id r; row_wake_id := row_wake_id r; row_idempotency_key := row_idempotency_key r;
     row_intent_fingerprint := row_intent_fingerprint r; row_state := st; row_source := row_source r;
     row_source_instance := row_source_instance r; row_kind := row_kind r; row_subject := row_subject r;
     row_spec_json := row_spec_json r; row_resume_json := row_resume_json r;
     row_registered_at := row_registered_at r; row_expires_at := row_expires_at r;
     row_local_after_sequence := row_local_after_sequence r; row_source_anchor := row_source_anchor r;
     row_baseline_json := row_baseline_json r; row_recovery := row_recovery r;
     row_preparer_token := row_preparer_token r; row_preparation_expires_at := row_preparation_expires_at r;
     row_prepared_at := row_prepared_at r; row_published_at := row_published_at r |}.
Definition arm_with_preparation (token expires : option string) (r : arm_row) : arm_row :=
  {| row_arm_id := row_arm_id r; row_wake_id := row_wake_id r; row_idempotency_key := row_idempotency_key r;
     row_intent_fingerprint := row_intent_fingerprint r; row_state := row_state r; row_source := row_source r;
     row_source_instance := row_source_instance r; row_kind := row_kind r; row_subject := row_subject r;
     row_spec_json := row_spec_json r; row_resume_json := row_resume_json r;
     row_registered_at := row_registered_at r; row_expires_at := row_expires_at r;
     row_local_after_sequence := row_local_after_sequence r; row_source_anchor := row_source_anchor r;
     row_baseline_json := row_baseline_json r; row_recovery := row_recovery r;
     row_preparer_token := token; row_preparation_expires_at := expires;
     row_prepared_at := row_prepared_at r; row_published_at := row_published_at r |}.
Definition arm_published (at_ : string) (r : arm_row) : arm_row :=
  {| row_arm_id := row_arm_id r; row_wake_id := row_wake_id r; row_idempotency_key := row_idempotency_key r;
     row_intent_fingerprint := row_intent_fingerprint r; row_state := "published"; row_source := row_source r;
     row_source_instance := row_source_instance r; row_kind := row_kind r; row_subject := row_subject r;
     row_spec_json := row_spec_json r; row_resume_json := row_resume_json r;
     row_registered_at := row_registered_at r; row_expires_at := row_expires_at r;
     row_local_after_sequence := row_local_after_sequence r; row_source_anchor := row_source_anchor r;
     row_baseline_json := row_baseline_json r; row_recovery := row_recovery r;
     row_preparer_token := row_preparer_token r; row_preparation_expires_at := row_preparation_expires_at r;
     row_prepared_at := row_prepared_at r; row_published_at := Some (default at_ (row_published_at r)) |}.
Definition arm_anchored (a : SourceAnchor) (at_ : string) (r : arm_row) : arm_row :=
  {| row_arm_id := row_arm_id r; row_wake_id := row_wake_id r; row_idempotency_key := row_idempotency_key r;
     row_intent_fingerprint := row_intent_fingerprint r; row_state := "prepared"; row_source := row_source r;
     row_source_instance := row_source_instance r; row_kind := row_kind r; row_subject := row_subject r;
     row_spec_json := row_spec_json r; row_resume_json := row_resume_json r;
     row_registered_at := row_registered_at r; row_expires_at := row_expires_at r;
     row_local_after_sequence := Some (local_after_sequence a); row_source_anchor := Some (source_anchor a);
     row_baseline_json := Some (_canonical_json (attributes_json (baseline a))); row_recovery := Some (recovery a);
     row_preparer_token := None; row_preparation_expires_at := None;
     row_prepared_at := Some at_; row_published_at := None |}.

Definition state_default : state_row :=
  {| ss_checkpoint := None; ss_checkpoint_order := None; ss_observed_through := None; ss_last_local_sequence := 0;
     ss_lease_owner := None; ss_lease_generation := 0; ss_lease_expires_at := None |}.
Definition with_lease (owner : option string) (generation : Z) (expires : option string) (s : state_row) : state_row :=
  {| ss_checkpoint := ss_checkpoint s; ss_checkpoint_order := ss_checkpoint_order s;
     ss_observed_through := ss_observed_through s; ss_last_local_sequence := ss_last_local_sequence s;
     ss_lease_owner := owner; ss_lease_generation := generation; ss_lease_expires_at := expires |}.

(** INSERT ... ON CONFLICT(key) DO NOTHING. *)
Definition insert_new `{Countable K} {V} (k : K) (v : V) (m : gmap K V) : gmap K V :=
  match m !! k with Some _ => m | None => <[k := v]> m end.

(** ** ingest *)
Definition canonical_attribute_bytes (a : attributes) : Z :=
  Z.of_nat (String.length (_canonical_json (attributes_json a))).
Definition utf8_length (s : string) : Z := Z.of_nat (String.length s).

Definition observation_outside (o : NormalizedObservation) (c : SourceContract) : bool :=
  negb (bool_decide (obs_source o = contract_source c)) ||
  negb (bool_decide (obs_source_instance o = contract_source_instance c)) ||
  negb (bool_decide (obs_kind o ∈ kinds c)) || negb (bool_decide (obs_subject o ∈ subjects c)) ||
  bool_decide (occurrence_namespace o = EmptyString) || bool_decide (occurrence_value o = EmptyString) ||
  negb (bool_decide (verification_state (verification o) ∈ ["verified"; "pending"; "rejected"])) ||
  bool_decide (verification_method (verification o) = EmptyString).
Definition _validate_observation (o : NormalizedObservation) (c : SourceContract) : option Invalid :=
  if observation_outside o c then Some (invalid None "OBSERVATION_OUTSIDE_CONTRACT")
  else if match evidence_ref o with Some r => max_evidence_ref_bytes c <? utf8_length r | None => false end
  then Some (invalid None "EVIDENCE_LIMIT_EXCEEDED")
  else if negb (attributes_allowed c (obs_attributes o)) then Some (invalid None "ATTRIBUTE_NOT_ALLOWED")
  else if max_attribute_bytes c <? canonical_attribute_bytes (obs_attributes o)
  then Some (invalid None "ATTRIBUTE_LIMIT_EXCEEDED")
  else None.

Notation occurrence := (string * string * string * string)%type.
Notation staging := (list (occurrence * (NormalizedObservation * string * string))).

(** One round of the staging loop. *)
Definition stage_observation (j : journal) (c : SourceContract) (staged : staging) (o : NormalizedObservation) :
    Invalid + staging :=
  match _validate_observation o c with
  | Some i => inl i
  | None =>
    let payload_json := _canonical_json (_observation_payload o) in
    let fingerprint := _fingerprint payload_json in
    if match dict_get (_identity o) staged with
       | Some (_, f) => negb (bool_decide (f = fingerprint)) | None => false end
    then inl (invalid None "OCCURRENCE_IDENTITY_CONFLICT")
    else if match find_receipt j (_identity o) with
            | Some r => negb (bool_decide (rc_content_fingerprint r = fingerprint)) | None => false end
    then inl (invalid None "OCCURRENCE_IDENTITY_CONFLICT")
    else inr (dict_set (_identity o) (o, payload_json, fingerprint) staged)
  end.
Fixpoint stage (j : journal) (c : SourceContract) (staged : staging) (obs : list NormalizedObservation) :
    Invalid + staging :=
  match obs with
  | [] => inr staged
  | o :: obs =>
    match stage_observation j c staged o with
    | inl i => inl i
    | inr staged => stage j c staged obs
    end
  end.

Definition event_id (sequence : Z) : string := "event_" +:+ zero_pad 12 (Z_dec sequence).
Definition receipt_of (sequence : Z) (o : NormalizedObservation) (payload_json fingerprint : string) : receipt_row :=
  {| rc_local_sequence := sequence; rc_receipt_id := event_id sequence;
     rc_source := obs_source o; rc_source_instance := obs_source_instance o;
     rc_occurrence_namespace := occurrence_namespace o; rc_occurrence_value := occurrence_value o;
     rc_content_fingerprint := fingerprint; rc_kind := obs_kind o; rc_subject := obs_subject o;
     rc_occurred_at := _format_time (occurred_at o); rc_observed_at := _format_time (observed_at o);
     rc_attributes_json := _canonical_json (attributes_json (obs_attributes o));
     rc_verification_state := verification_state (verification o);
     rc_verification_method := verification_method (verification o);
     rc_evidence_ref := evidence_ref o; rc_observation_json := payload_json |}.

(** INSERT INTO receipts: the primary key, the UNIQUE constraints, the foreign
    key and the CHECK on the verification state, or an exception. *)
Definition insert_receipt (r : receipt_row) (j : journal) : option journal :=
  if existsb (λ r', bool_decide (rc_local_sequence r' = rc_local_sequence r) ||
                    bool_decide (rc_receipt_id r' = rc_receipt_id r) ||
                    bool_decide (rc_identity r' = rc_identity r)) (receipts j) ||
     negb (bool_decide (is_Some (source_instances j !! (rc_source r, rc_source_instance r)))) ||
     negb (bool_decide (rc_verification_state r ∈ ["verified"; "pending"; "rejected"]))
  then None
  else Some (set_receipts (receipts j ++ [r]) j).

(** The insertion loop: the tables, [next_sequence] and the [inserted] dict. *)
Fixpoint insert_staged (j : journal) (next : Z) (inserted : list (occurrence * ReceiptRef)) (items : staging) :
    option (journal * Z * list (occurrence * ReceiptRef)) :=
  match items with
  | [] => Some (j, next, inserted)
  | (i, (o, payload_json, fingerprint)) :: items =>
    match find_receipt j i with
    | Some _ => insert_staged j next inserted items
    | None =>
      j' ← insert_receipt (receipt_of next o payload_json fingerprint) j;
      insert_staged j' (next + 1)
        (dict_set i {| receipt_id := event_id next; local_sequence := next; duplicate := false |} inserted) items
    end
  end.

(** The answers, in the order of the batch. *)
Fixpoint ingest_results (j : journal) (inserted : list (occurrence * ReceiptRef))
    (preexisting returned : list occurrence) (obs : list NormalizedObservation) : option (list ReceiptRef) :=
  match obs with
  | [] => Some []
  | o :: obs =>
    let i := _identity o in
    '(receipt, preexisting) ←
      match dict_get i inserted, bool_decide (i ∈ returned) with
      | Some r, false => Some (r, preexisting)
      | _, _ =>
        stored ← find_receipt j i;
        Some ({| receipt_id := rc_receipt_id stored; local_sequence := rc_local_sequence stored; duplicate := true |},
              i :: preexisting)
      end;
    let was_duplicate := bool_decide (i ∈ preexisting) || bool_decide (i ∈ returned) in
    rest ← ingest_results j inserted preexisting (i :: returned) obs;
    Some ({| receipt_id := receipt_id receipt; local_sequence := local_sequence receipt;
             duplicate := was_duplicate |} :: rest)
  end.

Definition checkpoint_conflict (s : state_row) (commit : SourceCommit) : option Invalid :=
  match ss_checkpoint_order s with
  | None => None
  | Some order =>
    if checkpoint_order commit <? order then Some (invalid None "CHECKPOINT_REGRESSION")
    else if (checkpoint_order commit =? order) && negb (bool_decide (Some (checkpoint commit) = ss_checkpoint s))
    then Some (invalid None "CHECKPOINT_CONFLICT")
    else None
  end.
(** A live lease of the source: [Some None] when there is none, [Some (Some t)]
    when it holds until [t], and an exception when its text or the clock is
    unreadable. *)
Definition live_lease (s : state_row) (clock : option Z) : option (option Z) :=
  match ss_lease_owner s with
  | None => Some None
  | Some _ =>
    text ← ss_lease_expires_at s; expiry ← _parse_time text; now ← clock;
    Some (if now <? expiry then Some expiry else None)
  end.

Definition advance_source (commit : SourceCommit) (next : Z) (s : state_row) : state_row :=
  {| ss_checkpoint := Some (checkpoint commit); ss_checkpoint_order := Some (checkpoint_order commit);
     ss_observed_through := Some (_format_time (observed_through commit));
     ss_last_local_sequence := ss_last_local_sequence s `max` (next - 1);
     ss_lease_owner := None; ss_lease_generation := ss_lease_generation s; ss_lease_expires_at := None |}.

Definition busy (t : Z) : Degraded :=
  {| degraded_wake_id := None; degraded_code := "SOURCE_BUSY"; retry_at := Some t; degraded_evidence_ref := None |}.
Definition commit_key (commit : SourceCommit) : string * string :=
  (commit_source commit, commit_source_instance commit).

Definition or_raise {A B} (x : option A) (k : A → tx B) : tx B :=
  match x with Some a => k a | None => Raise end.

Definition ingest_body (env : Env) (obs : list NormalizedObservation) (commit : SourceCommit) (j : journal) : tx IngestResult :=
  let key := commit_key commit in
  match source_instances j !! key, source_state j !! key with
  | Some instance, Some state =>
    or_raise (live_lease state (lease_clock env)) (λ lease,
    match lease with
    | Some t => Rollback (IngestDegraded (busy t))
    | None =>
      match checkpoint_conflict state commit with
      | Some i => Rollback (IngestInvalid i)
      | None =>
        or_raise (_contract_from_json (si_contract_json instance)) (λ c,
        match stage j c [] obs with
        | inl i => Rollback (IngestInvalid i)
        | inr staged =>
          or_raise (insert_staged j (next_sequence j) [] staged) (λ '(j', next, inserted),
          let j' := set_meta next (_format_time (observed_through commit)) j' in
          let j' := set_source_state (<[key := advance_source commit next state]> (source_state j')) j' in
          or_raise (ingest_results j' inserted [] [] obs) (λ refs,
          Commit (IngestDone {| Signals.receipts := refs; ingested_checkpoint := checkpoint commit |}) j'
            (Some "after_ingest_commit")))
        end)
      end
    end)
  | _, _ => Rollback (IngestInvalid (invalid None "SOURCE_NOT_CONFIGURED"))
  end.

Definition ingest (env : Env) (obs : list NormalizedObservation) (commit : SourceCommit) (j : journal) :
    IngestResult * journal :=
  if existsb (λ o, negb (bool_decide ((obs_source o, obs_source_instance o) = commit_key commit))) obs
  then (IngestInvalid (invalid None "SOURCE_COMMIT_MISMATCH"), j)
  else transact env "ingest" (IngestDegraded (store_unavailable None)) (ingest_body env obs commit) j.

(** ** evaluate *)
Definition _advance_progress (w : string) (sequence now : Z) (j : journal) : journal :=
  match evaluation_progress j !! w with
  | None => j
  | Some p => set_progress (<[w := {|
      pr_scanned_through_sequence := pr_scanned_through_sequence p `max` sequence;
      pr_revision := pr_revision p + 1; pr_updated_at := _format_time now |}]> (evaluation_progress j)) j
  end.

Definition receipt_pin (w receipt_id reason : string) (now : Z) : pin_row :=
  {| pin_wake_id := w; pin_receipt_id := Some receipt_id; pin_min_local_sequence := None; pin_reason := reason;
     pin_created_at := _format_time now; pin_released_at := None |}.
Definition _pin_pending (w receipt_id : string) (now : Z) (j : journal) : journal :=
  set_pins (insert_new ("pending:" +:+ w +:+ ":" +:+ receipt_id)
    (receipt_pin w receipt_id "verification_pending" now) (retention_pins j)) j.

(** The filesystem convention: a state that "becomes" is only compared within
    the baseline cohort its registration was armed with. *)
Definition baseline_matches (durable : ArmedSignal) (o : NormalizedObservation) : bool :=
  if bool_decide (spec_source (spec durable) = "filesystem") && bool_decide (spec_semantics (spec durable) = "state") &&
     bool_decide (spec_condition (spec durable) = "becomes")
  then match obs_attributes o !! "baseline_fingerprint", baseline (anchor durable) !! "fingerprint" with
       | Some (SStr a), Some (SStr b) => bool_decide (a = b)
       | _, _ => true
       end
  else true.

(** What one round of the loop over a page makes of a row. *)
Inductive row_class :=
| Skip
| Awaiting
| TooLarge
| Candidate (o : NormalizedObservation)
| BadOrder (i : Invalid).
Definition classify (c : SourceContract) (durable : ArmedSignal) (limits : EvaluationLimits) (r : receipt_row) :
    option row_class :=
  o ← _observation_from_json (rc_observation_json r);
  match _occurrence_is_after_anchor (obs_attributes o) c (anchor durable) with
  | Raised _ => None
  | Done (inr i) => Some (BadOrder i)
  | Done (inl after) => Some (
    if negb after || negb (baseline_matches durable o) || negb (_matches (obs_attributes o) (spec_where (spec durable)))
    then Skip
    else if bool_decide (spec_verification (spec durable) = "required") &&
            negb (bool_decide (verification_state (verification o) = "verified"))
    then (if bool_decide (verification_state (verification o) = "pending") then Awaiting else Skip)
    else if (limit_attribute_bytes limits <? canonical_attribute_bytes (obs_attributes o)) ||
            (limit_evidence_ref_bytes limits <? utf8_length (default EmptyString (evidence_ref o)))
    then TooLarge
    else Candidate o)
  end.

(** How the loop over the page ends, with the progress that is safe to record. *)
Inductive page_outcome :=
| PageInvalid (i : Invalid)
| PagePending (safe : Z) (receipt_id : string)
| PageTooLarge (safe : Z)
| PageMatch (r : receipt_row) (o : NormalizedObservation)
| PageEnd.
Fixpoint scan_page (c : SourceContract) (durable : ArmedSignal) (limits : EvaluationLimits) (safe : Z)
    (page : list receipt_row) : option page_outcome :=
  match page with
  | [] => Some PageEnd
  | r :: page =>
    class ← classify c durable limits r;
    match class with
    | Skip => scan_page c durable limits (rc_local_sequence r) page
    | Awaiting => Some (PagePending safe (rc_receipt_id r))
    | TooLarge => Some (PageTooLarge safe)
    | Candidate o => Some (PageMatch r o)
    | BadOrder i => Some (PageInvalid i)
    end
  end.

Definition receipt_le (a b : receipt_row) : Prop := rc_local_sequence a ≤ rc_local_sequence b.
#[export] Instance receipt_le_dec a b : Decision (receipt_le a b) := Z_le_dec _ _.
(** SELECT * FROM receipts WHERE source, kind, subject AND local_sequence > ?
    ORDER BY local_sequence LIMIT ?. *)
Definition select_receipts (j : journal) (sp : SignalRequest) (after : Z) (limit : nat) : list receipt_row :=
  take limit (merge_sort receipt_le (filter (λ r,
    (rc_source r, rc_source_instance r, rc_kind r, rc_subject r) =
      (spec_source sp, spec_source_instance sp, spec_kind sp, spec_subject sp) ∧
    after < rc_local_sequence r) (receipts j))).

Definition evidence_of (r : receipt_row) (o : NormalizedObservation) : EvidenceSummary :=
  {| evidence_receipt_id := rc_receipt_id r; evidence_local_sequence := rc_local_sequence r;
     evidence_evidence_ref := evidence_ref o; evidence_attributes := obs_attributes o;
     evidence_verification_state := verification_state (verification o);
     evidence_verification_method := verification_method (verification o) |}.
Definition match_of (w : string) (r : receipt_row) (o : NormalizedObservation) (now : Z) : Matched :=
  {| matched_wake_id := w; match_token := "match:" +:+ w +:+ ":" +:+ rc_receipt_id r;
     matched_receipt := evidence_of r o; matched_at := now |}.

(** [dict] assignment on a JSON object, and [list(x or [])]. *)
Definition set_members (kvs : list (string * json)) (o : list (string * json)) : list (string * json) :=
  foldl (λ o kv, dict_set kv.1 kv.2 o) o kvs.
Definition list_or_empty (v : option json) : option (list json) :=
  match v with
  | None | Some JNull => Some []
  | Some (JArr l) => Some l
  | _ => None
  end.

Definition evidence_payload (m : Matched) : list (string * json) :=
  let r := matched_receipt m in [
  ("match_token", JStr (match_token m));
  ("receipt_id", JStr (evidence_receipt_id r));
  ("local_sequence", JInt (evidence_local_sequence r));
  ("evidence_ref", opt_str (evidence_evidence_ref r));
  ("attributes", attributes_json (evidence_attributes r));
  ("verification", JObj [("state", JStr (evidence_verification_state r));
                         ("method", JStr (evidence_verification_method r))]);
  ("matched_at", JStr (_format_time (matched_at m))) ].
(** The revision-2 payload: the pending record, firing, with the evidence. *)
Definition firing_payload (payload : list (string * json)) (m : Matched) : option json :=
  let evidence := evidence_payload m in
  let evidence := dict_set "evidence_digest" (JStr (_fingerprint (_canonical_json (JObj evidence)))) evidence in
  let at_ := JStr (_format_time (matched_at m)) in
  let payload := set_members [("trigger_match", JObj evidence); ("status", JStr "firing");
    ("record_revision", JInt 2); ("updated_at", at_)] payload in
  events ← list_or_empty (dict_get "events" payload);
  Some (JObj (dict_set "events" (JArr (events ++ [JObj [("at", at_); ("type", JStr "predicate_matched");
    ("message", JStr "Signal observation reserved for firing")]])) payload)).

Definition _ensure_match_outbox (m : Matched) (j : journal) : option journal :=
  let w := matched_wake_id m in
  match record_outbox j !! (w, 2) with
  | Some _ => Some j
  | None =>
    pending ← record_outbox j !! (w, 1);
    payload ← loads (ob_payload_json pending); payload ← as_obj payload;
    payload ← firing_payload payload m;
    let payload_json := _canonical_json payload in
    let at_ := _format_time (matched_at m) in
    let j := set_outbox (<[(w, 2) := {| ob_operation := "put"; ob_target_status := Some "firing";
      ob_source_status := Some "pending"; ob_payload_json := payload_json;
      ob_payload_sha256 := record_digest payload_json; ob_state := "pending"; ob_attempt_count := 0;
      ob_last_attempt_at := None; ob_created_at := at_; ob_applied_at := None; ob_blocked_code := None |}]>
      (record_outbox j)) j in
    Some match wake_lifecycle j !! w with
    | Some l =>
      if bool_decide (lc_desired_status l = "pending")
      then set_lifecycle (<[w := {| lc_desired_status := "firing"; lc_desired_revision := 2;
             lc_applied_status := lc_applied_status l; lc_applied_revision := lc_applied_revision l;
             lc_updated_at := at_ |}]> (wake_lifecycle j)) j
      else j
    | None => j
    end
  end.

(** The writes of a match: reservation, evidence pin, outbox; the answer is
    the reservation that is stored. *)
Definition reserve_match (w : string) (r : receipt_row) (m : Matched) (j : journal) : option (Matched * journal) :=
  if existsb (λ kv, bool_decide (mr_match_token kv.2 = match_token m)) (map_to_list (match_reservations j)) &&
     bool_decide (match_reservations j !! w = None)
  then None (* UNIQUE(match_token) *)
  else
    let j := set_reservations (insert_new w {| mr_receipt_id := Some (rc_receipt_id r);
      mr_match_token := match_token m; mr_matched_at := _format_time (matched_at m);
      mr_evidence_json := _canonical_json (_matched_payload m) |} (match_reservations j)) j in
    let j := set_pins (insert_new ("match:" +:+ w)
      (receipt_pin w (rc_receipt_id r) "match_evidence" (matched_at m)) (retention_pins j)) j in
    winner ← match_reservations j !! w;
    winner ← _matched_from_row winner;
    j ← _ensure_match_outbox winner j;
    Some (winner, j).

Definition lifecycle_pending (l : lifecycle_row) : bool :=
  bool_decide (lc_desired_status l = "pending") && bool_decide (lc_applied_status l = Some "pending") &&
  bool_decide (Some (lc_desired_revision l) = lc_applied_revision l).

Definition last_sequence (page : list receipt_row) (j : journal) : Z :=
  match last page with Some r => rc_local_sequence r | None => next_sequence j - 1 end.

(** The part of the body that reads the receipts. *)
Definition evaluate_receipts (w : string) (c : SourceContract) (durable : ArmedSignal) (now : Z)
    (limits : EvaluationLimits) (j : journal) : tx Evaluation :=
  let budget j := Commit (EvalDegraded (degraded (Some w) "EVALUATION_BUDGET_EXHAUSTED")) j None in
  or_raise (evaluation_progress j !! w) (λ progress,
  let scanned := local_after_sequence (anchor durable) `max` pr_scanned_through_sequence progress in
  let rows := select_receipts j (spec durable) scanned (Z.to_nat (max_candidates limits + 1)) in
  let page := take (Z.to_nat (max_candidates limits)) rows in
  or_raise (scan_page c durable limits scanned page) (λ outcome,
  match outcome with
  | PageInvalid i => Rollback (EvalInvalid i)
  | PagePending safe rid =>
    Commit (EvalDegraded (degraded (Some w) "VERIFICATION_PENDING"))
      (_advance_progress w safe now (_pin_pending w rid now j)) None
  | PageTooLarge safe => budget (_advance_progress w safe now j)
  | PageMatch r o =>
    or_raise (reserve_match w r (match_of w r o now) j) (λ '(winner, j),
    Commit (EvalMatched winner) j (Some "after_match_reservation_commit"))
  | PageEnd =>
    let safe := last_sequence page j in
    let j := _advance_progress w safe now j in
    if (max_candidates limits <? Z.of_nat (length rows)) then budget j
    else Commit (EvalNotReady {| not_ready_wake_id := w; scanned_through_sequence := safe |}) j None
  end)).

Definition evaluate_body (w : string) (armed : ArmedSignal) (now : Z) (limits : EvaluationLimits) (j : journal) :
    tx Evaluation :=
  let not_published := Rollback (EvalDegraded (degraded (Some w) "ARM_NOT_PUBLISHED")) in
  match arms j !! w with
  | None => Rollback (EvalInvalid (invalid (Some w) "INVALID_ARM"))
  | Some row =>
    or_raise (_armed_from_row row) (λ durable,
    if negb (bool_decide (publication durable = "published") && bool_decide (arm_id durable = arm_id armed))
    then not_published
    else match source_instances j !! (spec_source (spec durable), spec_source_instance (spec durable)) with
    | None => Rollback (EvalDegraded (degraded (Some w) "SOURCE_STATE_UNAVAILABLE"))
    | Some source =>
      if negb (bool_decide (_fingerprint (si_contract_json source) = si_contract_fingerprint source))
      then Rollback (EvalDegraded (degraded (Some w) "SOURCE_STATE_UNAVAILABLE"))
      else
        or_raise (_contract_from_json (si_contract_json source)) (λ c,
        match _validate_occurrence_anchor c (spec durable) (anchor durable) with
        | Some i => Rollback (EvalInvalid i)
        | None =>
          match match_reservations j !! w with
          | Some reservation =>
            or_raise (_matched_from_row reservation) (λ m,
            or_raise (_ensure_match_outbox m j) (λ j, Commit (EvalMatched m) j None))
          | None =>
            if negb (match wake_lifecycle j !! w with Some l => lifecycle_pending l | None => false end)
            then not_published
            else if match expires_at durable with Some e => e <=? now | None => false end
            then Rollback (EvalExpired {| expired_wake_id := w; expired_at := default 0 (expires_at durable) |})
            else if max_candidates limits <=? 0
            then Rollback (EvalDegraded (degraded (Some w) "EVALUATION_BUDGET_EXHAUSTED"))
            else evaluate_receipts w c durable now limits j
          end
        end)
    end)
  end.

Definition evaluate (env : Env) (w : string) (armed : ArmedSignal) (now : Z) (limits : EvaluationLimits) (j : journal) :
    Evaluation * journal :=
  if negb (bool_decide (w = wake_id armed)) then (EvalInvalid (invalid (Some w) "INVALID_ARM"), j)
  else transact env "evaluate" (EvalDegraded (store_unavailable (Some w))) (evaluate_body w armed now limits) j.

(** ** Retention *)
Record RetentionPin := {
  rp_pin_id : string;
  rp_wake_id : string;
  rp_receipt_id : option string;
  rp_min_local_sequence : option Z;
  rp_reason : string;
  rp_created_at : Z;
}.
Definition pin_live (p : pin_row) : bool := bool_decide (pin_released_at p = None).
Definition release_pin (at_ : string) (p : pin_row) : pin_row :=
  {| pin_wake_id := pin_wake_id p; pin_receipt_id := pin_receipt_id p;
     pin_min_local_sequence := pin_min_local_sequence p; pin_reason := pin_reason p;
     pin_created_at := pin_created_at p; pin_released_at := Some at_ |}.
(** UPDATE retention_pins SET released_at WHERE wake_id AND released_at IS NULL
    AND the reason test. *)
Definition release_pins (w at_ : string) (reason : string → bool) (j : journal) : journal :=
  set_pins ((λ p, if bool_decide (pin_wake_id p = w) && pin_live p && reason (pin_reason p)
                  then release_pin at_ p else p) <$> retention_pins j) j.

Definition text_pair_le (a b : string * string) : bool :=
  match String.compare a.1 b.1 with Lt => true | Datatypes.Eq => String.leb a.2 b.2 | Gt => false end.
Definition pin_le (a b : string * pin_row) : Prop :=
  text_pair_le (pin_created_at a.2, a.1) (pin_created_at b.2, b.1) = true.
#[export] Instance pin_le_dec a b : Decision (pin_le a b) := bool_eq_dec _ _.

(** The live pins, of one wake or of all, ORDER BY created_at, pin_id. *)
Definition retention_pins_of (env : Env) (w : option string) (j : journal) : list RetentionPin + Degraded :=
  if fails env "retention_pins:begin" then inr (store_unavailable w)
  else
    let rows := merge_sort pin_le (filter (λ kp : string * pin_row, pin_live kp.2 &&
      match w with Some w => bool_decide (pin_wake_id kp.2 = w) | None => true end = true)
      (map_to_list (retention_pins j))) in
    match mapM (λ '(k, p), at_ ← _parse_time (pin_created_at p);
      Some {| rp_pin_id := k; rp_wake_id := pin_wake_id p;
              rp_receipt_id := if truthy (pin_receipt_id p) then pin_receipt_id p else None;
              rp_min_local_sequence := pin_min_local_sequence p; rp_reason := pin_reason p;
              rp_created_at := at_ |}) rows with
    | Some l => inl l
    | None => inr (store_unavailable w)
    end.

Definition release_retention_pins (env : Env) (w : string) (reasons : gset string) (released_at : Z) (j : journal) :
    (Z + Degraded) * journal :=
  if negb (bool_decide (reasons ≠ ∅)) ||
     negb (bool_decide (reasons ⊆ {["active_anchor"; "verification_pending"; "match_evidence"]}))
  then (inr (degraded (Some w) "INVALID_RETENTION_REQUEST"), j)
  else transact env "release_pins" (inr (store_unavailable (Some w))) (λ j,
    let reason r := bool_decide (r ∈ reasons) in
    let count := length (filter (λ kp : string * pin_row,
      bool_decide (pin_wake_id kp.2 = w) && pin_live kp.2 && reason (pin_reason kp.2) = true)
      (map_to_list (retention_pins j))) in
    Commit (inl (Z.of_nat count)) (release_pins w (_format_time released_at) reason j) None) j.

Record CompactionResult := { cr_scanned : Z; cr_deleted : Z; cr_retained : Z }.

(** A live pin holds a receipt by its id, or by a sequence it starts from. *)
Definition pin_holds (p : pin_row) (receipt_id : string) (sequence : Z) : bool :=
  pin_live p && (bool_decide (pin_receipt_id p = Some receipt_id) ||
    match pin_min_local_sequence p with Some m => m <=? sequence | None => false end).
Definition pinned (j : journal) (r : receipt_row) : bool :=
  existsb (λ kp, pin_holds kp.2 (rc_receipt_id r) (rc_local_sequence r)) (map_to_list (retention_pins j)).

(** One deletion: the released pins of the receipt, the reservation's
    reference, then the row; a pin that still references it is a foreign-key
    exception. *)
Definition delete_receipt (r : receipt_row) (j : journal) : option journal :=
  let rid := rc_receipt_id r in
  let j := set_pins (filter (λ kp : string * pin_row,
    ¬ (pin_receipt_id kp.2 = Some rid ∧ pin_released_at kp.2 ≠ None)) (retention_pins j)) j in
  let j := set_reservations ((λ m, if bool_decide (mr_receipt_id m = Some rid)
    then {| mr_receipt_id := None; mr_match_token := mr_match_token m; mr_matched_at := mr_matched_at m;
            mr_evidence_json := mr_evidence_json m |} else m) <$> match_reservations j) j in
  if existsb (λ kp, bool_decide (pin_receipt_id kp.2 = Some rid)) (map_to_list (retention_pins j)) then None
  else Some (set_receipts (filter (λ r', rc_receipt_id r' ≠ rid) (receipts j)) j).

Fixpoint compact_loop (rows : list receipt_row) (deleted retained : Z) (j : journal) : option (journal * Z * Z) :=
  match rows with
  | [] => Some (j, deleted, retained)
  | r :: rows =>
    if pinned j r then compact_loop rows deleted (retained + 1) j
    else j ← delete_receipt r j; compact_loop rows (deleted + 1) retained j
  end.
(** SELECT ... WHERE local_sequence <= ? ORDER BY local_sequence LIMIT ?. *)
Definition oldest_receipts (j : journal) (through : Z) (limit : nat) : list receipt_row :=
  take limit (merge_sort receipt_le (filter (λ r, rc_local_sequence r ≤ through) (receipts j))).

Definition compact_receipts (env : Env) (through_sequence limit : Z) (j : journal) :
    (CompactionResult + Degraded) * journal :=
  if (through_sequence <? 0) || (limit <=? 0) then (inr (degraded None "INVALID_RETENTION_REQUEST"), j)
  else transact env "compact" (inr (store_unavailable None)) (λ j,
    let rows := oldest_receipts j through_sequence (Z.to_nat limit) in
    or_raise (compact_loop rows 0 0 j) (λ '(j, deleted, retained),
    Commit (inl {| cr_scanned := Z.of_nat (length rows); cr_deleted := deleted; cr_retained := retained |}) j
      (Some "after_compaction_commit"))) j.

(** ** Terminal records *)
Definition terminal_statuses : list string := ["submitted"; "failed"; "cancelled"; "expired"; "archived"].

(** INSERT INTO registration_tombstones: UNIQUE(wake_id) against other keys. *)
Definition tombstone_conflict (key w : string) (j : journal) : bool :=
  existsb (λ kt, negb (bool_decide (kt.1 = key)) && bool_decide (ts_wake_id kt.2 = w))
    (map_to_list (registration_tombstones j)).

Definition retire_lifecycle (status : string) (revision : Z) (at_ : string) (l : lifecycle_row) : lifecycle_row :=
  {| lc_desired_status := status; lc_desired_revision := lc_desired_revision l `max` revision;
     lc_applied_status := Some status;
     lc_applied_revision := Some (default 0 (lc_applied_revision l) `max` revision); lc_updated_at := at_ |}.

(** ON CONFLICT(idempotency_key) DO UPDATE keeps the fingerprint and wake. *)
Definition retired_tombstone (arm : arm_row) (w status at_ : string) (old : option tombstone_row) : tombstone_row :=
  {| ts_intent_fingerprint := default (row_intent_fingerprint arm) (ts_intent_fingerprint <$> old);
     ts_wake_id := default w (ts_wake_id <$> old); ts_terminal_status := status; ts_retired_at := at_ |}.

(** The writes both terminal transactions make: tombstone the arm, record the
    tombstone, move the life cycle, release the pins. *)
Definition terminate (w at_ : string) (arm : arm_row) (t : tombstone_row) (f : lifecycle_row → lifecycle_row)
    (j : journal) : journal :=
  let j := set_arms (<[w := arm_with_state "tombstoned" arm]> (arms j)) j in
  let j := set_tombstones (<[row_idempotency_key arm := t]> (registration_tombstones j)) j in
  let j := set_lifecycle (alter f w (wake_lifecycle j)) j in
  release_pins w at_ (λ _, true) j.

Definition retire_body (record : json) (status : string) (now : Z) (j : journal) : tx (bool + Degraded) :=
  let w := default EmptyString (str_field "id" record) in
  match arms j !! w with
  | None => Rollback (inr (degraded (Some w) "TERMINAL_AUTHORITY_MISMATCH"))
  | Some arm =>
    if negb (bool_decide (str_field "arm_id" record = Some (row_arm_id arm)) &&
             bool_decide (str_field "journal_uuid" record = Some (journal_uuid j)))
    then Rollback (inr (degraded (Some w) "TERMINAL_AUTHORITY_MISMATCH"))
    else if bool_decide (status = "expired") && bool_decide (is_Some (match_reservations j !! w))
    then Rollback (inr (degraded (Some w) "MATCH_RESERVED"))
    else
      let at_ := _format_time now in
      let old := registration_tombstones j !! row_idempotency_key arm in
      if bool_decide (old = None) && tombstone_conflict (row_idempotency_key arm) w j then Raise
      else
      let revision := default 0 (int_field "record_revision" record) in
      Commit (inl true) (terminate w at_ arm (retired_tombstone arm w status at_ old)
        (retire_lifecycle status revision at_) j) (Some "after_terminal_commit")
  end.

Section WithPublisher.
Context {P : Type} `{RecordPublisher P}.

(** [retire_terminal_record]: an undecodable record may raise before any
    transaction; after the commit the pending file is removed. *)
Definition retire_terminal_record (env : Env) (pub : option P) (record : json) (now : Z) (j : journal) :
    result string (bool + Degraded) * journal * option P :=
  match decode_signal_record record with
  | Raised e => (Raised e, j, pub)
  | Done None => (Done (inr (degraded None "TERMINAL_RECORD_INVALID")), j, pub)
  | Done (Some decoded) =>
    match str_field "status" decoded with
    | None => (Done (inr (degraded None "TERMINAL_RECORD_INVALID")), j, pub)
    | Some status =>
      if negb (bool_decide (status ∈ terminal_statuses))
      then (Done (inr (degraded None "TERMINAL_RECORD_INVALID")), j, pub)
      else
        let w := default EmptyString (str_field "id" decoded) in
        let '(res, j') := transact env "retire" (inr (store_unavailable (Some w))) (retire_body decoded status now) j in
        match res, pub with
        | inl true, Some p =>
          match remove_superseded_pending p decoded with
          | (Raised _, p) => (Done (inr (store_unavailable (Some w))), j', Some p)
          | (Done _, p) => (Done (inl true), j', Some p)
          end
        | _, _ => (Done res, j', pub)
        end
    end
  end.

Definition expire_lifecycle (at_ : string) (l : lifecycle_row) : lifecycle_row :=
  {| lc_desired_status := "expired"; lc_desired_revision := lc_desired_revision l;
     lc_applied_status := Some "expired"; lc_applied_revision := lc_applied_revision l; lc_updated_at := at_ |}.
(** ON CONFLICT(idempotency_key) DO NOTHING. *)
Definition expired_tombstone (arm : arm_row) (w at_ : string) (old : option tombstone_row) : tombstone_row :=
  default {| ts_intent_fingerprint := row_intent_fingerprint arm; ts_wake_id := w;
             ts_terminal_status := "expired"; ts_retired_at := at_ |} old.
Definition expire_body (w : string) (now : Z) (j : journal) : tx (bool + Degraded) :=
  match arms j !! w with
  | None => Rollback (inl false)
  | Some arm =>
    if negb (bool_decide (row_state arm = "published")) then Rollback (inl false)
    else match row_expires_at arm with
    | None => Rollback (inl false)
    | Some text =>
      or_raise (_parse_time text) (λ expiry,
      if (now <? expiry) || bool_decide (is_Some (match_reservations j !! w)) then Rollback (inl false)
      else
        let at_ := _format_time now in
        let old := registration_tombstones j !! row_idempotency_key arm in
        if bool_decide (old = None) && tombstone_conflict (row_idempotency_key arm) w j then Raise
        else Commit (inl true) (terminate w at_ arm (expired_tombstone arm w at_ old) (expire_lifecycle at_) j)
               (Some "after_expiry_commit"))
    end
  end.
Definition expire_unreserved (env : Env) (w : string) (now : Z) (j : journal) : (bool + Degraded) * journal :=
  transact env "expire" (inr (store_unavailable (Some w))) (expire_body w now) j.

(** ** Publication *)
Definition outbox_applied (at_ : string) (count : Z → Z) (o : outbox_row) : outbox_row :=
  {| ob_operation := ob_operation o; ob_target_status := ob_target_status o; ob_source_status := ob_source_status o;
     ob_payload_json := ob_payload_json o; ob_payload_sha256 := ob_payload_sha256 o; ob_state := "applied";
     ob_attempt_count := count (ob_attempt_count o); ob_last_attempt_at := Some at_; ob_created_at := ob_created_at o;
     ob_applied_at := Some at_; ob_blocked_code := None |}.
Definition outbox_blocked (at_ code : string) (o : outbox_row) : outbox_row :=
  {| ob_operation := ob_operation o; ob_target_status := ob_target_status o; ob_source_status := ob_source_status o;
     ob_payload_json := ob_payload_json o; ob_payload_sha256 := ob_payload_sha256 o; ob_state := "blocked";
     ob_attempt_count := ob_attempt_count o + 1; ob_last_attempt_at := Some at_; ob_created_at := ob_created_at o;
     ob_applied_at := ob_applied_at o; ob_blocked_code := Some code |}.
Definition update_outbox (k : string * Z) (f : outbox_row → outbox_row) (j : journal) : journal :=
  set_outbox (alter f k (record_outbox j)) j.
Definition lifecycle_applied (status : string) (revision : Z) (at_ : string) (l : lifecycle_row) : lifecycle_row :=
  {| lc_desired_status := lc_desired_status l; lc_desired_revision := lc_desired_revision l;
     lc_applied_status := Some status; lc_applied_revision := Some revision; lc_updated_at := at_ |}.
(** UPDATE wake_lifecycle ... WHERE desired_status AND desired_revision. *)
Definition apply_lifecycle (w status : string) (revision : Z) (at_ : string) (j : journal) : journal :=
  match wake_lifecycle j !! w with
  | Some l =>
    if bool_decide (lc_desired_status l = status) && (lc_desired_revision l =? revision)
    then set_lifecycle (<[w := lifecycle_applied status revision at_ l]> (wake_lifecycle j)) j
    else j
  | None => j
  end.

Definition _mark_publication_blocked (env : Env) (w code : string) (j : journal) : journal :=
  (transact env "mark_blocked" tt (λ j,
    or_raise (lease_clock env) (λ now,
    Commit tt (update_outbox (w, 1) (outbox_blocked (_format_time now) code) j) None)) j).2.

(** inspect, and apply when the record is missing: [ensure_record] is the part
    both publications share. *)
Definition ensure_record (p : P) (payload sha : string) (reapply : bool) : outcome * P :=
  let '(o, p) := inspect p payload sha in
  match o with
  | Missing =>
    let '(o, p) := apply p payload sha in
    match o with Applied => inspect p payload sha | _ => (o, p) end
  | Applied => if reapply then apply p payload sha else (Applied, p)
  | _ => (o, p)
  end.

Definition publishable_state (s : string) : bool := bool_decide (s ∈ ["prepared"; "published"]).

(** What the first read of [_complete_registration_publication] decides. *)
Inductive registration_read :=
| ReadStop (r : ArmResult)
| ReadPublish (payload_json payload_sha256 : string).
Definition read_registration (w : string) (j : journal) : registration_read :=
  let unavailable := ReadStop (ArmDegraded (store_unavailable (Some w))) in
  match arms j !! w, record_outbox j !! (w, 1), wake_lifecycle j !! w with
  | Some arm, Some outbox, Some lifecycle =>
    if negb (publishable_state (row_state arm)) then ReadStop (ArmDegraded (degraded (Some w) "ARM_NOT_PUBLISHED"))
    else if negb (bool_decide (lc_desired_status lifecycle = "pending")) || negb (lc_desired_revision lifecycle =? 1)
    then
      if bool_decide (row_state arm = "published") && bool_decide (ob_state outbox = "applied")
      then match _armed_from_row arm with Some a => ReadStop (ArmDone a) | None => unavailable end
      else ReadStop (ArmDegraded (degraded (Some w) "ARM_NOT_PUBLISHED"))
    else ReadPublish (ob_payload_json outbox) (ob_payload_sha256 outbox)
  | _, _, _ => ReadStop (ArmInvalid (invalid (Some w) "ARM_STATE_UNAVAILABLE"))
  end.

Definition publish_registration_body (env : Env) (w : string) (capable : bool) (j : journal) : tx ArmResult :=
  match arms j !! w with
  | None => Rollback (ArmDegraded (degraded (Some w) "READER_CAPABILITY_UNAVAILABLE"))
  | Some arm =>
    if negb (publishable_state (row_state arm)) || negb capable
    then Rollback (ArmDegraded (degraded (Some w) "READER_CAPABILITY_UNAVAILABLE"))
    else or_raise (lease_clock env) (λ now,
      let at_ := _format_time now in
      let j := update_outbox (w, 1) (outbox_applied at_ (λ n, n + 1)) j in
      let j := apply_lifecycle w "pending" 1 at_ j in
      let arm := arm_published at_ arm in
      let j := set_arms (<[w := arm]> (arms j)) j in
      Commit (match _armed_from_row arm with
              | Some a => ArmDone a
              | None => ArmDegraded (store_unavailable (Some w))
              end) j (Some "after_published_commit"))
  end.

(** [capability_code() is not None] after the arm was found publishable. *)
Definition recheck (p : P) (needed : bool) : bool * P :=
  if needed then let '(code, p) := capability_code p in (bool_decide (code = None), p) else (true, p).

Definition _complete_registration_publication (env : Env) (pub : option P) (w : string) (j : journal) :
    ArmResult * journal * option P :=
  match pub with
  | None => (ArmDegraded (degraded (Some w) "WAKE_RECORD_PUBLISHER_UNAVAILABLE"), j, pub)
  | Some p =>
    match capability_code p with
    | (Some code, p) => (ArmDegraded (degraded (Some w) code), j, Some p)
    | (None, p) =>
      if fails env "publish_read:begin" then (ArmDegraded (store_unavailable (Some w)), j, Some p)
      else match read_registration w j with
      | ReadStop r => (r, j, Some p)
      | ReadPublish payload sha =>
        match ensure_record p payload sha false with
        | (Applied, p) =>
          let '(capable, p) := recheck p (match arms j !! w with Some a => publishable_state (row_state a) | None => false end) in
          let '(r, j) := transact env "publish" (ArmDegraded (store_unavailable (Some w)))
                           (publish_registration_body env w capable) j in
          (r, j, Some p)
        | (o, p) =>
          let code := match o with Conflict => "WAKE_RECORD_CONFLICT" | _ => "WAKE_RECORD_PUBLICATION_FAILED" end in
          (ArmDegraded (degraded (Some w) code), _mark_publication_blocked env w code j, Some p)
        end
      end
    end
  end.

(** The join both reads of [_complete_match_publication] make: the outbox row,
    when firing it is still authorised. *)
Definition firing_authority (w : string) (revision : Z) (j : journal) : option outbox_row :=
  match arms j !! w, wake_lifecycle j !! w, record_outbox j !! (w, revision), match_reservations j !! w with
  | Some arm, Some l, Some o, Some _ =>
    if bool_decide (row_state arm = "published") && bool_decide (lc_desired_status l = "firing") &&
       (lc_desired_revision l =? revision) &&
       negb match lc_applied_status l with Some s => bool_decide (s ∈ terminal_statuses) | None => false end &&
       negb (existsb (λ kt, bool_decide (ts_wake_id kt.2 = w)) (map_to_list (registration_tombstones j)))
    then Some o else None
  | _, _, _, _ => None
  end.

Definition match_publication_body (env : Env) (w : string) (revision : Z) (sha : string) (capable : bool) (j : journal) :
    tx (unit + Degraded) :=
  match firing_authority w revision j with
  | Some o =>
    if negb (bool_decide (ob_payload_sha256 o = sha)) || negb capable
    then Rollback (inr (degraded (Some w) "FIRING_AUTHORITY_UNAVAILABLE"))
    else or_raise (lease_clock env) (λ now,
      let at_ := _format_time now in
      let j := update_outbox (w, revision)
                 (outbox_applied at_ (λ n, if bool_decide (ob_state o = "applied") then n else n + 1)) j in
      Commit (inl tt) (apply_lifecycle w "firing" revision at_ j) None)
  | None => Rollback (inr (degraded (Some w) "FIRING_AUTHORITY_UNAVAILABLE"))
  end.

Definition _complete_match_publication (env : Env) (pub : option P) (w : string) (revision : Z) (j : journal) :
    (unit + Degraded) * journal * option P :=
  match pub with
  | None => (inr (degraded (Some w) "READER_CAPABILITY_UNAVAILABLE"), j, pub)
  | Some p =>
    match capability_code p with
    | (Some _, p) => (inr (degraded (Some w) "READER_CAPABILITY_UNAVAILABLE"), j, Some p)
    | (None, p) =>
      if fails env "match_read:begin" then (inr (store_unavailable (Some w)), j, Some p)
      else match firing_authority w revision j with
      | None => (inr (degraded (Some w) "FIRING_AUTHORITY_UNAVAILABLE"), j, Some p)
      | Some row =>
        let payload := ob_payload_json row in
        let sha := ob_payload_sha256 row in
        match ensure_record p payload sha true with
        | (Applied, p) =>
          match capability_code p with
          | (Some _, p) => (inr (degraded (Some w) "WAKE_RECORD_PUBLICATION_FAILED"), j, Some p)
          | (None, p) =>
            let '(capable, p) := recheck p match firing_authority w revision j with
              | Some o => bool_decide (ob_payload_sha256 o = sha) | None => false end in
            let '(r, j) := transact env "match_publish" (inr (store_unavailable (Some w)))
                             (match_publication_body env w revision sha capable) j in
            (r, j, Some p)
          end
        | (_, p) => (inr (degraded (Some w) "WAKE_RECORD_PUBLICATION_FAILED"), j, Some p)
        end
      end
    end
  end.

(** [reconcile_match_publication]: the latest revision above 1. *)
Definition outbox_revisions (w : string) (j : journal) : list Z :=
  (λ ko : string * Z * outbox_row, ko.1.2) <$>
    filter (λ ko : string * Z * outbox_row, bool_decide (ko.1.1 = w) && (1 <? ko.1.2) = true) (map_to_list (record_outbox j)).
Definition reconcile_match_publication (env : Env) (pub : option P) (w : string) (j : journal) :
    (unit + Degraded) * journal * option P :=
  if fails env "match_select:begin" then (inr (store_unavailable (Some w)), j, pub)
  else match outbox_revisions w j with
  | [] => (inr (degraded (Some w) "FIRING_AUTHORITY_UNAVAILABLE"), j, pub)
  | r :: rs => _complete_match_publication env pub w (foldr Z.max r rs) j
  end.

Definition arm_order_le (a b : arm_row) : Prop :=
  text_pair_le (row_registered_at a, row_wake_id a) (row_registered_at b, row_wake_id b) = true.
#[export] Instance arm_order_le_dec a b : Decision (arm_order_le a b) := bool_eq_dec _ _.
Definition outbox_key_le (a b : string * Z * outbox_row) : bool :=
  match String.compare (ob_created_at a.2) (ob_created_at b.2) with
  | Lt => true
  | Gt => false
  | Datatypes.Eq =>
    match String.compare a.1.1 b.1.1 with Lt => true | Gt => false | Datatypes.Eq => a.1.2 <=? b.1.2 end
  end.
Definition outbox_order_le (a b : string * Z * outbox_row) : Prop := outbox_key_le a b = true.
#[export] Instance outbox_order_le_dec a b : Decision (outbox_order_le a b) := bool_eq_dec _ _.

Fixpoint publish_each (env : Env) (ws : list string) (applied : Z) (j : journal) (pub : option P) : Z * journal * option P :=
  match ws with
  | [] => (applied, j, pub)
  | w :: ws =>
    let '(r, j, pub) := _complete_registration_publication env pub w j in
    publish_each env ws (match r with ArmDone _ => applied + 1 | _ => applied end) j pub
  end.
Fixpoint publish_matches (env : Env) (ks : list (string * Z)) (applied : Z) (j : journal) (pub : option P) : Z * journal * option P :=
  match ks with
  | [] => (applied, j, pub)
  | (w, revision) :: ks =>
    let '(r, j, pub) := _complete_match_publication env pub w revision j in
    publish_matches env ks (match r with inl _ => applied + 1 | inr _ => applied end) j pub
  end.
Definition reconcile_publications (env : Env) (pub : option P) (limit : Z) (include_matches : bool) (j : journal) :
    (Z + Degraded) * journal * option P :=
  if limit <=? 0 then (inr (degraded None "INVALID_PUBLICATION_LIMIT"), j, pub)
  else if fails env "reconcile_arms:begin" then (inr (store_unavailable None), j, pub)
  else
    let rows := take (Z.to_nat limit) (merge_sort arm_order_le
      (filter (λ r, publishable_state (row_state r) = true) (snd <$> map_to_list (arms j)))) in
    let '(applied, j, pub) := publish_each env (row_wake_id <$> rows) 0 j pub in
    if negb include_matches then (inl applied, j, pub)
    else if fails env "reconcile_matches:begin" then (inr (store_unavailable None), j, pub)
    else
      let matches := take (Z.to_nat (0 `max` (limit - applied))) (merge_sort outbox_order_le
        (filter (λ ko : string * Z * outbox_row, (1 <? ko.1.2) = true) (map_to_list (record_outbox j)))) in
      let '(applied, j, pub) := publish_matches env (fst <$> matches) applied j pub in
      (inl applied, j, pub).

(** ** arm *)
(** What the first transaction decides. *)
Inductive preparation :=
| PrepStop (r : ArmResult)
| PrepPublish (w : string)
| PrepGo (w arm_id : string) (generation : Z).

Definition with_retry (w : string) (code : string) (t : Z) : Degraded :=
  {| degraded_wake_id := Some w; degraded_code := code; retry_at := Some t; degraded_evidence_ref := None |}.

(** Whether an unfinished preparation is still held by its preparer; [None] is
    an exception. *)
Definition preparation_held (row : arm_row) (lease_now : Z) : option (option Z) :=
  expires ← (if truthy (row_preparation_expires_at row)
             then text ← row_preparation_expires_at row; t ← _parse_time text; Some (Some t)
             else Some None);
  Some match expires with
       | Some t => if truthy (row_preparer_token row) && (lease_now <? t) then Some t else None
       | None => None
       end.

Definition new_arm_row {A} (arm_id w spec_json resume_json owner lease_expires : string) (sp : SignalRequest)
    (context : ArmContext A) : arm_row :=
  {| row_arm_id := arm_id; row_wake_id := w; row_idempotency_key := idempotency_key context;
     row_intent_fingerprint := intent_fingerprint context; row_state := "preparing"; row_source := spec_source sp;
     row_source_instance := spec_source_instance sp; row_kind := spec_kind sp; row_subject := spec_subject sp;
     row_spec_json := spec_json; row_resume_json := resume_json;
     row_registered_at := _format_time (context_registered_at context);
     row_expires_at := _format_time <$> context_expires_at context; row_local_after_sequence := None;
     row_source_anchor := None; row_baseline_json := None; row_recovery := None; row_preparer_token := Some owner;
     row_preparation_expires_at := Some lease_expires; row_prepared_at := None; row_published_at := None |}.
(** INSERT INTO arms: PRIMARY KEY and UNIQUE constraints, or an exception. *)
Definition insert_arm (r : arm_row) (j : journal) : option journal :=
  if bool_decide (is_Some (arms j !! row_wake_id r)) || bool_decide (is_Some (find_arm_by_id j (row_arm_id r))) ||
     bool_decide (is_Some (find_arm_by_key j (row_idempotency_key r)))
  then None else Some (set_arms (<[row_wake_id r := r]> (arms j)) j).

(** The part of the first transaction after the registration checks: the
    source's contract, its lease, and the preparing row. *)
Definition take_lease {A} (env : Env) (lease_now : Z) (c : SourceContract) (contract_json spec_json resume_json : string)
    (sp : SignalRequest) (context : ArmContext A) (existing : option arm_row) (w arm_id : string) (j : journal) :
    tx preparation :=
  let key := (contract_source c, contract_source_instance c) in
  if match source_instances j !! key with
     | Some i => negb (bool_decide (si_contract_fingerprint i = _fingerprint contract_json)) | None => false end
  then Rollback (PrepStop (ArmInvalid (invalid (Some w) "SOURCE_CONTRACT_CONFLICT")))
  else
    let j := set_source_instances (insert_new key {| si_contract_json := contract_json;
      si_contract_fingerprint := _fingerprint contract_json;
      si_created_at := _format_time (context_registered_at context) |} (source_instances j)) j in
    let state := default state_default (source_state j !! key) in
    or_raise (live_lease state (Some lease_now)) (λ lease,
    match lease with
    | Some t => Rollback (PrepStop (ArmDegraded (with_retry w "SOURCE_BUSY" t)))
    | None =>
      let lease_expires := _format_time (lease_now + source_lease_seconds env * us_second) in
      let generation := ss_lease_generation state + 1 in
      let j := set_source_state (<[key := with_lease (Some (owner env)) generation (Some lease_expires) state]>
                 (source_state j)) j in
      or_raise (match existing with
                | None => insert_arm (new_arm_row arm_id w spec_json resume_json (owner env) lease_expires sp context) j
                | Some _ => Some (update_arms (λ r, bool_decide (row_arm_id r = arm_id))
                    (arm_with_preparation (Some (owner env)) (Some lease_expires)) j)
                end) (λ j, Commit (PrepGo w arm_id generation) j None)
    end).

Definition prepare_body {A} (env : Env) (lease_now : Z) (c : SourceContract) (contract_json spec_json resume_json : string)
    (w : string) (sp : SignalRequest) (context : ArmContext A) (j : journal) : tx preparation :=
  match find_arm_by_key j (idempotency_key context) with
  | None => take_lease env lease_now c contract_json spec_json resume_json sp context None w ("arm_" +:+ w) j
  | Some row =>
    let w := row_wake_id row in
    if negb (bool_decide (row_intent_fingerprint row = intent_fingerprint context))
    then Rollback (PrepStop (ArmInvalid (invalid (Some w) "IDEMPOTENCY_CONFLICT")))
    else if publishable_state (row_state row) then Rollback (PrepPublish w)
    else if bool_decide (row_state row = "tombstoned")
    then Rollback (PrepStop (ArmInvalid (invalid (Some w) "REGISTRATION_RETIRED")))
    else or_raise (preparation_held row lease_now) (λ held,
      match held with
      | Some t => Rollback (PrepStop (ArmDegraded (with_retry w "REGISTRATION_IN_PROGRESS" t)))
      | None => take_lease env lease_now c contract_json spec_json resume_json sp context (Some row) w (row_arm_id row) j
      end)
  end.

Definition release_lease (key : string * string) (owner : string) (generation : Z) (j : journal) : journal :=
  match source_state j !! key with
  | Some s =>
    if bool_decide (ss_lease_owner s = Some owner) && (ss_lease_generation s =? generation)
    then set_source_state (<[key := with_lease None generation None s]> (source_state j)) j
    else j
  | None => j
  end.
Definition release_preparation_body (arm_id : string) (key : string * string) (owner : string) (generation : Z)
    (j : journal) : tx bool :=
  let j := update_arms (λ r, bool_decide (row_arm_id r = arm_id) && bool_decide (row_preparer_token r = Some owner))
             (arm_with_preparation None None) j in
  Commit true (release_lease key owner generation j) None.
Definition _release_preparation (env : Env) (arm_id : string) (key : string * string) (generation : Z) (j : journal) : journal :=
  (transact env "release" false (release_preparation_body arm_id key (owner env) generation) j).2.

(** The second transaction: the anchor, moved up to the last local sequence of
    its source, becomes durable with everything a published arm needs. *)
Definition effective_anchor (a : SourceAnchor) (s : state_row) : SourceAnchor :=
  {| local_after_sequence := local_after_sequence a `max` ss_last_local_sequence s; source_anchor := source_anchor a;
     baseline := baseline a; recovery := recovery a |}.
Definition anchor_pin (w : string) (after : Z) (at_ : string) : pin_row :=
  {| pin_wake_id := w; pin_receipt_id := None; pin_min_local_sequence := Some (after + 1); pin_reason := "active_anchor";
     pin_created_at := at_; pin_released_at := None |}.
Definition finish_body {A} (env : Env) (c : SourceContract) (w arm_id : string) (generation : Z) (sp : SignalRequest)
    (context : ArmContext A) (anchor : SourceAnchor) (j : journal) : tx (unit + Degraded) :=
  let key := (contract_source c, contract_source_instance c) in
  let lost := Rollback (inr (degraded (Some w) "SOURCE_LEASE_LOST")) in
  match source_state j !! key, find_arm_by_id j arm_id with
  | Some state, Some prepared =>
    if negb (bool_decide (ss_lease_owner state = Some (owner env)) && (ss_lease_generation state =? generation) &&
             bool_decide (row_preparer_token prepared = Some (owner env)))
    then lost
    else
      let a := effective_anchor anchor state in
      let at_ := _format_time (context_registered_at context) in
      let armed := {| wake_id := w; arm_id := arm_id; spec := sp; Signals.anchor := a;
                      registered_at := context_registered_at context; expires_at := context_expires_at context;
                      publication := "prepared" |} in
      let '(payload_json, sha) := build_signal_record (resolve env) armed (context_resume context) (journal_uuid j) 1
                                    (max_attempts context) in
      let j := update_arms (λ r, bool_decide (row_arm_id r = arm_id)) (arm_anchored a at_) j in
      let j := set_progress (insert_new w {| pr_scanned_through_sequence := local_after_sequence a; pr_revision := 0;
                 pr_updated_at := at_ |} (evaluation_progress j)) j in
      let j := set_pins (insert_new ("anchor:" +:+ w) (anchor_pin w (local_after_sequence a) at_) (retention_pins j)) j in
      let j := set_lifecycle (insert_new w {| lc_desired_status := "pending"; lc_desired_revision := 1;
                 lc_applied_status := None; lc_applied_revision := None; lc_updated_at := at_ |} (wake_lifecycle j)) j in
      let j := set_outbox (insert_new (w, 1) {| ob_operation := "put"; ob_target_status := Some "pending";
                 ob_source_status := None; ob_payload_json := payload_json; ob_payload_sha256 := sha;
                 ob_state := "pending"; ob_attempt_count := 0; ob_last_attempt_at := None; ob_created_at := at_;
                 ob_applied_at := None; ob_blocked_code := None |} (record_outbox j)) j in
      Commit (inl tt) (release_lease key (owner env) generation j) (Some "after_prepared_commit")
  | _, _ => lost
  end.

(** [arm]; the journal and the publisher are threaded through its steps. *)
Definition arm {A} `{SignalSourceAdapter A} (env : Env) (pub : option P) (w : string) (sp : SignalRequest)
    (context : ArmContext A) (j : journal) : ArmResult * journal * option P * A :=
  let a0 := adapter context in
  let stop r := (r, j, pub, a0) in
  match contract a0 with
  | Raised _ => stop (ArmDegraded (degraded (Some w) "SOURCE_UNAVAILABLE"))
  | Done c =>
    match _validate_signal sp c with
    | Some i => stop (ArmInvalid i)
    | None =>
      match _contract_payload c with
      | None => stop (ArmInvalid (invalid (Some w) "INVALID_SIGNAL"))
      | Some contract_payload =>
        match lease_clock env with
        | None => stop (ArmDegraded (store_unavailable (Some w)))
        | Some lease_now =>
          let key := (contract_source c, contract_source_instance c) in
          match transact env "arm" (PrepStop (ArmDegraded (store_unavailable (Some w))))
                  (prepare_body env lease_now c (_canonical_json contract_payload) (_canonical_json (_spec_payload sp))
                    (_canonical_json (_resume_payload (context_resume context))) w sp context) j with
          | (PrepStop r, j) => (r, j, pub, a0)
          | (PrepPublish w', j) =>
            let '(r, j, pub) := _complete_registration_publication env pub w' j in (r, j, pub, a0)
          | (PrepGo w arm_id generation, j) =>
            let released j := _release_preparation env arm_id key generation j in
            match establish_anchor a0 sp (context_registered_at context) with
            | (Raised _, a) => (ArmDegraded (degraded (Some w) "SOURCE_UNAVAILABLE"), released j, pub, a)
            | (Done (AnchorDegraded d), a) =>
              (ArmDegraded {| degraded_wake_id := Some w; degraded_code := degraded_code d; retry_at := retry_at d;
                 degraded_evidence_ref := degraded_evidence_ref d |}, released j, pub, a)
            | (Done (AnchorInvalid i), a) => (ArmInvalid i, released j, pub, a)
            | (Done (AnchorDone anchor), a) =>
              match _validate_occurrence_anchor c sp anchor with
              | Some i => (ArmInvalid i, released j, pub, a)
              | None =>
                match transact env "finish" (inr (store_unavailable (Some w)))
                        (finish_body env c w arm_id generation sp context anchor) j with
                | (inr d, j) => (ArmDegraded d, j, pub, a)
                | (inl _, j) =>
                  let '(r, j, pub) := _complete_registration_publication env pub w j in (r, j, pub, a)
                end
              end
            end
          end
        end
      end
    end
  end.
End WithPublisher.

(** ** Reads *)
Definition load_armed_signal (env : Env) (w : string) (j : journal) : option ArmedSignal :=
  if fails env "load:begin" then None
  else row ← arms j !! w; if bool_decide (row_state row = "published") then _armed_from_row row else None.

Definition authorize_row (decoded : json) (w : string) (revision : Z) (j : journal) : option bool :=
  match arms j !! w, match_reservations j !! w, wake_lifecycle j !! w, record_outbox j !! (w, revision) with
  | Some arm, Some m, Some l, Some o =>
    expected ← loads (ob_payload_json o);
    Some (bool_decide (row_state arm = "published") && json_py_eqb decoded expected &&
      bool_decide (field "arm_id" decoded = Some (JStr (row_arm_id arm))) &&
      bool_decide (field "journal_uuid" decoded = Some (JStr (journal_uuid j))) &&
      bool_decide (lc_desired_status l = "firing") && (lc_desired_revision l =? revision) &&
      bool_decide (lc_applied_status l = Some "firing") && bool_decide (lc_applied_revision l = Some revision) &&
      bool_decide (ob_state o = "applied") &&
      match field "trigger_match" decoded, field "trigger_match" expected with
      | Some (JObj t), Some t' =>
        json_py_eqb (JObj t) t' && bool_decide (dict_get "match_token" t = Some (JStr (mr_match_token m)))
      | _, _ => false
      end)
  | _, _, _, _ => Some false
  end.
(** [authorize_firing_record]; decoding happens before the exception handler. *)
Definition authorize_firing_record (env : Env) (record : json) (j : journal) : result string bool :=
  match decode_signal_record record with
  | Raised e => Raised e
  | Done None => Done false
  | Done (Some decoded) =>
    if negb (bool_decide (str_field "status" decoded = Some "firing")) then Done false
    else if fails env "authorize:begin" then Done false
    else match str_field "id" decoded, int_field "record_revision" decoded with
    | Some w, Some revision => Done (default false (authorize_row decoded w revision j))
    | _, _ => Done false
    end
  end.

Definition tombstone_of (w : string) (j : journal) : option tombstone_row :=
  List.find (λ t, bool_decide (ts_wake_id t = w)) (snd <$> map_to_list (registration_tombstones j)).
Definition terminal_status (env : Env) (w : string) (j : journal) : option string :=
  if fails env "terminal:begin" then None else ts_terminal_status <$> tombstone_of w j.

(** A record may be cleaned up when its wake is tombstoned and unpinned. *)
Definition live_pins_of (w : string) (j : journal) : list pin_row :=
  filter (λ p, bool_decide (pin_wake_id p = w) && pin_live p = true) (snd <$> map_to_list (retention_pins j)).
Definition cleanup_allowed (env : Env) (record : json) (j : journal) : result string bool :=
  match decode_signal_record record with
  | Raised e => Raised e
  | Done None => Done false
  | Done (Some decoded) =>
    if negb (bool_decide (str_field "status" decoded = Some "archived")) then Done false
    else if fails env "cleanup:begin" then Done false
    else match str_field "id" decoded with
    | None => Done false
    | Some w =>
      Done (match arms j !! w with Some arm => bool_decide (row_state arm = "tombstoned") | None => false end &&
            bool_decide (is_Some (tombstone_of w j)) && bool_decide (live_pins_of w j = []))
    end
  end.

Inductive checkpoint_read := CheckpointNone | CheckpointDone (c : SourceCommit) | CheckpointDegraded (d : Degraded).
Definition source_checkpoint (env : Env) (source source_instance : string) (j : journal) : checkpoint_read :=
  if fails env "checkpoint:begin" then CheckpointDegraded (store_unavailable None)
  else match source_state j !! (source, source_instance) with
  | None => CheckpointNone
  | Some s =>
    match ss_checkpoint s, ss_checkpoint_order s, ss_observed_through s with
    | None, None, None => CheckpointNone
    | Some cp, Some order, Some through =>
      match _parse_time through with
      | Some t => CheckpointDone {| commit_source := source; commit_source_instance := source_instance;
                    checkpoint := cp; checkpoint_order := order; observed_through := t |}
      | None => CheckpointDegraded (store_unavailable None)
      end
    | _, _, _ => CheckpointDegraded (degraded None "SOURCE_CHECKPOINT_INVALID")
    end
  end.
