(* ===== verification/StoreIngest.v ===== *)
(** * Ingestion into the journal

    What [SignalStore.ingest] does to the receipts: the sequences stay
    consecutive and increasing, identities stay unique, every row is the
    encoding of its observation, and a failed or rejected batch leaves the
    tables alone.  The lemmas describe the staging and insertion loops; the
    file ends with the functional contract of [ingest]. *)
From S2P Require Import Prelude Json Sha256 Datetime Signals SignalCodec SignalRecords SignalStore.
Open Scope Z_scope.

(** A row that encodes its observation. *)
Definition row_of (r : receipt_row) (o : NormalizedObservation) : Prop :=
  obs_times_ok o ∧
  r = receipt_of (rc_local_sequence r) o (_canonical_json (_observation_payload o))
        (_fingerprint (_canonical_json (_observation_payload o))).

Record receipts_inv (j : journal) : Prop := {
  ri_sorted : StronglySorted (λ a b, rc_local_sequence a < rc_local_sequence b) (receipts j);
  ri_range : Forall (λ r, 1 ≤ rc_local_sequence r < next_sequence j) (receipts j);
  ri_rows : Forall (λ r, ∃ o, row_of r o) (receipts j);
  ri_identity : NoDup (rc_identity <$> receipts j);
  ri_next : 1 ≤ next_sequence j;
  ri_last : map_Forall (λ _ s, 0 ≤ ss_last_local_sequence s < next_sequence j) (source_state j);
}.

Lemma receipts_init uuid at_ : receipts_inv (journal_init uuid at_).
Proof. split; simpl; try constructor; try done. Qed.

Lemma row_observation r o : row_of r o → _observation_from_json (rc_observation_json r) = Some o.
Proof. intros [Ht ->]. simpl. by apply observation_round_trip. Qed.
Lemma row_identity r o : row_of r o → rc_identity r = _identity o.
Proof. by intros [_ ->]. Qed.

(** *** find *)
Lemma find_receipt_Some j i r : find_receipt j i = Some r → r ∈ receipts j ∧ rc_identity r = i.
Proof.
  intros [Hin Hi]%List.find_some. split; [by apply list_elem_of_In|]. by apply bool_decide_eq_true in Hi.
Qed.
Lemma find_receipt_None j i : find_receipt j i = None ↔ i ∉ rc_identity <$> receipts j.
Proof.
  unfold find_receipt. split.
  - intros Hnone Hin. apply list_elem_of_fmap in Hin as (r & -> & Hin%list_elem_of_In).
    pose proof (List.find_none _ _ Hnone r Hin) as Hd. simpl in Hd.
    by rewrite bool_decide_true in Hd.
  - intros Hni. destruct (List.find _ _) as [r|] eqn:Hf; [|done]. destruct Hni.
    apply List.find_some in Hf as [Hin%list_elem_of_In Hi%bool_decide_eq_true]. subst i.
    by apply list_elem_of_fmap_2.
Qed.
Lemma find_receipt_elem j r : NoDup (rc_identity <$> receipts j) → r ∈ receipts j →
  find_receipt j (rc_identity r) = Some r.
Proof.
  intros Hnd Hin. destruct (find_receipt j (rc_identity r)) as [r'|] eqn:Hf.
  - apply find_receipt_Some in Hf as [Hin' Hi]. f_equal. 
    apply list_elem_of_lookup_1 in Hin as [a Ha], Hin' as [b Hb].
    assert (a = b) as ->; [|congruence].
    eapply (NoDup_lookup (rc_identity <$> receipts j) a b (rc_identity r)); [done|..];
      rewrite list_lookup_fmap, ?Ha, ?Hb; simpl; by rewrite ?Hi.
  - apply find_receipt_None in Hf. destruct Hf. by apply list_elem_of_fmap_2.
Qed.
Lemma find_receipt_snoc j r i : rc_identity r ∉ rc_identity <$> receipts j →
  find_receipt (set_receipts (receipts j ++ [r]) j) i =
    if decide (i = rc_identity r) then Some r else find_receipt j i.
Proof.
  intros Hni. unfold find_receipt. simpl. case_decide as Hi.
  - subst i. induction (receipts j) as [|r0 rs IH]; simpl; [by rewrite bool_decide_true|].
    rewrite fmap_cons, not_elem_of_cons in Hni. destruct Hni as [Hne Hni].
    rewrite bool_decide_false by done. by apply IH.
  - clear Hni. induction (receipts j) as [|r0 rs IH]; simpl; [by rewrite bool_decide_false|]. by rewrite IH.
Qed.

(** *** Staging *)
Definition encoded (o : NormalizedObservation) : NormalizedObservation * string * string :=
  (o, _canonical_json (_observation_payload o), _fingerprint (_canonical_json (_observation_payload o))).
Definition fingerprint_of (o : NormalizedObservation) : string :=
  _fingerprint (_canonical_json (_observation_payload o)).

Lemma journal_stage_step j c staged o staged' :
  stage_observation j c staged o = inr staged' ↔
  _validate_observation o c = None ∧
  (∀ o' p f, dict_get (_identity o) staged = Some (o', p, f) → f = fingerprint_of o) ∧
  (∀ r, find_receipt j (_identity o) = Some r → rc_content_fingerprint r = fingerprint_of o) ∧
  staged' = dict_set (_identity o) (encoded o) staged.
Proof.
  unfold stage_observation, encoded, fingerprint_of.
  destruct (_validate_observation o c); [by split; [|intros [? _]]|].
  destruct (dict_get (_identity o) staged) as [[[o' p] f]|] eqn:Hd.
  - destruct (bool_decide (f = _)) eqn:Hf; [apply bool_decide_eq_true in Hf|apply bool_decide_eq_false in Hf]; cbn [negb].
    2: { split; [done|]. intros (_ & H & _). by destruct Hf; eapply H. }
    destruct (find_receipt j (_identity o)) as [r|] eqn:Hr.
    + destruct (bool_decide (rc_content_fingerprint r = _)) eqn:Hfr;
        [apply bool_decide_eq_true in Hfr|apply bool_decide_eq_false in Hfr]; cbn [negb].
      * split; [intros [= <-]; split_and!; try done; by intros; simplify_eq|by intros (_ & _ & _ & ->)].
      * split; [done|]. intros (_ & _ & H & _). by destruct Hfr; apply H.
    + split; [intros [= <-]; split_and!; try done; by intros; simplify_eq|by intros (_ & _ & _ & ->)].
  - destruct (find_receipt j (_identity o)) as [r|] eqn:Hr.
    + destruct (bool_decide (rc_content_fingerprint r = _)) eqn:Hfr;
        [apply bool_decide_eq_true in Hfr|apply bool_decide_eq_false in Hfr]; cbn [negb].
      * split; [intros [= <-]; split_and!; try done; by intros; simplify_eq|by intros (_ & _ & _ & ->)].
      * split; [done|]. intros (_ & _ & H & _). by destruct Hfr; apply H.
    + split; [intros [= <-]; split_and!; done|by intros (_ & _ & _ & ->)].
Qed.

(** What is staged are the encodings of observations of the batch, each under
    its identity. *)
Definition staged_ok (c : SourceContract) (staged : staging) : Prop :=
  NoDup (dict_keys staged) ∧
  ∀ i e, (i, e) ∈ staged → ∃ o, e = encoded o ∧ i = _identity o ∧ obs_times_ok o ∧ _validate_observation o c = None.

Lemma journal_stage_ok j c staged obs staged' : Forall obs_times_ok obs →
  stage j c staged obs = inr staged' → staged_ok c staged → staged_ok c staged'.
Proof.
  intros Hobs. revert staged. induction Hobs as [|o obs Ho _ IH]; simpl; intros staged Hst Hok; [by simplify_eq|].
  destruct (stage_observation j c staged o) as [|s1] eqn:Hs; [done|].
  apply journal_stage_step in Hs as (Hv & _ & _ & ->). apply (IH _ Hst). destruct Hok as [Hnd Hok]. split.
  - by apply dict_keys_set_NoDup.
  - intros i e [[= -> ->]|Hin]%dict_set_elem; [by exists o|by apply Hok].
Qed.

(** *** Insertion *)
Lemma event_id_inj n m : 0 ≤ n → 0 ≤ m → event_id n = event_id m → n = m.
Proof.
  intros Hn Hm Heq. apply (zero_pad_inj 12); [done|done|]. unfold event_id in Heq.
  rewrite !app_cons, !app_empty in Heq. by injection Heq.
Qed.

Fixpoint new_rows (n : Z) (items : staging) : list receipt_row :=
  match items with
  | [] => []
  | (_, (o, p, f)) :: items => receipt_of n o p f :: new_rows (n + 1) items
  end.
Fixpoint new_refs (n : Z) (items : staging) : list (occurrence * ReceiptRef) :=
  match items with
  | [] => []
  | (i, _) :: items =>
    (i, {| receipt_id := event_id n; local_sequence := n; duplicate := false |}) :: new_refs (n + 1) items
  end.
Definition fresh_items (j : journal) (items : staging) : staging :=
  filter (λ item, item.1 ∉ rc_identity <$> receipts j) items.

Lemma fresh_items_cons j i e items :
  fresh_items j ((i, e) :: items) =
    if decide (i ∈ rc_identity <$> receipts j) then fresh_items j items else (i, e) :: fresh_items j items.
Proof. unfold fresh_items. rewrite filter_cons. simpl. repeat case_decide; tauto. Qed.

(** The tables an insertion needs. *)
Definition insertable (c : SourceContract) (j : journal) (next : Z) : Prop :=
  0 ≤ next ∧ Forall (λ r, 0 ≤ rc_local_sequence r < next ∧ rc_receipt_id r = event_id (rc_local_sequence r)) (receipts j) ∧
  is_Some (source_instances j !! (contract_source c, contract_source_instance c)).

Lemma existsb_false {A} (f : A → bool) l : existsb f l = false ↔ Forall (λ x, f x = false) l.
Proof.
  rewrite <- not_true_iff_false, existsb_exists, Forall_forall. setoid_rewrite <- list_elem_of_In. split.
  - intros H x Hin. apply not_true_iff_false. eauto.
  - intros H (x & Hin & Hx). rewrite H in Hx; done.
Qed.

Lemma validated o c : _validate_observation o c = None →
  (obs_source o, obs_source_instance o) = (contract_source c, contract_source_instance c) ∧
  verification_state (verification o) ∈ ["verified"; "pending"; "rejected"].
Proof.
  unfold _validate_observation. destruct (observation_outside o c) eqn:Ho; [done|]. intros _.
  unfold observation_outside in Ho. rewrite !orb_false_iff, !negb_false_iff, !bool_decide_eq_true in Ho.
  destruct Ho as [[[[[[[-> ->] _] _] _] _] Hv] _]. done.
Qed.

Lemma insert_receipt_ok c j next o : insertable c j next → _validate_observation o c = None →
  _identity o ∉ rc_identity <$> receipts j →
  let r := receipt_of next o (_canonical_json (_observation_payload o)) (fingerprint_of o) in
  insert_receipt r j = Some (set_receipts (receipts j ++ [r]) j) ∧
  insertable c (set_receipts (receipts j ++ [r]) j) (next + 1).
Proof.
  intros (Hn & Hall & Hinst) Hv Hni r. apply validated in Hv as [Hsrc Hver]. split.
  - unfold insert_receipt. simpl. rewrite Hsrc, (bool_decide_true (is_Some _)), (bool_decide_true (_ ∈ _)) by done.
    simpl. rewrite !orb_false_r.
    assert (existsb (λ r', bool_decide (rc_local_sequence r' = next) || bool_decide (rc_receipt_id r' = event_id next) ||
      bool_decide (rc_identity r' = rc_identity r)) (receipts j) = false) as ->; [|done].
    apply existsb_false, Forall_forall. intros r' Hin. rewrite Forall_forall in Hall.
    destruct (Hall r' Hin) as [Hlt Hid]. rewrite !bool_decide_false; [done| | |lia].
    + intros Hi. apply Hni. change (_identity o) with (rc_identity r). rewrite <- Hi. by apply list_elem_of_fmap_2.
    + rewrite Hid. intros Heq%event_id_inj; lia.
  - split_and!; simpl; [lia| |done]. apply Forall_app. split.
    + eapply Forall_impl; [exact Hall|]. simpl. intros r' [? ?]. split; [lia|done].
    + constructor; [|done]. simpl. split; [lia|done].
Qed.

Lemma dict_keys_elem {V} i (e : V) (l : list (occurrence * V)) : (i, e) ∈ l → i ∈ dict_keys l.
Proof. intros. apply list_elem_of_fmap. by exists (i, e). Qed.

Lemma insert_staged_ok c j next inserted items : insertable c j next → staged_ok c items →
  (∀ i, i ∈ dict_keys items → i ∉ dict_keys inserted) →
  insert_staged j next inserted items =
    Some (set_receipts (receipts j ++ new_rows next (fresh_items j items)) j,
          next + Z.of_nat (length (fresh_items j items)), inserted ++ new_refs next (fresh_items j items)).
Proof.
  revert j next inserted. induction items as [|[i e] items IH]; intros j next inserted Hins [Hnd Hok] Hdis.
  { simpl. rewrite !app_nil_r. destruct j. simpl. by rewrite Z.add_0_r. }
  destruct (Hok i e ltac:(by left)) as (o & -> & -> & Ht & Hv).
  rewrite dict_keys_cons in Hnd. apply NoDup_cons in Hnd as [Hi Hnd].
  assert (staged_ok c items) as Hok' by (split; [done|]; intros; apply Hok; by right).
  assert (∀ i, i ∈ dict_keys items → i ∉ dict_keys inserted) as Hdis'.
  { intros i' Hin. apply Hdis. rewrite dict_keys_cons. by right. }
  rewrite fresh_items_cons. cbn [insert_staged]. unfold encoded at 1.
  destruct (find_receipt j (_identity o)) as [r|] eqn:Hf.
  - assert (_identity o ∈ rc_identity <$> receipts j) as Hin.
    { apply find_receipt_Some in Hf as [Hin Hid]. rewrite <- Hid. by apply list_elem_of_fmap_2. }
    rewrite decide_True by done. by apply IH.
  - apply find_receipt_None in Hf. rewrite decide_False by done.
    destruct (insert_receipt_ok c j next o Hins Hv Hf) as [Hr Hins']. fold (fingerprint_of o). rewrite Hr. cbn [mbind option_bind].
    assert (_identity o ∉ dict_keys inserted) as Hnin by (apply Hdis; rewrite dict_keys_cons; by left).
    rewrite dict_set_new by done. rewrite IH; [|done|done|].
    + assert (∀ items', (∀ i, i ∈ dict_keys items' → i ≠ _identity o) →
        fresh_items (set_receipts (receipts j ++ [receipt_of next o (_canonical_json (_observation_payload o))
          (fingerprint_of o)]) j) items' = fresh_items j items') as Hfr.
      { intros items' Hne. apply list_filter_ext_in. intros [i' e'] Hin. simpl. rewrite fmap_app, not_elem_of_app.
        split; [tauto|]. intros ?. split; [done|]. simpl. rewrite list_elem_of_singleton.
        by apply Hne, (dict_keys_elem _ e'). }
      rewrite Hfr by (intros i' ? ->; done). cbn [new_rows new_refs encoded length]. f_equal. f_equal; [f_equal|].
      * destruct j; simpl. unfold set_receipts. simpl. by rewrite <- app_assoc.
      * lia.
      * by rewrite <- app_assoc.
    + intros i' Hin. unfold dict_keys. rewrite fmap_app, not_elem_of_app. split; [by apply Hdis'|].
      simpl. rewrite list_elem_of_singleton. intros ->. done.
Qed.

(** *** The answers *)
Definition answers (j : journal) (old : occurrence → Prop) (ret : list occurrence)
    (obs : list NormalizedObservation) (refs : list ReceiptRef) : Prop :=
  length refs = length obs ∧
  ∀ k o, obs !! k = Some o → ∃ row dup, find_receipt j (_identity o) = Some row ∧
    refs !! k = Some {| receipt_id := rc_receipt_id row; local_sequence := rc_local_sequence row; duplicate := dup |} ∧
    (dup = true ↔ old (_identity o) ∨ _identity o ∈ ret ∨ _identity o ∈ _identity <$> take k obs).

Lemma journal_answers j inserted pre ret obs :
  (∀ o, o ∈ obs → is_Some (find_receipt j (_identity o))) →
  (∀ i ref, dict_get i inserted = Some ref → ∃ row, find_receipt j i = Some row ∧
     receipt_id ref = rc_receipt_id row ∧ local_sequence ref = rc_local_sequence row) →
  (∀ i, i ∈ pre → i ∈ ret) →
  ∃ refs, ingest_results j inserted pre ret obs = Some refs ∧
    answers j (λ i, i ∉ dict_keys inserted) ret obs refs.
Proof.
  revert pre ret. induction obs as [|o obs IH]; intros pre ret Hall Hins Hsub; [exists []; by split|].
  cbn [ingest_results]. destruct (Hall o ltac:(by left)) as [row Hrow].
  assert (∃ pre' dup, (match dict_get (_identity o) inserted, bool_decide (_identity o ∈ ret) with
      | Some r, false => Some (r, pre)
      | _, _ => stored ← find_receipt j (_identity o);
        Some ({| receipt_id := rc_receipt_id stored; local_sequence := rc_local_sequence stored; duplicate := true |},
              _identity o :: pre)
      end = Some ({| receipt_id := rc_receipt_id row; local_sequence := rc_local_sequence row; duplicate := dup |}, pre')
      ∨ ∃ ref, dict_get (_identity o) inserted = Some ref ∧ _identity o ∉ ret ∧ pre' = pre) ∧
      (∀ i, i ∈ pre' → i ∈ _identity o :: ret) ∧
      (_identity o ∈ pre' ↔ (_identity o ∉ dict_keys inserted ∨ _identity o ∈ ret)))
    as (pre' & dup & Hcase & Hsub' & Hdup).
  { destruct (dict_get (_identity o) inserted) as [ref|] eqn:Hd.
    - assert (_identity o ∈ dict_keys inserted) as Hk by (apply dict_get_elem in Hd; by eapply dict_keys_elem).
      destruct (bool_decide (_identity o ∈ ret)) eqn:Hr; [apply bool_decide_eq_true in Hr|apply bool_decide_eq_false in Hr].
      + exists (_identity o :: pre), true. split_and!; [left; by rewrite Hrow| |].
        * intros i [->|Hi]%elem_of_cons; [by left|right; by apply Hsub].
        * split; [by right|by left].
      + exists pre, false. split_and!; [right; by eexists| |].
        * intros i Hi. right. by apply Hsub.
        * split; [intros Hi; right; by apply Hsub|intros [?|?]; done].
    - apply dict_get_None in Hd. exists (_identity o :: pre), true. split_and!; [left; by rewrite Hrow| |].
      + intros i [->|Hi]%elem_of_cons; [by left|right; by apply Hsub].
      + split; [by left|by left]. }
  destruct (IH pre' (_identity o :: ret)) as (refs & Hrefs & Hlen & Hnth); [intros o' ?; apply Hall; by right|done|done|].
  exists ({| receipt_id := rc_receipt_id row; local_sequence := rc_local_sequence row;
             duplicate := bool_decide (_identity o ∈ pre') || bool_decide (_identity o ∈ ret) |} :: refs).
  split.
  - destruct Hcase as [->|(ref & Hd & Hr & ->)]; cbn [mbind option_bind]; [by rewrite Hrefs|].
    rewrite Hd, (bool_decide_false _ Hr). cbn [mbind option_bind]. rewrite Hrefs. cbn [mbind option_bind].
    destruct (Hins _ _ Hd) as (row' & Hrow' & -> & ->). assert (row' = row) as -> by congruence. done.
  - split; [simpl; by f_equal|]. intros [|k] o' Hk; simpl in Hk.
    + injection Hk as <-. eexists row, _. split_and!; [done|done|].
      rewrite orb_true_iff, !bool_decide_eq_true, Hdup. simpl. pose proof (not_elem_of_nil (_identity o)). tauto.
    + destruct (Hnth k o' Hk) as (row' & dup' & ? & ? & Hd'). exists row', dup'. split_and!; [done|done|].
      rewrite Hd'. cbn [take fmap list_fmap]. rewrite !elem_of_cons. tauto.
Qed.

(** *** The new rows *)
Lemma new_rows_seq n items : rc_local_sequence <$> new_rows n items = seqZ n (Z.of_nat (length items)).
Proof.
  revert n. induction items as [|[i [[o p] f]] items IH]; intros n; [done|].
  cbn [new_rows length]. rewrite seqZ_cons by lia. rewrite fmap_cons, IH. simpl.
  by replace (Z.pred (Z.of_nat (S (length items)))) with (Z.of_nat (length items)) by lia.
Qed.
Lemma new_rows_rows c n items : (∀ i e, (i, e) ∈ items → ∃ o, e = encoded o ∧ i = _identity o ∧
    obs_times_ok o ∧ _validate_observation o c = None) →
  Forall (λ r, ∃ o, row_of r o ∧ _validate_observation o c = None) (new_rows n items).
Proof.
  revert n. induction items as [|[i e] items IH]; intros n Hall; [constructor|].
  destruct (Hall i e ltac:(by left)) as (o & -> & -> & Ht & Hv). cbn [new_rows encoded]. constructor.
  - exists o. by split.
  - apply IH. intros i' e' Hin. apply Hall. by right.
Qed.
Lemma new_rows_identity n items : (∀ i e, (i, e) ∈ items → ∃ o, e = encoded o ∧ i = _identity o) →
  rc_identity <$> new_rows n items = dict_keys items.
Proof.
  revert n. induction items as [|[i e] items IH]; intros n Hall; [done|].
  destruct (Hall i e ltac:(by left)) as (o & -> & ->). cbn [new_rows encoded].
  rewrite fmap_cons, dict_keys_cons, IH; [done|]. intros i' e' Hin. apply Hall. by right.
Qed.
Lemma new_rows_range n items : Forall (λ r, n ≤ rc_local_sequence r < n + Z.of_nat (length items)) (new_rows n items).
Proof.
  rewrite <- (Forall_fmap rc_local_sequence (λ s, n ≤ s < n + Z.of_nat (length items))), new_rows_seq.
  apply Forall_forall. intros s Hs%elem_of_seqZ. lia.
Qed.
Lemma new_rows_sorted n items : StronglySorted (λ a b, rc_local_sequence a < rc_local_sequence b) (new_rows n items).
Proof.
  revert n. induction items as [|[i [[o p] f]] items IH]; intros n; [constructor|]. cbn [new_rows].
  constructor; [done|]. eapply Forall_impl; [apply new_rows_range|]. simpl. lia.
Qed.
Lemma new_rows_length n items : length (new_rows n items) = length items.
Proof. revert n. induction items as [|[i [[o p] f]] items IH]; intros n; [done|]. simpl. by rewrite IH. Qed.
Lemma new_refs_keys n items : dict_keys (new_refs n items) = dict_keys items.
Proof. revert n. induction items as [|[i e] items IH]; intros n; [done|]. cbn [new_refs]. by rewrite !dict_keys_cons, IH. Qed.
Lemma new_refs_row n items i ref : (∀ i e, (i, e) ∈ items → ∃ o, e = encoded o ∧ i = _identity o) →
  dict_get i (new_refs n items) = Some ref →
  ∃ row, row ∈ new_rows n items ∧ rc_identity row = i ∧ receipt_id ref = rc_receipt_id row ∧
    local_sequence ref = rc_local_sequence row.
Proof.
  revert n. induction items as [|[i0 e] items IH]; intros n Hall; [done|]. cbn [new_refs dict_get].
  destruct (Hall i0 e ltac:(by left)) as (o & -> & ->). cbn [new_rows encoded]. case_decide as Hi.
  - intros [= <-]. eexists. split; [by left|]. by subst.
  - intros Hget. destruct (IH (n + 1)) as (row & Hin & ?); [|done|].
    + intros i' e' Hin. apply Hall. by right.
    + exists row. split; [by right|done].
Qed.

(** *** One batch *)
Definition contracts_ok (j : journal) : Prop :=
  map_Forall (λ key i, ∃ c, _contract_from_json (si_contract_json i) = Some c ∧
    key = (contract_source c, contract_source_instance c)) (source_instances j).

Lemma receipts_insertable j key c : receipts_inv j → is_Some (source_instances j !! key) →
  key = (contract_source c, contract_source_instance c) → insertable c j (next_sequence j).
Proof.
  intros [Hs Hr Hrows Hid Hn _] Hi ->. split_and!; [lia| |done].
  apply Forall_forall. intros r Hin. rewrite Forall_forall in Hr, Hrows.
  destruct (Hrows r Hin) as (o & _ & Heq). specialize (Hr r Hin). split; [lia|]. by rewrite Heq.
Qed.

(** The tables after an accepted batch. *)
Definition ingested (commit : SourceCommit) (state : state_row) (fresh : staging) (j : journal) : journal :=
  let next := next_sequence j + Z.of_nat (length fresh) in
  set_source_state (<[commit_key commit := advance_source commit next state]> (source_state j))
    (set_meta next (_format_time (observed_through commit))
      (set_receipts (receipts j ++ new_rows (next_sequence j) fresh) j)).

Lemma fresh_items_sub j items x : x ∈ fresh_items j items → x ∈ items ∧ x.1 ∉ rc_identity <$> receipts j.
Proof. unfold fresh_items. rewrite list_elem_of_filter. tauto. Qed.
Lemma fresh_keys_NoDup j items : NoDup (dict_keys items) → NoDup (dict_keys (fresh_items j items)).
Proof. intros Hnd. eapply sublist_NoDup; [exact Hnd|]. apply fmap_sublist, sublist_filter. Qed.

Lemma ingested_find j commit state c staged i : receipts_inv j → staged_ok c staged →
  i ∈ rc_identity <$> receipts j ∨ i ∈ dict_keys staged →
  is_Some (find_receipt (ingested commit state (fresh_items j staged) j) i).
Proof.
  intros Hinv [Hnd Hok] Hi.
  destruct (find_receipt (ingested commit state (fresh_items j staged) j) i) as [r|] eqn:Hf; [by eexists|].
  apply find_receipt_None in Hf. destruct Hf. simpl. rewrite fmap_app, new_rows_identity.
  2: { intros i' e [Hin _]%fresh_items_sub. destruct (Hok _ _ Hin) as (o & ? & ? & _). eauto. }
  apply elem_of_app. destruct (decide (i ∈ rc_identity <$> receipts j)) as [|Hni]; [by left|right].
  destruct Hi as [|Hi]; [done|]. unfold dict_keys in *. apply list_elem_of_fmap in Hi as ([i' e] & -> & Hin).
  apply list_elem_of_fmap. exists (i', e). split; [done|]. unfold fresh_items. by apply list_elem_of_filter.
Qed.

Lemma ingested_inv j commit state c staged : receipts_inv j → staged_ok c staged →
  source_state j !! commit_key commit = Some state →
  receipts_inv (ingested commit state (fresh_items j staged) j).
Proof.
  intros [Hs Hr Hrows Hid Hn Hl] [Hnd Hok] Hst.
  assert (∀ i e, (i, e) ∈ fresh_items j staged → ∃ o, e = encoded o ∧ i = _identity o ∧ obs_times_ok o ∧
    _validate_observation o c = None) as Hfresh by (intros i e [Hin _]%fresh_items_sub; by apply Hok).
  pose proof (new_rows_range (next_sequence j) (fresh_items j staged)) as Hrange.
  split; simpl.
  - apply StronglySorted_app_2; [|done|apply new_rows_sorted]. intros a b Ha Hb.
    rewrite Forall_forall in Hr, Hrange. specialize (Hr a Ha). specialize (Hrange b Hb). lia.
  - apply Forall_app. split; eapply Forall_impl; [exact Hr| |exact Hrange|]; simpl; lia.
  - apply Forall_app. split; [done|]. eapply Forall_impl; [by eapply new_rows_rows|]. intros r (o & ? & _). by exists o.
  - rewrite fmap_app, new_rows_identity by (intros i e Hin; destruct (Hfresh i e Hin) as (o & ? & ? & _); eauto).
    apply NoDup_app. split_and!; [done| |by apply fresh_keys_NoDup].
    intros i Hin Hf. unfold dict_keys in Hf. apply list_elem_of_fmap in Hf as ([i' e] & -> & Hf).
    by apply fresh_items_sub in Hf as [_ Hf].
  - lia.
  - apply map_Forall_insert_2.
    + pose proof (Hl _ _ Hst) as Hlast. simpl in *. lia.
    + eapply map_Forall_impl; [exact Hl|]. intros k s. simpl. lia.
Qed.

Lemma stage_covers_batch j c staged obs staged' o : stage j c staged obs = inr staged' → o ∈ obs →
  _identity o ∈ dict_keys staged'.
Proof.
  assert (∀ st st' l i, stage j c st l = inr st' → i ∈ dict_keys st → i ∈ dict_keys st') as Hkeep.
  { intros st st' l i. revert st. induction l as [|o0 l IH]; simpl; intros st Hst Hi; [by simplify_eq|].
    destruct (stage_observation j c st o0) as [|s1] eqn:Hs; [done|].
    apply journal_stage_step in Hs as (_ & _ & _ & ->). apply (IH _ Hst). rewrite dict_keys_set.
    case_decide; [done|]. apply elem_of_app. by left. }
  revert staged. induction obs as [|o0 obs IH]; intros staged Hst Hin; [by apply not_elem_of_nil in Hin|].
  simpl in Hst. destruct (stage_observation j c staged o0) as [|s1] eqn:Hs; [done|].
  apply elem_of_cons in Hin as [->|Hin]; [|by eapply IH].
  apply journal_stage_step in Hs as (_ & _ & _ & ->). apply (Hkeep _ _ _ _ Hst). rewrite dict_keys_set.
  case_decide; [done|]. apply elem_of_app. right. by apply list_elem_of_singleton.
Qed.

(** What the transaction of a batch does: an exception only for an unreadable
    lease, a rollback with a reason, or the insertion of the fresh part. *)
Definition ingest_tx_spec (env : Env) (obs : list NormalizedObservation) (commit : SourceCommit) (j : journal)
    (t : tx IngestResult) : Prop :=
  match t with
  | Raise => ∃ s, source_state j !! commit_key commit = Some s ∧ live_lease s (lease_clock env) = None
  | Rollback r => ∀ refs, r ≠ IngestDone refs
  | Commit r j' hook => ∃ instance state c staged refs,
      source_instances j !! commit_key commit = Some instance ∧ source_state j !! commit_key commit = Some state ∧
      live_lease state (lease_clock env) = Some None ∧ checkpoint_conflict state commit = None ∧
      _contract_from_json (si_contract_json instance) = Some c ∧
      stage j c [] obs = inr staged ∧ staged_ok c staged ∧ j' = ingested commit state (fresh_items j staged) j ∧
      r = IngestDone {| Signals.receipts := refs; ingested_checkpoint := checkpoint commit |} ∧
      answers j' (λ i, i ∉ dict_keys (fresh_items j staged)) [] obs refs
  end.

Lemma ingest_body_spec env obs commit j : receipts_inv j → contracts_ok j → Forall obs_times_ok obs →
  ingest_tx_spec env obs commit j (ingest_body env obs commit j).
Proof.
  intros Hinv Hcon Hobs. unfold ingest_body.
  destruct (source_instances j !! commit_key commit) as [instance|] eqn:Hi; [|done].
  destruct (source_state j !! commit_key commit) as [state|] eqn:Hst; [|done].
  destruct (live_lease state (lease_clock env)) as [[t|]|] eqn:Hl; [done| |by exists state].
  cbn [or_raise]. destruct (checkpoint_conflict state commit) eqn:Hcp; [done|].
  destruct (Hcon _ _ Hi) as (c & Hc & Hkey). rewrite Hc. cbn [or_raise].
  destruct (stage j c [] obs) as [i|staged] eqn:Hstage; [done|].
  assert (staged_ok c staged) as Hok.
  { eapply journal_stage_ok; [done|done|]. split; [constructor|]. intros i e Hin. by apply not_elem_of_nil in Hin. }
  assert (insertable c j (next_sequence j)) as Hins by (eapply receipts_insertable; [done|by eexists|done]).
  rewrite (insert_staged_ok c) by (try done; intros ?? Hin; by apply not_elem_of_nil in Hin). cbn [or_raise app].
  change (set_source_state _ _) with (ingested commit state (fresh_items j staged) j).
  destruct (journal_answers (ingested commit state (fresh_items j staged) j)
    (new_refs (next_sequence j) (fresh_items j staged)) [] [] obs) as (refs & Hrefs & Hans).
  - intros o Hin. eapply ingested_find; [done|done|]. right. by eapply stage_covers_batch.
  - intros i ref Hget. pose proof (ingested_inv _ _ _ _ _ Hinv Hok Hst) as Hinv'.
    destruct (new_refs_row (next_sequence j) (fresh_items j staged) i ref) as (row & Hin & Hid & Heq); [|done|].
    { intros i' e [Hin _]%fresh_items_sub. destruct Hok as [_ Hok]. destruct (Hok _ _ Hin) as (o & ? & ? & _). eauto. }
    exists row. split; [|done]. rewrite <- Hid. apply find_receipt_elem; [apply Hinv'|]. simpl. apply elem_of_app. by right.
  - done.
  - rewrite Hrefs. cbn [or_raise]. exists instance, state, c, staged, refs. split_and!; try done.
    by rewrite new_refs_keys in Hans.
Qed.
