(* ===== verification/StoreScan.v ===== *)
(** * The receipts an evaluation reads

    The query of [SignalStore.evaluate] answers the oldest receipts of the
    signal's stream in order, the loop over the page stops at the first one
    that is not ruled out, and what it rules out it rules out for good. *)
From S2P Require Import Prelude Json Sha256 Datetime Signals SignalCodec SignalRecords SignalStore StoreIngest.
Open Scope Z_scope.

(** A receipt of the stream a signal listens to, after its anchor. *)
Definition on_stream (sp : SignalRequest) (r : receipt_row) : Prop :=
  (rc_source r, rc_source_instance r, rc_kind r, rc_subject r) =
    (spec_source sp, spec_source_instance sp, spec_kind sp, spec_subject sp).
Definition for_signal (durable : ArmedSignal) (r : receipt_row) : Prop :=
  on_stream (spec durable) r ∧ local_after_sequence (anchor durable) < rc_local_sequence r.
(** Ruled out whatever the limits of the evaluation. *)
Definition passed_over (c : SourceContract) (durable : ArmedSignal) (r : receipt_row) : Prop :=
  ∀ limits, classify c durable limits r = Some Skip.

Lemma classify_skip c durable limits r : classify c durable limits r = Some Skip → passed_over c durable r.
Proof.
  intros H limits'. revert H. unfold classify. destruct (_observation_from_json _) as [o|]; [|done]. rewrite !bind_Some.
  destruct (_occurrence_is_after_anchor _ _ _) as [[a|i]|]; [|done..].
  destruct (_ || _); [done|]. destruct (bool_decide (spec_verification _ = _) && _).
  - by destruct (bool_decide (verification_state _ = "pending")).
  - by destruct (_ || _).
Qed.
Lemma classify_signal c d d' limits r : spec d' = spec d → anchor d' = anchor d →
  classify c d' limits r = classify c d limits r.
Proof. intros Hs Ha. unfold classify, baseline_matches. by rewrite Hs, Ha. Qed.

(** ** The loop over the page *)
Definition last_seq (safe : Z) (l : list receipt_row) : Z := default safe (rc_local_sequence <$> last l).
Definition stops (c : SourceContract) (durable : ArmedSignal) (limits : EvaluationLimits) (safe : Z) (pre rest : list receipt_row)
    (out : page_outcome) : Prop :=
  match out with
  | PageEnd => rest = []
  | PageInvalid i => ∃ r l, rest = r :: l ∧ classify c durable limits r = Some (BadOrder i)
  | PagePending s rid => s = last_seq safe pre ∧
      ∃ r l, rest = r :: l ∧ classify c durable limits r = Some Awaiting ∧ rid = rc_receipt_id r
  | PageTooLarge s => s = last_seq safe pre ∧ ∃ r l, rest = r :: l ∧ classify c durable limits r = Some TooLarge
  | PageMatch r o => ∃ l, rest = r :: l ∧ classify c durable limits r = Some (Candidate o)
  end.

Lemma last_seq_cons safe r l : last_seq safe (r :: l) = last_seq (rc_local_sequence r) l.
Proof. unfold last_seq. by destruct l as [|x l]; [|rewrite (last_cons_cons r x l); destruct (last (x :: l)) eqn:He; [|by apply last_None in He]]. Qed.

Lemma scan_page_stops c durable limits safe page out : scan_page c durable limits safe page = Some out →
  ∃ pre rest, page = pre ++ rest ∧ Forall (passed_over c durable) pre ∧ stops c durable limits safe pre rest out.
Proof.
  revert safe. induction page as [|r page IH]; intros safe; cbn [scan_page].
  { intros [= <-]. by exists [], []. }
  destruct (classify c durable limits r) as [class|] eqn:Hc; [|done]. rewrite bind_Some. destruct class as [| | |o|i].
  - intros H. destruct (IH _ H) as (pre & rest & -> & Hall & Hs). exists (r :: pre), rest. split_and!; [done| |].
    + constructor; [by eapply classify_skip|done].
    + destruct out; cbn [stops] in *; rewrite ?last_seq_cons; done.
  - intros [= <-]. exists [], (r :: page). split_and!; [done|constructor|]. split; [done|]. by exists r, page.
  - intros [= <-]. exists [], (r :: page). split_and!; [done|constructor|]. split; [done|]. by exists r, page.
  - intros [= <-]. exists [], (r :: page). split_and!; [done|constructor|]. by exists page.
  - intros [= <-]. exists [], (r :: page). split_and!; [done|constructor|]. by exists r, page.
Qed.

(** ** The query *)
Definition seq_lt (a b : receipt_row) : Prop := rc_local_sequence a < rc_local_sequence b.
Definition stream (j : journal) (sp : SignalRequest) (after : Z) : list receipt_row :=
  merge_sort receipt_le (filter (λ r,
    (rc_source r, rc_source_instance r, rc_kind r, rc_subject r) =
      (spec_source sp, spec_source_instance sp, spec_kind sp, spec_subject sp) ∧
    after < rc_local_sequence r) (receipts j)).

Lemma stream_elem j sp after r : r ∈ stream j sp after ↔ r ∈ receipts j ∧ on_stream sp r ∧ after < rc_local_sequence r.
Proof. unfold stream. rewrite merge_sort_Permutation, list_elem_of_filter. unfold on_stream. tauto. Qed.

#[export] Instance receipt_le_trans : Transitive receipt_le.
Proof. intros a b c. unfold receipt_le. lia. Qed.
#[export] Instance receipt_le_total : Total receipt_le.
Proof. intros a b. unfold receipt_le. lia. Qed.

Lemma sorted_sequences l : StronglySorted seq_lt l → NoDup (rc_local_sequence <$> l).
Proof.
  induction 1 as [|r l _ IH Hall]; [constructor|]. rewrite fmap_cons. constructor; [|done].
  intros (r' & Heq & Hin)%list_elem_of_fmap. rewrite Forall_forall in Hall. specialize (Hall r' Hin).
  unfold seq_lt in Hall. lia.
Qed.
Lemma strictly_sorted l : StronglySorted receipt_le l → NoDup (rc_local_sequence <$> l) → StronglySorted seq_lt l.
Proof.
  induction 1 as [|r l _ IH Hall]; [constructor|]. rewrite fmap_cons. intros [Hni Hnd]%NoDup_cons.
  constructor; [by apply IH|]. apply Forall_forall. intros r' Hin. rewrite Forall_forall in Hall. specialize (Hall r' Hin).
  assert (rc_local_sequence r' ≠ rc_local_sequence r) as Hne; [|unfold receipt_le, seq_lt in *; lia].
  intros Heq. apply Hni. rewrite <- Heq. by apply list_elem_of_fmap_2.
Qed.

Lemma stream_sorted j sp after : receipts_inv j → StronglySorted seq_lt (stream j sp after).
Proof.
  intros Hinv. apply strictly_sorted; [apply StronglySorted_merge_sort; apply _|].
  unfold stream. rewrite merge_sort_Permutation. eapply sublist_NoDup; [|apply fmap_sublist, sublist_filter].
  apply sorted_sequences, Hinv.
Qed.

(** A prefix of the stream holds every receipt up to its last sequence. *)
Lemma stream_prefix j sp after pre rest r safe : receipts_inv j → stream j sp after = pre ++ rest →
  r ∈ receipts j → on_stream sp r → after < rc_local_sequence r → safe ≤ after → rc_local_sequence r ≤ last_seq safe pre →
  r ∈ pre.
Proof.
  intros Hinv Hst Hin Hon Ha Hsafe Hle. assert (r ∈ stream j sp after) as Hr by (by apply stream_elem).
  pose proof (stream_sorted j sp after Hinv) as Hs. rewrite Hst in Hr, Hs.
  apply elem_of_app in Hr as [|Hr]; [done|]. exfalso. unfold last_seq in Hle.
  destruct (last pre) as [y|] eqn:Hl; [|simpl in Hle; lia]. apply last_Some in Hl as [pre' ->]. simpl in Hle.
  assert (seq_lt y r) as Hlt; [|unfold seq_lt in Hlt; lia].
  eapply StronglySorted_app_1_elem_of; [exact Hs| |done]. apply elem_of_app. right. by left.
Qed.

(** Receipts before a member of the stream are before it in the list too. *)
Lemma stream_before j sp after pre x rest r : receipts_inv j → stream j sp after = pre ++ x :: rest →
  r ∈ receipts j → on_stream sp r → after < rc_local_sequence r → rc_local_sequence r < rc_local_sequence x → r ∈ pre.
Proof.
  intros Hinv Hst Hin Hon Ha Hlt. assert (r ∈ stream j sp after) as Hr by (by apply stream_elem).
  pose proof (stream_sorted j sp after Hinv) as Hs. rewrite Hst in Hr, Hs.
  apply elem_of_app in Hr as [|Hr]; [done|]. exfalso. apply StronglySorted_app_1_r in Hs.
  apply StronglySorted_inv in Hs as [_ Hall]. rewrite Forall_forall in Hall.
  apply elem_of_cons in Hr as [->|Hr]; [lia|]. specialize (Hall r Hr). unfold seq_lt in Hall. lia.
Qed.

Lemma select_stream j sp after n : select_receipts j sp after n = take n (stream j sp after).
Proof. done. Qed.
