(* ===== verification/StoreSteps.v ===== *)
(** * Histories of the journal

    [journal_step]: one committed transaction of any operation, by any caller
    with any environment, so that a history interleaves the transactions of
    concurrent callers (every operation of [SignalStore] changes the tables by
    such steps only, [transact_commits]).  [journal_inv]: what holds of the
    tables in every such history. *)
From S2P Require Import Prelude Json Sha256 Datetime Signals SignalCodec SignalRecords SignalStore StoreIngest StoreScan.
Open Scope Z_scope.

Definition commits {A} (body : journal → tx A) (j j' : journal) : Prop :=
  ∃ a hook, body j = Commit a j' hook.

Lemma transact_commits {A} env name (u : A) body j a j' :
  transact env name u body j = (a, j') → j' = j ∨ commits body j j'.
Proof.
  unfold transact. destruct (fails env _); [intros [= <- <-]; by left|].
  destruct (body j) as [a0 j0 hook|a0|] eqn:Hb; [|intros [= <- <-]; by left|intros [= <- <-]; by left].
  destruct (fails env _); [intros [= <- <-]; by left|]. intros Hr. right. exists a0, hook.
  destruct hook as [h|]; [destruct (fails env h)|]; by injection Hr as _ <-.
Qed.

(** Aware datetimes of the calls are of Python's calendar and a target is a
    dict; a record is only
    retired for an arm that was prepared (the journal publishes no record of
    an arm before). *)
Definition retirable (record : json) (status : string) (j : journal) : Prop :=
  decode_signal_record record = Done (Some record) ∧ str_field "status" record = Some status ∧
  status ∈ terminal_statuses ∧
  ∀ w arm, str_field "id" record = Some w → arms j !! w = Some arm → row_state arm ≠ "preparing".
Definition context_ok {A} (context : ArmContext A) : Prop :=
  calendar_range (context_registered_at context) ∧ (∀ t, context_expires_at context = Some t → calendar_range t) ∧
  json_ok (JObj (resume_target (context_resume context))).

Definition prepares {A} (env : Env) (lease_now : Z) (c : SourceContract) (w : string) (sp : SignalRequest)
    (context : ArmContext A) (p : json) : journal → tx preparation :=
  prepare_body env lease_now c (_canonical_json p) (_canonical_json (_spec_payload sp))
    (_canonical_json (_resume_payload (context_resume context))) w sp context.

Inductive journal_step (j j' : journal) : Prop :=
| js_ingest env obs commit : Forall obs_times_ok obs → commits (ingest_body env obs commit) j j' → journal_step j j'
| js_evaluate w armed now limits : calendar_range now → commits (evaluate_body w armed now limits) j j' → journal_step j j'
| js_prepare (A : Type) env lease_now c w sp (context : ArmContext A) p :
    _validate_signal sp c = None → _contract_payload c = Some p → context_ok context →
    calendar_range (lease_now + source_lease_seconds env * us_second) →
    commits (prepares env lease_now c w sp context p) j j' → journal_step j j'
| js_release arm_id key owner generation :
    commits (release_preparation_body arm_id key owner generation) j j' → journal_step j j'
| js_finish (A : Type) env c w arm_id generation sp (context : ArmContext A) anchor row :
    context_ok context → arms j !! w = Some row → row_arm_id row = arm_id →
    commits (finish_body env c w arm_id generation sp context anchor) j j' → journal_step j j'
| js_publish env w capable : commits (publish_registration_body env w capable) j j' → journal_step j j'
| js_blocked env w code : j' = _mark_publication_blocked env w code j → journal_step j j'
| js_match_publish env w revision sha capable :
    commits (match_publication_body env w revision sha capable) j j' → journal_step j j'
| js_retire record status now : retirable record status j → commits (retire_body record status now) j j' → journal_step j j'
| js_expire w now : commits (expire_body w now) j j' → journal_step j j'
| js_compact env through limit r : compact_receipts env through limit j = (r, j') → journal_step j j'
| js_release_pins env w reasons at_ r : release_retention_pins env w reasons at_ j = (r, j') → journal_step j j'.

(** ** Rows of the arms table *)
Record arm_ok (w : string) (r : arm_row) : Prop := {
  ao_wake : row_wake_id r = w;
  ao_spec : ∃ sp, row_spec_json r = _canonical_json (_spec_payload sp) ∧
    (row_source r, row_source_instance r) = (spec_source sp, spec_source_instance sp);
  ao_registered : ∃ t, calendar_range t ∧ row_registered_at r = _format_time t;
  ao_expires : row_expires_at r = None ∨ ∃ t, calendar_range t ∧ row_expires_at r = Some (_format_time t);
  ao_state : row_state r ∈ ["preparing"; "prepared"; "published"; "tombstoned"];
  ao_token : row_state r ≠ "preparing" → row_preparer_token r = None;
  ao_anchor : row_state r ≠ "preparing" → ∃ after a, row_local_after_sequence r = Some after ∧
    row_baseline_json r = Some (_canonical_json (attributes_json a));
}.

Lemma arm_decodes w r : arm_ok w r → row_state r ≠ "preparing" →
  ∃ durable, _armed_from_row r = Some durable ∧ wake_id durable = w ∧ arm_id durable = row_arm_id r ∧
    publication durable = row_state r.
Proof.
  intros [Hw (sp & Hsp & _) (t & Ht & Hreg) Hexp _ _ Hanc] Hst.
  destruct (Hanc Hst) as (after & a & Ha & Hb). unfold _armed_from_row.
  rewrite Ha, Hb, Hsp, Hreg. rewrite bind_Some, bind_Some, baseline_round_trip, bind_Some, spec_round_trip, bind_Some.
  rewrite _parse_format_time, bind_Some by done.
  destruct Hexp as [-> | (e & He & ->)]; cbn [truthy].
  - rewrite bind_Some. eexists. by split_and!.
  - rewrite bool_decide_false by apply format_time_nonempty. cbn [negb].
    rewrite bind_Some, _parse_format_time, bind_Some, bind_Some by done. eexists. by split_and!.
Qed.

(** The columns of an arm that no operation changes. *)
Record same_arm (r r' : arm_row) : Prop := {
  sa_id : row_arm_id r' = row_arm_id r;
  sa_wake : row_wake_id r' = row_wake_id r;
  sa_key : row_idempotency_key r' = row_idempotency_key r;
  sa_fingerprint : row_intent_fingerprint r' = row_intent_fingerprint r;
  sa_source : row_source r' = row_source r;
  sa_instance : row_source_instance r' = row_source_instance r;
  sa_spec : row_spec_json r' = row_spec_json r;
  sa_registered : row_registered_at r' = row_registered_at r;
  sa_expires : row_expires_at r' = row_expires_at r;
}.
#[export] Instance same_arm_preorder : PreOrder same_arm.
Proof.
  split; [intros r; by split|].
  intros r1 r2 r3 [? ? ? ? ? ? ? ? ?] [? ? ? ? ? ? ? ? ?]. split; congruence.
Qed.

(** How a row may change in one step: the preparation columns of an arm that
    is being prepared, or its life cycle forwards. *)
Inductive arm_change (r r' : arm_row) : Prop :=
| ac_same : r' = r → arm_change r r'
| ac_token token expires : row_state r = "preparing" → r' = arm_with_preparation token expires r → arm_change r r'
| ac_clear token : row_preparer_token r = Some token → r' = arm_with_preparation None None r → arm_change r r'
| ac_anchor a at_ token : row_preparer_token r = Some token → r' = arm_anchored a at_ r → arm_change r r'
| ac_publish at_ : publishable_state (row_state r) = true → r' = arm_published at_ r → arm_change r r'
| ac_tombstone : row_state r ≠ "preparing" → r' = arm_with_state "tombstoned" r → arm_change r r'.

Lemma publishable_spec s : publishable_state s = true ↔ s = "prepared" ∨ s = "published".
Proof. unfold publishable_state. rewrite bool_decide_eq_true, !elem_of_cons, elem_of_nil. tauto. Qed.

Lemma arm_change_same r r' : arm_change r r' → same_arm r r'.
Proof. intros [->|? ? _ ->|? _ ->|? ? ? _ ->|? _ ->|_ ->]; by split. Qed.

Lemma arm_change_ok w r r' : arm_ok w r → arm_change r r' → arm_ok w r'.
Proof.
  intros [Hw Hsp Hreg Hexp Hst Htok Hanc] Hch.
  assert (∀ t, row_preparer_token r = Some t → row_state r = "preparing") as Hprep.
  { intros t Ht. destruct (decide (row_state r = "preparing")) as [|Hne]; [done|]. rewrite (Htok Hne) in Ht. done. }
  destruct Hch as [->|token expires Hs ->|t Ht ->|a at_ t Ht ->|at_ Hs ->|Hs ->].
  - by split.
  - split; simpl; try assumption; intros Hne; by destruct Hne.
  - apply Hprep in Ht. split; simpl; try assumption; intros Hne; by destruct Hne.
  - split; simpl; try assumption; [set_solver|done|]. intros _. by eexists _, _.
  - apply publishable_spec in Hs. assert (row_state r ≠ "preparing") as Hne by (destruct Hs as [-> | ->]; done).
    split; simpl; try assumption; [set_solver|by intros; apply Htok|by intros; apply Hanc].
  - split; simpl; try assumption; [set_solver|by intros; apply Htok|by intros; apply Hanc].
Qed.

(** ** The evaluation transaction, by cases *)
Record evaluates (w : string) (armed : ArmedSignal) (j : journal) (durable : ArmedSignal) (c : SourceContract) : Prop := {
  ev_row : ∃ row, arms j !! w = Some row ∧ _armed_from_row row = Some durable;
  ev_published : publication durable = "published";
  ev_arm_id : arm_id durable = arm_id armed;
  ev_contract : ∃ source, source_instances j !! (spec_source (spec durable), spec_source_instance (spec durable)) = Some source ∧
    _fingerprint (si_contract_json source) = si_contract_fingerprint source ∧
    _contract_from_json (si_contract_json source) = Some c;
  ev_anchor : _validate_occurrence_anchor c (spec durable) (anchor durable) = None;
}.
Record scans (w : string) (durable : ArmedSignal) (now : Z) (limits : EvaluationLimits) (j : journal) (scanned : Z)
    (page rows : list receipt_row) : Prop := {
  sc_unreserved : match_reservations j !! w = None;
  sc_pending : ∃ l, wake_lifecycle j !! w = Some l ∧ lifecycle_pending l = true;
  sc_unexpired : ∀ e, expires_at durable = Some e → now < e;
  sc_budget : 0 < max_candidates limits;
  sc_scanned : ∃ p, evaluation_progress j !! w = Some p ∧
    scanned = local_after_sequence (anchor durable) `max` pr_scanned_through_sequence p;
  sc_rows : rows = select_receipts j (spec durable) scanned (Z.to_nat (max_candidates limits + 1));
  sc_page : page = take (Z.to_nat (max_candidates limits)) rows;
}.

Inductive evaluate_case (w : string) (armed : ArmedSignal) (now : Z) (limits : EvaluationLimits) (j : journal)
    (t : tx Evaluation) : Prop :=
| case_none :
    arms j !! w = None ∨ (∃ row, arms j !! w = Some row ∧ ∀ durable c, _armed_from_row row = Some durable → ¬ evaluates w armed j durable c) →
    (∀ r j' h, t ≠ Commit r j' h) → (∀ m, t ≠ Rollback (EvalMatched m)) → evaluate_case w armed now limits j t
| case_reserved durable c reservation :
    evaluates w armed j durable c → match_reservations j !! w = Some reservation →
    t = or_raise (_matched_from_row reservation) (λ m,
          or_raise (_ensure_match_outbox m j) (λ j, Commit (EvalMatched m) j None)) →
    evaluate_case w armed now limits j t
| case_stop durable c e :
    evaluates w armed j durable c → match_reservations j !! w = None → t = Rollback e →
    (∀ m, e ≠ EvalMatched m) →
    (∀ scanned page rows, ¬ scans w durable now limits j scanned page rows) →
    evaluate_case w armed now limits j t
| case_no_progress durable c :
    evaluates w armed j durable c → match_reservations j !! w = None → evaluation_progress j !! w = None → t = Raise →
    evaluate_case w armed now limits j t
| case_scan durable c scanned page rows :
    evaluates w armed j durable c → scans w durable now limits j scanned page rows →
    t = or_raise (scan_page c durable limits scanned page) (λ outcome,
      match outcome with
      | PageInvalid i => Rollback (EvalInvalid i)
      | PagePending safe rid => Commit (EvalDegraded (degraded (Some w) "VERIFICATION_PENDING"))
          (_advance_progress w safe now (_pin_pending w rid now j)) None
      | PageTooLarge safe => Commit (EvalDegraded (degraded (Some w) "EVALUATION_BUDGET_EXHAUSTED"))
          (_advance_progress w safe now j) None
      | PageMatch r o => or_raise (reserve_match w r (match_of w r o now) j) (λ '(winner, j),
          Commit (EvalMatched winner) j (Some "after_match_reservation_commit"))
      | PageEnd =>
        if (max_candidates limits <? Z.of_nat (length rows))
        then Commit (EvalDegraded (degraded (Some w) "EVALUATION_BUDGET_EXHAUSTED"))
               (_advance_progress w (last_sequence page j) now j) None
        else Commit (EvalNotReady {| not_ready_wake_id := w; scanned_through_sequence := last_sequence page j |})
               (_advance_progress w (last_sequence page j) now j) None
      end) →
    evaluate_case w armed now limits j t.

Lemma evaluate_body_cases w armed now limits j : evaluate_case w armed now limits j (evaluate_body w armed now limits j).
Proof.
  unfold evaluate_body.
  destruct (arms j !! w) as [row|] eqn:Hrow; [|by apply case_none; [left|..]].
  assert (∀ t, (∀ durable c, _armed_from_row row = Some durable → ¬ evaluates w armed j durable c) →
    (∀ r j' h, t ≠ Commit r j' h) → (∀ m, t ≠ Rollback (EvalMatched m)) → evaluate_case w armed now limits j t) as Hno.
  { intros t Hne Ht Ht'. apply case_none; [right; by exists row|done|done]. }
  destruct (_armed_from_row row) as [durable|] eqn:Hd; [|apply Hno; by intros]. cbn [or_raise].
  destruct (bool_decide (publication durable = "published") && bool_decide (arm_id durable = arm_id armed)) eqn:Hpub; cbn [negb].
  2: { apply Hno; [|done|done]. intros d c [= <-] [_ H1 H2 _ _]. by rewrite H1, H2, !bool_decide_true in Hpub. }
  apply andb_true_iff in Hpub as [Hpub%bool_decide_eq_true Hid%bool_decide_eq_true].
  destruct (source_instances j !! _) as [source|] eqn:Hsrc.
  2: { apply Hno; [|done|done]. intros d c [= <-] [_ _ _ (s & Hs & _) _]. congruence. }
  destruct (bool_decide (_fingerprint _ = _)) eqn:Hfp; cbn [negb].
  2: { apply Hno; [|done|done]. intros d c [= <-] [_ _ _ (s & Hs & Hf & _) _].
       assert (s = source) as -> by congruence. by rewrite Hf, bool_decide_true in Hfp. }
  apply bool_decide_eq_true in Hfp.
  destruct (_contract_from_json _) as [c|] eqn:Hc; cbn [or_raise].
  2: { apply Hno; [|done|done]. intros d c [= <-] [_ _ _ (s & Hs & _ & Hc') _].
       assert (s = source) as -> by congruence. congruence. }
  destruct (_validate_occurrence_anchor _ _ _) as [i|] eqn:Hv.
  { apply Hno; [|done|done]. intros d c' [= <-] [_ _ _ (s & Hs & _ & Hc') Hv'].
    assert (s = source) as -> by congruence. congruence. }
  assert (evaluates w armed j durable c) as Hev.
  { split; [by exists row|done|done|by exists source|done]. }
  destruct (match_reservations j !! w) as [res|] eqn:Hres; [by eapply case_reserved|].
  destruct (match wake_lifecycle j !! w with Some l => lifecycle_pending l | None => false end) eqn:Hlc; cbn [negb].
  2: { eapply case_stop; try done. intros scanned page rows [_ (l & Hl & Hp) _ _ _ _ _]. by rewrite Hl, Hp in Hlc. }
  destruct (match expires_at durable with Some e => e <=? now | None => false end) eqn:Hexp.
  { eapply case_stop; try done. intros scanned page rows [_ _ Hx _ _ _ _].
    destruct (expires_at durable) as [e|]; [|done]. specialize (Hx e eq_refl). lia. }
  destruct (Z.leb_spec (max_candidates limits) 0) as [Hmax|Hmax].
  { eapply case_stop; try done. intros scanned page rows [_ _ _ Hb _ _ _]. lia. }
  unfold evaluate_receipts.
  destruct (evaluation_progress j !! w) as [p|] eqn:Hprog; cbn [or_raise]; [|by eapply case_no_progress].
  eapply case_scan; [exact Hev| |reflexivity].
  split; try done.
  - destruct (wake_lifecycle j !! w) as [l|]; [by exists l|done].
  - intros e He. rewrite He in Hexp. lia.
  - by exists p.
Qed.

(** ** Which tables a transaction writes *)
Definition rows_same `{Countable K} {V} (m m' : gmap K V) : Prop := ∀ k, is_Some (m' !! k) ↔ is_Some (m !! k).
Section Rows.
Context `{Countable K} {V : Type}.
Implicit Types m : gmap K V.
Lemma rows_same_refl m : rows_same m m.
Proof. by intros k. Qed.
Lemma rows_same_insert m k v : is_Some (m !! k) → rows_same m (<[k := v]> m).
Proof.
  intros Hs k'. destruct (decide (k = k')) as [<-|]; [|by rewrite lookup_insert_ne].
  rewrite lookup_insert_eq. split; [done|by eexists].
Qed.
Lemma rows_same_alter m k f : rows_same m (alter f k m).
Proof.
  intros k'. destruct (decide (k = k')) as [<-|]; [rewrite lookup_alter_eq; apply fmap_is_Some|by rewrite lookup_alter_ne].
Qed.
End Rows.
(** No operation revises the payload of an outbox row; only the finish of a
    preparation adds a row of revision 1. *)
Definition outbox_kept (m m' : gmap (string * Z) outbox_row) : Prop :=
  (∀ k o, m !! k = Some o →
     ∃ o', m' !! k = Some o' ∧ ob_payload_json o' = ob_payload_json o ∧ ob_payload_sha256 o' = ob_payload_sha256 o) ∧
  ∀ w, is_Some (m' !! (w, 1)) → is_Some (m !! (w, 1)).
Lemma outbox_kept_refl m : outbox_kept m m.
Proof. split; [|done]. intros k o Hk. by exists o. Qed.
Lemma outbox_kept_insert m w o : m !! (w, 2) = None → outbox_kept m (<[(w, 2) := o]> m).
Proof.
  intros Hn. split.
  - intros k' o' Hk. exists o'. rewrite lookup_insert_ne by congruence. done.
  - intros w'. by rewrite lookup_insert_ne.
Qed.
Lemma outbox_kept_alter m k f : (∀ o, ob_payload_json (f o) = ob_payload_json o ∧ ob_payload_sha256 (f o) = ob_payload_sha256 o) →
  outbox_kept m (alter f k m).
Proof.
  intros Hf. split.
  - intros k' o Hk. destruct (decide (k = k')) as [<-|Hne].
    + exists (f o). rewrite lookup_alter_eq, Hk. split; [done|apply Hf].
    + exists o. by rewrite lookup_alter_ne.
  - intros w. apply rows_same_alter.
Qed.
Lemma outbox_kept_applied m k at_ n : outbox_kept m (alter (outbox_applied at_ n) k m).
Proof. by apply outbox_kept_alter. Qed.
Lemma outbox_kept_blocked m k at_ code : outbox_kept m (alter (outbox_blocked at_ code) k m).
Proof. by apply outbox_kept_alter. Qed.
#[export] Hint Resolve outbox_kept_refl outbox_kept_insert outbox_kept_applied outbox_kept_blocked : rows.
#[export] Hint Resolve rows_same_refl rows_same_alter : rows.

Lemma set_progress_id j : set_progress (evaluation_progress j) j = j. Proof. by destruct j. Qed.
Lemma set_lifecycle_id j : set_lifecycle (wake_lifecycle j) j = j. Proof. by destruct j. Qed.
Lemma set_outbox_id j : set_outbox (record_outbox j) j = j. Proof. by destruct j. Qed.
Lemma set_source_state_id j : set_source_state (source_state j) j = j. Proof. by destruct j. Qed.
Lemma set_pins_id j : set_pins (retention_pins j) j = j. Proof. by destruct j. Qed.
Lemma set_arms_id j : set_arms (arms j) j = j. Proof. by destruct j. Qed.

Lemma apply_lifecycle_form w st rev at_ j : ∃ x, apply_lifecycle w st rev at_ j = set_lifecycle x j ∧
  rows_same (wake_lifecycle j) x.
Proof.
  unfold apply_lifecycle. destruct (wake_lifecycle j !! w) as [l|] eqn:Hl; [destruct (_ && _)|].
  { eexists. split; [done|]. apply rows_same_insert. by exists l. }
  all: exists (wake_lifecycle j); rewrite set_lifecycle_id; auto with rows.
Qed.
Lemma release_lease_form key o g j : ∃ x, release_lease key o g j = set_source_state x j.
Proof.
  unfold release_lease. destruct (source_state j !! key) as [s|]; [destruct (_ && _); [by eexists|]|];
    exists (source_state j); by rewrite set_source_state_id.
Qed.
Lemma ensure_form m j j' : _ensure_match_outbox m j = Some j' → ∃ l o, j' = set_lifecycle l (set_outbox o j) ∧
  rows_same (wake_lifecycle j) l ∧ outbox_kept (record_outbox j) o.
Proof.
  unfold _ensure_match_outbox. destruct (record_outbox j !! _) as [o|] eqn:Ho2.
  { intros [= <-]. exists (wake_lifecycle j), (record_outbox j). split; [by destruct j|auto with rows]. }
  destruct (record_outbox j !! (_, 1)) as [p|]; [|done]. rewrite bind_Some.
  destruct (loads _) as [v|]; [|done]. rewrite bind_Some.
  destruct (as_obj v) as [o|]; [|done]. rewrite bind_Some.
  destruct (firing_payload o m) as [f|]; [|done]. rewrite bind_Some. intros [= <-].
  destruct (wake_lifecycle _ !! _) as [l|] eqn:Hl; [destruct (bool_decide _)|].
  { eexists _, _. split; [reflexivity|]. split; [apply rows_same_insert; by exists l|auto with rows]. }
  all: eexists _, _; split; [symmetry; apply (set_lifecycle_id (set_outbox _ j))|]; split; [apply rows_same_refl|by apply outbox_kept_insert].
Qed.

(** What a committed evaluation wrote, by the table it advanced: none, the
    progress (past receipts that are all ruled out), or the reservations. *)
Inductive evaluate_writes (w : string) (armed : ArmedSignal) (now : Z) (limits : EvaluationLimits) (j : journal)
    (p : gmap string progress_row) (r : gmap string reservation_row) : Prop :=
| ew_none m : match_reservations j !! w = Some m → p = evaluation_progress j → r = match_reservations j →
    evaluate_writes w armed now limits j p r
| ew_advance durable c scanned pre rest old safe :
    evaluates w armed j durable c → match_reservations j !! w = None → evaluation_progress j !! w = Some old →
    scanned = local_after_sequence (anchor durable) `max` pr_scanned_through_sequence old →
    stream j (spec durable) scanned = pre ++ rest → Forall (passed_over c durable) pre →
    safe = last_seq scanned pre ∨ pre = [] ∧ rest = [] ∧ safe = next_sequence j - 1 →
    p = <[w := {| pr_scanned_through_sequence := pr_scanned_through_sequence old `max` safe;
                  pr_revision := pr_revision old + 1; pr_updated_at := _format_time now |}]> (evaluation_progress j) →
    r = match_reservations j → evaluate_writes w armed now limits j p r
| ew_match durable c scanned pre x rest o old :
    evaluates w armed j durable c → match_reservations j !! w = None → evaluation_progress j !! w = Some old →
    scanned = local_after_sequence (anchor durable) `max` pr_scanned_through_sequence old →
    stream j (spec durable) scanned = pre ++ x :: rest → Forall (passed_over c durable) pre →
    classify c durable limits x = Some (Candidate o) → p = evaluation_progress j →
    r = <[w := {| mr_receipt_id := Some (rc_receipt_id x); mr_match_token := match_token (match_of w x o now);
                  mr_matched_at := _format_time now;
                  mr_evidence_json := _canonical_json (_matched_payload (match_of w x o now)) |}]> (match_reservations j) →
    evaluate_writes w armed now limits j p r.

Lemma page_prefix {A} (n : nat) (l pre rest : list A) : take n (take (n + 1) l) = pre ++ rest →
  l = pre ++ rest ++ drop n l.
Proof.
  rewrite take_take, (Nat.min_l n (n + 1)) by lia. intros H. by rewrite app_assoc, <- H, take_drop.
Qed.

Lemma evaluate_form w armed now limits j j' : commits (evaluate_body w armed now limits) j j' →
  ∃ p r k l o, j' = set_progress p (set_reservations r (set_pins k (set_lifecycle l (set_outbox o j)))) ∧
    rows_same (wake_lifecycle j) l ∧ outbox_kept (record_outbox j) o ∧ evaluate_writes w armed now limits j p r.
Proof.
  intros (e & hook & Hb).
  destruct (evaluate_body_cases w armed now limits j) as
    [_ Hno _|durable c res _ Hres Ht|durable c ev _ _ Ht _|durable c _ _ _ Ht|durable c scanned page rows Hev Hsc Ht].
  - by destruct (Hno _ _ _ Hb).
  - rewrite Ht in Hb. destruct (_matched_from_row res) as [m|]; [|done]. cbn [or_raise] in Hb.
    destruct (_ensure_match_outbox m j) as [j0|] eqn:He; [|done]. cbn [or_raise] in Hb. injection Hb as _ <- _.
    destruct (ensure_form _ _ _ He) as (l & o & -> & ? & ?).
    exists (evaluation_progress j), (match_reservations j), (retention_pins j), l, o.
    split_and!; [by destruct j|done|done|by eapply ew_none].
  - rewrite Ht in Hb. done.
  - rewrite Ht in Hb. done.
  - rewrite Ht in Hb. destruct (scan_page _ _ _ _ _) as [out|] eqn:Hout; [|done]. cbn [or_raise] in Hb.
    destruct Hsc as [Hres _ _ Hmax (old & Hold & Hscan) Hrows Hpage].
    destruct (scan_page_stops _ _ _ _ _ _ Hout) as (pre & rest & Hpp & Hskip & Hstop).
    rewrite Hpage, Hrows, select_stream in Hpp.
    replace (Z.to_nat (max_candidates limits + 1)) with (Z.to_nat (max_candidates limits) + 1)%nat in Hpp by lia.
    assert (∀ k safe, safe = last_seq scanned pre ∨ pre = [] ∧ stream j (spec durable) scanned = [] ∧ safe = next_sequence j - 1 →
      ∃ p' r k' l o, _advance_progress w safe now (set_pins k j) =
        set_progress p' (set_reservations r (set_pins k' (set_lifecycle l (set_outbox o j)))) ∧
        rows_same (wake_lifecycle j) l ∧ outbox_kept (record_outbox j) o ∧ evaluate_writes w armed now limits j p' r) as Hadv.
    { intros k safe Hsafe. unfold _advance_progress. change (evaluation_progress (set_pins k j)) with (evaluation_progress j).
      rewrite Hold. eexists _, (match_reservations j), k, (wake_lifecycle j), (record_outbox j).
      split_and!; [by destruct j|auto with rows..|]. pose proof (page_prefix _ _ _ _ Hpp) as Hst.
      eapply ew_advance; [done|done|done|done|exact Hst|done| |done|done].
      destruct Hsafe as [->|(-> & Hnil & ->)]; [by left|right]. by rewrite Hst in Hnil. }
    pose proof (Hadv (retention_pins j)) as Hadv0. rewrite set_pins_id in Hadv0.
    destruct out as [i|safe rid|safe|x o|].
    + done.
    + injection Hb as _ <- _. apply Hadv. left. apply Hstop.
    + injection Hb as _ <- _. apply Hadv0. left. apply Hstop.
    + destruct Hstop as (l0 & -> & Hc). pose proof (page_prefix _ _ _ _ Hpp) as Hst.
      unfold reserve_match in Hb. destruct (_ && _); [done|]. unfold insert_new in Hb. rewrite Hres in Hb.
      cbn [match_reservations set_pins set_reservations] in Hb. rewrite lookup_insert_eq, bind_Some in Hb.
      destruct (_matched_from_row _) as [m|]; [|done]. rewrite bind_Some in Hb.
      destruct (_ensure_match_outbox m _) as [j0|] eqn:He; [|done]. rewrite bind_Some in Hb. cbn [or_raise] in Hb.
      injection Hb as _ <- _. destruct (ensure_form _ _ _ He) as (l & ob & -> & ? & ?).
      eexists (evaluation_progress j), _, _, l, ob. split_and!; [by destruct j|done|done|].
      by eapply ew_match.
    + cbn [stops] in Hstop. subst rest. rewrite app_nil_r in Hpp.
      assert (last_sequence page j = last_seq scanned pre ∨
        pre = [] ∧ stream j (spec durable) scanned = [] ∧ last_sequence page j = next_sequence j - 1) as Hsafe.
      { rewrite Hpage, Hrows, select_stream.
        replace (Z.to_nat (max_candidates limits + 1)) with (Z.to_nat (max_candidates limits) + 1)%nat by lia.
        rewrite Hpp. unfold last_sequence, last_seq. destruct pre as [|x0 pre0]; [right|left].
        - split_and!; [done| |done]. rewrite take_take in Hpp. destruct (stream j _ scanned); [done|].
          destruct (Z.to_nat (max_candidates limits)) eqn:Hn; [lia|]. done.
        - destruct (last (x0 :: pre0)) eqn:Hl; [done|]. by apply last_None in Hl. }
      destruct (_ <? _); injection Hb as _ <- _; by apply Hadv0.
Qed.

Definition contract_key (c : SourceContract) : string * string := (contract_source c, contract_source_instance c).

(** What a committed preparation wrote. *)
Record prepared {A} (env : Env) (lease_now : Z) (c : SourceContract) (w : string) (sp : SignalRequest)
    (context : ArmContext A) (p : json) (j j' : journal) (state : state_row) (rows : gmap string arm_row) : Prop := {
  pp_instance : ∀ i, source_instances j !! contract_key c = Some i →
    si_contract_fingerprint i = _fingerprint (_canonical_json p);
  pp_state : state = default state_default (source_state j !! contract_key c);
  pp_lease : live_lease state (Some lease_now) = Some None;
  pp_tables : j' = set_arms rows (set_source_state
    (<[contract_key c := with_lease (Some (owner env)) (ss_lease_generation state + 1)
        (Some (_format_time (lease_now + source_lease_seconds env * us_second))) state]> (source_state j))
    (set_source_instances (insert_new (contract_key c) {| si_contract_json := _canonical_json p;
      si_contract_fingerprint := _fingerprint (_canonical_json p);
      si_created_at := _format_time (context_registered_at context) |} (source_instances j)) j));
  pp_rows :
    (find_arm_by_key j (idempotency_key context) = None ∧ arms j !! w = None ∧ find_arm_by_id j ("arm_" +:+ w) = None ∧
     rows = <[w := new_arm_row ("arm_" +:+ w) w (_canonical_json (_spec_payload sp))
       (_canonical_json (_resume_payload (context_resume context))) (owner env)
       (_format_time (lease_now + source_lease_seconds env * us_second)) sp context]> (arms j)) ∨
    (∃ row, find_arm_by_key j (idempotency_key context) = Some row ∧ publishable_state (row_state row) = false ∧
       row_state row ≠ "tombstoned" ∧
       rows = (λ r, if bool_decide (row_arm_id r = row_arm_id row)
         then arm_with_preparation (Some (owner env))
           (Some (_format_time (lease_now + source_lease_seconds env * us_second))) r else r) <$> arms j);
}.

Lemma take_lease_form {A} env lease_now c p sp (context : ArmContext A) existing w arm_id rj j j' a hook :
  take_lease env lease_now c (_canonical_json p) (_canonical_json (_spec_payload sp)) rj sp context existing w arm_id j
    = Commit a j' hook →
  ∃ state rows, (∀ i, source_instances j !! contract_key c = Some i →
      si_contract_fingerprint i = _fingerprint (_canonical_json p)) ∧
    state = default state_default (source_state j !! contract_key c) ∧ live_lease state (Some lease_now) = Some None ∧
    j' = set_arms rows (set_source_state
      (<[contract_key c := with_lease (Some (owner env)) (ss_lease_generation state + 1)
        (Some (_format_time (lease_now + source_lease_seconds env * us_second))) state]> (source_state j))
      (set_source_instances (insert_new (contract_key c) {| si_contract_json := _canonical_json p;
        si_contract_fingerprint := _fingerprint (_canonical_json p);
        si_created_at := _format_time (context_registered_at context) |} (source_instances j)) j)) ∧
    a = PrepGo w arm_id (ss_lease_generation state + 1) ∧
    match existing with
    | None => arms j !! w = None ∧ find_arm_by_id j arm_id = None ∧
        rows = <[w := new_arm_row arm_id w (_canonical_json (_spec_payload sp)) rj (owner env)
          (_format_time (lease_now + source_lease_seconds env * us_second)) sp context]> (arms j)
    | Some _ => rows = (λ r, if bool_decide (row_arm_id r = arm_id)
        then arm_with_preparation (Some (owner env))
          (Some (_format_time (lease_now + source_lease_seconds env * us_second))) r else r) <$> arms j
    end.
Proof.
  unfold take_lease. fold (contract_key c).
  destruct (match source_instances j !! contract_key c with Some i => _ | None => false end) eqn:Hi; [done|].
  change (source_state (set_source_instances _ j)) with (source_state j).
  remember (default state_default (source_state j !! contract_key c)) as state eqn:Hstate.
  destruct (live_lease state (Some lease_now)) as [[t|]|] eqn:Hl; [done| |done]. cbn [or_raise].
  assert (∀ i, source_instances j !! contract_key c = Some i →
      si_contract_fingerprint i = _fingerprint (_canonical_json p)) as Hfp.
  { intros i Hin. rewrite Hin in Hi. by apply negb_false_iff, bool_decide_eq_true in Hi. }
  destruct existing as [row|]; cbn [or_raise].
  - intros [= <- <- _]. eexists state, _. by split_and!.
  - unfold insert_arm. destruct (_ || _) eqn:Hd; [done|]. cbn [or_raise]. intros [= <- <- _].
    apply orb_false_iff in Hd as [[Hw Hid]%orb_false_iff _].
    apply bool_decide_eq_false, eq_None_not_Some in Hw. apply bool_decide_eq_false, eq_None_not_Some in Hid.
    eexists state, _. by split_and!.
Qed.

Lemma prepare_form {A} env lease_now c w sp (context : ArmContext A) p j j' :
  commits (prepares env lease_now c w sp context p) j j' →
  ∃ state rows, prepared env lease_now c w sp context p j j' state rows.
Proof.
  intros (a & hook & Hb). unfold prepares, prepare_body in Hb.
  destruct (find_arm_by_key j (idempotency_key context)) as [row|] eqn:Hf.
  - destruct (bool_decide (row_intent_fingerprint row = _)); cbn [negb] in Hb; [|done].
    destruct (publishable_state (row_state row)) eqn:Hpub; [done|].
    destruct (bool_decide (row_state row = "tombstoned")) eqn:Ht; [done|]. apply bool_decide_eq_false in Ht.
    destruct (preparation_held row lease_now) as [[t|]|]; [done| |done]. cbn [or_raise] in Hb.
    destruct (take_lease_form _ _ _ _ _ _ _ _ _ _ _ _ _ _ Hb) as (state & rows & ? & ? & ? & ? & _ & ?).
    exists state, rows. split; try done. right. by exists row.
  - destruct (take_lease_form _ _ _ _ _ _ _ _ _ _ _ _ _ _ Hb) as (state & rows & ? & ? & ? & ? & _ & ? & ? & ?).
    exists state, rows. split; try done. by left.
Qed.

Lemma find_by_In {B} (f : B → bool) (m : gmap string B) x :
  List.find f (snd <$> map_to_list m) = Some x → ∃ k, m !! k = Some x ∧ f x = true.
Proof.
  intros [Hin Hf]%List.find_some. apply list_elem_of_In, list_elem_of_fmap in Hin as ([k y] & -> & Hin).
  exists k. split; [by apply elem_of_map_to_list|done].
Qed.
Lemma find_by_None {B} (f : B → bool) (m : gmap string B) k x :
  List.find f (snd <$> map_to_list m) = None → m !! k = Some x → f x = false.
Proof.
  intros Hn Hx. apply (List.find_none _ _ Hn). apply list_elem_of_In, list_elem_of_fmap.
  exists (k, x). split; [done|by apply elem_of_map_to_list].
Qed.
Lemma find_arm_by_id_Some j id r : find_arm_by_id j id = Some r → ∃ w, arms j !! w = Some r ∧ row_arm_id r = id.
Proof. intros (w & ? & ?%bool_decide_eq_true)%find_by_In. eauto. Qed.
Lemma find_arm_by_key_Some j key r : find_arm_by_key j key = Some r → ∃ w, arms j !! w = Some r ∧ row_idempotency_key r = key.
Proof. intros (w & ? & ?%bool_decide_eq_true)%find_by_In. eauto. Qed.
Lemma find_arm_by_id_None j id w r : find_arm_by_id j id = None → arms j !! w = Some r → row_arm_id r ≠ id.
Proof. intros Hn Hr. pose proof (find_by_None _ _ _ _ Hn Hr) as H. by apply bool_decide_eq_false in H. Qed.
Lemma find_arm_by_key_None j key w r : find_arm_by_key j key = None → arms j !! w = Some r → row_idempotency_key r ≠ key.
Proof. intros Hn Hr. pose proof (find_by_None _ _ _ _ Hn Hr) as H. by apply bool_decide_eq_false in H. Qed.

Lemma release_form arm_id key owner gen j j' : commits (release_preparation_body arm_id key owner gen) j j' →
  ∃ ss, j' = set_source_state ss (set_arms ((λ r, if bool_decide (row_arm_id r = arm_id) &&
    bool_decide (row_preparer_token r = Some owner) then arm_with_preparation None None r else r) <$> arms j) j).
Proof.
  intros (a & hook & Hb). unfold release_preparation_body in Hb. injection Hb as _ <- _.
  destruct (release_lease_form key owner gen (update_arms (λ r, bool_decide (row_arm_id r = arm_id) &&
    bool_decide (row_preparer_token r = Some owner)) (arm_with_preparation None None) j)) as [ss ->]. by exists ss.
Qed.

(** What a committed [finish] saw and wrote. *)
Record finished {A} (env : Env) (c : SourceContract) (w arm_id : string) (generation : Z) (sp : SignalRequest)
    (context : ArmContext A) (a0 : SourceAnchor) (j j' : journal) (state : state_row) (row : arm_row) : Prop := {
  fi_state : source_state j !! contract_key c = Some state;
  fi_row : ∃ w0, arms j !! w0 = Some row ∧ row_arm_id row = arm_id;
  fi_owner : ss_lease_owner state = Some (owner env);
  fi_generation : ss_lease_generation state = generation;
  fi_token : row_preparer_token row = Some (owner env);
  fi_tables : let a := effective_anchor a0 state in
    let at_ := _format_time (context_registered_at context) in
    let armed := {| wake_id := w; Signals.arm_id := arm_id; spec := sp; anchor := a;
                    registered_at := context_registered_at context; expires_at := context_expires_at context;
                    publication := "prepared" |} in
    let record := build_signal_record (resolve env) armed (context_resume context) (journal_uuid j) 1 (max_attempts context) in
    j' = release_lease (contract_key c) (owner env) generation
      (set_outbox (insert_new (w, 1) {| ob_operation := "put"; ob_target_status := Some "pending";
         ob_source_status := None; ob_payload_json := record.1; ob_payload_sha256 := record.2;
         ob_state := "pending"; ob_attempt_count := 0; ob_last_attempt_at := None; ob_created_at := at_;
         ob_applied_at := None; ob_blocked_code := None |} (record_outbox j))
      (set_lifecycle (insert_new w {| lc_desired_status := "pending"; lc_desired_revision := 1;
         lc_applied_status := None; lc_applied_revision := None; lc_updated_at := at_ |} (wake_lifecycle j))
      (set_pins (insert_new ("anchor:" +:+ w) (anchor_pin w (local_after_sequence a) at_) (retention_pins j))
      (set_progress (insert_new w {| pr_scanned_through_sequence := local_after_sequence a; pr_revision := 0;
         pr_updated_at := at_ |} (evaluation_progress j))
      (set_arms ((λ r, if bool_decide (row_arm_id r = arm_id) then arm_anchored a at_ r else r) <$> arms j) j)))));
}.
Lemma finish_form {A} env c w arm_id generation sp (context : ArmContext A) a0 j j' :
  commits (finish_body env c w arm_id generation sp context a0) j j' →
  ∃ state row, finished env c w arm_id generation sp context a0 j j' state row.
Proof.
  intros (a & hook & Hb). unfold finish_body in Hb. fold (contract_key c) in Hb.
  destruct (source_state j !! contract_key c) as [state|] eqn:Hs; [|done].
  destruct (find_arm_by_id j arm_id) as [row|] eqn:Hr; [|done].
  destruct (negb _) eqn:Hg; [done|]. apply negb_false_iff in Hg. rewrite !andb_true_iff, !bool_decide_eq_true in Hg.
  destruct Hg as [[Ho Hgen] Ht].
  destruct (build_signal_record _ _ _ _ _ _) as [pj sha] eqn:Hrec. injection Hb as _ <- _.
  apply Z.eqb_eq in Hgen. apply find_arm_by_id_Some in Hr.
  exists state, row. split; [done|done|done|done|done|]. cbv zeta. by rewrite Hrec.
Qed.

Lemma publish_form env w capable j j' : commits (publish_registration_body env w capable) j j' →
  ∃ row at_ l o, arms j !! w = Some row ∧ publishable_state (row_state row) = true ∧ capable = true ∧
    j' = set_arms (<[w := arm_published at_ row]> (arms j)) (set_lifecycle l (set_outbox o j)) ∧
    rows_same (wake_lifecycle j) l ∧ outbox_kept (record_outbox j) o.
Proof.
  intros (a & hook & Hb). unfold publish_registration_body in Hb.
  destruct (arms j !! w) as [row|] eqn:Hr; [|done].
  destruct (publishable_state (row_state row)) eqn:Hp; [|done]. destruct capable; [|done]. cbn [negb orb] in Hb.
  destruct (lease_clock env) as [now|]; [|done]. cbn [or_raise] in Hb.
  destruct (apply_lifecycle_form w "pending" 1 (_format_time now)
    (update_outbox (w, 1) (outbox_applied (_format_time now) (λ n, n + 1)) j)) as (l & Hl & Hsame).
  rewrite Hl in Hb. injection Hb as _ <- _. eexists row, _, l, _. split_and!; try done. auto with rows.
Qed.
Lemma blocked_form env w code j : ∃ o, _mark_publication_blocked env w code j = set_outbox o j ∧
  outbox_kept (record_outbox j) o.
Proof.
  unfold _mark_publication_blocked. destruct (transact _ _ _ _ _) as [u j'] eqn:Ht. simpl.
  apply transact_commits in Ht as [->|(a & hook & Hb)].
  - exists (record_outbox j). rewrite set_outbox_id. auto with rows.
  - destruct (lease_clock env); [|done]. cbn [or_raise] in Hb. injection Hb as _ <- _. eexists. split; [done|auto with rows].
Qed.
Lemma match_publish_form env w rev sha capable j j' : commits (match_publication_body env w rev sha capable) j j' →
  ∃ l o, j' = set_lifecycle l (set_outbox o j) ∧ rows_same (wake_lifecycle j) l ∧ outbox_kept (record_outbox j) o.
Proof.
  intros (a & hook & Hb). unfold match_publication_body in Hb.
  destruct (firing_authority w rev j) as [o|]; [|done]. destruct (_ || _); [done|].
  destruct (lease_clock env) as [now|]; [|done]. cbn [or_raise] in Hb. injection Hb as _ <- _.
  destruct (apply_lifecycle_form w "firing" rev (_format_time now) (update_outbox (w, rev)
    (outbox_applied (_format_time now) (λ n, if bool_decide (ob_state o = "applied") then n else n + 1)) j)) as (l & -> & ?).
  eexists l, _. split_and!; [done|done|auto with rows].
Qed.

Lemma retire_form record status now j j' : retirable record status j → commits (retire_body record status now) j j' →
  ∃ w row f, str_field "id" record = Some w ∧ arms j !! w = Some row ∧ row_state row ≠ "preparing" ∧
    (status = "expired" → match_reservations j !! w = None) ∧
    j' = terminate w (_format_time now) row (retired_tombstone row w status (_format_time now)
           (registration_tombstones j !! row_idempotency_key row)) f j.
Proof.
  intros (Hdec & Hst & Hterm & Hprep) (a & hook & Hb). unfold retire_body in Hb.
  destruct (decoded_identifier _ Hdec) as (w & Hid & _). rewrite Hid in Hb. cbn [default] in Hb. change (id w) with w in Hb.
  destruct (arms j !! w) as [row|] eqn:Hrow; [|done].
  destruct (negb _); [done|].
  destruct (bool_decide (status = "expired") && _) eqn:Hexp; [done|].
  destruct (bool_decide (_ = None) && _); [done|]. injection Hb as _ <- _. eexists w, row, _. split_and!; try done; [by eapply Hprep|].
  intros ->. rewrite bool_decide_true in Hexp by done. by apply bool_decide_eq_false, eq_None_not_Some in Hexp.
Qed.
Lemma expire_form w now j j' : commits (expire_body w now) j j' →
  ∃ row f, arms j !! w = Some row ∧ row_state row = "published" ∧ match_reservations j !! w = None ∧
    (∃ text expiry, row_expires_at row = Some text ∧ _parse_time text = Some expiry ∧ expiry ≤ now) ∧
    j' = terminate w (_format_time now) row (expired_tombstone row w (_format_time now)
           (registration_tombstones j !! row_idempotency_key row)) f j.
Proof.
  intros (a & hook & Hb). unfold expire_body in Hb.
  destruct (arms j !! w) as [row|] eqn:Hrow; [|done].
  destruct (bool_decide (row_state row = "published")) eqn:Hp; [|done]. apply bool_decide_eq_true in Hp. cbn [negb] in Hb.
  destruct (row_expires_at row) as [text|] eqn:Ht; [|done].
  destruct (_parse_time text) as [e|] eqn:He; [|done]. cbn [or_raise] in Hb.
  destruct (_ || _) eqn:Ho; [done|]. destruct (bool_decide (_ = None) && _); [done|]. injection Hb as _ <- _.
  apply orb_false_iff in Ho as [Hlt Hres]. apply bool_decide_eq_false, eq_None_not_Some in Hres.
  eexists row, _. split_and!; try done. exists text, e. split_and!; try done. lia.
Qed.

(** ** Compaction *)
(** A compaction keeps every receipt a live pin holds, every live pin, and of
    every reservation all but the reference to its receipt. *)
Record compacted (through : Z) (j j' : journal) : Prop := {
  co_tables : j' = set_pins (retention_pins j') (set_reservations (match_reservations j') (set_receipts (receipts j') j));
  co_sublist : receipts j' `sublist_of` receipts j;
  co_kept : ∀ r, r ∈ receipts j → through < rc_local_sequence r ∨ pinned j r = true → r ∈ receipts j';
  co_pins : ∀ k p, pin_live p = true → retention_pins j' !! k = Some p ↔ retention_pins j !! k = Some p;
  co_reservations : ∀ w m', match_reservations j' !! w = Some m' → ∃ m, match_reservations j !! w = Some m ∧
    mr_match_token m' = mr_match_token m ∧ mr_matched_at m' = mr_matched_at m ∧ mr_evidence_json m' = mr_evidence_json m;
  co_domain : ∀ w, is_Some (match_reservations j' !! w) ↔ is_Some (match_reservations j !! w);
}.

Lemma pinned_spec j r : pinned j r = true ↔ ∃ k p, retention_pins j !! k = Some p ∧ pin_live p = true ∧
  pin_holds p (rc_receipt_id r) (rc_local_sequence r) = true.
Proof.
  unfold pinned. rewrite existsb_exists. split.
  - intros ([k p] & Hin%list_elem_of_In%elem_of_map_to_list & Hh). exists k, p. split_and!; try done.
    unfold pin_holds in Hh. by apply andb_true_iff in Hh as [? _].
  - intros (k & p & Hk & _ & Hh). exists (k, p). split; [by apply list_elem_of_In, elem_of_map_to_list|done].
Qed.
Lemma pinned_pins j j' r :
  (∀ k p, pin_live p = true → retention_pins j' !! k = Some p ↔ retention_pins j !! k = Some p) →
  pinned j' r = pinned j r.
Proof.
  intros Hp. apply eq_true_iff_eq. rewrite !pinned_spec.
  split; intros (k & p & Hk & Hl & Hh); exists k, p; split_and!; try done; by apply (Hp k p Hl).
Qed.

#[export] Instance compacted_preorder through : PreOrder (compacted through).
Proof.
  split.
  - intros j. split; try done; [by destruct j|]. intros w m ->. by exists m.
  - intros j1 j2 j3 [Ht Hs Hk Hp Hr Hd] [Ht' Hs' Hk' Hp' Hr' Hd']. split.
    + rewrite Ht', Ht. by destruct j1, j2, j3.
    + by etrans.
    + intros r Hin Hc. apply Hk'; [by apply Hk|]. destruct Hc as [|Hc]; [by left|right]. by rewrite (pinned_pins j1) by done.
    + intros k p Hl. rewrite Hp' by done. by apply Hp.
    + intros w m3 Hm. destruct (Hr' w m3 Hm) as (m2 & Hm2 & ? & ? & ?). destruct (Hr w m2 Hm2) as (m1 & Hm1 & ? & ? & ?).
      exists m1. split_and!; [done|congruence..].
    + intros w. by rewrite Hd'.
Qed.

(** Receipt ids name rows. *)
Definition receipt_ids_unique (l : list receipt_row) : Prop :=
  ∀ r1 r2, r1 ∈ l → r2 ∈ l → rc_receipt_id r1 = rc_receipt_id r2 → r1 = r2.

Lemma delete_compacted r through j j' : receipt_ids_unique (receipts j) → r ∈ receipts j →
  rc_local_sequence r ≤ through → pinned j r = false → delete_receipt r j = Some j' → compacted through j j'.
Proof.
  intros Hu Hin Hle Hp. unfold delete_receipt. destruct (existsb _ _) eqn:He; [done|]. intros [= <-]. split; simpl.
  - by destruct j.
  - apply sublist_filter.
  - intros r' Hr' Hkeep. apply list_elem_of_filter. split; [|done]. intros Hid.
    assert (r' = r) as -> by (by apply Hu). destruct Hkeep; [lia|congruence].
  - intros k p Hl. rewrite map_lookup_filter_Some. split; [tauto|]. intros Hk. split; [done|].
    intros [_ Hrel]. by apply bool_decide_eq_true in Hl.
  - intros w m'. rewrite lookup_fmap. intros (m & Hm & ->)%fmap_Some. exists m. split; [done|].
    by destruct (bool_decide _).
  - intros w. by rewrite lookup_fmap, fmap_is_Some.
Qed.

Lemma delete_length rid (r : receipt_row) l : NoDup l → receipt_ids_unique l → r ∈ l → rc_receipt_id r = rid →
  Z.of_nat (length (filter (λ r', rc_receipt_id r' ≠ rid) l)) = Z.of_nat (length l) - 1.
Proof.
  intros Hnd Hu Hin <-. pose proof Hin as [k Hk]%elem_of_Permutation.
  rewrite Hk in Hnd. apply NoDup_cons in Hnd as [Hni _].
  assert (filter (λ r', rc_receipt_id r' ≠ rc_receipt_id r) l ≡ₚ k) as ->; [|rewrite Hk; simpl; lia].
  rewrite Hk, filter_cons, decide_False by (intros Hne; by apply Hne).
  assert (filter (λ r', rc_receipt_id r' ≠ rc_receipt_id r) k = k) as ->; [|done].
  apply list_filter_all, Forall_forall. intros r' Hr' Hid. apply Hni. rewrite <- (Hu r' r); [done| |done|done].
  rewrite Hk. by right.
Qed.

Lemma compact_loop_compacted through rows d k j j' d' k' : NoDup (receipts j) → receipt_ids_unique (receipts j) →
  Forall (λ r, rc_local_sequence r ≤ through) rows → (∀ r, r ∈ rows → r ∈ receipts j) → NoDup rows →
  compact_loop rows d k j = Some (j', d', k') →
  compacted through j j' ∧ d' + k' = d + k + Z.of_nat (length rows) ∧
  Z.of_nat (length (receipts j')) = Z.of_nat (length (receipts j)) - (d' - d) ∧
  (∀ r, r ∈ rows → pinned j r = false → r ∉ receipts j') ∧ ∀ r, r ∈ receipts j → r ∉ rows → r ∈ receipts j'.
Proof.
  revert d k j. induction rows as [|r rows IH]; intros d k j Hndj Hu Hle Hin Hnd; cbn [compact_loop].
  { intros [= <- <- <-]. split_and!; [done|simpl; lia|lia| |done]. intros r Hr. by apply not_elem_of_nil in Hr. }
  apply Forall_cons in Hle as [Hr Hle]. apply NoDup_cons in Hnd as [Hni Hnd].
  destruct (pinned j r) eqn:Hp.
  - intros Hl. destruct (IH _ _ _ Hndj Hu Hle ltac:(intros; apply Hin; by right) Hnd Hl) as (Hc & Hsum & Hlen & Hdel & Hoth).
    split_and!; [done|simpl; lia|lia| |].
    + intros r' [->|Hr']%elem_of_cons Hp'; [congruence|by apply Hdel].
    + intros r' Hr' [_ Hni']%not_elem_of_cons. by apply Hoth.
  - destruct (delete_receipt r j) as [j1|] eqn:Hd; [|done]. cbn [mbind option_bind]. intros Hl.
    pose proof (delete_compacted _ _ _ _ Hu (Hin r ltac:(by left)) Hr Hp Hd) as Hc1.
    assert (receipts j1 = filter (λ r', rc_receipt_id r' ≠ rc_receipt_id r) (receipts j)) as Hj1.
    { unfold delete_receipt in Hd. destruct (existsb _ _); [done|]. by injection Hd as <-. }
    assert (receipt_ids_unique (receipts j1)) as Hu1.
    { intros r1 r2 H1 H2. rewrite Hj1 in H1, H2. apply list_elem_of_filter in H1 as [_ H1], H2 as [_ H2]. by apply Hu. }
    assert (NoDup (receipts j1)) as Hndj1 by (rewrite Hj1; by apply NoDup_filter).
    assert (∀ r', r' ∈ rows → r' ∈ receipts j1) as Hin1.
    { intros r' Hr'. rewrite Hj1. apply list_elem_of_filter. split; [|apply Hin; by right].
      intros Hid. apply Hni. rewrite (Hu r r'); [done|apply Hin; by left|apply Hin; by right|done]. }
    destruct (IH _ _ _ Hndj1 Hu1 Hle Hin1 Hnd Hl) as (Hc & Hsum & Hlen & Hdel & Hoth).
    split_and!; [by etrans|simpl; lia| | |].
    + pose proof (delete_length _ r _ Hndj Hu (Hin r ltac:(by left)) eq_refl) as Hdl. rewrite <- Hj1 in Hdl. lia.
    + intros r' [->|Hr']%elem_of_cons Hp'.
      * intros Hbad. pose proof (elem_of_sublist _ _ _ Hbad (co_sublist _ _ _ Hc)) as Hbad'.
        rewrite Hj1 in Hbad'. by apply list_elem_of_filter in Hbad' as [? _].
      * apply Hdel; [done|]. rewrite (pinned_pins j); [done|apply Hc1].
    + intros r' Hr' [Hne Hni']%not_elem_of_cons. apply Hoth; [|done]. rewrite Hj1. apply list_elem_of_filter.
      split; [|done]. intros Hid. apply Hne. apply Hu; [done|apply Hin; by left|done].
Qed.

Lemma receipts_ids_unique j : receipts_inv j → receipt_ids_unique (receipts j) ∧ NoDup (receipts j).
Proof.
  intros [Hs Hr Hrows Hid _ _]. split; [|by eapply NoDup_fmap_1].
  intros r1 r2 H1 H2 Heq. rewrite Forall_forall in Hr, Hrows.
  destruct (Hrows r1 H1) as (o1 & _ & E1), (Hrows r2 H2) as (o2 & _ & E2).
  assert (rc_receipt_id r1 = event_id (rc_local_sequence r1)) as I1 by (rewrite E1; done).
  assert (rc_receipt_id r2 = event_id (rc_local_sequence r2)) as I2 by (rewrite E2; done).
  rewrite I1, I2 in Heq. pose proof (Hr r1 H1). pose proof (Hr r2 H2). apply event_id_inj in Heq; [|lia..].
  apply list_elem_of_lookup in H1 as [a Ha], H2 as [b Hb].
  pose proof (sorted_sequences _ Hs) as Hnd.
  assert (a = b) as ->; [|congruence].
  eapply (NoDup_lookup _ a b (rc_local_sequence r1) Hnd); rewrite list_lookup_fmap, ?Ha, ?Hb; simpl; congruence.
Qed.
Lemma oldest_facts j through n : NoDup (receipts j) → NoDup (oldest_receipts j through n) ∧
  ∀ r, r ∈ oldest_receipts j through n → r ∈ receipts j ∧ rc_local_sequence r ≤ through.
Proof.
  intros Hnd. unfold oldest_receipts. split.
  - eapply sublist_NoDup; [|apply sublist_take]. rewrite merge_sort_Permutation. by apply NoDup_filter.
  - intros r Hin. pose proof (elem_of_sublist _ _ _ Hin (sublist_take _ _)) as Hin'.
    rewrite merge_sort_Permutation in Hin'. by apply list_elem_of_filter in Hin' as [? ?].
Qed.
Lemma compact_form env through limit j r j' : receipts_inv j → compact_receipts env through limit j = (r, j') →
  compacted through j j'.
Proof.
  intros Hinv. unfold compact_receipts. destruct (_ || _); [by intros [= _ <-]|]. intros Ht.
  apply transact_commits in Ht as [->|(a & hook & Hb)]; [done|].
  destruct (compact_loop _ _ _ _) as [[[j0 d] k]|] eqn:Hl; [|done]. cbn [or_raise] in Hb. injection Hb as _ <- _.
  destruct (receipts_ids_unique j Hinv) as [Hu Hnd].
  destruct (oldest_facts j through (Z.to_nat limit) Hnd) as [Hndo Hold].
  eapply compact_loop_compacted; [done|done| |intros r0 Hin; by apply Hold|done|exact Hl].
  apply Forall_forall. intros r0 Hin. by apply Hold.
Qed.
Lemma release_pins_form env w reasons at_ j r j' : release_retention_pins env w reasons at_ j = (r, j') →
  ∃ k, j' = set_pins k j.
Proof.
  assert (∃ k, j = set_pins k j) as Hid by (exists (retention_pins j); by rewrite set_pins_id).
  unfold release_retention_pins. destruct (_ || _); [by intros [= _ <-]|]. intros Ht.
  apply transact_commits in Ht as [->|(a & hook & Hb)]; [done|]. injection Hb as _ <- _. by eexists.
Qed.
