(* ===== verification/StoreHistory.v ===== *)
(** * The invariant of the journal

    [journal_inv] holds of a fresh journal and after every transaction
    ([journal_step_inv]), hence in every history.  Its parts speak of a few
    tables each, so that a transaction only has to re-establish the parts
    whose tables it writes. *)
From S2P Require Import Prelude Json Sha256 Datetime Signals SignalCodec SignalRecords SignalStore StoreIngest StoreScan StoreSteps.
Open Scope Z_scope.

(** ** The parts *)
Definition instance_ok (key : string * string) (i : instance_row) : Prop :=
  ∃ c p, _contract_payload c = Some p ∧ si_contract_json i = _canonical_json p ∧
    si_contract_fingerprint i = _fingerprint (_canonical_json p) ∧ key = contract_key c.

(** Arm ids and idempotency keys are UNIQUE. *)
Definition arms_unique (m : gmap string arm_row) : Prop :=
  ∀ w1 w2 r1 r2, m !! w1 = Some r1 → m !! w2 = Some r2 →
    row_arm_id r1 = row_arm_id r2 ∨ row_idempotency_key r1 = row_idempotency_key r2 → w1 = w2.

(** The rows that belong to an arm: none before it is prepared, all of them
    from then on. *)
Definition live (m : gmap string arm_row) (w : string) : Prop := ∃ r, m !! w = Some r ∧ row_state r ≠ "preparing".
(** The first outbox row of an arm holds its pending wake record. *)
Definition pending_record (w : string) (o : outbox_row) : Prop := ∃ resolve armed resume uuid attempts,
  wake_id armed = w ∧ json_ok (JObj (resume_target resume)) ∧
  (ob_payload_json o, ob_payload_sha256 o) = build_signal_record resolve armed resume uuid 1 attempts.
Record tables_ok (j : journal) : Prop := {
  to_progress : ∀ w, is_Some (evaluation_progress j !! w) ↔ live (arms j) w;
  to_lifecycle : ∀ w, is_Some (wake_lifecycle j !! w) ↔ live (arms j) w;
  to_outbox : ∀ w, live (arms j) w → ∃ o, record_outbox j !! (w, 1) = Some o ∧ pending_record w o;
  to_unprepared : ∀ w, ¬ live (arms j) w → record_outbox j !! (w, 1) = None;
  to_reserved : ∀ w, is_Some (match_reservations j !! w) → live (arms j) w;
}.

(** A reservation holds the evidence of the match it stands for. *)
Definition reservation_ok (w : string) (m : reservation_row) : Prop :=
  ∃ x n, 0 ≤ n ∧ matched_wake_id x = w ∧ match_token x = "match:" +:+ w +:+ ":" +:+ event_id n ∧
    calendar_range (matched_at x) ∧ mr_evidence_json m = _canonical_json (_matched_payload x) ∧
    mr_match_token m = match_token x.

(** The tombstones are those of the tombstoned arms. *)
Record tombstones_ok (m : gmap string arm_row) (t : gmap string tombstone_row) : Prop := {
  tk_arm : ∀ key x, t !! key = Some x → ∃ r, m !! ts_wake_id x = Some r ∧ row_idempotency_key r = key ∧
    row_state r = "tombstoned";
  tk_tombstone : ∀ w r, m !! w = Some r → row_state r = "tombstoned" → ∃ x, t !! row_idempotency_key r = Some x;
}.

(** Progress skips nothing: every receipt it has passed was ruled out. *)
Definition progress_ok (j : journal) (w : string) (r : arm_row) : Prop :=
  ∀ durable p, _armed_from_row r = Some durable → evaluation_progress j !! w = Some p →
    (pr_scanned_through_sequence p ≤ local_after_sequence (anchor durable) ∨
     pr_scanned_through_sequence p < next_sequence j) ∧
    ∀ i c x, source_instances j !! (spec_source (spec durable), spec_source_instance (spec durable)) = Some i →
      _contract_from_json (si_contract_json i) = Some c →
      x ∈ receipts j → for_signal durable x → rc_local_sequence x ≤ pr_scanned_through_sequence p →
      passed_over c durable x.

Record journal_inv (j : journal) : Prop := {
  ji_receipts : receipts_inv j;
  ji_instances : map_Forall instance_ok (source_instances j);
  ji_arms : map_Forall arm_ok (arms j);
  ji_unique : arms_unique (arms j);
  ji_sources : map_Forall (λ _ r, is_Some (source_instances j !! (row_source r, row_source_instance r))) (arms j);
  ji_tables : tables_ok j;
  ji_reserved : map_Forall reservation_ok (match_reservations j);
  ji_tombstones : tombstones_ok (arms j) (registration_tombstones j);
  ji_progress : map_Forall (progress_ok j) (arms j);
}.

Lemma journal_init_inv uuid at_ : journal_inv (journal_init uuid at_).
Proof.
  assert (∀ w, ¬ live ∅ w) as Hlive by (intros w (r & Hr & _); by rewrite lookup_empty in Hr).
  assert (∀ {K} `{Countable K} {V} (k : K), ¬ is_Some ((∅ : gmap K V) !! k)) as Hnone.
  { intros K ? ? V k [x Hx]. by rewrite lookup_empty in Hx. }
  split; simpl; try apply map_Forall_empty.
  - apply receipts_init.
  - intros w1 w2 r1 r2 H1. by rewrite lookup_empty in H1.
  - split; simpl; intros w; try split; intros Hx; (by destruct (Hnone _ _ _ _ w Hx)) || (by destruct (Hlive w Hx)) || (by destruct (Hnone _ _ _ _ _ Hx)).
  - split; [intros key x Hk|intros w r Hk]; by rewrite lookup_empty in Hk.
Qed.

Lemma instances_contracts j : map_Forall instance_ok (source_instances j) → contracts_ok j.
Proof.
  intros H. eapply map_Forall_impl; [exact H|]. intros key i (c & p & Hp & Hj & _ & Hk).
  exists c. rewrite Hj. split; [by apply contract_round_trip|done].
Qed.

(** ** Rows of an arm that change *)
Lemma armed_components r d : _armed_from_row r = Some d →
  ∃ after b t, row_local_after_sequence r = Some after ∧ row_baseline_json r = Some b ∧
    baseline_of_json b = Some (baseline (anchor d)) ∧ _spec_from_json (row_spec_json r) = Some (spec d) ∧
    _parse_time (row_registered_at r) = Some t ∧ registered_at d = t ∧
    anchor d = {| local_after_sequence := after; source_anchor := default EmptyString (row_source_anchor r);
                  baseline := baseline (anchor d); recovery := default EmptyString (row_recovery r) |} ∧
    wake_id d = row_wake_id r ∧ arm_id d = row_arm_id r ∧ publication d = row_state r.
Proof.
  unfold _armed_from_row. destruct (row_local_after_sequence r) as [after|]; [|done].
  destruct (row_baseline_json r) as [b|]; [|done]. rewrite !bind_Some.
  destruct (baseline_of_json b) as [bl|] eqn:Hb; [|done]. rewrite bind_Some.
  destruct (_spec_from_json _) as [sp|]; [|done]. rewrite bind_Some.
  destruct (_parse_time (row_registered_at r)) as [t|]; [|done]. rewrite bind_Some.
  destruct (if truthy _ then _ else _) as [e|]; [|done]. rewrite bind_Some. intros [= <-].
  exists after, b, t. by rewrite Hb.
Qed.

Definition same_signal (d d' : ArmedSignal) : Prop :=
  wake_id d' = wake_id d ∧ arm_id d' = arm_id d ∧ spec d' = spec d ∧ anchor d' = anchor d ∧
  registered_at d' = registered_at d ∧ expires_at d' = expires_at d.

Lemma with_state_signal st r d' : _armed_from_row (arm_with_state st r) = Some d' →
  ∃ d, _armed_from_row r = Some d ∧ same_signal d d' ∧ publication d' = st.
Proof.
  unfold _armed_from_row. simpl.
  destruct (row_local_after_sequence r) as [after|]; [|done].
  destruct (row_baseline_json r) as [b|]; [|done]. rewrite !bind_Some.
  destruct (baseline_of_json b) as [bl|] eqn:Hb; [|done]. rewrite !bind_Some.
  destruct (_spec_from_json _) as [sp|]; [|done]. rewrite !bind_Some.
  destruct (_parse_time (row_registered_at r)) as [t|]; [|done]. rewrite !bind_Some.
  destruct (if truthy _ then _ else _) as [e|]; [|done]. rewrite !bind_Some. intros [= <-].
  by eexists.
Qed.

(** ** How the arms table changes *)
Record arms_step (m m' : gmap string arm_row) : Prop := {
  as_old : ∀ w r', m' !! w = Some r' → (∃ r, m !! w = Some r ∧ arm_change r r') ∨
    (m !! w = None ∧ arm_ok w r' ∧ row_state r' = "preparing" ∧ ∀ w0 r0, m !! w0 = Some r0 →
      row_arm_id r0 ≠ row_arm_id r' ∧ row_idempotency_key r0 ≠ row_idempotency_key r');
  as_keep : ∀ w r, m !! w = Some r → ∃ r', m' !! w = Some r' ∧ arm_change r r';
  as_fresh : ∀ w1 w2, m !! w1 = None → m !! w2 = None → is_Some (m' !! w1) → is_Some (m' !! w2) → w1 = w2;
}.

Lemma arms_step_refl m : arms_step m m.
Proof.
  split.
  - intros w r' Hr. left. exists r'. split; [done|by apply ac_same].
  - intros w r Hr. exists r. split; [done|by apply ac_same].
  - intros w1 w2 -> _ [? ?]. done.
Qed.
Lemma arms_step_update m (p : arm_row → bool) (f : arm_row → arm_row) :
  (∀ w r, m !! w = Some r → p r = true → arm_change r (f r)) → arms_step m ((λ r, if p r then f r else r) <$> m).
Proof.
  intros H. split.
  - intros w r'. rewrite lookup_fmap. intros (r & Hr & ->)%fmap_Some. left. exists r. split; [done|].
    destruct (p r) eqn:Hp; [by eapply H|by apply ac_same].
  - intros w r Hr. rewrite lookup_fmap, Hr. eexists. split; [done|]. destruct (p r) eqn:Hp; [by eapply H|by apply ac_same].
  - intros w1 w2 H1 _. rewrite lookup_fmap, H1. intros [? ?]. done.
Qed.
Lemma arms_step_write m w r r' : m !! w = Some r → arm_change r r' → arms_step m (<[w := r']> m).
Proof.
  intros Hr Hc. split.
  - intros w0 r0. destruct (decide (w = w0)) as [<-|Hne].
    + rewrite lookup_insert_eq. intros [= <-]. left. by exists r.
    + rewrite lookup_insert_ne by done. intros H. left. exists r0. split; [done|by apply ac_same].
  - intros w0 r0 H0. destruct (decide (w = w0)) as [<-|Hne].
    + rewrite lookup_insert_eq. exists r'. split; [done|]. congruence.
    + rewrite lookup_insert_ne by done. exists r0. split; [done|by apply ac_same].
  - intros w1 w2 H1 _. rewrite lookup_insert_ne by congruence. rewrite H1. intros [? ?]. done.
Qed.
Lemma arms_step_new m w r : m !! w = None → arm_ok w r → row_state r = "preparing" →
  (∀ w0 r0, m !! w0 = Some r0 → row_arm_id r0 ≠ row_arm_id r ∧ row_idempotency_key r0 ≠ row_idempotency_key r) →
  arms_step m (<[w := r]> m).
Proof.
  intros Hn Hok Hs Hf. split.
  - intros w0 r0. destruct (decide (w = w0)) as [<-|Hne].
    + rewrite lookup_insert_eq. intros [= <-]. by right.
    + rewrite lookup_insert_ne by done. intros H. left. exists r0. split; [done|by apply ac_same].
  - intros w0 r0 H0. rewrite lookup_insert_ne by congruence. exists r0. split; [done|by apply ac_same].
  - assert (∀ w0, m !! w0 = None → is_Some (<[w:=r]> m !! w0) → w0 = w) as Hw.
    { intros w0 H0. destruct (decide (w = w0)) as [<-|Hne]; [done|]. rewrite lookup_insert_ne, H0 by done. intros [? ?]. done. }
    intros w1 w2 H1 H2 S1 S2. by rewrite (Hw w1), (Hw w2).
Qed.

Lemma arms_step_rows m m' : arms_step m m' → map_Forall arm_ok m → map_Forall arm_ok m'.
Proof.
  intros Hs Hok w r' Hr. destruct (as_old _ _ Hs w r' Hr) as [(r & Hm & Hc)|(_ & ? & _)]; [|done].
  eapply arm_change_ok; [by apply Hok|done].
Qed.
Lemma arms_step_unique m m' : arms_step m m' → arms_unique m → arms_unique m'.
Proof.
  intros [Hold _ Hfresh] Hu w1 w2 r1 r2 H1 H2 Heq.
  destruct (Hold w1 r1 H1) as [(o1 & O1 & [? _ ? _ _ _ _ _ _]%arm_change_same)|(O1 & _ & _ & F1)],
    (Hold w2 r2 H2) as [(o2 & O2 & [? _ ? _ _ _ _ _ _]%arm_change_same)|(O2 & _ & _ & F2)].
  - apply (Hu w1 w2 o1 o2 O1 O2). destruct Heq; [left|right]; congruence.
  - destruct (F2 w1 o1 O1) as [? ?]. destruct Heq; congruence.
  - destruct (F1 w2 o2 O2) as [? ?]. destruct Heq; congruence.
  - by apply Hfresh.
Qed.

(** A durable signal is the same as before unless it was just anchored. *)
Lemma arm_change_signal r r' d' : arm_change r r' → row_state r ≠ "preparing" →
  (∀ t, row_preparer_token r ≠ Some t) → _armed_from_row r' = Some d' →
  ∃ d, _armed_from_row r = Some d ∧ same_signal d d'.
Proof.
  intros Hc Hs Ht Hd. destruct Hc as [->|? ? Hp ->|t Htok ->|? ? t Htok ->|at_ _ ->|_ ->]; try done.
  - by exists d'.
  - by destruct (Ht t).
  - by destruct (Ht t).
  - change (_armed_from_row (arm_published at_ r)) with (_armed_from_row (arm_with_state "published" r)) in Hd.
    apply with_state_signal in Hd as (d & ? & ? & _). by exists d.
  - apply with_state_signal in Hd as (d & ? & ? & _). by exists d.
Qed.

(** ** Frames *)
(** Steps that neither prepare a signal nor anchor one. *)
Lemma live_step m m' w : arms_step m m' → map_Forall arm_ok m →
  (∀ w r r', m !! w = Some r → m' !! w = Some r' → row_state r = "preparing" → row_state r' = "preparing") →
  live m' w ↔ live m w.
Proof.
  intros Hs Hok Hp. split.
  - intros (r' & Hr' & Hne). destruct (as_old _ _ Hs w r' Hr') as [(r & Hr & _)|(_ & _ & ? & _)]; [|done].
    exists r. split; [done|]. intros H. by destruct Hne, (Hp w r r').
  - intros (r & Hr & Hne). destruct (as_keep _ _ Hs w r Hr) as (r' & Hr' & Hc). exists r'. split; [done|].
    specialize (Hok w r Hr). destruct Hc as [->|? ? ? ->|t Ht ->|? ? t Ht ->|? _ ->|_ ->]; try done.
Qed.

Lemma tables_frame j j' : tables_ok j → (∀ w, live (arms j') w ↔ live (arms j) w) →
  rows_same (evaluation_progress j) (evaluation_progress j') → rows_same (wake_lifecycle j) (wake_lifecycle j') →
  outbox_kept (record_outbox j) (record_outbox j') →
  (∀ w, is_Some (match_reservations j' !! w) → is_Some (match_reservations j !! w) ∨ live (arms j) w) → tables_ok j'.
Proof.
  intros [Hp Hl Ho Hun Hr] Hlive Hp' Hl' [Ho' Hun'] Hr'. split; intros w.
  - by rewrite (Hp' w), (Hp w), (Hlive w).
  - by rewrite (Hl' w), (Hl w), (Hlive w).
  - intros Hw%Hlive. destruct (Ho w Hw) as (o & Hwo & Hpr). destruct (Ho' _ _ Hwo) as (o' & Hwo' & E1 & E2).
    exists o'. split; [done|]. unfold pending_record in *. by rewrite E1, E2.
  - intros Hw. apply eq_None_not_Some. intros [o Ho1]%Hun'. rewrite Hun in Ho1; [done|]. by rewrite <- Hlive.
  - intros [H|H]%Hr'; apply Hlive; [by apply Hr|done].
Qed.

Lemma tombstones_frame m m' t : arms_step m m' → map_Forall arm_ok m →
  (∀ w r', m' !! w = Some r' → row_state r' = "tombstoned" → ∃ r, m !! w = Some r ∧ row_state r = "tombstoned") →
  tombstones_ok m t → tombstones_ok m' t.
Proof.
  intros Hs Hok Hnew [Ha Ht]. split.
  - intros key x Hx. destruct (Ha key x Hx) as (r & Hr & Hk & Hst).
    destruct (as_keep _ _ Hs _ r Hr) as (r' & Hr' & Hc). exists r'. split; [done|].
    pose proof (arm_change_same _ _ Hc) as Hsame. split; [rewrite (sa_key _ _ Hsame); done|].
    destruct (Hok _ r Hr) as [_ _ _ _ _ Htok _]. rewrite Hst in Htok. specialize (Htok ltac:(done)).
    destruct Hc as [->|? ? ? ->|? ? ->|? ? ? ? ->|? Hpub ->|_ ->]; try done; try congruence.
    apply publishable_spec in Hpub. destruct Hpub; congruence.
  - intros w r' Hr' Hst. destruct (Hnew w r' Hr' Hst) as (r & Hr & Hst'). destruct (as_keep _ _ Hs w r Hr) as (r2 & Hr2 & Hc).
    assert (r2 = r') as -> by congruence. rewrite (sa_key _ _ (arm_change_same _ _ Hc)). by eapply Ht.
Qed.

Lemma arm_spec_key w r d : arm_ok w r → _armed_from_row r = Some d →
  (spec_source (spec d), spec_source_instance (spec d)) = (row_source r, row_source_instance r).
Proof.
  intros [_ (sp & Hsp & Hkey) _ _ _ _ _] Hd. destruct (armed_components r d Hd) as (? & ? & ? & _ & _ & _ & Hs & _).
  rewrite Hsp, spec_round_trip in Hs. injection Hs as <-. done.
Qed.

(** Progress stays right when receipts are only added behind [next_sequence]
    or removed, and the signals it speaks of are the same. *)
Lemma progress_frame j j' : journal_inv j →
  (∀ w r' d', arms j' !! w = Some r' → _armed_from_row r' = Some d' → is_Some (evaluation_progress j' !! w) →
     ∃ r d, arms j !! w = Some r ∧ _armed_from_row r = Some d ∧ same_signal d d') →
  evaluation_progress j' = evaluation_progress j → next_sequence j ≤ next_sequence j' →
  (∀ key i, is_Some (source_instances j !! key) → source_instances j' !! key = Some i → source_instances j !! key = Some i) →
  (∀ x, x ∈ receipts j' → x ∈ receipts j ∨ next_sequence j ≤ rc_local_sequence x) →
  map_Forall (progress_ok j') (arms j').
Proof.
  intros Hinv Harm Hprog Hnext Hinst Hrec w r' Hr' d' p Hd' Hp.
  destruct (Harm w r' d' Hr' Hd' ltac:(by eexists)) as (r & d & Hr & Hd & (_ & _ & Hspec & Hanc & _)).
  rewrite Hprog in Hp. destruct (ji_progress j Hinv w r Hr d p Hd Hp) as [Hb Hsk]. rewrite Hanc. split; [lia|].
  intros i c x Hi Hc Hx Hfor Hle limits. rewrite Hspec in Hi. unfold for_signal in Hfor. rewrite Hspec, Hanc in Hfor.
  rewrite (classify_signal _ d) by done.
  destruct (Hrec x Hx) as [Hx'|Hge]; [|destruct Hfor; lia].
  eapply Hsk; try done. apply Hinst; [|done].
  rewrite (arm_spec_key w r d (ji_arms j Hinv w r Hr) Hd). by apply (ji_sources j Hinv w).
Qed.

Lemma sublist_StronglySorted {A} (R : relation A) (l k : list A) : l `sublist_of` k → StronglySorted R k → StronglySorted R l.
Proof.
  induction 1 as [|x l k Hs IH|x l k Hs IH]; [done|..]; intros [Hk Hall]%StronglySorted_inv; [|by apply IH].
  constructor; [by apply IH|]. rewrite Forall_forall in Hall |- *. intros y Hy. apply Hall. by eapply elem_of_sublist.
Qed.
Lemma receipts_frame j j' : receipts_inv j → receipts j' `sublist_of` receipts j → next_sequence j' = next_sequence j →
  map_Forall (λ _ s, 0 ≤ ss_last_local_sequence s < next_sequence j) (source_state j') → receipts_inv j'.
Proof.
  intros [Hs Hr Hrows Hid Hn Hl] Hsub Hnext Hst. split; rewrite ?Hnext; try done.
  - by eapply sublist_StronglySorted.
  - rewrite Forall_forall in Hr |- *. intros x Hx. apply Hr. by eapply elem_of_sublist.
  - rewrite Forall_forall in Hrows |- *. intros x Hx. apply Hrows. by eapply elem_of_sublist.
  - eapply sublist_NoDup; [exact Hid|]. by apply fmap_sublist.
Qed.
Lemma receipts_same j j' : receipts_inv j → receipts j' = receipts j → next_sequence j' = next_sequence j →
  source_state j' = source_state j → receipts_inv j'.
Proof. intros H Hr Hn Hs. eapply receipts_frame; [done|by rewrite Hr|done|rewrite Hs; apply H]. Qed.

(** ** Each step keeps the invariant *)
(** Steps that write none of the tables of [journal_inv] but the life cycle,
    the outbox and the pins. *)
Lemma records_inv j l o k : journal_inv j → rows_same (wake_lifecycle j) l → outbox_kept (record_outbox j) o →
  journal_inv (set_lifecycle l (set_outbox o (set_pins k j))).
Proof.
  intros [] Hl Ho. split; try done; [by eapply receipts_same|].
  eapply tables_frame; [done|..]; simpl; auto with rows.
Qed.

Lemma journal_ingest_inv env obs commit j j' : journal_inv j → Forall obs_times_ok obs →
  commits (ingest_body env obs commit) j j' → journal_inv j'.
Proof.
  intros Hinv Hobs (a & hook & Hb).
  pose proof (ingest_body_spec env obs commit j (ji_receipts j Hinv) (instances_contracts j (ji_instances j Hinv)) Hobs) as Hs.
  rewrite Hb in Hs. destruct Hs as (inst & state & c & staged & refs & _ & Hst & _ & _ & _ & _ & Hok & -> & _).
  pose proof Hinv as []. split; try done.
  - by eapply ingested_inv.
  - eapply tables_frame; [done|..]; simpl; auto with rows.
  - apply (progress_frame j); try done; simpl.
    + intros w r' d' Hr Hd _. exists r', d'. by split_and!.
    + lia.
    + intros x [Hx|Hx]%elem_of_app; [by left|right].
      pose proof (new_rows_range (next_sequence j) (fresh_items j staged)) as Hr. rewrite Forall_forall in Hr.
      specialize (Hr x Hx). simpl in Hr. lia.
Qed.

(** Advancing past a ruled-out prefix of the stream keeps progress right. *)
Lemma advance_ok w armed j row durable c pre rest old safe : journal_inv j → arms j !! w = Some row →
  _armed_from_row row = Some durable → evaluates w armed j durable c → evaluation_progress j !! w = Some old →
  let scanned := local_after_sequence (anchor durable) `max` pr_scanned_through_sequence old in
  stream j (spec durable) scanned = pre ++ rest → Forall (passed_over c durable) pre →
  safe = last_seq scanned pre ∨ pre = [] ∧ rest = [] ∧ safe = next_sequence j - 1 →
  let p := pr_scanned_through_sequence old `max` safe in
  (p ≤ local_after_sequence (anchor durable) ∨ p < next_sequence j) ∧
  ∀ i c0 x, source_instances j !! (spec_source (spec durable), spec_source_instance (spec durable)) = Some i →
    _contract_from_json (si_contract_json i) = Some c0 →
    x ∈ receipts j → for_signal durable x → rc_local_sequence x ≤ p → passed_over c0 durable x.
Proof.
  intros Hinv Hrow Hd Hev Hold scanned Hst Hskip Hsafe p.
  destruct (ji_progress j Hinv w row Hrow durable old Hd Hold) as [Hb Hsk].
  assert (∀ y, y ∈ pre → y ∈ receipts j ∧ rc_local_sequence y < next_sequence j) as Hpre.
  { intros y Hy. assert (y ∈ stream j (spec durable) scanned) as (Hin & _)%stream_elem by (rewrite Hst; apply elem_of_app; by left).
    split; [done|]. pose proof (ri_range j (ji_receipts j Hinv)) as Hr. rewrite Forall_forall in Hr. by apply Hr. }
  split.
  - subst p. assert (safe = scanned ∨ safe < next_sequence j) as Hs; [|subst scanned; lia].
    destruct Hsafe as [->|(_ & _ & ->)]; [|right; lia]. unfold last_seq. destruct (last pre) as [y|] eqn:Hy; [right|by left].
    apply last_Some in Hy as [pre' ->]. simpl. apply Hpre, elem_of_app. right. by left.
  - intros i c0 x Hi Hc0 Hx [Hon Hafter] Hle.
    destruct (decide (rc_local_sequence x ≤ pr_scanned_through_sequence old)) as [Ho|Ho]; [by eapply Hsk|].
    destruct (ev_contract _ _ _ _ _ Hev) as (i' & Hi' & _ & Hc). assert (c0 = c) as -> by congruence.
    rewrite Forall_forall in Hskip. apply Hskip.
    destruct Hsafe as [->|(-> & -> & _)].
    + eapply stream_prefix; [by apply Hinv|exact Hst|done|done| |reflexivity|]; subst p scanned; [lia|].
      unfold last_seq in *. destruct (last pre); simpl in *; lia.
    + assert (x ∈ stream j (spec durable) scanned) as Hin by (apply stream_elem; subst scanned; split_and!; [done|done|lia]).
      rewrite Hst in Hin. by apply not_elem_of_nil in Hin.
Qed.

Lemma evaluate_inv w armed now limits j j' : journal_inv j → calendar_range now →
  commits (evaluate_body w armed now limits) j j' → journal_inv j'.
Proof.
  intros Hinv Hnow (p & r & k & l & o & -> & Hl & Ho & Hw)%evaluate_form. pose proof Hinv as [].
  assert (∀ durable c, evaluates w armed j durable c → live (arms j) w ∧
    ∃ row, arms j !! w = Some row ∧ _armed_from_row row = Some durable) as Hlive.
  { intros durable c [(row & Hrow & Hd) Hpub _ _ _]. split; [|by exists row]. exists row. split; [done|].
    destruct (armed_components row durable Hd) as (?&?&?&_&_&_&_&_&_&_&_&_&Hst). intros Hbad. congruence. }
  destruct Hw as [m Hm -> ->|durable c scanned pre rest old safe Hev Hres Hold Hscan Hst Hskip Hsafe -> ->
    |durable c scanned pre x rest obs old Hev Hres Hold Hscan Hst Hskip Hc -> ->].
  - split; try done; [by eapply receipts_same|]. eapply tables_frame; [done|..]; simpl; auto with rows.
  - destruct (Hlive _ _ Hev) as [Hlw (row & Hrow & Hd)]. split; try done.
    + by eapply receipts_same.
    + eapply tables_frame; [done|..]; simpl; auto with rows. apply rows_same_insert. by eexists.
    + clear Hlive. intros w0 r0 Hr0. destruct (decide (w = w0)) as [<-|Hne].
      * assert (r0 = row) as -> by (simpl in Hr0; congruence). intros d p Hd'. assert (d = durable) as -> by congruence.
        simpl. rewrite lookup_insert_eq. intros [= <-]. simpl.
        subst scanned. exact (advance_ok w armed j row durable c pre rest old safe Hinv Hrow Hd Hev Hold Hst Hskip Hsafe).
      * intros d p Hd'. simpl. rewrite lookup_insert_ne by done. intros Hp. by eapply (ji_progress j Hinv w0 r0).
  - destruct (Hlive _ _ Hev) as [Hlw (row & Hrow & Hd)]. split; try done.
    + by eapply receipts_same.
    + eapply tables_frame; [done|..]; simpl; auto with rows. intros w0.
      destruct (decide (w = w0)) as [<-|Hne]; [by right|rewrite lookup_insert_ne by done; by left].
    + apply map_Forall_insert_2; [|done].
      assert (x ∈ stream j (spec durable) scanned) as (Hx & _)%stream_elem by (rewrite Hst; apply elem_of_app; right; by left).
      pose proof (ri_rows j ji_receipts0) as Hrows. pose proof (ri_range j ji_receipts0) as Hrange.
      rewrite Forall_forall in Hrows, Hrange. destruct (Hrows x Hx) as (ox & _ & Hxo). specialize (Hrange x Hx).
      exists (match_of w x obs now), (rc_local_sequence x). split_and!; try done; [lia|]. by rewrite Hxo at 1.
Qed.

Lemma insert_new_lookup `{Countable K} {V} (m : gmap K V) k v k' :
  insert_new k v m !! k' = if decide (k = k') then Some (default v (m !! k)) else m !! k'.
Proof.
  unfold insert_new. destruct (m !! k) as [x|] eqn:Hk; case_decide as Hd; subst; rewrite ?Hk; simpl; try done.
  - by rewrite lookup_insert_eq.
  - by rewrite lookup_insert_ne.
Qed.
Lemma insert_new_fresh `{Countable K} {V} (m : gmap K V) k v : m !! k = None → insert_new k v m = <[k := v]> m.
Proof. intros Hk. unfold insert_new. by rewrite Hk. Qed.
#[global] Arguments insert_new : simpl never.
Lemma insert_new_keeps `{Countable K} {V} (m : gmap K V) k v k' : is_Some (m !! k') → insert_new k v m !! k' = m !! k'.
Proof. intros [x Hx]. rewrite insert_new_lookup. case_decide; [subst; by rewrite Hx|done]. Qed.

Lemma arm_of_id j w r arm_id w' r' : journal_inv j → arms j !! w = Some r → row_arm_id r = arm_id →
  arms j !! w' = Some r' → row_arm_id r' = arm_id → w' = w ∧ r' = r.
Proof.
  intros Hinv Hr Hi Hr' Hi'. assert (w' = w) as -> by (eapply (ji_unique j Hinv); [done|done|left; congruence]).
  split; [done|congruence].
Qed.
Lemma preparing_row w r : arm_ok w r → publishable_state (row_state r) = false → row_state r ≠ "tombstoned" →
  row_state r = "preparing".
Proof.
  intros Hok Hp Ht. pose proof (ao_state w r Hok) as Hs. rewrite !elem_of_cons, elem_of_nil in Hs.
  assert (¬ (row_state r = "prepared" ∨ row_state r = "published")); [|tauto].
  intros H%publishable_spec. congruence.
Qed.

(** The arms a preparation leaves behind. *)
Lemma prepared_arms {A} env lease_now c w sp (context : ArmContext A) p j j' state rows : journal_inv j →
  context_ok context → prepared env lease_now c w sp context p j j' state rows →
  arms_step (arms j) rows ∧ (∀ w r r', arms j !! w = Some r → rows !! w = Some r' → row_state r' = row_state r) ∧
  ∀ w r', rows !! w = Some r' → arms j !! w = None → (row_source r', row_source_instance r') = (spec_source sp, spec_source_instance sp).
Proof.
  intros Hinv (Hreg & Hexp & _) [_ _ _ _ Hrows].
  destruct Hrows as [(Hkey & Hw & Hid & ->)|(row & Hf & Hp & Ht & ->)].
  - split_and!.
    + apply arms_step_new; [done| |done|].
      * split; simpl; try done.
        -- by exists sp.
        -- by eexists.
        -- destruct (context_expires_at context) as [t|]; [right|by left]. exists t. split; [by apply Hexp|done].
        -- by left.
      * intros w0 r0 Hr0. split; [by eapply find_arm_by_id_None|by eapply find_arm_by_key_None].
    + intros w0 r r' Hr Hr'. rewrite lookup_insert_ne in Hr' by congruence. congruence.
    + intros w0 r' Hr' Hn. destruct (decide (w = w0)) as [<-|]; [|rewrite lookup_insert_ne in Hr' by done; congruence].
      rewrite lookup_insert_eq in Hr'. by injection Hr' as <-.
  - apply find_arm_by_key_Some in Hf as (w' & Hw' & _).
    pose proof (preparing_row w' row (ji_arms j Hinv w' row Hw') Hp Ht) as Hst. split_and!.
    + apply arms_step_update. intros w0 r0 Hr0 Hid%bool_decide_eq_true.
      destruct (arm_of_id j w' row _ w0 r0 Hinv Hw' eq_refl Hr0 Hid) as [-> ->]. by eapply ac_token.
    + intros w0 r r' Hr. rewrite lookup_fmap, Hr. intros [= <-]. by destruct (bool_decide _).
    + intros w0 r' Hr' Hn. by rewrite lookup_fmap, Hn in Hr'.
Qed.

(** Steps of the arms that keep every row's state. *)
Lemma same_state_tables m m' j : journal_inv j → m = arms j → arms_step m m' →
  (∀ w r r', m !! w = Some r → m' !! w = Some r' → row_state r' = row_state r) →
  (∀ w, live m' w ↔ live m w) ∧ tombstones_ok m' (registration_tombstones j).
Proof.
  intros Hinv -> Hs Hst. split.
  - intros w. apply live_step; [done|by apply Hinv|]. intros w0 r r' Hr Hr' <-. by eapply Hst.
  - eapply tombstones_frame; [done|by apply Hinv| |by apply Hinv]. intros w r' Hr' Ht.
    destruct (as_old _ _ Hs w r' Hr') as [(r & Hr & _)|(_ & _ & Hp & _)]; [|congruence].
    exists r. split; [done|]. by rewrite <- (Hst w r r').
Qed.

(** Signals that are already durable do not change in such steps. *)
Lemma same_state_signals j m' w r' d' : journal_inv j → arms_step (arms j) m' →
  (∀ w r r', arms j !! w = Some r → m' !! w = Some r' → row_state r' = row_state r) →
  m' !! w = Some r' → _armed_from_row r' = Some d' → is_Some (evaluation_progress j !! w) →
  ∃ r d, arms j !! w = Some r ∧ _armed_from_row r = Some d ∧ same_signal d d'.
Proof.
  intros Hinv Hs Hst Hr' Hd' Hp. apply (to_progress j (ji_tables j Hinv)) in Hp as (r & Hr & Hne).
  destruct (as_keep _ _ Hs w r Hr) as (r2 & Hr2 & Hc). assert (r2 = r') as -> by congruence.
  destruct (arm_change_signal r r' d' Hc Hne) as (d & Hd & Hsame); [|done|by exists r, d].
  intros t Ht. rewrite (ao_token _ _ (ji_arms j Hinv w r Hr) Hne) in Ht. done.
Qed.

Lemma validated_key sp c : _validate_signal sp c = None → (spec_source sp, spec_source_instance sp) = contract_key c.
Proof.
  unfold _validate_signal. destruct (negb (_valid_occurrence_order _ _)); [done|]. destruct (negb (bool_decide (_ = SInt 1))); [done|].
  destruct (bool_decide (spec_source sp = _)) eqn:H1; [|done].
  destruct (bool_decide (spec_source_instance sp = _)) eqn:H2; [|done]. intros _.
  apply bool_decide_eq_true in H1, H2. unfold contract_key. by rewrite H1, H2.
Qed.

Lemma prepare_inv {A} env lease_now c w sp (context : ArmContext A) p j j' : journal_inv j →
  _validate_signal sp c = None → _contract_payload c = Some p → context_ok context →
  commits (prepares env lease_now c w sp context p) j j' → journal_inv j'.
Proof.
  intros Hinv Hv Hp Hctx (state & rows & Hprep)%prepare_form.
  destruct (prepared_arms _ _ _ _ _ _ _ _ _ _ _ Hinv Hctx Hprep) as (Hstep & Hst & Hsrc).
  destruct (same_state_tables _ _ j Hinv eq_refl Hstep Hst) as [Hlive Htomb].
  destruct Hprep as [Hfp Hstate _ -> _]. pose proof Hinv as [].
  set (i := {| si_contract_json := _; si_contract_fingerprint := _; si_created_at := _ |}).
  assert (∀ k x, source_instances j !! k = Some x → insert_new (contract_key c) i (source_instances j) !! k = Some x) as Hkeep.
  { intros k x Hx. rewrite insert_new_keeps; [done|by eexists]. }
  split; simpl; try done.
  - eapply receipts_frame; [done|done|done|]. simpl. apply map_Forall_insert_2; [|by apply ji_receipts0].
    subst state. simpl. pose proof (ri_next _ ji_receipts0).
    destruct (source_state j !! contract_key c) as [s|] eqn:Hs; simpl; [|lia]. by apply (ri_last _ ji_receipts0 _ _ Hs).
  - intros k x. rewrite insert_new_lookup. case_decide as Hk; [|by apply ji_instances0]. subst k.
    intros [= <-]. destruct (source_instances j !! contract_key c) as [x|] eqn:Hx; simpl; [by apply ji_instances0|].
    by exists c, p.
  - by eapply arms_step_rows.
  - by eapply arms_step_unique.
  - intros w0 r' Hr'. destruct (as_old _ _ Hstep w0 r' Hr') as [(r & Hr & Hc)|(Hn & _)].
    + destruct (ji_sources0 w0 r Hr) as [x Hx]. exists x. apply Hkeep.
      pose proof (arm_change_same _ _ Hc) as Hsame. by rewrite (sa_source _ _ Hsame), (sa_instance _ _ Hsame).
    + rewrite (Hsrc w0 r' Hr' Hn). 
      assert (contract_key c = (spec_source sp, spec_source_instance sp)) as <- by (symmetry; by apply validated_key).
      rewrite insert_new_lookup, decide_True by done. by eexists.
  - eapply tables_frame; [done|..]; simpl; auto with rows.
  - apply (progress_frame j); try done; simpl.
    + intros w0 r' d' Hr' Hd' Hpr. by eapply same_state_signals.
    + intros k x Hk Hx. rewrite insert_new_keeps in Hx by done. done.
    + tauto.
Qed.

Lemma release_lease_states key o g j : map_Forall (λ _ s, 0 ≤ ss_last_local_sequence s < next_sequence j) (source_state j) →
  map_Forall (λ _ s, 0 ≤ ss_last_local_sequence s < next_sequence j) (source_state (release_lease key o g j)).
Proof.
  intros H. unfold release_lease. destruct (source_state j !! key) as [s|] eqn:Hs; [|done]. destruct (_ && _); [|done].
  simpl. apply map_Forall_insert_2; [exact (H key s Hs)|done].
Qed.

Lemma release_inv arm_id key owner g j j' : journal_inv j →
  commits (release_preparation_body arm_id key owner g) j j' → journal_inv j'.
Proof.
  intros Hinv (a & hook & Hb). unfold release_preparation_body in Hb. injection Hb as _ <- _.
  set (f := λ r, if bool_decide (row_arm_id r = arm_id) && bool_decide (row_preparer_token r = Some owner)
                 then arm_with_preparation None None r else r).
  set (j1 := update_arms _ _ j). change j1 with (set_arms (f <$> arms j) j).
  assert (arms_step (arms j) (f <$> arms j)) as Hstep.
  { apply arms_step_update. intros w r Hr [_ Ht%bool_decide_eq_true]%andb_true_iff. by eapply ac_clear. }
  assert (∀ w r r', arms j !! w = Some r → (f <$> arms j) !! w = Some r' → row_state r' = row_state r) as Hst.
  { intros w r r' Hr. rewrite lookup_fmap, Hr. intros [= <-]. unfold f. by destruct (_ && _). }
  destruct (same_state_tables _ _ j Hinv eq_refl Hstep Hst) as [Hlive Htomb]. pose proof Hinv as [].
  pose proof (release_lease_states key owner g (set_arms (f <$> arms j) j) (ri_last _ ji_receipts0)) as Hlast.
  destruct (release_lease_form key owner g (set_arms (f <$> arms j) j)) as [ss Hss]. rewrite Hss in Hlast |- *.
  split; simpl; try done.
  - by eapply receipts_frame.
  - by eapply arms_step_rows.
  - by eapply arms_step_unique.
  - intros w r' Hr'. destruct (as_old _ _ Hstep w r' Hr') as [(r & Hr & Hc)|(Hn & _)].
    + pose proof (arm_change_same _ _ Hc) as Hsame. rewrite (sa_source _ _ Hsame), (sa_instance _ _ Hsame). by apply (ji_sources0 w).
    + by rewrite lookup_fmap, Hn in Hr'.
  - eapply tables_frame; [done|..]; simpl; auto with rows.
  - apply (progress_frame j); try done; simpl; [|tauto]. intros w r' d' Hr' Hd' Hp. by eapply same_state_signals.
Qed.

Lemma publish_inv env w capable j j' : journal_inv j → commits (publish_registration_body env w capable) j j' → journal_inv j'.
Proof.
  intros Hinv (row & at_ & l & o & Hrow & Hpub & _ & -> & Hl & Ho)%publish_form. pose proof Hinv as [].
  pose proof (arms_step_write _ _ _ _ Hrow (ac_publish _ _ at_ Hpub eq_refl)) as Hstep.
  apply publishable_spec in Hpub.
  assert (∀ w0, live (<[w:=arm_published at_ row]> (arms j)) w0 ↔ live (arms j) w0) as Hlive.
  { intros w0. apply live_step; [done|done|]. intros w1 r r' Hr Hr' Hs. destruct (decide (w = w1)) as [<-|Hne].
    - assert (r = row) as -> by congruence. destruct Hpub; congruence.
    - rewrite lookup_insert_ne in Hr' by done. congruence. }
  split; simpl; try done.
  - by eapply receipts_same.
  - by eapply arms_step_rows.
  - by eapply arms_step_unique.
  - apply map_Forall_insert_2; [by apply (ji_sources0 w row)|done].
  - eapply tables_frame; [done|..]; simpl; auto with rows.
  - eapply tombstones_frame; [done|done| |done]. intros w0 r' Hr' Hst. destruct (decide (w = w0)) as [<-|Hne].
    + rewrite lookup_insert_eq in Hr'. injection Hr' as <-. done.
    + rewrite lookup_insert_ne in Hr' by done. by exists r'.
  - apply (progress_frame j); try done; simpl; [|tauto]. intros w0 r' d' Hr' Hd' Hp.
    destruct (decide (w = w0)) as [<-|Hne].
    + rewrite lookup_insert_eq in Hr'. injection Hr' as <-. exists row.
      change (_armed_from_row (arm_published at_ row)) with (_armed_from_row (arm_with_state "published" row)) in Hd'.
      destruct (with_state_signal _ _ _ Hd') as (d & Hd & Hs & _). by exists d.
    + rewrite lookup_insert_ne in Hr' by done. exists r', d'. by split_and!.
Qed.

Lemma insert_live {V} (m : gmap string V) w x (P : string → Prop) w1 :
  (is_Some (m !! w1) ↔ P w1) → is_Some (<[w := x]> m !! w1) ↔ P w1 ∨ w1 = w.
Proof.
  intros H. destruct (decide (w = w1)) as [<-|Hne].
  - rewrite lookup_insert_eq. split; [by right|by eexists].
  - rewrite lookup_insert_ne, H by done. split; [by left|]. intros [?| ->]; done.
Qed.

Lemma finish_inv {A} env c w arm_id generation sp (context : ArmContext A) anchor row j j' : journal_inv j → context_ok context →
  arms j !! w = Some row → row_arm_id row = arm_id →
  commits (finish_body env c w arm_id generation sp context anchor) j j' → journal_inv j'.
Proof.
  intros Hinv (_ & _ & Htarget) Hrow Hid (state & row' & [Hst (w0 & Hrow' & Hid') _ _ Htok Htables])%finish_form.
  destruct (arm_of_id j w row _ w0 row' Hinv Hrow Hid Hrow' Hid') as [-> ->]. clear Hrow' Hid'.
  pose proof Hinv as []. cbv zeta in Htables.
  assert (row_state row = "preparing") as Hprep.
  { destruct (decide (row_state row = "preparing")) as [|Hne]; [done|]. rewrite (ao_token _ _ (ji_arms0 w row Hrow) Hne) in Htok. done. }
  assert (¬ live (arms j) w) as Hnl by (intros (r & Hr & Hne); congruence).
  set (a := effective_anchor anchor state) in *. set (at_ := _format_time _) in *.
  set (f := λ r, if bool_decide (row_arm_id r = arm_id) then arm_anchored a at_ r else r) in *.
  assert (evaluation_progress j !! w = None) as Hnp by (apply eq_None_not_Some; intros H%(to_progress _ ji_tables0); done).
  assert (wake_lifecycle j !! w = None) as Hnlc by (apply eq_None_not_Some; intros H%(to_lifecycle _ ji_tables0); done).
  rewrite (insert_new_fresh _ _ _ Hnp), (insert_new_fresh _ _ _ Hnlc) in Htables.
  assert ((f <$> arms j) !! w = Some (arm_anchored a at_ row)) as Hfw.
  { rewrite lookup_fmap, Hrow. simpl. unfold f. by rewrite bool_decide_true. }
  assert (∀ w1 r1, w1 ≠ w → (f <$> arms j) !! w1 = Some r1 → arms j !! w1 = Some r1) as Hfne.
  { intros w1 r1 Hne. rewrite lookup_fmap. intros (r & Hr & ->)%fmap_Some. rewrite Hr. unfold f.
    destruct (bool_decide (row_arm_id r = arm_id)) eqn:Hb; [|done]. apply bool_decide_eq_true in Hb.
    destruct (arm_of_id j w row _ w1 r Hinv Hrow Hid Hr Hb) as [-> _]. done. }
  assert (arms_step (arms j) (f <$> arms j)) as Hstep.
  { apply arms_step_update. intros w1 r1 Hr1 Hb%bool_decide_eq_true.
    destruct (arm_of_id j w row _ w1 r1 Hinv Hrow Hid Hr1 Hb) as [-> ->]. by eapply ac_anchor. }
  assert (∀ w1, live (f <$> arms j) w1 ↔ live (arms j) w1 ∨ w1 = w) as Hlive.
  { intros w1. destruct (decide (w1 = w)) as [->|Hne].
    - split; [by right|]. intros _. by exists (arm_anchored a at_ row).
    - split; [intros (r & Hr & ?); left; exists r; split; [by apply Hfne|done]|]. intros [(r & Hr & Hs)|]; [|done].
      destruct (as_keep _ _ Hstep w1 r Hr) as (r' & Hr' & _). exists r'. split; [done|].
      apply Hfne in Hr'; [|done]. congruence. }
  pose proof (release_lease_states (contract_key c) (owner env) generation) as Hlast.
  match type of Htables with _ = release_lease _ _ _ ?x => specialize (Hlast x (ri_last _ ji_receipts0));
    destruct (release_lease_form (contract_key c) (owner env) generation x) as [ss Hss] end.
  rewrite Hss in Htables, Hlast. subst j'. clear Hss. split; simpl; try done.
  - by eapply receipts_frame.
  - by eapply arms_step_rows.
  - by eapply arms_step_unique.
  - intros w1 r' Hr'. destruct (as_old _ _ Hstep w1 r' Hr') as [(r & Hr & Hc)|(Hn & _)].
    + pose proof (arm_change_same _ _ Hc) as Hsame. rewrite (sa_source _ _ Hsame), (sa_instance _ _ Hsame). by apply (ji_sources0 w1).
    + by rewrite lookup_fmap, Hn in Hr'.
  - split; simpl; intros w1; try rewrite (Hlive w1).
    + apply (insert_live _ _ _ (live (arms j))), ji_tables0.
    + apply (insert_live _ _ _ (live (arms j))), ji_tables0.
    + rewrite insert_new_lookup. intros Hw. destruct (decide (w = w1)) as [<-|Hne].
      * rewrite decide_True, (to_unprepared _ ji_tables0) by done. eexists. split; [reflexivity|].
        exists (resolve env), {| wake_id := w; Signals.arm_id := arm_id; spec := sp; Signals.anchor := a;
          registered_at := context_registered_at context; expires_at := context_expires_at context;
          publication := "prepared" |}, (context_resume context), (journal_uuid j), (max_attempts context).
        by split_and!.
      * rewrite decide_False by congruence. destruct Hw; [by apply (to_outbox _ ji_tables0)|done].
    + rewrite insert_new_lookup. intros Hw. destruct (decide (w = w1)) as [<-|Hne]; [destruct Hw; by right|].
      rewrite decide_False by congruence. apply (to_unprepared _ ji_tables0). tauto.
    + intros H. left. by apply (to_reserved _ ji_tables0).
  - eapply tombstones_frame; [done|done| |done]. intros w1 r' Hr' Ht. destruct (decide (w1 = w)) as [->|Hne].
    + rewrite Hfw in Hr'. by injection Hr' as <-.
    + exists r'. split; [by apply Hfne|done].
  - intros w1 r' Hr' d p Hd Hp. simpl in Hp. destruct (decide (w = w1)) as [<-|Hne].
    + rewrite Hfw in Hr'. injection Hr' as <-. rewrite lookup_insert_eq in Hp. injection Hp as <-.
      destruct (armed_components _ _ Hd) as (after & _ & _ & Hafter & _ & _ & _ & _ & _ & Hanc & _).
      injection Hafter as <-. rewrite Hanc. simpl. split; [left; done|].
      intros i c0 x _ _ _ [_ Hlt] Hle. rewrite Hanc in Hlt. simpl in Hlt. lia.
    + rewrite lookup_insert_ne in Hp by done. apply (ji_progress0 w1 r'); [|done|done]. by apply Hfne.
Qed.

Lemma terminate_inv w at_ row t f j : journal_inv j → arms j !! w = Some row → row_state row ≠ "preparing" →
  ts_wake_id t = w → journal_inv (terminate w at_ row t f j).
Proof.
  intros Hinv Hrow Hs Ht. pose proof Hinv as []. set (row' := arm_with_state "tombstoned" row).
  assert (arms_step (arms j) (<[w := row']> (arms j))) as Hstep by (eapply arms_step_write; [done|by apply ac_tombstone]).
  assert (∀ w0, live (<[w := row']> (arms j)) w0 ↔ live (arms j) w0) as Hlive.
  { intros w0. apply live_step; [done|done|]. intros w1 r r' Hr Hr' Hp. destruct (decide (w = w1)) as [<-|Hne].
    - congruence.
    - rewrite lookup_insert_ne in Hr' by done. congruence. }
  unfold terminate, release_pins. split; simpl; try done.
  - by eapply receipts_same.
  - by eapply arms_step_rows.
  - by eapply arms_step_unique.
  - apply map_Forall_insert_2; [by apply (ji_sources0 w row)|done].
  - eapply tables_frame; [done|..]; simpl; auto with rows.
  - destruct ji_tombstones0 as [Ha Htk]. split.
    + intros key x. destruct (decide (row_idempotency_key row = key)) as [<-|Hne].
      * rewrite lookup_insert_eq. intros [= <-]. exists row'. by rewrite Ht, lookup_insert_eq.
      * rewrite lookup_insert_ne by done. intros Hx. destruct (Ha key x Hx) as (r & Hr & Hk & Hst).
        exists r. rewrite lookup_insert_ne; [done|]. intros Heq. rewrite <- Heq in Hr. congruence.
    + intros w0 r. destruct (decide (w = w0)) as [<-|Hne].
      * rewrite lookup_insert_eq. intros [= <-] _. exists t. simpl. by rewrite lookup_insert_eq.
      * rewrite lookup_insert_ne by done. intros Hr Hst. destruct (Htk w0 r Hr Hst) as [x Hx]. exists x.
        rewrite lookup_insert_ne; [done|]. intros Hk. destruct Hne. eapply ji_unique0; [done|done|by right].
  - apply (progress_frame j); try done; simpl; [|tauto]. intros w0 r' d' Hr' Hd' Hp.
    destruct (decide (w = w0)) as [<-|Hne].
    + rewrite lookup_insert_eq in Hr'. injection Hr' as <-. exists row.
      destruct (with_state_signal _ _ _ Hd') as (d & Hd & Hsame & _). by exists d.
    + rewrite lookup_insert_ne in Hr' by done. exists r', d'. by split_and!.
Qed.

(** A tombstone of the arm's key is the arm's. *)
Lemma tombstone_wake w row j x : journal_inv j → arms j !! w = Some row →
  registration_tombstones j !! row_idempotency_key row = Some x → ts_wake_id x = w.
Proof.
  intros Hinv Hr Hx. destruct (tk_arm _ _ (ji_tombstones j Hinv) _ x Hx) as (r & Hr' & Hk & _).
  eapply (ji_unique j Hinv); [done|done|by right].
Qed.

Lemma retire_inv record status now j j' : journal_inv j → retirable record status j →
  commits (retire_body record status now) j j' → journal_inv j'.
Proof.
  intros Hinv Hret (w & row & f & _ & Hrow & Hs & _ & ->)%retire_form; [|done]. apply terminate_inv; [done..|].
  unfold retired_tombstone. simpl. destruct (registration_tombstones j !! _) as [x|] eqn:Hx; [|done]. by eapply tombstone_wake.
Qed.
Lemma expire_inv w now j j' : journal_inv j → commits (expire_body w now) j j' → journal_inv j'.
Proof.
  intros Hinv (row & f & Hrow & Hs & _ & _ & ->)%expire_form. apply terminate_inv; [done|done|congruence|].
  unfold expired_tombstone. destruct (registration_tombstones j !! _) as [x|] eqn:Hx; [|done]. by eapply tombstone_wake.
Qed.

Lemma compact_inv through j j' : journal_inv j → compacted through j j' → journal_inv j'.
Proof.
  intros Hinv [Ht Hsub _ _ Hres Hdom]. pose proof Hinv as []. revert Ht Hsub Hres Hdom.
  generalize (receipts j'), (match_reservations j'), (retention_pins j'). intros rs ms ps -> Hsub Hres Hdom.
  split; simpl; try done.
  - eapply receipts_frame; [done|done|done|apply ji_receipts0].
  - eapply tables_frame; [done|..]; simpl; auto with rows. intros w Hw. left. by apply Hdom.
  - intros w m' Hm'. destruct (Hres w m' Hm') as (m & Hm & Htok & Hat & Hev).
    destruct (ji_reserved0 w m Hm) as (x & n & ? & ? & ? & ? & ? & ?). exists x, n. split_and!; first [done|congruence].
  - apply (progress_frame j (set_pins ps (set_reservations ms (set_receipts rs j)))); try done; simpl.
    + intros w r' d' Hr Hd _. exists r', d'. by split_and!.
    + intros x Hx. left. by eapply elem_of_sublist.
Qed.

Lemma journal_step_inv j j' : journal_step j j' → journal_inv j → journal_inv j'.
Proof.
  intros Hs Hinv. pose proof (set_pins_id j) as Hp.
  destruct Hs as [env obs commit Hobs Hc|w armed now limits Hnow Hc|A env lease_now c w sp context p Hv Hpay Hctx _ Hc
    |arm_id key owner g Hc|A env c w arm_id g sp context anchor row Hctx Hrow Hid Hc|env w capable Hc|env w code ->
    |env w rev sha capable Hc|record status now Hret Hc|w now Hc|env through limit r Hc|env w reasons at_ r Hc].
  - by eapply journal_ingest_inv.
  - by eapply evaluate_inv.
  - by eapply prepare_inv.
  - by eapply release_inv.
  - by eapply finish_inv.
  - by eapply publish_inv.
  - destruct (blocked_form env w code j) as (o & -> & Hk).
    pose proof (records_inv j (wake_lifecycle j) o (retention_pins j) Hinv ltac:(auto with rows) Hk) as H.
    by destruct j.
  - apply match_publish_form in Hc as (l & o & -> & Hsame & Hk).
    pose proof (records_inv j l o (retention_pins j) Hinv Hsame Hk) as H. by rewrite Hp in H.
  - by eapply retire_inv.
  - by eapply expire_inv.
  - apply compact_form in Hc; [by eapply compact_inv|apply Hinv].
  - apply release_pins_form in Hc as [k ->].
    pose proof (records_inv j (wake_lifecycle j) (record_outbox j) k Hinv ltac:(auto with rows) ltac:(auto with rows)) as H.
    by destruct j.
Qed.

Definition reachable (uuid created_at : string) (j : journal) : Prop := rtc journal_step (journal_init uuid created_at) j.
Lemma history_inv j j' : rtc journal_step j j' → journal_inv j → journal_inv j'.
Proof. induction 1; [done|]. intros. eauto using journal_step_inv. Qed.

(** Receipts are only appended, or compacted. *)
Lemma step_receipts j j' : journal_inv j → journal_step j j' →
  (∃ rows, receipts j' = receipts j ++ rows) ∨ ∃ through, compacted through j j'.
Proof.
  intros Hinv Hs. assert (receipts j' = receipts j → (∃ rows, receipts j' = receipts j ++ rows) ∨ ∃ through, compacted through j j') as Hsame.
  { intros ->. left. exists []. by rewrite app_nil_r. }
  destruct Hs as [env obs commit Hobs (a & hook & Hb)|w armed now limits Hnow Hc|A env lease_now c w sp context p Hv Hpay Hctx _ Hc
    |arm_id key owner g Hc|A env c w arm_id g sp context anchor row Hctx Hrow Hid Hc|env w capable Hc|env w code ->
    |env w rev sha capable Hc|record status now Hret Hc|w now Hc|env through limit r Hc|env w reasons at_ r Hc].
  - left. pose proof (ingest_body_spec env obs commit j (ji_receipts j Hinv) (instances_contracts j (ji_instances j Hinv)) Hobs) as Hs.
    rewrite Hb in Hs. destruct Hs as (? & ? & ? & staged & _ & _ & _ & _ & _ & _ & _ & _ & -> & _). by eexists.
  - apply Hsame. by apply evaluate_form in Hc as (? & ? & ? & ? & ? & -> & _).
  - apply Hsame. by apply prepare_form in Hc as (? & ? & [_ _ _ -> _]).
  - apply Hsame. by apply release_form in Hc as (? & ->).
  - apply Hsame. apply finish_form in Hc as (? & ? & [_ _ _ _ _ ->]). 
    match goal with |- receipts (release_lease ?k ?o ?g ?x) = _ => destruct (release_lease_form k o g x) as [ss ->] end. done.
  - apply Hsame. by apply publish_form in Hc as (? & ? & ? & ? & _ & _ & _ & -> & _).
  - apply Hsame. by destruct (blocked_form env w code j) as (? & -> & _).
  - apply Hsame. by apply match_publish_form in Hc as (? & ? & -> & _).
  - apply Hsame. by apply retire_form in Hc as (? & ? & ? & _ & _ & _ & _ & ->).
  - apply Hsame. by apply expire_form in Hc as (? & ? & _ & _ & _ & _ & ->).
  - right. exists through. by eapply compact_form; [apply Hinv|].
  - apply Hsame. by apply release_pins_form in Hc as [? ->].
Qed.

(** Arms change by [arm_change] only. *)
Lemma step_arms j j' : journal_inv j → journal_step j j' → arms_step (arms j) (arms j').
Proof.
  intros Hinv Hs. pose proof (arms_step_refl (arms j)) as Hsame.
  destruct Hs as [env obs commit Hobs (a & hook & Hb)|w armed now limits Hnow Hc|A env lease_now c w sp context p Hv Hpay Hctx _ Hc
    |arm_id key owner g (a & hook & Hb)|A env c w arm_id g sp context anchor row Hctx Hrow Hid Hc|env w capable Hc|env w code ->
    |env w rev sha capable Hc|record status now Hret Hc|w now Hc|env through limit r Hc|env w reasons at_ r Hc].
  - pose proof (ingest_body_spec env obs commit j (ji_receipts j Hinv) (instances_contracts j (ji_instances j Hinv)) Hobs) as Hs.
    rewrite Hb in Hs. by destruct Hs as (? & ? & ? & staged & _ & _ & _ & _ & _ & _ & _ & _ & -> & _).
  - by apply evaluate_form in Hc as (? & ? & ? & ? & ? & -> & _).
  - apply prepare_form in Hc as (state & rows & Hp). pose proof (prepared_arms _ _ _ _ _ _ _ _ _ _ _ Hinv Hctx Hp) as (Hst & _).
    by destruct Hp as [_ _ _ -> _].
  - unfold release_preparation_body in Hb. injection Hb as _ <- _.
    match goal with |- context [release_lease ?k ?o ?g ?x] => destruct (release_lease_form k o g x) as [ss ->] end.
    apply arms_step_update. intros w r Hr [_ Ht%bool_decide_eq_true]%andb_true_iff. by eapply ac_clear.
  - apply finish_form in Hc as (state & row' & [_ (w0 & Hrow' & Hid') _ _ Htok ->]).
    destruct (arm_of_id j w row _ w0 row' Hinv Hrow Hid Hrow' Hid') as [-> ->].
    match goal with |- context [release_lease ?k ?o ?g ?x] => destruct (release_lease_form k o g x) as [ss ->] end.
    apply arms_step_update. intros w1 r1 Hr1 Hb%bool_decide_eq_true.
    destruct (arm_of_id j w row _ w1 r1 Hinv Hrow Hid Hr1 Hb) as [-> ->]. by eapply ac_anchor.
  - apply publish_form in Hc as (row & at_ & l & o & Hr & Hp & _ & -> & _). eapply arms_step_write; [done|by eapply ac_publish].
  - by destruct (blocked_form env w code j) as (? & -> & _).
  - by apply match_publish_form in Hc as (? & ? & -> & _).
  - apply retire_form in Hc as (w & row & f & _ & Hr & Hst & _ & ->); [|done]. eapply arms_step_write; [done|by eapply ac_tombstone].
  - apply expire_form in Hc as (row & f & Hr & Hst & _ & _ & ->). eapply arms_step_write; [done|].
    apply ac_tombstone; [congruence|done].
  - apply compact_form in Hc; [|apply Hinv]. rewrite (co_tables _ _ _ Hc). done.
  - by apply release_pins_form in Hc as [? ->].
Qed.

(** A tombstoned arm stays one. *)
Definition ended (j : journal) (w : string) : Prop := ∃ row, arms j !! w = Some row ∧ row_state row = "tombstoned".
Lemma tombstoned_stays w r r' : arm_ok w r → arm_change r r' → row_state r = "tombstoned" → row_state r' = "tombstoned".
Proof.
  intros Hok Hc Hs. pose proof (ao_token w r Hok) as Ht. rewrite Hs in Ht. specialize (Ht ltac:(done)).
  destruct Hc as [->|? ? ? ->|? ? ->|? ? ? ? ->|? Hp ->|_ ->]; try done; try congruence.
  apply publishable_spec in Hp. destruct Hp; congruence.
Qed.
Lemma step_ended j j' w : journal_inv j → journal_step j j' → ended j w → ended j' w.
Proof.
  intros Hinv Hs (row & Hr & Hst). destruct (as_keep _ _ (step_arms _ _ Hinv Hs) w row Hr) as (row' & Hr' & Hc).
  exists row'. split; [done|]. eapply tombstoned_stays; [by apply (ji_arms j Hinv)|done|done].
Qed.

(** Reservations keep their match, and a wake that ended gets none. *)
Definition reservations_kept (j j' : journal) : Prop := ∀ w m, match_reservations j !! w = Some m →
  ∃ m', match_reservations j' !! w = Some m' ∧ mr_evidence_json m' = mr_evidence_json m.
Lemma step_reservations j j' : journal_inv j → journal_step j j' → reservations_kept j j' ∧
  ∀ w, ended j w → match_reservations j !! w = None → match_reservations j' !! w = None.
Proof.
  intros Hinv Hs.
  assert (match_reservations j' = match_reservations j → reservations_kept j j' ∧
    ∀ w, ended j w → match_reservations j !! w = None → match_reservations j' !! w = None) as Hsame.
  { unfold reservations_kept. intros ->. split; [eauto|done]. }
  destruct Hs as [env obs commit Hobs (a & hook & Hb)|w armed now limits Hnow Hc|A env lease_now c w sp context p Hv Hpay Hctx _ Hc
    |arm_id key owner g Hc|A env c w arm_id g sp context anchor row Hctx Hrow Hid Hc|env w capable Hc|env w code ->
    |env w rev sha capable Hc|record status now Hret Hc|w now Hc|env through limit r Hc|env w reasons at_ r Hc].
  - apply Hsame.
    pose proof (ingest_body_spec env obs commit j (ji_receipts j Hinv) (instances_contracts j (ji_instances j Hinv)) Hobs) as Hs.
    rewrite Hb in Hs. by destruct Hs as (? & ? & ? & staged & _ & _ & _ & _ & _ & _ & _ & _ & -> & _).
  - apply evaluate_form in Hc as (p & r & k & l & o & -> & _ & _ & Hw).
    destruct Hw as [m Hm -> ->|durable c scanned pre rest old safe Hev Hres Hold Hscan Hst Hskip Hsafe -> ->
      |durable c scanned pre x rest obs old Hev Hres Hold Hscan Hst Hskip Hc -> ->].
    + by apply Hsame.
    + by apply Hsame.
    + split; unfold reservations_kept; simpl.
      * intros w0 m Hm. exists m. split; [|done]. rewrite lookup_insert_ne; [done|]. congruence.
      * intros w0 (row & Hr & Hst0) Hn. rewrite lookup_insert_ne; [done|]. intros <-.
        destruct Hev as [(row0 & Hr0 & Hd) Hpub _ _ _].
        destruct (armed_components _ _ Hd) as (?&?&?&_&_&_&_&_&_&_&_&_&Hps). congruence.
  - apply Hsame. by apply prepare_form in Hc as (? & ? & [_ _ _ -> _]).
  - apply Hsame. by apply release_form in Hc as (? & ->).
  - apply Hsame. apply finish_form in Hc as (? & ? & [_ _ _ _ _ ->]).
    match goal with |- context [release_lease ?k ?o ?g ?x] => destruct (release_lease_form k o g x) as [ss ->] end. done.
  - apply Hsame. by apply publish_form in Hc as (? & ? & ? & ? & _ & _ & _ & -> & _).
  - apply Hsame. by destruct (blocked_form env w code j) as (? & -> & _).
  - apply Hsame. by apply match_publish_form in Hc as (? & ? & -> & _).
  - apply Hsame. by apply retire_form in Hc as (? & ? & ? & _ & _ & _ & _ & ->).
  - apply Hsame. by apply expire_form in Hc as (? & ? & _ & _ & _ & _ & ->).
  - apply compact_form in Hc; [|apply Hinv]. split.
    + intros w m Hm. destruct (proj2 (co_domain _ _ _ Hc w) ltac:(by eexists)) as [m' Hm'].
      destruct (co_reservations _ _ _ Hc w m' Hm') as (m0 & Hm0 & _ & _ & Hev). exists m'. split; [done|congruence].
    + intros w _ Hn. apply eq_None_not_Some. rewrite (co_domain _ _ _ Hc w), Hn. by intros [? ?].
  - apply Hsame. by apply release_pins_form in Hc as [? ->].
Qed.
Lemma history_reservations j j' : journal_inv j → rtc journal_step j j' → reservations_kept j j'.
Proof.
  intros Hinv Hs. induction Hs as [j|j j1 j' Hs _ IH]; [intros w m Hm; eauto|].
  destruct (step_reservations _ _ Hinv Hs) as [Hk _]. intros w m Hm. destruct (Hk w m Hm) as (m1 & Hm1 & He).
  destruct (IH (journal_step_inv _ _ Hs Hinv) w m1 Hm1) as (m2 & Hm2 & He2). exists m2. split; [done|congruence].
Qed.
Lemma history_ended j j' w : journal_inv j → rtc journal_step j j' → ended j w → ended j' w ∧
  (match_reservations j !! w = None → match_reservations j' !! w = None).
Proof.
  intros Hinv Hs. induction Hs as [j|j j1 j' Hs _ IH]; [done|]. intros He.
  pose proof (step_ended _ _ w Hinv Hs He) as He1. destruct (step_reservations _ _ Hinv Hs) as [_ Hn].
  destruct (IH (journal_step_inv _ _ Hs Hinv) He1) as [He' Hn']. split; [done|]. intros Hr. by apply Hn', Hn.
Qed.
