(* ===== verification/StoreOperations.v ===== *)
(** * The operations of the journal are histories

    Every operation of [SignalStore] changes the tables by transactions only:
    a call, whatever fails inside it and whatever its publisher and adapter
    answer, is a sequence of [journal_step]s.  The theorems about histories
    therefore hold of any interleaving of calls. *)
From S2P Require Import Prelude Json Sha256 Datetime Signals SignalCodec SignalRecords SignalStore StoreIngest StoreScan StoreSteps StoreHistory.
Open Scope Z_scope.

Inductive transacted {A} (u : A) (body : journal → tx A) (j : journal) (a : A) (j' : journal) : Prop :=
| tr_failed : a = u → j' = j → transacted u body j a j'
| tr_rollback : body j = Rollback a → j' = j → transacted u body j a j'
| tr_commit a0 hook : body j = Commit a0 j' hook → a = a0 ∨ a = u ∧ is_Some hook → transacted u body j a j'.

Lemma transact_cases {A} env name (u : A) body j a j' :
  transact env name u body j = (a, j') → transacted u body j a j'.
Proof.
  unfold transact. destruct (fails env _); [intros [= <- <-]; by apply tr_failed|].
  destruct (body j) as [a0 j0 hook|a0|] eqn:Hb; [|intros [= <- <-]; by apply tr_rollback|intros [= <- <-]; by apply tr_failed].
  destruct (fails env _); [intros [= <- <-]; by apply tr_failed|]. destruct hook as [h|].
  - destruct (fails env h); intros [= <- <-]; eapply tr_commit; try done; [by right|by left].
  - intros [= <- <-]. eapply tr_commit; [done|by left].
Qed.

Lemma transact_history {A} env name (u : A) body j a j' : transact env name u body j = (a, j') →
  (commits body j j' → journal_step j j') → rtc journal_step j j'.
Proof. intros [->|Hc]%transact_commits Hs; [done|]. by apply rtc_once, Hs. Qed.

Section Histories.
Context {P : Type} `{RecordPublisher P}.

Lemma complete_registration_history env (pub : option P) w j r j' pub' :
  _complete_registration_publication env pub w j = (r, j', pub') → rtc journal_step j j'.
Proof.
  unfold _complete_registration_publication. destruct pub as [p|]; [|intros [= _ <- _]; done].
  destruct (capability_code p) as [[code|] p1]; [intros [= _ <- _]; done|].
  destruct (fails env _); [intros [= _ <- _]; done|].
  destruct (read_registration w j) as [r0|payload sha]; [intros [= _ <- _]; done|].
  destruct (ensure_record p1 payload sha false) as [[] p2].
  - destruct (recheck p2 _) as [capable p3]. destruct (transact _ _ _ _ _) as [r1 j1] eqn:Ht. intros [= _ <- _].
    eapply transact_history; [exact Ht|]. intros Hc. by eapply js_publish.
  - intros [= _ <- _]. by eapply rtc_once, js_blocked.
  - intros [= _ <- _]. by eapply rtc_once, js_blocked.
  - intros [= _ <- _]. by eapply rtc_once, js_blocked.
Qed.

Lemma complete_match_history env (pub : option P) w rev j r j' pub' :
  _complete_match_publication env pub w rev j = (r, j', pub') → rtc journal_step j j'.
Proof.
  unfold _complete_match_publication. destruct pub as [p|]; [|intros [= _ <- _]; done].
  destruct (capability_code p) as [[code|] p1]; [intros [= _ <- _]; done|].
  destruct (fails env _); [intros [= _ <- _]; done|].
  destruct (firing_authority w rev j) as [row|]; [|intros [= _ <- _]; done].
  destruct (ensure_record p1 _ _ true) as [[] p2]; try (intros [= _ <- _]; done).
  destruct (capability_code p2) as [[code|] p3]; [intros [= _ <- _]; done|].
  destruct (recheck p3 _) as [capable p4]. destruct (transact _ _ _ _ _) as [r1 j1] eqn:Ht. intros [= _ <- _].
  eapply transact_history; [exact Ht|]. intros Hc. by eapply js_match_publish.
Qed.

Lemma publish_each_history env ws n (pub : option P) j r j' pub' :
  publish_each env ws n j pub = (r, j', pub') → rtc journal_step j j'.
Proof.
  revert n j pub. induction ws as [|w ws IH]; intros n j pub; cbn [publish_each]; [intros [= _ <- _]; done|].
  destruct (_complete_registration_publication env pub w j) as [[r1 j1] p1] eqn:Hc. intros Hr.
  etrans; [by eapply complete_registration_history|by eapply IH].
Qed.
Lemma publish_matches_history env ks n (pub : option P) j r j' pub' :
  publish_matches env ks n j pub = (r, j', pub') → rtc journal_step j j'.
Proof.
  revert n j pub. induction ks as [|[w rev] ks IH]; intros n j pub; cbn [publish_matches]; [intros [= _ <- _]; done|].
  destruct (_complete_match_publication env pub w rev j) as [[r1 j1] p1] eqn:Hc. intros Hr.
  etrans; [by eapply complete_match_history|by eapply IH].
Qed.
Lemma reconcile_history env (pub : option P) limit incl j r j' pub' :
  reconcile_publications env pub limit incl j = (r, j', pub') → rtc journal_step j j'.
Proof.
  unfold reconcile_publications. destruct (_ <=? _); [intros [= _ <- _]; done|].
  destruct (fails env _); [intros [= _ <- _]; done|].
  destruct (publish_each _ _ _ _ _) as [[n1 j1] p1] eqn:He. apply publish_each_history in He.
  destruct incl; cbn [negb]; [|by intros [= _ <- _]]. destruct (fails env _); [by intros [= _ <- _]|].
  destruct (publish_matches _ _ _ _ _) as [[n2 j2] p2] eqn:Hm. apply publish_matches_history in Hm.
  intros [= _ <- _]. by etrans.
Qed.
Lemma reconcile_match_history env (pub : option P) w j r j' pub' :
  reconcile_match_publication env pub w j = (r, j', pub') → rtc journal_step j j'.
Proof.
  unfold reconcile_match_publication. destruct (fails env _); [intros [= _ <- _]; done|].
  destruct (outbox_revisions w j) as [|r0 rs]; [intros [= _ <- _]; done|]. apply complete_match_history.
Qed.

(** Times of a call are Python's; a terminal record is not that of an arm
    still being prepared. *)
Definition lease_times (env : Env) : Prop :=
  ∀ now, lease_clock env = Some now → calendar_range (now + source_lease_seconds env * us_second).
Definition not_preparing (record : json) (j : journal) : Prop :=
  ∀ w arm, str_field "id" record = Some w → arms j !! w = Some arm → row_state arm ≠ "preparing".

(** A preparation that goes on has left a row for its finish. *)
Lemma prepared_row {A} env now c w sp (context : ArmContext A) p j w' arm_id gen j' hook : journal_inv j →
  prepares env now c w sp context p j = Commit (PrepGo w' arm_id gen) j' hook →
  ∃ row, arms j' !! w' = Some row ∧ row_arm_id row = arm_id.
Proof.
  intros Hinv. unfold prepares, prepare_body.
  destruct (find_arm_by_key j (idempotency_key context)) as [row|] eqn:Hf.
  - destruct (bool_decide (row_intent_fingerprint row = _)); cbn [negb]; [|done].
    destruct (publishable_state (row_state row)); [done|].
    destruct (bool_decide (row_state row = "tombstoned")); [done|].
    destruct (preparation_held row now) as [[t|]|]; [done| |done]. cbn [or_raise]. intros Hb.
    destruct (take_lease_form _ _ _ _ _ _ _ _ _ _ _ _ _ _ Hb) as (state & rows & _ & _ & _ & -> & [= -> -> ->] & ->).
    apply find_arm_by_key_Some in Hf as (w0 & Hrow & _). rewrite (ao_wake _ _ (ji_arms j Hinv w0 row Hrow)).
    simpl. rewrite lookup_fmap, Hrow. simpl. rewrite bool_decide_true by done. by eexists.
  - intros Hb. destruct (take_lease_form _ _ _ _ _ _ _ _ _ _ _ _ _ _ Hb)
      as (state & rows & _ & _ & _ & -> & [= -> -> ->] & _ & _ & ->).
    simpl. rewrite lookup_insert_eq. by eexists.
Qed.

Lemma release_preparation_history env arm_id key gen j : rtc journal_step j (_release_preparation env arm_id key gen j).
Proof.
  unfold _release_preparation. destruct (transact _ _ _ _ _) as [b j'] eqn:Ht. simpl.
  eapply transact_history; [exact Ht|]. intros Hc. by eapply js_release.
Qed.

Lemma arm_history {A} `{SignalSourceAdapter A} env (pub : option P) w sp (context : ArmContext A) j r j' pub' a' :
  journal_inv j → context_ok context → lease_times env →
  arm env pub w sp context j = (r, j', pub', a') → rtc journal_step j j'.
Proof.
  intros Hinv Hctx Hlease. unfold arm.
  destruct (contract (adapter context)) as [c|]; [|intros [= _ <- _ _]; done].
  destruct (_validate_signal sp c) eqn:Hv; [intros [= _ <- _ _]; done|].
  destruct (_contract_payload c) as [p|] eqn:Hp; [|intros [= _ <- _ _]; done].
  destruct (lease_clock env) as [now|] eqn:Hnow; [|intros [= _ <- _ _]; done].
  fold (prepares env now c w sp context p).
  destruct (transact env "arm" _ _ j) as [prep j1] eqn:Ht.
  assert (rtc journal_step j j1) as Hj1.
  { eapply transact_history; [exact Ht|]. intros Hc. by eapply js_prepare; [..|exact Hc]; auto. }
  destruct prep as [r1|w1|w1 arm_id gen].
  - by intros [= _ <- _ _].
  - destruct (_complete_registration_publication env pub w1 j1) as [[r2 j2] p2] eqn:Hc. intros [= _ <- _ _].
    etrans; [done|by eapply complete_registration_history].
  - assert (∃ row, arms j1 !! w1 = Some row ∧ row_arm_id row = arm_id) as (row & Hrow & Hid).
    { destruct (transact_cases _ _ _ _ _ _ _ Ht) as [? _|Hb _|a0 hook Hb [<-|[? _]]]; [done| |by eapply prepared_row|done].
      exfalso. unfold prepares, prepare_body in Hb.
      assert (∀ ex w0 i0, take_lease env now c (_canonical_json p) (_canonical_json (_spec_payload sp))
        (_canonical_json (_resume_payload (context_resume context))) sp context ex w0 i0 j ≠ Rollback (PrepGo w1 arm_id gen)) as Hno.
      { intros ex w0 i0. unfold take_lease. destruct (match source_instances j !! _ with Some _ => _ | None => _ end); [done|].
        destruct (live_lease _ _) as [[t|]|]; cbn [or_raise]; [done| |done].
        destruct ex; cbn [or_raise]; [done|]. by destruct (insert_arm _ _). }
      destruct (find_arm_by_key j _) as [row|]; [|by eapply Hno].
      destruct (negb _); [done|]. destruct (publishable_state _); [done|]. destruct (bool_decide (_ = "tombstoned")); [done|].
      destruct (preparation_held _ _) as [[t|]|]; cbn [or_raise] in Hb; [done| |done]. by eapply Hno. }
    destruct (establish_anchor _ _ _) as [[[a0|i|d]|e] a].
    + destruct (_validate_occurrence_anchor c sp a0).
      { intros [= _ <- _ _]. etrans; [done|apply release_preparation_history]. }
      destruct (transact env "finish" _ _ j1) as [fin j2] eqn:Hf.
      assert (rtc journal_step j j2) as Hj2.
      { etrans; [done|]. eapply transact_history; [exact Hf|]. intros Hc. by eapply js_finish. }
      destruct fin as [[]|d]; [|by intros [= _ <- _ _]].
      destruct (_complete_registration_publication env pub w1 j2) as [[r3 j3] p3] eqn:Hc. intros [= _ <- _ _].
      etrans; [done|by eapply complete_registration_history].
    + intros [= _ <- _ _]. etrans; [done|apply release_preparation_history].
    + intros [= _ <- _ _]. etrans; [done|apply release_preparation_history].
    + intros [= _ <- _ _]. etrans; [done|apply release_preparation_history].
Qed.

Lemma decode_same record decoded : decode_signal_record record = Done (Some decoded) → decoded = record.
Proof.
  destruct record as [| | | | |r]; try done. unfold decode_signal_record. destruct (negb _); [done|].
  destruct (negb _); [done|]. destruct (dict_get "predicate" r) as [[| | | | |p]|]; try done. destruct (negb _); [done|].
  destruct (dict_get "where" p) as [[| | | |l|]|]; try done. destruct (dict_get "anchor" p) as [[| | | | |a]|]; try done.
  destruct (anchor_ok a) as [[]|]; try done. cbn. destruct (clauses_ok l) as [[]|]; try done. by intros [= <-].
Qed.

Lemma retire_history env (pub : option P) record now j r j' pub' : not_preparing record j →
  retire_terminal_record env pub record now j = (r, j', pub') → rtc journal_step j j'.
Proof.
  intros Hnp. unfold retire_terminal_record. destruct (decode_signal_record record) as [[d|]|] eqn:Hd; try (intros [= _ <- _]; done).
  pose proof (decode_same _ _ Hd) as ->. destruct (str_field "status" record) as [st|] eqn:Hst; [|intros [= _ <- _]; done].
  destruct (bool_decide (st ∈ terminal_statuses)) eqn:Ht; cbn [negb]; [|intros [= _ <- _]; done].
  apply bool_decide_eq_true in Ht.
  destruct (transact env "retire" _ _ j) as [res j1] eqn:Htx. intros Hr.
  assert (j1 = j') as ->.
  { destruct res as [[]|]; [|by injection Hr as _ <- _..]. destruct pub as [p|]; [|by injection Hr as _ <- _].
    destruct (remove_superseded_pending p record) as [[] ?]; by injection Hr as _ <- _. }
  eapply transact_history; [exact Htx|]. intros Hc. by eapply js_retire.
Qed.
End Histories.

(** One call of the public interface. *)
Inductive journal_call (j j' : journal) : Prop :=
| call_ingest env obs commit r : Forall obs_times_ok obs → ingest env obs commit j = (r, j') → journal_call j j'
| call_evaluate env w armed now limits r : calendar_range now → evaluate env w armed now limits j = (r, j') → journal_call j j'
| call_arm (P A : Type) (HP : RecordPublisher P) (HA : SignalSourceAdapter A) env (pub : option P) w sp
    (context : ArmContext A) r pub' a' : context_ok context → lease_times env →
    arm env pub w sp context j = (r, j', pub', a') → journal_call j j'
| call_reconcile (P : Type) (HP : RecordPublisher P) env (pub : option P) limit incl r pub' :
    reconcile_publications env pub limit incl j = (r, j', pub') → journal_call j j'
| call_reconcile_match (P : Type) (HP : RecordPublisher P) env (pub : option P) w r pub' :
    reconcile_match_publication env pub w j = (r, j', pub') → journal_call j j'
| call_retire (P : Type) (HP : RecordPublisher P) env (pub : option P) record now r pub' : not_preparing record j →
    retire_terminal_record env pub record now j = (r, j', pub') → journal_call j j'
| call_expire env w now r : expire_unreserved env w now j = (r, j') → journal_call j j'
| call_compact env through limit r : compact_receipts env through limit j = (r, j') → journal_call j j'
| call_release_pins env w reasons at_ r : release_retention_pins env w reasons at_ j = (r, j') → journal_call j j'.

Lemma call_history j j' : journal_inv j → journal_call j j' → rtc journal_step j j'.
Proof.
  intros Hinv [env obs commit r Hobs Hc|env w armed now limits r Hnow Hc|P A HP HA env pub w sp context r pub' a' Hctx Hl Hc
    |P HP env pub limit incl r pub' Hc|P HP env pub w r pub' Hc|P HP env pub record now r pub' Hnp Hc|env w now r Hc
    |env through limit r Hc|env w reasons at_ r Hc].
  - unfold ingest in Hc. destruct (existsb _ _); [by injection Hc as _ <-|].
    eapply transact_history; [exact Hc|]. intros. by eapply js_ingest.
  - unfold evaluate in Hc. destruct (negb _); [by injection Hc as _ <-|].
    eapply transact_history; [exact Hc|]. intros. by eapply js_evaluate.
  - by eapply arm_history.
  - by eapply reconcile_history.
  - by eapply reconcile_match_history.
  - by eapply retire_history.
  - eapply transact_history; [exact Hc|]. intros. by eapply js_expire.
  - by eapply rtc_once, js_compact.
  - by eapply rtc_once, js_release_pins.
Qed.

Lemma calls_history j j' : journal_inv j → rtc journal_call j j' → rtc journal_step j j'.
Proof.
  intros Hinv Hc. induction Hc as [|j j1 j' Hc _ IH]; [done|]. pose proof (call_history _ _ Hinv Hc) as Hh.
  etrans; [exact Hh|]. apply IH. by eapply history_inv.
Qed.
