(* ===== verification/StoreGuarantees.v ===== *)
(** * What the journal guarantees about receipts

    Ingestion: a batch is stored whole or not at all, a failed call can be
    repeated without duplicating or losing a receipt, and compaction deletes
    no receipt that a live pin holds. *)
From S2P Require Import Prelude Json Sha256 Datetime Signals SignalCodec SignalRecords SignalStore StoreIngest StoreScan StoreSteps StoreHistory StoreOperations.
Open Scope Z_scope.


(** ** Ingestion *)
(** The identities of a batch, in the order of first occurrence. *)
Definition batch_identities (obs : list NormalizedObservation) : list occurrence :=
  foldl (λ ks o, if decide (_identity o ∈ ks) then ks else ks ++ [_identity o]) [] obs.

Lemma journal_stage_keys j c staged obs staged' : stage j c staged obs = inr staged' →
  dict_keys staged' = foldl (λ ks o, if decide (_identity o ∈ ks) then ks else ks ++ [_identity o]) (dict_keys staged) obs.
Proof.
  revert staged. induction obs as [|o obs IH]; simpl; intros staged Hst; [by simplify_eq|].
  destruct (stage_observation j c staged o) as [|s1] eqn:Hs; [done|].
  apply journal_stage_step in Hs as (_ & _ & _ & ->). by rewrite (IH _ Hst), dict_keys_set.
Qed.

(** The tables after a batch was stored. *)
Record batch_stored (obs : list NormalizedObservation) (commit : SourceCommit) (j j' : journal)
    (rows : list receipt_row) : Prop := {
  bs_receipts : receipts j' = receipts j ++ rows;
  bs_numbers : rc_local_sequence <$> rows = seqZ (next_sequence j) (Z.of_nat (length rows));
  bs_identities : rc_identity <$> rows = filter (λ i, i ∉ rc_identity <$> receipts j) (batch_identities obs);
  bs_rows : Forall (λ r, ∃ o, o ∈ obs ∧ row_of r o) rows;
  bs_next : next_sequence j' = next_sequence j + Z.of_nat (length rows);
  bs_checkpoint : ∃ s, source_state j !! commit_key commit = Some s ∧ checkpoint_conflict s commit = None ∧
    source_state j' = <[commit_key commit := advance_source commit (next_sequence j') s]> (source_state j);
  bs_frame : j' = set_source_state (source_state j') (set_meta (next_sequence j') (migrated_at j') (set_receipts (receipts j') j));
}.

(** Each observation's answer: its row, and whether it was a duplicate. *)
Definition answered (j j' : journal) (obs : list NormalizedObservation) (refs : list ReceiptRef) : Prop :=
  length refs = length obs ∧
  ∀ k o, obs !! k = Some o → ∃ row, find_receipt j' (_identity o) = Some row ∧
    rc_content_fingerprint row = fingerprint_of o ∧
    refs !! k = Some {| receipt_id := rc_receipt_id row; local_sequence := rc_local_sequence row;
      duplicate := bool_decide (_identity o ∈ rc_identity <$> receipts j) ||
                   bool_decide (_identity o ∈ _identity <$> take k obs) |}.

Lemma staged_from_batch j c obs staged : Forall obs_times_ok obs → stage j c [] obs = inr staged →
  ∀ i e, (i, e) ∈ staged → ∃ o, o ∈ obs ∧ obs_times_ok o ∧ e = encoded o ∧ i = _identity o.
Proof.
  intros Hobs Hst. assert (∀ st st' l, Forall obs_times_ok l → stage j c st l = inr st' →
    (∀ i e, (i, e) ∈ st → ∃ o, o ∈ obs ∧ obs_times_ok o ∧ e = encoded o ∧ i = _identity o) → (∀ o, o ∈ l → o ∈ obs) →
    ∀ i e, (i, e) ∈ st' → ∃ o, o ∈ obs ∧ obs_times_ok o ∧ e = encoded o ∧ i = _identity o) as H.
  { clear. intros st st' l Hl. revert st. induction Hl as [|o l Ho Hl IH]; simpl; intros st Hst Hin Hsub; [by simplify_eq|].
    destruct (stage_observation j c st o) as [|s1] eqn:Hs; [done|].
    apply journal_stage_step in Hs as (_ & _ & _ & ->). apply (IH _ Hst).
    - intros i e [[= -> ->]|Hie]%dict_set_elem; [|by apply Hin]. exists o. split_and!; try done. apply Hsub. by left.
    - intros o' Ho'. apply Hsub. by right. }
  apply (H [] staged obs); try done. intros i e Hin. by apply not_elem_of_nil in Hin.
Qed.

(** Equal identities of a batch carry equal contents. *)
Lemma stage_fingerprints j c staged obs staged' : stage j c staged obs = inr staged' →
  (∀ o, o ∈ obs → ∃ o' p, dict_get (_identity o) staged' = Some (o', p, fingerprint_of o)) ∧
  (∀ o r, o ∈ obs → find_receipt j (_identity o) = Some r → rc_content_fingerprint r = fingerprint_of o) ∧
  (∀ i o' p f, dict_get i staged = Some (o', p, f) → ∃ o'' p', dict_get i staged' = Some (o'', p', f)).
Proof.
  revert staged. induction obs as [|o obs IH]; simpl; intros staged Hst.
  { simplify_eq. split_and!; [intros o Hin; by apply not_elem_of_nil in Hin|intros o r Hin; by apply not_elem_of_nil in Hin|eauto]. }
  destruct (stage_observation j c staged o) as [|s1] eqn:Hs; [done|].
  apply journal_stage_step in Hs as (_ & Hstaged & Hrec & ->). destruct (IH _ Hst) as (H1 & H2 & H3). split_and!.
  - intros o0 [->|Hin]%elem_of_cons; [|by apply H1]. eapply H3. by rewrite dict_get_set_eq.
  - intros o0 r [->|Hin]%elem_of_cons; [by apply Hrec|by apply H2].
  - intros i o' p f Hget. destruct (decide (i = _identity o)) as [->|Hne].
    + rewrite (Hstaged _ _ _ Hget). eapply H3. by rewrite dict_get_set_eq.
    + eapply H3. by rewrite dict_get_set_ne.
Qed.

Lemma fresh_keys_filter j staged : dict_keys (fresh_items j staged) = filter (λ i, i ∉ rc_identity <$> receipts j) (dict_keys staged).
Proof.
  induction staged as [|[i e] staged IH]; [done|]. rewrite fresh_items_cons, dict_keys_cons, filter_cons.
  repeat case_decide; try tauto; by rewrite ?dict_keys_cons, IH.
Qed.
Lemma fresh_keys j staged i : i ∈ dict_keys (fresh_items j staged) ↔ i ∈ dict_keys staged ∧ i ∉ rc_identity <$> receipts j.
Proof. rewrite fresh_keys_filter, list_elem_of_filter. tauto. Qed.

Lemma new_rows_batch (obs : list NormalizedObservation) n (items : list (occurrence * (NormalizedObservation * string * string))) :
  (∀ i e, (i, e) ∈ items → ∃ o, o ∈ obs ∧ obs_times_ok o ∧ e = encoded o ∧ i = _identity o) →
  Forall (λ r, ∃ o, o ∈ obs ∧ row_of r o) (new_rows n items).
Proof.
  revert n. induction items as [|[i e] items IH]; intros n Hf; [constructor|].
  destruct (Hf i e ltac:(by left)) as (o & ? & ? & -> & _). cbn [new_rows encoded]. constructor; [by exists o|].
  apply IH. intros i' e' Hin. apply Hf. by right.
Qed.

Lemma ingested_stored env obs commit j j' a hook : journal_inv j → Forall obs_times_ok obs →
  ingest_body env obs commit j = Commit a j' hook →
  ∃ rows refs, batch_stored obs commit j j' rows ∧ answered j j' obs refs ∧
    a = IngestDone {| Signals.receipts := refs; ingested_checkpoint := checkpoint commit |}.
Proof.
  intros Hinv Hobs Hb.
  pose proof (ingest_body_spec env obs commit j (ji_receipts j Hinv) (instances_contracts j (ji_instances j Hinv)) Hobs) as Hs.
  rewrite Hb in Hs. destruct Hs as (inst & state & c & staged & refs & _ & Hst & _ & Hcp & _ & Hstage & Hok & -> & -> & Hans).
  set (fresh := fresh_items j staged) in *.
  assert (∀ i e, (i, e) ∈ fresh → ∃ o, o ∈ obs ∧ obs_times_ok o ∧ e = encoded o ∧ i = _identity o) as Hfresh.
  { intros i e [Hin _]%fresh_items_sub. by eapply staged_from_batch. }
  pose proof (ingested_inv _ commit state _ _ (ji_receipts j Hinv) Hok Hst) as Hinv'. fold fresh in Hinv'.
  exists (new_rows (next_sequence j) fresh), refs. split_and!; [split; simpl|split|done].
  - done.
  - by rewrite new_rows_seq, new_rows_length.
  - rewrite new_rows_identity by (intros i e Hin; destruct (Hfresh i e Hin) as (o & _ & _ & ? & ?); eauto).
    unfold fresh. rewrite fresh_keys_filter. by rewrite (journal_stage_keys _ _ _ _ _ Hstage).
  - by apply new_rows_batch.
  - by rewrite new_rows_length.
  - by exists state.
  - by destruct j.
  - apply Hans.
  - intros k o Hk. destruct Hans as [_ Hans]. destruct (Hans k o Hk) as (row & dup & Hrow & Href & Hdup).
    assert (o ∈ obs) as Ho by (by eapply list_elem_of_lookup_2).
    destruct (stage_fingerprints _ _ _ _ _ Hstage) as (Hfp & Hold & _).
    exists row. split_and!; [done| |].
    + pose proof Hrow as [Hin Hid]%find_receipt_Some. simpl in Hin. apply elem_of_app in Hin as [Hin|Hin].
      * apply (Hold o row Ho). rewrite <- Hid. apply find_receipt_elem; [by apply Hinv|done].
      * pose proof (new_rows_batch obs (next_sequence j) fresh Hfresh) as Hrows.
        rewrite Forall_forall in Hrows. destruct (Hrows row Hin) as (o' & Ho' & Hro).
        rewrite (row_identity _ _ Hro) in Hid. destruct (Hfp o Ho) as (? & ? & G1), (Hfp o' Ho') as (? & ? & G2).
        rewrite Hid in G2. assert (fingerprint_of o' = fingerprint_of o) as <- by congruence. by destruct Hro as [_ ->].
    + rewrite Href. do 2 f_equal. apply eq_true_iff_eq. rewrite Hdup, orb_true_iff, !bool_decide_eq_true.
      pose proof (fresh_keys j staged (_identity o)) as Hk'. pose proof (stage_covers_batch _ _ _ _ _ _ Hstage Ho).
      pose proof (not_elem_of_nil (_identity o)). destruct (decide (_identity o ∈ rc_identity <$> receipts j)); tauto.
Qed.

(** C2 (functional). [ingest] is all or nothing.  Either the tables are
    unchanged and no receipts are answered, or every observation is of the
    committed source, one row per fresh identity was appended, numbered
    consecutively in order of first occurrence, the checkpoint advanced without
    regressing, nothing else changed, and the answer is a receipt with an exact
    duplicate flag for every observation (or, when a checkpoint hook raised
    after the commit, a degradation). *)
Theorem journal_ingest_contract env obs commit j r j' : journal_inv j → Forall obs_times_ok obs →
  ingest env obs commit j = (r, j') →
  (j' = j ∧ ∀ x, r ≠ IngestDone x) ∨
  (Forall (λ o, (obs_source o, obs_source_instance o) = commit_key commit) obs ∧
   ∃ rows refs, batch_stored obs commit j j' rows ∧ answered j j' obs refs ∧
     (r = IngestDone {| Signals.receipts := refs; ingested_checkpoint := checkpoint commit |} ∨
      r = IngestDegraded (store_unavailable None))).
Proof.
  intros Hinv Hobs. unfold ingest. destruct (existsb _ obs) eqn:Hex; [intros [= <- <-]; by left|].
  assert (Forall (λ o, (obs_source o, obs_source_instance o) = commit_key commit) obs) as Hsrc.
  { apply existsb_false in Hex. eapply Forall_impl; [exact Hex|]. simpl. intros o. by rewrite negb_false_iff, bool_decide_eq_true. }
  intros Ht. destruct (transact_cases _ _ _ _ _ _ _ Ht) as [-> ->|Hb ->|a hook Hb Hr]; [by left| |].
  - left. split; [done|].
    pose proof (ingest_body_spec env obs commit j (ji_receipts j Hinv) (instances_contracts j (ji_instances j Hinv)) Hobs) as Hs.
    by rewrite Hb in Hs.
  - right. split; [done|]. destruct (ingested_stored _ _ _ _ _ _ _ Hinv Hobs Hb) as (rows & refs & ? & ? & ->).
    exists rows, refs. split_and!; [done|done|]. by destruct Hr as [->|[-> _]]; [left|right].
Qed.

Lemma ingest_accepts env obs commit j instance state c staged : journal_inv j → Forall obs_times_ok obs →
  source_instances j !! commit_key commit = Some instance → source_state j !! commit_key commit = Some state →
  live_lease state (lease_clock env) = Some None → checkpoint_conflict state commit = None →
  _contract_from_json (si_contract_json instance) = Some c → stage j c [] obs = inr staged →
  ∃ refs hook, ingest_body env obs commit j = Commit (IngestDone refs) (ingested commit state (fresh_items j staged) j) hook.
Proof.
  intros Hinv Hobs Hi Hs Hl Hcp Hc Hst.
  pose proof (ingest_body_spec env obs commit j (ji_receipts j Hinv) (instances_contracts j (ji_instances j Hinv)) Hobs) as Hspec.
  assert (∀ r, ingest_body env obs commit j ≠ Rollback r) as Hno.
  { unfold ingest_body. rewrite Hi, Hs, Hl. cbn [or_raise]. rewrite Hcp, Hc. cbn [or_raise]. rewrite Hst.
    destruct (insert_staged _ _ _ _) as [[[j0 n] ins]|]; cbn [or_raise]; [|done]. by destruct (ingest_results _ _ _ _ _). }
  destruct (ingest_body env obs commit j) as [a j' hook|a|]; [|by destruct (Hno a)|].
  - destruct Hspec as (i' & s' & c' & st' & refs & Hi' & Hs' & _ & _ & Hc' & Hst' & _ & -> & -> & _).
    assert (i' = instance ∧ s' = state) as [-> ->] by (split; congruence). assert (c' = c) as -> by congruence.
    assert (st' = staged) as -> by congruence. by eexists _, hook.
  - destruct Hspec as (s' & Hs' & Hl'). assert (s' = state) as -> by congruence. congruence.
Qed.

Lemma journal_stage_again j j1 c staged obs staged' : stage j c staged obs = inr staged' →
  (∀ o r, o ∈ obs → find_receipt j1 (_identity o) = Some r → rc_content_fingerprint r = fingerprint_of o) →
  stage j1 c staged obs = inr staged'.
Proof.
  revert staged. induction obs as [|o obs IH]; intros staged Hst Hall; [done|]. simpl in *.
  destruct (stage_observation j c staged o) as [|s1] eqn:Hs; [done|].
  apply journal_stage_step in Hs as (Hv & Hd & _ & ->).
  assert (stage_observation j1 c staged o = inr (dict_set (_identity o) (encoded o) staged)) as ->.
  { apply journal_stage_step. split_and!; try done. intros r. apply Hall. by left. }
  apply IH; [done|]. intros o' r Hin. apply Hall. by right.
Qed.

Lemma fresh_items_nil j staged : (∀ i, i ∈ dict_keys staged → i ∈ rc_identity <$> receipts j) → fresh_items j staged = [].
Proof.
  intros Hall. destruct (fresh_items j staged) as [|[i e] l] eqn:Hf; [done|].
  assert (i ∈ dict_keys (fresh_items j staged)) as [Hi Hni]%fresh_keys by (rewrite Hf, dict_keys_cons; by left).
  by destruct Hni; apply Hall.
Qed.

(** C3 (safety). Exactly once: when a call changed the tables, whatever it
    answered, the same call again on the new tables succeeds, adds no receipt,
    leaves the source where it is, and marks every answer a duplicate. *)
Theorem journal_ingest_exactly_once env env' obs commit j r j' : journal_inv j → Forall obs_times_ok obs →
  ingest env obs commit j = (r, j') → j' ≠ j → (∀ place, fails env' place = false) →
  ∃ refs j'', ingest env' obs commit j' =
      (IngestDone {| Signals.receipts := refs; ingested_checkpoint := checkpoint commit |}, j'') ∧
    receipts j'' = receipts j' ∧ next_sequence j'' = next_sequence j' ∧ source_state j'' = source_state j' ∧
    length refs = length obs ∧ Forall (λ ref, duplicate ref = true) refs.
Proof.
  intros Hinv Hobs Hi Hne Hf. unfold ingest in Hi |- *. destruct (existsb _ obs) eqn:Hex; [by injection Hi as _ <-|].
  destruct (transact_cases _ _ _ _ _ _ _ Hi) as [_ ->|_ ->|a hook Hb _]; [done|done|].
  assert (journal_inv j') as Hinv' by (eapply journal_ingest_inv; [done|done|by eexists _, _]).
  destruct (ingested_stored _ _ _ _ _ _ _ Hinv Hobs Hb) as (rows & refs0 & Hstored & Hans & _).
  pose proof (ingest_body_spec env obs commit j (ji_receipts j Hinv) (instances_contracts j (ji_instances j Hinv)) Hobs) as Hs.
  rewrite Hb in Hs. destruct Hs as (inst & state & c & staged & _ & Hin & Hst & _ & Hcp & Hc & Hstage & Hok & Heq & _ & _).
  set (state' := advance_source commit (next_sequence j') state).
  assert (source_state j' !! commit_key commit = Some state') as Hst' by (subst j'; simpl; by rewrite lookup_insert_eq).
  assert (checkpoint_conflict state' commit = None) as Hcp'.
  { unfold checkpoint_conflict. simpl. destruct (Z.ltb_spec (checkpoint_order commit) (checkpoint_order commit)); [lia|].
    by rewrite bool_decide_true, andb_false_r by done. }
  assert (∀ o, o ∈ obs → ∃ row, find_receipt j' (_identity o) = Some row ∧ rc_content_fingerprint row = fingerprint_of o) as Hrows.
  { intros o [k Hk]%list_elem_of_lookup_1. destruct Hans as [_ Hans]. destruct (Hans k o Hk) as (row & ? & ? & _). by exists row. }
  assert (stage j' c [] obs = inr staged) as Hstage'.
  { eapply journal_stage_again; [exact Hstage|]. intros o row Ho Hrow. destruct (Hrows o Ho) as (row' & Hrow' & <-). congruence. }
  assert (source_instances j' !! commit_key commit = Some inst) as Hin' by (by subst j').
  destruct (ingest_accepts env' obs commit j' inst state' c staged Hinv' Hobs Hin' Hst' eq_refl Hcp' Hc Hstage') as (refs1 & hook1 & Hb').
  assert (fresh_items j' staged = []) as Hnil.
  { apply fresh_items_nil. intros i. rewrite (journal_stage_keys _ _ _ _ _ Hstage). intros Hi'.
    assert (∃ o, o ∈ obs ∧ _identity o = i) as (o & Ho & <-).
    { assert (i ∈ dict_keys staged) as Hk by (by rewrite (journal_stage_keys _ _ _ _ _ Hstage)).
      unfold dict_keys in Hk. apply list_elem_of_fmap in Hk as ([k e] & -> & Hk).
      destruct (staged_from_batch _ _ _ _ Hobs Hstage _ _ Hk) as (o & ? & _ & _ & ->). by exists o. }
    destruct (Hrows o Ho) as (row & [Hrin Hrid]%find_receipt_Some & _). rewrite <- Hrid. by apply list_elem_of_fmap_2. }
  rewrite Hnil in Hb'. destruct (ingested_stored _ _ _ _ _ _ _ Hinv' Hobs Hb') as (rows1 & refs & Hstored1 & [Hlen Hans1] & Hrefs).
  injection Hrefs as ->. exists refs, (ingested commit state' [] j'). split_and!.
  - unfold transact. rewrite !Hf, Hb'. destruct hook1; by rewrite ?Hf.
  - simpl. by rewrite app_nil_r.
  - simpl. by rewrite Z.add_0_r.
  - simpl. rewrite Z.add_0_r. apply map_eq. intros key. destruct (decide (commit_key commit = key)) as [<-|Hk].
    + rewrite lookup_insert_eq, Hst'. f_equal. unfold state', advance_source. simpl. f_equal. lia.
    + by rewrite lookup_insert_ne.
  - done.
  - apply Forall_lookup. intros k ref Hk. destruct (obs !! k) as [o|] eqn:Ho.
    + destruct (Hans1 k o Ho) as (row & _ & _ & Href). rewrite Href in Hk. injection Hk as <-. simpl.
      assert (o ∈ obs) as Hoin by (by eapply list_elem_of_lookup_2).
      destruct (Hrows o Hoin) as (row' & [Hrin Hrid]%find_receipt_Some & _).
      rewrite bool_decide_true; [done|]. rewrite <- Hrid. by apply list_elem_of_fmap_2.
    + apply lookup_ge_None_1 in Ho. apply lookup_lt_Some in Hk. lia.
Qed.


(** (safety). Pins protect: as long as a pin stays live, whatever else
    happens, compactions included, every receipt it holds stays stored. *)
Theorem journal_pins_hold k p j j' r :
  rtc (λ a b, journal_step a b ∧ retention_pins b !! k = Some p) j j' →
  journal_inv j → retention_pins j !! k = Some p → pin_live p = true → r ∈ receipts j →
  pin_holds p (rc_receipt_id r) (rc_local_sequence r) = true → r ∈ receipts j'.
Proof.
  intros Hs Hinv Hk Hl Hr Hh. induction Hs as [|j j1 j' [Hs Hk1] _ IH]; [done|].
  apply IH; [by eapply journal_step_inv|done|]. clear IH.
  destruct (step_receipts j j1 Hinv Hs) as [(rows & ->)|[through Hc]].
  - apply elem_of_app. by left.
  - apply (co_kept _ _ _ Hc); [done|right]. apply pinned_spec. by exists k, p.
Qed.
