(* ===== verification/StoreMatching.v ===== *)
(** * What the journal guarantees about matches

    A new match is the earliest stored observation the signal wants, a wanted
    observation is matched as soon as it may be, a match is reported for ever,
    and a wake that ended never fires. *)
From Stdlib Require Import Ascii.
From S2P Require Import Prelude Json Sha256 Datetime Signals SignalMemory SignalCodec SignalRecords SignalStore StoreIngest StoreScan StoreSteps StoreHistory StoreOperations.
Open Scope Z_scope.

(** ** What a signal wants *)
(** [after_anchor] and [clause_holds] are the ones of the in-memory engine. *)
Record acceptable (c : SourceContract) (durable : ArmedSignal) (o : NormalizedObservation) : Prop := {
  ac_after : after_anchor c durable o;
  ac_cohort : baseline_matches durable o = true;
  ac_where : Forall (clause_holds (obs_attributes o)) (spec_where (spec durable));
}.
Definition wanted (c : SourceContract) (durable : ArmedSignal) (o : NormalizedObservation) : Prop :=
  acceptable c durable o ∧
  (spec_verification (spec durable) = "required" → verification_state (verification o) = "verified").
Definition awaits (c : SourceContract) (durable : ArmedSignal) (o : NormalizedObservation) : Prop :=
  acceptable c durable o ∧ spec_verification (spec durable) = "required" ∧
  verification_state (verification o) = "pending".
Definition within (limits : EvaluationLimits) (o : NormalizedObservation) : Prop :=
  canonical_attribute_bytes (obs_attributes o) ≤ limit_attribute_bytes limits ∧
  utf8_length (default EmptyString (evidence_ref o)) ≤ limit_evidence_ref_bytes limits.

Lemma classify_meaning c durable limits r o : row_of r o →
  _validate_occurrence_anchor c (spec durable) (anchor durable) = None →
  match classify c durable limits r with
  | None => False
  | Some Skip => ¬ wanted c durable o ∧ ¬ awaits c durable o
  | Some Awaiting => awaits c durable o
  | Some TooLarge => wanted c durable o ∧ ¬ within limits o
  | Some (Candidate o') => o' = o ∧ wanted c durable o ∧ within limits o
  | Some (BadOrder _) => ¬ after_anchor c durable o
  end.
Proof.
  intros Hr Hv. unfold classify. rewrite (row_observation _ _ Hr). cbn [mbind option_bind].
  destruct (after_anchor_spec c durable o Hv) as [(i & -> & Hna)|(b & -> & Hb)]; [done|].
  pose proof (matches_spec (obs_attributes o) (spec_where (spec durable))) as Hm.
  assert (acceptable c durable o ↔ b = true ∧ baseline_matches durable o = true ∧
    _matches (obs_attributes o) (spec_where (spec durable)) = true) as Hacc.
  { rewrite Hm, Hb. split; [by intros [? ? ?]|by intros (? & ? & ?)]. }
  unfold wanted, awaits, within.
  destruct b, (baseline_matches durable o), (_matches _ _); cbn [negb orb];
    try (split; intros [(? & ? & ?)%Hacc _]; done).
  assert (acceptable c durable o) as Ha by (by apply Hacc). clear Hacc Hm Hb.
  destruct (bool_decide (spec_verification _ = _)) eqn:Hreq; cbn [andb];
    [apply bool_decide_eq_true in Hreq|apply bool_decide_eq_false in Hreq].
  - destruct (bool_decide (verification_state _ = "verified")) eqn:Hver; cbn [negb];
      [apply bool_decide_eq_true in Hver|apply bool_decide_eq_false in Hver].
    + destruct (_ || _) eqn:Hlim; [apply orb_true_iff in Hlim|apply orb_false_iff in Hlim];
        rewrite ?Z.ltb_lt, ?Z.ltb_ge in Hlim; split_and!; try done; lia.
    + case_bool_decide as Hp; [done|]. split; [intros [_ H]; by destruct Hver, H|by intros (_ & _ & ?)].
  - destruct (_ || _) eqn:Hlim; [apply orb_true_iff in Hlim|apply orb_false_iff in Hlim];
      rewrite ?Z.ltb_lt, ?Z.ltb_ge in Hlim; split_and!; try done; lia.
Qed.

Lemma passed_over_meaning c durable r o : row_of r o →
  _validate_occurrence_anchor c (spec durable) (anchor durable) = None → passed_over c durable r →
  ¬ wanted c durable o ∧ ¬ awaits c durable o.
Proof.
  intros Hr Hv Hp. pose proof (classify_meaning c durable {| max_candidates := 0; limit_attribute_bytes := 0;
    limit_evidence_ref_bytes := 0 |} r o Hr Hv) as H. by rewrite Hp in H.
Qed.

(** ** A new match *)
(** The signal a wake was armed with, and the contract of its source. *)
Record armed_in (j : journal) (w : string) (durable : ArmedSignal) (c : SourceContract) : Prop := {
  ai_row : ∃ row, arms j !! w = Some row ∧ row_state row = "published" ∧ _armed_from_row row = Some durable;
  ai_contract : ∃ i, source_instances j !! (spec_source (spec durable), spec_source_instance (spec durable)) = Some i ∧
    _contract_from_json (si_contract_json i) = Some c;
}.

Lemma evaluates_armed w armed j durable c : evaluates w armed j durable c → armed_in j w durable c.
Proof.
  intros [(row & Hr & Hd) Hp _ (i & Hi & _ & Hc) _]. split; [|by exists i].
  exists row. split_and!; [done| |done]. destruct (armed_components _ _ Hd) as (?&?&?&_&_&_&_&_&_&_&_&_&Hst). congruence.
Qed.

Lemma matched_row rid token at_ m : calendar_range (matched_at m) →
  _matched_from_row {| mr_receipt_id := rid; mr_match_token := token; mr_matched_at := at_;
    mr_evidence_json := _canonical_json (_matched_payload m) |} = Some m.
Proof. apply matched_round_trip. Qed.

Lemma evaluate_new_match w armed now limits j m j' hook : journal_inv j → match_reservations j !! w = None →
  calendar_range now → evaluate_body w armed now limits j = Commit (EvalMatched m) j' hook →
  ∃ durable c scanned pre x rest o, evaluates w armed j durable c ∧ (∀ e, expires_at durable = Some e → now < e) ∧
    (∃ old, evaluation_progress j !! w = Some old ∧
       scanned = local_after_sequence (anchor durable) `max` pr_scanned_through_sequence old) ∧
    stream j (spec durable) scanned = pre ++ x :: rest ∧ Forall (passed_over c durable) pre ∧
    classify c durable limits x = Some (Candidate o) ∧ m = match_of w x o now ∧
    match_reservations j' = <[w := {| mr_receipt_id := Some (rc_receipt_id x); mr_match_token := match_token m;
      mr_matched_at := _format_time now; mr_evidence_json := _canonical_json (_matched_payload m) |}]> (match_reservations j).
Proof.
  intros Hinv Hres Hnow Hb.
  destruct (evaluate_body_cases w armed now limits j) as
    [_ Hno _|durable c res _ Hres' Ht|durable c ev _ _ Ht _|durable c _ _ _ Ht|durable c scanned page rows Hev Hsc Ht].
  - by destruct (Hno _ _ _ Hb).
  - congruence.
  - by rewrite Ht in Hb.
  - by rewrite Ht in Hb.
  - rewrite Ht in Hb. destruct (scan_page _ _ _ _ _) as [out|] eqn:Hout; [|done]. cbn [or_raise] in Hb.
    destruct Hsc as [_ _ Hexp Hmax (old & Hold & Hscan) Hrows Hpage].
    destruct (scan_page_stops _ _ _ _ _ _ Hout) as (pre & rest & Hpp & Hskip & Hstop).
    rewrite Hpage, Hrows, select_stream in Hpp.
    replace (Z.to_nat (max_candidates limits + 1)) with (Z.to_nat (max_candidates limits) + 1)%nat in Hpp by lia.
    pose proof (page_prefix _ _ _ _ Hpp) as Hst.
    destruct out as [i|safe rid|safe|x o|]; [done| | | |by destruct (_ <? _)]; try done.
    destruct Hstop as (l0 & -> & Hc). cbn [app] in Hst.
    unfold reserve_match in Hb. destruct (_ && _); [done|]. unfold insert_new in Hb. rewrite Hres in Hb.
    cbn [match_reservations set_pins set_reservations] in Hb. rewrite lookup_insert_eq, bind_Some in Hb.
    rewrite matched_row in Hb by done.
    rewrite bind_Some in Hb.
    destruct (_ensure_match_outbox (match_of w x o now) _) as [j0|] eqn:He; [|done]. rewrite bind_Some in Hb. cbn [or_raise] in Hb.
    injection Hb as <- <- _. destruct (ensure_form _ _ _ He) as (l & ob & -> & _ & _). clear Ht Hout.
    exists durable, c, scanned, pre, x, (l0 ++ drop (Z.to_nat (max_candidates limits)) (stream j (spec durable) scanned)), o.
    split_and!; try done. by exists old.
Qed.

(** C5 (functional). A match that was not reserved before is sound and
    earliest: its wake is published and unexpired, its evidence is a stored
    receipt of the signal's stream after the anchor whose observation the
    signal wants (order, cohort, every clause, verified when required) and the
    limits admit, no stored receipt of the stream with a smaller sequence is
    wanted or still awaits its verification, and the match is reserved. *)
Theorem journal_evaluate_sound env w armed now limits j m j' : journal_inv j → calendar_range now →
  match_reservations j !! w = None → evaluate env w armed now limits j = (EvalMatched m, j') →
  ∃ durable c x o, armed_in j w durable c ∧ (∀ e, expires_at durable = Some e → now < e) ∧
    x ∈ receipts j ∧ for_signal durable x ∧ row_of x o ∧ wanted c durable o ∧ within limits o ∧
    m = match_of w x o now ∧
    (∀ y oy, y ∈ receipts j → for_signal durable y → row_of y oy → rc_local_sequence y < rc_local_sequence x →
       ¬ wanted c durable oy ∧ ¬ awaits c durable oy) ∧
    ∃ reservation, match_reservations j' !! w = Some reservation ∧ _matched_from_row reservation = Some m.
Proof.
  intros Hinv Hnow Hres He. unfold evaluate in He. destruct (negb _); [done|].
  destruct (transact_cases _ _ _ _ _ _ _ He) as [? _|Hb _|a hook Hb [<-|[? _]]]; [done| | |done].
  { exfalso. destruct (evaluate_body_cases w armed now limits j) as
      [_ _ Hno|durable c res _ Hres' Ht|durable c ev _ _ Ht Hne|durable c _ _ _ Ht|durable c scanned page rows _ _ Ht].
    - by destruct (Hno m).
    - congruence.
    - rewrite Ht in Hb. injection Hb as ->. by destruct (Hne m).
    - by rewrite Ht in Hb.
    - rewrite Ht in Hb. destruct (scan_page _ _ _ _ _) as [[]|]; try done; cbn [or_raise] in Hb.
      + by destruct (reserve_match _ _ _ _) as [[? ?]|].
      + by destruct (_ <? _). }
  destruct (evaluate_new_match _ _ _ _ _ _ _ _ Hinv Hres Hnow Hb) as
    (durable & c & scanned & pre & x & rest & o & Hev & Hexp & (old & Hold & Hscan) & Hst & Hskip & Hc & -> & Hrs).
  destruct (ev_row _ _ _ _ _ Hev) as (row & Hrow & Hd). pose proof (ev_anchor _ _ _ _ _ Hev) as Hv.
  assert (x ∈ stream j (spec durable) scanned) as (Hx & Hon & Hlt)%stream_elem by (rewrite Hst; apply elem_of_app; right; by left).
  pose proof (ri_rows j (ji_receipts j Hinv)) as Hrows. rewrite Forall_forall in Hrows. destruct (Hrows x Hx) as (ox & Hox).
  pose proof (classify_meaning c durable limits x ox Hox Hv) as Hmean. rewrite Hc in Hmean. destruct Hmean as (-> & Hw & Hlim).
  exists durable, c, x, ox. split_and!; try done.
  - by eapply evaluates_armed.
  - split; [done|]. lia.
  - intros y oy Hy [Hony Hafter] Hoy Hylt. apply (passed_over_meaning c durable y oy Hoy Hv).
    destruct (decide (rc_local_sequence y ≤ pr_scanned_through_sequence old)) as [Hle|Hgt].
    + destruct (ev_contract _ _ _ _ _ Hev) as (i & Hi & _ & Hci).
      destruct (ji_progress j Hinv w row Hrow durable old Hd Hold) as [_ Hsk]. by eapply Hsk.
    + rewrite Forall_forall in Hskip. apply Hskip. eapply stream_before; [by apply Hinv|exact Hst|done|done|lia|done].
  - rewrite Hrs, lookup_insert_eq. eexists. split; [done|]. by apply matched_row.
Qed.

(** ** A match is for ever *)
Lemma evaluate_rollback w armed now limits j m : evaluate_body w armed now limits j ≠ Rollback (EvalMatched m).
Proof.
  destruct (evaluate_body_cases w armed now limits j) as
    [_ _ Hno|durable c res _ Hres' Ht|durable c ev _ _ Ht Hne|durable c _ _ _ Ht|durable c scanned page rows _ _ Ht].
  - apply Hno.
  - rewrite Ht. destruct (_matched_from_row res) as [x|]; [|done]. cbn [or_raise]. by destruct (_ensure_match_outbox x j).
  - rewrite Ht. intros [= ->]. by destruct (Hne m).
  - by rewrite Ht.
  - rewrite Ht. destruct (scan_page _ _ _ _ _) as [[]|]; try done; cbn [or_raise].
    + by destruct (reserve_match _ _ _ _) as [[? ?]|].
    + by destruct (_ <? _).
Qed.

(** A reported match is the reserved one, before or after. *)
Lemma evaluate_reported env w armed now limits j m j' : journal_inv j → calendar_range now →
  evaluate env w armed now limits j = (EvalMatched m, j') →
  (∃ r, match_reservations j' !! w = Some r ∧ _matched_from_row r = Some m) ∧
  ∀ r, match_reservations j !! w = Some r → _matched_from_row r = Some m.
Proof.
  intros Hinv Hnow He. unfold evaluate in He. destruct (negb _); [done|].
  destruct (transact_cases _ _ _ _ _ _ _ He) as [? _|Hb _|a hook Hb [<-|[? _]]]; [done|by destruct (evaluate_rollback _ _ _ _ _ _ Hb)| |done].
  destruct (match_reservations j !! w) as [r|] eqn:Hres.
  - destruct (evaluate_body_cases w armed now limits j) as
      [_ Hno _|durable c res _ Hres' Ht|durable c ev _ _ Ht Hne|durable c _ _ _ Ht|durable c scanned page rows _ [Hn _ _ _ _ _ _] Ht];
      [by destruct (Hno _ _ _ Hb)| |congruence..].
    assert (res = r) as -> by congruence. rewrite Ht in Hb. destruct (_matched_from_row r) as [x|] eqn:Hx; [|done].
    cbn [or_raise] in Hb. destruct (_ensure_match_outbox x j) as [j0|] eqn:Hen; [|done]. injection Hb as <- <- _.
    destruct (ensure_form _ _ _ Hen) as (l & o & -> & _). split; [by exists r|]. by intros ? [= <-].
  - destruct (evaluate_new_match _ _ _ _ _ _ _ _ Hinv Hres Hnow Hb) as
      (durable & c & scanned & pre & x & rest & o & _ & _ & _ & _ & _ & _ & -> & Hrs). split; [|done].
    rewrite Hrs, lookup_insert_eq. eexists. split; [done|]. by apply matched_row.
Qed.

(** C7 (safety). A wake matches at most once: after a match was reported,
    whatever calls interleave, compactions and failed transactions included,
    any match reported for the wake is that one. *)
Theorem journal_match_stable env w armed now limits j m j1 j2 env' armed' now' limits' m' j3 : journal_inv j →
  calendar_range now → calendar_range now' →
  evaluate env w armed now limits j = (EvalMatched m, j1) → rtc journal_step j1 j2 →
  evaluate env' w armed' now' limits' j2 = (EvalMatched m', j3) → m' = m.
Proof.
  intros Hinv Hnow Hnow' He Hs He'. assert (rtc journal_step j j1) as Hj1.
  { unfold evaluate in He. destruct (negb _); [done|]. eapply transact_history; [exact He|]. intros. by eapply (js_evaluate _ _ w armed now limits). }
  pose proof (history_inv _ _ Hj1 Hinv) as Hinv1. pose proof (history_inv _ _ Hs Hinv1) as Hinv2.
  destruct (evaluate_reported _ _ _ _ _ _ _ _ Hinv Hnow He) as [(r & Hr & Hm) _].
  destruct (history_reservations _ _ Hinv1 Hs w r Hr) as (r' & Hr' & Hev).
  destruct (evaluate_reported _ _ _ _ _ _ _ _ Hinv2 Hnow' He') as [_ H]. specialize (H r' Hr').
  unfold _matched_from_row in *. rewrite Hev in H. congruence.
Qed.

(** ** The end of a wake *)
Lemma ended_armed j w : ended j w → ∀ row d, arms j !! w = Some row → _armed_from_row row = Some d → publication d = "tombstoned".
Proof.
  intros (row & Hr & Hs) row' d Hr' Hd. destruct (armed_components _ _ Hd) as (?&?&?&_&_&_&_&_&_&_&_&_&Hp). congruence.
Qed.

(** C8 (safety). The terminal fence: once a wake's arm is tombstoned (its
    record was retired or it expired), in every later state it is not loaded,
    never evaluates to a match, no record of it is authorised to fire, no
    firing record is published for it, and it cannot expire. *)
Theorem journal_terminal_fence j w j' env : journal_inv j → ended j w → rtc journal_step j j' →
  ended j' w ∧ load_armed_signal env w j' = None ∧
  (∀ armed now limits m j2, evaluate env w armed now limits j' ≠ (EvalMatched m, j2)) ∧
  (∀ record, str_field "id" record = Some w → authorize_firing_record env record j' ≠ Done true) ∧
  (∀ revision, firing_authority w revision j' = None) ∧
  (∀ now j2, expire_unreserved env w now j' ≠ (inl true, j2)).
Proof.
  intros Hinv Hend Hs. destruct (history_ended _ _ w Hinv Hs Hend) as [Hend' _]. pose proof Hend' as (row & Hr & Hst).
  split_and!; [done|..].
  - unfold load_armed_signal. destruct (fails env _); [done|]. rewrite Hr. cbn [mbind option_bind].
    by rewrite bool_decide_false by congruence.
  - intros armed now limits m j2 He. unfold evaluate in He. destruct (negb _); [done|].
    assert (∀ durable c, ¬ evaluates w armed j' durable c) as Hno.
    { intros durable c [(row' & Hr' & Hd) Hp _ _ _]. rewrite (ended_armed _ _ Hend' row' durable Hr' Hd) in Hp. done. }
    destruct (transact_cases _ _ _ _ _ _ _ He) as [? _|Hb _|a hook Hb _]; [done|by destruct (evaluate_rollback _ _ _ _ _ _ Hb)|].
    destruct (evaluate_body_cases w armed now limits j') as
      [_ Hn _|durable c res Hev _ _|durable c ev Hev _ _ _|durable c Hev _ _ _|durable c scanned page rows Hev _ _];
      [by destruct (Hn _ _ _ Hb)|by destruct (Hno durable c)..].
  - intros record Hid. unfold authorize_firing_record. destruct (decode_signal_record record) as [[d|]|] eqn:Hd; [|done..].
    pose proof (decode_same _ _ Hd) as ->. destruct (negb _); [done|]. destruct (fails env _); [done|]. rewrite Hid.
    destruct (int_field "record_revision" record) as [rev|]; [|done].
    destruct (authorize_row record w rev j') as [[]|] eqn:Ha; [|done..]. exfalso. revert Ha. unfold authorize_row. rewrite Hr.
    destruct (match_reservations j' !! w); [|done]. destruct (wake_lifecycle j' !! w); [|done].
    destruct (record_outbox j' !! (w, rev)); [|done]. destruct (loads _); [|done]. cbn [mbind option_bind].
    by rewrite (bool_decide_false (row_state row = "published")) by congruence.
  - intros rev. unfold firing_authority. rewrite Hr. destruct (wake_lifecycle j' !! w); [|done].
    destruct (record_outbox j' !! (w, rev)); [|done]. destruct (match_reservations j' !! w); [|done].
    by rewrite (bool_decide_false (row_state row = "published")) by congruence.
  - intros now j2 He. destruct (transact_cases _ _ _ _ _ _ _ He) as [? _|Hb _|a hook Hb _]; [done|..];
      unfold expire_body in Hb; rewrite Hr, (bool_decide_false (row_state row = "published")) in Hb by congruence; done.
Qed.

(** A match and an expiry exclude each other: a wake with a
    reserved match does not expire, whatever the time; and a wake expires only
    when its time has come and it has no reserved match, and gets none in any
    later state. *)
Theorem journal_expiry_excludes_match env w now j r j' : journal_inv j → expire_unreserved env w now j = (r, j') →
  (is_Some (match_reservations j !! w) → j' = j ∧ r ≠ inl true) ∧
  (r = inl true → (∃ row text expiry, arms j !! w = Some row ∧ row_expires_at row = Some text ∧
      _parse_time text = Some expiry ∧ expiry ≤ now) ∧
    ended j' w ∧ ∀ j'', rtc journal_step j' j'' → match_reservations j'' !! w = None).
Proof.
  intros Hinv He. destruct (transact_cases _ _ _ _ _ _ _ He) as [-> ->|Hb ->|a hook Hb Hr].
  - by split.
  - split; [intros _; split; [done|]; intros ->|intros ->]; unfold expire_body in Hb;
      (destruct (arms j !! w) as [row|]; [|done]); (destruct (negb _); [done|]);
      (destruct (row_expires_at row) as [t|]; [|done]); (destruct (_parse_time t); [|done]); cbn [or_raise] in Hb;
      (destruct (_ || _); [done|]); by destruct (_ && _).
  - assert (commits (expire_body w now) j j') as Hc by (by eexists _, _).
    pose proof (expire_inv _ _ _ _ Hinv Hc) as Hinv'.
    apply expire_form in Hc as (row & f & Hrow & Hst & Hres & (t & e & Ht & Hp & Hle) & Hj').
    split; [intros [? ?]; congruence|]. intros _. split; [by exists row, t, e|].
    assert (ended j' w) as Hend.
    { exists (arm_with_state "tombstoned" row). subst j'. simpl. by rewrite lookup_insert_eq. }
    split; [done|]. intros j'' Hs. apply (history_ended _ _ w Hinv' Hs Hend). by subst j'.
Qed.

(** ** Matching is live *)
Section Tokens.
Context (p : ascii → bool).
Lemma all_chars_app a b : all_chars p (a +:+ b) = all_chars p a && all_chars p b.
Proof. induction a as [|c a IH]; [done|]. rewrite app_cons. cbn [all_chars]. by rewrite IH, andb_assoc. Qed.
Lemma all_chars_repeat c n : p c = true → all_chars p (repeat_char c n) = true.
Proof. intros Hc. induction n as [|n IH]; [done|]. cbn [repeat_char all_chars]. by rewrite Hc, IH. Qed.
Lemma all_chars_impl (q : ascii → bool) s : (∀ c, q c = true → p c = true) → all_chars q s = true → all_chars p s = true.
Proof.
  intros Hq. induction s as [|c s IH]; [done|]. cbn [all_chars]. rewrite !andb_true_iff. intros [H1 H2]. split; [by apply Hq|by apply IH].
Qed.

(** The last occurrence of a separator splits a string. *)
Lemma last_separator c s1 s2 e1 e2 : p c = false → all_chars p e1 = true → all_chars p e2 = true →
  s1 +:+ String c e1 = s2 +:+ String c e2 → s1 = s2.
Proof.
  intros Hc H1 H2. assert (∀ a s e, all_chars p a = true → a = s +:+ String c e → False) as Hno.
  { intros a s e Ha ->. rewrite all_chars_app in Ha. cbn [all_chars] in Ha. rewrite Hc, andb_false_r in Ha. done. }
  revert s2. induction s1 as [|x s1 IH]; intros [|y s2]; rewrite ?app_empty, ?app_cons.
  - done.
  - intros [= -> He]. by destruct (Hno _ _ _ H1 He).
  - intros [= -> He]. by destruct (Hno _ _ _ H2 (eq_sym He)).
  - intros [= -> He]. by rewrite (IH s2 He).
Qed.
End Tokens.

Definition not_colon (c : ascii) : bool := negb (byte_of c =? 58).
Lemma event_id_chars n : all_chars not_colon (event_id n) = true.
Proof.
  unfold event_id. rewrite all_chars_app. cbn [all_chars]. unfold zero_pad. rewrite all_chars_app, all_chars_repeat by done.
  apply (all_chars_impl _ num_char); [|apply Z_dec_chars]. intros c. unfold num_char, not_colon.
  rewrite negb_true_iff, Z.eqb_neq. intros [[H%Z.leb_le H'%Z.leb_le]%andb_true_iff|H%Z.eqb_eq]%orb_true_iff; lia.
Qed.
Lemma token_inj w1 w2 n m :
  "match:" +:+ w1 +:+ ":" +:+ event_id n = "match:" +:+ w2 +:+ ":" +:+ event_id m → w1 = w2.
Proof.
  rewrite !app_cons, !app_empty. intros [= H]. by apply (last_separator not_colon ":" w1 w2 (event_id n) (event_id m));
    [|apply event_id_chars..|].
Qed.

(** The firing payload can always be built from the pending record. *)
Lemma firing_payload_total w o m : pending_record w o →
  ∃ payload fields f, loads (ob_payload_json o) = Some payload ∧ as_obj payload = Some fields ∧ firing_payload fields m = Some f.
Proof.
  intros (resolve & armed & resume & uuid & attempts & _ & Ht & Hp). unfold build_signal_record in Hp. injection Hp as -> _.
  pose proof (record_payload_ok resolve armed resume uuid 1 attempts Ht) as Hok.
  unfold _canonical_json. rewrite (loads_dumps _ Hok).
  destruct (canon_obj_read (record_payload resolve armed resume uuid 1 attempts) _ eq_refl Hok) as (r & Hc & Hr).
  rewrite Hc. eexists _, r, _. split_and!; [done|done|].
  unfold firing_payload, set_members. cbn [foldl fst snd].
  rewrite !dict_get_set_ne by done. rewrite (Hr "events" _ eq_refl), canon_arr. cbn [list_or_empty]. by rewrite bind_Some.
Qed.
Lemma ensure_total w m j : matched_wake_id m = w → tables_ok j → live (arms j) w → is_Some (_ensure_match_outbox m j).
Proof.
  intros Hw Htab Hl. unfold _ensure_match_outbox. rewrite Hw. destruct (record_outbox j !! (w, 2)) as [o2|]; [by eexists|].
  destruct (to_outbox j Htab w Hl) as (o & -> & Hpr). rewrite bind_Some.
  destruct (firing_payload_total w o m Hpr) as (payload & fields & f & -> & Hf & Hfp). rewrite bind_Some, Hf, bind_Some, Hfp, bind_Some.
  by eexists.
Qed.

Lemma scan_page_total c durable limits safe page : _validate_occurrence_anchor c (spec durable) (anchor durable) = None →
  Forall (λ r, ∃ o, row_of r o) page → is_Some (scan_page c durable limits safe page).
Proof.
  intros Hv Hall. revert safe. induction Hall as [|r page (o & Ho) _ IH]; intros safe; cbn [scan_page]; [by eexists|].
  pose proof (classify_meaning c durable limits r o Ho Hv) as Hm.
  destruct (classify c durable limits r) as [class|]; [|done]. rewrite bind_Some. destruct class; [apply IH|by eexists..].
Qed.

(** A signal that may match now. *)
Record may_match (j : journal) (w : string) (armed durable : ArmedSignal) (c : SourceContract) (now : Z) : Prop := {
  mm_wake : w = wake_id armed;
  mm_armed : armed_in j w durable c;
  mm_id : arm_id durable = arm_id armed;
  mm_anchor : _validate_occurrence_anchor c (spec durable) (anchor durable) = None;
  mm_unreserved : match_reservations j !! w = None;
  mm_pending : ∃ l, wake_lifecycle j !! w = Some l ∧ lifecycle_pending l = true;
  mm_unexpired : ∀ e, expires_at durable = Some e → now < e;
}.
(** Receipts of its stream that the evaluation can judge. *)
Record judgeable (j : journal) (durable : ArmedSignal) (c : SourceContract) (limits : EvaluationLimits) : Prop := {
  jg_count : Z.of_nat (length (receipts j)) ≤ max_candidates limits;
  jg_order : ∀ y o key, y ∈ receipts j → for_signal durable y → row_of y o →
    occurrence_order_attribute c = Some key → ∃ z, obs_attributes o !! key = Some (SInt z);
  jg_size : ∀ y o, y ∈ receipts j → for_signal durable y → row_of y o → within limits o;
}.

Lemma ordered_not_bad c durable limits r o i : row_of r o →
  (∀ key, occurrence_order_attribute c = Some key → ∃ z, obs_attributes o !! key = Some (SInt z)) →
  classify c durable limits r ≠ Some (BadOrder i).
Proof.
  intros Hr Hord. unfold classify. rewrite (row_observation _ _ Hr). cbn [mbind option_bind].
  unfold _occurrence_is_after_anchor. destruct (occurrence_order_attribute c) as [key|].
  - destruct (Hord key eq_refl) as [z ->].
    destruct (norm <$> baseline (anchor durable) !! key) as [[| |]|]; simpl; try done; by repeat case_match.
  - by repeat case_match.
Qed.

Lemma may_match_evaluates j w armed durable c now : journal_inv j → may_match j w armed durable c now → evaluates w armed j durable c.
Proof.
  intros Hinv [_ [(row & Hr & Hs & Hd) (i & Hi & Hc)] Hid Hv _ _ _]. split; try done.
  - by exists row.
  - destruct (armed_components _ _ Hd) as (?&?&?&_&_&_&_&_&_&_&_&_&Hp). congruence.
  - exists i. split_and!; [done| |done]. destruct (ji_instances j Hinv _ _ Hi) as (c0 & p & _ & -> & -> & _). done.
Qed.
Lemma evaluates_unique w armed j d1 c1 d2 c2 : evaluates w armed j d1 c1 → evaluates w armed j d2 c2 → d1 = d2 ∧ c1 = c2.
Proof.
  intros [(r1 & Hr1 & Hd1) _ _ (i1 & Hi1 & _ & Hc1) _] [(r2 & Hr2 & Hd2) _ _ (i2 & Hi2 & _ & Hc2) _].
  assert (d1 = d2) as -> by congruence. split; [done|congruence].
Qed.

(** The scan of a judgeable page finds the match. *)
Lemma scan_finds j w armed durable c now limits scanned x o : journal_inv j → may_match j w armed durable c now →
  judgeable j durable c limits → (∃ old, evaluation_progress j !! w = Some old ∧
    scanned = local_after_sequence (anchor durable) `max` pr_scanned_through_sequence old) →
  x ∈ receipts j → for_signal durable x → row_of x o → wanted c durable o →
  (∀ y oy, y ∈ receipts j → for_signal durable y → row_of y oy → rc_local_sequence y < rc_local_sequence x → ¬ awaits c durable oy) →
  ∃ r o', scan_page c durable limits scanned (stream j (spec durable) scanned) = Some (PageMatch r o') ∧ r ∈ receipts j.
Proof.
  intros Hinv Hmm Hjg (old & Hold & Hscan) Hx Hfor Ho Hw Hno. pose proof (mm_anchor _ _ _ _ _ _ Hmm) as Hv.
  destruct (mm_armed _ _ _ _ _ _ Hmm) as [(row & Hrow & _ & Hd) (i & Hi & Hc)].
  destruct (ji_progress j Hinv w row Hrow durable old Hd Hold) as [_ Hskip].
  assert (∀ y, y ∈ stream j (spec durable) scanned → y ∈ receipts j ∧ for_signal durable y ∧ ∃ oy, row_of y oy) as Hst.
  { intros y (Hy & Hon & Hlt)%stream_elem. split_and!; [done| |].
    - split; [done|lia].
    - pose proof (ri_rows j (ji_receipts j Hinv)) as Hrows. rewrite Forall_forall in Hrows. by apply Hrows. }
  assert (¬ passed_over c durable x) as Hnp by (intros Hp; by destruct (passed_over_meaning c durable x o Ho Hv Hp)).
  assert (x ∈ stream j (spec durable) scanned) as Hxs.
  { destruct Hfor as [Hon Hlt]. apply stream_elem. split_and!; [done..|].
    destruct (decide (rc_local_sequence x ≤ pr_scanned_through_sequence old)) as [Hle|]; [|lia].
    destruct Hnp. by eapply Hskip. }
  destruct (scan_page_total c durable limits scanned (stream j (spec durable) scanned) Hv) as [out Hout].
  { apply Forall_forall. intros y Hy. by apply Hst. }
  destruct (scan_page_stops _ _ _ _ _ _ Hout) as (pre & rest & Hpp & Hpre & Hstop). rewrite Forall_forall in Hpre.
  assert (x ∉ pre) as Hxpre by (intros H; by apply Hnp, Hpre).
  assert (∀ r l, rest = r :: l → r = x ∨ rc_local_sequence r < rc_local_sequence x) as Hfirst.
  { intros r l ->. rewrite Hpp in Hxs. apply elem_of_app in Hxs as [|Hxs]; [done|]. apply elem_of_cons in Hxs as [->|Hxs]; [by left|right].
    pose proof (stream_sorted j (spec durable) scanned (ji_receipts j Hinv)) as Hso. rewrite Hpp in Hso.
    apply StronglySorted_app_1_r, StronglySorted_inv in Hso as [_ Hall]. rewrite Forall_forall in Hall. by apply Hall. }
  assert (∀ r l, rest = r :: l → r ∈ stream j (spec durable) scanned) as Hin.
  { intros r l ->. rewrite Hpp. apply elem_of_app. right. by left. }
  destruct out as [i0|s rid|s|r o'|]; cbn [stops] in Hstop.
  - destruct Hstop as (r & l & -> & Hcl). exfalso. destruct (Hst r (Hin r l eq_refl)) as (Hr & Hrf & or & Hor).
    eapply ordered_not_bad; [exact Hor| |exact Hcl]. intros key Hk. by eapply (jg_order _ _ _ _ Hjg).
  - destruct Hstop as (_ & r & l & -> & Hcl & _). exfalso. destruct (Hst r (Hin r l eq_refl)) as (Hr & Hrf & or & Hor).
    pose proof (classify_meaning c durable limits r or Hor Hv) as Hm. rewrite Hcl in Hm.
    destruct (Hfirst r l eq_refl) as [->|Hlt]; [|by eapply Hno].
    assert (or = o) as -> by (apply row_observation in Hor, Ho; congruence).
    destruct Hm as (_ & Hreq & Hpend), Hw as [_ Hver]. rewrite Hver in Hpend by done. done.
  - destruct Hstop as (_ & r & l & -> & Hcl). exfalso. destruct (Hst r (Hin r l eq_refl)) as (Hr & Hrf & or & Hor).
    pose proof (classify_meaning c durable limits r or Hor Hv) as Hm. rewrite Hcl in Hm.
    destruct Hm as [_ Hbig]. apply Hbig. by eapply (jg_size _ _ _ _ Hjg).
  - destruct Hstop as (l & -> & Hcl). exists r, o'. split; [done|]. by apply (Hst r), (Hin r l).
  - subst rest. rewrite app_nil_r in Hpp. by rewrite Hpp in Hxs.
Qed.

Lemma reserve_total j w r m : journal_inv j → live (arms j) w → match_reservations j !! w = None → r ∈ receipts j →
  matched_wake_id m = w → calendar_range (matched_at m) → match_token m = "match:" +:+ w +:+ ":" +:+ rc_receipt_id r →
  ∃ j', reserve_match w r m j = Some (m, j').
Proof.
  intros Hinv Hl Hn Hr Hw Ht Htok. unfold reserve_match.
  assert (existsb (λ kv, bool_decide (mr_match_token kv.2 = match_token m)) (map_to_list (match_reservations j)) = false) as ->.
  { apply existsb_false, Forall_forall. intros [w' x] Hin%elem_of_map_to_list. apply bool_decide_eq_false. simpl.
    destruct (ji_reserved j Hinv w' x Hin) as (mx & n & _ & _ & Htx & _ & _ & ->). rewrite Htx, Htok.
    pose proof (ri_rows j (ji_receipts j Hinv)) as Hrows. rewrite Forall_forall in Hrows. destruct (Hrows r Hr) as (o & _ & ->).
    cbn [rc_receipt_id receipt_of]. intros <-%token_inj. congruence. }
  cbn [andb]. rewrite (insert_new_fresh _ _ _ Hn). cbn [match_reservations set_pins set_reservations].
  rewrite lookup_insert_eq, bind_Some, matched_row, bind_Some by done.
  match goal with |- context [_ensure_match_outbox m ?x] => destruct (ensure_total w m x Hw) as [j' ->] end.
  - pose proof (ji_tables j Hinv) as Htab. eapply tables_frame; [exact Htab|..]; simpl; auto with rows.
    intros w0. destruct (decide (w = w0)) as [<-|Hne]; [by right|rewrite lookup_insert_ne by done; by left].
  - done.
  - rewrite bind_Some. by eexists.
Qed.

(** C6 (liveness). No wake is lost: when a published, unreserved, unexpired
    signal wants the observation of a stored receipt, and no earlier receipt
    of its stream awaits verification, an evaluation whose limits cover the
    journal and whose transaction goes through answers a match now. *)
Theorem journal_evaluate_live env j w armed durable c now limits x o : journal_inv j → calendar_range now →
  may_match j w armed durable c now → judgeable j durable c limits →
  x ∈ receipts j → for_signal durable x → row_of x o → wanted c durable o →
  (∀ y oy, y ∈ receipts j → for_signal durable y → row_of y oy → rc_local_sequence y < rc_local_sequence x → ¬ awaits c durable oy) →
  (∀ place, fails env place = false) →
  ∃ m j', evaluate env w armed now limits j = (EvalMatched m, j').
Proof.
  intros Hinv Hnow Hmm Hjg Hx Hfor Ho Hw Hno Hf. pose proof (may_match_evaluates _ _ _ _ _ _ Hinv Hmm) as Hev.
  assert (live (arms j) w) as Hlive.
  { destruct (mm_armed _ _ _ _ _ _ Hmm) as [(row & Hr & Hs & _) _]. exists row. split; [done|congruence]. }
  destruct (proj2 (to_progress j (ji_tables j Hinv) w) Hlive) as [old Hold].
  set (scanned := local_after_sequence (anchor durable) `max` pr_scanned_through_sequence old).
  destruct (scan_finds j w armed durable c now limits scanned x o Hinv Hmm Hjg ltac:(by exists old) Hx Hfor Ho Hw Hno)
    as (r & o' & Hscan & Hr).
  assert (0 < max_candidates limits) as Hmax.
  { pose proof (jg_count _ _ _ _ Hjg) as Hc. destruct (receipts j); [by apply not_elem_of_nil in Hx|simpl in Hc; lia]. }
  set (rows := select_receipts j (spec durable) scanned (Z.to_nat (max_candidates limits + 1))).
  set (page := take (Z.to_nat (max_candidates limits)) rows).
  assert (page = stream j (spec durable) scanned) as Hpage.
  { subst page rows. rewrite select_stream, take_take. apply take_ge.
    pose proof (jg_count _ _ _ _ Hjg) as Hc. unfold stream. rewrite merge_sort_Permutation.
    pose proof (sublist_length _ _ (sublist_filter (λ r0, (rc_source r0, rc_source_instance r0, rc_kind r0, rc_subject r0) =
      (spec_source (spec durable), spec_source_instance (spec durable), spec_kind (spec durable), spec_subject (spec durable)) ∧
      scanned < rc_local_sequence r0) (receipts j))). lia. }
  assert (scans w durable now limits j scanned page rows) as Hsc.
  { split; try done; [apply Hmm|apply Hmm|apply Hmm|by exists old]. }
  unfold evaluate. rewrite (bool_decide_true _ (mm_wake _ _ _ _ _ _ Hmm)). cbn [negb]. unfold transact. rewrite Hf.
  destruct (evaluate_body_cases w armed now limits j) as
    [Hnone _ _|d' c' res Hev' Hres Ht|d' c' ev Hev' _ Ht _ Hns|d' c' Hev' _ Hp Ht|d' c' scanned' page' rows' Hev' Hsc' Ht].
  - exfalso. destruct (ev_row _ _ _ _ _ Hev) as (row & Hrow & Hd).
    destruct Hnone as [Hn|(row' & Hrow' & Hn)]; [congruence|]. assert (row' = row) as -> by congruence. by eapply Hn.
  - rewrite (mm_unreserved _ _ _ _ _ _ Hmm) in Hres. done.
  - exfalso. destruct (evaluates_unique _ _ _ _ _ _ _ Hev' Hev) as [-> ->]. by eapply Hns.
  - congruence.
  - destruct (evaluates_unique _ _ _ _ _ _ _ Hev' Hev) as [-> ->].
    assert (scanned' = scanned ∧ page' = page ∧ rows' = rows) as (-> & -> & ->).
    { destruct Hsc' as [_ _ _ _ (old' & Hold' & ->) -> ->]. assert (old' = old) as -> by congruence. done. }
    rewrite Ht, Hpage, Hscan. cbn [or_raise].
    destruct (reserve_total j w r (match_of w r o' now) Hinv Hlive (mm_unreserved _ _ _ _ _ _ Hmm) Hr eq_refl Hnow eq_refl) as [j' ->].
    cbn [or_raise]. rewrite !Hf. by eexists _, j'.
Qed.
