(* ===== verification/StoreRegistration.v ===== *)
(** * What the journal guarantees about registrations

    The source lease makes arming atomic towards ingestion, a key is armed
    once, and a registration or a match is only acknowledged when the
    publisher holds its record. *)
From S2P Require Import Prelude Json Sha256 Datetime Signals SignalCodec SignalRecords SignalStore StoreIngest StoreScan StoreSteps StoreHistory StoreOperations.
Open Scope Z_scope.

(** ** Source states *)
Definition receipt_key (r : receipt_row) : string * string := (rc_source r, rc_source_instance r).

(** How a source's row may change: not at all, losing its lease, or under a
    later generation; its last sequence never decreases. *)
Record state_change (s s' : state_row) : Prop := {
  sc_last : ss_last_local_sequence s ≤ ss_last_local_sequence s';
  sc_lease : s' = s ∨ ss_lease_owner s' = None ∧ ss_lease_generation s' = ss_lease_generation s ∨
    ss_lease_generation s < ss_lease_generation s';
}.
Lemma state_change_refl s : state_change s s.
Proof. split; [lia|by left]. Qed.

Record states_step (j j' : journal) : Prop := {
  st_rows : ∀ key s, source_state j !! key = Some s → ∃ s', source_state j' !! key = Some s' ∧ state_change s s';
  st_receipts : ∀ r, r ∈ receipts j' → r ∈ receipts j ∨
    ∃ s', source_state j' !! receipt_key r = Some s' ∧ ss_lease_owner s' = None ∧
      rc_local_sequence r ≤ ss_last_local_sequence s';
}.

Lemma states_same j j' : source_state j' = source_state j → (∀ r, r ∈ receipts j' → r ∈ receipts j) → states_step j j'.
Proof.
  intros Hs Hr. split; [|intros r Hin; left; by apply Hr]. intros key s Hk. exists s. rewrite Hs. split; [done|apply state_change_refl].
Qed.
Lemma release_lease_state key o g j key' s : source_state j !! key' = Some s →
  ∃ s', source_state (release_lease key o g j) !! key' = Some s' ∧ state_change s s'.
Proof.
  intros Hk. unfold release_lease. destruct (source_state j !! key) as [s0|] eqn:Hs0.
  2: { exists s. split; [done|apply state_change_refl]. }
  destruct (_ && _) eqn:Hc.
  2: { exists s. split; [done|apply state_change_refl]. }
  apply andb_true_iff in Hc as [_ Hg%Z.eqb_eq].
  destruct (decide (key = key')) as [<-|Hne]; simpl.
  - assert (s = s0) as -> by congruence. rewrite lookup_insert_eq. eexists. split; [done|].
    split; simpl; [lia|]. right. left. by split.
  - rewrite lookup_insert_ne by done. exists s. split; [done|apply state_change_refl].
Qed.

Lemma step_states j j' : journal_inv j → journal_step j j' → states_step j j'.
Proof.
  intros Hinv Hs.
  destruct Hs as [env obs commit Hobs (a & hook & Hb)|w armed now limits Hnow Hc|A env lease_now c w sp context p Hv Hpay Hctx _ Hc
    |arm_id key owner g (a & hook & Hb)|A env c w arm_id g sp context anchor row Hctx Hrow Hid Hc|env w capable Hc|env w code ->
    |env w rev sha capable Hc|record status now Hret Hc|w now Hc|env through limit r Hc|env w reasons at_ r Hc].
  - pose proof (ingest_body_spec env obs commit j (ji_receipts j Hinv) (instances_contracts j (ji_instances j Hinv)) Hobs) as Hs.
    rewrite Hb in Hs. destruct Hs as (i & s & c & staged & refs & Hi & Hst & _ & _ & Hc & _ & [_ Hok] & -> & _).
    assert (contract_key c = commit_key commit) as Hkey.
    { destruct (instances_contracts j (ji_instances j Hinv) _ _ Hi) as (c' & Hc' & ->). by assert (c' = c) as -> by congruence. }
    split; simpl.
    + intros key s0 Hk. destruct (decide (commit_key commit = key)) as [<-|Hne].
      * rewrite lookup_insert_eq. assert (s0 = s) as -> by congruence. eexists. split; [done|].
        split; simpl; [lia|]. right. left. by split.
      * rewrite lookup_insert_ne by done. exists s0. split; [done|apply state_change_refl].
    + intros r [Hr|Hr]%elem_of_app; [by left|right].
      assert (∀ i e, (i, e) ∈ fresh_items j staged → ∃ o, e = encoded o ∧ i = _identity o ∧ obs_times_ok o ∧ _validate_observation o c = None)
        as Hfresh by (intros i0 e [Hin _]%fresh_items_sub; by apply Hok).
      pose proof (new_rows_rows c (next_sequence j) _ Hfresh) as Hrows. rewrite Forall_forall in Hrows.
      destruct (Hrows r Hr) as (o & [_ Hro] & Hvo). apply validated in Hvo as [Hsrc _].
      assert (receipt_key r = commit_key commit) as ->.
      { rewrite <- Hkey, Hro. unfold receipt_key, contract_key. simpl. exact Hsrc. }
      rewrite lookup_insert_eq. eexists. split_and!; [done|done|]. simpl.
      pose proof (new_rows_range (next_sequence j) (fresh_items j staged)) as Hrange. rewrite Forall_forall in Hrange.
      specialize (Hrange r Hr). simpl in Hrange. lia.
  - apply evaluate_form in Hc as (? & ? & ? & ? & ? & -> & _). by apply states_same.
  - apply prepare_form in Hc as (state & rows & [_ Hstate _ -> _]). split; [|by left]. simpl. intros key s Hk.
    destruct (decide (contract_key c = key)) as [<-|Hne].
    + rewrite lookup_insert_eq. rewrite Hk in Hstate. simpl in Hstate. subst state. eexists. split; [done|].
      split; simpl; [lia|right; right; lia].
    + rewrite lookup_insert_ne by done. exists s. split; [done|apply state_change_refl].
  - unfold release_preparation_body in Hb. injection Hb as _ <- _. split.
    + intros key' s Hk. by apply release_lease_state.
    + match goal with |- context [release_lease ?k ?o ?g ?x] => destruct (release_lease_form k o g x) as [ss ->] end. by left.
  - apply finish_form in Hc as (state & row' & [_ _ _ _ _ ->]). split.
    + intros key' s Hk. by apply release_lease_state.
    + match goal with |- context [release_lease ?k ?o ?g ?x] => destruct (release_lease_form k o g x) as [ss ->] end. by left.
  - apply publish_form in Hc as (? & ? & ? & ? & _ & _ & _ & -> & _). by apply states_same.
  - destruct (blocked_form env w code j) as (? & -> & _). by apply states_same.
  - apply match_publish_form in Hc as (? & ? & -> & _). by apply states_same.
  - apply retire_form in Hc as (? & ? & ? & _ & _ & _ & _ & ->); [|done]. by apply states_same.
  - apply expire_form in Hc as (? & ? & _ & _ & _ & _ & ->). by apply states_same.
  - apply compact_form in Hc; [|apply Hinv]. rewrite (co_tables _ _ _ Hc). apply states_same; [done|]. simpl.
    intros r0 Hr0. eapply elem_of_sublist; [done|apply Hc].
  - apply release_pins_form in Hc as [? ->]. by apply states_same.
Qed.

(** ** The source lease *)
(** While a lease is held, its source's row and receipts stay as they were. *)
Definition lease_quiet (key : string * string) (s : state_row) (j j' : journal) : Prop :=
  source_state j' !! key = Some s ∧ ∀ r, r ∈ receipts j' → receipt_key r = key → r ∈ receipts j.
Definition lease_lost (key : string * string) (g : Z) (j' : journal) : Prop :=
  ∃ s', source_state j' !! key = Some s' ∧
    (g < ss_lease_generation s' ∨ g = ss_lease_generation s' ∧ ss_lease_owner s' = None).

Lemma lost_stays key g j j' : journal_inv j → rtc journal_step j j' → lease_lost key g j → lease_lost key g j'.
Proof.
  intros Ha Hab. induction Hab as [|a a1 b Hab _ IH]; [done|]. intros (s' & Hs' & Hl). apply IH; [by eapply journal_step_inv|].
  destruct (st_rows _ _ (step_states _ _ Ha Hab) key s' Hs') as (s2 & Hs2 & [_ [->|[[Hn Hg]|Hg]]]).
  - by exists s'.
  - exists s2. split; [done|]. destruct Hl as [|[? _]]; [left; lia|right; split; [lia|done]].
  - exists s2. split; [done|]. left. destruct Hl as [|[? _]]; lia.
Qed.
Lemma lease_history key s o j j' : journal_inv j → rtc journal_step j j' → source_state j !! key = Some s →
  ss_lease_owner s = Some o → lease_quiet key s j j' ∨ lease_lost key (ss_lease_generation s) j'.
Proof.
  intros Hinv Hs. revert Hinv. induction Hs as [j|j j1 j' Hs Hs' IH]; intros Hinv Hk Ho.
  { left. by split. }
  pose proof (journal_step_inv _ _ Hs Hinv) as Hinv1. pose proof (step_states _ _ Hinv Hs) as [Hrows Hrec].
  destruct (Hrows key s Hk) as (s1 & Hs1 & [_ [->|Hl]]).
  - destruct (IH Hinv1 Hs1 Ho) as [[Hq Hr]|]; [left|by right]. split; [done|]. intros r Hin Hkey.
    destruct (Hrec r (Hr r Hin Hkey)) as [|(s2 & Hs2 & Hn & _)]; [done|]. rewrite Hkey in Hs2. congruence.
  - right. eapply lost_stays; [exact Hinv1|exact Hs'|]. exists s1. split; [done|]. destruct Hl as [[Hn Hg]|Hg]; [right|left]; done.
Qed.

(** Every stored receipt is numbered at most the last sequence of its source. *)
Definition covered (j : journal) : Prop := ∀ r, r ∈ receipts j →
  ∃ s, source_state j !! receipt_key r = Some s ∧ rc_local_sequence r ≤ ss_last_local_sequence s.
Lemma history_covered j j' : journal_inv j → rtc journal_step j j' → covered j → covered j'.
Proof.
  intros Hinv Hs. induction Hs as [|j j1 j' Hs _ IH]; [done|]. intros Hc. apply IH; [by eapply journal_step_inv|].
  destruct (step_states _ _ Hinv Hs) as [Hrows Hrec]. intros r [Hr|(s & Hs1 & _ & Hle)]%Hrec; [|by exists s].
  destruct (Hc r Hr) as (s & Hk & Hle). destruct (Hrows _ s Hk) as (s1 & Hk1 & [Hlast _]). exists s1. split; [done|lia].
Qed.
Lemma covered_init uuid at_ : covered (journal_init uuid at_).
Proof. intros r Hr. by apply not_elem_of_nil in Hr. Qed.

(** C9 (safety). Arming is atomic towards its source.  If the finish of a
    preparation commits, then between the commit of its preparation and its
    own no receipt of the source was stored and the source's row did not
    change, whatever other transactions ran in between; and the anchor the arm
    becomes durable with lies at or after every stored receipt of the source,
    so that only later occurrences can fire it. *)
Theorem journal_arm_atomic {A B} env now c w sp (context : ArmContext A) p w' arm_id g j0 j1 hook
    env' sp' (context' : ArmContext B) a0 j2 x j3 hook' uuid created_at :
  reachable uuid created_at j0 → _validate_signal sp c = None → _contract_payload c = Some p → context_ok context →
  calendar_range (now + source_lease_seconds env * us_second) →
  prepares env now c w sp context p j0 = Commit (PrepGo w' arm_id g) j1 hook →
  rtc journal_step j1 j2 →
  finish_body env' c w' arm_id g sp' context' a0 j2 = Commit x j3 hook' →
  source_state j2 !! contract_key c = source_state j1 !! contract_key c ∧
  (∀ r, r ∈ receipts j2 → receipt_key r = contract_key c → r ∈ receipts j1) ∧
  ∃ row after, arms j3 !! w' = Some row ∧ row_state row = "prepared" ∧ row_local_after_sequence row = Some after ∧
    ∀ r, r ∈ receipts j3 → receipt_key r = contract_key c → rc_local_sequence r ≤ after.
Proof.
  intros Hreach Hv Hp Hctx Hcal Hprep Hs Hfin. pose proof (history_inv _ _ Hreach (journal_init_inv _ _)) as Hinv0.
  assert (commits (prepares env now c w sp context p) j0 j1) as Hc by (by eexists _, _).
  assert (journal_step j0 j1) as Hs0 by (by eapply js_prepare).
  pose proof (journal_step_inv _ _ Hs0 Hinv0) as Hinv1. pose proof (history_inv _ _ Hs Hinv1) as Hinv2.
  assert (covered j2) as Hcov.
  { eapply history_covered; [apply (journal_init_inv uuid created_at)| |apply covered_init]. by etrans; [|eapply rtc_l]. }
  destruct (prepared_row _ _ _ _ _ _ _ _ _ _ _ _ _ Hinv0 Hprep) as (row & Hrow & Hid).
  assert (∃ s1, source_state j1 !! contract_key c = Some s1 ∧ ss_lease_owner s1 = Some (owner env) ∧ ss_lease_generation s1 = g)
    as (s1 & Hs1 & Ho & Hg).
  { clear -Hprep. unfold prepares, prepare_body in Hprep.
    destruct (find_arm_by_key j0 (idempotency_key context)) as [row|].
    - destruct (negb _); [done|]. destruct (publishable_state _); [done|]. destruct (bool_decide (_ = "tombstoned")); [done|].
      destruct (preparation_held row now) as [[t|]|]; [done| |done]. cbn [or_raise] in Hprep.
      destruct (take_lease_form _ _ _ _ _ _ _ _ _ _ _ _ _ _ Hprep) as (state & rows & _ & _ & _ & -> & [= _ _ ->] & _).
      simpl. rewrite lookup_insert_eq. by eexists.
    - destruct (take_lease_form _ _ _ _ _ _ _ _ _ _ _ _ _ _ Hprep) as (state & rows & _ & _ & _ & -> & [= _ _ ->] & _).
      simpl. rewrite lookup_insert_eq. by eexists. }
  assert (commits (finish_body env' c w' arm_id g sp' context' a0) j2 j3) as Hcf by (by eexists _, _).
  apply finish_form in Hcf as (s2 & row2 & [Hs2 (w2 & Hrow2 & Hid2) Ho2 Hg2 Htok Ht]).
  destruct (lease_history _ _ _ _ _ Hinv1 Hs Hs1 Ho) as [[Hq Hr]|(s' & Hs' & Hl)].
  2: { exfalso. assert (s' = s2) as -> by congruence. destruct Hl as [Hl|[_ Hl]]; [lia|congruence]. }
  split_and!; [congruence|done|].
  (* the arm's row is still there, under its id *)
  assert (∃ row3, arms j2 !! w' = Some row3 ∧ row_arm_id row3 = arm_id) as (row3 & Hrow3 & Hid3).
  { clear -Hs Hrow Hid Hinv1. revert row Hrow Hid Hinv1. induction Hs as [j|j ja jb Hab _ IH]; intros row Hrow Hid Hinv; [by exists row|].
    destruct (as_keep _ _ (step_arms _ _ Hinv Hab) _ _ Hrow) as (ra & Hra & Hch).
    apply (IH ra Hra); [rewrite (sa_id _ _ (arm_change_same _ _ Hch)); done|by eapply journal_step_inv]. }
  destruct (arm_of_id j2 w' row3 _ w2 row2 Hinv2 Hrow3 Hid3 Hrow2 Hid2) as [-> ->]. cbv zeta in Ht.
  match type of Ht with _ = release_lease ?k ?o ?g ?x => destruct (release_lease_form k o g x) as [ss Hss] end.
  rewrite Hss in Ht. subst j3. simpl. rewrite lookup_fmap, Hrow3. simpl. rewrite bool_decide_true by done.
  eexists _, _. split_and!; [done|done|done|]. intros r Hin Hkey. destruct (Hcov r Hin) as (s & Hsr & Hle).
  rewrite Hkey in Hsr. assert (s = s2) as -> by congruence. simpl. lia.
Qed.

(** ** Idempotency keys *)
Lemma find_key_complete j w row key : journal_inv j → arms j !! w = Some row → row_idempotency_key row = key →
  find_arm_by_key j key = Some row.
Proof.
  intros Hinv Hr Hk. destruct (find_arm_by_key j key) as [row'|] eqn:Hf.
  - apply find_arm_by_key_Some in Hf as (w' & Hr' & Hk').
    assert (w' = w) as -> by (eapply (ji_unique j Hinv); [done|done|right; congruence]). congruence.
  - by destruct (find_arm_by_key_None _ _ _ _ Hf Hr).
Qed.

(** (functional). Arming is idempotent: in any consistent journal, once a key
    belongs to a durable arm, a later call with the key and a valid signal
    never asks the adapter again.  It answers a conflict when the fingerprint
    differs and a retirement when the arm was tombstoned, without changing the
    tables, and otherwise only completes the publication of the first arm
    (or finds the store unavailable). *)
Theorem journal_arm_idempotent {P A} `{RecordPublisher P, SignalSourceAdapter A} env (pub : option P) w sp
    (context : ArmContext A) j w0 row c p now r j' pub' a' : journal_inv j →
  arms j !! w0 = Some row → row_idempotency_key row = idempotency_key context → row_state row ≠ "preparing" →
  contract (adapter context) = Done c → _validate_signal sp c = None → _contract_payload c = Some p →
  lease_clock env = Some now → arm env pub w sp context j = (r, j', pub', a') →
  a' = adapter context ∧
  (r = ArmDegraded (store_unavailable (Some w)) ∧ j' = j ∨
   row_intent_fingerprint row ≠ intent_fingerprint context ∧ r = ArmInvalid (invalid (Some w0) "IDEMPOTENCY_CONFLICT") ∧ j' = j ∨
   row_intent_fingerprint row = intent_fingerprint context ∧ row_state row = "tombstoned" ∧
     r = ArmInvalid (invalid (Some w0) "REGISTRATION_RETIRED") ∧ j' = j ∨
   row_intent_fingerprint row = intent_fingerprint context ∧ publishable_state (row_state row) = true ∧
     _complete_registration_publication env pub w0 j = (r, j', pub')).
Proof.
  intros Hinv Hrow Hkey Hst Hc Hv Hp Hnow. unfold arm. rewrite Hc, Hv, Hp, Hnow.
  pose proof (find_key_complete j w0 row _ Hinv Hrow Hkey) as Hf.
  pose proof (ji_arms j Hinv w0 row Hrow) as Hok.
  assert (∃ t, prepare_body env now c (_canonical_json p) (_canonical_json (_spec_payload sp))
    (_canonical_json (_resume_payload (context_resume context))) w sp context j = Rollback t ∧
    (row_intent_fingerprint row ≠ intent_fingerprint context ∧ t = PrepStop (ArmInvalid (invalid (Some w0) "IDEMPOTENCY_CONFLICT")) ∨
     row_intent_fingerprint row = intent_fingerprint context ∧ row_state row = "tombstoned" ∧
       t = PrepStop (ArmInvalid (invalid (Some w0) "REGISTRATION_RETIRED")) ∨
     row_intent_fingerprint row = intent_fingerprint context ∧ publishable_state (row_state row) = true ∧ t = PrepPublish w0))
    as (t & Hb & Hcase).
  { unfold prepare_body. rewrite Hf, (ao_wake _ _ Hok).
    case_bool_decide as Hfp; cbn [negb]; [|eexists; split; [done|by left]].
    destruct (publishable_state (row_state row)) eqn:Hpub; [eexists; split; [done|by right; right]|].
    case_bool_decide as Ht; [eexists; split; [done|right; by left]|].
    by rewrite (preparing_row _ _ Hok Hpub Ht) in Hst. }
  destruct (transact _ _ _ _ _) as [t' j1] eqn:Htx. unfold transact in Htx. rewrite Hb in Htx.
  destruct (fails env _).
  { injection Htx as <- <-. intros [= <- <- <- <-]. split; [done|by left]. }
  injection Htx as <- <-.
  destruct Hcase as [(? & ->)|[(? & ? & ->)|(? & ? & ->)]].
  - intros [= <- <- <- <-]. split; [done|right; by left].
  - intros [= <- <- <- <-]. split; [done|right; right; by left].
  - destruct (_complete_registration_publication env pub w0 j) as [[r1 j1'] p1]. intros [= <- <- <- <-].
    split; [done|]. by right; right; right.
Qed.

(** ** Publications *)
Section Publications.
Context {P : Type} `{RecordPublisherLaws P}.

Lemma ensure_record_applied p payload sha b p' : ensure_record p payload sha false = (b, p') → b = Applied →
  holds p' payload ∧ sha = record_digest payload.
Proof.
  unfold ensure_record. destruct (inspect p payload sha) as [o1 p1] eqn:Hi.
  destruct o1; try (intros [= <- <-] ?; done).
  - intros [= <- <-] _. by eapply inspect_applied.
  - destruct (apply p1 payload sha) as [o2 p2]. destruct o2; try (intros [= <- <-] ?; done).
    intros Hi2 ->. by eapply inspect_applied.
Qed.
Lemma recheck_keeps p needed c p' payload : recheck p needed = (c, p') → holds p payload → holds p' payload.
Proof.
  unfold recheck. destruct needed; [|by intros [= _ <-]]. destruct (capability_code p) as [code p1] eqn:Hc.
  intros [= _ <-]. by eapply capability_keeps.
Qed.
End Publications.

(** (safety). A registration is only acknowledged when its record exists:
    if completing a registration's publication answers an armed signal, the
    arm is published under it in the journal, its outbox row is applied, and
    either nothing had to be done or the publisher, whatever it is as long as
    it keeps its contract, now holds the exact bytes of the outbox row, whose
    digest is the recorded one. *)
Theorem journal_acknowledged_recorded {P} `{RecordPublisherLaws P} env (p : P) w j a j' pub' :
  _complete_registration_publication env (Some p) w j = (ArmDone a, j', pub') →
  ∃ row o p', pub' = Some p' ∧ arms j' !! w = Some row ∧ row_state row = "published" ∧ _armed_from_row row = Some a ∧
    record_outbox j' !! (w, 1) = Some o ∧ ob_state o = "applied" ∧
    (j' = j ∨ holds p' (ob_payload_json o) ∧ ob_payload_sha256 o = record_digest (ob_payload_json o)).
Proof.
  unfold _complete_registration_publication. destruct (capability_code p) as [[code|] p1] eqn:Hcap; [done|].
  destruct (fails env _); [done|]. destruct (read_registration w j) as [r|payload sha] eqn:Hread.
  - intros [= -> <- <-]. unfold read_registration in Hread.
    destruct (arms j !! w) as [row|] eqn:Hrow; [|done]. destruct (record_outbox j !! (w, 1)) as [o|] eqn:Ho; [|done].
    destruct (wake_lifecycle j !! w) as [l|]; [|done]. destruct (negb (publishable_state _)); [done|].
    destruct (_ || _); [|done]. destruct (bool_decide (row_state row = _) && _) eqn:Hb; [|done].
    apply andb_true_iff in Hb as [Hb1%bool_decide_eq_true Hb2%bool_decide_eq_true].
    destruct (_armed_from_row row) as [a0|] eqn:Ha; [|done]. injection Hread as ->.
    exists row, o, p1. split_and!; try done. by left.
  - destruct (ensure_record p1 payload sha false) as [o1 p2] eqn:He. destruct o1; try done.
    destruct (recheck p2 _) as [capable p3] eqn:Hre. destruct (transact _ _ _ _ _) as [r1 j1] eqn:Htx. intros [= -> <- <-].
    destruct (ensure_record_applied _ _ _ _ _ He eq_refl) as [Hh Hsha].
    pose proof (recheck_keeps _ _ _ _ _ Hre Hh) as Hh3.
    assert (∃ arm o l, arms j !! w = Some arm ∧ record_outbox j !! (w, 1) = Some o ∧ wake_lifecycle j !! w = Some l ∧
      payload = ob_payload_json o ∧ sha = ob_payload_sha256 o) as (arm & o & l & Harm & Ho & Hl & -> & ->).
    { unfold read_registration in Hread. destruct (arms j !! w) as [arm|]; [|done].
      destruct (record_outbox j !! (w, 1)) as [o|]; [|done]. destruct (wake_lifecycle j !! w) as [l|]; [|done].
      destruct (negb (publishable_state _)); [done|].
      destruct (_ || _); [destruct (_ && _); [destruct (_armed_from_row arm)|]; done|].
      injection Hread as <- <-. by exists arm, o, l. }
    destruct (transact_cases _ _ _ _ _ _ _ Htx) as [? _|Hb _|r2 hook Hb [<-|[? _]]]; [done| | |done].
    + exfalso. unfold publish_registration_body in Hb. rewrite Harm in Hb. destruct (_ || _); [done|].
      by destruct (lease_clock env).
    + unfold publish_registration_body in Hb. rewrite Harm in Hb. destruct (_ || _); [done|].
      destruct (lease_clock env) as [now|]; [|done]. cbn [or_raise] in Hb.
      destruct (_armed_from_row (arm_published _ arm)) as [a1|] eqn:Ha; [|done]. injection Hb as -> <- _.
      exists (arm_published (_format_time now) arm), (outbox_applied (_format_time now) (λ n, n + 1) o), p3.
      split_and!; try done; simpl.
      * by rewrite lookup_insert_eq.
      * unfold apply_lifecycle. change (wake_lifecycle (update_outbox ?k ?f ?x)) with (wake_lifecycle x). rewrite Hl.
        destruct (_ && _); simpl; by rewrite lookup_alter_eq, Ho.
      * right. split; [done|]. done.
Qed.
