(* ===== verification/StoreRefinement.v ===== *)
(** * The journal refines the in-memory engine

    [SignalMemory.ingest] is the reference: the SQLite journal's [ingest]
    answers what it answers and leaves tables that represent the state it
    leaves, for a configured source whose lease is free.  The two differ only
    in how they compare observations (Python equality against a fingerprint of
    canonical JSON) and in how they measure attributes; the hypotheses say
    that the observations at hand make no difference. *)
From S2P Require Import Prelude Json Sha256 Datetime Signals SignalMemory SignalCodec SignalRecords SignalStore StoreIngest StoreHistory StoreOperations StoreGuarantees.
Open Scope Z_scope.

(** A receipt of the engine and the row that represents it. *)
Definition stored_as (e : occurrence * (NormalizedObservation * ReceiptRef)) (r : receipt_row) : Prop :=
  e.1 = _identity e.2.1 ∧ row_of r e.2.1 ∧
  receipt_id e.2.2 = rc_receipt_id r ∧ local_sequence e.2.2 = rc_local_sequence r.

Record represents (j : journal) (m : mem) : Prop := {
  rp_receipts : Forall2 stored_as (_receipts m) (receipts j);
  rp_next : _next_sequence m = next_sequence j;
  rp_contracts : ∀ key i, source_instances j !! key = Some i →
    ∃ c, _contract_from_json (si_contract_json i) = Some c ∧ _contracts m !! key = Some c;
  rp_checkpoints : ∀ key s, source_state j !! key = Some s →
    ss_checkpoint s = checkpoint <$> _checkpoints m !! key ∧
    ss_checkpoint_order s = checkpoint_order <$> _checkpoints m !! key;
}.

(** The observations a batch can be compared with. *)
Definition compared (m : mem) (obs : list NormalizedObservation) : list NormalizedObservation :=
  obs ++ ((λ e, e.2.1) <$> _receipts m).
(** Fingerprints tell apart exactly the observations that Python does. *)
Definition told_apart (l : list NormalizedObservation) : Prop :=
  ∀ a b, a ∈ l → b ∈ l → fingerprint_of a = fingerprint_of b ↔ observation_eqb a b = true.
(** Both encodings of the attributes have the same size. *)
Definition same_size (o : NormalizedObservation) : Prop :=
  attribute_bytes (obs_attributes o) = canonical_attribute_bytes (obs_attributes o).

(** ** Lookups *)
Definition encode_staged (items : list (occurrence * NormalizedObservation)) : staging :=
  (λ x, (x.1, encoded x.2)) <$> items.

Lemma encode_keys items : dict_keys (encode_staged items) = dict_keys items.
Proof. unfold dict_keys, encode_staged. by rewrite <- list_fmap_compose. Qed.
Lemma encode_get items i : dict_get i (encode_staged items) = encoded <$> dict_get i items.
Proof. induction items as [|[k o] items IH]; [done|]. simpl. case_decide; [done|exact IH]. Qed.
Lemma encode_set items i o : dict_set i (encoded o) (encode_staged items) = encode_staged (dict_set i o items).
Proof.
  induction items as [|[k o'] items IH]; [done|]. simpl. case_decide; [done|].
  change (encode_staged ((k, o') :: dict_set i o items)) with ((k, encoded o') :: encode_staged (dict_set i o items)).
  by rewrite <- IH.
Qed.

Lemma stored_identities j m : represents j m → dict_keys (_receipts m) = rc_identity <$> receipts j.
Proof.
  intros Hr. pose proof (rp_receipts _ _ Hr) as H. induction H as [|[i e] r l rows (Hi & Hrow & _) _ IH]; [done|].
  rewrite dict_keys_cons, fmap_cons, IH, (row_identity _ _ Hrow). simpl in Hi. by subst.
Qed.
Lemma stored_find j m i : represents j m →
  match dict_get i (_receipts m), find_receipt j i with
  | Some e, Some r => stored_as (i, e) r
  | None, None => True
  | _, _ => False
  end.
Proof.
  intros Hr. unfold find_receipt. pose proof (rp_receipts _ _ Hr) as H. clear Hr.
  induction H as [|[k e] r l rows Hs _ IH]; [done|]. pose proof Hs as (Hk & Hrow & _). simpl in Hk. subst k.
  cbn [dict_get List.find]. rewrite (row_identity _ _ Hrow). cbn [fst snd] in *. case_decide as Hd.
  - rewrite bool_decide_true by done. by subst i.
  - rewrite bool_decide_false by done. exact IH.
Qed.
Lemma row_fingerprint r o : row_of r o → rc_content_fingerprint r = fingerprint_of o.
Proof. by intros [_ ->]. Qed.

(** ** Staging *)
Section Stage.
Context (j : journal) (m : mem) (c : SourceContract) (key : string * string).
Hypothesis Hrep : represents j m.
Hypothesis Hcontract : _contracts m !! key = Some c.
Hypothesis Hkey : key = (contract_source c, contract_source_instance c).

Lemma validate_agree o : source_key o = key → same_size o →
  check_observation c o = _validate_observation o c.
Proof.
  rewrite Hkey. intros [= Hs Hi] Hsize.
  unfold check_observation, _validate_observation, observation_outside, outside_contract.
  rewrite (bool_decide_true _ Hs), (bool_decide_true _ Hi). unfold evidence_too_long. by rewrite Hsize.
Qed.

Lemma stage_one_agree all staged o : told_apart all → o ∈ all → (∀ e, e ∈ _receipts m → e.2.1 ∈ all) →
  (∀ e, e ∈ staged → e.2 ∈ all) → source_key o = key → same_size o →
  stage_observation j c (encode_staged staged) o =
    match SignalMemory.stage_observation m staged o with inl i => inl i | inr s => inr (encode_staged s) end.
Proof.
  intros Htell Ho Hstored Hstaged Hsrc Hsize.
  unfold stage_observation, SignalMemory.stage_observation. rewrite Hsrc, Hcontract, (validate_agree o Hsrc Hsize).
  destruct (_validate_observation o c); [done|]. change (identity o) with (_identity o).
  assert (∀ o', o' ∈ all → bool_decide (fingerprint_of o' = fingerprint_of o) = observation_eqb o' o) as Heq.
  { intros o' Ho'. apply eq_true_iff_eq. rewrite bool_decide_eq_true. by apply Htell. }
  fold (fingerprint_of o).
  assert (match dict_get (_identity o) (encode_staged staged) with
          | Some (_, f) => negb (bool_decide (f = fingerprint_of o)) | None => false end =
          conflicts (dict_get (_identity o) staged) o) as ->.
  { rewrite encode_get. destruct (dict_get (_identity o) staged) as [o'|] eqn:Hd; [|done]. simpl.
    fold (fingerprint_of o'). rewrite Heq; [done|]. apply dict_get_elem in Hd. exact (Hstaged _ Hd). }
  assert (match find_receipt j (_identity o) with
          | Some r => negb (bool_decide (rc_content_fingerprint r = fingerprint_of o)) | None => false end =
          conflicts (fst <$> dict_get (_identity o) (_receipts m)) o) as ->.
  { pose proof (stored_find j m (_identity o) Hrep) as Hf.
    destruct (dict_get (_identity o) (_receipts m)) as [[o' ref]|] eqn:Hd, (find_receipt j (_identity o)) as [r|]; try done.
    destruct Hf as (_ & Hrow & _). rewrite (row_fingerprint _ _ Hrow). simpl. rewrite Heq; [done|].
    apply dict_get_elem in Hd. exact (Hstored _ Hd). }
  destruct (conflicts (dict_get (_identity o) staged) o), (conflicts (fst <$> dict_get (_identity o) (_receipts m)) o); try done.
  f_equal. apply encode_set.
Qed.

Lemma stage_agree all staged obs : told_apart all → (∀ o, o ∈ obs → o ∈ all) → (∀ e, e ∈ _receipts m → e.2.1 ∈ all) →
  (∀ e, e ∈ staged → e.2 ∈ all) → Forall (λ o, source_key o = key) obs → Forall same_size obs →
  stage j c (encode_staged staged) obs =
    match SignalMemory.stage m staged obs with inl i => inl i | inr s => inr (encode_staged s) end.
Proof.
  intros Htell Hall Hstored Hstaged Hsrc Hsize. revert staged Hstaged.
  induction obs as [|o obs IH]; intros staged Hstaged; [done|]. cbn [stage SignalMemory.stage].
  apply Forall_cons in Hsrc as [Hs Hsrc], Hsize as [Hz Hsize].
  rewrite (stage_one_agree all) by (try done; apply Hall; by left).
  destruct (SignalMemory.stage_observation m staged o) as [i|staged'] eqn:Hst; [done|].
  apply stage_observation_ok in Hst as (_ & _ & _ & ->). apply IH; [|done|done|].
  - intros o' ?. apply Hall. by right.
  - intros [k o'] [[= -> ->]|Hin]%dict_set_elem; [apply Hall; by left|by apply Hstaged].
Qed.
End Stage.

(** ** The new rows *)
Lemma fresh_agree j m staged : represents j m →
  fresh_items j (encode_staged staged) = encode_staged (SignalMemory.fresh_items m staged).
Proof.
  intros Hr. unfold fresh_items, SignalMemory.fresh_items. rewrite (stored_identities j m Hr).
  induction staged as [|[k o] staged IH]; [done|]. cbn [encode_staged fmap list_fmap]. rewrite !filter_cons.
  cbn [fst snd]. case_decide; [|exact IH]. exact (f_equal (cons (k, encoded o)) IH).
Qed.
Lemma new_rows_agree n items : (∀ k o, (k, o) ∈ items → k = identity o ∧ obs_times_ok o) →
  Forall2 stored_as (new_receipts n items) (new_rows n (encode_staged items)).
Proof.
  revert n. induction items as [|[k o] items IH]; intros n Hok; [constructor|].
  destruct (Hok k o ltac:(by left)) as [-> Ht]. cbn [new_receipts encode_staged fmap list_fmap new_rows encoded fst snd].
  constructor; [by split|]. apply IH. intros k' o' Hin. apply Hok. by right.
Qed.

(** ** The answers *)
Lemma answers_agree j' m' keys obs refs refs' (old : occurrence → Prop) : represents j' m' →
  SignalMemory.ingest_results m' keys [] obs = Done refs → answers j' old [] obs refs' →
  (∀ o, o ∈ obs → old (_identity o) ↔ _identity o ∈ keys) → refs = refs'.
Proof.
  intros Hr Hres [Hlen Hans] Hold. apply list_eq_same_length with (n := length obs).
  - done.
  - by apply ingest_results_length in Hres.
  - intros k x y Hk Hx Hy. destruct (lookup_lt_is_Some_2 obs k) as [o Ho]; [lia|].
    destruct (ingest_results_nth _ _ _ _ _ _ _ Hres Ho) as (stored & r & Hget & Hx').
    destruct (Hans k o Ho) as (row & dup & Hrow & Hy' & Hdup).
    pose proof (stored_find j' m' (_identity o) Hr) as Hf. change (identity o) with (_identity o) in *.
    rewrite Hget, Hrow in Hf. destruct Hf as (_ & _ & Hid & Hseq). cbn [fst snd] in *.
    assert (x = {| receipt_id := receipt_id r; local_sequence := local_sequence r;
      duplicate := bool_decide (_identity o ∈ keys) || bool_decide (_identity o ∈ [] ++ (identity <$> take k obs)) |}) as ->
      by congruence.
    assert (y = {| receipt_id := rc_receipt_id row; local_sequence := rc_local_sequence row; duplicate := dup |}) as ->
      by congruence.
    rewrite Hid, Hseq. f_equal. apply eq_true_iff_eq. rewrite Hdup, orb_true_iff, !bool_decide_eq_true.
    rewrite (Hold o) by (by eapply list_elem_of_lookup_2). pose proof (not_elem_of_nil (_identity o)).
    cbn [app]. change (identity <$> take k obs) with (_identity <$> take k obs). tauto.
Qed.

(** ** One batch *)
Lemma checkpoint_agree j m key s commit : represents j m → source_state j !! key = Some s →
  checkpoint_conflict s commit = SignalMemory.checkpoint_conflict (_checkpoints m !! key) commit.
Proof.
  intros Hr Hs. destruct (rp_checkpoints _ _ Hr key s Hs) as [Hc Ho].
  unfold checkpoint_conflict, SignalMemory.checkpoint_conflict. rewrite Ho, Hc.
  destruct (_checkpoints m !! key) as [p|]; [|done]. cbn [fmap option_fmap option_map].
  rewrite (bool_decide_ext (Some (checkpoint commit) = Some (checkpoint p)) (checkpoint commit = checkpoint p)); [done|].
  split; [by intros [=]|by intros ->].
Qed.

Lemma ingested_represents j m commit state c staged : represents j m → NoDup (dict_keys staged) →
  staged_ok c (encode_staged staged) → source_state j !! commit_key commit = Some state →
  represents (ingested commit state (fresh_items j (encode_staged staged)) j)
    (set_checkpoint (foldl add_receipt m staged) (commit_key commit) commit).
Proof.
  intros Hr Hnd [_ Hok] Hst.
  destruct (add_receipts m staged Hnd) as [Hrec Hnext]. destruct (add_receipts_frame m staged) as (_ & _ & Hcon & Hchk & _).
  rewrite (fresh_agree _ _ _ Hr). split; simpl.
  - rewrite Hrec, (rp_next _ _ Hr). apply Forall2_app; [apply Hr|]. apply new_rows_agree.
    intros k o Hin. unfold SignalMemory.fresh_items in Hin. apply list_elem_of_filter in Hin as [_ Hin].
    destruct (Hok k (encoded o)) as (o' & [= ->] & -> & Ht & _); [|by split].
    apply list_elem_of_fmap. by exists (k, o).
  - rewrite Hnext, (rp_next _ _ Hr). unfold encode_staged. by rewrite length_fmap.
  - intros key i Hi. rewrite Hcon. by apply (rp_contracts _ _ Hr).
  - intros key s Hs. rewrite Hchk. apply lookup_insert_Some in Hs as [[<- <-]|[Hne Hs]].
    + by rewrite lookup_insert_eq.
    + rewrite lookup_insert_ne by done. by apply (rp_checkpoints _ _ Hr).
Qed.

(** Where the two may be compared: a configured source without a live lease, a
    database that does not fail, and observations that both measure and
    compare alike. *)
Record comparable (env : Env) (obs : list NormalizedObservation) (commit : SourceCommit) (j : journal) (m : mem) : Prop := {
  cb_configured : ∃ instance state, source_instances j !! commit_key commit = Some instance ∧
    source_state j !! commit_key commit = Some state ∧ live_lease state (lease_clock env) = Some None;
  cb_healthy : ∀ place, fails env place = false;
  cb_told_apart : told_apart (compared m obs);
  cb_sizes : Forall same_size obs;
}.

