(* ===== verification/StoreDemo.v ===== *)
(** * A concrete history of the journal

    One wake, armed through the publisher on files, three observations, a
    match, an expiry and a compaction, all run by evaluation.  The witnesses
    apply the theorems about the journal along it. *)
From S2P Require Import Prelude Json Sha256 Datetime Signals SignalMemory SignalCodec SignalRecords SignalStore StoreIngest StoreScan StoreSteps StoreHistory StoreOperations StoreGuarantees StoreMatching StoreRegistration StoreRefinement.
Open Scope Z_scope.

Definition run_env : Env :=
  {| fails _ := false; lease_clock := Some 1000; owner := "o1"; source_lease_seconds := 30; resolve := id |}.
(** The hook after the commit of a batch raises. *)
Definition hook_env : Env :=
  {| fails place := bool_decide (place = "after_ingest_commit"); lease_clock := Some 1000; owner := "o2";
     source_lease_seconds := 30; resolve := id |}.
Definition run_capability : ManagedReaderCapability :=
  {| capability_root := "/wakes"; reader_id := "reader"; generation := 1; schema_versions := [2]; active := true;
     pid := None; process_start_time_ticks := None; process_boot_id := None |}.
Definition run_publisher : FilePublisher :=
  {| wake_root := "/wakes"; capability_probe _ := Some run_capability; process_exists _ := true;
     process_identity _ := None; boot_id_value := None; io_fails _ := false; files := ∅; probes := 0 |}.

Definition run_0 : journal := journal_init "uuid" (_format_time 0).
Definition run_arm := arm run_env (Some run_publisher) "w" demo_spec (demo_context "f") run_0.
(** The journals of the run, written out by evaluation. *)
Definition run_1 : journal := Eval vm_compute in run_arm.1.1.2.
Definition run_2 : journal := Eval vm_compute in (ingest run_env demo_batch (demo_commit 1) run_1).2.
Definition run_3 : journal := Eval vm_compute in (evaluate run_env "w" demo_armed 10 demo_limits run_2).2.
Definition run_expired : journal := Eval vm_compute in (expire_unreserved run_env "w" 2000 run_2).2.
Definition run_released : journal := Eval vm_compute in
  (release_retention_pins run_env "w" {["active_anchor"; "match_evidence"]} 20 run_3).2.

(** Closed equations by evaluation, one cast and no normal form of the goal. *)
Local Ltac evaluated := lazymatch goal with |- ?a = ?b => exact (@eq_refl _ b <: a = b) | _ => vm_compute; reflexivity end.
Lemma left_1 : run_arm.1.1.2 = run_1.
Proof. evaluated. Qed.
Lemma left_2 : (ingest run_env demo_batch (demo_commit 1) run_1).2 = run_2.
Proof. evaluated. Qed.
Lemma left_3 : (evaluate run_env "w" demo_armed 10 demo_limits run_2).2 = run_3.
Proof. evaluated. Qed.
Lemma left_expired : expire_unreserved run_env "w" 2000 run_2 = (inl true, run_expired).
Proof. evaluated. Qed.
Lemma left_released : (release_retention_pins run_env "w" {["active_anchor"; "match_evidence"]} 20 run_3).2 = run_released.
Proof. evaluated. Qed.

(** Facts about a computed value, from the value's own computation. *)
Lemma computed_some {A B} (f : A → B) (x : option A) (b : B) : f <$> x = Some b → ∃ a, x = Some a ∧ f a = b.
Proof. rewrite fmap_Some. naive_solver. Qed.
Lemma computed_pair {A B} (x : A * B) (a : A) : x.1 = a → x = (a, x.2).
Proof. destruct x. by intros <-. Qed.
Lemma computed_left {A B} (x : A * B) (b : B) : x.2 = b → x = (x.1, b).
Proof. destruct x. by intros <-. Qed.
Lemma computed_all `{Countable K} {V} (m : gmap K V) (p : K → V → bool) :
  forallb (λ kv, p kv.1 kv.2) (map_to_list m) = true → ∀ k v, m !! k = Some v → p k v = true.
Proof.
  rewrite forallb_forall. intros Hall k v Hk. apply (Hall (k, v)), list_elem_of_In. by apply elem_of_map_to_list.
Qed.
Ltac in_range := vm_compute; split; congruence.
Lemma run_batch_times : Forall obs_times_ok demo_batch.
Proof. unfold demo_batch. repeat (apply Forall_cons; split; [split; in_range|]). apply Forall_nil_2. Qed.
Lemma run_context_ok : context_ok (demo_context "f").
Proof.
  split_and!; [in_range|intros t [= <-]; in_range|]. refine (bool_decide_unpack _ _). vm_compute. exact I.
Qed.
Lemma run_lease_times : lease_times run_env.
Proof. intros now [= <-]. in_range. Qed.

Lemma run_call_1 : journal_call run_0 run_1.
Proof.
  pose proof left_1 as H1. destruct run_arm as [[[r j] pub] a] eqn:Hr. cbn [fst snd] in H1.
  eapply (call_arm _ _ FilePublisher ScriptedSourceAdapter _ _ run_env (Some run_publisher) "w" demo_spec (demo_context "f") r pub a);
    [apply run_context_ok|apply run_lease_times|]. rewrite <- H1. exact Hr.
Qed.
Lemma run_call_2 : journal_call run_1 run_2.
Proof.
  eapply (call_ingest _ _ run_env demo_batch (demo_commit 1) (ingest run_env demo_batch (demo_commit 1) run_1).1);
    [apply run_batch_times|]. apply computed_left, left_2.
Qed.
Lemma run_history : rtc journal_call run_0 run_2.
Proof. eapply rtc_l, rtc_once; [apply run_call_1|apply run_call_2]. Qed.
Lemma run_inv_1 : journal_inv run_1.
Proof. eapply history_inv; [apply call_history; [|apply run_call_1]|]; apply journal_init_inv. Qed.
Lemma run_inv_2 : journal_inv run_2.
Proof. eapply history_inv; [apply calls_history; [|apply run_history]|]; apply journal_init_inv. Qed.
Lemma run_step_3 : rtc journal_step run_2 run_3.
Proof.
  apply call_history; [apply run_inv_2|].
  eapply (call_evaluate _ _ run_env "w" demo_armed 10 demo_limits (evaluate run_env "w" demo_armed 10 demo_limits run_2).1);
    [in_range|]. apply computed_left, left_3.
Qed.
Lemma run_inv_3 : journal_inv run_3.
Proof. eapply history_inv; [apply run_step_3|apply run_inv_2]. Qed.
Lemma run_inv_released : journal_inv run_released.
Proof.
  eapply history_inv; [|apply run_inv_3]. apply rtc_once.
  eapply (js_release_pins _ _ run_env "w" {["active_anchor"; "match_evidence"]} 20). apply computed_left, left_released.
Qed.


Lemma journal_ingest_contract_witness :
  (run_2 = run_1 ∧ ∀ x, (ingest run_env demo_batch (demo_commit 1) run_1).1 ≠ IngestDone x) ∨
  ∃ rows refs, batch_stored demo_batch (demo_commit 1) run_1 run_2 rows ∧ answered run_1 run_2 demo_batch refs.
Proof.
  destruct (journal_ingest_contract run_env demo_batch (demo_commit 1) run_1
    (ingest run_env demo_batch (demo_commit 1) run_1).1 run_2 run_inv_1 run_batch_times) as [H|(_ & rows & refs & H1 & H2 & _)].
  - apply computed_left, left_2.
  - by left.
  - right. by exists rows, refs.
Defined.

(** The batch was stored although its caller saw a degradation. *)
Lemma journal_ingest_exactly_once_witness :
  (ingest hook_env demo_batch (demo_commit 1) run_1).1 = IngestDegraded (store_unavailable None) ∧
  ∃ refs j'', ingest run_env demo_batch (demo_commit 1) run_2 =
      (IngestDone {| Signals.receipts := refs; ingested_checkpoint := checkpoint (demo_commit 1) |}, j'') ∧ receipts j'' = receipts run_2.
Proof.
  assert (ingest hook_env demo_batch (demo_commit 1) run_1 = (IngestDegraded (store_unavailable None), run_2)) as Hi
    by evaluated.
  split; [exact (f_equal fst Hi)|].
  destruct (journal_ingest_exactly_once hook_env run_env demo_batch (demo_commit 1) run_1 _ run_2 run_inv_1 run_batch_times Hi)
    as (refs & j'' & H1 & H2 & _).
  - assert (bool_decide (next_sequence run_2 = next_sequence run_1) = false) as Hne by evaluated.
    apply bool_decide_eq_false in Hne. intros Heq. exact (Hne (f_equal next_sequence Heq)).
  - intros place. exact eq_refl.
  - exists refs, j''. split; [exact H1|exact H2].
Defined.

Definition run_compaction : CompactionResult := {| cr_scanned := 3; cr_deleted := 3; cr_retained := 0 |}.
(** The engine and the journal after the same registration. *)
Lemma run_represents : represents run_1 demo_m1.
Proof.
  split.
  - assert (receipts run_1 = [] ∧ _receipts demo_m1 = []) as [-> ->] by (vm_compute; by split). constructor.
  - evaluated.
  - intros key i Hi. apply (computed_all (source_instances run_1) (λ key i, bool_decide (_contract_from_json (si_contract_json i) =
      Some demo_contract ∧ _contracts demo_m1 !! key = Some demo_contract))) in Hi; [|evaluated].
    apply bool_decide_eq_true in Hi. by exists demo_contract.
  - intros key s Hs. apply (computed_all (source_state run_1) (λ key s, bool_decide (ss_checkpoint s = checkpoint <$> _checkpoints demo_m1 !! key ∧
      ss_checkpoint_order s = checkpoint_order <$> _checkpoints demo_m1 !! key))) in Hs; [|evaluated].
    by apply bool_decide_eq_true in Hs.
Qed.
Lemma run_comparable : comparable run_env demo_batch (demo_commit 1) run_1 demo_m1.
Proof.
  split.
  - destruct (computed_some (λ s, live_lease s (lease_clock run_env)) (source_state run_1 !! commit_key (demo_commit 1)) (Some None))
      as (s & Hs & Hl); [evaluated|].
    destruct (computed_some (λ _, tt) (source_instances run_1 !! commit_key (demo_commit 1)) tt) as (i & Hi & _);
      [evaluated|]. exists i, s. exact (conj Hi (conj Hs Hl)).
  - intros place. exact eq_refl.
  - intros a b Ha Hb.
    assert (forallb (λ a, forallb (λ b, eqb (bool_decide (fingerprint_of a = fingerprint_of b)) (observation_eqb a b))
      (compared demo_m1 demo_batch)) (compared demo_m1 demo_batch) = true) as Hall by evaluated.
    rewrite forallb_forall in Hall. specialize (Hall a (proj1 (list_elem_of_In _ _) Ha)). rewrite forallb_forall in Hall.
    specialize (Hall b (proj1 (list_elem_of_In _ _) Hb)). apply eqb_prop in Hall. by rewrite <- Hall, bool_decide_eq_true.
  - unfold demo_batch. repeat (apply Forall_cons; split; [vm_compute; reflexivity|]). apply Forall_nil_2.
Qed.


Definition run_pin : pin_row := anchor_pin "w" 0 (_format_time 0).
Definition run_first : receipt_row := default (receipt_of 0 (demo_observation "1" 5 "success") "" "") (head (receipts run_2)).
Lemma journal_pins_hold_witness : run_first ∈ receipts (compact_receipts run_env 3 10 run_2).2.
Proof.
  apply (journal_pins_hold "anchor:w" run_pin run_2 (compact_receipts run_env 3 10 run_2).2 run_first).
  - apply rtc_once. split; [|evaluated].
    eapply (js_compact _ _ run_env 3 10). apply surjective_pairing.
  - apply run_inv_2.
  - evaluated.
  - evaluated.
  - vm_compute. by left.
  - evaluated.
Defined.

(** ** Matching *)
Lemma journal_evaluate_sound_witness : ∃ durable c x o, armed_in run_2 "w" durable c ∧ x ∈ receipts run_2 ∧
  wanted c durable o ∧ match_of "w" x o 10 = demo_matched.
Proof.
  destruct (journal_evaluate_sound run_env "w" demo_armed 10 demo_limits run_2 demo_matched run_3 run_inv_2)
    as (durable & c & x & o & Ha & _ & Hx & _ & _ & Hw & _ & Hm & _).
  - in_range.
  - evaluated.
  - evaluated.
  - by exists durable, c, x, o.
Defined.

Lemma journal_match_stable_witness : demo_matched = demo_matched.
Proof.
  apply (journal_match_stable run_env "w" demo_armed 10 demo_limits run_2 demo_matched run_3 run_released
    run_env demo_armed 2000 demo_limits demo_matched (evaluate run_env "w" demo_armed 2000 demo_limits run_released).2).
  - apply run_inv_2.
  - in_range.
  - in_range.
  - evaluated.
  - apply rtc_once. eapply (js_release_pins _ _ run_env "w" {["active_anchor"; "match_evidence"]} 20). apply computed_left, left_released.
  - evaluated.
Defined.

Lemma run_ended : ended run_expired "w".
Proof.
  apply (computed_some row_state (arms run_expired !! "w")). evaluated.
Qed.
Lemma run_inv_expired : journal_inv run_expired.
Proof.
  eapply history_inv; [|apply run_inv_2]. apply call_history; [apply run_inv_2|].
  eapply (call_expire _ _ run_env "w" 2000). exact left_expired.
Qed.
Lemma journal_terminal_fence_witness : load_armed_signal run_env "w" run_expired = None ∧
  ∀ m j2, evaluate run_env "w" demo_armed 10 demo_limits run_expired ≠ (EvalMatched m, j2).
Proof.
  destruct (journal_terminal_fence run_expired "w" run_expired run_env run_inv_expired run_ended (rtc_refl _ _))
    as (_ & H1 & H2 & _). split; [exact H1|]. intros m j2. apply H2.
Defined.

Lemma journal_expiry_excludes_match_witness :
  (expire_unreserved run_env "w" 2000 run_2).1 = inl true ∧
  (∀ j'', rtc journal_step run_expired j'' → match_reservations j'' !! "w" = None) ∧
  (expire_unreserved run_env "w" 2000 run_3).2 = run_3.
Proof.
  pose proof left_expired as He.
  destruct (journal_expiry_excludes_match run_env "w" 2000 run_2 _ _ run_inv_2 He) as [_ H].
  destruct (H eq_refl) as (_ & _ & Hn). split_and!; [by rewrite He|exact Hn|].
  destruct (journal_expiry_excludes_match run_env "w" 2000 run_3 (expire_unreserved run_env "w" 2000 run_3).1
    (expire_unreserved run_env "w" 2000 run_3).2 run_inv_3 (surjective_pairing _)) as [H3 _].
  apply H3. vm_compute. by eexists.
Defined.

Lemma run_lookup {A} (x : option A) (a : A) (P : A → Prop) : x = Some a → P a → ∃ b, x = Some b ∧ P b.
Proof. eauto. Qed.
Definition run_observations : list NormalizedObservation :=
  [demo_observation "1" 5 "success"; demo_observation "2" 6 "pending"; demo_observation "3" 7 "success"].
(** Every row of the demo journal encodes one of the observations. *)
Lemma run_rows y o : y ∈ receipts run_2 → row_of y o → o ∈ run_observations.
Proof.
  intros Hy Ho. apply row_observation in Ho.
  assert (mapM (λ r, _observation_from_json (rc_observation_json r)) (receipts run_2) = Some run_observations) as Hall
    by evaluated.
  apply mapM_Some_1 in Hall. apply list_elem_of_lookup_1 in Hy as [k Hk].
  destruct (Forall2_lookup_l _ _ _ _ _ Hall Hk) as (o' & Ho' & Heq). assert (o' = o) as -> by congruence.
  by eapply list_elem_of_lookup_2.
Qed.
Definition run_third : receipt_row :=
  receipt_of 3 (demo_observation "3" 7 "success") (_canonical_json (_observation_payload (demo_observation "3" 7 "success")))
    (_fingerprint (_canonical_json (_observation_payload (demo_observation "3" 7 "success")))).
Lemma run_armed_in : armed_in run_2 "w" demo_armed demo_contract.
Proof.
  split.
  - destruct (computed_some (λ row, (row_state row, _armed_from_row row)) (arms run_2 !! "w") ("published", Some demo_armed))
      as (row & Hr & Hp); [evaluated|]. injection Hp as Hs Ha. exists row. split; [exact Hr|by split].
  - apply (computed_some (λ i, _contract_from_json (si_contract_json i)) (source_instances run_2 !! ("github", "main"))).
    evaluated.
Qed.
Lemma run_may_match : may_match run_2 "w" demo_armed demo_armed demo_contract 10.
Proof.
  split; [reflexivity|apply run_armed_in|reflexivity|evaluated..| |intros e [= <-]; done].
  apply (computed_some lifecycle_pending (wake_lifecycle run_2 !! "w")). evaluated.
Qed.
Lemma run_judgeable : judgeable run_2 demo_armed demo_contract demo_limits.
Proof.
  split; [vm_compute; congruence| |]; intros y o.
  - intros key Hy _ Ho [= <-]. pose proof (run_rows y o Hy Ho) as Hin. unfold run_observations in Hin.
    rewrite !elem_of_cons, elem_of_nil in Hin. destruct_or! Hin; subst; by eexists.
  - intros Hy _ Ho. pose proof (run_rows y o Hy Ho) as Hin. unfold run_observations in Hin.
    rewrite !elem_of_cons, elem_of_nil in Hin. destruct_or! Hin; subst; split; vm_compute; congruence.
Qed.
Lemma run_third_in : run_third ∈ receipts run_2.
Proof.
  apply list_elem_of_lookup_2 with 2%nat. evaluated.
Qed.
Lemma run_third_row : row_of run_third (demo_observation "3" 7 "success").
Proof. split; [split; in_range|reflexivity]. Qed.
Lemma run_third_wanted : wanted demo_contract demo_armed (demo_observation "3" 7 "success").
Proof.
  pose proof (classify_meaning demo_contract demo_armed demo_limits run_third _ run_third_row eq_refl) as H.
  assert (classify demo_contract demo_armed demo_limits run_third = Some (Candidate (demo_observation "3" 7 "success")))
    as Hc by evaluated.
  rewrite Hc in H. apply H.
Qed.
Lemma journal_evaluate_live_witness : ∃ m j', evaluate run_env "w" demo_armed 10 demo_limits run_2 = (EvalMatched m, j').
Proof.
  apply (journal_evaluate_live run_env run_2 "w" demo_armed demo_armed demo_contract 10 demo_limits run_third
    (demo_observation "3" 7 "success")).
  - apply run_inv_2.
  - in_range.
  - apply run_may_match.
  - apply run_judgeable.
  - apply run_third_in.
  - split; [evaluated|evaluated].
  - apply run_third_row.
  - apply run_third_wanted.
  - intros y o Hy _ Ho _ [_ [_ Hp]]. pose proof (run_rows y o Hy Ho) as Hin. unfold run_observations in Hin.
    rewrite !elem_of_cons, elem_of_nil in Hin. destruct_or! Hin; subst; vm_compute in Hp; congruence.
  - intros place. exact eq_refl.
Defined.

(** ** Registration *)
Definition run_contract_payload : json := default JNull (_contract_payload demo_contract).
Definition run_prepare : tx preparation :=
  prepares run_env 1000 demo_contract "w" demo_spec (demo_context "f") run_contract_payload run_0.
Definition run_prepared : journal := Eval vm_compute in match run_prepare with Commit _ j _ => j | _ => run_0 end.
Definition run_finish : tx (unit + Degraded) :=
  finish_body run_env demo_contract "w" "arm_w" 1 demo_spec (demo_context "f") demo_anchor run_prepared.
Definition run_finished : journal := Eval vm_compute in match run_finish with Commit _ j _ => j | _ => run_0 end.
Lemma journal_arm_atomic_witness : ∃ row after, arms run_finished !! "w" = Some row ∧
  row_local_after_sequence row = Some after ∧
  ∀ r, r ∈ receipts run_finished → receipt_key r = ("github", "main") → rc_local_sequence r ≤ after.
Proof.
  destruct (journal_arm_atomic run_env 1000 demo_contract "w" demo_spec (demo_context "f") run_contract_payload "w" "arm_w" 1
    run_0 run_prepared None run_env demo_spec (demo_context "f") demo_anchor run_prepared (inl tt) run_finished
    (Some "after_prepared_commit") "uuid" (_format_time 0)) as (_ & _ & row & after & H1 & _ & H2 & H3).
  - apply rtc_refl.
  - evaluated.
  - evaluated.
  - apply run_context_ok.
  - in_range.
  - evaluated.
  - apply rtc_refl.
  - evaluated.
  - exists row, after. split; [exact H1|]. split; [exact H2|exact H3].
Defined.

Definition run_again := arm run_env (Some run_publisher) "other" demo_spec (demo_context "g") run_1.
Lemma journal_arm_idempotent_witness : run_again.1.1.1 = ArmInvalid (invalid (Some "w") "IDEMPOTENCY_CONFLICT") ∧
  run_again.2 = demo_adapter.
Proof.
  split; [evaluated|].
  destruct (computed_some (λ row, (row_idempotency_key row, bool_decide (row_state row ≠ "preparing"))) (arms run_1 !! "w")
    ("k", true)) as (row & Hr & Hp); [evaluated|]. injection Hp as Hkey Hstate. apply bool_decide_eq_true in Hstate.
  apply (journal_arm_idempotent run_env (Some run_publisher) "other" demo_spec (demo_context "g") run_1 "w" row demo_contract
    run_contract_payload 1000 run_again.1.1.1 run_again.1.1.2 run_again.1.2 run_again.2 run_inv_1 Hr).
  - exact Hkey.
  - exact Hstate.
  - evaluated.
  - evaluated.
  - evaluated.
  - evaluated.
  - evaluated.
Defined.

Definition run_publish := _complete_registration_publication run_env (Some run_publisher) "w" run_finished.
Definition run_acknowledged : ArmedSignal :=
  {| wake_id := "w"; arm_id := "arm_w"; spec := demo_spec; anchor := demo_anchor; registered_at := 0;
     expires_at := Some 1000; publication := "published" |}.
Lemma journal_acknowledged_recorded_witness : ∃ row o p', arms run_publish.1.2 !! "w" = Some row ∧
  row_state row = "published" ∧ record_outbox run_publish.1.2 !! ("w", 1) = Some o ∧
  (run_publish.1.2 = run_finished ∨ file_holds p' (ob_payload_json o)).
Proof.
  assert (run_publish.1.1 = ArmDone run_acknowledged) as Hp by evaluated.
  destruct (journal_acknowledged_recorded run_env run_publisher "w" run_finished run_acknowledged run_publish.1.2 run_publish.2)
    as (row & o & p' & _ & H1 & H2 & _ & H3 & _ & H4).
  { fold run_publish. destruct run_publish as [[r j] p]. cbn [fst snd] in *. by rewrite Hp. }
  exists row, o, p'. split; [exact H1|]. split; [exact H2|]. split; [exact H3|]. destruct H4 as [H4|[H4 _]]; [by left|by right].
Defined.

(** ** Records *)
Definition run_signal : ArmedSignal :=
  {| wake_id := "w"; arm_id := "arm_w"; spec := demo_spec; anchor := demo_anchor; registered_at := 0;
     expires_at := Some 1000; publication := "prepared" |}.
Definition run_resume : Resume := context_resume (demo_context "f").
Definition run_record : string * string := build_signal_record id run_signal run_resume "uuid" 1 3.
Lemma build_decodes_witness : ∃ payload, loads run_record.1 = Some payload ∧ decode_signal_record payload = Done (Some payload).
Proof.
  destruct (build_decodes id run_signal run_resume "uuid" 1 3) as (payload & H1 & H2 & _).
  - split; try (vm_compute; congruence); try (refine (bool_decide_unpack _ _); vm_compute; exact I).
  - done.
  - exists payload. split; [exact H1|exact H2].
Defined.
Lemma apply_safe_witness : file_holds (file_apply run_publisher run_record.1 run_record.2).2 run_record.1.
Proof.
  destruct (apply_safe run_publisher run_record.1 run_record.2 (file_apply run_publisher run_record.1 run_record.2).1
    (file_apply run_publisher run_record.1 run_record.2).2 (surjective_pairing _)) as (_ & _ & H).
  apply H. evaluated.
Defined.
(** A publisher that crashes right after the atomic replacement. *)
Definition run_broken : FilePublisher :=
  {| wake_root := "/wakes"; capability_probe _ := Some run_capability; process_exists _ := true;
     process_identity _ := None; boot_id_value := None; io_fails op := bool_decide (op = "after_replace");
     files := ∅; probes := 0 |}.
Definition run_with (f : gmap (string * string) string) : FilePublisher :=
  {| wake_root := "/wakes"; capability_probe _ := Some run_capability; process_exists _ := true;
     process_identity _ := None; boot_id_value := None; io_fails _ := false; files := f; probes := 0 |}.
Lemma run_healthy f : healthy (run_with f).
Proof. split; [|done]. intros n. exists run_capability. split; [done|]. evaluated. Qed.
Lemma run_with_files f : files (run_with f) = f.
Proof. done. Qed.
Lemma apply_retry_witness :
  let left := files (file_apply run_broken run_record.1 run_record.2).2 in
  file_holds (file_apply (run_with left) run_record.1 run_record.2).2 run_record.1.
Proof.
  intros left. destruct (apply_retry run_broken run_record.1 run_record.2 (file_apply run_broken run_record.1 run_record.2).1
    (file_apply run_broken run_record.1 run_record.2).2 (run_with ∅) (run_with left)) as [_ H].
  - apply surjective_pairing.
  - apply run_healthy.
  - apply run_with_files.
  - evaluated.
  - apply run_healthy.
  - apply run_with_files.
  - exact H.
Defined.

Definition demo_columns : option json := _contract_payload demo_contract.
