(* ===== verification/Timestamps.v ===== *)
(** * Timestamps and POSIX paths

    The wall-clock numbers that the stores receive ([time.time()], an int or a
    finite float) and the lexical part of [pathlib.PurePosixPath].  Of a
    timestamp the code only uses the order, the sum with a number of seconds
    and its JSON text; the laws are those that IEEE arithmetic on finite
    values has too, so the theorems do not depend on exact arithmetic. *)
From Stdlib Require Import Ascii.
From S2P Require Import Prelude Json Datetime.
Open Scope Z_scope.

Class Timestamp (T : Type) := {
  t_leb : T → T → bool;
  t_zero : T;
  t_plus : T → Z → T;
  t_text : T → string;
  (** [n <= max(0, deadline - now)] *)
  t_room : T → T → Z → bool;
  (** [datetime.fromisoformat(text).timestamp()], for a text with a time zone *)
  t_of_text : string → option T;
}.
Class TimestampLaws (T : Type) `{Timestamp T} := {
  t_leb_trans a b c : t_leb a b = true → t_leb b c = true → t_leb a c = true;
  t_leb_total a b : t_leb a b = true ∨ t_leb b a = true;
  t_plus_mono a b n : t_leb a b = true → t_leb (t_plus a n) (t_plus b n) = true;
  t_plus_le a m n : m ≤ n → t_leb (t_plus a m) (t_plus a n) = true;
  t_room_mono d a m n : m ≤ n → t_room d a n = true → t_room d a m = true;
  t_room_later d d' a n : t_leb d d' = true → t_room d a n = true → t_room d' a n = true;
}.
Notation "a ≤ₜ b" := (t_leb a b = true) (at level 70).
Definition t_ltb `{Timestamp T} (a b : T) : bool := negb (t_leb b a).
(** Python's [max] and [min] answer the first of two equal arguments. *)
Definition t_max `{Timestamp T} (a b : T) : T := if t_leb b a then a else b.
Definition t_min `{Timestamp T} (a b : T) : T := if t_leb a b then a else b.

Section Laws.
Context {T : Type} `{TimestampLaws T}.

Lemma t_leb_refl a : a ≤ₜ a.
Proof. by destruct (t_leb_total a a). Qed.
Lemma t_max_l a b : a ≤ₜ t_max a b.
Proof. unfold t_max. destruct (t_leb b a) eqn:Hb; [apply t_leb_refl|]. destruct (t_leb_total a b); congruence. Qed.
Lemma t_max_r a b : b ≤ₜ t_max a b.
Proof. unfold t_max. destruct (t_leb b a) eqn:Hb; [done|apply t_leb_refl]. Qed.
Lemma t_min_l a b : t_min a b ≤ₜ a.
Proof. unfold t_min. destruct (t_leb a b) eqn:Hb; [apply t_leb_refl|]. destruct (t_leb_total a b); congruence. Qed.
Lemma t_min_r a b : t_min a b ≤ₜ b.
Proof. unfold t_min. destruct (t_leb a b) eqn:Hb; [done|apply t_leb_refl]. Qed.
Lemma t_ltb_le a b : t_ltb a b = true → a ≤ₜ b.
Proof. unfold t_ltb. rewrite negb_true_iff. destruct (t_leb_total a b); congruence. Qed.
Lemma t_ltb_irrefl a : t_ltb a a = false.
Proof. unfold t_ltb. by rewrite t_leb_refl. Qed.
Lemma t_lt_le_trans a b c : t_ltb a b = true → b ≤ₜ c → t_ltb a c = true.
Proof.
  unfold t_ltb. rewrite !negb_true_iff. intros Hab Hbc. apply not_true_iff_false. intros Hca.
  apply not_true_iff_false in Hab. destruct Hab. by eapply t_leb_trans.
Qed.
End Laws.

(** Whole seconds; a text with a fraction of a second is refused. *)
#[export] Instance Z_timestamp : Timestamp Z := {|
  t_leb := Z.leb; t_zero := 0; t_plus := Z.add; t_text := Z_dec;
  t_room deadline now n := n <=? Z.max 0 (deadline - now);
  t_of_text s := t ← parse_time s; if t mod us_second =? 0 then Some (t / us_second) else None |}.
#[export] Instance Z_timestamp_laws : TimestampLaws Z.
Proof. split; simpl; intros; rewrite ?Z.leb_le in *; lia. Qed.

(** ** Blank texts *)
(** [str.isspace] on a code point, and [not text.strip()]. *)
Definition py_space (cp : Z) : bool :=
  ((9 <=? cp) && (cp <=? 13)) || ((28 <=? cp) && (cp <=? 32)) || ((8192 <=? cp) && (cp <=? 8202)) ||
  bool_decide (cp ∈ [133; 160; 5760; 8232; 8233; 8239; 8287; 12288]).
Definition blank (s : string) : bool := forallb py_space (code_points s).

(** ** Lexical paths *)
Definition slash : ascii := "/"%char.
Fixpoint split_on (c : ascii) (s : string) : list string :=
  match s with
  | EmptyString => [EmptyString]
  | String d rest =>
    match split_on c rest with
    | [] => []
    | x :: xs => if Ascii.eqb c d then EmptyString :: x :: xs else String d x :: xs
    end
  end.
Record Path := { path_root : string; path_parts : list string }.
#[export] Instance Path_eq_dec : EqDecision Path.
Proof. solve_decision. Defined.

(** Empty and [.] components go; two leading slashes, and only two, are kept. *)
Definition path_root_of (s : string) : string :=
  match s with
  | String a (String b (String c _)) =>
    if Ascii.eqb a slash then (if Ascii.eqb b slash && negb (Ascii.eqb c slash) then "//" else "/") else ""
  | String a (String b EmptyString) => if Ascii.eqb a slash then (if Ascii.eqb b slash then "//" else "/") else ""
  | String a EmptyString => if Ascii.eqb a slash then "/" else ""
  | EmptyString => ""
  end.
Definition parse_path (s : string) : Path :=
  {| path_root := path_root_of s;
     path_parts := filter (λ x, x ∉ ["" ; "."]) (split_on slash s) |}.
Definition path_text (p : Path) : string :=
  let body := join "/" (path_parts p) in
  if bool_decide (path_root p = "") && bool_decide (path_parts p = []) then "." else path_root p +:+ body.
Definition is_absolute (p : Path) : bool := negb (bool_decide (path_root p = "")).
Fixpoint is_prefix (a b : list string) : bool :=
  match a, b with
  | [], _ => true
  | x :: a, y :: b => bool_decide (x = y) && is_prefix a b
  | _ :: _, [] => false
  end.
(** [left.is_relative_to(right)]. *)
Definition is_relative_to (left right : Path) : bool :=
  bool_decide (path_root left = path_root right) && is_prefix (path_parts right) (path_parts left).

Lemma is_prefix_spec a b : is_prefix a b = true ↔ a `prefix_of` b.
Proof.
  revert b. induction a as [|x a IH]; intros b; [split; [intros _; apply prefix_nil|done]|].
  destruct b as [|y b]; simpl; [split; [done|by intros ?%prefix_nil_not]|].
  rewrite andb_true_iff, bool_decide_eq_true, IH. split.
  - intros [-> ?]. by apply prefix_cons.
  - intros Hp. split; [by eapply prefix_cons_inv_1|by eapply prefix_cons_inv_2].
Qed.
Lemma is_relative_to_refl p : is_relative_to p p = true.
Proof. unfold is_relative_to. rewrite bool_decide_true by done. by apply is_prefix_spec. Qed.

Lemma absolute_head s : is_absolute (parse_path s) = true ↔ ∃ rest, s = String slash rest.
Proof.
  unfold is_absolute, parse_path. simpl. rewrite negb_true_iff, bool_decide_eq_false. split.
  - destruct s as [|a s]; [done|]. intros Hr. exists s. f_equal.
    destruct (Ascii.eqb_spec a slash) as [->|Hne]; [done|]. destruct Hr. apply Ascii.eqb_neq in Hne.
    destruct s as [|b [|c s]]; simpl; by rewrite Hne.
  - intros [rest ->]. destruct rest as [|b [|c rest]]; simpl; repeat case_match; done.
Qed.
Lemma absolute_text s : is_absolute (parse_path s) = true → is_absolute (parse_path (path_text (parse_path s))) = true.
Proof.
  intros [rest ->]%absolute_head. apply absolute_head. unfold path_text.
  assert (∃ tail, path_root (parse_path (String slash rest)) = String slash tail) as [tail ->].
  { simpl. destruct rest as [|b [|c rest]]; simpl; repeat case_match; by eexists. }
  eexists. done.
Qed.
Example path_round : path_text (parse_path "/a//b/./c/") = "/a/b/c".
Proof. reflexivity. Qed.
Example path_double : path_text (parse_path "//a") = "//a" ∧ path_text (parse_path "///a") = "/a".
Proof. by split. Qed.
Example path_inside : is_relative_to (parse_path "/a/b/c") (parse_path "/a/b") = true ∧
  is_relative_to (parse_path "/a/bc") (parse_path "/a/b") = false.
Proof. by split. Qed.
