(* ===== verification/ResourceClaims.v ===== *)
(** * Exclusive directory custody (src/src/codex_wake/resource_claims.py)

    [ResourceClaims]: claims on directories with their transition history, in
    one private JSON file under one lock.  The first half translates the
    module: the shape check of the stored state, the transaction that reads,
    checks and republishes it, and the operations.  The second half proves
    that custody is exclusive, that generations fence old owners, that a guard
    holds custody through its effect, and that no operation publishes a state
    that a later read would refuse. *)
From Stdlib Require Import Ascii.
From S2P Require Import Prelude Json Timestamps.
Open Scope Z_scope.

Definition KINDS : list string := ["worktree"; "build_prefix"; "install_prefix"].
Definition MAX_BYTES : Z := 4 * 1024 * 1024.

Record process := { pid : Z; start_ticks : Z; boot_id : string }.
#[export] Instance process_eq_dec : EqDecision process.
Proof. solve_decision. Defined.
(** What [Claimant.validated] returns and a claim stores as its owner. *)
Record owner_binding := { managed_agent_id : string; owner_root : string; owner_process : process }.
#[export] Instance owner_binding_eq_dec : EqDecision owner_binding.
Proof. solve_decision. Defined.
Record Claimant (T : Type) := { claimant_owner : owner_binding; claimant_observed_at : T }.
Arguments claimant_owner {T} _.
Arguments claimant_observed_at {T} _.
Record resource := { res_kind : string; res_path : string; res_device : Z; res_inode : Z }.
#[export] Instance resource_eq_dec : EqDecision resource.
Proof. solve_decision. Defined.
Inductive event (T : Type) :=
| Claimed (actor : string) (at_ : T)
| Released (actor : string) (at_ : T) (reason : option string) (generation : Z)
| Transferred (actor : string) (at_ : T) (reason : string) (previous_owner owner : owner_binding) (generation : Z).
Arguments Claimed {T} _ _.
Arguments Released {T} _ _ _ _.
Arguments Transferred {T} _ _ _ _ _ _.
Record claim_row (T : Type) := {
  claim_id : string;
  generation : Z;
  claim_status : string;
  claim_resource : resource;
  claim_owner : owner_binding;
  claim_history : list (event T);
}.
Arguments claim_id {T} _.
Arguments generation {T} _.
Arguments claim_status {T} _.
Arguments claim_resource {T} _.
Arguments claim_owner {T} _.
Arguments claim_history {T} _.

(** ** Shapes *)
Definition hex_char (c : ascii) : bool :=
  let b := byte_of c in ((48 <=? b) && (b <=? 57)) || ((97 <=? b) && (b <=? 102)).
Definition hex32 (s : string) : bool := all_chars hex_char s && bool_decide (String.length s = 32%nat).
(** [re.fullmatch(prefix + '[0-9a-f]{32}', s)]. *)
Definition hex_identifier (prefix s : string) : bool :=
  match strip_prefix prefix s with Some rest => hex32 rest | None => false end.

Definition owner_shape (o : owner_binding) : bool :=
  hex_identifier "agent_" (managed_agent_id o) && is_absolute (parse_path (owner_root o)) &&
  (0 <? pid (owner_process o)) && (0 <=? start_ticks (owner_process o)) &&
  negb (bool_decide (boot_id (owner_process o) = "")).

Lemma strip_prefix_app p s : strip_prefix p (p +:+ s) = Some s.
Proof. induction p as [|c p IH]; [done|]. rewrite app_cons. simpl. by rewrite decide_True. Qed.

Section Claims.
Context {T : Type} `{Timestamp T}.

(** [Claimant.validated]. *)
Definition validated (c : Claimant T) (now : T) : result string owner_binding :=
  if owner_shape (claimant_owner c) && t_leb (claimant_observed_at c) now && t_leb now (t_plus (claimant_observed_at c) 30)
  then Done (claimant_owner c) else Raised "owner_unqualified".

(** [ResourceClaims._validate]: the checks that typed rows leave open. *)
Definition claim_shape (c : claim_row T) : bool :=
  hex_identifier "claim_" (claim_id c) && (1 <=? generation c) &&
  bool_decide (claim_status c ∈ ["active"; "released"]) && bool_decide (res_kind (claim_resource c) ∈ KINDS) &&
  is_absolute (parse_path (res_path (claim_resource c))) && negb (bool_decide (claim_history c = [])) &&
  owner_shape (claim_owner c).
Fixpoint _validate (ids : list string) (claims : list (claim_row T)) : bool :=
  match claims with
  | [] => true
  | c :: claims => negb (bool_decide (claim_id c ∈ ids)) && claim_shape c && _validate (claim_id c :: ids) claims
  end.

(** ** The stored text *)
Definition text_owner (o : owner_binding) : string := text_object [
  ("managed_agent_id", quote_ascii (managed_agent_id o));
  ("process", text_object [("boot_id", quote_ascii (boot_id (owner_process o))); ("pid", Z_dec (pid (owner_process o)));
    ("start_ticks", Z_dec (start_ticks (owner_process o)))]);
  ("root", quote_ascii (owner_root o))].
Definition text_event (e : event T) : string :=
  match e with
  | Claimed actor at_ => text_object [("actor", quote_ascii actor); ("at", t_text at_); ("event", quote_ascii "claimed")]
  | Released actor at_ reason generation => text_object [("actor", quote_ascii actor); ("at", t_text at_);
      ("event", quote_ascii "released"); ("generation", Z_dec generation);
      ("reason", match reason with Some r => quote_ascii r | None => "null" end)]
  | Transferred actor at_ reason previous owner generation => text_object [("actor", quote_ascii actor);
      ("at", t_text at_); ("event", quote_ascii "transferred"); ("generation", Z_dec generation);
      ("owner", text_owner owner); ("previous_owner", text_owner previous); ("reason", quote_ascii reason)]
  end.
Definition text_claim (c : claim_row T) : string := text_object [
  ("claim_id", quote_ascii (claim_id c)); ("generation", Z_dec (generation c));
  ("history", text_array (text_event <$> claim_history c)); ("owner", text_owner (claim_owner c));
  ("resource", text_object [("device", Z_dec (res_device (claim_resource c))); ("inode", Z_dec (res_inode (claim_resource c)));
     ("kind", quote_ascii (res_kind (claim_resource c))); ("path", quote_ascii (res_path (claim_resource c)))]);
  ("status", quote_ascii (claim_status c))].
Definition text_state (claims : list (claim_row T)) : string :=
  text_object [("claims", text_array (text_claim <$> claims)); ("version", "1")].

(** ** The file and its transaction *)
(** The parsed content of [claims.json]; text that is no object with exactly
    the version 1 and a list of rows is [Foreign]. *)
Inductive content := Absent | Foreign | Stored (claims : list (claim_row T)).
Record store := { file : content; initialized : bool }.

(** The surroundings of a call: its readings of the clock in order, the hex
    digits [uuid4] yields, what the directory at a path is (an exception when
    nothing is there, [None] when it is not a canonical directory), whether
    another process holds the lock, and the places of the file handling that
    raise, a failing system call or a path that is not private, with their
    exception. *)
Record Env := {
  now : nat → T;
  uuid4_hex : string;
  directory_at : string → result string (option (Z * Z));
  lock_held : bool;
  io_fails : string → option string;
}.

Definition io_try {A} (env : Env) (place : string) (s : store) (k : result string A * store) : result string A * store :=
  match io_fails env place with Some e => (Raised e, s) | None => k end.

Definition _publish (env : Env) (claims : list (claim_row T)) (s : store) : result string () * store :=
  if MAX_BYTES <? Z.of_nat (String.length (text_state claims)) then (Raised "store_full", s)
  else io_try env "publish" s
         (let s := {| file := Stored claims; initialized := initialized s |} in io_try env "sync" s (Done (), s)).

(** Reading the state before the body: [Done] with the claims, or the
    exception, and the store with its marker and first publication. *)
Definition open_state (env : Env) (s : store) : result string (list (claim_row T)) * store :=
  io_try env "lock" s (
  if lock_held env then (Raised "resource_busy", s)
  else
    let mark (s : store) : result string () * store :=
      if initialized s then io_try env "marker" s (Done (), s)
      else io_try env "mark" s
        (let s := {| file := file s; initialized := true |} in io_try env "marker" s (Done (), s)) in
    match file s with
    | Foreign => io_try env "read" s (Raised "store_unavailable", s)
    | Stored claims => io_try env "read" s (
      if negb (Z.of_nat (String.length (text_state claims)) <=? MAX_BYTES) || negb (_validate [] claims)
      then (Raised "store_unavailable", s)
      else match mark s with
           | (Raised e, s) => (Raised e, s)
           | (Done _, s) => (Done claims, s)
           end)
    | Absent =>
      if initialized s then (Raised "store_unavailable", s)
      else match mark s with
           | (Raised e, s) => (Raised e, s)
           | (Done _, s) =>
             match _publish env [] s with
             | (Raised e, s) => (Raised e, s)
             | (Done _, s) => (Done [], s)
             end
           end
    end).

(** [with self._transaction(write=...) as state]: the body answers a value and
    the claims it leaves, or raises; without [write] nothing is published. *)
Definition _transaction {A} (env : Env) (write : bool) (s : store)
    (body : list (claim_row T) → result string (A * list (claim_row T))) : result string A * store :=
  match open_state env s with
  | (Raised e, s) => (Raised e, s)
  | (Done claims, s) =>
    match body claims with
    | Raised e => (Raised e, s)
    | Done (a, claims) =>
      if write then
        match _publish env claims s with
        | (Raised e, s) => (Raised e, s)
        | (Done _, s) => (Done a, s)
        end
      else (Done a, s)
    end
  end.

(** ** Operations *)
Definition _resource (env : Env) (kind path : string) : result string resource :=
  if negb (bool_decide (kind ∈ KINDS)) then Raised "invalid_argument"
  else let p := parse_path path in
  if negb (is_absolute p) then Raised "resource_unqualified"
  else match directory_at env (path_text p) with
       | Raised e => Raised e
       | Done None => Raised "resource_unqualified"
       | Done (Some (device, inode)) =>
         Done {| res_kind := kind; res_path := path_text p; res_device := device; res_inode := inode |}
       end.

Fixpoint _find (claims : list (claim_row T)) (id : string) : result string (claim_row T) :=
  match claims with
  | [] => Raised "claim_not_found"
  | c :: claims => if bool_decide (claim_id c = id) then Done c else _find claims id
  end.
(** Mutation of the found row, in place. *)
Fixpoint update_claim (id : string) (f : claim_row T → claim_row T) (claims : list (claim_row T)) : list (claim_row T) :=
  match claims with
  | [] => []
  | c :: claims => if bool_decide (claim_id c = id) then f c :: claims else c :: update_claim id f claims
  end.

Definition inspect (env : Env) (id : option string) (s : store) :
    result string (list (claim_row T) + claim_row T) * store :=
  _transaction env false s (λ claims,
    match id with
    | None => Done (inl claims, claims)
    | Some id => c ← _find claims id; Done (inr c, claims)
    end).

Definition overlaps (a b : string) : bool :=
  is_relative_to (parse_path a) (parse_path b) || is_relative_to (parse_path b) (parse_path a).
(** The loop over the existing claims: [Some] is the claim already held. *)
Fixpoint held_claim (r : resource) (o : owner_binding) (claims : list (claim_row T)) : result string (option (claim_row T)) :=
  match claims with
  | [] => Done None
  | c :: claims =>
    if negb (bool_decide (claim_status c = "active")) then held_claim r o claims
    else if overlaps (res_path (claim_resource c)) (res_path r)
    then if bool_decide (claim_resource c = r) && bool_decide (claim_owner c = o) then Done (Some c)
         else Raised "resource_conflict"
    else held_claim r o claims
  end.
Definition new_claim (env : Env) (r : resource) (o : owner_binding) : claim_row T :=
  {| claim_id := "claim_" +:+ uuid4_hex env; generation := 1; claim_status := "active"; claim_resource := r;
     claim_owner := o; claim_history := [Claimed (managed_agent_id o) (now env 1)] |}.
Definition claim (env : Env) (kind path : string) (claimant : Claimant T) (s : store) : result string (claim_row T) * store :=
  match validated claimant (now env 0) with
  | Raised e => (Raised e, s)
  | Done owner =>
    match _resource env kind path with
    | Raised e => (Raised e, s)
    | Done r =>
      _transaction env true s (λ claims,
        held ← held_claim r owner claims;
        match held with
        | Some c => Done (c, claims)
        | None => let c := new_claim env r owner in Done (c, claims ++ [c])
        end)
    end
  end.

Definition _current (env : Env) (c : claim_row T) (gen : Z) (claimant : Claimant T) : result string () :=
  if negb (gen =? generation c) || negb (bool_decide (claim_status c = "active")) then Raised "stale_generation"
  else owner ← validated claimant (now env 0);
       if negb (bool_decide (claim_owner c = owner)) then Raised "owner_changed"
       else r ← _resource env (res_kind (claim_resource c)) (res_path (claim_resource c));
            if negb (bool_decide (r = claim_resource c)) then Raised "resource_changed" else Done ().

(** Entering [guard]: the claim that the effect may rely on.  The lock is held
    until [guard] is left. *)
Definition guard (env : Env) (id : string) (gen : Z) (claimant : Claimant T) (s : store) :
    result string (claim_row T) * store :=
  _transaction env false s (λ claims, c ← _find claims id; _ ← _current env c gen claimant; Done (c, claims)).

Definition _operator (operator : bool) (reason : option string) : result string string :=
  match reason with
  | Some r => if negb operator || blank r || (1024 <? str_len r) then Raised "operator_required" else Done r
  | None => Raised "operator_required"
  end.

Definition transferred (env : Env) (owner : owner_binding) (reason : string) (c : claim_row T) : claim_row T :=
  {| claim_id := claim_id c; generation := generation c + 1; claim_status := claim_status c;
     claim_resource := claim_resource c; claim_owner := owner;
     claim_history := claim_history c ++
       [Transferred "operator:local" (now env 1) reason (claim_owner c) owner (generation c + 1)] |}.
Definition transfer (env : Env) (id : string) (gen : Z) (claimant : Claimant T) (operator : bool) (reason : option string)
    (s : store) : result string (claim_row T) * store :=
  match _operator operator reason with
  | Raised e => (Raised e, s)
  | Done reason =>
    match validated claimant (now env 0) with
    | Raised e => (Raised e, s)
    | Done owner =>
      _transaction env true s (λ claims,
        c ← _find claims id;
        if negb (generation c =? gen) || negb (bool_decide (claim_status c = "active")) then Raised "stale_generation"
        else r ← _resource env (res_kind (claim_resource c)) (res_path (claim_resource c));
             if negb (bool_decide (r = claim_resource c)) then Raised "resource_changed"
             else let c := transferred env owner reason c in Done (c, update_claim id (λ _, c) claims))
    end
  end.

Definition released (at_ : T) (actor : string) (reason : option string) (c : claim_row T) : claim_row T :=
  {| claim_id := claim_id c; generation := generation c + 1; claim_status := "released";
     claim_resource := claim_resource c; claim_owner := claim_owner c;
     claim_history := claim_history c ++ [Released actor at_ reason (generation c + 1)] |}.
Definition release (env : Env) (id : string) (gen : Z) (claimant : option (Claimant T)) (operator : bool)
    (reason : option string) (s : store) : result string (claim_row T) * store :=
  let body claims :=
    c ← _find claims id;
    actor ← (if operator
             then if negb (generation c =? gen) || negb (bool_decide (claim_status c = "active"))
                  then Raised "stale_generation" else Done "operator:local"
             else match claimant with
                  | None => Raised "owner_unqualified"
                  | Some claimant => _ ← _current env c gen claimant; Done (managed_agent_id (claimant_owner claimant))
                  end);
    (* the operator's release reads the clock only here *)
    let c := released (now env (if operator then 0%nat else 1%nat)) actor reason c in Done (c, update_claim id (λ _, c) claims) in
  if operator then
    match _operator operator reason with
    | Raised e => (Raised e, s)
    | Done _ => _transaction env true s body
    end
  else _transaction env true s body.
End Claims.

(** ** Invariants *)
Section Invariant.
Context {T : Type} `{TimestampLaws T}.
Implicit Types (claims : list (claim_row T)) (c d : claim_row T) (s : store (T:=T)) (env : Env (T:=T)).

Definition active c : Prop := claim_status c = "active".
Definition exclusive claims : Prop := ∀ i j c d, i ≠ j → claims !! i = Some c → claims !! j = Some d →
  active c → active d → overlaps (res_path (claim_resource c)) (res_path (claim_resource d)) = false.
(** The history accounts for the row: one event per generation, and a release
    is the last one. *)
Definition is_release (e : event T) : Prop := match e with Released _ _ _ _ => True | _ => False end.
Definition accounted c : Prop :=
  generation c = Z.of_nat (length (claim_history c)) ∧
  (active c → Forall (λ e, ¬ is_release e) (claim_history c)).

Record claims_inv claims : Prop := {
  ci_valid : _validate [] claims = true;
  ci_exclusive : exclusive claims;
  ci_accounted : Forall accounted claims;
}.
Definition store_inv s : Prop :=
  match file s with
  | Absent => True
  | Foreign => False
  | Stored claims => claims_inv claims ∧ initialized s = true ∧ Z.of_nat (String.length (text_state claims)) ≤ MAX_BYTES
  end.

(** *** The shape check *)
Lemma validate_spec ids claims : _validate ids claims = true ↔
  NoDup (claim_id <$> claims) ∧ (∀ c, c ∈ claims → claim_id c ∉ ids) ∧ Forall (λ c, claim_shape c = true) claims.
Proof.
  revert ids. induction claims as [|c claims IH]; intros ids; simpl.
  - split; [intros _; split_and!; [constructor| |constructor]|done]. intros c Hc. by apply not_elem_of_nil in Hc.
  - rewrite !andb_true_iff, negb_true_iff, bool_decide_eq_false, IH, NoDup_cons, Forall_cons.
    rewrite list_elem_of_fmap. setoid_rewrite elem_of_cons. split.
    + intros [[Hni Hs] (Hnd & Hids & Hall)]. split_and!; try done.
      * intros (d & Heq & Hd). destruct (Hids d Hd). by left.
      * intros d [->|Hd]; [done|]. intros Hin. destruct (Hids d Hd). by right.
    + intros ([Hni Hnd] & Hids & Hs & Hall). split_and!; try done; [by apply Hids; left|].
      intros d Hd [Heq|Hin]; [|by eapply Hids; [right|]]. apply Hni. by exists d.
Qed.

Lemma find_spec claims id c : _find claims id = Done c → claim_id c = id ∧ ∃ i, claims !! i = Some c.
Proof.
  induction claims as [|d claims IH]; [done|]. simpl. case_bool_decide.
  - intros [= ->]. split; [done|]. by exists 0%nat.
  - intros Hf. destruct (IH Hf) as (? & i & ?). split; [done|]. by exists (S i).
Qed.
Lemma find_unique claims c : NoDup (claim_id <$> claims) → c ∈ claims → _find claims (claim_id c) = Done c.
Proof.
  induction claims as [|d claims IH]; [by intros _ ?%not_elem_of_nil|]. rewrite fmap_cons, NoDup_cons. intros [Hd Hnd] Hc.
  simpl. apply elem_of_cons in Hc as [->|Hc]; [by rewrite bool_decide_true|].
  rewrite bool_decide_false; [by apply IH|]. intros Heq. apply Hd. rewrite Heq. by apply list_elem_of_fmap_2.
Qed.

(** *** Updating the found row *)
Lemma update_find claims id c c' : _find claims id = Done c → NoDup (claim_id <$> claims) →
  update_claim id (λ _, c') claims = (λ d, if bool_decide (claim_id d = id) then c' else d) <$> claims.
Proof.
  induction claims as [|d claims IH]; [done|]. simpl. rewrite NoDup_cons. intros Hf [Hd Hnd]. case_bool_decide as Hid.
  - f_equal. rewrite <- (list_fmap_id claims) at 1. apply list_fmap_ext. intros i x Hx. simpl.
    rewrite bool_decide_false; [done|]. intros Heq. apply Hd. rewrite Hid, <- Heq. apply list_elem_of_fmap_2.
    by eapply list_elem_of_lookup_2.
  - f_equal. by apply IH.
Qed.

(** Replacing a row by one with its identity and directory, active only if the
    old one was. *)
Record replaces c c' : Prop := {
  rp_id : claim_id c' = claim_id c;
  rp_resource : claim_resource c' = claim_resource c;
  rp_active : active c' → active c;
  rp_shape : claim_shape c = true → claim_shape c' = true;
  rp_accounted : accounted c → accounted c';
}.
Lemma update_inv claims id c c' : claims_inv claims → _find claims id = Done c → replaces c c' →
  claims_inv (update_claim id (λ _, c') claims).
Proof.
  intros [Hv Hex Hacc] Hf Hr. apply validate_spec in Hv as (Hnd & _ & Hshape).
  destruct (find_spec _ _ _ Hf) as [Hid [i Hi]]. rewrite (update_find _ _ c) by done.
  assert (∀ j d, ((λ d, if bool_decide (claim_id d = id) then c' else d) <$> claims) !! j = Some d →
    ∃ d0, claims !! j = Some d0 ∧ replaces d0 d ∨ claims !! j = Some d0 ∧ d = d0) as Hlook.
  { intros j d Hj. apply list_lookup_fmap_Some in Hj as (d0 & -> & Hd0). exists d0. case_bool_decide as Hd; [|by right].
    left. split; [done|]. assert (d0 = c) as ->; [|done].
    assert (_find claims (claim_id d0) = Done d0) as Hf' by (apply find_unique; [done|by eapply list_elem_of_lookup_2]).
    rewrite Hd in Hf'. congruence. }
  split.
  - apply validate_spec. split_and!.
    + rewrite <- list_fmap_compose. erewrite list_fmap_ext; [exact Hnd|]. intros j d Hj. simpl.
      case_bool_decide as Hd; [|done]. rewrite (rp_id _ _ Hr). congruence.
    + intros d _ Hd. by apply not_elem_of_nil in Hd.
    + apply Forall_forall. intros d Hd. apply list_elem_of_lookup_1 in Hd as [j Hj].
      rewrite Forall_forall in Hshape.
      destruct (Hlook j d Hj) as (d0 & [[Hd0 Hrd]|[Hd0 ->]]); [apply (rp_shape _ _ Hrd)|];
        apply Hshape; by eapply list_elem_of_lookup_2.
  - intros a b x y Hab Ha Hb Hx Hy.
    destruct (Hlook a x Ha) as (x0 & Hx0), (Hlook b y Hb) as (y0 & Hy0).
    assert (claims !! a = Some x0 ∧ active x0 ∧ claim_resource x = claim_resource x0) as (Hax & Hxa & ->).
    { destruct Hx0 as [[? Hrx]|[? ->]]; split_and!; try done; [by apply (rp_active _ _ Hrx)|apply Hrx]. }
    assert (claims !! b = Some y0 ∧ active y0 ∧ claim_resource y = claim_resource y0) as (Hby & Hya & ->).
    { destruct Hy0 as [[? Hry]|[? ->]]; split_and!; try done; [by apply (rp_active _ _ Hry)|apply Hry]. }
    by eapply (Hex a b).
  - apply Forall_forall. intros d Hd. apply list_elem_of_lookup_1 in Hd as [j Hj]. rewrite Forall_forall in Hacc.
    destruct (Hlook j d Hj) as (d0 & [[Hd0 Hrd]|[Hd0 ->]]); [apply (rp_accounted _ _ Hrd)|];
      apply Hacc; by eapply list_elem_of_lookup_2.
Qed.

Lemma transferred_replaces env owner reason c : owner_shape owner = true → active c →
  replaces c (transferred env owner reason c).
Proof.
  intros Ho Ha. split; try done.
  - unfold claim_shape, transferred. simpl. rewrite !andb_true_iff, !Z.leb_le, Ho, !negb_true_iff, !bool_decide_eq_false.
    intros [[[[[[? ?] ?] ?] ?] ?] _]. split_and!; try done; [lia|]. by destruct (claim_history c).
  - intros [Hg Hr]. split; simpl; [rewrite length_app; simpl; lia|]. intros _. apply Forall_app. split; [by apply Hr|].
    constructor; [|done]. by intros [].
Qed.
Lemma released_replaces at_ actor reason c : replaces c (released at_ actor reason c).
Proof.
  split; try done.
  - unfold claim_shape, released. simpl. rewrite !andb_true_iff, !Z.leb_le, !negb_true_iff, !bool_decide_eq_false.
    intros [[[[[[? ?] _] ?] ?] ?] ?]. split_and!; try done; [lia|]. by destruct (claim_history c).
  - intros [Hg Hr]. split; simpl; [rewrite length_app; simpl; lia|]. done.
Qed.

(** *** Transactions *)
Definition claims_of s : list (claim_row T) := match file s with Stored claims => claims | _ => [] end.

Lemma empty_inv : claims_inv [] ∧ Z.of_nat (String.length (text_state (T:=T) [])) ≤ MAX_BYTES.
Proof. split; [split; [done| |constructor]|by vm_compute]. intros i j c d _ Hc. by rewrite lookup_nil in Hc. Qed.
Lemma store_claims s : store_inv s → claims_inv (claims_of s).
Proof. unfold store_inv, claims_of. destruct (file s); [intros _; apply empty_inv|done|by intros [? _]]. Qed.

Lemma publish_cases env claims s r s' : _publish env claims s = (r, s') →
  s' = s ∧ (∃ e, r = Raised e) ∨
  s' = {| file := Stored claims; initialized := initialized s |} ∧ Z.of_nat (String.length (text_state claims)) ≤ MAX_BYTES ∧
  (r = Done () ∨ ∃ e, r = Raised e ∧ io_fails env "sync" = Some e).
Proof.
  unfold _publish. destruct (Z.ltb_spec MAX_BYTES (Z.of_nat (String.length (text_state claims)))); [intros [= <- <-]; left; eauto|].
  unfold io_try. destruct (io_fails env "publish"); [intros [= <- <-]; left; eauto|].
  destruct (io_fails env "sync") as [e|]; intros [= <- <-]; right; (split; [done|]); (split; [lia|]); [right; by exists e|by left].
Qed.

Lemma open_cases env s r s' : store_inv s → open_state env s = (r, s') →
  store_inv s' ∧ claims_of s' = claims_of s ∧ ∀ claims, r = Done claims → file s' = Stored claims ∧ claims = claims_of s.
Proof.
  intros Hinv. unfold open_state, io_try. destruct (io_fails env "lock"); [by intros [= <- <-]|].
  destruct (lock_held env); [by intros [= <- <-]|]. unfold store_inv, claims_of in *.
  destruct (file s) as [| |claims] eqn:Hf; [|done|].
  - destruct (initialized s) eqn:Hi; [intros [= <- <-]; cbn [file initialized]; by rewrite ?Hf|].
    destruct (io_fails env "mark"); [intros [= <- <-]; cbn [file initialized]; by rewrite ?Hf|].
    destruct (io_fails env "marker"); [intros [= <- <-]; cbn [file initialized]; by rewrite ?Hf|].
    destruct (_publish env [] _) as [rp sp] eqn:Hp. apply publish_cases in Hp as [(-> & e & ->)|(-> & _ & [->|(e & -> & _)])];
      intros [= <- <-]; cbn [file initialized]; rewrite ?Hf; split_and!; try done; try apply empty_inv; by intros ? [= <-].
  - destruct Hinv as (Hc & Hi & Hs). destruct (io_fails env "read"); [intros [= <- <-]; cbn [file initialized]; by rewrite ?Hf|].
    rewrite (proj2 (Z.leb_le _ _) Hs), (ci_valid _ Hc), Hi. cbn [negb orb].
    destruct (io_fails env "marker"); intros [= <- <-]; rewrite Hf; split_and!; try done. by intros ? [= <-].
Qed.

Lemma transaction_cases {A} env write s (body : _ → result string (A * _)) r s' : store_inv s →
  _transaction env write s body = (r, s') →
  store_inv s' ∧ claims_of s' = claims_of s ∧
    (∀ a, r = Done a → write = false ∧ ∃ claims', body (claims_of s) = Done (a, claims')) ∨
  ∃ a claims', write = true ∧ body (claims_of s) = Done (a, claims') ∧ claims_of s' = claims' ∧
    (claims_inv claims' → store_inv s') ∧ (r = Done a ∨ ∃ e, r = Raised e ∧ io_fails env "sync" = Some e).
Proof.
  intros Hinv. unfold _transaction. destruct (open_state env s) as [ro so] eqn:Ho.
  destruct (open_cases _ _ _ _ Hinv Ho) as (Hso & Hcl & Hd). destruct ro as [claims|e]; [|intros [= <- <-]; by left].
  destruct (Hd claims eq_refl) as [Hf ->]. destruct (body (claims_of s)) as [[a claims']|e] eqn:Hb; [|intros [= <- <-]; by left].
  destruct write; [|intros [= <- <-]; left; split_and!; try done; intros a' [= <-]; eauto].
  destruct (_publish env claims' so) as [rp sp] eqn:Hp.
  apply publish_cases in Hp as [(-> & e & ->)|(-> & Hs & Hr)]; [intros [= <- <-]; by left|].
  intros Heq. right. exists a, claims'. unfold store_inv in *. rewrite Hf in Hso. destruct Hso as (_ & Hi & _).
  destruct Hr as [->|(e & -> & He)]; injection Heq as <- <-; split_and!; try done; eauto.
Qed.

(** *** Calls *)
(** What [uuid4] yields is 32 hex digits that name no claim yet. *)
Definition fresh_uuid env s : Prop :=
  hex32 (uuid4_hex env) = true ∧ ∀ c, c ∈ claims_of s → claim_id c ≠ "claim_" +:+ uuid4_hex env.
Inductive claims_call s s' : Prop :=
| call_claim env kind path claimant r : fresh_uuid env s → claim env kind path claimant s = (r, s') → claims_call s s'
| call_transfer env id gen claimant operator reason r : transfer env id gen claimant operator reason s = (r, s') → claims_call s s'
| call_release env id gen claimant operator reason r : release env id gen claimant operator reason s = (r, s') → claims_call s s'
| call_guard env id gen claimant r : guard env id gen claimant s = (r, s') → claims_call s s'
| call_inspect env id r : inspect env id s = (r, s') → claims_call s s'.

Record advances c c' : Prop := {
  adv_active : active c;
  adv_generation : generation c' = generation c + 1;
  adv_history : claim_history c `prefix_of` claim_history c';
}.
(** What a call makes of the claims. *)
Inductive change claims claims' : Prop :=
| change_none : claims' = claims → change claims claims'
| change_new c : claims' = claims ++ [c] → change claims claims'
| change_row id c c' : _find claims id = Done c → replaces c c' → advances c c' →
    claims' = update_claim id (λ _, c') claims → change claims claims'.

Lemma validated_Done (claimant : Claimant T) now o : validated claimant now = Done o →
  o = claimant_owner claimant ∧ owner_shape o = true.
Proof. unfold validated. destruct (_ && _ && _) eqn:Hv; [|done]. intros [= <-]. rewrite !andb_true_iff in Hv. by destruct Hv as [[? _] _]. Qed.
Lemma resource_Done env kind path r : _resource env kind path = Done r →
  kind ∈ KINDS ∧ res_kind r = kind ∧ is_absolute (parse_path path) = true ∧ res_path r = path_text (parse_path path) ∧
  directory_at env (path_text (parse_path path)) = Done (Some (res_device r, res_inode r)).
Proof.
  unfold _resource. case_bool_decide; [|done]. simpl. destruct (is_absolute _) eqn:Ha; [|done]. simpl.
  destruct (directory_at env _) as [[[dev ino]|]|] eqn:Hd; try done. intros [= <-]. by split_and!.
Qed.

Lemma new_claim_inv env claims kind path r o : claims_inv claims → _resource env kind path = Done r → owner_shape o = true →
  hex32 (uuid4_hex env) = true → (∀ c, c ∈ claims → claim_id c ≠ "claim_" +:+ uuid4_hex env) →
  (∀ c, c ∈ claims → active c → overlaps (res_path (claim_resource c)) (res_path r) = false) →
  claims_inv (claims ++ [new_claim env r o]).
Proof.
  intros [Hv Hex Hacc] Hres Ho Huuid Hfresh Hfree. apply validate_spec in Hv as (Hnd & _ & Hshape).
  apply resource_Done in Hres as (Hk & <- & Habs & Hp & _). split.
  - apply validate_spec. split_and!.
    + rewrite fmap_app. apply NoDup_app. split_and!; [done| |apply NoDup_singleton].
      intros id (c & -> & Hc)%list_elem_of_fmap. cbn [fmap list_fmap]. rewrite list_elem_of_singleton. by apply Hfresh.
    + intros c _ Hc. by apply not_elem_of_nil in Hc.
    + apply Forall_app. split; [done|]. constructor; [|done]. unfold claim_shape, new_claim. simpl.
      rewrite Ho, Hp, (absolute_text _ Habs), bool_decide_true, andb_true_r by done. simpl.
      unfold hex_identifier. by rewrite strip_prefix_app, Huuid.
  - assert (∀ a b, overlaps a b = overlaps b a) as Hsym by (intros; unfold overlaps; apply orb_comm).
    intros a b x y Hab Ha Hb Hx Hy.
    apply lookup_app_Some in Ha as [Ha|[? Ha]], Hb as [Hb|[? Hb]].
    + by eapply (Hex a b).
    + apply list_lookup_singleton_Some in Hb as [_ <-]. apply Hfree; [by eapply list_elem_of_lookup_2|done].
    + apply list_lookup_singleton_Some in Ha as [_ <-]. rewrite Hsym. apply Hfree; [by eapply list_elem_of_lookup_2|done].
    + apply list_lookup_singleton_Some in Ha as [? _], Hb as [? _]. lia.
  - apply Forall_app. split; [done|]. constructor; [|done]. split; [done|]. intros _. constructor; [by intros []|done].
Qed.
Lemma held_cases r o claims h : held_claim r o claims = Done h →
  match h with
  | Some c => c ∈ claims ∧ active c ∧ claim_resource c = r ∧ claim_owner c = o
  | None => ∀ c, c ∈ claims → active c → overlaps (res_path (claim_resource c)) (res_path r) = false
  end.
Proof.
  induction claims as [|c claims IH]; simpl.
  - intros [= <-] c Hc. by apply not_elem_of_nil in Hc.
  - case_bool_decide as Ha; simpl.
    + destruct (overlaps _ _) eqn:Hov.
      * case_bool_decide; [|done]. case_bool_decide; [|done]. intros [= <-]. split_and!; try done. by left.
      * intros Hh. specialize (IH Hh). destruct h as [d|]; [destruct IH as (?&?&?&?); split_and!; try done; by right|].
        intros d [->|Hd]%elem_of_cons; [done|by apply IH].
    + intros Hh. specialize (IH Hh). destruct h as [d|]; [destruct IH as (?&?&?&?); split_and!; try done; by right|].
      intros d [->|Hd]%elem_of_cons; [done|by apply IH].
Qed.

Lemma current_Done env c gen (claimant : Claimant T) : _current env c gen claimant = Done () →
  gen = generation c ∧ active c ∧ claim_owner c = claimant_owner claimant ∧
  _resource env (res_kind (claim_resource c)) (res_path (claim_resource c)) = Done (claim_resource c) ∧
  owner_shape (claim_owner c) = true.
Proof.
  unfold _current. destruct (Z.eqb_spec gen (generation c)) as [->|]; [|done]. simpl. case_bool_decide as Ha; [|done]. simpl.
  destruct (validated claimant _) as [o|] eqn:Hv; [|done]. apply validated_Done in Hv as [-> Hs]. simpl.
  case_bool_decide as Ho; [|done]. simpl. destruct (_resource env _ _) as [r|] eqn:Hr; [|done]. simpl.
  case_bool_decide as Hreq; [|done]. intros _. subst r. rewrite Ho. by split_and!.
Qed.
Lemma current_generation (c : claim_row T) gen : negb (generation c =? gen) || negb (bool_decide (claim_status c = "active")) = false →
  gen = generation c ∧ active c.
Proof. rewrite orb_false_iff, !negb_false_iff, Z.eqb_eq, bool_decide_eq_true. intros [<- ?]. done. Qed.

(** The two bodies that replace a row. *)
Lemma replace_change claims id c c' : claims_inv claims → _find claims id = Done c → replaces c c' → advances c c' →
  claims_inv (update_claim id (λ _, c') claims) ∧ change claims (update_claim id (λ _, c') claims).
Proof. intros Hi Hf Hr Ha. split; [by eapply update_inv|by eapply (change_row _ _ id c c')]. Qed.
Lemma transferred_advances env owner reason c : active c → advances c (transferred env owner reason c).
Proof. intros. split; [done|done|]. simpl. by eexists. Qed.
Lemma released_advances at_ actor reason c : active c → advances c (released at_ actor reason c).
Proof. intros. split; [done|done|]. simpl. by eexists. Qed.

(** *** What the calls do *)
Lemma claim_body env claims kind path (claimant : Claimant T) o r a claims' :
  claims_inv claims → validated claimant (now env 0) = Done o → _resource env kind path = Done r →
  hex32 (uuid4_hex env) = true → (∀ c, c ∈ claims → claim_id c ≠ "claim_" +:+ uuid4_hex env) →
  (held ← held_claim r o claims;
   match held with
   | Some c => Done (c, claims)
   | None => let c := new_claim env r o in Done (c, claims ++ [c])
   end) = Done (a, claims') →
  claims_inv claims' ∧ change claims claims' ∧ a ∈ claims' ∧ active a ∧ claim_resource a = r ∧ claim_owner a = o ∧
  (a ∈ claims ∨ claims' = claims ++ [a]).
Proof.
  intros Hinv Hv Hr Hu Hfresh. apply validated_Done in Hv as [-> Ho].
  destruct (held_claim r _ claims) as [h|] eqn:Hh; [|done]. apply held_cases in Hh. simpl.
  destruct h as [c|]; intros [= <- <-].
  - destruct Hh as (Hc & Ha & ? & ?). split_and!; try done; [by constructor|by left].
  - split_and!; try done; [by eapply new_claim_inv|by eapply change_new| |by right].
    apply elem_of_app. right. by left.
Qed.
Lemma transfer_body env claims id gen o reason a claims' : claims_inv claims → owner_shape o = true →
  (c ← _find claims id;
   if negb (generation c =? gen) || negb (bool_decide (claim_status c = "active")) then Raised "stale_generation"
   else r ← _resource env (res_kind (claim_resource c)) (res_path (claim_resource c));
        if negb (bool_decide (r = claim_resource c)) then Raised "resource_changed"
        else let c := transferred env o reason c in Done (c, update_claim id (λ _, c) claims)) = Done (a, claims') →
  claims_inv claims' ∧ change claims claims' ∧ ∃ c, _find claims id = Done c ∧ generation c = gen ∧ active c.
Proof.
  intros Hinv Ho. destruct (_find claims id) as [c|] eqn:Hf; [|done]. simpl.
  destruct (negb _ || negb _) eqn:Hg; [done|]. apply current_generation in Hg as [-> Ha].
  destruct (_resource env _ _) as [r|]; [|done]. simpl. case_bool_decide; [|done]. intros [= <- <-].
  destruct (replace_change claims id c (transferred env o reason c) Hinv Hf) as [??];
    [by apply transferred_replaces|by apply transferred_advances|]. split_and!; try done. by exists c.
Qed.
Lemma release_body env claims id gen (claimant : option (Claimant T)) (operator : bool) reason a claims' : claims_inv claims →
  (c ← _find claims id;
   actor ← (if operator
            then if negb (generation c =? gen) || negb (bool_decide (claim_status c = "active"))
                 then Raised "stale_generation" else Done "operator:local"
            else match claimant with
                 | None => Raised "owner_unqualified"
                 | Some claimant => _ ← _current env c gen claimant; Done (managed_agent_id (claimant_owner claimant))
                 end);
   let c := released (now env (if operator then 0%nat else 1%nat)) actor reason c in Done (c, update_claim id (λ _, c) claims)) =
     Done (a, claims') →
  claims_inv claims' ∧ change claims claims' ∧ ∃ c, _find claims id = Done c ∧ generation c = gen ∧ active c.
Proof.
  intros Hinv. destruct (_find claims id) as [c|] eqn:Hf; [|done]. cbn [mbind result_bind].
  assert (∀ at_ actor, generation c = gen → active c →
    claims_inv (update_claim id (λ _, released at_ actor reason c) claims) ∧
    change claims (update_claim id (λ _, released at_ actor reason c) claims) ∧
    ∃ c, Done (E:=string) c = Done c ∧ generation c = gen ∧ active c) as Hdo.
  { intros at_ actor Hg Ha. destruct (replace_change claims id c (released at_ actor reason c) Hinv Hf) as [??];
      [apply released_replaces|by apply released_advances|]. split_and!; try done. by exists c. }
  destruct operator.
  - destruct (negb _ || negb _) eqn:Hg; [done|]. apply current_generation in Hg as [-> Ha]. intros [= <- <-].
    destruct (Hdo (now env 0) "operator:local" eq_refl Ha) as (?&?&_). split_and!; try done. by exists c.
  - destruct claimant as [claimant|]; [|done]. destruct (_current env c gen claimant) as [[]|] eqn:Hc; [|done].
    apply current_Done in Hc as (-> & Ha & _). intros [= <- <-].
    destruct (Hdo (now env 1) (managed_agent_id (claimant_owner claimant)) eq_refl Ha) as (?&?&_). split_and!; try done. by exists c.
Qed.

(** A transaction whose body keeps the invariant keeps the store's. *)
Lemma transaction_change {A} env write s (body : _ → result string (A * _)) r s' : store_inv s →
  (∀ a claims', body (claims_of s) = Done (a, claims') → claims_inv claims' ∧ change (claims_of s) claims') →
  _transaction env write s body = (r, s') → store_inv s' ∧ change (claims_of s) (claims_of s').
Proof.
  intros Hinv Hbody Ht. destruct (transaction_cases _ _ _ _ _ _ Hinv Ht) as [(? & Heq & _)|(a & claims' & _ & Hb & <- & Hs & _)].
  - split; [done|]. by constructor.
  - destruct (Hbody _ _ Hb) as [Hi Hc]. split; [by apply Hs|done].
Qed.
Lemma call_change s s' : claims_call s s' → store_inv s → store_inv s' ∧ change (claims_of s) (claims_of s').
Proof.
  intros Hcall Hinv. pose proof (store_claims s Hinv) as Hc.
  destruct Hcall as [env kind path claimant r [Hu Hfresh] Hr|env id gen claimant operator reason r Hr|
    env id gen claimant operator reason r Hr|env id gen claimant r Hr|env id r Hr].
  - unfold claim in Hr. destruct (validated claimant _) as [o|] eqn:Hv; [|injection Hr as _ <-; split; [done|by constructor]].
    destruct (_resource env kind path) as [res|] eqn:Hres; [|injection Hr as _ <-; split; [done|by constructor]].
    refine (transaction_change _ _ _ _ _ _ Hinv _ Hr). intros a claims' Hb.
    destruct (claim_body env _ kind path claimant o res a claims' Hc Hv Hres Hu Hfresh Hb) as (?&?&_). done.
  - unfold transfer in Hr. destruct (_operator operator reason) as [reason'|]; [|injection Hr as _ <-; split; [done|by constructor]].
    destruct (validated claimant _) as [o|] eqn:Hv; [|injection Hr as _ <-; split; [done|by constructor]].
    apply validated_Done in Hv as [_ Ho].
    refine (transaction_change _ _ _ _ _ _ Hinv _ Hr). intros a claims' Hb.
    destruct (transfer_body env _ id gen o reason' a claims' Hc Ho Hb) as (?&?&_). done.
  - assert (r = Raised "operator_required" ∧ s' = s ∨ ∃ body, _transaction env true s body = (r, s') ∧
      ∀ a claims', body (claims_of s) = Done (a, claims') → claims_inv claims' ∧ change (claims_of s) claims')
      as [[_ ->]|(body & Ht & Hb)]; [|split; [done|by apply change_none]|exact (transaction_change _ _ _ _ _ _ Hinv Hb Ht)].
    unfold release in Hr. destruct operator; [destruct (_operator true reason) as [reason'|e] eqn:Ho|].
    + right. eexists. split; [exact Hr|]. intros a claims' Hb.
      destruct (release_body env _ id gen claimant true reason a claims' Hc Hb) as (?&?&_). done.
    + left. injection Hr as <- <-. split; [|done]. unfold _operator in Ho. destruct reason; [destruct (_ || _)|]; congruence.
    + right. eexists. split; [exact Hr|]. intros a claims' Hb.
      destruct (release_body env _ id gen claimant false reason a claims' Hc Hb) as (?&?&_). done.
  - refine (transaction_change _ _ _ _ _ _ Hinv _ Hr). intros a claims'. simpl.
    destruct (_find _ id) as [c|]; [|done]. simpl. destruct (_current env c gen claimant); [|done].
    intros [= <- <-]. split; [done|by constructor].
  - refine (transaction_change _ _ _ _ _ _ Hinv _ Hr). intros a claims'. destruct id as [id|]; simpl.
    + destruct (_find _ id) as [c|]; [|done]. intros [= <- <-]. split; [done|by constructor].
    + intros [= <- <-]. split; [done|by constructor].
Qed.
Lemma calls_inv s s' : rtc claims_call s s' → store_inv s → store_inv s'.
Proof. induction 1 as [|s s1 s' Hc _ IH]; [done|]. intros Hi. apply IH. by eapply call_change. Qed.

Definition store_init : store (T:=T) := {| file := Absent; initialized := false |}.
(** No other process holds the lock and the file system works. *)
Definition undisturbed env : Prop := lock_held env = false ∧ ∀ place, io_fails env place = None.

(** No call ever publishes what a later call would refuse to read:
    over any history, whatever fails, the file is absent or holds claims that
    pass the whole shape check within the size limit, so an undisturbed
    transaction opens them; the rows keep one history event per generation
    with a release only at the end. *)
Theorem stored_claims_readable s : rtc claims_call store_init s →
  file s = Absent ∨ ∃ claims, file s = Stored claims ∧ Forall accounted claims ∧
    ∀ env, undisturbed env → open_state env s = (Done claims, s).
Proof.
  intros Hs. pose proof (calls_inv _ _ Hs I) as Hinv. unfold store_inv in Hinv.
  destruct (file s) as [| |claims] eqn:Hf; [by left|done|]. right. exists claims. destruct Hinv as ([Hv _ Hacc] & Hi & Hsize).
  split_and!; try done. intros env [Hl Hio]. unfold open_state, io_try.
  rewrite !Hio, Hl, Hf, (proj2 (Z.leb_le _ _) Hsize), Hv, Hi. by destruct s.
Qed.

(** *** Exclusive custody *)
Lemma guard_Done env id gen (claimant : Claimant T) s x s' : store_inv s → guard env id gen claimant s = (Done x, s') →
  x ∈ claims_of s ∧ claims_of s' = claims_of s ∧ claim_id x = id ∧ generation x = gen ∧ active x ∧
  claim_owner x = claimant_owner claimant ∧
  _resource env (res_kind (claim_resource x)) (res_path (claim_resource x)) = Done (claim_resource x).
Proof.
  intros Hinv Hg. destruct (transaction_cases _ _ _ _ _ _ Hinv Hg) as [(_ & Hcl & Hd)|(? & ? & ? & _)]; [|done].
  destruct (Hd x eq_refl) as (_ & claims' & Hb). destruct (_find (claims_of s) id) as [c|] eqn:Hf; [|done]. simpl in Hb.
  destruct (_current env c gen claimant) as [[]|] eqn:Hc; [|done]. injection Hb as <- _.
  apply find_spec in Hf as [Hid [i Hi]]. apply current_Done in Hc as (-> & Ha & Ho & Hr & _).
  split_and!; try done. by eapply list_elem_of_lookup_2.
Qed.

(** C34 (safety). Custody is exclusive: whatever calls and failures came before,
    two guards that the same store admits on overlapping directories are
    guards of the same claim by its one owner, and each rests on an active
    claim of the exact generation whose directory is still the one claimed. *)
Theorem custody_exclusive s env1 id1 gen1 (claimant1 : Claimant T) x1 s1 env2 id2 gen2 (claimant2 : Claimant T) x2 s2 :
  rtc claims_call store_init s →
  guard env1 id1 gen1 claimant1 s = (Done x1, s1) → guard env2 id2 gen2 claimant2 s = (Done x2, s2) →
  (active x1 ∧ generation x1 = gen1 ∧ directory_at env1 (path_text (parse_path (res_path (claim_resource x1)))) =
     Done (Some (res_device (claim_resource x1), res_inode (claim_resource x1)))) ∧
  (overlaps (res_path (claim_resource x1)) (res_path (claim_resource x2)) = true →
   x1 = x2 ∧ claimant_owner claimant1 = claimant_owner claimant2).
Proof.
  intros Hs Hg Hg'. pose proof (calls_inv _ _ Hs I) as Hinv.
  destruct (guard_Done _ _ _ _ _ _ _ Hinv Hg) as (Hx1 & _ & _ & Hg1 & Ha1 & Ho1 & Hr1).
  destruct (guard_Done _ _ _ _ _ _ _ Hinv Hg') as (Hx2 & _ & _ & _ & Ha2 & Ho2 & _).
  split; [apply resource_Done in Hr1 as (_ & _ & _ & _ & ?); by split_and!|].
  intros Hov. assert (x1 = x2) as ->; [|by rewrite <- Ho1, <- Ho2].
  apply list_elem_of_lookup_1 in Hx1 as [i Hi], Hx2 as [j Hj].
  destruct (decide (i = j)) as [->|Hne]; [congruence|].
  pose proof (ci_exclusive _ (store_claims s Hinv) i j x1 x2 Hne Hi Hj Ha1 Ha2). congruence.
Qed.

(** *** Fencing *)
Record succeeds c c' : Prop := {
  su_id : claim_id c' = claim_id c;
  su_resource : claim_resource c' = claim_resource c;
  su_history : claim_history c `prefix_of` claim_history c';
  su_generation : generation c ≤ generation c';
  su_same : generation c' = generation c ∨ ¬ active c → c' = c;
}.
Lemma succeeds_refl c : succeeds c c.
Proof. by split. Qed.
Lemma succeeds_trans c1 c2 c3 : succeeds c1 c2 → succeeds c2 c3 → succeeds c1 c3.
Proof.
  intros [I1 R1 H1 G1 S1] [I2 R2 H2 G2 S2]. split; [congruence|congruence|by etrans|lia|].
  intros Hc. assert (c2 = c1) as -> by (apply S1; destruct Hc; [left; lia|by right]). by apply S2.
Qed.
Lemma change_succeeds claims claims' c : NoDup (claim_id <$> claims) → change claims claims' → c ∈ claims →
  ∃ c', c' ∈ claims' ∧ succeeds c c'.
Proof.
  intros Hnd [->|d ->|id d d' Hf Hr Ha ->] Hc; [exists c; split; [done|apply succeeds_refl]|..].
  - exists c. split; [apply elem_of_app; by left|apply succeeds_refl].
  - rewrite (update_find _ _ d) by done. exists (if bool_decide (claim_id c = id) then d' else c). split.
    + apply list_elem_of_fmap. by exists c.
    + case_bool_decide as Hid; [|apply succeeds_refl].
      pose proof (find_unique _ _ Hnd Hc) as Hf'. rewrite Hid in Hf'. assert (d = c) as -> by congruence.
      destruct Ha as [Hact Hgen Hh]. split; [apply Hr|apply Hr|done|lia|]. intros [?|?]; [lia|done].
Qed.
Lemma calls_succeed s s' c : rtc claims_call s s' → store_inv s → c ∈ claims_of s →
  ∃ c', c' ∈ claims_of s' ∧ succeeds c c'.
Proof.
  intros Hs. revert c. induction Hs as [s|s s1 s' Hcall _ IH]; intros c Hinv Hc; [exists c; split; [done|apply succeeds_refl]|].
  destruct (call_change _ _ Hcall Hinv) as [Hinv1 Hch].
  pose proof (store_claims s Hinv) as [Hv _ _]. apply validate_spec in Hv as (Hnd & _).
  destruct (change_succeeds _ _ c Hnd Hch Hc) as (c1 & Hc1 & Hs1).
  destruct (IH c1 Hinv1 Hc1) as (c2 & Hc2 & Hs2). exists c2. split; [done|by eapply succeeds_trans].
Qed.
Lemma admitted_row s s' c : rtc claims_call s s' → store_inv s → c ∈ claims_of s →
  (∃ d, _find (claims_of s') (claim_id c) = Done d ∧ generation d = generation c ∧ active d) → active c ∧ c ∈ claims_of s'.
Proof.
  intros Hs Hinv Hc (d & Hf & Hg & Ha). destruct (calls_succeed _ _ _ Hs Hinv Hc) as (c' & Hc' & Hsu).
  pose proof (store_claims s' (calls_inv _ _ Hs Hinv)) as [Hv _ _]. apply validate_spec in Hv as (Hnd & _).
  pose proof (find_unique _ _ Hnd Hc') as Hf'. rewrite (su_id _ _ Hsu) in Hf'. assert (d = c') as -> by congruence.
  assert (c' = c) as -> by (apply (su_same _ _ Hsu); by left). done.
Qed.

(** C35 (safety). Generations fence old owners.  Once a claim was seen, no later
    guard, transfer or release of it with the generation seen goes through,
    in whatever later store, unless the row is still exactly the one seen and
    active; so a transferred or released claim never obeys its old holder,
    and a released one obeys nobody. *)
Theorem generation_fence s s' c : rtc claims_call store_init s → rtc claims_call s s' → c ∈ claims_of s →
  ¬ (active c ∧ c ∈ claims_of s') →
  (∀ env claimant, ∃ e, (guard env (claim_id c) (generation c) claimant s').1 = Raised e) ∧
  (∀ env claimant operator reason, ∃ e, (transfer env (claim_id c) (generation c) claimant operator reason s').1 = Raised e) ∧
  (∀ env claimant operator reason, ∃ e, (release env (claim_id c) (generation c) claimant operator reason s').1 = Raised e).
Proof.
  intros Hreach Hs Hc Hgone. pose proof (calls_inv _ _ Hreach I) as Hinv0. pose proof (calls_inv _ _ Hs Hinv0) as Hinv.
  pose proof (store_claims s' Hinv) as Hci.
  assert (∀ A (env : Env) (body : _ → result string (A * _)), (∀ a claims', body (claims_of s') = Done (a, claims') →
      ∃ d, _find (claims_of s') (claim_id c) = Done d ∧ generation d = generation c ∧ active d) →
    ∀ write, ∃ e, (_transaction env write s' body).1 = Raised e) as Hrefuse.
  { intros A env body Hbody write. destruct (_transaction env write s' body) as [r s''] eqn:Ht.
    destruct r as [a|e]; [|by exists e]. destruct Hgone. apply (admitted_row s); [done..|].
    destruct (transaction_cases _ _ _ _ _ _ Hinv Ht) as [(_ & _ & Hd)|(a' & claims' & _ & Hb & _)]; [|by eapply Hbody].
    destruct (Hd a eq_refl) as (_ & claims' & Hb). by eapply Hbody. }
  split_and!; intros env claimant.
  - apply Hrefuse. intros x claims'. destruct (_find _ _) as [d|]; [|done]. simpl.
    destruct (_current env d _ claimant) as [[]|] eqn:Hcur; [|done]. intros _. apply current_Done in Hcur as (-> & Ha & _). eauto.
  - intros operator reason. unfold transfer. destruct (_operator operator reason) as [reason'|]; [|by eexists].
    destruct (validated claimant _) as [o|] eqn:Hv; [|by eexists]. apply validated_Done in Hv as [_ Ho].
    apply Hrefuse. intros x claims' Hb. by destruct (transfer_body env _ _ _ o reason' x claims' Hci Ho Hb) as (_ & _ & ?).
  - intros operator reason. unfold release. destruct operator; [destruct (_operator true reason); [|by eexists]|].
    + apply Hrefuse. intros x claims' Hb.
      by destruct (release_body env _ _ _ claimant true reason x claims' Hci Hb) as (_ & _ & ?).
    + apply Hrefuse. intros x claims' Hb.
      by destruct (release_body env _ _ _ claimant false reason x claims' Hci Hb) as (_ & _ & ?).
Qed.

(** *** Claiming once *)
Lemma held_last r o claims x : (∀ c, c ∈ claims → active c → overlaps (res_path (claim_resource c)) (res_path r) = false) →
  active x → claim_resource x = r → claim_owner x = o → held_claim r o (claims ++ [x]) = Done (Some x).
Proof.
  intros Hfree Hx <- <-. induction claims as [|c claims IH]; simpl.
  - rewrite (bool_decide_true (claim_status x = "active")) by done. simpl. unfold overlaps. rewrite is_relative_to_refl. simpl.
    by rewrite !bool_decide_true.
  - case_bool_decide as Ha; simpl; [rewrite Hfree by (done || by left)|]; apply IH; intros d Hd; apply Hfree; by right.
Qed.
Lemma claims_file s : claims_of s ≠ [] → file s = Stored (claims_of s).
Proof. unfold claims_of. by destruct (file s). Qed.

(** (error). A claim whose call fails is either not made or made once.  Any
    error but that of the flush after the file was replaced leaves the claims
    as they were; and when a call changed them, whatever it answered, the same
    call again (same binding, same directory, nothing disturbed) answers the
    one claim that was added, active and owned by the claimant, and leaves the
    store as it is. *)
Theorem claim_once env kind path claimant s r s' : rtc claims_call store_init s → fresh_uuid env s →
  claim env kind path claimant s = (r, s') →
  (∀ e, r = Raised e → io_fails env "sync" = None → claims_of s' = claims_of s) ∧
  (claims_of s' ≠ claims_of s → ∃ x, claims_of s' = claims_of s ++ [x] ∧ active x ∧
     claim_owner x = claimant_owner claimant ∧
     ∀ env' : Env, undisturbed env' → validated claimant (now env' 0) = Done (claim_owner x) →
       directory_at env' (path_text (parse_path path)) = directory_at env (path_text (parse_path path)) →
       claim env' kind path claimant s' = (Done x, s')).
Proof.
  intros Hs [Hu Hfresh] Hr. pose proof (calls_inv _ _ Hs I) as Hinv. pose proof (store_claims s Hinv) as Hc.
  unfold claim in Hr. destruct (validated claimant (now env 0)) as [o|] eqn:Hv; [|by injection Hr as <- <-].
  destruct (_resource env kind path) as [res|] eqn:Hres; [|by injection Hr as <- <-].
  destruct (transaction_cases _ _ _ _ _ _ Hinv Hr) as [(_ & -> & _)|(a & claims' & _ & Hb & Heq & Hstore & Hans)]; [done|].
  destruct (claim_body env _ kind path claimant o res a claims' Hc Hv Hres Hu Hfresh Hb) as (Hc' & _ & _ & Ha & Har & Hao & Hcase).
  split; [intros e -> Hsync; destruct Hans as [|(e' & _ & He)]; congruence|]. rewrite Heq. intros Hne.
  apply validated_Done in Hv as [-> Hshape].
  assert (claims' = claims_of s ++ [a]) as ->.
  { destruct Hcase as [Hin|]; [|done]. destruct (held_claim res _ (claims_of s)) as [[c|]|] eqn:Hh; [|..|done].
    - by injection Hb as _ <-.
    - by injection Hb as <- <-. }
  exists a. split_and!; try done. intros env' [Hlock Hio] Hv' Hdir. rewrite Hao in Hv'. unfold claim. rewrite Hv'.
  assert (_resource env' kind path = Done res) as ->.
  { unfold _resource in Hres |- *. by rewrite Hdir. }
  assert (file s' = Stored (claims_of s ++ [a])) as Hfile.
  { rewrite <- Heq. apply claims_file. rewrite Heq. by destruct (claims_of s). }
  pose proof (Hstore Hc') as Hinv'. unfold store_inv in Hinv'. rewrite Hfile in Hinv'. destruct Hinv' as ([Hval _ _] & Hi & Hsize).
  unfold _transaction, open_state, io_try. rewrite !Hio, Hlock, Hfile, (proj2 (Z.leb_le _ _) Hsize), Hval, Hi. cbn [negb orb].
  assert (held_claim res (claimant_owner claimant) (claims_of s ++ [a]) = Done (Some a)) as ->.
  { apply held_last; try done. destruct (held_claim res _ (claims_of s)) as [[c|]|] eqn:Hh; [| |done].
    - injection Hb as _ Hb. by destruct Hne.
    - by apply held_cases in Hh. }
  simpl. unfold _publish, io_try. rewrite (proj2 (Z.ltb_ge _ _) Hsize), !Hio.
  destruct s' as [f i]. simpl in *. by subst.
Qed.
End Invariant.

(** ** A concrete history *)
Definition demo_process : process := {| pid := 42; start_ticks := 7; boot_id := "boot" |}.
Definition demo_owner (digit : string) : owner_binding :=
  {| managed_agent_id := "agent_" +:+ "0123456789abcdef0123456789abcde" +:+ digit; owner_root := "/wakes"; owner_process := demo_process |}.
Definition demo_claimant (digit : string) : Claimant Z := {| claimant_owner := demo_owner digit; claimant_observed_at := 100 |}.
Definition demo_env (uuid : string) (fails : string → option string) : Env (T:=Z) :=
  {| now n := 110 + Z.of_nat n; uuid4_hex := uuid; directory_at path := if bool_decide (path = "/work/tree") then Done (Some (1, 7))
       else if bool_decide (path = "/work/tree/sub") then Done (Some (1, 8)) else Raised "OSError";
     lock_held := false; io_fails := fails |}.
Definition demo_uuid : string := "fedcba9876543210fedcba9876543210".
Definition calm : Env := demo_env demo_uuid (λ _, None).
(** The directory is not flushed after the replacement. *)
Definition torn : Env := demo_env demo_uuid (λ place, if bool_decide (place = "sync") then Some "OSError" else None).
Definition demo_marked : store (T:=Z) := {| file := Stored []; initialized := true |}.
Definition demo_claimed : store (T:=Z) := (claim calm "worktree" "/work/tree/" (demo_claimant "1") demo_marked).2.
Definition demo_row : claim_row Z := new_claim calm {| res_kind := "worktree"; res_path := "/work/tree"; res_device := 1; res_inode := 7 |} (demo_owner "1").
Definition demo_moved : store (T:=Z) :=
  (transfer calm (claim_id demo_row) 1 (demo_claimant "2") true (Some "handover") demo_claimed).2.

Lemma demo_marks : rtc claims_call store_init demo_marked.
Proof. apply rtc_once. by eapply (call_inspect _ _ calm None). Qed.
Lemma demo_calm_fresh : fresh_uuid calm demo_marked.
Proof. split; [done|]. intros c Hc. by apply not_elem_of_nil in Hc. Qed.
Lemma demo_claims : rtc claims_call store_init demo_claimed.
Proof.
  eapply rtc_r; [apply demo_marks|]. eapply (call_claim _ _ calm); [apply demo_calm_fresh|]. apply surjective_pairing.
Qed.
Lemma demo_moves : rtc claims_call demo_claimed demo_moved.
Proof. apply rtc_once. eapply (call_transfer _ _ calm). apply surjective_pairing. Qed.

Lemma calm_undisturbed : undisturbed calm.
Proof. done. Qed.
Lemma stored_claims_readable_witness : open_state calm demo_claimed = (Done [demo_row], demo_claimed).
Proof.
  destruct (stored_claims_readable demo_claimed demo_claims) as [Habs|(claims & Hf & _ & Hopen)]; [by vm_compute in Habs|].
  assert (file demo_claimed = Stored [demo_row]) as Heq by (vm_compute; reflexivity).
  rewrite Heq in Hf. injection Hf as <-. exact (Hopen calm calm_undisturbed).
Defined.
(** Two guards of the same directory by the one owner, and none by another. *)
Lemma custody_exclusive_witness : active demo_row ∧ generation demo_row = 1 ∧ demo_row = demo_row ∧
  ∃ e, (guard calm (claim_id demo_row) 1 (demo_claimant "2") demo_claimed).1 = Raised e.
Proof.
  assert (guard calm (claim_id demo_row) 1 (demo_claimant "1") demo_claimed = (Done demo_row, demo_claimed)) as H1
    by (vm_compute; reflexivity).
  destruct (custody_exclusive demo_claimed calm (claim_id demo_row) 1 (demo_claimant "1") demo_row demo_claimed
    calm (claim_id demo_row) 1 (demo_claimant "1") demo_row demo_claimed demo_claims H1 H1) as ((Ha & Hg & _) & Hsame).
  split; [exact Ha|]. split; [exact Hg|]. split; [|eexists; vm_compute; reflexivity].
  apply Hsame. vm_compute. reflexivity.
Defined.
Lemma generation_fence_witness : ∃ e, (guard calm (claim_id demo_row) 1 (demo_claimant "1") demo_moved).1 = Raised e.
Proof.
  destruct (generation_fence demo_claimed demo_moved demo_row demo_claims demo_moves) as [H _].
  - vm_compute. by left.
  - assert (claims_of demo_moved = [transferred calm (demo_owner "2") "handover" demo_row]) as -> by (vm_compute; reflexivity).
    intros [_ Hin%list_elem_of_singleton]. apply (f_equal generation) in Hin. vm_compute in Hin. congruence.
  - apply H.
Defined.
Lemma claim_once_witness :
  (claim torn "worktree" "/work/tree" (demo_claimant "1") demo_marked).1 = Raised "OSError" ∧
  claim calm "worktree" "/work/tree" (demo_claimant "1") (claim torn "worktree" "/work/tree" (demo_claimant "1") demo_marked).2 =
    (Done demo_row, (claim torn "worktree" "/work/tree" (demo_claimant "1") demo_marked).2).
Proof.
  split; [vm_compute; reflexivity|].
  destruct (claim_once torn "worktree" "/work/tree" (demo_claimant "1") demo_marked
    (claim torn "worktree" "/work/tree" (demo_claimant "1") demo_marked).1
    (claim torn "worktree" "/work/tree" (demo_claimant "1") demo_marked).2 demo_marks) as [_ H].
  - split; [done|]. intros c Hc. by apply not_elem_of_nil in Hc.
  - apply surjective_pairing.
  - destruct H as (x & Hx & _ & Ho & Hretry); [by vm_compute|].
    assert (x = demo_row) as ->.
    { assert (claims_of (claim torn "worktree" "/work/tree" (demo_claimant "1") demo_marked).2 = [demo_row]) as Heq
        by (vm_compute; reflexivity). rewrite Heq in Hx. by injection Hx. }
    apply Hretry; [done|vm_compute; reflexivity|vm_compute; reflexivity].
Defined.
