(* ===== verification/ObjectiveLedger.v ===== *)
(** * The objective ledger (src/src/codex_wake/objective_ledger.py)

    Cumulative accounting of one objective: token and time limits, the
    reservations and usage of its actors, request sessions, protected
    completion obligations, and the history of authorizations.  The file
    translates every operation as a function on the stored state that answers
    the view, or raises and leaves the file alone; [transaction] adds the lock
    and the replacement of the file.  The view carries what the code computes
    (the copies of stored fields it also returns are left out). *)
From S2P Require Import Prelude Json Sha256 Datetime Timestamps.
Open Scope Z_scope.

(** ** Values *)
Section Ledger.
Context {T : Type} `{Timestamp T}.

(** A timestamp argument or configuration value: a number or an ISO text. *)
Inductive time_value := Number (t : T) | Text (s : string).
Definition _epoch (v : time_value) : result string T :=
  match v with
  | Number t => Done t
  | Text s => match t_of_text s with Some t => Done t | None => Raised "ValueError" end
  end.
Definition time_eqb (a b : time_value) : bool :=
  match a, b with
  | Number x, Number y => t_leb x y && t_leb y x
  | Text x, Text y => bool_decide (x = y)
  | _, _ => false
  end.
Definition _count (n : Z) : result string Z := if n <? 0 then Raised "ValueError" else Done n.

Record config := {
  revision : json;
  objective_token_limit : Z;
  objective_time_limit_seconds : Z;
  session_token_limit : Z;
  session_time_limit_seconds : Z;
  max_correction_cycles : Z;
  started_at : time_value;
  objective_deadline : time_value;
  other_settings : json;
}.
Definition config_eqb (a b : config) : bool :=
  json_py_eqb (revision a) (revision b) && (objective_token_limit a =? objective_token_limit b) &&
  (objective_time_limit_seconds a =? objective_time_limit_seconds b) && (session_token_limit a =? session_token_limit b) &&
  (session_time_limit_seconds a =? session_time_limit_seconds b) && (max_correction_cycles a =? max_correction_cycles b) &&
  time_eqb (started_at a) (started_at b) && time_eqb (objective_deadline a) (objective_deadline b) &&
  json_py_eqb (other_settings a) (other_settings b).
Definition _configuration (c : config) : result string config :=
  _ ← _count (objective_token_limit c); _ ← _count (objective_time_limit_seconds c);
  _ ← _count (session_token_limit c); _ ← _count (session_time_limit_seconds c); _ ← _count (max_correction_cycles c);
  if negb (json_truthy (revision c)) || (2 <? max_correction_cycles c) then Raised "ValueError"
  else started ← _epoch (started_at c); deadline ← _epoch (objective_deadline c);
       if t_ltb deadline started then Raised "ValueError" else Done c.

(** The terms of a reservation: tokens and seconds, or a native goal's quota. *)
Inductive terms := Tokens (tokens seconds : Z) | NativeGoal (quota : Z).
Definition terms_eqb (a b : terms) : bool :=
  match a, b with
  | Tokens x y, Tokens x' y' => (x =? x') && (y =? y')
  | NativeGoal x, NativeGoal x' => x =? x'
  | _, _ => false
  end.
Record actor := {
  actor_terms : option terms;
  reservation : Z;
  used : Z;
  settled : bool;
  known : bool;
  session_deadline : option T;
  request_thread : option string;
  completion_obligation : option string;
}.
Record session := {
  session_prior_tokens : Z;
  deadline : T;
  parent_thread_id : option string;
  provenance : option json;
  continuation_group : option string;
  session_obligation : option string;
}.
Record pinned_source := { source_path : string; source_sha256 : string }.
Record obligation := {
  obligation_kind : string;
  obligation_tokens : Z;
  obligation_seconds : Z;
  criterion : string;
  obligation_state : string;
  disposition : option (string * pinned_source * string);
  started : bool;
}.
Record plan := { plan_source : pinned_source; obligations : gmap string obligation }.
Record authorization := { auth_action : string; auth_configuration : config; auth_approval : json; auth_at : T }.
Record completion_event := {
  ce_action : string; ce_thread : option string; ce_obligation : string; ce_source : pinned_source; ce_note : option string; ce_at : T;
}.
Record proof := { proof_actor : string; proof_tokens : option Z; proof_fingerprint : json }.
Record alias := { alias_actor : string; preflight_tokens : Z }.

Record ledger := {
  configuration : config;
  original_deadline : time_value;
  prior_tokens : Z;
  actors : gmap string actor;
  correction_cycles : Z;
  authorization_history : list authorization;
  observed_at : option T;
  correction_decisions : gmap string bool;
  goal_aliases : gmap string alias;
  request_binding : json;
  request_sessions : gmap string session;
  request_completions : gmap string proof;
  completion_plan : option plan;
  completion_history : list completion_event;
}.

(** ** Updates of one field *)
Definition set_actors x (l : ledger) : ledger := {|
  configuration := configuration l; original_deadline := original_deadline l; prior_tokens := prior_tokens l; actors := x;
  correction_cycles := correction_cycles l; authorization_history := authorization_history l; observed_at := observed_at l;
  correction_decisions := correction_decisions l; goal_aliases := goal_aliases l; request_binding := request_binding l;
  request_sessions := request_sessions l; request_completions := request_completions l; completion_plan := completion_plan l;
  completion_history := completion_history l |}.
Definition set_observed x (l : ledger) : ledger := {|
  configuration := configuration l; original_deadline := original_deadline l; prior_tokens := prior_tokens l; actors := actors l;
  correction_cycles := correction_cycles l; authorization_history := authorization_history l; observed_at := x;
  correction_decisions := correction_decisions l; goal_aliases := goal_aliases l; request_binding := request_binding l;
  request_sessions := request_sessions l; request_completions := request_completions l; completion_plan := completion_plan l;
  completion_history := completion_history l |}.
Definition set_corrections cycles decisions (l : ledger) : ledger := {|
  configuration := configuration l; original_deadline := original_deadline l; prior_tokens := prior_tokens l; actors := actors l;
  correction_cycles := cycles; authorization_history := authorization_history l; observed_at := observed_at l;
  correction_decisions := decisions; goal_aliases := goal_aliases l; request_binding := request_binding l;
  request_sessions := request_sessions l; request_completions := request_completions l; completion_plan := completion_plan l;
  completion_history := completion_history l |}.
Definition set_authorized c history (l : ledger) : ledger := {|
  configuration := c; original_deadline := original_deadline l; prior_tokens := prior_tokens l; actors := actors l;
  correction_cycles := correction_cycles l; authorization_history := history; observed_at := observed_at l;
  correction_decisions := correction_decisions l; goal_aliases := goal_aliases l; request_binding := request_binding l;
  request_sessions := request_sessions l; request_completions := request_completions l; completion_plan := completion_plan l;
  completion_history := completion_history l |}.
Definition set_aliases x (l : ledger) : ledger := {|
  configuration := configuration l; original_deadline := original_deadline l; prior_tokens := prior_tokens l; actors := actors l;
  correction_cycles := correction_cycles l; authorization_history := authorization_history l; observed_at := observed_at l;
  correction_decisions := correction_decisions l; goal_aliases := x; request_binding := request_binding l;
  request_sessions := request_sessions l; request_completions := request_completions l; completion_plan := completion_plan l;
  completion_history := completion_history l |}.
Definition set_requests binding sessions completions (l : ledger) : ledger := {|
  configuration := configuration l; original_deadline := original_deadline l; prior_tokens := prior_tokens l; actors := actors l;
  correction_cycles := correction_cycles l; authorization_history := authorization_history l; observed_at := observed_at l;
  correction_decisions := correction_decisions l; goal_aliases := goal_aliases l; request_binding := binding;
  request_sessions := sessions; request_completions := completions; completion_plan := completion_plan l;
  completion_history := completion_history l |}.
Definition set_sessions x (l : ledger) : ledger := set_requests (request_binding l) x (request_completions l) l.
Definition set_plan p history (l : ledger) : ledger := {|
  configuration := configuration l; original_deadline := original_deadline l; prior_tokens := prior_tokens l; actors := actors l;
  correction_cycles := correction_cycles l; authorization_history := authorization_history l; observed_at := observed_at l;
  correction_decisions := correction_decisions l; goal_aliases := goal_aliases l; request_binding := request_binding l;
  request_sessions := request_sessions l; request_completions := request_completions l; completion_plan := p;
  completion_history := history |}.

(** ** Accounting *)
Definition sum_over {A} (f : string → A → Z) (m : gmap string A) : Z := map_fold (λ k a z, f k a + z) 0 m.
(** Tokens an actor is charged: its usage once settled, its reservation at least until then. *)
Definition held (a : actor) : Z := if settled a then 0 else Z.max 0 (reservation a - used a).
Definition charged (a : actor) : Z := if settled a then used a else Z.max (reservation a) (used a).
Definition tokens_used (l : ledger) : Z := prior_tokens l + sum_over (λ _, used) (actors l).
Definition tokens_reserved (l : ledger) : Z := sum_over (λ _, held) (actors l).
Definition accounting_known (l : ledger) : bool := bool_decide (map_Forall (λ _ a, known a = true) (actors l)).
Definition remaining_tokens (l : ledger) : Z :=
  Z.max 0 (objective_token_limit (configuration l) - tokens_used l - tokens_reserved l).
(** [max(now, state.get('observed_at', now))] *)
Definition latest (l : ledger) (now : T) : T := match observed_at l with Some o => t_max now o | None => now end.

(** [state['observed_at']], which [_observe] has set. *)
Definition observed_time (l : ledger) (now : T) : T := default now (observed_at l).

(** [_completion_status] *)
Record obligation_status := { os_protected_tokens : Z; os_protected_seconds : Z; os_state : string }.
Record completion_status := {
  cs_obligations : gmap string obligation_status;
  cs_protected_tokens : Z;
  cs_protected_seconds : Z;
  cs_pending : bool;
  cs_deferred : bool;
  cs_deadline : T;
  cs_from : T;
  cs_feasible : bool;
}.
Definition terms_seconds (a : actor) : Z := match actor_terms a with Some (Tokens _ s) => s | _ => 0 end.
Definition for_obligation (name : string) (a : actor) : bool := bool_decide (completion_obligation a = Some name).
Definition obligation_charged (l : ledger) (name : string) : Z :=
  sum_over (λ _ a, if for_obligation name a then charged a else 0) (actors l).
Definition obligation_charged_seconds (l : ledger) (name : string) : Z :=
  sum_over (λ _ a, if for_obligation name a then terms_seconds a else 0) (actors l).
Definition status_of (l : ledger) (name : string) (o : obligation) : obligation_status :=
  let closed := bool_decide (obligation_state o = "completed") in
  {| os_protected_tokens := if closed then 0 else Z.max 0 (obligation_tokens o - obligation_charged l name);
     os_protected_seconds := if closed then 0 else Z.max 0 (obligation_seconds o - obligation_charged_seconds l name);
     os_state := obligation_state o |}.
(** The deadline of the objective and of the sessions that work on pending obligations. *)
Definition works_on_pending (p : plan) (s : session) : bool :=
  match session_obligation s ≫= (obligations p !!.) with
  | Some o => negb (bool_decide (obligation_state o = "completed"))
  | None => false
  end.
Definition completion_deadline (l : ledger) (p : plan) (objective : T) : T :=
  foldl t_min objective (deadline <$> List.filter (works_on_pending p) (map_to_list (request_sessions l)).*2).
Definition _completion_status (l : ledger) (now objective : T) : option completion_status :=
  p ← completion_plan l;
  let obs := map_imap (λ name o, Some (status_of l name o)) (obligations p) in
  let tokens := sum_over (λ _, os_protected_tokens) obs in
  let seconds := sum_over (λ _, os_protected_seconds) obs in
  let d := completion_deadline l p objective in
  Some {| cs_obligations := obs; cs_protected_tokens := tokens; cs_protected_seconds := seconds;
          cs_pending := existsb (λ o, negb (bool_decide (os_state o = "completed"))) (map_to_list obs).*2;
          cs_deferred := existsb (λ o, bool_decide (os_state o = "deferred")) (map_to_list obs).*2;
          cs_deadline := d; cs_from := latest l now;
          cs_feasible := accounting_known l && (tokens <=? remaining_tokens l) && t_room d (latest l now) seconds |}.
Definition outcome (c : completion_status) : string :=
  if negb (cs_pending c) then "obligations_completed"
  else if negb (cs_feasible c) || cs_deferred c then "checkpoint_required" else "pending".

Record view := {
  v_tokens_used : Z;
  v_tokens_reserved : Z;
  v_remaining_tokens : Z;
  v_accounting_known : bool;
  v_state : string;
  v_exhausted : bool;
  v_now : T;
  v_deadline : T;
  v_completion : option completion_status;
}.
Definition ready (v : view) : bool := bool_decide (v_state v = "ready").
(** What a call answers: the view, [admitted], and the reason of a refusal. *)
Notation answer := (view * option bool * option string)%type.
Definition view_of (l : ledger) (t d : T) : view :=
  let expired := t_leb d (latest l t) in
  {| v_tokens_used := tokens_used l; v_tokens_reserved := tokens_reserved l; v_remaining_tokens := remaining_tokens l;
     v_accounting_known := accounting_known l;
     v_state := if negb (accounting_known l) then "accounting_unknown"
                else if expired || (remaining_tokens l =? 0) then "exhausted" else "ready";
     v_exhausted := expired || (objective_token_limit (configuration l) <=? tokens_used l + tokens_reserved l);
     v_now := t; v_deadline := d; v_completion := _completion_status l t d |}.
Definition _view (l : ledger) (now : time_value) : result string view :=
  t ← _epoch now; d ← _epoch (objective_deadline (configuration l)); Done (view_of l t d).

(** [_observe], then what an operation does first to an empty state: a
    [KeyError] on its configuration. *)
Definition _observe (l : ledger) (now : time_value) : result string ledger :=
  t ← _epoch now; Done (set_observed (Some (latest l t)) l).
Definition observed (s : option ledger) (now : time_value) : result string ledger :=
  match s with
  | Some l => _observe l now
  | None => _ ← _epoch now; Raised "KeyError"
  end.
Definition configured (s : option ledger) (now : time_value) : result string ledger :=
  match s with
  | Some l => Done l
  | None => _ ← _epoch now; Raised "ValueError"
  end.
Definition viewed (l : ledger) (now : time_value) (admitted : option bool) (reason : option string) :
    result string (answer * ledger) :=
  v ← _view l now; Done ((v, admitted, reason), l).

(** ** The surroundings of a call *)
(** The places of the file handling that raise ("open" for the directory and
    the lock, "read" for the stored text, "write" up to the replacement of the
    file, "sync" for the directory after it), and what a completion source is:
    whether its path is canonical, and, opened, whether it is a regular file of
    the caller, its size and its bytes. *)
Record Env := {
  io_fails : string → option string;
  canonical : string → result string bool;
  open_source : string → result string (bool * Z * string);
}.
Definition io (env : Env) (place : string) : result string () :=
  match io_fails env place with Some e => Raised e | None => Done () end.

Definition MEGABYTE : Z := 1024 * 1024.
Definition _completion_source (env : Env) (source : pinned_source) : result string pinned_source :=
  let path := parse_path (source_path source) in
  if negb (is_absolute path) then Raised "ValueError"
  else canon ← canonical env (path_text path);
  if negb canon then Raised "ValueError"
  else opened ← open_source env (path_text path);
  let '(regular, size, raw) := opened in
  if negb regular || (MEGABYTE <? size) then Raised "ValueError"
  else if (MEGABYTE <? Z.of_nat (String.length raw)) || negb (bool_decide (sha256 raw = source_sha256 source))
  then Raised "ValueError" else Done source.
#[export] Instance pinned_source_eq_dec : EqDecision pinned_source.
Proof. solve_decision. Defined.

(** [with self._transaction(write=...) as state]. *)
Definition _transaction {A} (env : Env) (write : bool) (s : option ledger)
    (body : option ledger → result string (A * ledger)) : result string A * option ledger :=
  match (_ ← io env "open"; _ ← io env "read"; body s) with
  | Raised e => (Raised e, s)
  | Done (a, l) =>
    if write then
      match io env "write" with
      | Raised e => (Raised e, s)
      | Done _ => match io env "sync" with Raised e => (Raised e, Some l) | Done _ => (Done a, Some l) end
      end
    else (Done a, s)
  end.

(** ** Configuration *)
Definition initial_ledger (c : config) (approval : json) (prior : Z) (at_ : T) : ledger := {|
  configuration := c; original_deadline := objective_deadline c; prior_tokens := prior; actors := ∅; correction_cycles := 0;
  authorization_history := [{| auth_action := "initial"; auth_configuration := c; auth_approval := approval; auth_at := at_ |}];
  observed_at := None; correction_decisions := ∅; goal_aliases := ∅; request_binding := JNull; request_sessions := ∅;
  request_completions := ∅; completion_plan := None; completion_history := [] |}.
Definition configure_body (c : config) (approval : json) (prior : Z) (now : time_value) (s : option ledger) :
    result string (answer * ledger) :=
  l ← match s with
      | Some l => if config_eqb (configuration l) c then Done l else Raised "ValueError"
      | None => at_ ← _epoch now; Done (initial_ledger c approval prior at_)
      end;
  l ← _observe l now;
  viewed l now None None.
Definition configure (env : Env) (c : config) (approval : json) (prior : Z) (now : time_value) (s : option ledger) :
    result string answer * option ledger :=
  match (c ← _configuration c; if json_truthy approval then _ ← _count prior; Done c else Raised "ValueError") with
  | Raised e => (Raised e, s)
  | Done c => _transaction env true s (configure_body c approval prior now)
  end.
Definition view_ledger (env : Env) (now : time_value) (s : option ledger) : result string answer * option ledger :=
  _transaction env true s (λ s, l ← observed s now; viewed l now None None).
Definition inspect (env : Env) (now : time_value) (s : option ledger) : result string answer * option ledger :=
  _transaction env false s (λ s, l ← configured s now; viewed l now None None).

(** [any(not actor['settled'] or not actor['known'] ...)] over some of the actors. *)
Definition some_unsettled (p : actor → bool) (l : ledger) : bool :=
  existsb (λ a, p a && (negb (settled a) || negb (known a))) (map_to_list (actors l)).*2.
Definition _authorize_body (c : config) (approval : json) (action : string) (now : time_value) (s : option ledger) :
    result string (answer * ledger) :=
  l ← observed s now;
  _ ← _view l now;
  let previous := configuration l in
  match last (authorization_history l) with
  | None => Raised "IndexError"
  | Some prior =>
    if config_eqb c previous && bool_decide (auth_action prior = action) && json_py_eqb (auth_approval prior) approval
    then viewed l now None None
    else deadline ← _epoch (objective_deadline c);
    old ← _epoch (objective_deadline previous);
    if json_py_eqb (revision c) (revision previous) || negb (time_eqb (started_at c) (started_at previous)) ||
       (bool_decide (action = "extend") &&
        ((objective_token_limit c <? objective_token_limit previous) || t_ltb deadline old))
    then Raised "ValueError"
    else if bool_decide (action = "reset") && some_unsettled (λ _, true) l then Raised "ValueError"
    else at_ ← _epoch now;
    viewed (set_authorized c (authorization_history l ++
      [{| auth_action := action; auth_configuration := c; auth_approval := approval; auth_at := at_ |}]) l) now None None
  end.
Definition _authorize (env : Env) (c : config) (approval : json) (action : string) (now : time_value) (s : option ledger) :
    result string answer * option ledger :=
  match (c ← _configuration c; if json_truthy approval then Done c else Raised "ValueError") with
  | Raised e => (Raised e, s)
  | Done c => _transaction env true s (_authorize_body c approval action now)
  end.
Definition extend env c approval := _authorize env c approval "extend".
Definition reset env c approval := _authorize env c approval "reset".

(** ** Lifecycle reservations *)
Definition new_actor (tokens seconds : Z) (d : T) : actor := {|
  actor_terms := Some (Tokens tokens seconds); reservation := tokens; used := 0; settled := false; known := true;
  session_deadline := Some d; request_thread := None; completion_obligation := None |}.
(** A repeated reservation: still admitted, unless its terms changed. *)
Definition readmit (l : ledger) (v : view) (now : T) (a : actor) : result string bool :=
  if v_accounting_known v && (v_tokens_used v + v_tokens_reserved v <=? objective_token_limit (configuration l)) &&
     negb (settled a) && (used a <? reservation a)
  then match session_deadline a with
       | Some d => Done (t_ltb now (t_min d (v_deadline v)))
       | None => Raised "KeyError"
       end
  else Done false.
Definition reserve_body (actor_id : string) (tokens seconds : Z) (now : time_value) (s : option ledger) :
    result string (answer * ledger) :=
  l ← observed s now;
  v ← _view l now;
  if json_truthy (request_binding l) then Raised "ValueError"
  else
    let at_ := observed_time l (v_now v) in
    let existing := actors l !! actor_id in
    match (a ← existing; t ← actor_terms a; Some (a, t)) with
    | Some (a, t) =>
      if negb (terms_eqb t (Tokens tokens seconds)) then Raised "ValueError"
      else admitted ← readmit l v at_ a; viewed l now (Some admitted) None
    | None =>
      let c := configuration l in
      if ready v && (tokens <=? v_remaining_tokens v) && (tokens <=? session_token_limit c) &&
         (seconds <=? session_time_limit_seconds c) && t_leb (t_plus at_ seconds) (v_deadline v)
      then if existing then Raised "ValueError"
           else viewed (set_actors (<[actor_id := new_actor tokens seconds (t_plus at_ seconds)]> (actors l)) l) now (Some true) None
      else viewed l now (Some false) None
    end.
Definition reserve (env : Env) (actor_id : string) (tokens seconds : Z) (now : time_value) (s : option ledger) :
    result string answer * option ledger :=
  match (_ ← _count tokens; _ ← _count seconds; if bool_decide (actor_id = "") then Raised "ValueError" else Done ()) with
  | Raised e => (Raised e, s)
  | Done _ => _transaction env true s (reserve_body actor_id tokens seconds now)
  end.

(** ** Observed usage *)
Definition observed_actor : actor := {|
  actor_terms := None; reservation := 0; used := 0; settled := false; known := true; session_deadline := None;
  request_thread := None; completion_obligation := None |}.
Definition set_usage (u : Z) (s k : bool) (a : actor) : actor := {|
  actor_terms := actor_terms a; reservation := reservation a; used := u; settled := s; known := k;
  session_deadline := session_deadline a; request_thread := request_thread a; completion_obligation := completion_obligation a |}.
Definition recorded (cumulative : option Z) (final : bool) (a : actor) : actor :=
  match cumulative with
  | Some n => if n <? used a then set_usage (used a) false false a else set_usage n (settled a || final) true a
  | None => set_usage (used a) false false a
  end.
Definition _record_body (actor_id : string) (cumulative : option Z) (final goal : bool) (now : time_value) (s : option ledger) :
    result string (answer * ledger) :=
  l ← observed s now;
  _ ← _view l now;
  if json_truthy (request_binding l) then Raised "ValueError"
  else
    let binding := if goal then goal_aliases l !! actor_id else None in
    let id := match binding with Some b => alias_actor b | None => actor_id end in
    let cumulative := match binding with Some b => (λ n, n + preflight_tokens b) <$> cumulative | None => cumulative end in
    let a := default observed_actor (actors l !! id) in
    viewed (set_actors (<[id := recorded cumulative final a]> (actors l)) l) now None None.
Definition _record (env : Env) (actor_id : string) (cumulative : option Z) (final goal : bool) (now : time_value) (s : option ledger) :
    result string answer * option ledger :=
  match (if bool_decide (actor_id = "") then Raised "ValueError"
         else match cumulative with Some n => _ ← _count n; Done () | None => Done () end) with
  | Raised e => (Raised e, s)
  | Done _ => _transaction env true s (_record_body actor_id cumulative final goal now)
  end.
Definition record env actor_id cumulative final := _record env actor_id cumulative final false.
Definition record_goal env goal_id cumulative final := _record env goal_id cumulative final true.
Definition record_sampled_floor (env : Env) (actor_id : string) (cumulative : Z) (now : time_value) (s : option ledger) :
    result string answer * option ledger :=
  match _count cumulative with
  | Raised e => (Raised e, s)
  | Done _ => _transaction env true s (λ s,
      l ← observed s now;
      _ ← _view l now;
      match actors l !! actor_id with
      | None => Raised "ValueError"
      | Some a =>
        viewed (set_actors (<[actor_id := set_usage (Z.max (used a) cumulative) false false a]> (actors l)) l) now None None
      end)
  end.

(** ** Native goals *)
Definition adopted (quota u : Z) (d : T) : actor := {|
  actor_terms := Some (NativeGoal quota); reservation := quota; used := u; settled := false; known := true;
  session_deadline := Some d; request_thread := None; completion_obligation := None |}.
Definition adopt_body (goal_id : string) (budget : Z) (until : time_value) (now : time_value) (s : option ledger) :
    result string (answer * ledger) :=
  l ← observed s now;
  v ← _view l now;
  if json_truthy (request_binding l) then Raised "ValueError"
  else
    let binding := goal_aliases l !! goal_id in
    let actor_id := match binding with Some b => alias_actor b | None => goal_id end in
    let quota := budget + match binding with Some b => preflight_tokens b | None => 0 end in
    let existing := actors l !! actor_id in
    let at_ := observed_time l (v_now v) in
    if (quota <=? 0) || (session_token_limit (configuration l) <? quota) || negb (v_accounting_known v)
    then viewed l now (Some false) None
    else d ← _epoch until;
    if t_leb d at_ then viewed l now (Some false) None
    else match (a ← existing; _ ← actor_terms a; Some a) with
    | Some a =>
      valid ← (if (reservation a =? quota) && negb (settled a) && known a && (used a <? quota)
               then match session_deadline a with Some d => Done (t_ltb at_ d) | None => Raised "KeyError" end
               else Done false);
      viewed l now (Some valid) None
    | None =>
      let u := match existing with Some a => used a | None => 0 end in
      if (v_remaining_tokens v <? quota - u) || (quota <=? u) then viewed l now (Some false) None
      else viewed (set_actors (<[actor_id := adopted quota u (t_min d (v_deadline v))]> (actors l)) l) now (Some true) None
    end.
Definition adopt_active_goal (env : Env) (goal_id : string) (budget : Z) (until now : time_value) (s : option ledger) :
    result string answer * option ledger :=
  match _count budget with
  | Raised e => (Raised e, s)
  | Done _ => _transaction env true s (adopt_body goal_id budget until now)
  end.
Definition bind_goal (env : Env) (goal_id actor_id : string) (preflight : Z) (now : time_value) (s : option ledger) :
    result string answer * option ledger :=
  match _count preflight with
  | Raised e => (Raised e, s)
  | Done _ => _transaction env true s (λ s,
      (* no view is taken first: an unconfigured objective has no [actors] *)
      l ← observed s now;
      if json_truthy (request_binding l) then Raised "ValueError"
      else match actors l !! actor_id with
      | None => Raised "KeyError"
      | Some a =>
        if used a <? preflight then Raised "ValueError"
        else match goal_aliases l !! goal_id with
        | Some b => if bool_decide (alias_actor b = actor_id) && (preflight_tokens b =? preflight)
                    then viewed l now None None else Raised "ValueError"
        | None => viewed (set_aliases (<[goal_id := {| alias_actor := actor_id; preflight_tokens := preflight |}]> (goal_aliases l)) l)
                    now None None
        end
      end)
  end.

(** ** Request sessions *)
Definition imported_session (prior : Z) (d : T) : session := {|
  session_prior_tokens := prior; deadline := d; parent_thread_id := None; provenance := None; continuation_group := None;
  session_obligation := None |}.
Definition bind_requests_body (binding : json) (thread_prior_tokens : gmap string Z) (now : time_value) (s : option ledger) :
    result string (answer * ledger) :=
  l ← configured s now;
  v ← _view l now;
  if json_py_eqb (request_binding l) binding then viewed l now None None
  else if json_truthy (request_binding l) || negb (bool_decide (actors l = ∅)) || negb (bool_decide (goal_aliases l = ∅))
  then Raised "ValueError"
  else if existsb (λ n, n <? 0) (map_to_list thread_prior_tokens).*2 ||
          negb (sum_over (λ _ n, n) thread_prior_tokens =? prior_tokens l)
  then Raised "ValueError"
  else
    let c := configuration l in
    begun ← _epoch (started_at c);
    let d := t_min (v_deadline v) (t_plus begun (session_time_limit_seconds c)) in
    viewed (set_requests binding ((λ prior, imported_session prior d) <$> thread_prior_tokens) ∅ l) now None None.
Definition bind_requests (env : Env) (binding : json) (thread_prior_tokens : gmap string Z) (now : time_value) (s : option ledger) :
    result string answer * option ledger :=
  _transaction env true s (bind_requests_body binding thread_prior_tokens now).

Definition register_body (thread_id parent : string) (prov : json) (now : time_value) (s : option ledger) :
    result string (answer * ledger) :=
  l ← configured s now;
  v ← _view l now;
  if negb (json_truthy (request_binding l)) || negb (bool_decide (is_Some (request_sessions l !! parent))) then Raised "ValueError"
  else match request_sessions l !! thread_id with
  | None =>
    let d := t_min (v_deadline v) (t_plus (v_now v) (session_time_limit_seconds (configuration l))) in
    viewed (set_sessions (<[thread_id := {| session_prior_tokens := 0; deadline := d; parent_thread_id := Some parent;
      provenance := Some prov; continuation_group := None; session_obligation := None |}]> (request_sessions l)) l) now None None
  | Some existing =>
    if bool_decide (parent_thread_id existing = Some parent) then viewed l now None None else Raised "ValueError"
  end.
Definition register_request_thread (env : Env) (thread_id parent : string) (prov : json) (now : time_value) (s : option ledger) :
    result string answer * option ledger :=
  _transaction env true s (register_body thread_id parent prov now).

Definition group_of (key : string) (s : session) : string := default key (continuation_group s).
Definition t_eqb (a b : T) : bool := t_leb a b && t_leb b a.
(** The accounting binding of a context successor, except its obligation. *)
Definition same_binding (existing b : session) : bool :=
  (session_prior_tokens existing =? session_prior_tokens b) &&
  bool_decide (parent_thread_id existing = parent_thread_id b) &&
  match provenance existing, provenance b with Some p, Some q => json_py_eqb p q | None, None => true | _, _ => false end &&
  t_eqb (deadline existing) (deadline b) && bool_decide (continuation_group existing = continuation_group b).
Definition successor (source_id : string) (source : session) (prov : json) : session := {|
  session_prior_tokens := 0; deadline := deadline source; parent_thread_id := Some source_id; provenance := Some prov;
  continuation_group := Some (group_of source_id source); session_obligation := session_obligation source |}.
Definition continue_body (thread_id source_id : string) (prov : json) (now : time_value) (s : option ledger) :
    result string (answer * ledger) :=
  l ← configured s now;
  _ ← _view l now;
  if negb (json_truthy (request_binding l)) then Raised "ValueError"
  else match request_sessions l !! source_id with
  | None => Raised "ValueError"
  | Some source =>
    let binding := successor source_id source prov in
    match request_sessions l !! thread_id with
    | Some existing => if same_binding existing binding then viewed l now None None else Raised "ValueError"
    | None => viewed (set_sessions (<[thread_id := binding]> (request_sessions l)) l) now None None
    end
  end.
Definition continue_request_thread (env : Env) (thread_id source_id : string) (prov : json) (now : time_value) (s : option ledger) :
    result string answer * option ledger :=
  if bool_decide (thread_id = "") || bool_decide (thread_id = source_id) || negb (json_truthy prov) then (Raised "ValueError", s)
  else _transaction env true s (continue_body thread_id source_id prov now).

(** ** Completion obligations *)
Record obligation_item := { item_id : string; item_kind : string; item_tokens : Z; item_seconds : Z; item_criterion : string }.
Definition completion_kinds : list string := ["acceptance"; "review"; "remediation"].
Definition valid_item (i : obligation_item) : bool :=
  (0 <? str_len (item_id i)) && (str_len (item_id i) <=? 64) && bool_decide (item_kind i ∈ completion_kinds) &&
  negb (blank (item_criterion i)) && (str_len (item_criterion i) <=? 4096) && (0 <? item_tokens i) && (0 <? item_seconds i).
Definition pending_obligation (i : obligation_item) : obligation := {|
  obligation_kind := item_kind i; obligation_tokens := item_tokens i; obligation_seconds := item_seconds i;
  criterion := item_criterion i; obligation_state := "pending"; disposition := None; started := false |}.
Fixpoint collect_obligations (items : list obligation_item) (values : gmap string obligation) : result string (gmap string obligation) :=
  match items with
  | [] => Done values
  | i :: items =>
    if negb (valid_item i) || bool_decide (is_Some (values !! item_id i)) then Raised "ValueError"
    else collect_obligations items (<[item_id i := pending_obligation i]> values)
  end.
Definition protected_values (items : list obligation_item) : result string (gmap string obligation) :=
  if negb (bool_decide (length items = 3%nat)) then Raised "ValueError"
  else values ← collect_obligations items ∅;
  if forallb (λ k, existsb (λ o, bool_decide (obligation_kind o = k)) (map_to_list values).*2) completion_kinds
  then Done values else Raised "ValueError".
Definition same_terms (a b : obligation) : bool :=
  bool_decide (obligation_kind a = obligation_kind b) && (obligation_tokens a =? obligation_tokens b) &&
  (obligation_seconds a =? obligation_seconds b) && bool_decide (criterion a = criterion b).
(** The same names with the same terms. *)
Definition same_plan (original values : gmap string obligation) : bool :=
  bool_decide (dom original = dom values) &&
  forallb (λ '(name, o), match original !! name with Some o' => same_terms o' o | None => false end) (map_to_list values).
Definition protect_body (source : pinned_source) (values : gmap string obligation) (now : time_value) (s : option ledger) :
    result string (answer * ledger) :=
  l ← observed s now;
  _ ← _view l now;
  match completion_plan l with
  | Some original =>
    if bool_decide (plan_source original = source) && same_plan (obligations original) values then viewed l now None None
    else Raised "ValueError"
  | None =>
    if negb (json_truthy (request_binding l)) || negb (bool_decide (actors l = ∅)) then Raised "ValueError"
    else viewed (set_plan (Some {| plan_source := source; obligations := values |}) [] l) now None None
  end.
Definition protect_completion (env : Env) (items : list obligation_item) (source : pinned_source) (now : time_value) (s : option ledger) :
    result string answer * option ledger :=
  match (source ← _completion_source env source; values ← protected_values items; Done (source, values)) with
  | Raised e => (Raised e, s)
  | Done (source, values) => _transaction env true s (protect_body source values now)
  end.

(** [_observe] makes an unconfigured state non-empty, whose missing
    [completion_plan] then raises a [ValueError]. *)
Definition planned (s : option ledger) (now : time_value) : result string (ledger * plan) :=
  match s with
  | Some l => l ← _observe l now; match completion_plan l with Some p => Done (l, p) | None => Raised "ValueError" end
  | None => _ ← _epoch now; Raised "ValueError"
  end.
Definition event_at (l : ledger) (at_ : T) action thread name source note : list completion_event :=
  completion_history l ++ [{| ce_action := action; ce_thread := thread; ce_obligation := name; ce_source := source; ce_note := note; ce_at := at_ |}].
Definition assigned (name : string) (x : session) : session := {|
  session_prior_tokens := session_prior_tokens x; deadline := deadline x; parent_thread_id := parent_thread_id x;
  provenance := provenance x; continuation_group := continuation_group x; session_obligation := Some name |}.
Definition assign_body (thread_id name : string) (source : pinned_source) (now : time_value) (s : option ledger) :
    result string (answer * ledger) :=
  lp ← planned s now;
  let '(l, p) := lp in
  match obligations p !! name, request_sessions l !! thread_id with
  | Some _, Some x =>
    if bool_decide (session_obligation x = Some name) then viewed l now None None
    else at_ ← _epoch now;
         let events := event_at l (observed_time l at_) "assign" (Some thread_id) name source None in
         viewed (set_plan (Some p) events (set_sessions (<[thread_id := assigned name x]> (request_sessions l)) l)) now None None
  | _, _ => Raised "ValueError"
  end.
Definition assign_completion (env : Env) (thread_id name : string) (source : pinned_source) (now : time_value) (s : option ledger) :
    result string answer * option ledger :=
  match _completion_source env source with
  | Raised e => (Raised e, s)
  | Done source => _transaction env true s (assign_body thread_id name source now)
  end.

Definition resolved (st : string) (d : string * pinned_source * string) (o : obligation) : obligation := {|
  obligation_kind := obligation_kind o; obligation_tokens := obligation_tokens o; obligation_seconds := obligation_seconds o;
  criterion := criterion o; obligation_state := st; disposition := Some d; started := started o |}.
Definition set_obligation (name : string) (o : obligation) (p : plan) : plan :=
  {| plan_source := plan_source p; obligations := <[name := o]> (obligations p) |}.
Definition resolve_body (name result : string) (source : pinned_source) (note : string) (now : time_value) (s : option ledger) :
    Prelude.result string (answer * ledger) :=
  lp ← planned s now;
  let '(l, p) := lp in
  match obligations p !! name with
  | None => Raised "ValueError"
  | Some o =>
    let same := bool_decide (disposition o = Some (result, source, note)) in
    if bool_decide (obligation_state o = "completed")
    then if same then viewed l now None None else Raised "ValueError"
    else if bool_decide (result = "completed") && some_unsettled (for_obligation name) l then Raised "ValueError"
    else if same then viewed l now None None
    else at_ ← _epoch now;
         let events := event_at l (observed_time l at_) result None name source (Some note) in
         viewed (set_plan (Some (set_obligation name (resolved result (result, source, note) o) p)) events l) now None None
  end.
Definition resolve_completion (env : Env) (name result : string) (source : pinned_source) (note : string) (now : time_value)
    (s : option ledger) : Prelude.result string answer * option ledger :=
  match (source ← _completion_source env source;
         if bool_decide (result ∈ ["completed"; "deferred"]) && negb (blank note) && (str_len note <=? 4096)
         then Done source else Raised "ValueError") with
  | Raised e => (Raised e, s)
  | Done source => _transaction env true s (resolve_body name result source note now)
  end.

(** ** Requests *)
Definition request_id (actor_id : string) : bool := bool_decide (is_Some (strip_prefix "request:" actor_id)).
(** [state['request_sessions'].setdefault(thread_id, ...)]. *)
Definition session_for (thread_id : string) (v : view) (l : ledger) : session :=
  match request_sessions l !! thread_id with
  | Some x => x
  | None => imported_session 0 (t_min (v_deadline v) (t_plus (v_now v) (session_time_limit_seconds (configuration l))))
  end.
(** The threads that share a session's cap, and what they are charged. *)
Definition members (group : string) (sessions : gmap string session) : gmap string session :=
  filter (λ kv, group_of kv.1 kv.2 = group) sessions.
Definition request_in (threads : gmap string session) (a : actor) : bool :=
  match request_thread a with Some t => bool_decide (is_Some (threads !! t)) | None => false end.
Definition group_used (group : string) (l : ledger) : Z :=
  let threads := members group (request_sessions l) in
  sum_over (λ _, session_prior_tokens) threads + sum_over (λ _ a, if request_in threads a then charged a else 0) (actors l).

(** The allowance check and the reason of its refusal. *)
Definition allowance (tokens seconds spent : Z) (at_ : T) (x : session) (v : view) (c : config) : option string :=
  if ready v && (tokens <=? v_remaining_tokens v) && (spent + tokens <=? session_token_limit c) &&
     (seconds <=? session_time_limit_seconds c) && t_leb (t_plus at_ seconds) (deadline x)
  then None
  else Some (
    if negb (v_accounting_known v) then "request_accounting_unknown"
    else if t_ltb (v_deadline v) (t_plus at_ seconds) then "objective_deadline_unavailable"
    else if v_remaining_tokens v <? tokens then "objective_token_allowance_unavailable"
    else if session_token_limit c <? spent + tokens then "session_token_allowance_unavailable"
    else "session_time_allowance_unavailable").
(** The protection of the completion obligations: the reason of a refusal. *)
Definition protection (tokens seconds : Z) (l : ledger) (v : view) (cs : completion_status) (purpose : option string) : option string :=
  let own := purpose ≫= (cs_obligations cs !!.) in
  let own_tokens := match own with Some o => os_protected_tokens o | None => 0 end in
  let own_seconds := match own with Some o => os_protected_seconds o | None => 0 end in
  let other_tokens := cs_protected_tokens cs - own_tokens in
  let other_seconds := cs_protected_seconds cs - own_seconds in
  let item := p ← completion_plan l; name ← purpose; obligations p !! name in
  let cycle_needed := match item with
                      | Some o => bool_decide (obligation_kind o = "remediation") && negb (started o)
                      | None => false end in
  if cycle_needed && (max_correction_cycles (configuration l) <=? correction_cycles l) then Some "completion_remediation_cycle_limit"
  else if negb (cs_feasible cs) then Some "completion_path_infeasible"
  else if bool_decide (purpose = None) && cs_deferred cs then Some "mandatory_completion_deferred"
  else if negb (bool_decide (purpose = None)) &&
          (bool_decide (os_state <$> own = Some "completed") || (own_tokens <? tokens) || (own_seconds <? seconds))
  then Some "completion_obligation_allowance_unavailable"
  else if (v_remaining_tokens v <? tokens + other_tokens) ||
          negb (t_room (cs_deadline cs) (cs_from cs) (seconds + other_seconds))
  then Some "completion_resources_protected"
  else None.

(** A remediation obligation starts one correction cycle, once. *)
Definition started_obligation (o : obligation) : obligation := {|
  obligation_kind := obligation_kind o; obligation_tokens := obligation_tokens o; obligation_seconds := obligation_seconds o;
  criterion := criterion o; obligation_state := obligation_state o; disposition := disposition o; started := true |}.
Definition start_cycle (purpose : option string) (l : ledger) : result string ledger :=
  match completion_plan l, purpose with
  | Some p, Some name =>
    match obligations p !! name with
    | None => Raised "KeyError"
    | Some o =>
      if bool_decide (obligation_kind o = "remediation") && negb (started o)
      then Done (set_plan (Some (set_obligation name (started_obligation o) p)) (completion_history l)
                   (set_corrections (correction_cycles l + 1) (correction_decisions l) l))
      else Done l
    end
  | _, _ => Done l
  end.
Definition request_actor (tokens seconds : Z) (thread_id : string) (x : session) : actor := {|
  actor_terms := Some (Tokens tokens seconds); reservation := tokens; used := 0; settled := false; known := true;
  session_deadline := Some (deadline x); request_thread := Some thread_id; completion_obligation := session_obligation x |}.
(** Why the request is not admitted, for the ledger with its session. *)
Definition request_refusal (thread_id : string) (x : session) (tokens seconds : Z) (enforce : bool) (v : view) (l : ledger) : option string :=
  if enforce
  then match allowance tokens seconds (group_used (group_of thread_id x) l) (observed_time l (v_now v)) x v (configuration l) with
       | Some reason => Some reason
       | None => cs ← v_completion v; protection tokens seconds l v cs (session_obligation x)
       end
  else None.
Definition with_session (thread_id : string) (x : session) (l : ledger) : ledger :=
  set_sessions (<[thread_id := x]> (request_sessions l)) l.
Definition reserve_request_body (actor_id thread_id : string) (tokens seconds : Z) (enforce : bool) (now : time_value)
    (s : option ledger) : result string (answer * ledger) :=
  l ← observed s now;
  v ← _view l now;
  if negb (json_truthy (request_binding l)) || negb (request_id actor_id) then Raised "ValueError"
  else if bool_decide (is_Some (actors l !! actor_id)) then Raised "ValueError"
  else
    let x := session_for thread_id v l in
    let l := with_session thread_id x l in
    match request_refusal thread_id x tokens seconds enforce v l with
    | Some reason => viewed l now (Some false) (Some reason)
    | None =>
      l ← start_cycle (session_obligation x) l;
      viewed (set_actors (<[actor_id := request_actor tokens seconds thread_id x]> (actors l)) l) now (Some true) None
    end.
Definition reserve_request (env : Env) (actor_id thread_id : string) (tokens seconds : Z) (enforce : bool) (now : time_value)
    (s : option ledger) : result string answer * option ledger :=
  match (_ ← _count tokens; _count seconds) with
  | Raised e => (Raised e, s)
  | Done _ => _transaction env true s (reserve_request_body actor_id thread_id tokens seconds enforce now)
  end.

Definition proof_eqb (a b : proof) : bool :=
  bool_decide (proof_actor a = proof_actor b) && bool_decide (proof_tokens a = proof_tokens b) &&
  json_py_eqb (proof_fingerprint a) (proof_fingerprint b).
Definition settle_body (actor_id : string) (response_id : option string) (tokens : option Z) (fingerprint : json) (now : time_value)
    (s : option ledger) : result string (answer * ledger) :=
  l ← observed s now;
  _ ← _view l now;
  match actors l !! actor_id with
  | None => Raised "KeyError"
  | Some a =>
    if negb (json_truthy (request_binding l)) || negb (request_id actor_id) then Raised "ValueError"
    else
      let response := match response_id with Some r => if bool_decide (r = "") then None else Some r | None => None end in
      let prior := response ≫= (request_completions l !!.) in
      let evidence := {| proof_actor := actor_id; proof_tokens := tokens; proof_fingerprint := fingerprint |} in
      if match prior with Some p => proof_eqb p evidence | None => false end then viewed l now None None
      else match tokens, response, prior with
      | Some n, Some r, None =>
        if settled a || (negb (reservation a =? 0) && (reservation a <? n))
        then viewed (set_actors (<[actor_id := set_usage (Z.max (used a) n) false false a]> (actors l)) l) now None None
        else viewed (set_requests (request_binding l) (request_sessions l) (<[r := evidence]> (request_completions l))
                       (set_actors (<[actor_id := set_usage n true true a]> (actors l)) l)) now None None
      | Some n, _, _ =>
        viewed (set_actors (<[actor_id := set_usage (Z.max (used a) n) false false a]> (actors l)) l) now None None
      | None, _, _ => viewed (set_actors (<[actor_id := set_usage (used a) false false a]> (actors l)) l) now None None
      end
  end.
Definition settle_request (env : Env) (actor_id : string) (response_id : option string) (tokens : option Z) (fingerprint : json)
    (now : time_value) (s : option ledger) : result string answer * option ledger :=
  match (match tokens with Some n => _ ← _count n; Done () | None => Done () end) with
  | Raised e => (Raised e, s)
  | Done _ => _transaction env true s (settle_body actor_id response_id tokens fingerprint now)
  end.

(** ** Correction cycles *)
(** Eligibility of the actor that asks for a correction. *)
Definition may_correct (l : ledger) (v : view) (at_ : T) (actor_id : option string) : bool :=
  match actor_id with
  | None => ready v
  | Some id =>
    match actors l !! id with
    | None => false
    | Some a =>
      v_accounting_known v && known a && negb (settled a) && (used a <? reservation a) &&
      t_ltb at_ (t_min (default t_zero (session_deadline a)) (v_deadline v)) &&
      (v_tokens_used v + v_tokens_reserved v <=? objective_token_limit (configuration l))
    end
  end.
Definition correction_body (key : option string) (actor_id : option string) (now : time_value) (s : option ledger) :
    result string (answer * ledger) :=
  l ← observed s now;
  v ← _view l now;
  let eligible := may_correct l v (observed_time l (v_now v)) actor_id in
  match key ≫= (correction_decisions l !!.) with
  | Some decision => viewed l now (Some (decision && eligible)) None
  | None =>
    let admitted := eligible && (correction_cycles l <? max_correction_cycles (configuration l)) in
    let cycles := if admitted then correction_cycles l + 1 else correction_cycles l in
    let decisions := match key with Some k => <[k := admitted]> (correction_decisions l) | None => correction_decisions l end in
    viewed (set_corrections cycles decisions l) now (Some admitted) None
  end.
Definition correction (env : Env) (key actor_id : option string) (now : time_value) (s : option ledger) :
    result string answer * option ledger :=
  _transaction env true s (correction_body key actor_id now).

(** ** Calls *)
(** One call of the class, with its arguments. *)
Inductive call :=
| Configure (c : config) (approval : json) (prior : Z)
| View
| Inspect
| Reserve (actor_id : string) (tokens seconds : Z)
| Record_ (actor_id : string) (cumulative : option Z) (final : bool)
| RecordGoal (goal_id : string) (cumulative : option Z) (final : bool)
| RecordSampledFloor (actor_id : string) (cumulative : Z)
| AdoptActiveGoal (goal_id : string) (budget : Z) (until : time_value)
| BindGoal (goal_id actor_id : string) (preflight : Z)
| BindRequests (binding : json) (thread_prior_tokens : gmap string Z)
| RegisterRequestThread (thread_id parent : string) (prov : json)
| ContinueRequestThread (thread_id source_id : string) (prov : json)
| ProtectCompletion (items : list obligation_item) (source : pinned_source)
| AssignCompletion (thread_id name : string) (source : pinned_source)
| ResolveCompletion (name result : string) (source : pinned_source) (note : string)
| ReserveRequest (actor_id thread_id : string) (tokens seconds : Z) (enforce : bool)
| SettleRequest (actor_id : string) (response_id : option string) (tokens : option Z) (fingerprint : json)
| Correction (key actor_id : option string)
| Extend (c : config) (approval : json)
| Reset_ (c : config) (approval : json).
Definition perform (env : Env) (k : call) (now : time_value) (s : option ledger) : result string answer * option ledger :=
  match k with
  | Configure c approval prior => configure env c approval prior now s
  | View => view_ledger env now s
  | Inspect => inspect env now s
  | Reserve actor_id tokens seconds => reserve env actor_id tokens seconds now s
  | Record_ actor_id cumulative final => record env actor_id cumulative final now s
  | RecordGoal goal_id cumulative final => record_goal env goal_id cumulative final now s
  | RecordSampledFloor actor_id cumulative => record_sampled_floor env actor_id cumulative now s
  | AdoptActiveGoal goal_id budget until => adopt_active_goal env goal_id budget until now s
  | BindGoal goal_id actor_id preflight => bind_goal env goal_id actor_id preflight now s
  | BindRequests binding thread_prior_tokens => bind_requests env binding thread_prior_tokens now s
  | RegisterRequestThread thread_id parent prov => register_request_thread env thread_id parent prov now s
  | ContinueRequestThread thread_id source_id prov => continue_request_thread env thread_id source_id prov now s
  | ProtectCompletion items source => protect_completion env items source now s
  | AssignCompletion thread_id name source => assign_completion env thread_id name source now s
  | ResolveCompletion name result source note => resolve_completion env name result source note now s
  | ReserveRequest actor_id thread_id tokens seconds enforce => reserve_request env actor_id thread_id tokens seconds enforce now s
  | SettleRequest actor_id response_id tokens fingerprint => settle_request env actor_id response_id tokens fingerprint now s
  | Correction key actor_id => correction env key actor_id now s
  | Extend c approval => extend env c approval now s
  | Reset_ c approval => reset env c approval now s
  end.
End Ledger.
