(* ===== verification/LedgerMoves.v ===== *)
(** * The objective ledger as a transition system

    Every call of ObjectiveLedger.v is a sequence of the atomic changes of
    [move]; [perform_moves] shows it once, and the invariants and the
    guarantees of LedgerGuarantees.v go by cases on the changes. *)
From S2P Require Import Prelude Json Sha256 Datetime Timestamps ObjectiveLedger.
Open Scope Z_scope.

(** Changes that a theorem may want to exclude from a history. *)
Inductive tag := Ordinary | FreeCycle | Settlement | Reauthorization.

Section Moves.
Context {T : Type} `{TimestampLaws T}.
Implicit Types (l : ledger (T:=T)) (a : actor (T:=T)) (x : session (T:=T)) (c : config (T:=T)).

Definition bound l : bool := json_truthy (request_binding l).
Definition obligation_known l (name : option string) : Prop :=
  ∀ n, name = Some n → ∃ p, completion_plan l = Some p ∧ is_Some (obligations p !! n).

(** What an explicit authorization may change: a new revision with the same
    start, and an extension lowers no limit. *)
Definition authorized_change (previous : config (T:=T)) (e : authorization (T:=T)) : Prop :=
  let c := auth_configuration e in
  _configuration c = Done c ∧ json_truthy (auth_approval e) = true ∧ auth_action e ∈ ["extend"; "reset"] ∧
  json_py_eqb (revision c) (revision previous) = false ∧ time_eqb (started_at c) (started_at previous) = true ∧
  (auth_action e = "extend" → objective_token_limit previous ≤ objective_token_limit c ∧
    ∀ d old, _epoch (objective_deadline c) = Done d → _epoch (objective_deadline previous) = Done old → old ≤ₜ d).

Inductive move : tag → ledger (T:=T) → ledger (T:=T) → Prop :=
| move_observe l t :
    move Ordinary l (set_observed (Some (latest l t)) l)
| move_reserve l id tokens seconds d :
    bound l = false → 0 ≤ tokens → 0 ≤ seconds → actors l !! id = None →
    move Ordinary l (set_actors (<[id := new_actor tokens seconds d]> (actors l)) l)
| move_record l id cumulative final :
    bound l = false → (∀ n, cumulative = Some n → ∃ m, 0 ≤ m ∧
      (n = m ∨ ∃ g b, goal_aliases l !! g = Some b ∧ n = m + preflight_tokens b)) →
    move Ordinary l (set_actors (<[id := recorded cumulative final (default observed_actor (actors l !! id))]> (actors l)) l)
| move_adopt l id quota d :
    bound l = false → 0 < quota → (∀ a, actors l !! id = Some a → actor_terms a = None) →
    move Ordinary l (set_actors (<[id := adopted quota (match actors l !! id with Some a => used a | None => 0 end) d]> (actors l)) l)
| move_alias l goal_id b :
    bound l = false → is_Some (actors l !! alias_actor b) → goal_aliases l !! goal_id = None → 0 ≤ preflight_tokens b →
    move Ordinary l (set_aliases (<[goal_id := b]> (goal_aliases l)) l)
| move_bind l binding sessions :
    bound l = false → actors l = ∅ → map_Forall (λ _ x, 0 ≤ session_prior_tokens x ∧ session_obligation x = None) sessions →
    sum_over (λ _, session_prior_tokens) sessions = prior_tokens l →
    move Ordinary l (set_requests binding sessions ∅ l)
| move_session l thread x :
    bound l = true → request_sessions l !! thread = None → session_prior_tokens x = 0 →
    (session_obligation x = None ∨ ∃ id y, request_sessions l !! id = Some y ∧ session_obligation x = session_obligation y) →
    move Ordinary l (set_sessions (<[thread := x]> (request_sessions l)) l)
| move_protect l source values :
    bound l = true → actors l = ∅ → completion_plan l = None → map_Forall (λ _ o, ∃ i, valid_item i = true ∧ o = pending_obligation i) values →
    move Ordinary l (set_plan (Some {| plan_source := source; obligations := values |}) [] l)
| move_assign l p thread x name history :
    completion_plan l = Some p → is_Some (obligations p !! name) → request_sessions l !! thread = Some x →
    move Ordinary l (set_plan (Some p) history (set_sessions (<[thread := assigned name x]> (request_sessions l)) l))
| move_resolve l p name o st d history :
    completion_plan l = Some p → obligations p !! name = Some o → obligation_state o ≠ "completed" →
    st ∈ ["completed"; "deferred"] → (st = "completed" → some_unsettled (for_obligation name) l = false) →
    move Ordinary l (set_plan (Some (set_obligation name (resolved st d o) p)) history l)
| move_cycle l t p name o :
    (t = Ordinary ∧ correction_cycles l < max_correction_cycles (configuration l)) ∨ t = FreeCycle →
    completion_plan l = Some p → obligations p !! name = Some o → started o = false →
    move t l (set_plan (Some (set_obligation name (started_obligation o) p)) (completion_history l)
                (set_corrections (correction_cycles l + 1) (correction_decisions l) l))
| move_request l id thread x tokens seconds :
    bound l = true → request_id id = true → 0 ≤ tokens → 0 ≤ seconds → actors l !! id = None → request_sessions l !! thread = Some x →
    move Ordinary l (set_actors (<[id := request_actor tokens seconds thread x]> (actors l)) l)
| move_unknown l id a u :
    actors l !! id = Some a → used a ≤ u →
    move Ordinary l (set_actors (<[id := set_usage u false false a]> (actors l)) l)
| move_settle l id a r n fingerprint :
    bound l = true → actors l !! id = Some a → settled a = false → 0 ≤ n → (reservation a ≠ 0 → n ≤ reservation a) →
    request_completions l !! r = None →
    move Settlement l (set_requests (request_binding l) (request_sessions l)
      (<[r := {| proof_actor := id; proof_tokens := Some n; proof_fingerprint := fingerprint |}]> (request_completions l))
      (set_actors (<[id := set_usage n true true a]> (actors l)) l))
| move_correct l decisions :
    correction_cycles l < max_correction_cycles (configuration l) → correction_decisions l ⊆ decisions →
    move Ordinary l (set_corrections (correction_cycles l + 1) decisions l)
| move_decide l decisions :
    correction_decisions l ⊆ decisions →
    move Ordinary l (set_corrections (correction_cycles l) decisions l)
| move_authorize l e :
    authorized_change (configuration l) e → (auth_action e = "reset" → some_unsettled (λ _, true) l = false) →
    move Reauthorization l (set_authorized (auth_configuration e) (authorization_history l ++ [e]) l).
(** Any number of changes with the allowed tags. *)
Definition moves (P : tag → Prop) : ledger (T:=T) → ledger (T:=T) → Prop := rtc (λ l l', ∃ t, P t ∧ move t l l').
Definition tag_ok (k : call (T:=T)) (t : tag) : Prop :=
  match t with
  | Ordinary => True
  | FreeCycle => ∃ id thread n m, k = ReserveRequest id thread n m false
  | Settlement => ∃ id r n f, k = SettleRequest id r n f
  | Reauthorization => ∃ c approval, k = Extend c approval ∨ k = Reset_ c approval
  end.

Lemma moves_one (P : tag → Prop) t l l' : P t → move t l l' → moves P l l'.
Proof. intros. apply rtc_once. by exists t. Qed.
Lemma moves_then (P : tag → Prop) l0 t l l' : moves P l0 l → P t → move t l l' → moves P l0 l'.
Proof. intros ? ? ?. eapply rtc_r; [done|]. by exists t. Qed.
Lemma moves_preserve (P : tag → Prop) (I : ledger (T:=T) → Prop) l l' :
  (∀ t l l', P t → move t l l' → I l → I l') → moves P l l' → I l → I l'.
Proof. intros Hstep. induction 1 as [|l l1 l' (t & Ht & Hm) _ IH]; [done|]. intros HI. apply IH. by eapply Hstep. Qed.
Lemma moves_relation (P : tag → Prop) (R : ledger (T:=T) → ledger (T:=T) → Prop) `{!PreOrder R} l l' :
  (∀ t l l', P t → move t l l' → R l l') → moves P l l' → R l l'.
Proof. intros Hstep. induction 1 as [|l l1 l' (t & Ht & Hm) _ IH]; [done|]. transitivity l1; [by eapply Hstep|done]. Qed.

(** ** Reading a completed call *)
Lemma viewed_Done l now adm why ans l' : viewed l now adm why = Done (ans, l') →
  l' = l ∧ ∃ v, _view l now = Done v ∧ ans = (v, adm, why).
Proof. unfold viewed. intros (v & Hv & [= <- <-])%result_bind_Done. eauto. Qed.
Lemma observe_Done l now l' : _observe l now = Done l' → ∃ t, _epoch now = Done t ∧ l' = set_observed (Some (latest l t)) l.
Proof. unfold _observe. intros (t & Ht & [= <-])%result_bind_Done. eauto. Qed.
Lemma observed_Done s now l' : observed s now = Done l' →
  ∃ l t, s = Some l ∧ _epoch now = Done t ∧ l' = set_observed (Some (latest l t)) l.
Proof.
  destruct s as [l|]; simpl; [|by intros (? & ? & ?)%result_bind_Done].
  intros (t & ? & ->)%observe_Done. eauto.
Qed.
Lemma configured_Done s now l : configured s now = Done l → s = Some l.
Proof. destruct s; simpl; [by intros [= ->]|by intros (? & ? & ?)%result_bind_Done]. Qed.
Lemma planned_Done s now l' p : planned s now = Done (l', p) →
  ∃ l t, s = Some l ∧ _epoch now = Done t ∧ l' = set_observed (Some (latest l t)) l ∧ completion_plan l' = Some p.
Proof.
  destruct s as [l|]; simpl; [|by intros (? & ? & ?)%result_bind_Done].
  intros (l1 & (t & Ht & ->)%observe_Done & Hp)%result_bind_Done.
  destruct (completion_plan _) eqn:Hplan; [|done]. injection Hp as <- <-. eauto 6.
Qed.
End Moves.

(** Takes a completed body apart, along its bindings and conditions. *)
Ltac done_inv :=
  repeat match goal with
  | H : Raised _ = Done _ |- _ => discriminate H
  | H : Done _ = Done _ |- _ => injection H as H; subst
  | H : (_ ≫= _) = Done _ |- _ => apply result_bind_Done in H as (? & ? & H)
  | H : viewed _ _ _ _ = Done _ |- _ => apply viewed_Done in H as (? & ? & ? & ?); simplify_eq
  | H : _observe _ _ = Done _ |- _ => apply observe_Done in H as (? & ? & ?); simplify_eq
  | H : observed _ _ = Done _ |- _ => apply observed_Done in H as (? & ? & ? & ? & ?); simplify_eq
  | H : configured _ _ = Done _ |- _ => apply configured_Done in H; simplify_eq
  | H : planned _ _ = Done (_, _) |- _ => apply planned_Done in H as (? & ? & ? & ? & ? & ?); simplify_eq
  | H : (let '(_, _) := ?p in _) = Done _ |- _ => destruct p
  | H : (if ?b then _ else _) = Done _ |- _ => destruct b eqn:?
  | H : (match ?o with _ => _ end) = Done _ |- _ => destruct o eqn:?
  end.

(** Normalises the boolean conditions of a taken branch. *)
Ltac conditions :=
  repeat match goal with
  | H : _ && _ = true |- _ => apply andb_true_iff in H as [? ?]
  | H : _ || _ = false |- _ => apply orb_false_iff in H as [? ?]
  | H : negb _ = true |- _ => apply negb_true_iff in H
  | H : negb _ = false |- _ => apply negb_false_iff in H
  | H : bool_decide _ = true |- _ => apply bool_decide_eq_true in H
  | H : bool_decide _ = false |- _ => apply bool_decide_eq_false in H
  | H : (_ <? _) = true |- _ => apply Z.ltb_lt in H
  | H : (_ <? _) = false |- _ => apply Z.ltb_ge in H
  | H : (_ <=? _) = true |- _ => apply Z.leb_le in H
  | H : (_ <=? _) = false |- _ => apply Z.leb_gt in H
  | H : (_ =? _) = true |- _ => apply Z.eqb_eq in H
  | H : (_ =? _) = false |- _ => apply Z.eqb_neq in H
  end.

Section Bodies.
Context {T : Type} `{TimestampLaws T}.
Implicit Types (l : ledger (T:=T)) (s : option (ledger (T:=T))) (k : call (T:=T)).

Lemma ledger_transaction_cases {A} (env : Env) w s (body : option ledger → result string (A * ledger)) r s' :
  _transaction env w s body = (r, s') → s' = s ∨ ∃ a l', body s = Done (a, l') ∧ s' = Some l'.
Proof.
  unfold _transaction, io. intros Ht. destruct (io_fails env "open"), (io_fails env "read"); simpl in Ht; simplify_eq; try by left.
  destruct (body s) as [[a l']|]; simplify_eq; try by left.
  destruct w; [|simplify_eq; by left]. destruct (io_fails env "write"); simplify_eq; [by left|].
  destruct (io_fails env "sync"); simplify_eq; right; eauto.
Qed.
Lemma configuration_Done (c c' : config (T:=T)) : _configuration c = Done c' → c' = c ∧
  0 ≤ objective_token_limit c ∧ 0 ≤ objective_time_limit_seconds c ∧ 0 ≤ session_token_limit c ∧
  0 ≤ session_time_limit_seconds c ∧ 0 ≤ max_correction_cycles c ≤ 2 ∧ json_truthy (revision c) = true ∧
  ∃ b d, _epoch (started_at c) = Done b ∧ _epoch (objective_deadline c) = Done d ∧ b ≤ₜ d.
Proof.
  unfold _configuration, _count. intros Hc. done_inv; conditions. split_and!; try done; try lia.
  do 2 eexists. split_and!; try done. unfold t_ltb in *. by conditions.
Qed.

Section Ordinary.
Context (P : tag → Prop) (HP : P Ordinary).
Notation moved s l' := (∃ l, s = Some l ∧ moves P l l').

Lemma observe_moves l t : moves P l (set_observed (Some (latest l t)) l).
Proof. by eapply (moves_one _ Ordinary); [|constructor]. Qed.
Hint Resolve observe_moves : core.
Ltac observed_only := eexists; split; [done|apply observe_moves].
Ltac one_move M := eexists; split; [done|]; eapply moves_then; [by apply observe_moves|exact HP|eapply M]; simpl; eauto.

Lemma reserve_moves id n m now s ans l' : 0 ≤ n → 0 ≤ m → reserve_body id n m now s = Done (ans, l') → moved s l'.
Proof.
  unfold reserve_body. intros ? ? Hb. done_inv; try observed_only. one_move move_reserve.
Qed.
Lemma record_moves id cumulative final goal now s ans l' : (∀ n, cumulative = Some n → 0 ≤ n) →
  _record_body id cumulative final goal now s = Done (ans, l') → moved s l'.
Proof.
  unfold _record_body. intros Hn Hb. done_inv. one_move move_record. intros n Hc.
  destruct goal; [destruct (goal_aliases _ !! id) as [b|] eqn:Hb|]; [|by (exists n; simpl in *; eauto)..].
  simpl in *. destruct cumulative as [m|]; [|done]. injection Hc as <-. exists m. split; [by apply Hn|right; by exists id, b].
Qed.
Lemma floor_moves id n now s ans l' : 0 ≤ n →
  (l ← observed s now; _ ← _view l now;
   match actors l !! id with
   | None => Raised "ValueError"
   | Some a => viewed (set_actors (<[id := set_usage (Z.max (used a) n) false false a]> (actors l)) l) now None None
   end) = Done (ans, l') → moved s l'.
Proof. intros Hn Hb. done_inv. one_move move_unknown. lia. Qed.
Lemma adopt_moves goal_id budget until now s ans l' : adopt_body goal_id budget until now s = Done (ans, l') → moved s l'.
Proof.
  unfold adopt_body. intros Hb. done_inv; try observed_only. conditions. one_move move_adopt.
  intros a Ha. simpl in *. rewrite Ha in *. simpl in *. by destruct (actor_terms a).
Qed.
Lemma bind_goal_moves goal_id id n now s ans l' : 0 ≤ n →
  (l ← observed s now;
   if json_truthy (request_binding l) then Raised "ValueError"
   else match actors l !! id with
   | None => Raised "KeyError"
   | Some a =>
     if used a <? n then Raised "ValueError"
     else match goal_aliases l !! goal_id with
     | Some b => if bool_decide (alias_actor b = id) && (preflight_tokens b =? n) then viewed l now None None else Raised "ValueError"
     | None => viewed (set_aliases (<[goal_id := {| alias_actor := id; preflight_tokens := n |}]> (goal_aliases l)) l) now None None
     end
   end) = Done (ans, l') → moved s l'.
Proof. intros Hn Hb. done_inv; try observed_only. one_move move_alias. Qed.
Lemma protect_moves source values now s ans l' :
  map_Forall (λ _ o, ∃ i, valid_item i = true ∧ o = pending_obligation i) values →
  protect_body source values now s = Done (ans, l') → moved s l'.
Proof. unfold protect_body. intros Hv Hb. done_inv; try observed_only. conditions. one_move move_protect. Qed.
Lemma assign_moves thread name source now s ans l' : assign_body thread name source now s = Done (ans, l') → moved s l'.
Proof. unfold assign_body. intros Hb. done_inv; try observed_only. one_move move_assign. Qed.
Lemma resolve_moves name st source note now s ans l' : st ∈ ["completed"; "deferred"] →
  resolve_body name st source note now s = Done (ans, l') → moved s l'.
Proof.
  unfold resolve_body. intros Hst Hb. done_inv; try observed_only. conditions. one_move move_resolve.
  intros ->. match goal with H : _ && _ = false |- _ => by apply andb_false_iff in H as [Hb|]; [apply bool_decide_eq_false in Hb|] end.
Qed.
Lemma correction_moves key id now s ans l' : correction_body key id now s = Done (ans, l') → moved s l'.
Proof.
  unfold correction_body. intros Hb. done_inv; try observed_only.
  match goal with |- context [set_corrections _ ?d _] => assert (correction_decisions x1 ⊆ d) as Hd end.
  { destruct key as [key|]; [|done]. simpl in *. by apply insert_subseteq. }
  destruct (may_correct _ _ _ _ && _) eqn:Hadm; conditions; [by one_move move_correct|by one_move move_decide].
Qed.
Ltac unobserved M := eexists; split; [done|]; eapply (moves_one _ Ordinary); [exact HP|eapply M]; simpl; eauto.
Lemma bind_requests_moves binding prior now s ans l' : bind_requests_body binding prior now s = Done (ans, l') → moved s l'.
Proof.
  unfold bind_requests_body. intros Hb. done_inv; [by eexists; split; [|apply rtc_refl]|]. conditions.
  unobserved move_bind.
  - apply map_Forall_fmap, map_Forall_lookup. intros i n Hi. simpl. split; [|done].
    destruct (Z.ltb_spec n 0) as [Hneg|]; [|done].
    match goal with H : existsb _ _ = false |- _ => apply not_true_iff_false in H; destruct H end.
    apply existsb_exists. exists n. split; [|by apply Z.ltb_lt]. apply list_elem_of_In, list_elem_of_fmap.
    exists (i, n). split; [done|]. by apply elem_of_map_to_list.
  - match goal with H : sum_over _ _ = _ |- _ => rewrite <- H end. unfold sum_over. by rewrite map_fold_fmap.
Qed.
Lemma register_moves thread parent prov now s ans l' : register_body thread parent prov now s = Done (ans, l') → moved s l'.
Proof.
  unfold register_body. intros Hb. done_inv; try (by eexists; split; [|apply rtc_refl]). conditions. unobserved move_session.
Qed.
Lemma continue_moves thread source prov now s ans l' : continue_body thread source prov now s = Done (ans, l') → moved s l'.
Proof.
  unfold continue_body. intros Hb. done_inv; try (by eexists; split; [|apply rtc_refl]). conditions. unobserved move_session.
Qed.
End Ordinary.

Lemma collect_valid items values values' : collect_obligations items values = Done values' →
  map_Forall (λ _ o, ∃ i, valid_item i = true ∧ o = pending_obligation i) values →
  map_Forall (λ _ o, ∃ i, valid_item i = true ∧ o = pending_obligation i) values'.
Proof.
  revert values. induction items as [|i items IH]; simpl; intros values Hc Hv; [by injection Hc as <-|].
  done_inv. conditions. apply IH in Hc; [done|]. apply map_Forall_insert_2; [|done]. eauto.
Qed.

Lemma observation k l t : moves (tag_ok k) l (set_observed (Some (latest l t)) l).
Proof. by eapply (moves_one _ Ordinary); [|constructor]. Qed.
(** What a refused or admitted request leaves, before its reservation. *)
Lemma start_cycle_moves k purpose l l' :
  start_cycle purpose l = Done l' →
  (∀ p name o, completion_plan l = Some p → purpose = Some name → obligations p !! name = Some o →
    obligation_kind o = "remediation" → started o = false →
    tag_ok k FreeCycle ∨ correction_cycles l < max_correction_cycles (configuration l)) →
  moves (tag_ok k) l l' ∧ bound l' = bound l ∧ actors l' = actors l ∧ request_sessions l' = request_sessions l.
Proof.
  unfold start_cycle. intros Hs Hok. done_inv; try by split; [apply rtc_refl|]. conditions. split; [|done].
  destruct (Hok _ _ _ eq_refl eq_refl ltac:(done)) as [Hf|Hlt]; [done|done| |].
  - eapply (moves_one _ FreeCycle); [done|eapply move_cycle]; eauto.
  - eapply (moves_one _ Ordinary); [done|eapply move_cycle]; eauto.
Qed.
Lemma protection_cycle tokens seconds l v cs purpose p name o : protection tokens seconds l v cs purpose = None →
  completion_plan l = Some p → purpose = Some name → obligations p !! name = Some o →
  obligation_kind o = "remediation" → started o = false →
  correction_cycles l < max_correction_cycles (configuration l).
Proof.
  unfold protection. intros Hp Hplan -> Ho Hk Hs. rewrite Hplan in Hp. simpl in Hp. rewrite Ho, Hs, Hk in Hp. simpl in Hp.
  destruct (Z.leb_spec (max_correction_cycles (configuration l)) (correction_cycles l)); [done|lia].
Qed.
Lemma with_session_moves k thread v l : bound l = true →
  moves (tag_ok k) l (with_session thread (session_for thread v l) l).
Proof.
  intros Hb. unfold with_session, session_for. destruct (request_sessions l !! thread) as [x|] eqn:Hx.
  - rewrite insert_id by done. by destruct l.
  - eapply (moves_one _ Ordinary); [done|]. apply move_session; by eauto.
Qed.
Lemma reserve_request_moves id thread n m enforce now s ans l' : 0 ≤ n → 0 ≤ m →
  reserve_request_body id thread n m enforce now s = Done (ans, l') →
  ∃ l, s = Some l ∧ moves (tag_ok (T:=T) (ReserveRequest id thread n m enforce)) l l'.
Proof.
  unfold reserve_request_body. intros Hn Hm Hb.
  apply result_bind_Done in Hb as (l1 & (l & t & -> & Ht & ->)%observed_Done & Hb).
  apply result_bind_Done in Hb as (v & Hv & Hb). set (l1 := set_observed _ l) in *.
  eexists. split; [done|]. etransitivity; [apply (observation _ _ t)|]. fold l1.
  destruct (negb (json_truthy _) || _) eqn:Hg; [done|]. case_bool_decide as Hid; [done|]. conditions.
  set (x := session_for thread v l1) in *.
  etransitivity; [by apply (with_session_moves _ thread v)|]. fold x.
  destruct (request_refusal _ _ _ _ _ _ _) as [reason|] eqn:Hr; [by apply viewed_Done in Hb as [-> _]|].
  apply result_bind_Done in Hb as (l2 & Hc & (-> & _)%viewed_Done).
  apply (start_cycle_moves (ReserveRequest id thread n m enforce)) in Hc as (Hmoves & Hbound & Hactors & Hsessions).
  - eapply (moves_then _ _ Ordinary); [done|done|]. eapply move_request; try done.
    + by rewrite Hbound.
    + rewrite Hactors. by apply eq_None_not_Some.
    + rewrite Hsessions. simpl. by rewrite lookup_insert_eq.
  - intros p name o Hp Hname Ho Hkind Hstart. destruct enforce; [right|left; simpl; eauto].
    unfold request_refusal in Hr. destruct (allowance _ _ _ _ _ _ _) eqn:Ha; [done|].
    assert (∃ cs, v_completion v = Some cs) as [cs Hcs].
    { unfold _view in Hv. done_inv. simpl. unfold _completion_status. change (completion_plan l = Some p) in Hp.
      simpl. rewrite Hp. simpl. eauto. }
    rewrite Hcs in Hr. simpl in Hr. by eapply protection_cycle.
Qed.
Lemma settle_moves id r cumulative f now s ans l' : (∀ n, cumulative = Some n → 0 ≤ n) →
  settle_body id r cumulative f now s = Done (ans, l') →
  ∃ l, s = Some l ∧ moves (tag_ok (T:=T) (SettleRequest id r cumulative f)) l l'.
Proof.
  unfold settle_body. intros Hn Hb. done_inv; conditions; (eexists; split; [done|]); try by apply observation.
  all: (etransitivity; [by apply observation|]).
  all: try by (eapply (moves_one _ Ordinary); [done|]; eapply move_unknown; [done|lia]).
  eapply (moves_one _ Settlement); [simpl; eauto|]. apply move_settle; try done; [by apply Hn|].
  match goal with H : _ && _ = false |- _ => apply andb_false_iff in H as [Hx|Hx]; conditions; [|done] end. congruence.
Qed.
Lemma authorize_moves k c approval action now s ans l' : _configuration c = Done c → json_truthy approval = true →
  action ∈ ["extend"; "reset"] → tag_ok k Reauthorization →
  _authorize_body c approval action now s = Done (ans, l') → ∃ l, s = Some l ∧ moves (tag_ok k) l l'.
Proof.
  unfold _authorize_body. intros Hc Happ Hact Hk Hb. done_inv; (eexists; split; [done|]); [by apply observation|]. conditions.
  eapply (moves_then _ _ Reauthorization); [by apply observation|done|].
  match goal with |- context [set_authorized _ (_ ++ [?e])] => eapply (move_authorize _ e) end; [split_and!; try done|]; simpl in *.
  - intros ->. match goal with H : _ && _ = false |- _ => apply andb_false_iff in H as [Hx|Hx]; [by apply bool_decide_eq_false in Hx|] end.
    conditions. split; [done|]. intros d old Hd Hold. unfold t_ltb in *. conditions.
    repeat match goal with H : _epoch ?a = Done _, H' : _epoch ?a = Done _ |- _ => rewrite H in H'; injection H' as ?; subst end. done.
  - intros ->. match goal with H : _ && _ = false |- some_unsettled _ _ = _ => apply andb_false_iff in H as [Hx|Hx] end;
      [by apply bool_decide_eq_false in Hx|done].
Qed.
Lemma initial_moves c approval prior now s ans l' : configure_body c approval prior now s = Done (ans, l') →
  (∃ l, s = Some l ∧ moves (tag_ok (Configure c approval prior)) l l') ∨
  (s = None ∧ ∃ at_, moves (tag_ok (Configure c approval prior)) (initial_ledger c approval prior at_) l').
Proof.
  unfold configure_body. intros Hb. destruct s as [l|]; [left|right; split; [done|]].
  - destruct (config_eqb _ _); [|done]. simpl in Hb. apply result_bind_Done in Hb as (l1 & (t & _ & ->)%observe_Done & (-> & _)%viewed_Done).
    exists l. split; [done|]. apply observation.
  - done_inv. eexists. apply observation.
Qed.

Lemma transaction_moves (P : tag → Prop) {A} (env : Env) w s (body : option ledger → result string (A * ledger)) r s' :
  (∀ a l', body s = Done (a, l') → ∃ l, s = Some l ∧ moves P l l') → _transaction env w s body = (r, s') →
  s' = s ∨ ∃ l l', s = Some l ∧ s' = Some l' ∧ moves P l l'.
Proof.
  intros Hbody [->|(a & l' & Hb & ->)]%ledger_transaction_cases; [by left|right]. apply Hbody in Hb as (l & -> & Hm). eauto.
Qed.
Lemma configure_moves env c approval prior now s r s' : configure env c approval prior now s = (r, s') →
  s' = s ∨ (∃ l l', s = Some l ∧ s' = Some l' ∧ moves (tag_ok (Configure c approval prior)) l l') ∨
  (s = None ∧ ∃ at_ l', _configuration c = Done c ∧ json_truthy approval = true ∧ 0 ≤ prior ∧
    s' = Some l' ∧ moves (tag_ok (Configure c approval prior)) (initial_ledger c approval prior at_) l').
Proof.
  unfold configure. intros Hp. destruct (_ ≫= _) as [c'|] eqn:Hg; [|simplify_eq; by left].
  apply result_bind_Done in Hg as (c1 & Hc & Hg). pose proof (configuration_Done _ _ Hc) as [-> _]. unfold _count in Hg. done_inv. conditions.
  apply ledger_transaction_cases in Hp as [|(ans & l' & Hb & ->)]; [by left|right].
  apply initial_moves in Hb as [(l & -> & Hm)|[-> [at_ Hm]]]; [left; eauto|right]. split; [done|]. eauto 7.
Qed.
Lemma count_Done n m : _count n = Done m → m = n ∧ 0 ≤ n.
Proof. unfold _count. intros. done_inv. by conditions. Qed.
End Bodies.

Ltac count_args := done_inv; repeat match goal with H : _count _ = Done _ |- _ => apply count_Done in H as [? ?]; subst end.
(** A call with its argument checks behind it and the body of its transaction ahead. *)
Tactic Notation "body_moves" reference(op) :=
  match goal with Hp : _ = (?r, _) |- _ =>
    unfold op in Hp; try unfold _record in Hp; try unfold _authorize in Hp;
    repeat match type of Hp with
    | (if ?b then _ else _) = _ => destruct b eqn:?; [simplify_eq; by left|]
    | match ?g with _ => _ end = _ => let Hg := fresh "Hg" in destruct g eqn:Hg; [|simplify_eq; by left]; count_args
    end;
    try match goal with H : _configuration _ = Done _ |- _ => pose proof (configuration_Done _ _ H) as [-> _] end;
    refine (transaction_moves _ _ _ _ _ _ _ _ Hp); cbn beta
  end.

Section Calls.
Context {T : Type} `{TimestampLaws T}.

(** Every call leaves the stored state alone, or takes it through the changes
    its method may make; only [configure] starts a ledger. *)
Lemma perform_moves env k now s r s' : perform env k now s = (r, s') →
  s' = s ∨ (∃ l l', s = Some l ∧ s' = Some l' ∧ moves (tag_ok k) l l') ∨
  (s = None ∧ ∃ c approval prior at_ l', _configuration c = Done c ∧ json_truthy approval = true ∧ 0 ≤ prior ∧
    s' = Some l' ∧ moves (tag_ok k) (initial_ledger c approval prior at_) l').
Proof.
  assert (∀ P : Prop, s' = s ∨ (∃ l l', s = Some l ∧ s' = Some l' ∧ moves (tag_ok k) l l') →
    s' = s ∨ (∃ l l', s = Some l ∧ s' = Some l' ∧ moves (tag_ok k) l l') ∨ P) as Hsome by tauto.
  destruct k; cbn [perform]; intros Hp;
    lazymatch type of Hp with configure _ _ _ _ _ _ = _ =>
      apply configure_moves in Hp as [|[|(? & ? & ? & ?)]]; [by left|by eauto|right; right; naive_solver]
    | _ => apply Hsome end.
  - body_moves view_ledger. intros ans l' Hb. done_inv. eexists; split; [done|apply observation].
  - body_moves inspect. intros ans l' Hb. done_inv. eexists; split; [done|apply rtc_refl].
  - body_moves reserve. intros ans l' Hb. eapply reserve_moves; [done|..|exact Hb]; done.
  - body_moves record; intros ans l' Hb; (eapply record_moves; [done| |done]); naive_solver.
  - body_moves record_goal; intros ans l' Hb; (eapply record_moves; [done| |done]); naive_solver.
  - body_moves record_sampled_floor. intros ans l' Hb. by eapply floor_moves.
  - body_moves adopt_active_goal. intros ans l' Hb. by eapply adopt_moves.
  - body_moves bind_goal. intros ans l' Hb. by eapply bind_goal_moves.
  - body_moves bind_requests. intros ans l' Hb. by eapply bind_requests_moves.
  - body_moves register_request_thread. intros ans l' Hb. by eapply register_moves.
  - body_moves continue_request_thread. intros ans l' Hb. by eapply continue_moves.
  - body_moves protect_completion. intros ans l' Hb. eapply protect_moves; [done| |done].
    unfold protected_values in *. done_inv. eapply collect_valid; [done|]. apply map_Forall_empty.
  - body_moves assign_completion. intros ans l' Hb. by eapply assign_moves.
  - body_moves resolve_completion. conditions. intros ans l' Hb. by eapply resolve_moves.
  - body_moves reserve_request. intros ans l' Hb. by eapply reserve_request_moves.
  - body_moves settle_request; intros ans l' Hb; (eapply settle_moves; [|done]); naive_solver.
  - body_moves correction. intros ans l' Hb. by eapply correction_moves.
  - body_moves extend. intros ans l' Hb. eapply authorize_moves; try done; [set_solver|simpl; eauto].
  - body_moves reset. intros ans l' Hb. eapply authorize_moves; try done; [set_solver|simpl; eauto].
Qed.
End Calls.
