(* ===== verification/LedgerGuarantees.v ===== *)
(** * Guarantees of the objective ledger

    Histories of calls of [ObjectiveLedger], with any failures of the file
    handling: the invariant of the stored state, the authorizations behind the
    configuration, what is never lost, the bounds of admission, and the errors
    that remain. *)
From S2P Require Import Prelude Json Sha256 Datetime Timestamps ObjectiveLedger LedgerMoves.
Open Scope Z_scope.

Section Guarantees.
Context {T : Type} {TT : Timestamp T} {LT : TimestampLaws T}.
Implicit Types (l : ledger (T:=T)) (a : actor (T:=T)) (x : session (T:=T)) (c : config (T:=T)) (k : call (T:=T)).
Notation store := (option (ledger (T:=T))).

(** ** Histories *)
(** One call whose method and arguments [P] admits, whatever it answers. *)
Definition call_step (P : call (T:=T) → Prop) (s s' : store) : Prop :=
  ∃ env k now r, P k ∧ perform env k now s = (r, s').
Definition history P : store → store → Prop := rtc (call_step P).
Definition any_call : call (T:=T) → Prop := λ _, True.
Definition tags (P : call (T:=T) → Prop) (t : tag) : Prop := ∃ k, P k ∧ tag_ok k t.

Lemma step_moves P s s' : call_step P s s' →
  s' = s ∨ (∃ l l', s = Some l ∧ s' = Some l' ∧ moves (tags P) l l') ∨
  (s = None ∧ ∃ c approval prior at_ l', _configuration c = Done c ∧ json_truthy approval = true ∧ 0 ≤ prior ∧
    s' = Some l' ∧ moves (tags P) (initial_ledger c approval prior at_) l').
Proof.
  intros (env & k & now & r & Hk & Hp). assert (∀ l l', moves (tag_ok k) l l' → moves (tags P) l l') as Hm.
  { intros l l'. apply rtc_subrel. intros ? ? (t & ? & ?). exists t. split; [by exists k|done]. }
  apply perform_moves in Hp as [|[(l & l' & ? & ? & ?)|(? & c & approval & prior & at_ & l' & ? & ? & ? & ? & ?)]].
  - by left.
  - right; left. eauto 6.
  - right; right. split; [done|]. exists c, approval, prior, at_, l'. eauto 6.
Qed.
Lemma history_moves P l s' : history P (Some l) s' → ∃ l', s' = Some l' ∧ moves (tags P) l l'.
Proof.
  remember (Some l) as s eqn:Hs. intros Hh. revert l Hs. induction Hh as [|s s1 s' Hstep _ IH]; intros l ->.
  - exists l. split; [done|apply rtc_refl].
  - apply step_moves in Hstep as [->|[(l0 & l1 & [= <-] & -> & Hm)|[? _]]]; [by apply IH| |done].
    destruct (IH l1 eq_refl) as (l' & -> & ?). exists l'. split; [done|]. by etransitivity.
Qed.
Lemma reachable_moves P l : history P None (Some l) →
  ∃ c approval prior at_, _configuration c = Done c ∧ json_truthy approval = true ∧ 0 ≤ prior ∧
    moves (tags P) (initial_ledger c approval prior at_) l.
Proof.
  remember None as s eqn:Hs. remember (Some l) as s' eqn:Hs'. intros Hh. revert Hs. induction Hh as [|s s1 s' Hstep Hh IH]; intros ->; [done|].
  apply step_moves in Hstep as [->|[(? & ? & ? & _)|(_ & c & approval & prior & at_ & l1 & ? & ? & ? & -> & Hm)]]; [by apply IH|done|].
  subst. apply history_moves in Hh as (l' & [= <-] & Hm'). exists c, approval, prior, at_. split_and!; try done. by etransitivity.
Qed.

(** ** The invariant of the accounts *)
Record actor_ok l (id : string) a : Prop := {
  ao_used : 0 ≤ used a;
  ao_reservation : 0 ≤ reservation a;
  ao_terms : match actor_terms a with
             | Some (Tokens n m) => reservation a = n ∧ 0 ≤ m
             | Some (NativeGoal q) => reservation a = q ∧ 0 < q
             | None => reservation a = 0
             end;
  ao_deadline : is_Some (actor_terms a) → is_Some (session_deadline a);
  ao_thread t : request_thread a = Some t → is_Some (request_sessions l !! t) ∧ request_id id = true;
  ao_bound : bound l = true → is_Some (request_thread a);
  ao_obligation : obligation_known l (completion_obligation a);
}.
Definition session_ok l x : Prop := 0 ≤ session_prior_tokens x ∧ obligation_known l (session_obligation x).
Definition obligation_ok (o : obligation) : Prop :=
  0 < obligation_tokens o ∧ 0 < obligation_seconds o ∧ obligation_kind o ∈ completion_kinds ∧
  obligation_state o ∈ ["pending"; "deferred"; "completed"].
(** A recorded completion stays within the reservation it settled. *)
Definition proof_ok l (p : proof) : Prop :=
  bound l = true ∧ ∃ a n, actors l !! proof_actor p = Some a ∧ proof_tokens p = Some n ∧ 0 ≤ n ∧ (reservation a ≠ 0 → n ≤ reservation a).
Record accounts_ok l : Prop := {
  ac_prior : 0 ≤ prior_tokens l;
  ac_actors : map_Forall (actor_ok l) (actors l);
  ac_sessions : map_Forall (λ _, session_ok l) (request_sessions l);
  ac_plan p : completion_plan l = Some p → bound l = true ∧ map_Forall (λ _, obligation_ok) (obligations p);
  ac_aliases : map_Forall (λ _ b, 0 ≤ preflight_tokens b) (goal_aliases l);
  ac_proofs : map_Forall (λ _, proof_ok l) (request_completions l);
  ac_cycles : 0 ≤ correction_cycles l;
}.

Lemma usage_ok l id a u b b' : actor_ok l id a → 0 ≤ u → actor_ok l id (set_usage u b b' a).
Proof. intros [] ?. by split. Qed.
(** What an account depends on only grows. *)
Definition grows l l' : Prop :=
  bound l' = bound l ∧ (∀ t, is_Some (request_sessions l !! t) → is_Some (request_sessions l' !! t)) ∧
  (∀ name, obligation_known l name → obligation_known l' name).
Lemma actor_ok_grows l l' id a : grows l l' → actor_ok l id a → actor_ok l' id a.
Proof.
  intros (Hb & Hs & Ho) []. split; try done; [|by rewrite Hb|by apply Ho].
  intros t Ht. destruct (ao_thread0 t Ht). split; [by apply Hs|done].
Qed.
Lemma actors_insert l id a : accounts_ok l → actor_ok l id a →
  (∀ a0, actors l !! id = Some a0 → bound l = true → reservation a = reservation a0) →
  accounts_ok (set_actors (<[id := a]> (actors l)) l).
Proof.
  intros [] Ha Hr. split; simpl; try done.
  - apply map_Forall_insert_2; [by eapply actor_ok_grows; [|done]; split|].
    eapply map_Forall_impl; [done|]. intros i b. apply actor_ok_grows. by split.
  - intros r p Hp. destruct (ac_proofs0 r p Hp) as [Hb (b & n & Hpa & Hn & Hbound)]. split; [done|].
    simpl. rewrite lookup_insert. destruct (decide (id = proof_actor p)) as [->|]; [|by eauto].
    exists a, n. rewrite (Hr b) by done. split_and!; [done|done|apply Hbound..].
Qed.
Lemma grows_ok l l' :
  grows l l' → accounts_ok l → actors l' = actors l → prior_tokens l' = prior_tokens l → goal_aliases l' = goal_aliases l →
  request_completions l' = request_completions l → 0 ≤ correction_cycles l' →
  (∀ t x, request_sessions l' !! t = Some x → session_ok l' x) →
  (∀ p, completion_plan l' = Some p → bound l' = true ∧ map_Forall (λ _, obligation_ok) (obligations p)) →
  accounts_ok l'.
Proof.
  intros Hg [] Ha Hp Hal Hrc Hc Hs Hplan. split; rewrite ?Ha, ?Hp, ?Hal, ?Hrc; try done.
  - eapply map_Forall_impl; [done|]. intros i b. by apply actor_ok_grows.
  - intros r p Hr. destruct (ac_proofs0 r p Hr) as [Hb Hrest]. unfold proof_ok. destruct Hg as [-> _]. by rewrite Ha.
Qed.
Lemma grows_same l l' : bound l' = bound l → request_sessions l' = request_sessions l → completion_plan l' = completion_plan l → grows l l'.
Proof. intros Hb Hs Hp. split_and!; [done|by rewrite Hs|]. unfold obligation_known. by rewrite Hp. Qed.
Lemma same_ok l l' : accounts_ok l → request_binding l' = request_binding l → request_sessions l' = request_sessions l →
  completion_plan l' = completion_plan l → actors l' = actors l → prior_tokens l' = prior_tokens l →
  (map_Forall (λ _ b, 0 ≤ preflight_tokens b) (goal_aliases l')) →
  request_completions l' = request_completions l → 0 ≤ correction_cycles l' → accounts_ok l'.
Proof.
  intros Hok Hb Hs Hp Ha Hpr Hal Hr Hc.
  assert (grows l l') as Hg by (apply grows_same; unfold bound; congruence).
  destruct Hok. split; rewrite ?Ha, ?Hpr, ?Hr; try done.
  - eapply map_Forall_impl; [done|]. intros i b. by apply actor_ok_grows.
  - rewrite Hs. eapply map_Forall_impl; [done|]. intros i x [? Ho]. split; [done|]. by apply Hg.
  - rewrite Hp. unfold bound. rewrite Hb. done.
  - intros r p Hp'. destruct (ac_proofs0 r p Hp') as [Hb' Hrest]. unfold proof_ok, bound. by rewrite Hb, Ha.
Qed.
Lemma plan_grows l p name o history : completion_plan l = Some p →
  grows l (set_plan (Some (set_obligation name o p)) history l).
Proof.
  intros Hp. split_and!; [done|done|]. intros n Hn m Hm. destruct (Hn m Hm) as (p' & Hp' & Ho). rewrite Hp in Hp'. injection Hp' as <-.
  eexists; split; [done|]. simpl. rewrite lookup_insert. by case_decide.
Qed.
Lemma plan_ok l p name o history : accounts_ok l → completion_plan l = Some p → obligation_ok o →
  accounts_ok (set_plan (Some (set_obligation name o p)) history l).
Proof.
  intros Hok Hp Ho. pose proof (plan_grows l p name o history Hp) as Hg. apply (grows_ok l); try done; try apply Hok.
  - intros t x Hx. destruct (ac_sessions l Hok t x Hx) as [? Hob]. split; [done|]. by apply Hg.
  - intros p' [= <-]. destruct (ac_plan l Hok p Hp) as [Hb Hall]. split; [done|]. simpl. by apply map_Forall_insert_2.
Qed.
Lemma session_insert_ok l thread x : accounts_ok l → session_ok l x →
  accounts_ok (set_sessions (<[thread := x]> (request_sessions l)) l).
Proof.
  intros Hok Hx. apply (grows_ok l); try done; try apply Hok.
  - split_and!; [done| |done]. simpl. intros t Ht. rewrite lookup_insert. by case_decide.
  - simpl. intros t y [[_ <-]|[_ Hy]]%lookup_insert_Some; [done|]. by apply (ac_sessions l Hok t y).
Qed.
Lemma actor_at l id a : accounts_ok l → actors l !! id = Some a → actor_ok l id a.
Proof. intros Hok. apply (ac_actors l Hok). Qed.
Lemma usage_insert_ok l id a u b b' : accounts_ok l → actors l !! id = Some a → 0 ≤ u →
  accounts_ok (set_actors (<[id := set_usage u b b' a]> (actors l)) l).
Proof.
  intros Hok Ha Hu. apply actors_insert; [done|by apply usage_ok; [apply actor_at|]|]. intros a0 Ha0 _. by simplify_eq.
Qed.
Lemma recorded_ok l id cumulative final : accounts_ok l → bound l = false →
  (∀ n, cumulative = Some n → 0 ≤ n) →
  accounts_ok (set_actors (<[id := recorded cumulative final (default observed_actor (actors l !! id))]> (actors l)) l).
Proof.
  intros Hok Hb Hn. apply actors_insert; [done| |congruence].
  assert (actor_ok l id (default observed_actor (actors l !! id))) as Ha.
  { destruct (actors l !! id) as [a|] eqn:Ha; [by apply actor_at|]. split; simpl; try done; [congruence]. }
  unfold recorded. repeat case_match; apply usage_ok; try done; try apply Ha. by apply Hn.
Qed.
Lemma bind_ok l binding sessions : accounts_ok l → bound l = false → actors l = ∅ →
  map_Forall (λ _ x, 0 ≤ session_prior_tokens x ∧ session_obligation x = None) sessions →
  accounts_ok (set_requests binding sessions ∅ l).
Proof.
  intros [] Hb Ha Hs. split; simpl; try done.
  - by rewrite Ha.
  - eapply map_Forall_impl; [done|]. intros i x [? Ho]. split; [done|]. by rewrite Ho.
  - intros p Hp. destruct (ac_plan0 p Hp) as [Hb' _]. congruence.
Qed.
Lemma protect_ok l source values : accounts_ok l → bound l = true → completion_plan l = None →
  map_Forall (λ _ o, ∃ i, valid_item i = true ∧ o = pending_obligation i) values →
  accounts_ok (set_plan (Some {| plan_source := source; obligations := values |}) [] l).
Proof.
  intros Hok Hb Hp Hv.
  assert (∀ name, obligation_known l name → name = None) as Hnone.
  { intros [n|] Hn; [|done]. destruct (Hn n eq_refl) as (p & ? & _). congruence. }
  apply (grows_ok l); try done; try apply Hok.
  - split_and!; [done|done|]. by intros name ->%Hnone.
  - intros t x Hx. destruct (ac_sessions l Hok t x Hx) as [? Hx0%Hnone]. split; [done|]. by rewrite Hx0.
  - intros p [= <-]. split; [done|]. simpl. eapply map_Forall_impl; [done|]. intros i o (item & Hi & ->).
    unfold valid_item in Hi. conditions. split_and!; simpl; try done. by left.
Qed.
Lemma proof_insert_ok l r p : accounts_ok l → proof_ok l p →
  accounts_ok (set_requests (request_binding l) (request_sessions l) (<[r := p]> (request_completions l)) l).
Proof.
  intros [] Hp. split; try done; simpl.
  - eapply map_Forall_impl; [done|]. intros i b. apply actor_ok_grows. by split.
  - by apply map_Forall_insert_2.
Qed.

Lemma move_accounts t l l' : move t l l' → accounts_ok l → accounts_ok l'.
Proof.
  intros Hm Hok. pose proof Hok as []. destruct Hm; try by apply (same_ok l).
  - apply actors_insert; [done|split; simpl; try done; congruence|congruence].
  - apply recorded_ok; [done..|]. intros n Hn. destruct (H0 n Hn) as (m & ? & [->|(g & b & Hb & ->)]); [done|].
    pose proof (ac_aliases0 g b Hb). simpl in *. lia.
  - apply actors_insert; [done| |congruence]. split; simpl; try done; [|lia|congruence].
    destruct (actors l !! id) as [a|] eqn:Ha; [|done]. by apply (actor_at l id).
  - apply (same_ok l); try done. by apply map_Forall_insert_2.
  - by apply bind_ok.
  - apply session_insert_ok; [done|]. split; [lia|]. destruct H2 as [->|(id & y & Hy & ->)]; [done|]. by apply (ac_sessions0 id y).
  - by apply protect_ok.
  - apply (same_ok (set_sessions (<[thread := assigned name x]> (request_sessions l)) l)); try done.
    apply session_insert_ok; [done|]. destruct (ac_sessions0 thread x) as [? _]; [done|]. split; [done|].
    intros n [= <-]. eauto.
  - apply plan_ok; [done..|]. destruct (ac_plan0 p) as [_ Hall]; [done|]. destruct (Hall name o) as (? & ? & ? & _); [done|].
    split_and!; try done. simpl. set_solver.
  - apply (plan_ok (set_corrections (correction_cycles l + 1) (correction_decisions l) l)); [|done|].
    + apply (same_ok l); try done. simpl. lia.
    + destruct (ac_plan0 p) as [_ Hall]; [done|]. by destruct (Hall name o).
  - apply actors_insert; [done| |congruence]. destruct (ac_sessions0 thread x) as [? ?]; [done|].
    split; simpl; try done. intros t [= <-]. eauto.
  - apply usage_insert_ok; [done..|]. pose proof (ao_used _ _ _ (actor_at l id a Hok ltac:(done))). lia.
  - apply (proof_insert_ok (set_actors (<[id := set_usage n true true a]> (actors l)) l)); [by apply usage_insert_ok|].
    split; [done|]. exists (set_usage n true true a), n. simpl. by rewrite lookup_insert_eq.
  - apply (same_ok l); try done. simpl. lia.
Qed.

(** ** The invariant of the authorizations *)
(** Each entry was an authorized change of the configuration before it. *)
Fixpoint authorized_from c (later : list (authorization (T:=T))) : Prop :=
  match later with
  | [] => True
  | e :: later => authorized_change c e ∧ authorized_from (auth_configuration e) later
  end.
Definition latest_config c (later : list (authorization (T:=T))) : config (T:=T) := foldl (λ _ e, auth_configuration e) c later.
Definition authorized l : Prop :=
  ∃ e0 later, authorization_history l = e0 :: later ∧ auth_action e0 = "initial" ∧
    json_truthy (auth_approval e0) = true ∧ _configuration (auth_configuration e0) = Done (auth_configuration e0) ∧
    original_deadline l = objective_deadline (auth_configuration e0) ∧ authorized_from (auth_configuration e0) later ∧
    configuration l = latest_config (auth_configuration e0) later.
Lemma authorized_from_app c later e : authorized_from c later → authorized_change (latest_config c later) e →
  authorized_from c (later ++ [e]).
Proof.
  revert c. induction later as [|e' later IH]; intros c; simpl; [done|]. intros [He Hl] Hc. split; [done|]. by apply IH.
Qed.
Lemma latest_config_snoc c later e : latest_config c (later ++ [e]) = auth_configuration e.
Proof. unfold latest_config. by rewrite foldl_snoc. Qed.
Lemma move_authorized t l l' : move t l l' → authorized l → authorized l'.
Proof.
  intros Hm (e0 & later & Hh & Hact & Happ & Hc & Hod & Hfrom & Hlast).
  destruct Hm; try by (exists e0, later; split_and!).
  exists e0, (later ++ [e]). simpl. rewrite Hh. split_and!; try done.
  - apply authorized_from_app; [done|]. by rewrite <- Hlast.
  - by rewrite latest_config_snoc.
Qed.

Lemma initial_accounts c approval prior at_ : 0 ≤ prior → accounts_ok (initial_ledger c approval prior at_).
Proof. by split. Qed.
Lemma initial_authorized c approval prior at_ : _configuration c = Done c → json_truthy approval = true →
  authorized (initial_ledger c approval prior at_).
Proof. intros. eexists _, []. by split_and!. Qed.
Lemma reachable_ok l : history any_call None (Some l) → accounts_ok l ∧ authorized l.
Proof.
  intros (c & approval & prior & at_ & Hc & Happ & Hpr & Hm)%reachable_moves. split.
  - eapply moves_preserve; [|exact Hm|by apply initial_accounts]. intros t l1 l2 _. apply move_accounts.
  - eapply moves_preserve; [|exact Hm|by apply initial_authorized]. intros t l1 l2 _. apply move_authorized.
Qed.
Lemma latest_valid c later : _configuration c = Done c → authorized_from c later →
  _configuration (latest_config c later) = Done (latest_config c later).
Proof. revert c. induction later as [|e later IH]; intros c; simpl; [done|]. intros _ [[? _] ?]. by apply IH. Qed.
Lemma authorized_valid l : authorized l → _configuration (configuration l) = Done (configuration l).
Proof. intros (e0 & later & _ & _ & _ & ? & _ & ? & ->). by apply latest_valid. Qed.

(** ** What no call undoes *)
Definition same_reservation a a' : Prop :=
  actor_terms a' = actor_terms a ∧ reservation a' = reservation a ∧ session_deadline a' = session_deadline a ∧
  request_thread a' = request_thread a ∧ completion_obligation a' = completion_obligation a.
Definition keeps_obligation (o o' : obligation) : Prop :=
  same_terms o o' = true ∧ (started o = true → started o' = true) ∧
  (obligation_state o = "completed" → obligation_state o' = "completed" ∧ disposition o' = disposition o).
Definition keeps_session x x' : Prop :=
  session_prior_tokens x' = session_prior_tokens x ∧ deadline x' = deadline x ∧ parent_thread_id x' = parent_thread_id x ∧
  continuation_group x' = continuation_group x.
Record keeps l l' : Prop := {
  kp_origin : original_deadline l' = original_deadline l ∧ prior_tokens l' = prior_tokens l;
  kp_history : authorization_history l `prefix_of` authorization_history l';
  kp_time t : observed_at l = Some t → ∃ t', observed_at l' = Some t' ∧ t ≤ₜ t';
  kp_cycles : correction_cycles l ≤ correction_cycles l';
  kp_decisions : correction_decisions l ⊆ correction_decisions l';
  kp_aliases : goal_aliases l ⊆ goal_aliases l';
  kp_actors id a : actors l !! id = Some a → ∃ a', actors l' !! id = Some a' ∧ (is_Some (actor_terms a) → same_reservation a a');
  kp_requests : bound l = true → request_binding l' = request_binding l ∧ request_completions l ⊆ request_completions l' ∧
    ∀ t x, request_sessions l !! t = Some x → ∃ x', request_sessions l' !! t = Some x' ∧ keeps_session x x';
  kp_plan p : completion_plan l = Some p → ∃ p', completion_plan l' = Some p' ∧ plan_source p' = plan_source p ∧
    ∀ name o, obligations p !! name = Some o → ∃ o', obligations p' !! name = Some o' ∧ keeps_obligation o o';
}.
Lemma same_terms_refl o : same_terms o o = true.
Proof. unfold same_terms. by rewrite !bool_decide_true, !Z.eqb_refl. Qed.
Lemma same_terms_trans o1 o2 o3 : same_terms o1 o2 = true → same_terms o2 o3 = true → same_terms o1 o3 = true.
Proof. unfold same_terms. intros. conditions. by rewrite !bool_decide_true, !(proj2 (Z.eqb_eq _ _)) by congruence. Qed.
#[local] Instance keeps_obligation_preorder : PreOrder keeps_obligation.
Proof.
  split; [intros o; split; [apply same_terms_refl|done]|]. intros o1 o2 o3 (? & ? & H1) (? & ? & H2).
  split_and!; [by eapply same_terms_trans|by auto|]. intros Hc. destruct (H1 Hc) as [Hc' <-]. by apply H2.
Qed.
#[local] Instance same_reservation_preorder : PreOrder same_reservation.
Proof. split; [done|]. unfold same_reservation. intros a1 a2 a3. intuition congruence. Qed.
#[local] Instance keeps_session_preorder : PreOrder keeps_session.
Proof. split; [done|]. unfold keeps_session. intros a1 a2 a3. intuition congruence. Qed.
#[local] Instance keeps_preorder : PreOrder keeps.
Proof.
  split.
  - intros l. split; try done; eauto.
    + intros t Ht. exists t. split; [done|apply t_leb_refl].
    + intros id a Ha. by exists a.
    + intros Hb. split_and!; try done. intros t x Hx. by exists x.
    + intros p Hp. exists p. split_and!; try done. intros name o Ho. by exists o.
  - intros l1 l2 l3 K1 K2. split.
    + destruct (kp_origin _ _ K1), (kp_origin _ _ K2). split; congruence.
    + etransitivity; [apply K1|apply K2].
    + intros t (t2 & H2 & Hle)%(kp_time _ _ K1). apply (kp_time _ _ K2) in H2 as (t3 & ? & ?). exists t3. split; [done|by eapply t_leb_trans].
    + etransitivity; [apply K1|apply K2].
    + etransitivity; [apply K1|apply K2].
    + etransitivity; [apply K1|apply K2].
    + intros id a (a2 & H2 & Ha)%(kp_actors _ _ K1). destruct (kp_actors _ _ K2 _ _ H2) as (a3 & H3 & Hb). exists a3.
      split; [done|]. intros Ht. etransitivity; [by apply Ha|]. apply Hb. by destruct (Ha Ht) as [-> _].
    + intros Hb. destruct (kp_requests _ _ K1 Hb) as (Eb & Hc & Hs). destruct (kp_requests _ _ K2) as (Eb2 & Hc2 & Hs2).
      { unfold bound in *. by rewrite Eb. }
      split_and!; [congruence|by etransitivity|]. intros t x (x2 & Hx2 & ?)%Hs. apply Hs2 in Hx2 as (x3 & ? & ?). exists x3.
      split; [done|by etransitivity].
    + intros p (p2 & H2 & Es & Ho)%(kp_plan _ _ K1). apply (kp_plan _ _ K2) in H2 as (p3 & ? & Es3 & Ho3). exists p3.
      split_and!; [done|congruence|]. intros name o (o2 & H2 & ?)%Ho. apply Ho3 in H2 as (o3 & ? & ?). exists o3.
      split; [done|by etransitivity].
Qed.

Lemma keeps_set_actor l id a :
  (∀ a0, actors l !! id = Some a0 → is_Some (actor_terms a0) → same_reservation a0 a) →
  keeps l (set_actors (<[id := a]> (actors l)) l).
Proof.
  intros Ha. destruct (reflexivity l : keeps l l). split; try done. simpl. intros i b Hb. rewrite lookup_insert.
  destruct (decide (id = i)) as [->|]; [|by exists b]. exists a. split; [done|]. by apply Ha.
Qed.
Lemma keeps_set_plan l p name o o' history : completion_plan l = Some p → obligations p !! name = Some o → keeps_obligation o o' →
  keeps l (set_plan (Some (set_obligation name o' p)) history l).
Proof.
  intros Hp Ho Hk. destruct (reflexivity l : keeps l l). split; try done. simpl. intros p0 Hp0. rewrite Hp in Hp0. injection Hp0 as <-.
  eexists. split_and!; [done|done|]. simpl. intros n b Hb. rewrite lookup_insert.
  destruct (decide (name = n)) as [->|]; [|by exists b]. exists o'. split; [done|]. by simplify_eq.
Qed.
Lemma keeps_set_session l thread x : (∀ y, request_sessions l !! thread = Some y → keeps_session y x) →
  keeps l (set_sessions (<[thread := x]> (request_sessions l)) l).
Proof.
  intros Hx. destruct (reflexivity l : keeps l l). split; try done. intros Hb. simpl. split_and!; try done.
  intros i y Hy. rewrite lookup_insert. destruct (decide (thread = i)) as [->|]; [|by exists y]. exists x. split; [done|by apply Hx].
Qed.
Lemma move_keeps t l l' : move t l l' → keeps l l'.
Proof.
  intros Hm. destruct Hm; try by (apply keeps_set_actor; intros a0 Ha0 ?; simplify_eq).
  all: try by (destruct (reflexivity l : keeps l l); split; simpl; try done; try lia; apply insert_subseteq).
  - destruct (reflexivity l : keeps l l). split; try done. simpl. intros o Ho. eexists. split; [done|]. unfold latest. rewrite Ho. apply t_max_r.
  - apply keeps_set_actor. intros a0 -> _. simpl. unfold recorded. repeat case_match; done.
  - apply keeps_set_actor. intros a0 Ha0 [? Ht]. rewrite (H1 _ Ha0) in Ht. done.
  - destruct (reflexivity l : keeps l l). split; try done. congruence.
  - apply keeps_set_session. intros y Hy. congruence.
  - destruct (reflexivity l : keeps l l). split; try done. intros p Hp. congruence.
  - transitivity (set_sessions (<[thread := assigned name x]> (request_sessions l)) l).
    + apply keeps_set_session. intros y Hy. by simplify_eq.
    + set (l1 := set_sessions _ l). destruct (reflexivity l1 : keeps l1 l1). split; try done. simpl. intros p0 Hp0. exists p.
      simplify_eq. split_and!; try done. intros i o Ho. by exists o.
  - eapply keeps_set_plan; [done..|]. split_and!; [exact (same_terms_refl o)|done|]. by intros ?.
  - transitivity (set_corrections (correction_cycles l + 1) (correction_decisions l) l).
    + destruct (reflexivity l : keeps l l). split; try done. simpl. lia.
    + eapply (keeps_set_plan (set_corrections _ _ l)); [done..|]. split_and!; [exact (same_terms_refl o)|done|done].
  - transitivity (set_actors (<[id := set_usage n true true a]> (actors l)) l).
    + apply keeps_set_actor. intros a0 Ha0 _. by simplify_eq.
    + set (l1 := set_actors _ l). destruct (reflexivity l1 : keeps l1 l1). split; try done. intros Hb. simpl. split_and!; try done.
      * by apply insert_subseteq.
      * intros i y Hy. by exists y.
  - destruct (reflexivity l : keeps l l). split; try done. simpl. by eexists.
Qed.

(** Observed usage never falls, except by a settlement. *)
Definition usage_kept l l' : Prop := ∀ id a, actors l !! id = Some a → ∃ a', actors l' !! id = Some a' ∧ used a ≤ used a'.
#[local] Instance usage_kept_preorder : PreOrder usage_kept.
Proof.
  split; [intros l id a Ha; by exists a|]. intros l1 l2 l3 U V id a (a2 & (a3 & ? & ?)%V & ?)%U. exists a3. split; [done|lia].
Qed.
Lemma usage_set_actor l id a : (∀ a0, actors l !! id = Some a0 → used a0 ≤ used a) → usage_kept l (set_actors (<[id := a]> (actors l)) l).
Proof.
  intros Ha i b Hb. simpl. rewrite lookup_insert. destruct (decide (id = i)) as [->|]; [|by exists b]. exists a. split; [done|by apply Ha].
Qed.
Lemma move_usage t l l' : move t l l' → t ≠ Settlement → usage_kept l l'.
Proof.
  intros Hm Ht. destruct Hm; try done; try exact (reflexivity l : usage_kept l l); try (apply usage_set_actor; intros; simplify_eq; done).
  - apply usage_set_actor. intros a0 ->. simpl. unfold recorded. repeat case_match; conditions; simpl; lia.
  - apply usage_set_actor. by intros a0 ->.
Qed.

Definition authorizing k : Prop := ∃ c approval, k = Extend c approval ∨ k = Reset_ c approval.
Definition settling k : Prop := ∃ id r n f, k = SettleRequest id r n f.
Definition unenforced k : Prop := ∃ id thread n m, k = ReserveRequest id thread n m false.
Lemma tags_exclude P (Q : call (T:=T) → Prop) t : (∀ k, P k → ¬ Q k) → (∀ k, tag_ok k t → Q k) → ¬ tags P t.
Proof. intros HP HQ (k & Hk & Ht). by eapply HP; [|apply HQ]. Qed.
Lemma move_configuration t l l' : move t l l' → t ≠ Reauthorization →
  configuration l' = configuration l ∧ authorization_history l' = authorization_history l.
Proof. by destruct 1. Qed.
Lemma move_cycles t l l' : move t l l' → t ≠ FreeCycle →
  correction_cycles l' = correction_cycles l ∨
  (correction_cycles l' = correction_cycles l + 1 ∧ correction_cycles l < max_correction_cycles (configuration l)).
Proof. intros Hm Ht. destruct Hm; simpl; auto. right. split; [done|]. by destruct H as [[]|]. Qed.

(** C40 (type). Whatever calls were made and wherever their file handling
    failed, a stored ledger is well formed: usage, reservations and prior
    charges are not negative and agree with their terms, every request belongs
    to a registered thread, every purpose names a protected obligation,
    obligations have positive funds and a known state, and a recorded
    completion stays within its reservation. *)
Theorem ledger_accounts l : history any_call None (Some l) → accounts_ok l.
Proof. apply reachable_ok. Qed.

(** (safety). Every configuration a ledger ever has was authorized: the
    history starts with the initial one, whose deadline remains on record, each
    later entry is an approved extension (which lowers neither the token limit
    nor the deadline) or reset with a new revision and the same start, the last
    entry is the valid configuration in force, and no other call changes it. *)
Theorem ledger_authorized l : history any_call None (Some l) →
  authorized l ∧ _configuration (configuration l) = Done (configuration l) ∧
  ∀ l', history (λ k, ¬ authorizing k) (Some l) (Some l') →
    configuration l' = configuration l ∧ authorization_history l' = authorization_history l.
Proof.
  intros [_ Ha]%reachable_ok. split_and!; [done|by apply authorized_valid|].
  intros l' (l1 & [= <-] & Hm)%history_moves.
  refine (moves_preserve _ (λ l1, configuration l1 = configuration l ∧ authorization_history l1 = authorization_history l) _ _ _ Hm _); [|done].
  intros t l1 l2 Ht Hmove [<- <-]. apply (move_configuration t); [done|]. intros ->. revert Ht.
  by apply (tags_exclude _ authorizing).
Qed.

(** What any history leaves of a ledger. *)
Lemma history_keeps P l s' : history P (Some l) s' →
  ∃ l', s' = Some l' ∧ keeps l l' ∧ ((∀ k, P k → ¬ settling k) → usage_kept l l').
Proof.
  intros (l' & -> & Hm)%history_moves. exists l'. split_and!; [done| |].
  - refine (moves_relation _ keeps _ _ _ Hm). intros t l1 l2 _. apply move_keeps.
  - intros HP. refine (moves_relation _ usage_kept _ _ _ Hm). intros t l1 l2 Ht Hmove. apply (move_usage t); [done|].
    intros ->. revert Ht. by apply (tags_exclude _ settling).
Qed.

(** C39 (safety). No call takes anything back: a configured ledger stays
    configured, keeps its first deadline and imported usage, its observed time
    never runs backwards, its authorizations, decisions and aliases only grow,
    a reservation keeps its terms, a bound transport its sessions and proofs,
    a protected obligation its terms and its completion; and unless a request
    is settled, no actor's recorded usage ever falls. *)
Theorem ledger_keeps P l s' : history P (Some l) s' →
  ∃ l', s' = Some l' ∧ keeps l l' ∧ ((∀ k, P k → ¬ settling k) → usage_kept l l').
Proof. apply history_keeps. Qed.

(** (bounds). As long as every request is enforced, at most two correction
    cycles are ever started, and between two authorizations no cycle starts at
    or above the configured maximum. *)
Theorem ledger_corrections l : history (λ k, ¬ unenforced k) None (Some l) →
  0 ≤ correction_cycles l ≤ 2 ∧
  ∀ l', history (λ k, ¬ unenforced k ∧ ¬ authorizing k) (Some l) (Some l') →
    correction_cycles l' ≤ Z.max (correction_cycles l) (max_correction_cycles (configuration l)).
Proof.
  intros (c & approval & prior & at_ & Hc & Happ & Hpr & Hm)%reachable_moves. split.
  - enough (authorized l ∧ 0 ≤ correction_cycles l ≤ 2) by tauto.
    refine (moves_preserve _ (λ l, authorized l ∧ 0 ≤ correction_cycles l ≤ 2) _ _ _ Hm _).
    + intros t l1 l2 Ht Hmove [Ha Hcyc]. split; [by eapply move_authorized|].
      assert (t ≠ FreeCycle) as Hne by (intros ->; revert Ht; by apply (tags_exclude _ unenforced)).
      pose proof (authorized_valid _ Ha) as Hv. apply configuration_Done in Hv as (_ & _ & _ & _ & _ & Hmax & _).
      destruct (move_cycles _ _ _ Hmove Hne) as [->|[-> ?]]; lia.
    + split; [by apply initial_authorized|]. simpl. lia.
  - intros l' (l1 & [= <-] & Hm')%history_moves.
    enough (configuration l' = configuration l ∧
      correction_cycles l' ≤ Z.max (correction_cycles l) (max_correction_cycles (configuration l))) by tauto.
    refine (moves_preserve _ (λ l1, configuration l1 = configuration l ∧
      correction_cycles l1 ≤ Z.max (correction_cycles l) (max_correction_cycles (configuration l))) _ _ _ Hm' _); [|by split; [|lia]].
    intros t l1 l2 Ht Hmove [Heq Hle].
    assert (t ≠ FreeCycle) as Hne by (intros ->; revert Ht; apply (tags_exclude _ unenforced); naive_solver).
    assert (t ≠ Reauthorization) as Hra by (intros ->; revert Ht; apply (tags_exclude _ authorizing); naive_solver).
    destruct (move_configuration _ _ _ Hmove Hra) as [-> _]. split; [done|].
    destruct (move_cycles _ _ _ Hmove Hne) as [->|[-> ?]]; rewrite ?Heq in *; lia.
Qed.
End Guarantees.
