(* ===== verification/LedgerAdmission.v ===== *)
(** * Admission against the objective ledger

    What an admitted reservation guarantees: the sums of the accounts, the
    admission of requests with the protection of the completion obligations,
    lifecycle reservations, settlements, the errors that remain, and a concrete
    history with the witnesses. *)
From S2P Require Import Prelude Json Sha256 Datetime Timestamps ObjectiveLedger LedgerMoves LedgerGuarantees.
Open Scope Z_scope.

(** ** Sums over the accounts *)
Create HintDb ledger_errors.

Section Sums.
Context {A : Type}.
Implicit Types (f g : string → A → Z) (m : gmap string A).

Lemma sum_over_insert f m i y : m !! i = None → sum_over f (<[i := y]> m) = f i y + sum_over f m.
Proof. intros Hi. unfold sum_over. rewrite map_fold_insert_L; [done|intros; lia|done]. Qed.
Lemma sum_over_ext f g m : (∀ i y, m !! i = Some y → f i y = g i y) → sum_over f m = sum_over g m.
Proof.
  induction m as [|i y m Hi IH] using map_ind; intros Hfg; [done|]. rewrite !sum_over_insert by done.
  rewrite (Hfg i y) by apply lookup_insert_eq. f_equal. apply IH. intros j z Hj. apply Hfg.
  rewrite lookup_insert_ne; [done|]. intros ->. congruence.
Qed.
Lemma sum_over_split f m i y : m !! i = Some y → sum_over f m = f i y + sum_over f (delete i m).
Proof. intros Hi. rewrite <- (insert_delete_id m i y) at 1 by done. by rewrite sum_over_insert by apply lookup_delete_eq. Qed.
Lemma sum_over_replace f m i y z : m !! i = Some y → sum_over f (<[i := z]> m) = sum_over f m - f i y + f i z.
Proof.
  intros Hi. rewrite (sum_over_split f m i y) by done. rewrite <- (insert_delete_eq m i z), sum_over_insert by apply lookup_delete_eq. lia.
Qed.
(** One entry gives up [d]. *)
Lemma sum_over_shift f g m i y d : m !! i = Some y → g i y = f i y - d → (∀ j z, m !! j = Some z → j ≠ i → g j z = f j z) →
  sum_over g m = sum_over f m - d.
Proof.
  intros Hi Hd Hne. rewrite (sum_over_split f m i y), (sum_over_split g m i y) by done. rewrite Hd.
  rewrite (sum_over_ext f g (delete i m)); [lia|]. intros j z [? ?]%lookup_delete_Some. symmetry. by apply Hne.
Qed.
End Sums.
Lemma sum_over_imap {A B} (h : string → A → B) (f : string → B → Z) (m : gmap string A) :
  sum_over f (map_imap (λ i y, Some (h i y)) m) = sum_over (λ i y, f i (h i y)) m.
Proof.
  induction m as [|i y m Hi IH] using map_ind; [by rewrite map_imap_empty|]. rewrite (map_imap_insert_Some _ i y m (h i y)) by done.
  rewrite !sum_over_insert; [by rewrite IH|done|]. by rewrite map_lookup_imap, Hi.
Qed.

Section Admission.
Context {T : Type} {TT : Timestamp T} {LT : TimestampLaws T}.
Implicit Types (l : ledger (T:=T)) (a : actor (T:=T)) (x : session (T:=T)) (p : plan).

Lemma view_Done l now v : _view l now = Done v →
  ∃ t d, _epoch now = Done t ∧ _epoch (objective_deadline (configuration l)) = Done d ∧ v = view_of l t d.
Proof. unfold _view. intros. done_inv. eauto. Qed.
Lemma ready_view l t d : ready (view_of l t d) = true →
  accounting_known l = true ∧ t_ltb (latest l t) d = true ∧ 0 < objective_token_limit (configuration l) - tokens_used l - tokens_reserved l ∧
  remaining_tokens l = objective_token_limit (configuration l) - tokens_used l - tokens_reserved l.
Proof.
  unfold ready, view_of. simpl. rewrite bool_decide_eq_true. intros Hr. destruct (accounting_known l); [|done]. simpl in Hr.
  unfold t_ltb. destruct (t_leb d (latest l t)); [done|]. simpl in Hr. destruct (Z.eqb_spec (remaining_tokens l) 0); [done|].
  unfold remaining_tokens in *. split_and!; try done; lia.
Qed.
Lemma observed_latest l t : latest (set_observed (Some (latest l t)) l) t = latest l t.
Proof.
  unfold latest. simpl. destruct (observed_at l) as [o|]; unfold t_max at 1; [|by rewrite t_leb_refl].
  unfold t_max. destruct (t_leb o t) eqn:Ho; [by rewrite t_leb_refl|]. by rewrite Ho.
Qed.

(** *** Adding an actor *)
Definition with_actor (id : string) a l : ledger (T:=T) := set_actors (<[id := a]> (actors l)) l.
Lemma new_actor_sums id a l : actors l !! id = None → used a = 0 → settled a = false → 0 ≤ reservation a →
  tokens_used (with_actor id a l) = tokens_used l ∧ tokens_reserved (with_actor id a l) = tokens_reserved l + reservation a.
Proof.
  intros Hid Hu Hs Hr. unfold tokens_used, tokens_reserved, with_actor. simpl. rewrite !sum_over_insert by done.
  unfold held at 1. rewrite Hu, Hs. lia.
Qed.
Lemma new_actor_known id a l : actors l !! id = None → known a = true → accounting_known (with_actor id a l) = accounting_known l.
Proof.
  intros Hid Hk. unfold accounting_known, with_actor. simpl. apply bool_decide_ext. rewrite map_Forall_insert by done. naive_solver.
Qed.
Lemma new_actor_remaining id a l : actors l !! id = None → used a = 0 → settled a = false → 0 ≤ reservation a →
  remaining_tokens (with_actor id a l) =
    Z.max 0 (objective_token_limit (configuration l) - tokens_used l - tokens_reserved l - reservation a).
Proof. intros. unfold remaining_tokens. destruct (new_actor_sums id a l) as [-> ->]; try done. simpl. lia. Qed.

(** *** An admitted request *)
Lemma transaction_Done {A} (env : Env) s (body : option ledger → result string (A * ledger)) r s' :
  _transaction env true s body = (Done r, s') → ∃ l', body s = Done (r, l') ∧ s' = Some l'.
Proof.
  unfold _transaction, io. intros Ht. destruct (io_fails env "open"), (io_fails env "read"); simpl in Ht; simplify_eq.
  destruct (body s) as [[r' l']|]; simplify_eq. destruct (io_fails env "write"); simplify_eq.
  destruct (io_fails env "sync"); simplify_eq. eauto.
Qed.
Lemma start_cycle_fields purpose l l2 : start_cycle purpose l = Done l2 →
  actors l2 = actors l ∧ request_sessions l2 = request_sessions l ∧ configuration l2 = configuration l ∧
  prior_tokens l2 = prior_tokens l ∧ observed_at l2 = observed_at l ∧
  match completion_plan l with
  | None => completion_plan l2 = None
  | Some p => ∃ p', completion_plan l2 = Some p' ∧
      (∀ name, purpose = Some name → is_Some (obligations p !! name)) ∧
      (p' = p ∨ ∃ name o, obligations p !! name = Some o ∧ p' = set_obligation name (started_obligation o) p)
  end.
Proof.
  unfold start_cycle. intros Hs. destruct (completion_plan l) as [p|] eqn:Hp; [|by injection Hs as <-].
  destruct purpose as [name|]; [|injection Hs as <-; split_and!; try done; exists p; split_and!; eauto; done].
  destruct (obligations p !! name) as [o|] eqn:Ho; [|done].
  destruct (_ && _); injection Hs as <-; split_and!; try done; (eexists; split_and!; [done|by intros ? [= <-]; eauto|]); eauto.
Qed.
Lemma request_admitted env id thread n m enforce now l v why s' :
  reserve_request env id thread n m enforce now (Some l) = (Done (v, Some true, why), s') →
  ∃ t d l2, let l1 := set_observed (Some (latest l t)) l in let v1 := view_of l1 t d in let x := session_for thread v1 l1 in
    _epoch now = Done t ∧ _epoch (objective_deadline (configuration l)) = Done d ∧ 0 ≤ n ∧ 0 ≤ m ∧ actors l !! id = None ∧
    request_refusal thread x n m enforce v1 (with_session thread x l1) = None ∧
    start_cycle (session_obligation x) (with_session thread x l1) = Done l2 ∧
    s' = Some (with_actor id (request_actor n m thread x) l2) ∧ v = view_of (with_actor id (request_actor n m thread x) l2) t d.
Proof.
  unfold reserve_request. intros Hr. destruct (_ ≫= _) as [u|] eqn:Hg; [|done]. count_args.
  apply transaction_Done in Hr as (l' & Hb & ->). unfold reserve_request_body in Hb.
  apply result_bind_Done in Hb as (l1 & (l0 & t & [= <-] & Ht & ->)%observed_Done & Hb).
  apply result_bind_Done in Hb as (v1 & (t1 & d & Ht1 & Hd & ->)%view_Done & Hb). assert (t1 = t) as -> by congruence.
  destruct (negb (json_truthy _) || _); [done|]. case_bool_decide as Hid; [done|].
  destruct (request_refusal _ _ _ _ _ _ _) eqn:Hrf; [apply viewed_Done in Hb as (_ & ? & _ & ?); congruence|].
  apply result_bind_Done in Hb as (l2 & Hc & (-> & v2 & (t2 & d2 & Ht2 & Hd2 & ->)%view_Done & [= -> _])%viewed_Done).
  exists t, d, l2. apply start_cycle_fields in Hc as Hf. destruct Hf as (_ & _ & Ec & _). simpl in Hd2. rewrite Ec in Hd2.
  simpl in Hd, Hd2. assert (t2 = t) as -> by congruence. assert (d2 = d) as -> by congruence.
  split_and!; try done. by apply eq_None_not_Some.
Qed.
Lemma group_used_actor id n m thread x l : actors l !! id = None → 0 ≤ n → request_sessions l !! thread = Some x →
  group_used (group_of thread x) (with_actor id (request_actor n m thread x) l) = group_used (group_of thread x) l + n.
Proof.
  intros Hid Hn Hx. unfold group_used, with_actor. simpl. rewrite sum_over_insert by done.
  assert (request_in (members (group_of thread x) (request_sessions l)) (request_actor n m thread x) = true) as ->.
  { unfold request_in. simpl. apply bool_decide_eq_true. exists x. by apply map_lookup_filter_Some. }
  unfold charged. simpl. lia.
Qed.
Lemma group_used_same g l l' : actors l' = actors l → request_sessions l' = request_sessions l → group_used g l' = group_used g l.
Proof. unfold group_used. by intros -> ->. Qed.

(** C36 (bounds). An admitted request keeps every allowance. The objective's
    recorded usage and reservations stay within its token limit, the requests
    and imported tokens of the thread's context chain within the session limit,
    the request ends by the session's deadline and within the session's time
    limit, and it is admitted before the objective's deadline, for a new
    identifier and with all accounting known. *)
Theorem request_admission env id thread n m now l v why s' :
  reserve_request env id thread n m true now (Some l) = (Done (v, Some true, why), s') →
  ∃ l' x o d, s' = Some l' ∧ actors l !! id = None ∧ actors l' !! id = Some (request_actor n m thread x) ∧
    request_sessions l' !! thread = Some x ∧ configuration l' = configuration l ∧
    tokens_used l' + tokens_reserved l' ≤ objective_token_limit (configuration l) ∧
    group_used (group_of thread x) l' ≤ session_token_limit (configuration l) ∧
    m ≤ session_time_limit_seconds (configuration l) ∧ accounting_known l' = true ∧
    observed_at l' = Some o ∧ t_plus o m ≤ₜ deadline x ∧
    _epoch (objective_deadline (configuration l)) = Done d ∧ t_ltb o d = true.
Proof.
  intros (t & d & l2 & Ht & Hd & Hn & Hm & Hid & Hrf & Hc & -> & _)%request_admitted.
  set (l1 := set_observed _ l) in *. set (x := session_for _ _ _) in *.
  apply start_cycle_fields in Hc as (Ea & Es & Ec & Ep & Eo & _).
  eexists _, x, (latest l t), d. unfold request_refusal, allowance in Hrf.
  destruct (ready _ && _ && _ && _ && _) eqn:Hall; [|done]. conditions.
  match goal with H : ready _ = true |- _ => apply ready_view in H as (Hk & Hlt & Hpos & Hrem) end.
  change (v_remaining_tokens (view_of l1 t d)) with (remaining_tokens l1) in *.
  destruct (new_actor_sums id (request_actor n m thread x) l2) as [Eu Er]; try done; [by rewrite Ea|]. rewrite Eu, Er.
  assert (tokens_used l2 = tokens_used l1 ∧ tokens_reserved l2 = tokens_reserved l1) as [-> ->]
    by (unfold tokens_used, tokens_reserved; by rewrite Ea, Ep).
  split_and!; try done; simpl in *.
  - by rewrite lookup_insert_eq.
  - by rewrite Es, lookup_insert_eq.
  - lia.
  - rewrite group_used_actor by (by rewrite ?Ea, ?Es, ?lookup_insert_eq).
    rewrite (group_used_same _ (with_session thread x l1)) by done. lia.
  - rewrite new_actor_known by (by rewrite ?Ea). unfold accounting_known in *. by rewrite Ea.
  - by rewrite <- (observed_latest l t).
Qed.

(** *** The protected completion path *)
Lemma foldl_min_lower (ds : list T) d : foldl t_min d ds ≤ₜ d ∧ ∀ e, e ∈ ds → foldl t_min d ds ≤ₜ e.
Proof.
  revert d. induction ds as [|e ds IH]; intros d; simpl; [split; [apply t_leb_refl|by intros ? ?%not_elem_of_nil]|].
  destruct (IH (t_min d e)) as [Hd Hds]. split; [by eapply t_leb_trans, t_min_l|].
  intros f [->|Hf]%elem_of_cons; [by eapply t_leb_trans, t_min_r|by apply Hds].
Qed.
Lemma foldl_min_attained (ds : list T) d : foldl t_min d ds = d ∨ foldl t_min d ds ∈ ds.
Proof.
  revert d. induction ds as [|e ds IH]; intros d; simpl; [by left|]. destruct (IH (t_min d e)) as [->|Hin]; [|by right; right].
  unfold t_min. destruct (t_leb d e); [by left|right; left].
Qed.
Lemma completion_deadline_le l l' p p' d :
  (∀ i y, request_sessions l' !! i = Some y → works_on_pending p' y = true →
    request_sessions l !! i = Some y ∧ works_on_pending p y = true) →
  completion_deadline l p d ≤ₜ completion_deadline l' p' d.
Proof.
  intros Hw. unfold completion_deadline. set (ds := deadline <$> _). set (ds' := deadline <$> _).
  destruct (foldl_min_lower ds d) as [Hd Hds]. destruct (foldl_min_attained ds' d) as [->|Hin]; [done|].
  apply Hds. unfold ds, ds' in *. apply list_elem_of_fmap in Hin as (y & -> & Hy). apply list_elem_of_fmap_2.
  apply list_elem_of_In, filter_In in Hy as [Hy Hp]. apply list_elem_of_In, filter_In.
  apply list_elem_of_In, list_elem_of_fmap in Hy as ([i z] & -> & Hz%elem_of_map_to_list). simpl in *.
  destruct (Hw i z Hz Hp) as [Hz' Hp']. split; [|done]. apply list_elem_of_In, list_elem_of_fmap.
  exists (i, z). split; [done|]. by apply elem_of_map_to_list.
Qed.
(** What protection depends on survives the start of a cycle. *)
Definition alike (o o' : obligation) : Prop :=
  obligation_tokens o' = obligation_tokens o ∧ obligation_seconds o' = obligation_seconds o ∧ obligation_state o' = obligation_state o.
Lemma alike_status l o o' name : alike o o' → status_of l name o' = status_of l name o.
Proof. unfold status_of. by intros (-> & -> & ->). Qed.
Lemma started_plan_lookup (p : plan) name o i : obligations p !! name = Some o →
  ∀ o', obligations (set_obligation name (started_obligation o) p) !! i = Some o' → ∃ o0, obligations p !! i = Some o0 ∧ alike o0 o'.
Proof. intros Ho o'. simpl. intros [[<- <-]|[_ Hi]]%lookup_insert_Some; [by exists o|by exists o']. Qed.
Lemma started_plan_sum (f : string → obligation → Z) (p : plan) name o : obligations p !! name = Some o →
  f name (started_obligation o) = f name o → sum_over f (obligations (set_obligation name (started_obligation o) p)) = sum_over f (obligations p).
Proof. intros Ho Hf. simpl. rewrite (sum_over_replace _ _ _ o) by done. lia. Qed.

(** A new request is charged to its obligation and to no other. *)
Lemma charged_actor id n m thread x l name : actors l !! id = None → 0 ≤ n →
  obligation_charged (with_actor id (request_actor n m thread x) l) name =
    obligation_charged l name + (if bool_decide (session_obligation x = Some name) then n else 0) ∧
  obligation_charged_seconds (with_actor id (request_actor n m thread x) l) name =
    obligation_charged_seconds l name + (if bool_decide (session_obligation x = Some name) then m else 0).
Proof.
  intros Hid Hn. unfold obligation_charged, obligation_charged_seconds, with_actor, for_obligation. simpl.
  rewrite !sum_over_insert by done. unfold charged at 1. unfold terms_seconds at 1. simpl. split; case_bool_decide; lia.
Qed.
Lemma status_actor id n m thread x l name o : actors l !! id = None → 0 ≤ n → session_obligation x ≠ Some name →
  status_of (with_actor id (request_actor n m thread x) l) name o = status_of l name o.
Proof.
  intros Hid Hn Hx. unfold status_of. destruct (charged_actor id n m thread x l name Hid Hn) as [-> ->].
  rewrite (bool_decide_false (session_obligation x = _)) by done. by rewrite !Z.add_0_r.
Qed.
Lemma status_same l l' name o : actors l' = actors l → status_of l' name o = status_of l name o.
Proof. intros Ha. unfold status_of, obligation_charged, obligation_charged_seconds. by rewrite Ha. Qed.
Lemma status_own id n m thread x l name o : actors l !! id = None → 0 ≤ n → 0 ≤ m → session_obligation x = Some name →
  obligation_state o ≠ "completed" →
  n ≤ os_protected_tokens (status_of l name o) → m ≤ os_protected_seconds (status_of l name o) →
  os_protected_tokens (status_of (with_actor id (request_actor n m thread x) l) name o) = os_protected_tokens (status_of l name o) - n ∧
  os_protected_seconds (status_of (with_actor id (request_actor n m thread x) l) name o) = os_protected_seconds (status_of l name o) - m.
Proof.
  intros Hid Hn Hm Hx Ho. unfold status_of. destruct (charged_actor id n m thread x l name Hid Hn) as [-> ->].
  rewrite (bool_decide_true (session_obligation x = _)), (bool_decide_false (obligation_state o = _)) by done. simpl. lia.
Qed.

(** The funds protected after the request, from what the protection check allowed. *)
Definition protected_funds l (p : plan) : Z * Z :=
  (sum_over (λ name o, os_protected_tokens (status_of l name o)) (obligations p),
   sum_over (λ name o, os_protected_seconds (status_of l name o)) (obligations p)).
Lemma completion_status_funds l t d p cs : completion_plan l = Some p → _completion_status l t d = Some cs →
  cs_obligations cs = map_imap (λ name o, Some (status_of l name o)) (obligations p) ∧
  (cs_protected_tokens cs, cs_protected_seconds cs) = protected_funds l p ∧ cs_from cs = latest l t ∧
  cs_deadline cs = completion_deadline l p d ∧
  cs_feasible cs = accounting_known l && (cs_protected_tokens cs <=? remaining_tokens l) &&
    t_room (cs_deadline cs) (cs_from cs) (cs_protected_seconds cs).
Proof. unfold _completion_status. intros -> [= <-]. simpl. unfold protected_funds. by rewrite !sum_over_imap. Qed.
Lemma protected_funds_after id n m thread x l p cs v l2 p' t d :
  actors l !! id = None → 0 ≤ n → 0 ≤ m → completion_plan l = Some p → _completion_status l t d = Some cs →
  (∀ name, session_obligation x = Some name → is_Some (obligations p !! name)) →
  protection n m l v cs (session_obligation x) = None → actors l2 = actors l →
  p' = p ∨ (∃ name o, obligations p !! name = Some o ∧ p' = set_obligation name (started_obligation o) p) →
  let l' := with_actor id (request_actor n m thread x) l2 in
  protected_funds l' p' = match session_obligation x with
    | Some _ => ((protected_funds l p).1 - n, (protected_funds l p).2 - m)
    | None => protected_funds l p
    end.
Proof.
  intros Hid Hn Hm Hp Hcs Hpurpose Hprot Ha Hp' l'.
  assert (protected_funds l' p' = protected_funds l' p) as ->.
  { destruct Hp' as [->|(name & o & Ho & ->)]; [done|]. unfold protected_funds.
    by rewrite !(started_plan_sum _ p name o) by (done || by rewrite (alike_status _ o)). }
  assert (∀ name o, session_obligation x ≠ Some name → status_of l' name o = status_of l name o) as Hother.
  { intros name o Hne. unfold l'. rewrite status_actor by (by rewrite ?Ha). by apply status_same. }
  unfold protected_funds. destruct (session_obligation x) as [name|] eqn:Hx.
  - destruct (Hpurpose name eq_refl) as [o Ho].
    destruct (completion_status_funds _ _ _ _ _ Hp Hcs) as (Hobs & _). unfold protection in Hprot. simpl in Hprot.
    rewrite Hobs, map_lookup_imap, Ho in Hprot. simpl in Hprot.
    repeat match type of Hprot with (if ?b then _ else _) = _ => destruct b eqn:?; [done|] end. conditions.
    destruct (status_own id n m thread x l2 name o) as [Et Es]; try done.
    + by rewrite Ha.
    + intros Hc. match goal with H : Some _ ≠ Some "completed" |- _ => apply H end. by rewrite Hc.
    + by rewrite (status_same l).
    + by rewrite (status_same l).
    + rewrite (status_same l l2) in Et, Es by done. cbn [fst snd]. f_equal.
      * apply (sum_over_shift _ _ _ name o); [done|done|]. intros j z _ Hj. cbn beta. rewrite Hother; [done|congruence].
      * apply (sum_over_shift _ _ _ name o); [done|done|]. intros j z _ Hj. cbn beta. rewrite Hother; [done|congruence].
  - f_equal; apply sum_over_ext; intros j z _; cbn beta; by rewrite Hother.
Qed.
Lemma protection_feasible n m l v cs purpose : protection n m l v cs purpose = None → cs_feasible cs = true.
Proof.
  unfold protection. intros Hp. repeat match type of Hp with (if ?b then _ else _) = _ => destruct b eqn:?; [done|] end. by conditions.
Qed.
Lemma protection_none n m l v cs : protection n m l v cs None = None → n + cs_protected_tokens cs ≤ v_remaining_tokens v ∧
  t_room (cs_deadline cs) (cs_from cs) (m + cs_protected_seconds cs) = true.
Proof.
  unfold protection. simpl. intros Hp. repeat match type of Hp with (if ?b then _ else _) = _ => destruct b eqn:?; [done|] end.
  conditions. rewrite Z.sub_0_r in *. split; [lia|done].
Qed.
Lemma works_after l thread v l2 p p' : request_sessions l2 = request_sessions (with_session thread (session_for thread v l) l) →
  p' = p ∨ (∃ name o, obligations p !! name = Some o ∧ p' = set_obligation name (started_obligation o) p) →
  ∀ i y, request_sessions l2 !! i = Some y → works_on_pending p' y = true →
    request_sessions l !! i = Some y ∧ works_on_pending p y = true.
Proof.
  intros -> Hp' i y Hy Hw. split.
  - simpl in Hy. apply lookup_insert_Some in Hy as [[<- <-]|[_ Hy]]; [|done]. unfold session_for in *.
    by destruct (request_sessions l !! thread).
  - destruct Hp' as [->|(name & o & Ho & ->)]; [done|]. unfold works_on_pending in *.
    destruct (session_obligation y) as [n|]; [|done]. simpl in *. revert Hw. rewrite lookup_insert.
    destruct (decide (name = n)) as [->|]; [|done]. by rewrite Ho.
Qed.


(** *** Settlements *)
Definition calm (env : Env) : Prop := ∀ place, io_fails env place = None.
Lemma calm_transaction {A} env s (body : option ledger → result string (A * ledger)) r l' : calm env → body s = Done (r, l') →
  _transaction env true s body = (Done r, Some l').
Proof. intros He Hb. unfold _transaction, io. rewrite !He. simpl. by rewrite Hb. Qed.
Lemma valid_view l now t : authorized l → _epoch now = Done t → ∃ v, _view l now = Done v.
Proof.
  intros Ha Ht. apply authorized_valid, configuration_Done in Ha as (_ & _ & _ & _ & _ & _ & _ & b & d & _ & Hd & _).
  unfold _view. rewrite Ht, Hd. simpl. eauto.
Qed.
Lemma proof_eqb_refl (p : proof) : proof_eqb p p = true.
Proof. unfold proof_eqb, json_py_eqb. by rewrite !bool_decide_true. Qed.
Lemma settle_again env l r (p : proof) now t : history any_call None (Some l) → request_completions l !! r = Some p → r ≠ "" → calm env →
  _epoch now = Done t →
  ∃ v, settle_request env (proof_actor p) (Some r) (proof_tokens p) (proof_fingerprint p) now (Some l) =
    (Done (v, None, None), Some (set_observed (Some (latest l t)) l)).
Proof.
  intros [Hacc Haz]%reachable_ok Hp Hr He Ht. destruct (ac_proofs l Hacc r p Hp) as [Hb (a & n & Ha & Hn & Hpos & _)].
  set (l1 := set_observed (Some (latest l t)) l). destruct (valid_view l1 now t) as [v Hv]; [done..|]. exists v.
  unfold settle_request. rewrite Hn. unfold _count. rewrite (proj2 (Z.ltb_ge _ _) Hpos). simpl.
  apply calm_transaction; [done|]. unfold settle_body. simpl. unfold _observe. rewrite Ht. simpl. fold l1. rewrite Hv. simpl.
  rewrite Ha. unfold bound in Hb. rewrite Hb.
  destruct (ao_bound _ _ _ (ac_actors l Hacc _ _ Ha) Hb) as [thread Hthread].
  destruct (ao_thread _ _ _ (ac_actors l Hacc _ _ Ha) thread Hthread) as [_ ->]. simpl.
  rewrite (bool_decide_false (r = "")) by done. simpl. rewrite Hp, <- Hn.
  replace {| proof_actor := proof_actor p; proof_tokens := proof_tokens p; proof_fingerprint := proof_fingerprint p |} with p by by destruct p.
  rewrite proof_eqb_refl. unfold viewed. by rewrite Hv.
Qed.
Lemma reachable_step l env k now r s' l' : history any_call None (Some l) → perform env k now (Some l) = (r, s') → s' = Some l' →
  history any_call None (Some l').
Proof. intros Hh Hp ->. eapply rtc_r; [done|]. by exists env, k, now, r. Qed.


(** *** Lifecycle reservations *)
(** (functional). A lifecycle reservation is admitted once.  An admission
    either enrols a new actor, within the objective's remaining tokens, the
    session's limits and the deadline, or repeats one whose terms are the same,
    which is still unsettled with tokens left before its deadline, and then
    charges nothing.  Different terms for an enrolled actor are refused. *)
Theorem lifecycle_reservation env id n m now l r s' : reserve env id n m now (Some l) = (r, s') →
  (∀ v why, r = Done (v, Some true, why) → ∃ l' o d, s' = Some l' ∧ observed_at l' = Some o ∧
    _epoch (objective_deadline (configuration l)) = Done d ∧ configuration l' = configuration l ∧
    tokens_used l' + tokens_reserved l' ≤ objective_token_limit (configuration l) ∧ accounting_known l' = true ∧
    (actors l !! id = None ∧ actors l' = <[id := new_actor n m (t_plus o m)]> (actors l) ∧
       n ≤ session_token_limit (configuration l) ∧ m ≤ session_time_limit_seconds (configuration l) ∧ t_plus o m ≤ₜ d ∧ t_ltb o d = true ∨
     ∃ a until, actors l !! id = Some a ∧ actors l' = actors l ∧ actor_terms a = Some (Tokens n m) ∧ settled a = false ∧
       used a < reservation a ∧ session_deadline a = Some until ∧ t_ltb o (t_min until d) = true)) ∧
  (∀ a q, actors l !! id = Some a → actor_terms a = Some q → q ≠ Tokens n m → s' = Some l ∧ ∃ e, r = Raised e).
Proof.
  intros Hr. unfold reserve in Hr. destruct (_ ≫= _) as [u|] eqn:Hg; [|simplify_eq; split; [done|eauto]]. count_args.
  split.
  - intros v why ->. apply transaction_Done in Hr as (l' & Hb & ->). unfold reserve_body in Hb.
    apply result_bind_Done in Hb as (l1 & (l0 & t & [= <-] & Ht & ->)%observed_Done & Hb).
    apply result_bind_Done in Hb as (v1 & (t1 & d & Ht1 & Hd & ->)%view_Done & Hb). assert (t1 = t) as -> by congruence.
    set (l1 := set_observed _ l) in *. destruct (json_truthy _) eqn:?; [done|].
    destruct (_ ≫= _) as [[a q]|] eqn:Hex.
    + destruct (negb (terms_eqb _ _)) eqn:Hq; [done|]. apply result_bind_Done in Hb as (adm & Hadm & (-> & v2 & _ & [= _ <- _])%viewed_Done).
      unfold readmit in Hadm. destruct (_ && _ && _ && _) eqn:Hall; [|done].
      destruct (session_deadline a) as [until|] eqn:Hun; [|done]. injection Hadm as Hadm. conditions.
      apply bind_Some in Hex as (a' & Ha & (q' & Hq' & [= -> ->])%bind_Some).
      exists l1, (latest l t), d. split_and!; try done. right. exists a, until. split_and!; try done.
      unfold terms_eqb in Hq. destruct q; [|done]. conditions. by subst.
    + destruct (ready _ && _ && _ && _ && _) eqn:Hall; [|apply viewed_Done in Hb as (_ & ? & _ & ?); congruence]. conditions.
      destruct (actors l1 !! id) as [a|] eqn:Ha; [done|].
      apply viewed_Done in Hb as (-> & _).
      match goal with H : ready _ = true |- _ => apply ready_view in H as (Hk & Hlt & Hpos & Hrem) end.
      exists (with_actor id (new_actor n m (t_plus (latest l t) m)) l1), (latest l t), d.
      change (v_remaining_tokens (view_of l1 t d)) with (remaining_tokens l1) in *.
      destruct (new_actor_sums id (new_actor n m (t_plus (latest l t) m)) l1) as [-> ->]; [done..|]. simpl.
      split_and!; try done; [simpl in *; lia|by rewrite new_actor_known|].
      left. split_and!; try done. by rewrite <- (observed_latest l t).
  - intros a q Ha Hq Hne.
    enough (∃ e, reserve_body id n m now (Some l) = Raised e) as [e He].
    { unfold _transaction, io in Hr. destruct (io_fails env "open"), (io_fails env "read"); simpl in Hr; simplify_eq; try by split; eauto.
      rewrite He in Hr. simplify_eq. split; eauto. }
    destruct (reserve_body id n m now (Some l)) as [[ans l']|e] eqn:Hb; [exfalso|by eexists]. unfold reserve_body in Hb.
    apply result_bind_Done in Hb as (l1 & (l0 & t & [= <-] & Ht & ->)%observed_Done & Hb).
    apply result_bind_Done in Hb as (v1 & _ & Hb). destruct (json_truthy _); [done|]. simpl in Hb. rewrite Ha in Hb. simpl in Hb.
    rewrite Hq in Hb. simpl in Hb. destruct (negb (terms_eqb q (Tokens n m))) eqn:Hneq; [done|]. apply Hne.
    destruct q; [|done]. simpl in Hneq. conditions. by subst.
Qed.

(** *** Errors *)
Definition value_error (e : string) : Prop := e = "ValueError".
(** The remaining key errors: a goal bound to, or a settlement of, an actor that is not enrolled. *)
Definition ledger_error l (k : call (T:=T)) (e : string) : Prop :=
  value_error e ∨ e = "KeyError" ∧ ((∃ g id n, k = BindGoal g id n ∧ actors l !! id = None) ∨
    (∃ id r n f, k = SettleRequest id r n f ∧ actors l !! id = None)).
(** Completion sources can be opened, whatever they hold. *)
Definition readable (env : Env) : Prop := ∀ path, (∃ b, canonical env path = Done b) ∧ ∃ opened, open_source env path = Done opened.

Ltac errors :=
  repeat first
  [ apply only_Done | apply only_Raised; done | solve [auto with ledger_errors] | apply only_bind; [|intros ? ?]
  | match goal with
    | |- only _ (if ?b then _ else _) => destruct b eqn:?
    | |- only _ (let '(_, _) := ?p in _) => destruct p
    | |- only _ (match ?o with _ => _ end) => destruct o eqn:?
    end ].
Lemma epoch_only now : only value_error (_epoch (T:=T) now).
Proof. unfold _epoch. errors. Qed.
Lemma count_only n : only value_error (_count n).
Proof. unfold _count. errors. Qed.
#[local] Hint Resolve epoch_only count_only : ledger_errors.
Lemma view_only l now : only value_error (_view l now).
Proof. unfold _view. errors. Qed.
Lemma observe_only l now : only value_error (_observe l now).
Proof. unfold _observe. errors. Qed.
#[local] Hint Resolve view_only observe_only : ledger_errors.
Lemma viewed_only l now adm why : only value_error (viewed l now adm why).
Proof. unfold viewed. errors. Qed.
Lemma observed_only l now : only value_error (observed (Some l) now).
Proof. unfold observed. errors. Qed.
Lemma configured_only l now : only value_error (configured (Some l) now).
Proof. unfold configured. errors. Qed.
Lemma planned_only l now : only value_error (planned (Some l) now).
Proof. unfold planned. errors. Qed.
Lemma configuration_only (c : config (T:=T)) : only value_error (_configuration c).
Proof. unfold _configuration. errors. Qed.
#[local] Hint Resolve viewed_only observed_only configured_only planned_only configuration_only : ledger_errors.
Lemma source_only env source : readable env → only value_error (_completion_source env source).
Proof.
  intros He. unfold _completion_source. destruct (He (path_text (parse_path (source_path source)))) as [[b ->] [x ->]]. errors.
Qed.
Lemma items_only items values : only value_error (collect_obligations items values).
Proof. revert values. induction items as [|i items IH]; intros values; simpl; errors. Qed.
Lemma values_only items : only value_error (protected_values items).
Proof. pose proof (items_only items ∅). unfold protected_values. errors. Qed.
Lemma transaction_error {A} (env : Env) w l k (body : option (ledger (T:=T)) → result string (A * ledger (T:=T))) e s' :
  calm env → only (ledger_error l k) (body (Some l)) → _transaction env w (Some l) body = (Raised e, s') →
  ledger_error l k e ∧ s' = Some l.
Proof.
  intros He Hb. unfold _transaction, io. rewrite !He. simpl. destruct (body (Some l)) as [[a l']|e'] eqn:Heq.
  - by destruct w.
  - intros [= <- <-]. split; [by apply Hb|done].
Qed.

(** *** The bodies raise value errors only *)
Section Bodies.
Context (l : ledger (T:=T)) (now : time_value (T:=T)) (Hacc : accounts_ok l) (Haz : authorized l).

Lemma only_observed {A} ok (k : ledger → result string A) : value_error "ValueError" → (∀ e, value_error e → ok e) →
  (∀ t, only ok (k (set_observed (Some (latest l t)) l))) → only ok (observed (Some l) now ≫= k).
Proof.
  intros _ Hok Hk. apply only_bind; [intros e He; by apply Hok, (observed_only l now)|].
  intros l1 (l0 & t & [= <-] & _ & ->)%observed_Done. apply Hk.
Qed.
Lemma terms_deadline id a : actors l !! id = Some a → is_Some (actor_terms a) → is_Some (session_deadline a).
Proof. intros Ha. apply (ao_deadline _ _ _ (ac_actors l Hacc id a Ha)). Qed.
Lemma configure_errors c approval prior : only value_error (configure_body c approval prior now (Some l)).
Proof. unfold configure_body. errors. Qed.
Lemma reserve_errors id n m : only value_error (reserve_body id n m now (Some l)).
Proof.
  unfold reserve_body. apply only_observed; [done..|]. intros t. errors.
  unfold readmit. errors. exfalso. simpl in Heqo. apply bind_Some in Heqo as (a' & Ha & (q & Hq & [= -> _])%bind_Some).
  destruct (terms_deadline id a Ha); [eauto|congruence].
Qed.
Lemma adopt_errors goal_id budget until : only value_error (adopt_body goal_id budget until now (Some l)).
Proof.
  unfold adopt_body. apply only_observed; [done..|]. intros t. errors.
  exfalso. simpl in *. apply bind_Some in Heqo as (a' & Ha & (q & Hq & [= ->])%bind_Some).
  destruct (terms_deadline _ a Ha); [eauto|congruence].
Qed.
Lemma authorize_errors c approval action : only value_error (_authorize_body c approval action now (Some l)).
Proof.
  unfold _authorize_body. apply only_observed; [done..|]. intros t. errors.
  exfalso. destruct Haz as (e0 & later & Hh & _). simpl in *. rewrite Hh in *. by apply last_None in Heqo.
Qed.
Lemma record_errors id cumulative final goal : only value_error (_record_body id cumulative final goal now (Some l)).
Proof. unfold _record_body. errors. Qed.
Lemma bind_requests_errors binding prior : only value_error (bind_requests_body binding prior now (Some l)).
Proof. unfold bind_requests_body. errors. Qed.
Lemma register_errors thread parent prov : only value_error (register_body thread parent prov now (Some l)).
Proof. unfold register_body. errors. Qed.
Lemma continue_errors thread source prov : only value_error (continue_body thread source prov now (Some l)).
Proof. unfold continue_body. errors. Qed.
Lemma protect_errors source values : only value_error (protect_body source values now (Some l)).
Proof. unfold protect_body. errors. Qed.
Lemma assign_errors thread name source : only value_error (assign_body thread name source now (Some l)).
Proof. unfold assign_body. errors. Qed.
Lemma resolve_errors name st source note : only value_error (resolve_body name st source note now (Some l)).
Proof. unfold resolve_body. errors. Qed.
Lemma correction_errors key id : only value_error (correction_body key id now (Some l)).
Proof. unfold correction_body. errors. Qed.
Lemma reserve_request_errors id thread n m enforce : only value_error (reserve_request_body id thread n m enforce now (Some l)).
Proof.
  unfold reserve_request_body. apply only_observed; [done..|]. intros t. errors.
  unfold start_cycle. errors. exfalso. simpl in *.
  assert (session_ok l (session_for thread y (set_observed (Some (latest l t)) l))) as [_ Hs].
  { unfold session_for. simpl. destruct (request_sessions l !! thread) as [x|] eqn:Hx; [by apply (ac_sessions l Hacc thread)|].
    split; [simpl; lia|done]. }
  rewrite Heqo1 in Hs. destruct (Hs _ eq_refl) as (p' & Hp' & [o Ho]). congruence.
Qed.
Lemma settle_errors id r cumulative f : only (ledger_error l (SettleRequest id r cumulative f)) (settle_body id r cumulative f now (Some l)).
Proof.
  assert (∀ e, value_error e → ledger_error l (SettleRequest id r cumulative f) e) as Hle by (intros e ?; by left).
  unfold settle_body. apply only_observed; [done..|]. intros t. apply only_bind; [intros e He; by apply Hle, (view_only _ _ e He)|].
  intros v _. simpl. destruct (actors l !! id) as [a|] eqn:Ha.
  - apply (only_weaken value_error); [done|]. errors.
  - apply only_Raised. right. split; [done|]. right. eauto 6.
Qed.
End Bodies.

#[local] Hint Resolve configure_errors reserve_errors adopt_errors authorize_errors record_errors bind_requests_errors register_errors
  continue_errors protect_errors assign_errors resolve_errors correction_errors reserve_request_errors source_only values_only : ledger_errors.
(** One method: the checks of its arguments, then its body. *)
Tactic Notation "errors_of" reference(op) :=
  match goal with Hp : _ = (Raised _, _) |- _ =>
    unfold op in Hp; try unfold _record in Hp; try unfold _authorize in Hp;
    repeat match type of Hp with
    | (if ?b then _ else _) = _ => destruct b; [simplify_eq; split; [by left|done]|]
    | (let '(_, _) := ?p in _) = _ => destruct p
    | match ?g with _ => _ end = _ =>
      let Hg := fresh "Hg" in assert (only value_error g) as Hg by errors;
      destruct g; [|simplify_eq; split; [left; by apply Hg|done]]
    end;
    refine (transaction_error _ _ _ _ _ _ _ _ _ Hp); [done|]
  end.
(** On a ledger that calls built, and with working files, a call
    fails only with the [ValueError] of an explicit refusal, or with the
    [KeyError] of binding a goal to, or settling, an actor that is not
    enrolled; a failed call leaves the ledger as it was. *)
Theorem ledger_errors_known env k now l e s' : history any_call None (Some l) → calm env → readable env →
  perform env k now (Some l) = (Raised e, s') → ledger_error l k e ∧ s' = Some l.
Proof.
  intros [Hacc Haz]%reachable_ok He Hread Hp.
  assert (∀ e, value_error e → ledger_error l k e) as Hle by (intros e' ?; by left).
  destruct k; cbn [perform] in Hp.
  all: [> errors_of configure | errors_of view_ledger | errors_of inspect | errors_of reserve | errors_of record | errors_of record_goal
    | errors_of record_sampled_floor | errors_of adopt_active_goal | errors_of bind_goal | errors_of bind_requests
    | errors_of register_request_thread | errors_of continue_request_thread | errors_of protect_completion | errors_of assign_completion
    | errors_of resolve_completion | errors_of reserve_request | errors_of settle_request | errors_of correction | errors_of extend
    | errors_of reset ].
  all: try by apply settle_errors.
  all: try by (apply (only_weaken value_error); [exact Hle|]; cbn beta; errors).
  apply only_observed; [done..|]. intros t. simpl. destruct (json_truthy _); [by apply only_Raised, Hle|].
  destruct (actors l !! actor_id) as [a'|] eqn:Ha; [apply (only_weaken value_error); [exact Hle|]; errors|].
  apply only_Raised. right. split; [done|]. left. eauto 6.
Qed.
End Admission.
