(* ===== verification/LedgerDemo.v ===== *)
(** * A concrete objective ledger

    A ledger in whole seconds through configuration, request binding, a
    completion plan, an admitted and settled request, with the witnesses of the
    ledger's theorems, and three histories that show where the code is weaker
    than its own checks suggest. *)
From S2P Require Import Prelude Json Sha256 Datetime Timestamps ObjectiveLedger LedgerMoves LedgerGuarantees LedgerAdmission.
Open Scope Z_scope.

Definition demo_config (revision : string) (deadline : Z) : config (T:=Z) := {|
  revision := JStr revision; objective_token_limit := 100; objective_time_limit_seconds := 1000; session_token_limit := 60;
  session_time_limit_seconds := 200; max_correction_cycles := 2; started_at := Number 0; objective_deadline := Number deadline;
  other_settings := JObj [] |}.
Definition demo_approval : json := JStr "operator".
Definition demo_source : pinned_source := {| source_path := "/plan.md"; source_sha256 := sha256 "plan" |}.
Definition demo_env : Env := {|
  io_fails _ := None; canonical _ := Done true; open_source _ := Done (true, 4, "plan") |}.
Definition demo_items : list obligation_item := [
  {| item_id := "accept"; item_kind := "acceptance"; item_tokens := 10; item_seconds := 20; item_criterion := "tests pass" |};
  {| item_id := "review"; item_kind := "review"; item_tokens := 10; item_seconds := 20; item_criterion := "reviewed" |};
  {| item_id := "fix"; item_kind := "remediation"; item_tokens := 10; item_seconds := 20; item_criterion := "findings fixed" |}].

Definition run (calls : list (call (T:=Z) * Z)) (s : option ledger) : option ledger :=
  foldl (λ s '(k, now), (perform demo_env k (Number now) s).2) s calls.
Definition demo_calls : list (call (T:=Z) * Z) := [
  (Configure (demo_config "1" 1000) demo_approval 0, 10);
  (BindRequests (JStr "transport") {["main" := 0]}, 11);
  (ProtectCompletion demo_items demo_source, 12);
  (ReserveRequest "request:1" "main" 15 30 true, 20);
  (SettleRequest "request:1" (Some "r1") (Some 12) (JStr "f"), 30)].
Definition demo_empty : ledger := initial_ledger (demo_config "1" 1000) demo_approval 0 10.
(** The ledger after the first [n] calls. *)
Definition demo (n : nat) : ledger := default demo_empty (run (take n demo_calls) None).

Lemma calls_run_history P calls s : Forall (λ kn, P kn.1) calls → history P s (run calls s).
Proof.
  intros Hall. revert s. induction Hall as [|[k now] calls Hk _ IH]; intros s; [apply rtc_refl|].
  eapply rtc_l; [|apply IH]. exists demo_env, k, (Number now), (perform demo_env k (Number now) s).1. split; [done|apply surjective_pairing].
Qed.
Lemma demo_reached P n : Forall (λ kn, P kn.1) (take n demo_calls) → run (take n demo_calls) None = Some (demo n) → history P None (Some (demo n)).
Proof. intros Hall <-. by apply calls_run_history. Qed.
Lemma demo_history n : run (take n demo_calls) None = Some (demo n) → history any_call None (Some (demo n)).
Proof. intros Hrun. apply demo_reached; [|done]. by apply Forall_forall. Qed.
Lemma demo_calm : calm demo_env.
Proof. done. Qed.
Lemma demo_3 : history any_call None (Some (demo 3)).
Proof. apply demo_history. vm_compute. reflexivity. Qed.
Lemma demo_4 : history any_call None (Some (demo 4)).
Proof. apply demo_history. vm_compute. reflexivity. Qed.
Lemma demo_5 : history any_call None (Some (demo 5)).
Proof. apply demo_history. vm_compute. reflexivity. Qed.

Lemma ledger_accounts_witness : accounts_ok (demo 5).
Proof. apply (ledger_accounts (demo 5) demo_5). Defined.
Lemma ledger_authorized_witness : authorized (demo 4) ∧ configuration (demo 5) = demo_config "1" 1000.
Proof.
  destruct (ledger_authorized (demo 4) demo_4) as (Ha & _ & Hk). split; [exact Ha|].
  destruct (Hk (demo 5)) as [Hc _].
  - assert (run (drop 4 demo_calls) (Some (demo 4)) = Some (demo 5)) as <- by (vm_compute; reflexivity).
    apply calls_run_history. repeat constructor; by intros (? & ? & [|]).
  - refine (eq_trans Hc _). vm_compute. reflexivity.
Defined.
Lemma ledger_keeps_witness : ∃ l', run (drop 4 demo_calls) (Some (demo 4)) = Some l' ∧ keeps (demo 4) l'.
Proof.
  destruct (ledger_keeps any_call (demo 4) (run (drop 4 demo_calls) (Some (demo 4)))) as (l' & Hl & Hk & _).
  - apply calls_run_history. by apply Forall_forall.
  - exact (ex_intro _ l' (conj Hl Hk)).
Defined.
Lemma ledger_corrections_witness : 0 ≤ correction_cycles (demo 5) ≤ 2.
Proof.
  apply (ledger_corrections (demo 5)). apply demo_reached; [|vm_compute; reflexivity].
  repeat constructor; intros (? & ? & ? & ? & ?); discriminate.
Defined.

(** The third call leaves room for a request; its answer and its ledger. *)
Definition demo_view : view (T:=Z) :=
  match (reserve_request demo_env "request:1" "main" 15 30 true (Number 20) (Some (demo 3))).1 with
  | Done (v, _, _) => v | Raised _ => view_of demo_empty 0 0 end.
Lemma demo_admitted : reserve_request demo_env "request:1" "main" 15 30 true (Number 20) (Some (demo 3)) =
  (Done (demo_view, Some true, None), Some (demo 4)).
Proof. vm_compute. reflexivity. Qed.
Lemma request_admission_witness : ∃ l' x o d, Some (demo 4) = Some l' ∧ actors (demo 3) !! "request:1" = None ∧
  actors l' !! "request:1" = Some (request_actor 15 30 "main" x) ∧ request_sessions l' !! "main" = Some x ∧
  configuration l' = configuration (demo 3) ∧
  tokens_used l' + tokens_reserved l' ≤ objective_token_limit (configuration (demo 3)) ∧
  group_used (group_of "main" x) l' ≤ session_token_limit (configuration (demo 3)) ∧
  30 ≤ session_time_limit_seconds (configuration (demo 3)) ∧ accounting_known l' = true ∧
  observed_at l' = Some o ∧ t_plus o 30 ≤ₜ deadline x ∧
  _epoch (objective_deadline (configuration (demo 3))) = Done d ∧ t_ltb o d = true.
Proof. exact (request_admission demo_env "request:1" "main" 15 30 (Number 20) (demo 3) demo_view None (Some (demo 4)) demo_admitted). Defined.

Definition demo_settled : result string (view * option bool * option string) :=
  (settle_request demo_env "request:1" (Some "r1") (Some 12) (JStr "f") (Number 30) (Some (demo 4))).1.
Definition demo_settled_view : view (T:=Z) := match demo_settled with Done (v, _, _) => v | Raised _ => view_of demo_empty 0 0 end.
Definition demo_actor : actor (T:=Z) := request_actor 15 30 "main" (imported_session 0 200).
Lemma demo_settles : settle_request demo_env "request:1" (Some "r1") (Some 12) (JStr "f") (Number 30) (Some (demo 4)) =
  (Done (demo_settled_view, None, None), Some (demo 5)).
Proof. vm_compute. reflexivity. Qed.

(** A lifecycle reservation, admitted and repeated, on a ledger without a request transport. *)
Definition demo_lifecycle (s : option ledger) := reserve demo_env "worker" 20 50 (Number 20) s.
Definition demo_enrolled : ledger := default demo_empty (demo_lifecycle (Some (demo 1))).2.
Definition demo_lifecycle_view : view (T:=Z) :=
  match (demo_lifecycle (Some (demo 1))).1 with Done (v, _, _) => v | Raised _ => view_of demo_empty 0 0 end.
Lemma demo_enrols : demo_lifecycle (Some (demo 1)) = (Done (demo_lifecycle_view, Some true, None), Some demo_enrolled).
Proof. vm_compute. reflexivity. Qed.
Lemma lifecycle_reservation_witness : (∃ l', Some demo_enrolled = Some l' ∧ tokens_used l' + tokens_reserved l' ≤ 100) ∧
  reserve demo_env "worker" 21 50 (Number 21) (Some demo_enrolled) = (Raised "ValueError", Some demo_enrolled).
Proof.
  split.
  - destruct (lifecycle_reservation demo_env "worker" 20 50 (Number 20) (demo 1) _ _ demo_enrols) as [H _].
    destruct (H _ _ eq_refl) as (l' & o & d & Hl & _ & _ & _ & Hle & _). exists l'. split; [exact Hl|]. revert Hle. vm_compute. exact id.
  - vm_compute. reflexivity.
Defined.
Lemma ledger_errors_known_witness :
  ledger_error (demo 5) (SettleRequest "request:2" None None JNull) "KeyError" ∧ Some (demo 5) = Some (demo 5).
Proof.
  apply (ledger_errors_known demo_env (SettleRequest "request:2" None None JNull) (Number 40) (demo 5)).
  - exact demo_5.
  - exact demo_calm.
  - intros path. split; [by exists true|by eexists].
  - vm_compute. reflexivity.
Defined.

(** ** Where the code is weaker than its checks suggest *)
(** [reserve_request] checks the end of a request against its session's
    deadline only, which a reset of the objective to an earlier deadline does
    not move: a request may be admitted past the objective's deadline. *)
Example request_past_deadline :
  let l := run [(Configure (demo_config "1" 1000) demo_approval 0, 10); (BindRequests (JStr "transport") {["main" := 0]}, 11);
                (Reset_ (demo_config "2" 50) demo_approval, 12)] None in
  ∃ v l', reserve_request demo_env "request:1" "main" 15 100 true (Number 20) l = (Done (v, Some true, None), l') ∧
    20 + 100 > v_deadline v.
Proof. do 2 eexists. split; [vm_compute; reflexivity|]. vm_compute. reflexivity. Qed.
(** A request that is not enforced starts a correction cycle past the maximum. *)
Example unenforced_cycle :
  correction_cycles <$> run (take 3 demo_calls ++ [(Correction None None, 20); (Correction None None, 21);
    (AssignCompletion "main" "fix" demo_source, 22); (ReserveRequest "request:9" "main" 1 1 false, 23)]) None = Some 3.
Proof. vm_compute. reflexivity. Qed.
(** A settlement may report less than the usage that was observed before it. *)
Example settlement_below_floor :
  (λ l, used <$> actors l !! "request:1") <$> run (take 4 demo_calls ++ [(RecordSampledFloor "request:1" 14, 25);
    (SettleRequest "request:1" (Some "r1") (Some 5) (JStr "f"), 30)]) None = Some (Some 5).
Proof. vm_compute. reflexivity. Qed.
