(* ===== verification/Effects.v ===== *)
(** * Stateful operations that may raise

    [effect S E A]: a Python call that reads and writes a store [S] and either
    returns or raises.  What it wrote before an exception stays written.
    [keeps R m] is the rule for whole calls: whatever [m] answers, the store
    before and the store after are related; the hint database [keeps] proves
    it from the steps of the call. *)
From S2P Require Import Prelude.

Definition effect (S E A : Type) : Type := S → result E A * S.
#[export] Instance effect_ret S E : MRet (effect S E) := λ A a s, (Done a, s).
#[export] Instance effect_bind S E : MBind (effect S E) := λ A B k m s,
  match m s with
  | (Done a, s) => k a s
  | (Raised e, s) => (Raised e, s)
  end.
Definition raise {S E A} (e : E) : effect S E A := λ s, (Raised e, s).
Definition lift {S E A} (r : result E A) : effect S E A := λ s, (r, s).
(** Reading and writing the store. *)
Definition reading {S E A} (f : S → A) : effect S E A := λ s, (Done (f s), s).
Definition asking {S E A} (f : S → result E A) : effect S E A := λ s, (f s, s).
Definition writing {S E} (f : S → S) : effect S E () := λ s, (Done (), f s).
(** A place of the call where the surroundings may raise. *)
Definition touch {E} (fails : string → option E) (place : string) : result E () :=
  match fails place with Some e => Raised e | None => Done () end.
(** [try: ... except Exception: ...]: a fatal exception is not caught. *)
Definition catching {S E A B} (m : effect S E A) (fatal : E → bool) (k : A → effect S E B) (h : E → effect S E B) : effect S E B := λ s,
  match m s with
  | (Done a, s) => k a s
  | (Raised e, s) => if fatal e then (Raised e, s) else h e s
  end.
Definition guard {E} (b : bool) (e : E) : result E () := if b then Done () else Raised e.

Section Laws.
Context {S E : Type}.

Lemma effect_bind_Done {A B} (m : effect S E A) (k : A → effect S E B) s b s' :
  (m ≫= k) s = (Done b, s') ↔ ∃ a s1, m s = (Done a, s1) ∧ k a s1 = (Done b, s').
Proof. unfold mbind, effect_bind. destruct (m s) as [[a|e] s1]; naive_solver. Qed.
Lemma effect_bind_Raised {A B} (m : effect S E A) (k : A → effect S E B) s e s' :
  (m ≫= k) s = (Raised e, s') ↔
  m s = (Raised e, s') ∨ ∃ a s1, m s = (Done a, s1) ∧ k a s1 = (Raised e, s').
Proof. unfold mbind, effect_bind. destruct (m s) as [[a|e'] s1]; naive_solver. Qed.
Lemma lift_Done {A} (r : result E A) (s s' : S) a : lift r s = (Done a, s') ↔ r = Done a ∧ s' = s.
Proof. unfold lift. split; [by intros [= -> ->]|by intros [-> ->]]. Qed.
Lemma asking_Done {A} (f : S → result E A) s s' a : asking f s = (Done a, s') ↔ f s = Done a ∧ s' = s.
Proof. unfold asking. split; [by intros [= -> ->]|by intros [-> ->]]. Qed.
Lemma writing_Done (f : S → S) s s' u : writing (E:=E) f s = (Done u, s') ↔ s' = f s.
Proof. unfold writing. destruct u. split; [by intros [= <-]|by intros ->]. Qed.

(** ** What a call leaves of the store *)
Definition keeps {A} (R : S → S → Prop) (m : effect S E A) : Prop := ∀ s r s', m s = (r, s') → R s s'.
Context (R : S → S → Prop) `{!PreOrder R}.

Lemma keeps_bind {A B} (m : effect S E A) (k : A → effect S E B) :
  keeps R m → (∀ a, keeps R (k a)) → keeps R (m ≫= k).
Proof.
  intros Hm Hk s r s'. unfold mbind, effect_bind. destruct (m s) as [[a|e] s1] eqn:Hs; intros Hr.
  - etransitivity; [by eapply Hm|by eapply Hk].
  - simplify_eq. by eapply Hm.
Qed.
Lemma keeps_ret {A} (a : A) : keeps R (mret a).
Proof. intros s r s' [= _ <-]. reflexivity. Qed.
Lemma keeps_raise {A} (e : E) : keeps (A:=A) R (raise e).
Proof. intros s r s' [= _ <-]. reflexivity. Qed.
Lemma keeps_lift {A} (r : result E A) : keeps R (lift r).
Proof. intros s r' s' [= _ <-]. reflexivity. Qed.
Lemma keeps_reading {A} (f : S → A) : keeps R (reading f).
Proof. intros s r' s' [= _ <-]. reflexivity. Qed.
Lemma keeps_asking {A} (f : S → result E A) : keeps R (asking f).
Proof. intros s r' s' [= _ <-]. reflexivity. Qed.
Lemma keeps_writing f : (∀ s, R s (f s)) → keeps R (writing f).
Proof. intros Hf s r s' [= _ <-]. apply Hf. Qed.
End Laws.

Create HintDb keeps.
#[export] Hint Resolve keeps_bind keeps_ret keeps_raise keeps_lift keeps_reading keeps_asking keeps_writing : keeps.

Lemma touch_Done {E} (fails : string → option E) place u : touch fails place = Done u ↔ fails place = None.
Proof. unfold touch. destruct u, (fails place); naive_solver. Qed.
Lemma guarded_Done {E} b (e : E) u : guard b e = Done u ↔ b = true.
Proof. destruct u, b; naive_solver. Qed.

(** ** Calls with a postcondition for their exceptions *)
Section Triples.
Context {S E : Type}.
Definition triple {A} (P : S → Prop) (m : effect S E A) (Q : A → S → Prop) (I : S → Prop) : Prop :=
  ∀ s r s', P s → m s = (r, s') → match r with Done a => Q a s' | Raised _ => I s' end.
Lemma triple_bind {A B} P (m : effect S E A) Q (k : A → effect S E B) R I :
  triple P m Q I → (∀ a, triple (Q a) (k a) R I) → triple P (m ≫= k) R I.
Proof.
  intros Hm Hk s r s' Hs. unfold mbind, effect_bind. specialize (Hm s). destruct (m s) as [[a|e] s1].
  - intros Hr. by apply (Hk a s1 r s'); [apply (Hm (Done a))|].
  - intros [= <- <-]. by apply (Hm (Raised e)).
Qed.
Lemma triple_ret {A} (P : S → Prop) (a : A) (Q : A → S → Prop) (I : S → Prop) : (∀ s, P s → Q a s) → triple P (mret a) Q I.
Proof. intros HQ s r s' Hs [= <- <-]. by apply HQ. Qed.
Lemma triple_raise {A} (P : S → Prop) e (Q : A → S → Prop) (I : S → Prop) : (∀ s, P s → I s) → triple P (raise e) Q I.
Proof. intros HI s r s' Hs [= <- <-]. by apply HI. Qed.
Lemma triple_lift {A} (P : S → Prop) (x : result E A) (Q : A → S → Prop) (I : S → Prop) :
  (∀ s a, P s → x = Done a → Q a s) → (∀ s, P s → I s) → triple P (lift x) Q I.
Proof. intros HQ HI s r s' Hs [= <- <-]. destruct x; [by apply HQ|by apply HI]. Qed.
Lemma triple_reading {A} (P : S → Prop) (f : S → A) (Q : A → S → Prop) (I : S → Prop) : (∀ s, P s → Q (f s) s) → triple P (reading f) Q I.
Proof. intros HQ s r s' Hs [= <- <-]. by apply HQ. Qed.
Lemma triple_writing (P : S → Prop) (f : S → S) (Q : () → S → Prop) (I : S → Prop) : (∀ s, P s → Q () (f s)) → triple P (writing f) Q I.
Proof. intros HQ s r s' Hs [= <- <-]. by apply HQ. Qed.
Lemma triple_pre {A} (P P' : S → Prop) (m : effect S E A) Q I : (∀ s, P s → P' s) → triple P' m Q I → triple P m Q I.
Proof. intros HP Hm s r s' Hs. by apply Hm, HP. Qed.
Lemma triple_assume {A} (φ : Prop) (P : S → Prop) (m : effect S E A) Q I : (φ → triple P m Q I) → triple (λ s, φ ∧ P s) m Q I.
Proof. intros Hm s r s' [Hφ Hs]. by apply Hm. Qed.
Lemma triple_post {A} (P : S → Prop) (m : effect S E A) (Q Q' : A → S → Prop) (I : S → Prop) :
  triple P m Q I → (∀ a s, Q a s → Q' a s) → triple P m Q' I.
Proof. intros Hm HQ s r s' Hs Hr. specialize (Hm s r s' Hs Hr). destruct r; [by apply HQ|done]. Qed.
Lemma triple_raised {A} P (m : effect S E A) Q (I I' : S → Prop) : triple P m Q I → (∀ s, I s → I' s) → triple P m Q I'.
Proof. intros Hm HI s r s' Hs Hr. specialize (Hm s r s' Hs Hr). destruct r; [done|by apply HI]. Qed.
Lemma triple_catching {A B} (P : S → Prop) (m : effect S E A) (fatal : E → bool) (k : A → effect S E B) (h : E → effect S E B)
    (K : A → S → Prop) (J : S → Prop) Q (I : S → Prop) :
  triple P m K J → (∀ a, triple (K a) (k a) Q I) → (∀ e, fatal e = false → triple J (h e) Q I) → (∀ s, J s → I s) →
  triple P (catching m fatal k h) Q I.
Proof.
  intros Hm Hk Hh HJ s r s' Hs. unfold catching. specialize (Hm s). destruct (m s) as [[a|e] s1].
  - intros Hr. by apply (Hk a s1 r s'); [apply (Hm (Done a))|].
  - specialize (Hm (Raised e) s1 Hs eq_refl). destruct (fatal e) eqn:He; [intros [= <- <-]; by apply HJ|]. by apply (Hh e He s1).
Qed.
End Triples.
