(* ===== verification/Permissions.v ===== *)
(** * The host-owned action policy (src/src/codex_wake/session_permissions.py)

    [Permissions]: the policy document and its validation, the policy store of
    a root with its routing to another root, its revisions, and the evaluation
    of an action.  The documents are typed, so the shape tests of the source
    that only reject other JSON types are not repeated; every other test is.
    The files of all roots together are the state [world] that the calls read
    and write; [Env] holds their readings of the clock and every place where
    the file system may raise. *)
From Stdlib Require Import Ascii.
From S2P Require Import Prelude Effects Json Sha256 Datetime Timestamps.
Open Scope Z_scope.

Definition ACTIONS : list (string * string) := [
  ("session.inspect", "allow"); ("refresh.self", "allow");
  ("refresh.connection", "allow"); ("refresh.shared", "approval_required");
  ("handoff.self", "allow"); ("resume.self", "allow"); ("resume.recover", "approval_required");
  ("enforcement.self_watch", "allow"); ("enforcement.enroll", "allow");
  ("enforcement.watcher_start", "approval_required"); ("enforcement.increase", "approval_required");
  ("enforcement.disable", "approval_required"); ("enforcement.recover", "approval_required");
  ("a2a.send", "allow"); ("a2a.receive", "allow"); ("a2a.claim", "allow"); ("a2a.reply", "allow");
  ("wake.background", "allow"); ("wake.existing_tab", "allow");
  ("wake.new_tab", "allow"); ("wake.fresh_task", "allow");
  ("acceptance.verify", "approval_required"); ("job.launch", "approval_required");
  ("job.cancel", "approval_required"); ("attention.request", "allow");
  ("attention.respond", "approval_required"); ("attention.consume", "allow");
  ("workspace.order", "approval_required"); ("workspace.undo", "approval_required");
  ("workspace.navigate", "approval_required"); ("terminal.menu", "approval_required");
  ("terminal.takeover", "approval_required"); ("terminal.return", "approval_required")].
Definition DECISIONS : list string := ["allow"; "deny"; "approval_required"; "inherit"].
Definition RELATIONSHIPS : list string := ["self"; "peer"; "successor"; "shared"].
Definition MAX_BYTES : Z := 262144.
Definition LIFECYCLE_ACTIONS : list string :=
  ["refresh.self"; "refresh.connection"; "refresh.shared"; "handoff.self"; "resume.self"].
Definition self_only : list string :=
  ["session.inspect"; "refresh.self"; "refresh.connection"; "handoff.self"; "resume.self"; "enforcement.self_watch"].

(** ** Documents *)
Inductive rule :=
| Plain (decision : string)
| Scoped (decision : string) (relationships targets tasks : option (list string)).
#[export] Instance rule_eq_dec : EqDecision rule.
Proof. solve_decision. Defined.
(** Every key of a layer and of a policy may be missing. *)
Record layer := {
  default_decision : option string;
  actions : option (gmap string rule);
  profile : option string;
  authorized_profiles : option (list string);
}.
#[export] Instance layer_eq_dec : EqDecision layer.
Proof. solve_decision. Defined.
Definition empty_layer : layer := {| default_decision := None; actions := None; profile := None; authorized_profiles := None |}.
Record approval := {
  approval_id : string; approval_action : string; approval_subject : string; approval_scope : string;
  approval_issuer : string;
  approval_task : option json; expires_at : option string; approval_target : option json; successors : option bool;
}.
Record delegation := { delegated_actions : list string; delegated_sessions : list string }.
Record adoption := { source_sha256 : string; legacy_profile_grants : gmap string (list string) }.
Record policy := {
  version : Z;
  global_layer : option layer;
  profiles : option (gmap string layer);
  sessions : option (gmap string layer);
  assignments : option (gmap string layer);
  mandatory : option (list string);
  approvals : option (list approval);
  delegations : option (gmap string delegation);
  known_actions : option (list string);
  future_actions_inherit : option bool;
  (** [Some None] is the member [null] *)
  policy_adoption : option (option adoption);
}.
(** A verified identity.  [predecessor] and [ancestors] are relationships the
    host established. *)
Record Principal := {
  subject : string; role : string; tasks : list string; predecessor : option string; ancestors : list string;
}.
Definition nonempty (s : string) : bool := negb (bool_decide (s = "")).
(** [Principal.__post_init__]. *)
Definition principal_ok (p : Principal) : bool :=
  nonempty (subject p) && bool_decide (role p ∈ ["session"; "operator"; "controller"]) &&
  forallb nonempty (tasks p) && (Z.of_nat (length (ancestors p)) <=? 256) && bool_decide (NoDup (ancestors p)) &&
  forallb nonempty (ancestors p) && match predecessor p with Some x => nonempty x | None => true end.

(** ** Texts: [json.dumps] with its default separators *)
Definition spaced_object (members : list (string * string)) : string :=
  brackets "{" "}" (join ", " ((λ kv, quote_ascii kv.1 +:+ ": " +:+ kv.2) <$> members)).
Definition spaced_array (items : list string) : string := brackets "[" "]" (join ", " items).
Fixpoint dumps_spaced (v : json) : string :=
  match v with
  | JNull => "null"
  | JBool true => "true"
  | JBool false => "false"
  | JInt z => Z_dec z
  | JStr s => quote_ascii s
  | JArr l => spaced_array (List.map dumps_spaced l)
  | JObj o => spaced_object (sort_keys (List.map (λ '(k, x), (k, dumps_spaced x)) o))
  end.
Definition strings (l : list string) : json := JArr (JStr <$> l).
Definition field {A} (k : string) (f : A → json) (v : option A) : list (string * json) :=
  match v with Some v => [(k, f v)] | None => [] end.
Definition mapping {A} (f : A → json) (m : gmap string A) : json := JObj ((λ kv, (kv.1, f kv.2)) <$> map_to_list m).
Definition rule_json (r : rule) : json :=
  match r with
  | Plain d => JStr d
  | Scoped d relationships targets tasks => JObj ([("decision", JStr d)] ++ field "relationships" strings relationships ++
      field "targets" strings targets ++ field "tasks" strings tasks)
  end.
Definition layer_json (l : layer) : json := JObj (field "default" JStr (default_decision l) ++
  field "actions" (mapping rule_json) (actions l) ++ field "profile" JStr (profile l) ++
  field "authorized_profiles" strings (authorized_profiles l)).
Definition approval_json (a : approval) : json := JObj ([
  ("id", JStr (approval_id a)); ("action", JStr (approval_action a)); ("subject", JStr (approval_subject a));
  ("scope", JStr (approval_scope a)); ("issuer", JStr (approval_issuer a))] ++ field "task_id" id (approval_task a) ++
  field "expires_at" JStr (expires_at a) ++ field "target" id (approval_target a) ++ field "successors" JBool (successors a)).
Definition delegation_json (d : delegation) : json := JObj [
  ("actions", strings (delegated_actions d)); ("sessions", strings (delegated_sessions d))].
Definition adoption_json (a : option adoption) : json :=
  match a with
  | None => JNull
  | Some a => JObj [("version", JInt 1); ("source_sha256", JStr (source_sha256 a));
      ("legacy_profile_grants", mapping strings (legacy_profile_grants a))]
  end.
Definition policy_json (p : policy) : json := JObj ([("version", JInt (version p))] ++
  field "global" layer_json (global_layer p) ++ field "profiles" (mapping layer_json) (profiles p) ++
  field "sessions" (mapping layer_json) (sessions p) ++ field "assignments" (mapping layer_json) (assignments p) ++
  field "mandatory" strings (mandatory p) ++ field "approvals" (λ l, JArr (approval_json <$> l)) (approvals p) ++
  field "delegations" (mapping delegation_json) (delegations p) ++ field "known_actions" strings (known_actions p) ++
  field "future_actions_inherit" JBool (future_actions_inherit p) ++ field "adoption" adoption_json (policy_adoption p)).
(** The texts are ASCII, and the order of the members does not change their
    length. *)
Definition policy_text (p : policy) : string := dumps_spaced (policy_json p).
Definition policy_digest (p : policy) : string := sha256 (policy_text p).

(** ** Validation *)
Definition known_action (a : string) : bool := bool_decide (a ∈ ACTIONS.*1).
Definition entries {A} (m : option (gmap string A)) : list (string * A) := map_to_list (default ∅ m).
Definition scope_ok (s : option (list string)) : bool :=
  match s with Some l => negb (bool_decide (l = [])) && forallb nonempty l | None => true end.
Definition rule_ok (r : rule) : bool :=
  match r with
  | Plain d => bool_decide (d ∈ DECISIONS)
  | Scoped d relationships targets tasks => bool_decide (d ∈ DECISIONS) && scope_ok relationships && scope_ok targets &&
      scope_ok tasks && forallb (λ x, bool_decide (x ∈ RELATIONSHIPS)) (default [] relationships)
  end.
Definition _layer (l : layer) : bool :=
  bool_decide (default "inherit" (default_decision l) ∈ DECISIONS) &&
  forallb (λ kv, known_action kv.1 && rule_ok kv.2) (entries (actions l)) &&
  match profile l with Some x => nonempty x | None => true end &&
  forallb nonempty (default [] (authorized_profiles l)).
Definition group_ok (g : option (gmap string layer)) : bool :=
  forallb (λ kv, nonempty kv.1 && _layer kv.2) (entries g).

(** [text.strip()]. *)
Fixpoint skip_space (l : list Z) : list Z :=
  match l with [] => [] | c :: rest => if py_space c then skip_space rest else l end.
Definition strip (s : string) : string :=
  foldr String.append EmptyString (utf8_encode <$> rev (skip_space (rev (skip_space (code_points s))))).
(** [text.endswith("Z")] with the replaced text. *)
Fixpoint trailing_Z (s : string) : string :=
  match s with
  | EmptyString => EmptyString
  | String c EmptyString => if Ascii.eqb c "Z" then "+00:00" else s
  | String c rest => String c (trailing_Z rest)
  end.
(** [records.parse_timestamp], in whole seconds; an instant outside the
    calendar, an [OverflowError] of the source, counts as invalid too. *)
Definition parse_timestamp (value : string) : result string Z :=
  match fromisoformat (trailing_Z (strip value)) with
  | Some t => Done (t / us_second)
  | None => Raised "WakeError"
  end.

Definition approval_ok (a : approval) : bool :=
  known_action (approval_action a) && bool_decide (approval_scope a ∈ ["operation"; "task"; "standing"]) &&
  forallb nonempty [approval_id a; approval_action a; approval_subject a; approval_scope a; approval_issuer a].
Fixpoint approvals_ok (seen : list string) (l : list approval) : result string () :=
  match l with
  | [] => Done ()
  | a :: l =>
    if negb (approval_ok a) || bool_decide (approval_id a ∈ seen) then Raised "ValueError"
    else if negb (bool_decide (approval_scope a = "standing")) &&
            (bool_decide (expires_at a = None) || bool_decide (approval_task a = None)) then Raised "ValueError"
    else _ ← match expires_at a with Some s => _ ← parse_timestamp s; Done () | None => Done () end;
         approvals_ok (approval_id a :: seen) l
  end.
Definition delegation_ok (d : delegation) : bool :=
  forallb known_action (delegated_actions d) && forallb nonempty (delegated_sessions d).
Definition hex_char (c : ascii) : bool :=
  let b := byte_of c in ((48 <=? b) && (b <=? 57)) || ((97 <=? b) && (b <=? 102)).
Definition adoption_ok (a : adoption) : bool :=
  bool_decide (String.length (source_sha256 a) = 64%nat) && all_chars hex_char (source_sha256 a) &&
  forallb (λ kv, nonempty kv.1 && forallb nonempty kv.2) (map_to_list (legacy_profile_grants a)).
(** The profiles that the global, session and assignment layers select. *)
Definition selections (p : policy) : list string :=
  (λ l, default "permissive" (profile l)) <$>
    default empty_layer (global_layer p) :: (entries (sessions p)).*2 ++ (entries (assignments p)).*2.
Definition selection_ok (p : policy) (name : string) : bool :=
  bool_decide (is_Some (default ∅ (profiles p) !! name)) || bool_decide (name = "permissive").
Definition _validate (p : policy) : result string () :=
  _ ← guard (Z.of_nat (String.length (policy_text p)) <=? MAX_BYTES) "ValueError";
  _ ← guard ((version p =? 1) && _layer (default empty_layer (global_layer p)) &&
             group_ok (profiles p) && group_ok (sessions p) && group_ok (assignments p) &&
             forallb known_action (default ACTIONS.*1 (known_actions p)) &&
             bool_decide (NoDup (default ACTIONS.*1 (known_actions p))) &&
             forallb known_action (default [] (mandatory p))) "ValueError";
  _ ← approvals_ok [] (default [] (approvals p));
  guard (forallb (λ kv, delegation_ok kv.2) (entries (delegations p)) &&
         forallb (selection_ok p) (selections p) &&
         match policy_adoption p with Some (Some a) => adoption_ok a | _ => true end) "ValueError".

(** ** Files *)
Section Store.
Context {T : Type} `{Timestamp T}.

Record revision_entry := { entry_revision : Z; entry_issuer : string; entry_at : T; entry_digest : string }.
Record saved := { revision : Z; issuer : string; saved_policy : policy; history : list revision_entry }.
Definition entry_text (e : revision_entry) : string := spaced_object [
  ("at", t_text (entry_at e)); ("digest", quote_ascii (entry_digest e)); ("issuer", quote_ascii (entry_issuer e));
  ("revision", Z_dec (entry_revision e))].
Definition saved_text (v : saved) : string := spaced_object [
  ("history", spaced_array (entry_text <$> history v)); ("issuer", quote_ascii (issuer v));
  ("policy", policy_text (saved_policy v)); ("revision", Z_dec (revision v))].

(** A private JSON file: absent, unreadable with an exception, or its value. *)
Inductive json_file := NoFile | Unreadable (e : string) | JsonFile (v : json).
Inductive policy_document := NoPolicy | UnreadablePolicy (e : string) | Policy (v : saved).
Inductive directory_state := NoDirectory | Directory | LinkedDirectory.
(** The files of one root. *)
Record domain := {
  link : json_file;                    (* session-permissions-root.json *)
  directory : directory_state;         (* session-permissions *)
  policy_file : policy_document;       (* session-permissions/policy.json *)
  adopted : bool;                      (* session-permissions/adopted.json *)
  owners_file : json_file;             (* wake-owners.json *)
}.
Definition empty_domain : domain := {| link := NoFile; directory := NoDirectory; policy_file := NoPolicy; adopted := false; owners_file := NoFile |}.
Definition world := gmap string domain.
Definition domain_at (w : world) (root : string) : domain := default empty_domain (w !! root).
Definition update (root : string) (f : domain → domain) (w : world) : world := <[root := f (domain_at w root)]> w.
Definition set_link v (d : domain) := {| link := v; directory := directory d; policy_file := policy_file d; adopted := adopted d; owners_file := owners_file d |}.
Definition set_directory v (d : domain) := {| link := link d; directory := v; policy_file := policy_file d; adopted := adopted d; owners_file := owners_file d |}.
Definition set_policy v (d : domain) := {| link := link d; directory := directory d; policy_file := v; adopted := adopted d; owners_file := owners_file d |}.
Definition set_adopted v (d : domain) := {| link := link d; directory := directory d; policy_file := policy_file d; adopted := v; owners_file := owners_file d |}.
Definition set_owners v (d : domain) := {| link := link d; directory := directory d; policy_file := policy_file d; adopted := adopted d; owners_file := v |}.

(** The surroundings of a call: its readings of the clock, the places of the
    file handling that raise (a failing system call, a path that is not
    private), which absolute paths resolve to themselves, and whether a wake
    record with an owner exists. *)
Record Env := {
  now : nat → T;
  io_fails : string → option string;
  canonical : string → bool;
  records_with_owner : string → bool;
}.
Local Notation perform := (effect world string).
Definition io (env : Env) (place : string) : result string () := touch (io_fails env) place.

(** [wake_policy._read]. *)
Definition read_json (env : Env) (f : json_file) : result string json :=
  match f with
  | NoFile => Raised "FileNotFoundError"
  | Unreadable e => Raised e
  | JsonFile v => _ ← io env "read"; Done v
  end.
Definition read_file_limit : Z := 4 * 1024 * 1024.
Definition read_saved (env : Env) (f : policy_document) : result string saved :=
  match f with
  | NoPolicy => Raised "FileNotFoundError"
  | UnreadablePolicy e => Raised e
  | Policy v => _ ← io env "read"; _ ← guard (Z.of_nat (String.length (saved_text v)) <=? read_file_limit) "WakeError"; Done v
  end.
Definition exact_keys (keys : list string) (o : list (string * json)) : bool :=
  bool_decide (length o = length keys) && forallb (λ k, bool_decide (k ∈ o.*1)) keys.

(** ** The owners of wakes (src/src/codex_wake/wake_policy.py) *)
Definition _owner_key (owner : json) : string := sha256 (dumps_spaced owner).
Definition owners_of (v : json) : result string (list (string * json)) :=
  match v with
  | JObj o =>
    match dict_get "version" o, dict_get "owners" o with
    | Some v, Some (JObj owners) =>
      if exact_keys ["version"; "owners"] o && json_py_eqb v (JInt 1) then Done owners else Raised "invalid_wake_owner_state"
    | _, _ => Raised "invalid_wake_owner_state"
    end
  | _ => Raised "invalid_wake_owner_state"
  end.
(** [_owners(root)] and [_owners(root, initialize=True)]. *)
Definition _owners (env : Env) (root : string) (w : world) : result string (list (string * json)) :=
  match owners_file (domain_at w root) with
  | NoFile => Raised "wake_owner_state_unavailable"
  | f => v ← read_json env f; owners_of v
  end.
Definition no_owners : json := JObj [("version", JInt 1); ("owners", JObj [])].
Definition initialize_owners (env : Env) (root : string) : perform () :=
  f ← reading (λ w, owners_file (domain_at w root));
  match f with
  | NoFile =>
    if records_with_owner env root then raise "wake_owner_state_missing_recovery_required"
    else _ ← lift (io env "write owners"); _ ← writing (update root (set_owners (JsonFile no_owners)));
         lift (io env "sync owners")
  | f => lift (v ← read_json env f; _ ← owners_of v; Done ())
  end.

(** ** The store of a root *)
Record PermissionStore := { execution_root : string; store_root : string; routing_error : option string }.

Definition routing_target (v : json) : result string string :=
  match v with
  | JObj o =>
    _ ← guard (exact_keys ["version"; "root"; "issuer"] o && bool_decide (dict_get "version" o = Some (JInt 1)) &&
         match dict_get "issuer" o with Some (JStr s) => nonempty s | _ => false end) "ValueError";
    match dict_get "root" o with Some (JStr r) => Done r | _ => Raised "TypeError" end
  | _ => Raised "ValueError"
  end.
Definition absolute (root : string) : string := path_text (parse_path root).
(** The body of the [try] of [PermissionStore.__init__]. *)
Definition route (env : Env) (w : world) (root : string) : result string string :=
  _ ← io env "private root";
  v ← read_json env (link (domain_at w root));
  r ← routing_target v;
  let target := absolute r in
  _ ← guard (is_absolute (parse_path r) && canonical env target && negb (bool_decide (target = root)) &&
             match link (domain_at w target) with NoFile => true | _ => false end) "ValueError";
  Done target.
Definition open_store (env : Env) (root : string) (w : world) : result string PermissionStore :=
  let root := absolute root in
  if negb (canonical env root) then Raised "permission_root_not_canonical"
  else Done match link (domain_at w root) with
  | NoFile => {| execution_root := root; store_root := root; routing_error := None |}
  | _ => match route env w root with
         | Done target => {| execution_root := root; store_root := target; routing_error := None |}
         | Raised e => {| execution_root := root; store_root := root; routing_error := Some e |}
         end
  end.

Definition active (st : PermissionStore) (w : world) : bool :=
  let d := domain_at w (store_root st) in
  bool_decide (routing_error st ≠ None) || negb (bool_decide (execution_root st = store_root st)) ||
  match policy_file d with NoPolicy => false | _ => true end ||
  match directory d with LinkedDirectory => true | _ => false end || adopted d.

(** [_private(self.directory, True)]. *)
Definition private_directory (env : Env) (d : domain) : result string () :=
  _ ← io env "private directory";
  match directory d with
  | NoDirectory => Raised "FileNotFoundError"
  | Directory => Done ()
  | LinkedDirectory => Raised "ValueError"
  end.
Definition _read (env : Env) (st : PermissionStore) (w : world) : result string saved :=
  _ ← guard (bool_decide (routing_error st = None)) "permission_root_binding_invalid";
  let d := domain_at w (store_root st) in
  _ ← private_directory env d;
  _ ← guard (canonical env (store_root st +:+ "/session-permissions")) "permission_directory_not_canonical";
  v ← read_saved env (policy_file d);
  _ ← guard (1 <=? revision v) "permission_policy_invalid";
  _ ← _validate (saved_policy v);
  Done v.

(** ** Revisions *)
Definition with_defaults (old : option saved) (p : policy) : policy :=
  {| version := version p; global_layer := global_layer p; profiles := profiles p; sessions := sessions p;
     assignments := assignments p; mandatory := mandatory p; approvals := approvals p; delegations := delegations p;
     known_actions := Some (default ACTIONS.*1 (known_actions p)); future_actions_inherit := future_actions_inherit p;
     policy_adoption := match policy_adoption p with
       | Some a => Some a
       | None => match old ≫= (λ v, policy_adoption (saved_policy v)) with Some (Some a) => Some (Some a) | _ => None end
       end |}.
Definition next_revision (env : Env) (old : option saved) (p : policy) (principal : Principal) : saved :=
  let n := default 0 (revision <$> old) + 1 in
  let e := {| entry_revision := n; entry_issuer := subject principal; entry_at := now env 0; entry_digest := policy_digest p |} in
  {| revision := n; issuer := subject principal; saved_policy := p; history := default [] (history <$> old) ++ [e] |}.
(** The body under the lock, from the revision it found. *)
Definition save_revision (env : Env) (st : PermissionStore) (p : policy) (principal : Principal) (expected_revision : Z)
    (old : option saved) : perform (Z * string) :=
  _ ← lift (guard (default 0 (revision <$> old) =? expected_revision) "permission_revision_conflict");
  let v := next_revision env old (with_defaults old p) principal in
  _ ← lift (io env "save policy");
  _ ← writing (update (store_root st) (set_policy (Policy v)));
  _ ← lift (io env "sync policy");
  _ ← lift (io env "save adopted");
  _ ← writing (update (store_root st) (set_adopted true));
  _ ← lift (io env "sync adopted");
  mret (revision v, policy_digest (saved_policy v)).
(** [self._read() if self.active() else ...]. *)
Definition current_revision (env : Env) (st : PermissionStore) (w : world) : result string (option saved) :=
  if active st w then v ← _read env st w; Done (Some v) else Done None.
Definition make_directory (d : domain) : domain :=
  match directory d with NoDirectory => set_directory Directory d | _ => d end.
Definition configure (env : Env) (st : PermissionStore) (p : policy) (principal : Principal) (expected_revision : Z) :
    perform (Z * string) :=
  _ ← lift (_validate p);
  _ ← lift (guard (bool_decide (routing_error st = None)) "permission_root_binding_invalid");
  _ ← lift (guard (bool_decide (role principal = "operator")) "permission_operator_required");
  _ ← lift (io env "make root");
  _ ← writing (update (store_root st) make_directory);
  _ ← lift (io env "private root");
  _ ← asking (λ w, private_directory env (domain_at w (store_root st)));
  _ ← initialize_owners env (store_root st);
  _ ← lift (io env "lock");
  old ← asking (current_revision env st);
  save_revision env st p principal expected_revision old.

Definition operator_as (p : Principal) : Principal :=
  {| subject := subject p; role := "operator"; tasks := []; predecessor := None; ancestors := [] |}.
(** [policy.get(group, {}).get(name, {})]. *)
Definition layer_of (g : option (gmap string layer)) (name : string) : layer := default empty_layer (default ∅ g !! name).
Definition only_denies (l : layer) : bool := forallb (λ kv, bool_decide (kv.2 = Plain "deny")) (entries (actions l)).
(** A session's change of its own layer. *)
Definition own_change (p : policy) (name : string) (before l : layer) (principal : Principal) : result string () :=
  if negb (bool_decide (name = subject principal)) then Raised "permission_delegation_exceeded" else
  let authorized := default (default [] (authorized_profiles (default empty_layer (global_layer p)))) (authorized_profiles before) in
  _ ← guard (bool_decide (default_decision l = None ∧ authorized_profiles l = None) &&
             match profile l with Some x => bool_decide (x ∈ authorized) | None => true end) "permission_self_promotion";
  guard (only_denies l) "permission_self_promotion".
(** The authority check of [change_session]. *)
Definition may_change (p : policy) (name : string) (l : layer) (principal : Principal) : result string () :=
  let before := layer_of (sessions p) name in
  if bool_decide (role principal = "operator") then Done () else
  let delegation := if bool_decide (role principal = "controller") then default ∅ (delegations p) !! subject principal else None in
  match delegation with
  | Some d =>
    if bool_decide (name ∈ delegated_sessions d)
    then guard (bool_decide (default_decision l = None ∧ profile l = None ∧ authorized_profiles l = None) &&
                forallb (λ kv, bool_decide (kv.1 ∈ delegated_actions d)) (entries (actions l))) "permission_delegation_exceeded"
    else own_change p name before l principal
  | None => own_change p name before l principal
  end.
(** [{**before, **layer}] with the merged actions. *)
Definition merge_layer (before l : layer) : layer :=
  {| default_decision := union (default_decision l) (default_decision before);
     actions := Some (default ∅ (actions l) ∪ default ∅ (actions before));
     profile := union (profile l) (profile before);
     authorized_profiles := union (authorized_profiles l) (authorized_profiles before) |}.
Definition set_session (name : string) (l : layer) (p : policy) : policy :=
  {| version := version p; global_layer := global_layer p; profiles := profiles p;
     sessions := Some (<[name := l]> (default ∅ (sessions p)));
     assignments := assignments p; mandatory := mandatory p; approvals := approvals p; delegations := delegations p;
     known_actions := known_actions p; future_actions_inherit := future_actions_inherit p; policy_adoption := policy_adoption p |}.
Definition change_session (env : Env) (st : PermissionStore) (name : string) (l : layer) (principal : Principal)
    (expected_revision : Z) : perform (Z * string) :=
  _ ← lift (guard (_layer l) "ValueError");
  old ← asking (_read env st);
  let p := saved_policy old in
  _ ← lift (may_change p name l principal);
  configure env st (set_session name (merge_layer (layer_of (sessions p) name) l) p) (operator_as principal) expected_revision.

(** The answer of [bind_domain]: whether the binding existed already. *)
Definition bind_domain (env : Env) (st : PermissionStore) (domain_root : string) (principal : Principal) : perform bool :=
  _ ← lift (guard (bool_decide (role principal = "operator")) "permission_operator_required");
  _ ← asking (_read env st);
  let root := absolute domain_root in
  _ ← lift (guard (canonical env root) "permission_root_not_canonical");
  if bool_decide (root = store_root st) then mret true else
  _ ← lift (io env "private domain");
  _ ← lift (io env "lock");
  old ← reading (λ w, link (domain_at w root));
  match old with
  | NoFile =>
    other ← asking (open_store env root);
    busy ← reading (active other);
    _ ← lift (guard (negb busy) "permission_domain_migration_required");
    _ ← lift (io env "save link");
    _ ← writing (update root (set_link (JsonFile (JObj [("version", JInt 1); ("root", JStr (store_root st));
          ("issuer", JStr (subject principal))]))));
    _ ← lift (io env "sync link");
    mret false
  | _ =>
    v ← lift (read_json env old);
    bound ← lift (match v with JObj o => Done (default JNull (dict_get "root" o)) | _ => Raised "AttributeError" end);
    _ ← lift (guard (bool_decide (bound = JStr (store_root st))) "permission_root_binding_conflict");
    other ← asking (open_store env root);
    _ ← asking (_read env other);
    mret true
  end.

(** ** Evaluation *)
Record context := {
  target : option string; relationship : option string; task_id : option string; operation_id : option string;
  capability : string; readiness : string; launch_profile : option string;
}.
Record decision := {
  permission : string; d_action : string; d_subject : string; d_target : string; d_relationship : string;
  d_task_id : option string; d_operation_id : option string; d_rule : string; d_revision : Z;
  d_approval : option approval; d_capability : string; d_readiness : string; scope_matched : bool; d_profile : string;
}.
(** The empty text counts as missing. *)
Definition truthy (s : option string) : option string := s ≫= λ x, if nonempty x then Some x else None.
Definition opt_json (s : option string) : json := match s with Some x => JStr x | None => JNull end.

(** What the request asks for, with the defaults filled in. *)
Record request := { r_action : string; r_principal : Principal; r_target : string; r_relation : string; r_context : context }.
Definition resolve (action : string) (principal : Principal) (c : context) : result string request :=
  _ ← guard (known_action action) "permission_action_unknown";
  let target := default (subject principal) (truthy (target c)) in
  let relation := default (if bool_decide (target = subject principal) then "self" else "peer") (truthy (relationship c)) in
  _ ← guard (bool_decide (relation ∈ RELATIONSHIPS) &&
             negb (bool_decide (relation = "self") && negb (bool_decide (target = subject principal)))) "permission_target_mismatch";
  _ ← guard (match task_id c with
             | Some t => bool_decide (role principal = "operator") || bool_decide (t ∈ tasks principal)
             | None => true end) "permission_task_scope_unverified";
  Done {| r_action := action; r_principal := principal; r_target := target; r_relation := relation; r_context := c |}.

Definition assignment_layer (p : policy) (r : request) : layer :=
  match truthy (task_id (r_context r)) with Some t => layer_of (assignments p) t | None => empty_layer end.
Definition session_layer (p : policy) (r : request) : layer := layer_of (sessions p) (subject (r_principal r)).
Definition selected_profile (p : policy) (r : request) : string :=
  default (default (default "permissive" (profile (default empty_layer (global_layer p))))
                   (profile (session_layer p r))) (profile (assignment_layer p r)).
(** The layers in the order of the loop, with the name each gives as source. *)
Definition layers (p : policy) (r : request) : list (string * layer) :=
  let selected := selected_profile p r in
  [("global", default empty_layer (global_layer p)); ("profile:" +:+ selected, layer_of (profiles p) selected);
   ("session", session_layer p r); ("assignment", assignment_layer p r)].

Definition layer_rule (l : layer) (action : string) : rule :=
  default (Plain (default "inherit" (default_decision l))) (default ∅ (actions l) !! action).
Definition rule_decision (v : rule) : string := match v with Plain d => d | Scoped d _ _ _ => d end.
Definition within (actual : option string) (allowed : option (list string)) : bool :=
  match allowed with
  | None => true
  | Some l => match actual with Some x => bool_decide (x ∈ l) | None => false end
  end.
Definition rule_matches (v : rule) (r : request) : bool :=
  match v with
  | Plain _ => true
  | Scoped _ relationships targets tasks => within (Some (r_relation r)) relationships &&
      within (Some (r_target r)) targets && within (task_id (r_context r)) tasks
  end.
(** Decision, its source, whether the scope of the deciding rule failed. *)
Definition standing : Type := string * string * bool.
Definition apply_layer (r : request) (acc : standing) (named : string * layer) : standing :=
  let v := layer_rule named.2 (r_action r) in
  if bool_decide (rule_decision v = "inherit") then acc
  else let matches := rule_matches v r in
       (if matches then rule_decision v else "deny", named.1, negb matches).
Definition initial_standing (p : policy) (r : request) : standing :=
  let selected := selected_profile p r in
  (if bool_decide (selected = "permissive") then default "approval_required" (dict_get (r_action r) ACTIONS) else "approval_required",
   "profile:" +:+ selected, false).
Definition layered (p : policy) (r : request) : standing := foldl (apply_layer r) (initial_standing p r) (layers p r).
Definition explicitly_configured (p : policy) (r : request) : bool :=
  existsb (λ nl, bool_decide (is_Some (default ∅ (actions nl.2) !! r_action r))) (layers p r).

(** The fixed rules that follow, up to the completed task. *)
Definition exact_scope (r : request) (d : string * string) : string * string :=
  let d := if bool_decide (r_action r ∈ self_only) && negb (bool_decide (r_relation r = "self"))
           then ("deny", "exact_self_required") else d in
  if bool_decide (r_action r = "refresh.shared") && negb (bool_decide (r_relation r = "shared"))
  then ("deny", "shared_scope_required") else d.
Definition new_action (p : policy) (r : request) : bool :=
  negb (bool_decide (r_action r ∈ default ACTIONS.*1 (known_actions p))) && negb (explicitly_configured p r) &&
  negb (default false (future_actions_inherit p)).
Definition prohibitions (p : policy) (r : request) (d : string * string) : string * string :=
  if bool_decide (r_action r ∈ default [] (mandatory p)) then ("deny", "mandatory")
  else if new_action p r && negb (bool_decide (d.1 = "deny")) then ("approval_required", "new_action") else d.
Definition task_key (t : string) : string := _owner_key (JObj [("kind", JStr "task"); ("id", JStr t)]).
Definition task_completed (owners : list (string * json)) (t : string) : bool :=
  match dict_get (task_key t) owners with None => false | Some v => negb (bool_decide (v = JNull)) end.
Definition legacy_ceiling (grants : gmap string (list string)) (r : request) : bool :=
  bool_decide (r_action r ∈ LIFECYCLE_ACTIONS) &&
  match grants !! subject (r_principal r) with
  | Some l => negb (within (launch_profile (r_context r)) (Some l))
  | None => false
  end.
(** [p.get('adoption',{}).get('legacy_profile_grants',{})]. *)
Definition grants_of (p : policy) : result string (gmap string (list string)) :=
  match policy_adoption p with
  | None => Done ∅
  | Some None => Raised "AttributeError"
  | Some (Some a) => Done (legacy_profile_grants a)
  end.
(** The decision before approvals are looked for. *)
Definition settled (env : Env) (st : PermissionStore) (p : policy) (r : request) (w : world) : result string (string * string) :=
  let d := prohibitions p r (exact_scope r (layered p r).1) in
  d ← match task_id (r_context r) with
      | None => Done d
      | Some t => owners ← _owners env (store_root st) w;
                  Done (if task_completed owners t then ("deny", "task_completed") else d)
      end;
  grants ← grants_of p;
  Done (if legacy_ceiling grants r then ("deny", "legacy_profile_ceiling") else d).

Definition covers_subject (a : approval) (p : Principal) : bool :=
  bool_decide (approval_subject a = subject p) ||
  (bool_decide (predecessor p = Some (approval_subject a)) || bool_decide (approval_subject a ∈ ancestors p)) &&
  bool_decide (approval_scope a = "task") && default true (successors a).
Definition covers_target (a : approval) (r : request) : bool :=
  match approval_target a with Some v => bool_decide (v = JStr (r_target r)) | None => true end.
(** Whether an approval applies at the time [at_]: the condition of the loop. *)
Definition approval_applies (at_ : T) (r : request) (a : approval) : result string bool :=
  if negb (bool_decide (approval_action a = r_action r)) || negb (covers_subject a (r_principal r)) || negb (covers_target a r)
  then Done false
  else expired ← match expires_at a with
                 | None => Done false
                 | Some text => seconds ← parse_timestamp text; Done (t_leb (t_plus t_zero seconds) at_)
                 end;
  if (expired : bool) then Done false
  else other_task ← (if bool_decide (approval_scope a = "standing") then Done false
                     else match approval_task a with
                          | None => Raised "KeyError"
                          | Some v => Done (negb (bool_decide (v = opt_json (task_id (r_context r)))))
                          end);
  Done (negb other_task &&
        negb (bool_decide (approval_scope a = "operation") && negb (bool_decide (operation_id (r_context r) = Some (approval_id a)))) &&
        negb (bool_decide (r_action r = "refresh.shared") && negb (bool_decide (approval_scope a = "standing")))).
(** The first that applies; [i] counts the readings of the clock. *)
Fixpoint find_approval (env : Env) (r : request) (i : nat) (l : list approval) : result string (option approval) :=
  match l with
  | [] => Done None
  | a :: l => applies ← approval_applies (now env i) r a;
              if (applies : bool) then Done (Some a) else find_approval env r (S i) l
  end.
Definition evaluate (env : Env) (st : PermissionStore) (action : string) (principal : Principal) (c : context) (w : world) :
    result string decision :=
  r ← resolve action principal c;
  v ← _read env st w;
  let p := saved_policy v in
  d ← settled env st p r w;
  found ← (if bool_decide (d.1 = "approval_required") then find_approval env r 0 (default [] (approvals p)) else Done None);
  Done {| permission := if bool_decide (is_Some found) then "allow" else d.1;
          d_action := action; d_subject := subject principal; d_target := r_target r; d_relationship := r_relation r;
          d_task_id := task_id c; d_operation_id := operation_id c; d_rule := d.2; d_revision := revision v;
          d_approval := found; d_capability := capability c; d_readiness := readiness c;
          scope_matched := negb (layered p r).2; d_profile := selected_profile p r |}.

(** [check_operation]: [None] under legacy guards. *)
Definition check_operation (env : Env) (root action : string) (principal : Principal) (c : context) (w : world) :
    result string (option decision) :=
  st ← open_store env root w;
  if negb (active st w) then Done None
  else d ← evaluate env st action principal c w;
       if bool_decide (permission d = "allow") then Done (Some d) else Raised ("permission_" +:+ permission d).
End Store.
