(* ===== verification/PermissionRules.v ===== *)
(** * What the action policy promises

    [PermissionRules]: the order of the layers, what an [allow] rests on, what
    a change of one session layer can reach, and the revisions of the stored
    policy over any calls, with runs of each on concrete policies. *)
From S2P Require Import Prelude Effects Json Sha256 Datetime Timestamps Permissions.
Open Scope Z_scope.

Section Rules.
Context {T : Type} {TT : Timestamp T}.
Implicit Types (env : Env (T:=T)) (w : world (T:=T)) (v : saved (T:=T)).

(** ** Reading a result *)
Lemma evaluate_Done env st action principal c w d : evaluate env st action principal c w = Done d ↔
  ∃ r v e found, resolve action principal c = Done r ∧ _read env st w = Done v ∧
    settled env st (saved_policy v) r w = Done e ∧
    (if bool_decide (e.1 = "approval_required") then find_approval env r 0 (default [] (approvals (saved_policy v)))
     else Done None) = Done found ∧
    d = {| permission := if bool_decide (is_Some found) then "allow" else e.1;
           d_action := action; d_subject := subject principal; d_target := r_target r; d_relationship := r_relation r;
           d_task_id := task_id c; d_operation_id := operation_id c; d_rule := e.2; d_revision := revision v;
           d_approval := found; d_capability := capability c; d_readiness := readiness c;
           scope_matched := negb (layered (saved_policy v) r).2; d_profile := selected_profile (saved_policy v) r |}.
Proof.
  unfold evaluate. rewrite result_bind_Done. split.
  - intros (r & Hr & (v & Hv & (e & He & (found & Hf & [= <-])%result_bind_Done)%result_bind_Done)%result_bind_Done).
    by exists r, v, e, found.
  - intros (r & v & e & found & Hr & Hv & He & Hf & ->). exists r. split; [done|].
    by rewrite Hv; cbn; rewrite He; cbn; rewrite Hf.
Qed.
Lemma resolve_Done action principal c r : resolve action principal c = Done r →
  r_action r = action ∧ r_principal r = principal ∧ r_context r = c ∧ known_action action = true ∧
  r_relation r ∈ RELATIONSHIPS ∧ (r_relation r = "self" → r_target r = subject principal) ∧
  (∀ t, task_id c = Some t → role principal = "operator" ∨ t ∈ tasks principal).
Proof.
  unfold resolve. intros (? & Ha%guarded_Done & (? & Hrel%guarded_Done & (? & Ht%guarded_Done & [= <-])%result_bind_Done)%result_bind_Done)%result_bind_Done.
  cbn. apply andb_true_iff in Hrel as [Hrel%bool_decide_eq_true Hself].
  split_and!; try done.
  - intros Hs. apply negb_true_iff, andb_false_iff in Hself as [Hself|Hself].
    + by apply bool_decide_eq_false in Hself.
    + by apply negb_false_iff, bool_decide_eq_true in Hself.
  - intros t Heq. rewrite Heq in Ht. apply orb_true_iff in Ht as [Ht|Ht]; apply bool_decide_eq_true in Ht; eauto.
Qed.

(** ** Approvals *)
(** An approval that covers the request and has not expired at [at_]. *)
Record live_approval (at_ : T) (r : request) (a : approval) : Prop := {
  live_action : approval_action a = r_action r;
  live_subject : approval_subject a = subject (r_principal r) ∨
    approval_scope a = "task" ∧ successors a ≠ Some false ∧
    (predecessor (r_principal r) = Some (approval_subject a) ∨ approval_subject a ∈ ancestors (r_principal r));
  live_target x : approval_target a = Some x → x = JStr (r_target r);
  live_time text seconds : expires_at a = Some text → parse_timestamp text = Done seconds → t_ltb at_ (t_plus t_zero seconds) = true;
  live_task : approval_scope a ≠ "standing" → approval_task a = Some (opt_json (task_id (r_context r)));
  live_operation : approval_scope a = "operation" → operation_id (r_context r) = Some (approval_id a);
  live_shared : r_action r = "refresh.shared" → approval_scope a = "standing";
}.
Lemma approval_applies_true at_ r a : approval_applies at_ r a = Done true → live_approval at_ r a.
Proof.
  unfold approval_applies. destruct (negb _ || _ || _) eqn:Hskip; [done|].
  apply orb_false_iff in Hskip as [[Ha Hs]%orb_false_iff Ht].
  apply negb_false_iff in Ha, Hs, Ht. apply bool_decide_eq_true in Ha.
  intros ([|] & Hexp & Hrest)%result_bind_Done; [done|].
  apply result_bind_Done in Hrest as (other & Hother & [= Hlast]).
  apply andb_true_iff in Hlast as [[Ho Hop]%andb_true_iff Hsh].
  apply negb_true_iff in Ho as ->. apply negb_true_iff in Hop, Hsh.
  split; [done|..].
  - unfold covers_subject in Hs. apply orb_true_iff in Hs as [Hs|Hs]; [left; by apply bool_decide_eq_true in Hs|right].
    apply andb_true_iff in Hs as [[Hw Hsc]%andb_true_iff Hsu]. apply bool_decide_eq_true in Hsc.
    split_and!; [done|by intros Heq; rewrite Heq in Hsu|].
    apply orb_true_iff in Hw as [Hw|Hw]; apply bool_decide_eq_true in Hw; eauto.
  - intros x Hx. unfold covers_target in Ht. rewrite Hx in Ht. by apply bool_decide_eq_true in Ht.
  - intros text seconds Htext Hsec. rewrite Htext, Hsec in Hexp. cbn in Hexp. unfold t_ltb. by injection Hexp as ->.
  - intros Hst. rewrite bool_decide_false in Hother by done. destruct (approval_task a); [|done].
    injection Hother as Hother. apply negb_false_iff, bool_decide_eq_true in Hother. by subst.
  - intros Hsc. rewrite bool_decide_true in Hop by done. apply andb_false_iff in Hop as [|Hop]; [done|].
    by apply negb_false_iff, bool_decide_eq_true in Hop.
  - intros Hra. rewrite bool_decide_true in Hsh by done. apply andb_false_iff in Hsh as [|Hsh]; [done|].
    by apply negb_false_iff, bool_decide_eq_true in Hsh.
Qed.
Lemma find_approval_Some env r i l a : find_approval env r i l = Done (Some a) →
  ∃ n, l !! n = Some a ∧ live_approval (now env (i + n)%nat) r a.
Proof.
  revert i. induction l as [|b l IH]; intros i; [done|]. simpl.
  intros (applies & Hb & Hrest)%result_bind_Done. destruct applies.
  - injection Hrest as ->. exists 0%nat. rewrite Nat.add_0_r. split; [done|]. by apply approval_applies_true.
  - apply IH in Hrest as (n & Hn & Hl). exists (S n). by rewrite Nat.add_succ_r.
Qed.

(** ** The fixed rules *)
(** What every decision but a denial satisfies, whatever the layers say. *)
Record within_fixed_rules (env : Env (T:=T)) (st : PermissionStore) (p : policy) (r : request) (w : world (T:=T)) : Prop := {
  not_mandatory : r_action r ∉ default [] (mandatory p);
  exact_self : r_action r ∈ self_only → r_relation r = "self";
  exact_shared : r_action r = "refresh.shared" → r_relation r = "shared";
  task_open t : task_id (r_context r) = Some t → ∃ owners, _owners env (store_root st) w = Done owners ∧ task_completed owners t = false;
  ceiling_kept a grants : policy_adoption p = Some (Some a) → r_action r ∈ LIFECYCLE_ACTIONS →
    legacy_profile_grants a !! subject (r_principal r) = Some grants → ∃ x, launch_profile (r_context r) = Some x ∧ x ∈ grants;
}.
Lemma exact_scope_open r d : (exact_scope r d).1 ≠ "deny" →
  exact_scope r d = d ∧ (r_action r ∈ self_only → r_relation r = "self") ∧ (r_action r = "refresh.shared" → r_relation r = "shared").
Proof.
  unfold exact_scope. destruct (bool_decide (r_action r = "refresh.shared") && _) eqn:Hs; [done|].
  destruct (bool_decide (r_action r ∈ self_only) && _) eqn:Hx; [done|]. intros _. split_and!; [done|..]; intros Ha.
  - rewrite bool_decide_true in Hx by done. by apply negb_false_iff, bool_decide_eq_true in Hx.
  - rewrite bool_decide_true in Hs by done. by apply negb_false_iff, bool_decide_eq_true in Hs.
Qed.
Lemma prohibitions_open p r d : (prohibitions p r d).1 ≠ "deny" →
  r_action r ∉ default [] (mandatory p) ∧ d.1 ≠ "deny" ∧
  ((new_action p r = false ∧ prohibitions p r d = d) ∨ (new_action p r = true ∧ (prohibitions p r d).1 = "approval_required")).
Proof.
  unfold prohibitions. case_bool_decide as Hm; [done|]. destruct (new_action p r); simpl.
  - case_bool_decide as Hd; simpl; [done|]. intros _. eauto.
  - intros Hd. eauto.
Qed.
Lemma settled_Done env st p r w e : settled env st p r w = Done e ↔
  ∃ d grants, match task_id (r_context r) with
    | None => Done (prohibitions p r (exact_scope r (layered p r).1))
    | Some t => owners ← _owners env (store_root st) w;
        Done (if task_completed owners t then ("deny", "task_completed") else prohibitions p r (exact_scope r (layered p r).1))
    end = Done d ∧ grants_of p = Done grants ∧ e = if legacy_ceiling grants r then ("deny", "legacy_profile_ceiling") else d.
Proof.
  unfold settled. rewrite result_bind_Done. split.
  - intros (d & Hd & (grants & Hg & [= <-])%result_bind_Done). eauto.
  - intros (d & grants & Hd & Hg & ->). exists d. split; [done|]. by rewrite Hg.
Qed.
Lemma settled_open env st p r w e : settled env st p r w = Done e → e.1 ≠ "deny" →
  within_fixed_rules env st p r w ∧
  ((new_action p r = false ∧ e = (layered p r).1) ∨ (new_action p r = true ∧ e.1 = "approval_required")).
Proof.
  intros (d & grants & Hd & Hg & ->)%settled_Done. destruct (legacy_ceiling grants r) eqn:Hl; [done|]. intros Hne.
  assert (d = prohibitions p r (exact_scope r (layered p r).1) ∧ ∀ t, task_id (r_context r) = Some t →
    ∃ owners, _owners env (store_root st) w = Done owners ∧ task_completed owners t = false) as [-> Htask].
  { destruct (task_id (r_context r)) as [t|]; [|by injection Hd as <-].
    apply result_bind_Done in Hd as (owners & Ho & [= <-]).
    destruct (task_completed owners t) eqn:Hc; [done|]. split; [done|]. intros ? [= <-]. eauto. }
  destruct (prohibitions_open _ _ _ Hne) as (Hm & Hne' & Hnew).
  destruct (exact_scope_open _ _ Hne') as (Heq & Hself & Hshared). split.
  - split; try done. intros a granted Ha Hact Hsub. unfold grants_of in Hg. rewrite Ha in Hg. injection Hg as <-.
    unfold legacy_ceiling in Hl. rewrite bool_decide_true, Hsub in Hl by done. cbn in Hl.
    apply negb_false_iff in Hl. destruct (launch_profile (r_context r)) as [x|]; [|done].
    apply bool_decide_eq_true in Hl. eauto.
  - rewrite Heq in Hnew |- *. destruct Hnew as [[? ->]|[? ?]]; eauto.
Qed.

(** What an allowed action rests on. *)
Lemma evaluate_allowed env st action principal c w d :
  evaluate env st action principal c w = Done d → permission d = "allow" →
  ∃ r v, resolve action principal c = Done r ∧ _read env st w = Done v ∧ d_revision d = revision v ∧
    within_fixed_rules env st (saved_policy v) r w ∧
    match d_approval d with
    | None => (layered (saved_policy v) r).1.1 = "allow" ∧ new_action (saved_policy v) r = false
    | Some a => ∃ n, default [] (approvals (saved_policy v)) !! n = Some a ∧ live_approval (now env n) r a ∧
        (new_action (saved_policy v) r = true ∨ (layered (saved_policy v) r).1.1 = "approval_required")
    end.
Proof.
  intros (r & v & e & found & Hr & Hv & He & Hf & ->)%evaluate_Done. simpl. intros Hallow.
  exists r, v. do 3 (split; [done|]).
  destruct (bool_decide_reflect (e.1 = "approval_required")) as [Happ|_].
  - destruct (settled_open _ _ _ _ _ _ He) as [Hfix Hwhy]; [by rewrite Happ|]. split; [done|].
    destruct found as [a|]; [|by rewrite Happ in Hallow].
    apply find_approval_Some in Hf as (n & Hn & Hl). exists n. split_and!; [done..|].
    destruct Hwhy as [[? ->]|[? _]]; eauto.
  - injection Hf as <-. simpl in Hallow.
    destruct (settled_open _ _ _ _ _ _ He) as [Hfix Hwhy]; [by rewrite Hallow|]. split; [done|].
    destruct Hwhy as [[? ->]|[_ Hbad]]; [done|]. by rewrite Hallow in Hbad.
Qed.

(** C24 An allowed action rests on the stored policy: it is a known action on a
    target and task the principal may name, outside the mandatory prohibitions,
    on its exact self or shared scope, for a task that is not completed and
    within the profile ceiling of an adopted legacy policy; and either the
    layers allow it and it is no action the policy never saw, or an unexpired
    approval of the policy covers exactly this action, subject, target, task
    and operation. *)
Theorem evaluate_allow_sound env st action principal c w d :
  evaluate env st action principal c w = Done d → permission d = "allow" →
  ∃ r v, resolve action principal c = Done r ∧ _read env st w = Done v ∧ d_revision d = revision v ∧
    within_fixed_rules env st (saved_policy v) r w ∧
    match d_approval d with
    | None => (layered (saved_policy v) r).1.1 = "allow" ∧ new_action (saved_policy v) r = false
    | Some a => ∃ n, default [] (approvals (saved_policy v)) !! n = Some a ∧ live_approval (now env n) r a ∧
        (new_action (saved_policy v) r = true ∨ (layered (saved_policy v) r).1.1 = "approval_required")
    end.
Proof. apply evaluate_allowed. Qed.

(** ** The order of the layers *)
(** The rule of the most specific layer that does not inherit. *)
Definition deciding (p : policy) (r : request) : option (string * layer) :=
  list_find (λ nl, rule_decision (layer_rule nl.2 (r_action r)) ≠ "inherit") (reverse (layers p r)) ≫= λ x, Some x.2.
Lemma foldl_apply_layer r ls acc : foldl (apply_layer r) acc ls =
  match list_find (λ nl, rule_decision (layer_rule nl.2 (r_action r)) ≠ "inherit") (reverse ls) with
  | None => acc
  | Some (_, nl) => apply_layer r acc nl
  end.
Proof.
  induction ls as [|nl ls IH] using rev_ind; [done|].
  rewrite foldl_app, IH, reverse_snoc. simpl.
  case_decide as Hi.
  - unfold apply_layer. by rewrite bool_decide_false.
  - unfold apply_layer at 1. rewrite bool_decide_true by (by destruct (decide (rule_decision (layer_rule nl.2 (r_action r)) = "inherit"))).
    by destruct (list_find _ _) as [[??]|].
Qed.

Lemma apply_inherits r acc nl : rule_decision (layer_rule nl.2 (r_action r)) = "inherit" → apply_layer r acc nl = acc.
Proof. intros Hi. unfold apply_layer. by rewrite bool_decide_true. Qed.
Lemma apply_decides r acc acc' nl : rule_decision (layer_rule nl.2 (r_action r)) ≠ "inherit" → apply_layer r acc nl = apply_layer r acc' nl.
Proof. intros Hi. unfold apply_layer. by rewrite !bool_decide_false. Qed.


(** ** What a call writes *)
Lemma domain_at_update root f w root' :
  domain_at (update root f w) root' = if decide (root = root') then f (domain_at w root) else domain_at w root'.
Proof.
  unfold domain_at, update, world. case_decide; subst.
  - by rewrite (lookup_insert_eq (M:=gmap string)).
  - by rewrite (lookup_insert_ne (M:=gmap string)).
Qed.

(** The preparation of a revision: directories and an empty owner state may
    appear, nothing else changes. *)
Definition prepared w w' : Prop := ∀ root, let d := domain_at w root in let d' := domain_at w' root in
  link d' = link d ∧ policy_file d' = policy_file d ∧ adopted d' = adopted d ∧
  (owners_file d' = owners_file d ∨ owners_file d = NoFile) ∧
  (directory d' = directory d ∨ directory d = NoDirectory ∧ directory d' = Directory).
#[export] Instance prepared_preorder : PreOrder prepared.
Proof.
  split; [intros w root; naive_solver|]. intros w1 w2 w3 H12 H23 root.
  specialize (H12 root) as (?&?&?&?&?). specialize (H23 root) as (?&?&?&?&?). simpl in *. split_and!; try congruence.
  - naive_solver congruence.
  - naive_solver congruence.
Qed.
Lemma prepared_make root w : prepared w (update root make_directory w).
Proof.
  intros root'. simpl. rewrite domain_at_update. case_decide; subst; [|naive_solver].
  unfold make_directory. destruct (directory (domain_at w root')) eqn:Hd; simpl; naive_solver.
Qed.
Lemma initialize_owners_keeps env root : keeps prepared (initialize_owners env root).
Proof.
  intros w r w'. unfold initialize_owners, mbind, effect_bind, reading. 
  destruct (owners_file (domain_at w root)) eqn:Ho; [|intros [= _ <-]; reflexivity..].
  destruct (records_with_owner env root); [intros [= _ <-]; reflexivity|]. unfold lift.
  destruct (io env "write owners"); [|intros [= _ <-]; reflexivity]. intros [= _ <-] root'. simpl.
  rewrite domain_at_update. case_decide; subst; simpl; [|naive_solver]. split_and!; eauto.
Qed.

Lemma read_iff env st w v : _read env st w = Done v ↔
  routing_error st = None ∧ io env "private directory" = Done () ∧ directory (domain_at w (store_root st)) = Directory ∧
  canonical env (store_root st +:+ "/session-permissions") = true ∧ policy_file (domain_at w (store_root st)) = Policy v ∧
  io env "read" = Done () ∧ Z.of_nat (String.length (saved_text v)) ≤ read_file_limit ∧ 1 ≤ revision v ∧
  _validate (saved_policy v) = Done ().
Proof.
  unfold _read. cbv zeta. split.
  - intros (? & Hr%guarded_Done & ([] & Hd & (? & Hc%guarded_Done & (v' & Hf & Hv)%result_bind_Done)%result_bind_Done)%result_bind_Done)%result_bind_Done.
    apply result_bind_Done in Hv as (? & Hrev%guarded_Done & ([] & Hval & [= <-])%result_bind_Done).
    apply bool_decide_eq_true in Hr. apply Z.leb_le in Hrev.
    unfold private_directory in Hd. apply result_bind_Done in Hd as ([] & Hio & Hd).
    unfold read_saved in Hf. destruct (policy_file _); [done..|]. apply result_bind_Done in Hf as ([] & Hio' & Hf).
    apply result_bind_Done in Hf as (? & Hsize%guarded_Done & [= ->]). apply Z.leb_le in Hsize. by destruct (directory _).
  - intros (Hr & Hp & Hd & Hc & Hf & Hio & Hsize & Hrev & Hval). apply Z.leb_le in Hsize, Hrev.
    apply result_bind_Done. exists (). split; [by apply guarded_Done, bool_decide_eq_true|].
    apply result_bind_Done. exists (). split; [unfold private_directory; by rewrite Hp, Hd|].
    apply result_bind_Done. exists (). split; [by apply guarded_Done|].
    apply result_bind_Done. exists v. split.
    { unfold read_saved. rewrite Hf, Hio. apply result_bind_Done. exists (). split; [done|].
      apply result_bind_Done. exists (). split; [by apply guarded_Done|done]. }
    apply result_bind_Done. exists (). split; [by apply guarded_Done|]. by rewrite Hval.
Qed.
Lemma read_stored env st w v : _read env st w = Done v →
  routing_error st = None ∧ policy_file (domain_at w (store_root st)) = Policy v ∧ 1 ≤ revision v ∧
  Z.of_nat (String.length (saved_text v)) ≤ read_file_limit ∧ _validate (saved_policy v) = Done ().
Proof. intros Hr%read_iff. naive_solver. Qed.
Definition written st (v : saved) w := update (store_root st) (set_policy (Policy v)) w.
Definition marked st (v : saved) w := update (store_root st) (set_adopted true) (written st v w).
Definition next env old p principal := next_revision env old (with_defaults old p) principal.
Lemma save_run env st p principal n old w r w' : save_revision env st p principal n old w = (r, w') →
  (w' = w ∧ ∃ e, r = Raised e) ∨
  default 0 (revision <$> old) = n ∧ let v := next env old p principal in
    (w' = written st v w ∨ w' = marked st v w) ∧
    ∀ a, r = Done a → w' = marked st v w ∧ a = (revision v, policy_digest (saved_policy v)).
Proof.
  unfold save_revision, mbind, effect_bind, lift, guard, writing, mret, effect_ret. cbv zeta.
  destruct (_ =? _) eqn:Hn; [apply Z.eqb_eq in Hn|intros [= <- <-]; eauto].
  destruct (io env "save policy"); [|intros [= <- <-]; eauto].
  destruct (io env "sync policy"); [|intros [= <- <-]; right; split_and!; eauto; done].
  destruct (io env "save adopted"); [|intros [= <- <-]; right; split_and!; eauto; done].
  destruct (io env "sync adopted"); intros [= <- <-]; right; split_and!; eauto; try done. by intros ? [= <-].
Qed.
Lemma configure_run env st p principal n w r w' : configure env st p principal n w = (r, w') →
  (prepared w w' ∧ ∃ e, r = Raised e) ∨
  ∃ w1 old, prepared w w1 ∧ _validate p = Done () ∧ role principal = "operator" ∧
    current_revision env st w1 = Done old ∧ save_revision env st p principal n old w1 = (r, w').
Proof.
  unfold configure, mbind, effect_bind, lift, asking, writing. pose proof (reflexivity (R:=prepared) w) as Hrefl.
  destruct (_validate p) as [[]|]; [|intros [= <- <-]; eauto].
  destruct (guard _ "permission_root_binding_invalid") as [|]; [|intros [= <- <-]; eauto].
  destruct (guard _ "permission_operator_required") as [u|] eqn:Hop; [|intros [= <- <-]; eauto].
  apply guarded_Done, bool_decide_eq_true in Hop.
  destruct (io env "make root"); [|intros [= <- <-]; eauto].
  pose proof (prepared_make (store_root st) w) as Hmake.
  destruct (io env "private root"); [|intros [= <- <-]; eauto].
  destruct (private_directory _ _); [|intros [= <- <-]; eauto].
  destruct (initialize_owners env _ _) as [[?|?] w1] eqn:Hi;
    apply initialize_owners_keeps in Hi as Hi'; assert (prepared w w1) by (by etransitivity); [|intros [= <- <-]; eauto].
  destruct (io env "lock"); [|intros [= <- <-]; eauto].
  destruct (current_revision env st w1) eqn:Hc; [|intros [= <- <-]; eauto]. intros Hp. right. eauto 10.
Qed.

(** ** Revisions over any calls *)
(** The history numbers the revisions from 1, and its last entry describes the
    stored policy. *)
Record chained v : Prop := {
  chain_revision : revision v = Z.of_nat (length (history v));
  chain_numbers i e : history v !! i = Some e → entry_revision e = Z.of_nat i + 1;
  chain_last : ∃ e, last (history v) = Some e ∧ entry_digest e = policy_digest (saved_policy v) ∧ entry_issuer e = issuer v;
}.
Definition document_ok (d : policy_document (T:=T)) : Prop := match d with Policy v => chained v | _ => True end.
(** A document is kept, appears, or is followed by a later revision. *)
Definition follows (d d' : policy_document (T:=T)) : Prop :=
  d' = d ∨ d = NoPolicy ∨ ∃ v v', d = Policy v ∧ d' = Policy v' ∧ revision v < revision v' ∧ history v `prefix_of` history v'.
Definition revises w w' : Prop := (∀ root, document_ok (policy_file (domain_at w root))) →
  (∀ root, document_ok (policy_file (domain_at w' root))) ∧
  ∀ root, follows (policy_file (domain_at w root)) (policy_file (domain_at w' root)).
Lemma follows_trans d1 d2 d3 : follows d1 d2 → follows d2 d3 → follows d1 d3.
Proof.
  unfold follows. intros [->|[->|(v1 & v2 & -> & -> & Hr & Hh)]] [->|[Heq|(v2' & v3 & Heq & -> & Hr' & Hh')]]; simplify_eq; eauto 10.
  right. right. exists v1, v3. split_and!; try done; [lia|by etransitivity].
Qed.
#[export] Instance revises_preorder : PreOrder revises.
Proof.
  split; [intros w Hok; split; [done|]; by left|].
  intros w1 w2 w3 H12 H23 Hok. destruct (H12 Hok) as [Hok2 Hf]. destruct (H23 Hok2) as [Hok3 Hf']. split; [done|].
  intros root. by eapply follows_trans.
Qed.
Lemma same_policies w w' : (∀ root, policy_file (domain_at w' root) = policy_file (domain_at w root)) → revises w w'.
Proof. intros Heq Hok. split; intros root; rewrite Heq; [done|by left]. Qed.
Lemma prepared_revises w w' : prepared w w' → revises w w'.
Proof. intros Hp. apply same_policies. intros root. by destruct (Hp root) as (_ & ? & _). Qed.
Lemma chained_next env old p principal : (∀ v, old = Some v → chained v) → chained (next env old p principal).
Proof.
  intros Hold. assert (default 0 (revision <$> old) = Z.of_nat (length (default [] (history <$> old)))) as Hn.
  { destruct old as [v|]; [|done]. apply (chain_revision _ (Hold v eq_refl)). }
  split; simpl.
  - rewrite length_app, Hn. simpl. lia.
  - intros i e [Hi|[Hi Hlast]]%lookup_app_Some.
    + destruct old as [v|]; [|done]. by apply (chain_numbers _ (Hold v eq_refl)).
    + apply list_lookup_singleton_Some in Hlast as [Hz <-]. simpl. lia.
  - eexists. rewrite last_snoc. done.
Qed.
Lemma current_stored env st w old : current_revision env st w = Done old →
  match old with
  | None => policy_file (domain_at w (store_root st)) = NoPolicy
  | Some v => policy_file (domain_at w (store_root st)) = Policy v ∧ 1 ≤ revision v
  end.
Proof.
  unfold current_revision. destruct (active st w) eqn:Ha.
  - intros (v & (_ & ? & ? & _)%read_stored & [= <-])%result_bind_Done. done.
  - intros [= <-]. unfold active in Ha. repeat (apply orb_false_iff in Ha as [Ha ?]). by destruct (policy_file _).
Qed.
Lemma save_revises env st p principal n old w r w' :
  current_revision env st w = Done old → save_revision env st p principal n old w = (r, w') → revises w w'.
Proof.
  intros Hc [[-> _]|(Hn & Hw & _)]%save_run; [reflexivity|]. apply current_stored in Hc. simpl in Hw. intros Hok.
  set (v' := next env old p principal) in *.
  assert (chained v') as Hv'.
  { apply chained_next. intros v ->. destruct Hc as [Hc _]. specialize (Hok (store_root st)). by rewrite Hc in Hok. }
  assert (∀ root, policy_file (domain_at w' root) =
    if decide (store_root st = root) then Policy v' else policy_file (domain_at w root)) as Hfile.
  { intros root. destruct Hw as [-> | ->]; unfold marked, written; rewrite !domain_at_update; by case_decide; subst; rewrite ?decide_True. }
  split; intros root; rewrite Hfile; case_decide as Hroot; [done..|subst root|by left].
  destruct old as [v|]; [destruct Hc as [Hc Hrev]|]; rewrite Hc; [|by right; left].
  right. right. exists v, v'. split_and!; [done..|simpl; lia|simpl; by apply prefix_app_r].
Qed.
Lemma configure_revises env st p principal n : keeps revises (configure env st p principal n).
Proof.
  intros w r w' [[Hp _]|(w1 & old & Hp & _ & _ & Hc & Hs)]%configure_run; [by apply prepared_revises|].
  transitivity w1; [by apply prepared_revises|by eapply save_revises].
Qed.
Lemma change_session_revises env st name l principal n : keeps revises (change_session env st name l principal n).
Proof. unfold change_session. eauto 10 using configure_revises with keeps typeclass_instances. Qed.
Lemma link_revises root f w : revises w (update root (set_link f) w).
Proof. apply same_policies. intros root'. rewrite domain_at_update. by case_decide; subst. Qed.
Lemma bind_domain_revises env st root principal : keeps revises (bind_domain env st root principal).
Proof.
  unfold bind_domain. repeat first [eapply keeps_bind; [apply _| |intros ?]|case_match|apply keeps_writing; intros; apply link_revises];
    eauto with keeps typeclass_instances.
Qed.

Inductive call :=
| Configure env (st : PermissionStore) (p : policy) (principal : Principal) (n : Z)
| ChangeSession env (st : PermissionStore) (name : string) (l : layer) (principal : Principal) (n : Z)
| BindDomain env (st : PermissionStore) (root : string) (principal : Principal).
(** What the files are after a call, whatever it answered. *)
Definition after (k : call) w : world :=
  match k with
  | Configure env st p principal n => (configure env st p principal n w).2
  | ChangeSession env st name l principal n => (change_session env st name l principal n w).2
  | BindDomain env st root principal => (bind_domain env st root principal w).2
  end.
Definition reaches : world → world → Prop := rtc (λ w w', ∃ k, w' = after k w).
Lemma reaches_revises w w' : reaches w w' → revises w w'.
Proof.
  induction 1 as [|w w1 w' (k & ->) _ IH]; [reflexivity|]. transitivity (after k w); [|done]. destruct k; simpl.
  - by eapply configure_revises, surjective_pairing.
  - by eapply change_session_revises, surjective_pairing.
  - by eapply bind_domain_revises, surjective_pairing.
Qed.
Lemma reachable_documents w : reaches ∅ w → ∀ root, document_ok (policy_file (domain_at w root)).
Proof. intros Hw. by apply (reaches_revises _ _ Hw). Qed.

(** Over any sequence of calls on any roots, whatever fails in them, the
    stored policy of a root carries the history of all its revisions, numbered
    from 1 without a gap, the last entry with the issuer and the digest of the
    policy in force; no later call removes or rewrites an entry. *)
Theorem revision_history w root v : reaches ∅ w → policy_file (domain_at w root) = Policy v →
  chained v ∧ ∀ w', reaches w w' → ∃ v', policy_file (domain_at w' root) = Policy v' ∧ chained v' ∧
    history v `prefix_of` history v' ∧ (revision v' = revision v → v' = v).
Proof.
  intros Hw Hv. pose proof (reachable_documents _ Hw) as Hok. split; [specialize (Hok root); by rewrite Hv in Hok|].
  intros w' Hw'. destruct (reaches_revises _ _ Hw' Hok) as [Hok' Hf]. specialize (Hf root). specialize (Hok' root).
  rewrite Hv in Hf. destruct Hf as [Heq|[?|(v0 & v' & [= <-] & Heq & Hr & Hh)]]; [|done|]; rewrite Heq in Hok'.
  - eauto.
  - exists v'. split_and!; try done. lia.
Qed.

Lemma configure_Done env st p principal n w a w' : configure env st p principal n w = (Done a, w') →
  ∃ w1 old, prepared w w1 ∧ _validate p = Done () ∧ role principal = "operator" ∧
    current_revision env st w1 = Done old ∧ default 0 (revision <$> old) = n ∧
    let v := next env old p principal in w' = marked st v w1 ∧ a = (revision v, policy_digest (saved_policy v)).
Proof.
  intros [(_ & e & ?)|(w1 & old & Hp & Hval & Hrole & Hc & Hs)]%configure_run; [done|].
  apply save_run in Hs as [(_ & e & ?)|(Hn & _ & Ha)]; [done|]. destruct (Ha a eq_refl) as [-> ->]. eauto 10.
Qed.
Lemma marked_at st v w root : domain_at (marked st v w) root =
  if decide (store_root st = root) then set_adopted true (set_policy (Policy v) (domain_at w root)) else domain_at w root.
Proof. unfold marked, written. rewrite !domain_at_update. case_decide; subst; by rewrite ?decide_True. Qed.

(** C28 A revision is installed against the revision its author read: a
    configuration that succeeds with [n] expected stores the validated policy
    as revision [n + 1] of its root and leaves every other root's policy as it
    was, and whatever is called afterwards, a configuration of the same root
    succeeds only with a later revision expected. *)
Theorem revision_fence env st p principal n w a w1 :
  reaches ∅ w → configure env st p principal n w = (Done a, w1) →
  a.1 = n + 1 ∧ _validate p = Done () ∧ role principal = "operator" ∧
  (∃ v (old : option (saved (T:=T))), policy_file (domain_at w1 (store_root st)) = Policy v ∧ revision v = n + 1 ∧ saved_policy v = with_defaults old p ∧
     a.2 = policy_digest (saved_policy v)) ∧
  (∀ root, root ≠ store_root st → policy_file (domain_at w1 root) = policy_file (domain_at w root)) ∧
  ∀ w2 env' st' p' principal' m a' w3, reaches w1 w2 → store_root st' = store_root st →
    configure env' st' p' principal' m w2 = (Done a', w3) → n < m.
Proof.
  intros Hw Hcall. pose proof (configure_revises _ _ _ _ _ _ _ _ Hcall (reachable_documents _ Hw)) as [Hok1 _].
  apply configure_Done in Hcall as (w0 & old & Hp & Hval & Hrole & Hc & Hn & -> & ->).
  assert (∀ root, policy_file (domain_at (marked st (next env old p principal) w0) root) =
    if decide (store_root st = root) then Policy (next env old p principal) else policy_file (domain_at w0 root)) as Hfile.
  { intros root. rewrite marked_at. by case_decide. }
  split; [by rewrite <-Hn|]. do 2 (split; [done|]). split; [|split].
  - exists (next env old p principal), old. rewrite Hfile, decide_True by done. split_and!; try done. by rewrite <-Hn.
  - intros root Hroot. rewrite Hfile, decide_False by done. by destruct (Hp root) as (_ & ? & _).
  - intros w2 env' st' p' principal' m a' w3 H12 Hst Hcall.
    destruct (reaches_revises _ _ H12 Hok1) as [_ Hf]. specialize (Hf (store_root st)). rewrite Hfile, decide_True in Hf by done.
    assert (∃ v, policy_file (domain_at w2 (store_root st)) = Policy v ∧ n < revision v) as (v & Hv & Hlt).
    { destruct Hf as [->|[?|(v & v' & [= <-] & -> & Hr & _)]]; [|done|]; eexists; (split; [done|]); simpl in *; lia. }
    apply configure_Done in Hcall as (w4 & old' & Hp' & _ & _ & Hc' & Hm & _).
    apply current_stored in Hc'. destruct (Hp' (store_root st)) as (_ & Hsame & _).
    rewrite Hst, Hsame, Hv in Hc'. destruct old' as [v'|]; [|done]. destruct Hc' as [[= <-] _]. simpl in Hm. lia.
Qed.

(** ** Changes of one session layer *)
(** What a principal that is no operator may change: its own layer, or one
    that was delegated to it, within the delegated actions. *)
Definition delegated (p : policy) (name : string) (l : layer) (principal : Principal) : Prop :=
  role principal = "controller" ∧ ∃ d, default ∅ (delegations p) !! subject principal = Some d ∧ name ∈ delegated_sessions d ∧
    profile l = None ∧ ∀ a, is_Some (default ∅ (actions l) !! a) → a ∈ delegated_actions d.
Definition own (p : policy) (name : string) (l : layer) (principal : Principal) : Prop :=
  name = subject principal ∧ (∀ a x, default ∅ (actions l) !! a = Some x → x = Plain "deny") ∧
  ∀ x, profile l = Some x → x ∈ default (default [] (authorized_profiles (default empty_layer (global_layer p))))
                                        (authorized_profiles (layer_of (sessions p) name)).
Lemma forallb_entries {A} (f : string * A → bool) (m : option (gmap string A)) :
  forallb f (entries m) = true → ∀ k x, default ∅ m !! k = Some x → f (k, x) = true.
Proof.
  rewrite forallb_forall. intros Hf k x Hkv. apply Hf, list_elem_of_In, elem_of_map_to_list, Hkv.
Qed.
Lemma own_change_Done p name l principal : own_change p name (layer_of (sessions p) name) l principal = Done () →
  default_decision l = None ∧ authorized_profiles l = None ∧ own p name l principal.
Proof.
  unfold own_change. case_bool_decide as Hn; [|done]. cbn [negb].
  intros (? & [[Hd Ha]%bool_decide_eq_true Hp]%guarded_Done%andb_true_iff & Hdeny%guarded_Done)%result_bind_Done.
  split_and!; [done..|]. split_and!; [done|..].
  - intros a v Hv. unfold only_denies in Hdeny. apply (forallb_entries _ _ Hdeny) in Hv. by apply bool_decide_eq_true in Hv.
  - intros y Hy. rewrite Hy in Hp. by apply bool_decide_eq_true in Hp.
Qed.
Lemma may_change_Done p name l principal : may_change p name l principal = Done () → role principal ≠ "operator" →
  default_decision l = None ∧ authorized_profiles l = None ∧ (own p name l principal ∨ delegated p name l principal).
Proof.
  unfold may_change. intros Hm Hrole. rewrite bool_decide_false in Hm by done.
  assert (own_change p name (layer_of (sessions p) name) l principal = Done () →
    default_decision l = None ∧ authorized_profiles l = None ∧ (own p name l principal ∨ delegated p name l principal)) as Hown
    by (intros ?%own_change_Done; naive_solver).
  case_bool_decide as Hc; [|by apply Hown].
  destruct (_ !! subject principal) as [d|] eqn:Hd; [|by apply Hown].
  case_bool_decide as Hs; [|by apply Hown].
  apply guarded_Done, andb_true_iff in Hm as [(? & ? & ?)%bool_decide_eq_true Hact]. split_and!; [done..|]. right.
  split; [done|]. exists d. split_and!; try done.
  intros a [v Hv]. apply (forallb_entries _ _ Hact) in Hv. by apply bool_decide_eq_true in Hv.
Qed.
Lemma change_session_Done env st name l principal n w a w' : change_session env st name l principal n w = (Done a, w') →
  ∃ old w1 v, _read env st w = Done old ∧ may_change (saved_policy old) name l principal = Done () ∧ prepared w w1 ∧
    w' = marked st v w1 ∧
    saved_policy v = with_defaults (Some old) (set_session name (merge_layer (layer_of (sessions (saved_policy old)) name) l) (saved_policy old)).
Proof.
  unfold change_session. rewrite effect_bind_Done. intros (? & ? & (_ & ->)%lift_Done & Hk).
  apply effect_bind_Done in Hk as (old & ? & (Hold & ->)%asking_Done & Hk).
  apply effect_bind_Done in Hk as ([] & ? & (Hmay & ->)%lift_Done & Hk).
  apply configure_Done in Hk as (w1 & old' & Hp & _ & _ & Hc & _ & -> & _).
  apply read_stored in Hold as Hold'. destruct Hold' as (_ & Hfile & _). apply current_stored in Hc.
  destruct (Hp (store_root st)) as (_ & Hsame & _). rewrite Hsame, Hfile in Hc.
  destruct old' as [v|]; [|done]. destruct Hc as [[= <-] _]. do 3 eexists. by split_and!.
Qed.
(** A later reading that succeeds also succeeded on the policy before. *)
Lemma read_before env env' st w old w1 v v' : _read env st w = Done old → prepared w w1 →
  _read env' st (marked st v w1) = Done v' → v' = v ∧ _read env' st w = Done old.
Proof.
  intros (Hr & _ & Hd & _ & Hf & _ & Hsize & Hrev & Hval)%read_iff Hp (_ & Hio & _ & Hc & Hf' & Hread & _)%read_iff.
  rewrite marked_at, decide_True in Hf' by done. injection Hf' as <-. split; [done|]. by apply read_iff.
Qed.

Definition at_revision (n : Z) (d : decision) : decision :=
  {| permission := permission d; d_action := d_action d; d_subject := d_subject d; d_target := d_target d;
     d_relationship := d_relationship d; d_task_id := d_task_id d; d_operation_id := d_operation_id d; d_rule := d_rule d;
     d_revision := n; d_approval := d_approval d; d_capability := d_capability d; d_readiness := d_readiness d;
     scope_matched := scope_matched d; d_profile := d_profile d |}.
Definition changed (old : saved (T:=T)) (name : string) (l : layer) : policy :=
  with_defaults (Some old) (set_session name (merge_layer (layer_of (sessions (saved_policy old)) name) l) (saved_policy old)).
Lemma changed_adoption old name l : policy_adoption (changed old name l) = policy_adoption (saved_policy old).
Proof. simpl. destruct (policy_adoption (saved_policy old)) as [[a|]|] eqn:Ha; simpl; by rewrite ?Ha. Qed.
Lemma changed_session old name l r : session_layer (changed old name l) r =
  if decide (name = subject (r_principal r)) then merge_layer (session_layer (saved_policy old) r) l
  else session_layer (saved_policy old) r.
Proof.
  unfold session_layer, layer_of. simpl. case_decide as Hn; [subst; by rewrite lookup_insert_eq|by rewrite lookup_insert_ne].
Qed.
Lemma merge_unmentioned s l action : default_decision l = None → default ∅ (actions l) !! action = None →
  layer_rule (merge_layer s l) action = layer_rule s action ∧
  default ∅ (actions (merge_layer s l)) !! action = default ∅ (actions s) !! action.
Proof.
  intros Hd Ha. unfold layer_rule. simpl. rewrite Hd, lookup_union_r by done. split; [|done]. f_equal. f_equal. by destruct (default_decision s).
Qed.
(** The layers of a policy apart from the session's. *)
Lemma layers_changed old name l r : profile l = None →
  selected_profile (changed old name l) r = selected_profile (saved_policy old) r ∧
  ∃ a b c, layers (saved_policy old) r = [a; b; ("session", session_layer (saved_policy old) r); c] ∧
    layers (changed old name l) r = [a; b; ("session", session_layer (changed old name l) r); c].
Proof.
  intros Hl. assert (selected_profile (changed old name l) r = selected_profile (saved_policy old) r) as Hsel.
  { unfold selected_profile. rewrite changed_session. case_decide; [|done]. simpl. rewrite Hl. by destruct (profile (session_layer _ _)). }
  split; [done|]. unfold layers. rewrite Hsel. do 3 eexists. split; reflexivity.
Qed.
Lemma initial_changed old name l r : profile l = None →
  initial_standing (changed old name l) r = initial_standing (saved_policy old) r.
Proof. intros Hl. unfold initial_standing. by rewrite (proj1 (layers_changed old name l r Hl)). Qed.
(** A request that the change does not mention. *)
Lemma layered_unmentioned old name l r : default_decision l = None →
  subject (r_principal r) ≠ name ∨ profile l = None ∧ default ∅ (actions l) !! r_action r = None →
  layered (changed old name l) r = layered (saved_policy old) r ∧
  explicitly_configured (changed old name l) r = explicitly_configured (saved_policy old) r ∧
  selected_profile (changed old name l) r = selected_profile (saved_policy old) r.
Proof.
  intros Hd [Hne|[Hl Ha]].
  - assert (session_layer (changed old name l) r = session_layer (saved_policy old) r) as Heq
      by (rewrite changed_session; by rewrite decide_False).
    unfold layered, explicitly_configured, layers, initial_standing, selected_profile. by rewrite Heq.
  - destruct (layers_changed old name l r Hl) as (Hsel & a & b & c & Hls & Hls').
    unfold layered, explicitly_configured. rewrite initial_changed, Hls, Hls' by done. simpl. rewrite changed_session.
    case_decide; [|done]. destruct (merge_unmentioned (session_layer (saved_policy old) r) l (r_action r) Hd Ha) as [Hrule Hlook].
    split_and!; [|by rewrite Hlook|done]. unfold apply_layer. simpl. by rewrite Hrule.
Qed.
(** A request that the change denies: it is denied, or its assignment decides. *)
Lemma layered_denied old name l r : profile l = None → default ∅ (actions l) !! r_action r = Some (Plain "deny") →
  (layered (changed old name l) r).1.1 = "deny" ∨ layered (changed old name l) r = layered (saved_policy old) r.
Proof.
  intros Hl Ha. destruct (layers_changed old name l r Hl) as (_ & a & b & c & Hls & Hls').
  unfold layered. rewrite initial_changed, Hls, Hls' by done. simpl. rewrite changed_session. case_decide; [|by right].
  destruct (decide (rule_decision (layer_rule c.2 (r_action r)) = "inherit")) as [Hi|Hi].
  - left. rewrite apply_inherits by done. unfold apply_layer at 1. simpl. unfold layer_rule. simpl.
    by rewrite (lookup_union_Some_l _ _ _ _ Ha).
  - right. by apply apply_decides.
Qed.
Definition provisional (p : policy) (r : request) : string * string := prohibitions p r (exact_scope r (layered p r).1).
Lemma settled_same env st p p' r w w' : provisional p' r = provisional p r → policy_adoption p' = policy_adoption p →
  owners_file (domain_at w' (store_root st)) = owners_file (domain_at w (store_root st)) →
  settled env st p' r w' = settled env st p r w.
Proof. unfold provisional, settled, _owners, grants_of. by intros -> -> ->. Qed.
Lemma settled_denied env st p r w e : settled env st p r w = Done e → (provisional p r).1 = "deny" → e.1 = "deny".
Proof.
  intros (d & grants & Hd & _ & ->)%settled_Done Hp. destruct (legacy_ceiling grants r); [done|].
  fold (provisional p r) in Hd. destruct (task_id _).
  - apply result_bind_Done in Hd as (owners & _ & [= <-]). by destruct (task_completed _ _).
  - by injection Hd as <-.
Qed.
Lemma new_action_same p p' r : known_actions p' = known_actions p ∨ default ACTIONS.*1 (known_actions p') = default ACTIONS.*1 (known_actions p) →
  future_actions_inherit p' = future_actions_inherit p → explicitly_configured p' r = explicitly_configured p r →
  new_action p' r = new_action p r.
Proof. unfold new_action. intros [-> | ->] -> ->; done. Qed.
Lemma provisional_same old name l r : layered (changed old name l) r = layered (saved_policy old) r →
  new_action (changed old name l) r = new_action (saved_policy old) r →
  provisional (changed old name l) r = provisional (saved_policy old) r.
Proof. unfold provisional, prohibitions. intros -> ->. done. Qed.
Lemma denied_provisional p r : (layered p r).1.1 = "deny" → (provisional p r).1 = "deny".
Proof.
  intros Hd. unfold provisional, prohibitions. case_bool_decide; [done|].
  assert ((exact_scope r (layered p r).1).1 = "deny") as Hx
    by (unfold exact_scope; by destruct (_ && _); [|destruct (_ && _)]).
  by rewrite bool_decide_true, andb_false_r.
Qed.
Lemma layered_agrees p p' r : layered p' r = layered p r → (layered p' r).2 = (layered p r).2.
Proof. by intros ->. Qed.
(** An evaluation after the change whose request keeps its provisional
    decision is the evaluation before it. *)
Lemma evaluate_before env env' st old name l w w1 v action q c d' :
  _read env st w = Done old → prepared w w1 → saved_policy v = changed old name l →
  owners_file (domain_at w (store_root st)) ≠ NoFile →
  evaluate env' st action q c (marked st v w1) = Done d' →
  (∀ r, resolve action q c = Done r → provisional (changed old name l) r = provisional (saved_policy old) r ∧
     layered (changed old name l) r = layered (saved_policy old) r ∧
     selected_profile (changed old name l) r = selected_profile (saved_policy old) r) →
  evaluate env' st action q c w = Done (at_revision (revision old) d').
Proof.
  intros Hold Hp Hv Hown Hev Hsame. apply evaluate_Done in Hev as (r & v' & e & found & Hr & Hread & He & Hf & ->).
  destruct (read_before _ _ _ _ _ _ _ _ Hold Hp Hread) as [-> Hread'].
  destruct (Hsame r Hr) as (Hprov & Hlay & Hsel). rewrite Hv in *.
  apply evaluate_Done. exists r, old, e, found. split; [done|]. split; [done|]. split; [|split].
  - rewrite <-He. symmetry. apply settled_same; [done|apply changed_adoption|].
    rewrite marked_at, decide_True by done. simpl. destruct (Hp (store_root st)) as (_ & _ & _ & [?|?] & _); [done|].
    by rewrite H in Hown.
  - done.
  - unfold at_revision. simpl. by rewrite Hlay, Hsel.
Qed.


(** C26 A session cannot grant itself anything: after its own change that
    selects no other profile, every allowed evaluation was allowed before, for
    every action the policy knows, inherits or that the change does not
    mention. *)
Theorem self_change_never_grants env st name l principal n w a w' old env' action q c d' :
  change_session env st name l principal n w = (Done a, w') → role principal = "session" → profile l = None →
  _read env st w = Done old → owners_file (domain_at w (store_root st)) ≠ NoFile →
  action ∈ default ACTIONS.*1 (known_actions (saved_policy old)) ∨ future_actions_inherit (saved_policy old) = Some true ∨
    default ∅ (actions l) !! action = None →
  evaluate env' st action q c w' = Done d' → permission d' = "allow" →
  evaluate env' st action q c w = Done (at_revision (revision old) d').
Proof.
  intros (old' & w1 & v & Hold' & Hmay & Hp & -> & Hv)%change_session_Done Hrole Hl Hold Hown Hknown Hev Hallow.
  rewrite Hold in Hold'. injection Hold' as <-.
  destruct (may_change_Done _ _ _ _ Hmay) as (Hd & Ha & Hwho); [by rewrite Hrole|].
  destruct Hwho as [(Hn & Hdeny & _)|(Hc & _)]; [|by rewrite Hrole in Hc].
  eapply evaluate_before; [done..|]. intros r Hr. apply resolve_Done in Hr as Hr'. destruct Hr' as (Hact & _ & _).
  destruct (default ∅ (actions l) !! action) as [x|] eqn:Hx.
  - pose proof (Hdeny _ _ Hx) as ->. rewrite <-Hact in Hx.
    destruct (layered_denied old name l r Hl Hx) as [Hden|Hlay].
    + exfalso. apply evaluate_Done in Hev as (r' & v' & e & found & Hr' & Hread & He & Hf & ->).
      destruct (read_before _ _ _ _ _ _ _ _ Hold Hp Hread) as [-> _]. rewrite Hr in Hr'. injection Hr' as <-.
      rewrite Hv in He. apply settled_denied in He; [|by apply denied_provisional].
      rewrite He in Hf. cbn in Hf. injection Hf as <-. simpl in Hallow. by rewrite He in Hallow.
    + split_and!; [|done|apply layers_changed, Hl]. apply provisional_same; [done|]. unfold new_action. simpl. rewrite Hact.
      destruct Hknown as [Hk|[Hk|?]]; [| |done]; [by rewrite !(bool_decide_true (action ∈ _))|by rewrite Hk, !andb_false_r].
  - rewrite <-Hact in Hx. destruct (layered_unmentioned old name l r Hd (or_intror (conj Hl Hx))) as (Hlay & Hexp & Hsel).
    split_and!; [|done..]. apply provisional_same; [done|]. apply new_action_same; [by right|done|done].
Qed.
End Rules.
