(* ===== verification/PermissionDemo.v ===== *)
(** * The action policy at work

    [PermissionDemo]: a root is configured, an approval lets a session launch a
    job, a session restricts itself, a second configuration meets the fence;
    the theorems of [PermissionRules] applied to these runs; and three policies
    on which the code is weaker than it means to be. *)
From S2P Require Import Prelude Effects Json Sha256 Datetime Timestamps Permissions PermissionRules.
Open Scope Z_scope.

Definition clock (n : Z) : Env (T:=Z) :=
  {| now := λ _, n; io_fails := λ _, None; canonical := λ _, true; records_with_owner := λ _, false |}.
Definition host : Principal := {| subject := "operator:local"; role := "operator"; tasks := []; predecessor := None; ancestors := [] |}.
Definition agent : Principal := {| subject := "thread-1"; role := "session"; tasks := ["task-1"]; predecessor := None; ancestors := [] |}.
Definition base_policy : policy :=
  {| version := 1; global_layer := None; profiles := None; sessions := None; assignments := None; mandatory := Some ["terminal.takeover"];
     approvals := Some [{| approval_id := "approval-1"; approval_action := "job.launch"; approval_subject := "thread-1";
       approval_scope := "task"; approval_issuer := "operator:local"; approval_task := Some (JStr "task-1");
       expires_at := Some "2026-01-02T00:00:00Z"; approval_target := None; successors := None |}];
     delegations := None; known_actions := None; future_actions_inherit := None; policy_adoption := None |}.
Definition site : PermissionStore := {| execution_root := "/srv/wake"; store_root := "/srv/wake"; routing_error := None |}.
Definition installing := configure (clock 100) site base_policy host 0 ∅.
Definition installed : world (T:=Z) := installing.2.
Definition in_task : context :=
  {| target := None; relationship := None; task_id := Some "task-1"; operation_id := None; capability := "not_observed";
     readiness := "not_observed"; launch_profile := None |}.
Definition outcome (r : result string decision) : option (string * string * option string) :=
  match r with Done d => Some (permission d, d_rule d, approval_id <$> d_approval d) | Raised _ => None end.

Example launch_approved : outcome (evaluate (clock 1767225600) site "job.launch" agent in_task installed)
  = Some ("allow", "profile:permissive", Some "approval-1").
Proof. vm_compute. reflexivity. Qed.
Example launch_expired : outcome (evaluate (clock 1767312000) site "job.launch" agent in_task installed)
  = Some ("approval_required", "profile:permissive", None).
Proof. vm_compute. reflexivity. Qed.
Example takeover_prohibited : outcome (evaluate (clock 100) site "terminal.takeover" agent in_task installed)
  = Some ("deny", "mandatory", None).
Proof. vm_compute. reflexivity. Qed.

Definition restriction : layer :=
  {| default_decision := None; actions := Some {[ "a2a.send" := Plain "deny" ]}; profile := None; authorized_profiles := None |}.
Definition restricting := change_session (clock 101) site "thread-1" restriction agent 1 installed.
Definition restricted : world (T:=Z) := restricting.2.
Definition plain : context :=
  {| target := None; relationship := None; task_id := None; operation_id := None; capability := "not_observed";
     readiness := "not_observed"; launch_profile := None |}.
Example send_before_and_after :
  outcome (evaluate (clock 200) site "a2a.send" agent plain installed) = Some ("allow", "profile:permissive", None) ∧
  outcome (evaluate (clock 200) site "a2a.send" agent plain restricted) = Some ("deny", "session", None).
Proof. split; vm_compute; reflexivity. Qed.
Example configure_again_conflicts : (configure (clock 102) site base_policy host 1 restricted).1 = Raised "permission_revision_conflict".
Proof. vm_compute. reflexivity. Qed.

(** ** The theorems at work *)
Definition value {A} (d : A) (r : result string A) : A := match r with Done x => x | Raised _ => d end.
Definition no_decision : decision :=
  {| permission := ""; d_action := ""; d_subject := ""; d_target := ""; d_relationship := ""; d_task_id := None; d_operation_id := None;
     d_rule := ""; d_revision := 0; d_approval := None; d_capability := ""; d_readiness := ""; scope_matched := false; d_profile := "" |}.
Definition launched : decision := value no_decision (evaluate (clock 1767225600) site "job.launch" agent in_task installed).
Lemma launched_Done : evaluate (clock 1767225600) site "job.launch" agent in_task installed = Done launched.
Proof. vm_compute. reflexivity. Qed.
Lemma evaluate_allow_sound_witness : permission launched = "allow" ∧
  ∃ r v, resolve "job.launch" agent in_task = Done r ∧ _read (clock 1767225600) site installed = Done v ∧ d_revision launched = revision v ∧
    within_fixed_rules (clock 1767225600) site (saved_policy v) r installed ∧
    match d_approval launched with
    | None => (layered (saved_policy v) r).1.1 = "allow" ∧ new_action (saved_policy v) r = false
    | Some a => ∃ n, default [] (approvals (saved_policy v)) !! n = Some a ∧ live_approval (now (clock 1767225600) n) r a ∧
        (new_action (saved_policy v) r = true ∨ (layered (saved_policy v) r).1.1 = "approval_required")
    end.
Proof.
  assert (permission launched = "allow") as Hallow by (vm_compute; reflexivity).
  exact (conj Hallow (evaluate_allow_sound _ _ _ _ _ _ _ launched_Done Hallow)).
Defined.

Definition no_answer : Z * string := (0, "").
Lemma installing_Done : installing = (Done (value no_answer installing.1), installed).
Proof. vm_compute. reflexivity. Qed.
Lemma restricting_Done : restricting = (Done (value no_answer restricting.1), restricted).
Proof. vm_compute. reflexivity. Qed.
Lemma reaches_installed : reaches (T:=Z) ∅ installed.
Proof. apply rtc_once. by exists (Configure (clock 100) site base_policy host 0). Qed.
Lemma reaches_restricted : reaches installed restricted.
Proof. apply rtc_once. by exists (ChangeSession (clock 101) site "thread-1" restriction agent 1). Qed.
Definition stored_at (w : world (T:=Z)) : saved (T:=Z) :=
  match policy_file (domain_at w "/srv/wake") with
  | Policy v => v
  | _ => {| revision := 0; issuer := ""; saved_policy := base_policy; history := [] |}
  end.
Lemma installed_policy : policy_file (domain_at installed "/srv/wake") = Policy (stored_at installed).
Proof. vm_compute. reflexivity. Qed.
Lemma revision_history_witness : chained (stored_at installed) ∧
  ∃ v', policy_file (domain_at restricted "/srv/wake") = Policy v' ∧ chained v' ∧
    history (stored_at installed) `prefix_of` history v' ∧ (revision v' = revision (stored_at installed) → v' = stored_at installed).
Proof.
  destruct (revision_history installed "/srv/wake" (stored_at installed) reaches_installed installed_policy) as [Hc Hl].
  exact (conj Hc (Hl restricted reaches_restricted)).
Defined.
Lemma revision_fence_witness : (value no_answer installing.1).1 = 1 ∧
  policy_file (domain_at installed "/elsewhere") = policy_file (domain_at (∅ : world (T:=Z)) "/elsewhere").
Proof.
  destruct (revision_fence _ _ _ _ _ _ _ _ (rtc_refl _ _) installing_Done) as (Hn & _ & _ & _ & Hother & _).
  split; [exact Hn|]. apply Hother. discriminate.
Defined.
Lemma installed_read : _read (clock 101) site installed = Done (stored_at installed).
Proof. vm_compute. reflexivity. Qed.
Definition claimed : decision := value no_decision (evaluate (clock 200) site "a2a.claim" agent plain restricted).
Lemma claimed_Done : evaluate (clock 200) site "a2a.claim" agent plain restricted = Done claimed.
Proof. vm_compute. reflexivity. Qed.
Lemma self_change_never_grants_witness :
  evaluate (clock 200) site "a2a.claim" agent plain installed = Done (at_revision (revision (stored_at installed)) claimed).
Proof.
  refine (self_change_never_grants _ _ _ _ _ _ _ _ _ _ _ _ _ _ _ restricting_Done eq_refl eq_refl installed_read _ _ claimed_Done _).
  - vm_compute. discriminate.
  - left. refine (bool_decide_unpack _ _). vm_compute. exact I.
  - vm_compute. reflexivity.
Defined.

(** ** Policies on which the code is weaker than it means to be *)
(** A session's own denial of an action the policy never saw makes the action
    explicitly configured, so that an assignment's default allows it. *)
Definition with_policy (assigned : option (gmap string layer)) (known : option (list string)) (ad : option (option adoption)) : policy :=
  {| version := 1; global_layer := None; profiles := None; sessions := None; assignments := assigned; mandatory := None;
     approvals := None; delegations := None; known_actions := known; future_actions_inherit := None; policy_adoption := ad |}.
Definition trusted_task : layer := {| default_decision := Some "allow"; actions := None; profile := None; authorized_profiles := None |}.
Definition before_new : world (T:=Z) :=
  (configure (clock 100) site (with_policy (Some {[ "task-1" := trusted_task ]}) (Some []) None) host 0 ∅).2.
Definition after_new : world (T:=Z) := (change_session (clock 101) site "thread-1" restriction agent 1 before_new).2.
Example self_denial_allows :
  outcome (evaluate (clock 200) site "a2a.send" agent in_task before_new) = Some ("approval_required", "new_action", None) ∧
  outcome (evaluate (clock 200) site "a2a.send" agent in_task after_new) = Some ("allow", "assignment", None).
Proof. split; vm_compute; reflexivity. Qed.
(** [adoption: null] is accepted and then every evaluation raises. *)
Example null_adoption : ∃ a w, configure (clock 100) site (with_policy None None (Some None)) host 0 (∅ : world (T:=Z)) = (Done a, w) ∧
  evaluate (clock 200) site "a2a.send" agent plain w = Raised "AttributeError".
Proof. do 2 eexists. split; [vm_compute; reflexivity|vm_compute; reflexivity]. Qed.
(** A policy within the size limit whose stored form is above it: a root
    configured with it can neither be read nor configured again. *)
Definition long_policy : policy :=
  {| version := 1; global_layer := None; profiles := None; sessions := None; assignments := None;
     mandatory := Some (replicate (Z.to_nat 12470) "terminal.takeover"); approvals := None; delegations := None; known_actions := None;
     future_actions_inherit := None; policy_adoption := None |}.
Example long_policy_locks : _validate long_policy = Done () ∧
  _validate (with_defaults (T:=Z) None long_policy) = Raised "ValueError".
Proof. split; vm_compute; reflexivity. Qed.
