(* ===== verification/Attention.v ===== *)
(** * Durable human attention (src/src/codex_wake/attention_queue.py)

    [Attention]: requests for a human decision with their life cycle and
    history, in one private JSON file under one lock; every transition asks the
    action policy ([Permissions]) again.  The first half translates the module,
    the second proves what a stored queue, a response and a consumption
    promise.  Rows are typed: the shape tests of the source that only reject
    other JSON types are not repeated, every other test is. *)
From Stdlib Require Import Ascii.
From S2P Require Import Prelude Effects Json Sha256 Datetime Timestamps Permissions PermissionRules.
Open Scope Z_scope.

Definition MAX_BYTES : Z := 4 * 1024 * 1024.
Definition STATUSES : list string := ["open"; "responded"; "consumed"; "closed"; "unknown"].

(** [CONTEXT_FIELDS]. *)
Record context := {
  owner : string; operation_id : string; attempt : Z; task_id : string; allocation_id : string; runtime : string;
  conversation_id : string; account : string; target : string; action : string; effect_scope : string;
  policy_root : string; policy_revision : Z; operation_state : string;
}.
#[export] Instance context_eq_dec : EqDecision context.
Proof. solve_decision. Defined.
Definition context_strings (c : context) : list (string * string) := [
  ("account", account c); ("action", action c); ("allocation_id", allocation_id c); ("conversation_id", conversation_id c);
  ("effect_scope", effect_scope c); ("operation_id", operation_id c); ("operation_state", operation_state c); ("owner", owner c);
  ("policy_root", policy_root c); ("runtime", runtime c); ("target", target c); ("task_id", task_id c)].
(** [_context]. *)
Definition _context (c : context) : result string context :=
  _ ← guard (forallb (λ kv, nonempty kv.2 && (str_len kv.2 <=? 2048)) (context_strings c) &&
             (1 <=? attempt c) && (1 <=? policy_revision c)) "context_invalid";
  Done c.

Section Rows.
Context {T : Type} {TT : Timestamp T}.

Record request := {
  key : string; kind : string; question : string; options : list string; evidence : list string; priority : string;
  expires_at : T; request_context : context; permission_decision : bool;
}.
Inductive event :=
| Requested (actor : string) (at_ : T)
| Responded (actor : string) (at_ : T) (response_id : string)
| Consumed (actor : string) (at_ : T) (response_id : string)
| Closed (actor : string) (at_ : T) (reason : string)
| Unknown (actor : string) (at_ : T) (reason : string).
Record approval_reference := { approval_id : string; approval_revision : Z }.
Record response := {
  response_id : string; choice : string; response_actor : string; response_at : T; request_revision : Z;
  response_fingerprint : string; response_approval : option approval_reference;
}.
Record row := {
  request_id : string; revision : Z; status : string; created_at : T; row_request : request; row_fingerprint : string;
  row_response : option response; history : list event;
}.
Definition row_context (r : row) : context := request_context (row_request r).

(** ** Texts *)
Definition text_strings (l : list string) : string := text_array (quote_ascii <$> l).
Definition text_bool (b : bool) : string := if b then "true" else "false".
Definition text_context (c : context) : string :=
  text_object (sort_keys ([("attempt", Z_dec (attempt c)); ("policy_revision", Z_dec (policy_revision c))] ++
    (prod_map id quote_ascii <$> context_strings c))).
Definition text_request (q : request) : string := text_object [
  ("context", text_context (request_context q)); ("evidence", text_strings (evidence q)); ("expires_at", t_text (expires_at q));
  ("key", quote_ascii (key q)); ("kind", quote_ascii (kind q)); ("options", text_strings (options q));
  ("permission_decision", text_bool (permission_decision q)); ("priority", quote_ascii (priority q));
  ("question", quote_ascii (question q))].
Definition text_event (e : event) : string :=
  let text (name actor : string) (at_ : T) (rest : list (string * string)) :=
    text_object ([("actor", quote_ascii actor); ("at", t_text at_); ("event", quote_ascii name)] ++ rest) in
  match e with
  | Requested actor at_ => text "requested" actor at_ []
  | Responded actor at_ id => text "responded" actor at_ [("response_id", quote_ascii id)]
  | Consumed actor at_ id => text "consumed" actor at_ [("response_id", quote_ascii id)]
  | Closed actor at_ reason => text "closed" actor at_ [("reason", quote_ascii reason)]
  | Unknown actor at_ reason => text "unknown" actor at_ [("reason", quote_ascii reason)]
  end.
Definition text_response (r : response) : string := text_object [
  ("actor", quote_ascii (response_actor r));
  ("approval", match response_approval r with
     | None => "null"
     | Some a => text_object [("approval_id", quote_ascii (approval_id a)); ("policy_revision", Z_dec (approval_revision a))] end);
  ("at", t_text (response_at r)); ("choice", quote_ascii (choice r)); ("fingerprint", quote_ascii (response_fingerprint r));
  ("request_revision", Z_dec (request_revision r)); ("response_id", quote_ascii (response_id r))].
Definition text_row (r : row) : string := text_object [
  ("created_at", t_text (created_at r)); ("fingerprint", quote_ascii (row_fingerprint r));
  ("history", text_array (text_event <$> history r)); ("request", text_request (row_request r));
  ("request_id", quote_ascii (request_id r));
  ("response", match row_response r with None => "null" | Some x => text_response x end);
  ("revision", Z_dec (revision r)); ("status", quote_ascii (status r))].
(** [_encoded]. *)
Definition _encoded (rows : list row) : string := text_object [("requests", text_array (text_row <$> rows)); ("version", "1")].
Definition fingerprint (q : request) : string := sha256 (text_request q).

(** ** Validation *)
Definition bounded_texts (l : list string) : bool :=
  (1 <=? Z.of_nat (length l)) && (Z.of_nat (length l) <=? 32) &&
  forallb (λ x, nonempty x && (str_len x <=? 4096)) l && bool_decide (NoDup l).
Definition _request_shape (q : request) : result string () :=
  _ ← guard (forallb (λ x, nonempty x && (str_len x <=? 4096)) [key q; question q] &&
             bool_decide (kind q ∈ ["notice"; "decision"]) && bool_decide (priority q ∈ ["low"; "normal"; "high"; "urgent"]) &&
             bounded_texts (options q) && bounded_texts (evidence q) &&
             negb (bool_decide (kind q = "notice") && (negb (bool_decide (options q = ["acknowledge"])) || permission_decision q)) &&
             negb (bool_decide (kind q = "decision") && negb (bool_decide (options q = ["accept"; "decline"])))) "request_invalid";
  _ ← _context (request_context q);
  Done ().

Definition t_eqb (a b : T) : bool := t_leb a b && t_leb b a.
Definition event_actor (e : event) : string :=
  match e with Requested a _ | Responded a _ _ | Consumed a _ _ | Closed a _ _ | Unknown a _ _ => a end.
Definition event_name (e : event) : string :=
  match e with Requested _ _ => "requested" | Responded _ _ _ => "responded" | Consumed _ _ _ => "consumed"
             | Closed _ _ _ => "closed" | Unknown _ _ _ => "unknown" end.
Definition is_requested (e : event) : bool := bool_decide (event_name e = "requested").
Definition is_response (e : event) : bool := bool_decide (event_name e = "responded").
(** The loop over the events: [requested] exactly at the first. *)
Definition events_ok (events : list event) : bool :=
  match events with
  | [] => false
  | e :: rest => is_requested e && forallb (λ e, negb (is_requested e)) rest && forallb (λ e, nonempty (event_actor e)) events
  end.
(** The last event that a status calls for. *)
Definition expected_event (r : row) (last_event : string) : string :=
  if bool_decide (status r = "open") then "requested"
  else if bool_decide (status r = "closed")
  then if bool_decide (kind (row_request r) = "notice") && bool_decide (last_event = "responded") then "responded" else "closed"
  else status r.
Definition response_ok (r : row) (x : response) : bool :=
  bool_decide (choice x ∈ options (row_request r)) && nonempty (response_actor x) &&
  bool_decide (response_fingerprint x = row_fingerprint r) && (request_revision x =? 1) &&
  bool_decide (is_Some (strip_prefix "response_" (response_id x))) &&
  match filter (λ e, is_response e = true) (history r) with
  | [Responded actor at_ id] => bool_decide (id = response_id x) && bool_decide (actor = response_actor x) && t_eqb at_ (response_at x)
  | _ => false
  end &&
  match response_approval x with
  | Some a => nonempty (approval_id a) && (1 <=? approval_revision a)
  | None => negb (permission_decision (row_request r) && bool_decide (choice x = "accept"))
  end.
Definition row_ok (r : row) : bool :=
  match _request_shape (row_request r) with Done _ => true | Raised _ => false end &&
  bool_decide (is_Some (strip_prefix "attention_" (request_id r))) && bool_decide (row_fingerprint r = fingerprint (row_request r)) &&
  bool_decide (status r ∈ STATUSES) && (revision r =? Z.of_nat (length (history r))) &&
  (negb (bool_decide (status r ∈ ["responded"; "consumed"])) || bool_decide (is_Some (row_response r))) &&
  events_ok (history r) &&
  match last (history r) with Some e => bool_decide (event_name e = expected_event r (event_name e)) | None => false end &&
  match row_response r with
  | Some x => response_ok r x
  | None => forallb (λ e, negb (bool_decide (event_name e ∈ ["responded"; "consumed"]))) (history r)
  end.
Fixpoint _validate (ids keys : list string) (rows : list row) : bool :=
  match rows with
  | [] => true
  | r :: rows => negb (bool_decide (request_id r ∈ ids)) && negb (bool_decide (key (row_request r) ∈ keys)) && row_ok r &&
      _validate (request_id r :: ids) (key (row_request r) :: keys) rows
  end.

(** ** The file and its transaction *)
(** The parsed content of [queue.json]; text that is no object with exactly the
    version 1 and a list of rows is [Foreign]. *)
Inductive content := Absent | Foreign | Stored (rows : list row).
Record store := { queue : content; initialized : bool }.

(** What the policy checks of a call see: the surroundings and the files of
    the permission stores at that moment. *)
Definition view : Type := Permissions.Env (T:=T) * world (T:=T).
(** The surroundings of a call: its readings of the clock, the digits [uuid4]
    yields, whether another transition holds the lock, the places of the file
    handling that raise, the root the queue was opened at, what each policy
    check sees, and the feature owner's hook. *)
Record Env := {
  created_now : T; policy_now : T; live_now : T; event_now : T;
  uuid4_hex : string;
  lock_held : bool;
  io_fails : string → option string;
  root : string;
  permission_view : view; policy_view : view; live_view : view; approval_view : view;
  context_validator : option (row → result string context);
}.
Local Notation perform := (effect store string).
Definition io (env : Env) (place : string) : result string () := touch (io_fails env) place.
Definition set_queue (c : content) (s : store) : store := {| queue := c; initialized := initialized s |}.
Definition set_initialized (s : store) : store := {| queue := queue s; initialized := true |}.

Definition fits (rows : list row) : bool := Z.of_nat (String.length (_encoded rows)) <=? MAX_BYTES.
Definition _publish (env : Env) (rows : list row) : perform () :=
  _ ← lift (guard (fits rows) "store_full");
  _ ← lift (io env "publish");
  _ ← writing (set_queue (Stored rows));
  lift (io env "sync").
Definition mark (env : Env) : perform () :=
  marked ← reading initialized;
  if (marked : bool) then lift (io env "marker")
  else _ ← lift (io env "mark"); writing set_initialized.
(** From the lock to the [yield]. *)
Definition open_state (env : Env) : perform (list row) :=
  _ ← lift (io env "lock");
  _ ← lift (guard (negb (lock_held env)) "attention_busy");
  q ← reading queue;
  match q with
  | Foreign => _ ← lift (io env "read"); raise "store_unavailable"
  | Stored rows =>
    _ ← lift (io env "read");
    _ ← lift (guard (fits rows && _validate [] [] rows) "store_unavailable");
    _ ← mark env;
    mret rows
  | Absent =>
    marked ← reading initialized;
    _ ← lift (guard (negb marked) "store_unavailable");
    _ ← mark env;
    _ ← _publish env [];
    mret []
  end.
(** [with self._transaction(write=...) as state]: the body answers a value and
    the rows it leaves, or raises. *)
Definition _transaction {A} (env : Env) (write : bool) (body : list row → result string (A * list row)) : perform A :=
  rows ← open_state env;
  '(a, rows) ← lift (body rows);
  if write then _ ← lift (guard (_validate [] [] rows) "ValueError"); _ ← _publish env rows; mret a
  else mret a.

(** ** Checks *)
Definition _owner (principal : Principal) (r : row) : result string () :=
  guard (bool_decide (role principal = "operator") || bool_decide (subject principal = owner (row_context r))) "attention_owner_required".
Definition operation_of (c : context) (relationship : option string) (target : option string) : Permissions.context :=
  {| Permissions.target := target; relationship := relationship; Permissions.task_id := Some (task_id c);
     Permissions.operation_id := Some (operation_id c); capability := "not_observed"; readiness := "not_observed";
     launch_profile := None |}.
Definition _permission (env : Env) (what : string) (principal : Principal) (r : row) : result string () :=
  let '(permissions, w) := permission_view env in
  _ ← check_operation permissions (root env) what principal (operation_of (row_context r) None None) w;
  Done ().
Definition policy_current (v : view) (root : string) (c : context) : result string () :=
  let '(permissions, w) := v in
  st ← open_store permissions root w;
  if negb (active st w) then Done ()
  else if negb (bool_decide (store_root st = policy_root c)) then Raised "attention_policy_changed"
  else v ← _read permissions st w;
       guard (Permissions.revision v =? policy_revision c) "attention_policy_changed".
Definition _current_policy (env : Env) (at_ : T) (v : view) (r : row) : result string () :=
  _ ← guard (negb (t_leb (expires_at (row_request r)) at_)) "attention_expired";
  policy_current v (root env) (row_context r).
Definition _live (env : Env) (r : row) : result string () :=
  _ ← _current_policy env (live_now env) (live_view env) r;
  match context_validator env with
  | None => Raised "context_unavailable"
  | Some validator =>
    live ← validator r;
    live ← _context live;
    _ ← guard (bool_decide (live = row_context r)) "attention_stale";
    guard (bool_decide (operation_state live = "blocked")) "operation_unknown"
  end.
Fixpoint _find (rows : list row) (id : string) : result string row :=
  match rows with
  | [] => Raised "attention_not_found"
  | r :: rows => if bool_decide (request_id r = id) then Done r else _find rows id
  end.
(** Mutation of the found row, in place. *)
Fixpoint replace_row (id : string) (r' : row) (rows : list row) : list row :=
  match rows with
  | [] => []
  | r :: rows => if bool_decide (request_id r = id) then r' :: rows else r :: replace_row id r' rows
  end.
Definition _expected (r : row) (expected_revision : Z) (expected_fingerprint : string) : result string () :=
  guard ((expected_revision =? revision r) && bool_decide (expected_fingerprint = row_fingerprint r)) "attention_revision_conflict".
(** A new status with its event, and the response if one is given. *)
Definition _event (status : string) (x : option response) (e : event) (r : row) : row :=
  {| request_id := request_id r; revision := Z.of_nat (length (history r ++ [e])); status := status; created_at := created_at r;
     row_request := row_request r; row_fingerprint := row_fingerprint r; row_response := x; history := history r ++ [e] |}.
Definition _approval (env : Env) (r : row) (id : option string) : result string approval_reference :=
  let c := row_context r in
  let principal := {| subject := owner c; role := "session"; tasks := [task_id c]; predecessor := None; ancestors := [] |} in
  let '(permissions, w) := approval_view env in
  st ← open_store permissions (root env) w;
  d ← evaluate permissions st (action c) principal
        (operation_of c (if bool_decide (action c = "refresh.shared") then Some "shared" else None) (Some (target c))) w;
  match truthy id with
  | Some id =>
    if bool_decide (permission d = "allow") && bool_decide (Permissions.approval_id <$> d_approval d = Some id)
    then Done {| approval_id := id; approval_revision := d_revision d |} else Raised "attention_approval_required"
  | None => Raised "attention_approval_required"
  end.

(** ** Operations *)
Definition new_row (env : Env) (q : request) : row :=
  {| request_id := "attention_" +:+ uuid4_hex env; revision := 0; status := "open"; created_at := created_now env;
     row_request := q; row_fingerprint := fingerprint q; row_response := None; history := [] |}.
Definition with_key (k : string) (rows : list row) : option row :=
  snd <$> list_find (λ r, key (row_request r) = k) rows.
Definition request_body (env : Env) (principal : Principal) (q : request) (rows : list row) : result string (row * list row) :=
  let r := new_row env q in
  match with_key (key q) rows with
  | Some old => _ ← _owner principal old;
                _ ← guard (bool_decide (row_fingerprint old = row_fingerprint r)) "attention_key_conflict";
                Done (old, rows)
  | None => _ ← _permission env "attention.request" principal r;
            _ ← _current_policy env (policy_now env) (policy_view env) r;
            _ ← (if bool_decide (kind q = "decision") && bool_decide (is_Some (context_validator env)) then _live env r else Done ());
            let r := _event "open" None (Requested (subject principal) (event_now env)) r in
            Done (r, rows ++ [r])
  end.
Definition ask (env : Env) (principal : Principal) (q : request) : perform row :=
  _ ← lift (_request_shape q);
  _ ← lift (_owner principal (new_row env q));
  _transaction env true (request_body env principal q).

Definition shown (principal : Principal) (include_closed : bool) (r : row) : bool :=
  (bool_decide (role principal = "operator") || bool_decide (owner (row_context r) = subject principal)) &&
  (include_closed || bool_decide (status r ∈ ["open"; "responded"; "unknown"])).
Definition inspect_body (principal : Principal) (id : option string) (include_closed : bool) (rows : list row) :
    result string ((row + list row) * list row) :=
  match id with
  | Some id => r ← _find rows id; _ ← _owner principal r; Done (inl r, rows)
  | None => Done (inr (filter (λ r, shown principal include_closed r = true) rows), rows)
  end.
Definition inspect (env : Env) (principal : Principal) (id : option string) (include_closed : bool) : perform (row + list row) :=
  _transaction env false (inspect_body principal id include_closed).

Definition responded (env : Env) (principal : Principal) (what : string) (approval : option approval_reference) (r : row) : row :=
  let id := "response_" +:+ uuid4_hex env in
  _event (if bool_decide (kind (row_request r) = "notice") then "closed" else "responded")
    (Some {| response_id := id; choice := what; response_actor := subject principal; response_at := event_now env;
             request_revision := revision r; response_fingerprint := row_fingerprint r; response_approval := approval |})
    (Responded (subject principal) (event_now env) id) r.
Definition respond_body (env : Env) (principal : Principal) (id what : string) (expected_revision : Z)
    (expected_fingerprint : string) (approval : option string) (rows : list row) : result string (row * list row) :=
  r ← _find rows id;
  _ ← _expected r expected_revision expected_fingerprint;
  _ ← guard (bool_decide (status r = "open") && bool_decide (what ∈ options (row_request r))) "attention_not_open";
  _ ← _permission env "attention.respond" principal r;
  _ ← _current_policy env (policy_now env) (policy_view env) r;
  _ ← (if bool_decide (kind (row_request r) = "decision") && bool_decide (is_Some (context_validator env)) then _live env r else Done ());
  found ← (if permission_decision (row_request r) && bool_decide (what = "accept")
           then a ← _approval env r approval; Done (Some a) else Done None);
  let r := responded env principal what found r in
  Done (r, replace_row id r rows).
Definition respond (env : Env) (principal : Principal) (id what : string) (expected_revision : Z)
    (expected_fingerprint : string) (approval : option string) : perform row :=
  _ ← lift (guard (bool_decide (role principal = "operator")) "attention_operator_required");
  _transaction env true (respond_body env principal id what expected_revision expected_fingerprint approval).

(** The receipt of a consumption. *)
Record receipt := {
  receipt_revision : Z; receipt_fingerprint : string; receipt_choice : string; receipt_response : string; receipt_context : context;
}.
Definition consume_body (env : Env) (principal : Principal) (id : string) (expected_revision : Z)
    (expected_fingerprint : string) (rows : list row) : result string (receipt * list row) :=
  r ← _find rows id;
  _ ← _owner principal r;
  _ ← _expected r expected_revision expected_fingerprint;
  _ ← guard (bool_decide (status r = "responded") && bool_decide (kind (row_request r) = "decision")) "attention_not_consumable";
  _ ← _permission env "attention.consume" principal r;
  _ ← _live env r;
  match row_response r with
  | None => Raised "TypeError"
  | Some x =>
    _ ← (if permission_decision (row_request r) && bool_decide (choice x = "accept")
         then match response_approval x with
              | None => Raised "TypeError"
              | Some a => _ ← _approval env r (Some (approval_id a)); Done ()
              end
         else Done ());
    let r := _event "consumed" (Some x) (Consumed (subject principal) (event_now env) (response_id x)) r in
    Done ({| receipt_revision := revision r; receipt_fingerprint := row_fingerprint r; receipt_choice := choice x;
             receipt_response := response_id x; receipt_context := row_context r |}, replace_row id r rows)
  end.
Definition consume (env : Env) (principal : Principal) (id : string) (expected_revision : Z) (expected_fingerprint : string) :
    perform receipt :=
  _transaction env true (consume_body env principal id expected_revision expected_fingerprint).

Definition close_body (env : Env) (principal : Principal) (id : string) (expected_revision : Z) (expected_fingerprint : string)
    (disposition reason : string) (rows : list row) : result string (row * list row) :=
  r ← _find rows id;
  _ ← _owner principal r;
  _ ← _expected r expected_revision expected_fingerprint;
  _ ← guard (negb (bool_decide (status r ∈ ["closed"; "consumed"]))) "attention_closed";
  _ ← _permission env "attention.consume" principal r;
  let e := if bool_decide (disposition = "closed") then Closed (subject principal) (event_now env) reason
           else Unknown (subject principal) (event_now env) reason in
  let r := _event disposition (row_response r) e r in
  Done (r, replace_row id r rows).
Definition close (env : Env) (principal : Principal) (id : string) (expected_revision : Z) (expected_fingerprint : string)
    (disposition reason : string) : perform row :=
  _ ← lift (guard (bool_decide (disposition ∈ ["closed"; "unknown"]) && nonempty reason && (str_len reason <=? 4096)) "request_invalid");
  _transaction env true (close_body env principal id expected_revision expected_fingerprint disposition reason).
End Rows.
