(* ===== verification/AttentionRules.v ===== *)
(** * What the attention queue promises

    [AttentionRules]: every transition leaves a queue that the next reading
    accepts, the life cycle of a request, what a response and a consumption
    rest on, and idempotent requests. *)
From S2P Require Import Prelude Effects Json Sha256 Datetime Timestamps Permissions PermissionRules Attention.
Open Scope Z_scope.

Section Queue.
Context {T : Type} {TT : Timestamp T} {LT : TimestampLaws T}.
Implicit Types (env : Env (T:=T)) (s : store (T:=T)) (r : row (T:=T)) (rows : list (row (T:=T))) (q : request (T:=T)).

(** ** Well-formed rows and queues *)
Record row_wf r : Prop := {
  wf_shape : _request_shape (row_request r) = Done ();
  wf_id : is_Some (strip_prefix "attention_" (request_id r));
  wf_fingerprint : row_fingerprint r = fingerprint (row_request r);
  wf_status : status r ∈ STATUSES;
  wf_revision : revision r = Z.of_nat (length (history r));
  wf_answered : status r ∈ ["responded"; "consumed"] → is_Some (row_response r);
  wf_events : events_ok (history r) = true;
  wf_last : ∃ e, last (history r) = Some e ∧ event_name e = expected_event r (event_name e);
  wf_response : match row_response r with
    | Some x => response_ok r x = true
    | None => Forall (λ e, event_name e ∉ ["responded"; "consumed"]) (history r)
    end;
}.
Lemma row_ok_wf r : row_ok r = true ↔ row_wf r.
Proof.
  unfold row_ok. rewrite !andb_true_iff. split.
  - intros ((((((((Hs & Hi) & Hf) & Hst) & Hrev) & Ha) & He) & Hl) & Hr).
    apply bool_decide_eq_true in Hi, Hf, Hst. apply Z.eqb_eq in Hrev. split; try done.
    + by destruct (_request_shape _) as [[]|].
    + intros Hin. apply orb_true_iff in Ha as [Ha|Ha]; [by rewrite bool_decide_true in Ha|by apply bool_decide_eq_true in Ha].
    + destruct (last _) as [e|]; [|done]. apply bool_decide_eq_true in Hl. eauto.
    + destruct (row_response r); [done|]. apply forallb_Forall in Hr.
      eapply Forall_impl; [done|]. intros e He'. by apply negb_true_iff, bool_decide_eq_false in He'.
  - intros [Hs Hi Hf Hst Hrev Ha He [e [Hl Hn]] Hr]. rewrite Hs, Hl. split_and!; try done.
    + by apply bool_decide_eq_true.
    + by apply bool_decide_eq_true.
    + by apply bool_decide_eq_true.
    + by apply Z.eqb_eq.
    + case_bool_decide; [|done]. apply bool_decide_eq_true. eauto.
    + by apply bool_decide_eq_true.
    + destruct (row_response r); [done|]. apply forallb_Forall. eapply Forall_impl; [done|]. intros e' He'.
      by apply negb_true_iff, bool_decide_eq_false.
Qed.
Definition row_key r : string := key (row_request r).
Lemma validate_rows ids keys rows : _validate ids keys rows = true ↔
  Forall row_wf rows ∧ NoDup (request_id <$> rows) ∧ NoDup (row_key <$> rows) ∧
  Forall (λ r, request_id r ∉ ids ∧ row_key r ∉ keys) rows.
Proof.
  revert ids keys. induction rows as [|r rows IH]; intros ids keys; simpl; [split; [by repeat constructor|done]|].
  rewrite !andb_true_iff, IH, row_ok_wf, !negb_true_iff, !bool_decide_eq_false, !Forall_cons. fold (row_key r).
  rewrite !NoDup_cons, !list_elem_of_fmap, !Forall_forall. split.
  - intros (((Hi & Hk) & Hr) & Hrows & Hni & Hnk & Hout). split_and!; try done.
    + intros (x & Heq & Hx). destruct (Hout x Hx) as [Hx' _]. apply Hx'. rewrite <-Heq. set_solver.
    + intros (x & Heq & Hx). destruct (Hout x Hx) as [_ Hx']. apply Hx'. rewrite <-Heq. set_solver.
    + intros x Hx. destruct (Hout x Hx). set_solver.
  - intros ((Hr & Hrows) & (Hi & Hni) & (Hk & Hnk) & (Hi' & Hk') & Hout). split_and!; try done.
    intros x Hx. destruct (Hout x Hx). split; intros [Heq|?]%elem_of_cons; try done; [apply Hi|apply Hk]; eauto.
Qed.
Definition queue_wf rows : Prop := Forall row_wf rows ∧ NoDup (request_id <$> rows) ∧ NoDup (row_key <$> rows).
Lemma validate_wf rows : _validate [] [] rows = true ↔ queue_wf rows.
Proof.
  rewrite validate_rows. unfold queue_wf. split; [naive_solver|]. intros (? & ? & ?). split_and!; try done.
  apply Forall_forall. set_solver.
Qed.

(** ** The row a call works on *)
Lemma find_Done rows id r : _find rows id = Done r → r ∈ rows ∧ request_id r = id.
Proof.
  induction rows as [|x rows IH]; simpl; [done|]. case_bool_decide; [intros [= <-]; set_solver|].
  intros (? & ?)%IH. set_solver.
Qed.
Lemma replace_row_fmap {A} (f : row → A) id r' rows : (∀ r, r ∈ rows → request_id r = id → f r = f r') →
  f <$> replace_row id r' rows = f <$> rows.
Proof.
  induction rows as [|x rows IH]; intros Hf; [done|]. simpl. case_bool_decide as Hx; simpl.
  - f_equal. symmetry. apply Hf; set_solver.
  - f_equal. apply IH. set_solver.
Qed.
Lemma replace_row_elem id r' rows x : x ∈ replace_row id r' rows → x = r' ∨ x ∈ rows.
Proof. induction rows as [|y rows IH]; simpl; [by right|]. case_bool_decide; rewrite ?elem_of_cons; naive_solver. Qed.
Lemma same_id rows r r' : NoDup (request_id <$> rows) → r ∈ rows → r' ∈ rows → request_id r = request_id r' → r = r'.
Proof.
  intros Hnd Hr Hr' Heq. apply list_elem_of_lookup in Hr as [i Hi], Hr' as [j Hj].
  assert (i = j) as ->; [|congruence]. eapply NoDup_lookup; [done|..]; rewrite list_lookup_fmap, ?Hi, ?Hj; simpl; by rewrite ?Heq.
Qed.
Lemma replace_wf rows r r' : queue_wf rows → r ∈ rows → request_id r' = request_id r → row_key r' = row_key r → row_wf r' →
  queue_wf (replace_row (request_id r) r' rows).
Proof.
  intros (Hwf & Hids & Hkeys) Hr Hid Hkey Hr'.
  assert (∀ x, x ∈ rows → request_id x = request_id r → x = r) as Huniq by (intros; by eapply same_id).
  split_and!.
  - apply Forall_forall. intros x [-> | Hx]%replace_row_elem; [done|]. by eapply Forall_forall in Hwf.
  - rewrite replace_row_fmap; [done|]. intros x Hx Hxr. by rewrite Hid.
  - rewrite replace_row_fmap; [done|]. intros x Hx Hxr. by rewrite (Huniq x), Hkey.
Qed.

(** ** Transitions keep rows well formed *)
Lemma events_ok_snoc (es : list (event (T:=T))) e : events_ok es = true → is_requested e = false → nonempty (event_actor e) = true →
  events_ok (es ++ [e]) = true.
Proof.
  destruct es as [|e0 es]; [done|]. simpl. rewrite !forallb_app, !andb_true_iff. simpl. intros ((? & ?) & ? & ?) -> ->. done.
Qed.
Lemma event_wf st x e r : row_wf r → is_requested e = false → nonempty (event_actor e) = true → st ∈ STATUSES →
  (st ∈ ["responded"; "consumed"] → is_Some x) → event_name e = expected_event (_event st x e r) (event_name e) →
  match x with
  | Some y => response_ok (_event st x e r) y = true
  | None => row_response r = None ∧ event_name e ∉ ["responded"; "consumed"]
  end → row_wf (_event st x e r).
Proof.
  intros Hwf He Ha Hst Hx Hlast Hres. destruct Hwf. split; try done.
  - by apply events_ok_snoc.
  - exists e. split; [apply last_snoc|done].
  - simpl. destruct x; [done|]. destruct Hres as [Hnone Hname]. rewrite Hnone in wf_response0.
    apply Forall_app. split; [done|by repeat constructor].
Qed.
Lemma response_ok_event st x e r y : is_response e = false → response_ok (_event st x e r) y = response_ok r y.
Proof.
  intros He. unfold response_ok. simpl. rewrite filter_app, filter_cons_False, filter_nil, app_nil_r; [done|]. by rewrite He.
Qed.
(** A row that is still open was only asked. *)
Lemma open_row r : row_wf r → status r = "open" → revision r = 1 ∧ row_response r = None ∧ ∃ a t, history r = [Requested a t].
Proof.
  intros [_ _ _ _ Hrev _ He (e & Hlast & Hname) Hres] Hopen. unfold expected_event in Hname. rewrite Hopen in Hname. simpl in Hname.
  assert (∃ a t, history r = [Requested a t]) as (a & t & Hh).
  { destruct (history r) as [|e0 rest] eqn:Hh; [done|]. unfold events_ok in He. rewrite !andb_true_iff in He. destruct He as [[H0 Hrest] _].
    destruct rest as [|e1 rest _] using rev_ind.
    - apply bool_decide_eq_true in H0. destruct e0; try done. eauto.
    - rewrite app_comm_cons, last_snoc in Hlast. injection Hlast as ->.
      rewrite forallb_app, andb_true_iff in Hrest. destruct Hrest as [_ Hrest]. simpl in Hrest. unfold is_requested in Hrest.
      by rewrite Hname in Hrest. }
  rewrite Hh in Hrev, Hres. split; [done|]. split; [|eauto]. destruct (row_response r) as [x|]; [|done]. exfalso.
  unfold response_ok in Hres. rewrite Hh in Hres. simpl in Hres. rewrite !andb_true_iff in Hres. naive_solver.
Qed.
Lemma t_eqb_refl (t : T) : t_eqb t t = true.
Proof. unfold t_eqb. by rewrite t_leb_refl. Qed.
Lemma strip_response x : bool_decide (is_Some (strip_prefix "response_" ("response_" +:+ x))) = true.
Proof. apply bool_decide_eq_true. simpl. eauto. Qed.

Definition approval_given (o : option approval_reference) : Prop :=
  ∀ a, o = Some a → nonempty (approval_id a) = true ∧ 1 ≤ approval_revision a.
Lemma responded_wf env p what a r : row_wf r → status r = "open" → nonempty (subject p) = true →
  what ∈ options (row_request r) → approval_given a →
  (permission_decision (row_request r) = true → what = "accept" → is_Some a) → row_wf (responded env p what a r).
Proof.
  intros Hwf Hopen Hp Hwhat Ha Hacc. destruct (open_row r Hwf Hopen) as (Hrev & _ & a0 & t0 & Hh). unfold responded.
  apply event_wf; try done.
  - case_bool_decide; [by repeat constructor|]. set_solver.
  - simpl. unfold expected_event. simpl. by destruct (bool_decide (kind (row_request r) = "notice")).
  - unfold response_ok. simpl. rewrite Hh, Hrev. simpl. rewrite !andb_true_iff.
    split_and!; try done; try (by apply bool_decide_eq_true); try apply t_eqb_refl.
    + destruct a as [a|].
      * destruct (Ha a eq_refl) as [-> Hle]. apply Z.leb_le in Hle. by rewrite Hle.
      * apply negb_true_iff, not_true_iff_false. intros [Hpd Hw%bool_decide_eq_true]%andb_true_iff.
        by destruct (Hacc Hpd Hw).
Qed.
Lemma consumed_wf env p r x : row_wf r → row_response r = Some x → nonempty (subject p) = true →
  row_wf (_event "consumed" (Some x) (Consumed (subject p) (event_now env) (response_id x)) r).
Proof.
  intros Hwf Hx Hp. apply event_wf; try done; [by repeat constructor|]. rewrite response_ok_event by done. pose proof (wf_response _ Hwf) as Hr. by rewrite Hx in Hr.
Qed.
Definition disposition_event env p (disposition reason : string) : event (T:=T) :=
  if bool_decide (disposition = "closed") then Closed (subject p) (event_now env) reason
  else Unknown (subject p) (event_now env) reason.
Lemma closed_wf env p r disposition reason : row_wf r → disposition ∈ ["closed"; "unknown"] → nonempty (subject p) = true →
  row_wf (_event disposition (row_response r) (disposition_event env p disposition reason) r).
Proof.
  intros Hwf Hd Hp. pose proof (wf_response _ Hwf) as Hres. unfold disposition_event.
  assert (∀ e, is_response e = false → event_name e ∉ ["responded"; "consumed"] →
    match row_response r with
    | Some y => response_ok (_event disposition (row_response r) e r) y = true
    | None => row_response r = None ∧ event_name e ∉ ["responded"; "consumed"]
    end) as Hkeep by (intros e He Hn; destruct (row_response r); [by rewrite response_ok_event|done]).
  assert (disposition = "closed" ∨ disposition = "unknown") as [-> | ->] by set_solver; simpl;
    (apply event_wf; [done|done|done|by repeat constructor| | |apply Hkeep; [done|simpl; set_solver]]); try (intros; set_solver); try done.
  unfold expected_event. simpl. by destruct (bool_decide (kind (row_request r) = "notice")).
Qed.

(** ** Reading a completed body *)
Definition context_checked env r : Prop :=
  kind (row_request r) = "decision" → is_Some (context_validator env) → _live env r = Done ().
Lemma checked_Done env r (u : ()) : (if bool_decide (kind (row_request r) = "decision") && bool_decide (is_Some (context_validator env))
  then _live env r else Done ()) = Done u → context_checked env r.
Proof. destruct u. intros Hif Hk Hv. by rewrite !bool_decide_true in Hif. Qed.
Definition approved env r (id : string) (a : approval_reference) : Prop :=
  ∃ st d, open_store (approval_view env).1 (root env) (approval_view env).2 = Done st ∧
    evaluate (approval_view env).1 st (action (row_context r))
      {| subject := owner (row_context r); role := "session"; tasks := [task_id (row_context r)]; predecessor := None; ancestors := [] |}
      (operation_of (row_context r) (if bool_decide (action (row_context r) = "refresh.shared") then Some "shared" else None)
         (Some (target (row_context r)))) (approval_view env).2 = Done d ∧
    permission d = "allow" ∧ Permissions.approval_id <$> d_approval d = Some id ∧
    nonempty id = true ∧ a = {| approval_id := id; approval_revision := d_revision d |}.
Lemma approval_Done env r o a : _approval env r o = Done a → ∃ id, o = Some id ∧ approved env r id a.
Proof.
  unfold _approval, approved. destruct (approval_view env) as [perms w]. simpl.
  intros (st & Hst & (d & Hd & Ha)%result_bind_Done)%result_bind_Done.
  destruct o as [id|]; [|done]. unfold truthy in Ha. simpl in Ha. destruct (nonempty id) eqn:Hn; [|done].
  destruct (bool_decide_reflect (permission d = "allow")) as [Hp|_]; [|done].
  destruct (bool_decide_reflect (Permissions.approval_id <$> d_approval d = Some id)) as [Hi|_]; [|done].
  injection Ha as <-. eauto 12.
Qed.
Lemma approved_given env r id a : approved env r id a → nonempty (approval_id a) = true ∧ 1 ≤ approval_revision a.
Proof.
  intros (st & d & _ & Hd & _ & _ & Hn & ->). split; [done|]. apply evaluate_Done in Hd as (? & v & ? & ? & _ & Hv & _ & _ & ->).
  by apply read_stored in Hv as (_ & _ & ? & _).
Qed.

Lemma request_body_Done env p q rows r rows' : request_body env p q rows = Done (r, rows') →
  (with_key (key q) rows = Some r ∧ rows' = rows ∧ row_fingerprint r = fingerprint q ∧ _owner p r = Done ()) ∨
  (with_key (key q) rows = None ∧ _permission env "attention.request" p (new_row env q) = Done () ∧
   _current_policy env (policy_now env) (policy_view env) (new_row env q) = Done () ∧ context_checked env (new_row env q) ∧
   r = _event "open" None (Requested (subject p) (event_now env)) (new_row env q) ∧ rows' = rows ++ [r]).
Proof.
  unfold request_body. cbv zeta. destruct (with_key _ _) as [old|].
  - intros ([] & Ho & (? & Hf%guarded_Done & [= <- <-])%result_bind_Done)%result_bind_Done.
    left. apply bool_decide_eq_true in Hf. done.
  - intros ([] & Hp & ([] & Hc & (u & Hl & [= <- <-])%result_bind_Done)%result_bind_Done)%result_bind_Done.
    right. apply (checked_Done env (new_row env q)) in Hl. done.
Qed.
Lemma expected_Done r n f u : _expected r n f = Done u ↔ n = revision r ∧ f = row_fingerprint r.
Proof. unfold _expected. rewrite guarded_Done, andb_true_iff, Z.eqb_eq, bool_decide_eq_true. done. Qed.
Lemma respond_body_Done env p id what n f o rows r' rows' : respond_body env p id what n f o rows = Done (r', rows') →
  ∃ r found, r ∈ rows ∧ request_id r = id ∧ n = revision r ∧ f = row_fingerprint r ∧ status r = "open" ∧ what ∈ options (row_request r) ∧
    _permission env "attention.respond" p r = Done () ∧ _current_policy env (policy_now env) (policy_view env) r = Done () ∧
    context_checked env r ∧
    (if permission_decision (row_request r) && bool_decide (what = "accept")
     then ∃ x a, o = Some x ∧ approved env r x a ∧ found = Some a else found = None) ∧
    r' = responded env p what found r ∧ rows' = replace_row id r' rows.
Proof.
  unfold respond_body. intros (r & [Hin Hid]%find_Done & (? & [Hn Hf]%expected_Done & (? & Hg%guarded_Done & Hk)%result_bind_Done)%result_bind_Done)%result_bind_Done.
  apply andb_true_iff in Hg as [Hst Hw]. apply bool_decide_eq_true in Hst, Hw.
  apply result_bind_Done in Hk as ([] & Hp & ([] & Hc & (u & Hl & (found & Hfound & [= <- <-])%result_bind_Done)%result_bind_Done)%result_bind_Done).
  apply checked_Done in Hl. exists r, found. do 9 (split; [done|]). split; [|done].
  destruct (permission_decision _ && _); [|by injection Hfound].
  apply result_bind_Done in Hfound as (a & (y & -> & Ha)%approval_Done & [= <-]). eauto.
Qed.
Lemma consume_body_Done env p id n f rows x rows' : consume_body env p id n f rows = Done (x, rows') →
  ∃ r y r', r ∈ rows ∧ request_id r = id ∧ _owner p r = Done () ∧ n = revision r ∧ f = row_fingerprint r ∧
    status r = "responded" ∧ kind (row_request r) = "decision" ∧ _permission env "attention.consume" p r = Done () ∧
    _live env r = Done () ∧ row_response r = Some y ∧
    (permission_decision (row_request r) = true → choice y = "accept" →
       ∃ a b, response_approval y = Some a ∧ approved env r (approval_id a) b) ∧
    r' = _event "consumed" (Some y) (Consumed (subject p) (event_now env) (response_id y)) r ∧
    rows' = replace_row id r' rows ∧
    x = {| receipt_revision := revision r'; receipt_fingerprint := row_fingerprint r; receipt_choice := choice y;
           receipt_response := response_id y; receipt_context := row_context r |}.
Proof.
  unfold consume_body. intros (r & [Hin Hid]%find_Done & ([] & Ho & (? & [Hn Hf]%expected_Done & (? & Hg%guarded_Done & Hk)%result_bind_Done)%result_bind_Done)%result_bind_Done)%result_bind_Done.
  apply andb_true_iff in Hg as [Hst Hkind]. apply bool_decide_eq_true in Hst, Hkind.
  apply result_bind_Done in Hk as ([] & Hp & ([] & Hl & Hk)%result_bind_Done).
  destruct (row_response r) as [y|] eqn:Hy; [|done]. apply result_bind_Done in Hk as (? & Happ & [= <- <-]).
  do 3 eexists. do 10 (split; [done|]). split; [|done]. intros Hpd Hch. rewrite Hpd, bool_decide_true in Happ by done. simpl in Happ.
  destruct (response_approval y) as [a|]; [|done]. apply result_bind_Done in Happ as (b & (z & [= <-] & Hb)%approval_Done & _). eauto.
Qed.
Lemma close_body_Done env p id n f disposition reason rows r' rows' :
  close_body env p id n f disposition reason rows = Done (r', rows') →
  ∃ r, r ∈ rows ∧ request_id r = id ∧ _owner p r = Done () ∧ n = revision r ∧ f = row_fingerprint r ∧
    status r ∉ ["closed"; "consumed"] ∧ _permission env "attention.consume" p r = Done () ∧
    r' = _event disposition (row_response r) (disposition_event env p disposition reason) r ∧ rows' = replace_row id r' rows.
Proof.
  unfold close_body. intros (r & [Hin Hid]%find_Done & ([] & Ho & (? & [Hn Hf]%expected_Done & (? & Hg%guarded_Done & Hk)%result_bind_Done)%result_bind_Done)%result_bind_Done)%result_bind_Done.
  apply negb_true_iff, bool_decide_eq_false in Hg. apply result_bind_Done in Hk as ([] & Hp & [= <- <-]). eauto 12.
Qed.

(** ** Life cycles *)
Definition status_after (st st' : string) : Prop :=
  st' = st ∨ st = "open" ∨ (st = "responded" ∧ st' ∈ ["consumed"; "closed"; "unknown"]) ∨ (st = "unknown" ∧ st' = "closed").
Record row_evolves r r' : Prop := {
  ev_id : request_id r' = request_id r;
  ev_created : created_at r' = created_at r;
  ev_request : row_request r' = row_request r;
  ev_fingerprint : row_fingerprint r' = row_fingerprint r;
  ev_history : history r `prefix_of` history r';
  ev_response : row_response r = None ∨ row_response r' = row_response r;
  ev_status : status_after (status r) (status r');
  ev_final : status r ∈ ["closed"; "consumed"] → r' = r;
}.
#[export] Instance row_evolves_preorder : PreOrder row_evolves.
Proof.
  split; [intros r; split; try done; [by right|by left]|].
  intros r1 r2 r3 [Hi1 Hc1 Hq1 Hf1 Hh1 Hr1 Hs1 Hl1] [Hi2 Hc2 Hq2 Hf2 Hh2 Hr2 Hs2 Hl2].
  split; try congruence.
  - by etransitivity.
  - destruct Hr1 as [|Hr1]; [by left|]. rewrite <-Hr1. destruct Hr2 as [?|Hr2]; [by left|by right].
  - unfold status_after in *. destruct Hs1 as [Hs1|[?|[[Hs1 Hin]|[Hs1 Hs1']]]]; [by rewrite <-Hs1|naive_solver|..].
    + destruct (decide (status r2 = "unknown")) as [Hu|Hu].
      * right. right. left. split; [done|]. rewrite Hu in Hs2. destruct Hs2 as [->|[?|[[? _]|[_ ->]]]]; [set_solver|done|done|set_solver].
      * assert (r3 = r2) as -> by (apply Hl2; set_solver). naive_solver.
    + assert (r3 = r2) as -> by (apply Hl2; rewrite Hs1'; set_solver). naive_solver.
  - intros Hfin. pose proof (Hl1 Hfin) as ->. by apply Hl2.
Qed.
Lemma event_evolves st x e r : status r ∉ ["closed"; "consumed"] → status_after (status r) st →
  row_response r = None ∨ x = row_response r → row_evolves r (_event st x e r).
Proof. intros Hnf Hst Hx. split; try done. simpl. by eexists. Qed.
Lemma evolve_refl rows : Forall2 row_evolves rows rows.
Proof. induction rows; by constructor. Qed.
Definition rows_evolve rows rows' : Prop := ∃ kept added, rows' = kept ++ added ∧ Forall2 row_evolves rows kept.
#[export] Instance rows_evolve_preorder : PreOrder rows_evolve.
Proof.
  split.
  - intros rows. exists rows, []. split; [by rewrite app_nil_r|apply evolve_refl].
  - intros rows1 rows2 rows3 (k1 & a1 & -> & H1) (k2 & a2 & -> & H2).
    apply Forall2_app_inv_l in H2 as (k3 & k4 & H13 & H24 & ->). exists k3, (k4 ++ a2).
    split; [by rewrite app_assoc|]. by transitivity k1.
Qed.
Lemma rows_evolve_elem rows rows' r : rows_evolve rows rows' → r ∈ rows → ∃ r', r' ∈ rows' ∧ row_evolves r r'.
Proof.
  intros (k & a & -> & H2) [i Hi]%list_elem_of_lookup. destruct (Forall2_lookup_l _ _ _ _ _ H2 Hi) as (r' & Hr' & ?).
  exists r'. split; [|done]. apply elem_of_app. left. by eapply list_elem_of_lookup_2.
Qed.
Lemma replace_evolves rows r r' : NoDup (request_id <$> rows) → r ∈ rows → row_evolves r r' →
  rows_evolve rows (replace_row (request_id r) r' rows).
Proof.
  intros Hnd Hr Hev. exists (replace_row (request_id r) r' rows), []. split; [by rewrite app_nil_r|].
  assert (∀ x, x ∈ rows → request_id x = request_id r → x = r) as Huniq by (intros; by eapply same_id).
  clear Hnd Hr. induction rows as [|x rows IH]; [constructor|]. simpl. case_bool_decide as Hx.
  - rewrite (Huniq x) by set_solver. constructor; [done|]. apply evolve_refl.
  - constructor; [done|]. apply IH. intros y Hy. apply Huniq. set_solver.
Qed.

(** ** Every body keeps queues well formed *)
Definition keeps_queue {A} (ok : list (row (T:=T)) → Prop) (body : list (row (T:=T)) → result string (A * list (row (T:=T)))) : Prop :=
  ∀ rows a rows', queue_wf rows → body rows = Done (a, rows') → rows_evolve rows rows' ∧ (ok rows → queue_wf rows').
Lemma moved_keeps rows r r' : queue_wf rows → r ∈ rows → row_evolves r r' →
  rows_evolve rows (replace_row (request_id r) r' rows) ∧ (row_wf r' → queue_wf (replace_row (request_id r) r' rows)).
Proof.
  intros Hq Hr Hev. split; [by apply replace_evolves; [apply Hq|..]|].
  intros Hwf. apply replace_wf; try done; [apply Hev|]. unfold row_key. by rewrite (ev_request _ _ Hev).
Qed.
(** The identifier that [uuid4] yields is new. *)
Definition fresh env rows : Prop := "attention_" +:+ uuid4_hex env ∉ (request_id <$> rows).
Lemma with_key_None k rows : with_key k rows = None → k ∉ (row_key <$> rows).
Proof.
  unfold with_key. intros Hf%fmap_None. rewrite list_find_None, Forall_forall in Hf.
  intros (r & -> & Hr)%list_elem_of_fmap. by apply (Hf r Hr).
Qed.
Lemma asked_wf env p q : _request_shape q = Done () → nonempty (subject p) = true →
  row_wf (_event "open" None (Requested (subject p) (event_now env)) (new_row env q)).
Proof.
  intros Hs Hp. split; try done; simpl.
  - by repeat constructor.
  - set_solver.
  - unfold events_ok. simpl. by rewrite Hp.
  - eexists. split; reflexivity.
  - repeat constructor. simpl. set_solver.
Qed.
Lemma request_keeps env p q : _request_shape q = Done () →
  keeps_queue (λ rows, nonempty (subject p) = true ∧ fresh env rows) (request_body env p q).
Proof.
  intros Hs rows r rows' (Hwf & Hids & Hkeys) [(_ & -> & _)|(Hk & _ & _ & _ & -> & ->)]%request_body_Done; [split; [reflexivity|done]|].
  split; [exists rows; eexists; split; [done|apply evolve_refl]|].
  intros [Hp Hf]. split_and!.
  - apply Forall_app. split; [done|]. constructor; [|done]. by apply asked_wf.
  - rewrite fmap_app. apply NoDup_app. split_and!; [done| |apply NoDup_singleton]. intros x Hx. simpl.
    intros ->%list_elem_of_singleton. by apply Hf.
  - rewrite fmap_app. apply NoDup_app. split_and!; [done| |apply NoDup_singleton]. intros x Hx. simpl.
    intros ->%list_elem_of_singleton. by apply (with_key_None _ _ Hk).
Qed.
Lemma respond_keeps env p id what n f o :
  keeps_queue (λ _, nonempty (subject p) = true) (respond_body env p id what n f o).
Proof.
  intros rows r' rows' Hq (r & found & Hin & <- & _ & _ & Hst & Hw & _ & _ & _ & Hfound & -> & ->)%respond_body_Done.
  assert (row_wf r) as Hwf by (destruct Hq as [Hq _]; by eapply Forall_forall in Hq).
  destruct (open_row r Hwf Hst) as (_ & Hnone & _).
  destruct (moved_keeps rows r (responded env p what found r)) as [Hev Hqueue]; [done..| |].
  { apply event_evolves; [rewrite Hst; set_solver|by right; left|by left]. }
  split; [done|]. intros Hp. apply Hqueue, responded_wf; try done.
  - intros a ->. destruct (_ && _); [|done]. destruct Hfound as (x & a' & _ & Ha & [= <-]). by eapply approved_given.
  - intros Hpd Hwhat. rewrite Hpd, bool_decide_true in Hfound by done. destruct Hfound as (x & a & _ & _ & ->). by eexists.
Qed.
Lemma consume_keeps env p id n f : keeps_queue (λ _, nonempty (subject p) = true) (consume_body env p id n f).
Proof.
  intros rows x rows' Hq (r & y & r' & Hin & <- & _ & _ & _ & Hst & _ & _ & _ & Hy & _ & -> & -> & _)%consume_body_Done.
  assert (row_wf r) as Hwf by (destruct Hq as [Hq _]; by eapply Forall_forall in Hq).
  destruct (moved_keeps rows r (_event "consumed" (Some y) (Consumed (subject p) (event_now env) (response_id y)) r))
    as [Hev Hqueue]; [done..| |].
  { apply event_evolves; [rewrite Hst; set_solver|right; right; left; split; [done|set_solver]|by right]. }
  split; [done|]. intros Hp. by apply Hqueue, consumed_wf.
Qed.
Lemma close_keeps env p id n f disposition reason : disposition ∈ ["closed"; "unknown"] →
  keeps_queue (λ _, nonempty (subject p) = true) (close_body env p id n f disposition reason).
Proof.
  intros Hd rows r' rows' Hq (r & Hin & <- & _ & _ & _ & Hst & _ & -> & ->)%close_body_Done.
  assert (row_wf r) as Hwf by (destruct Hq as [Hq _]; by eapply Forall_forall in Hq).
  destruct (moved_keeps rows r (_event disposition (row_response r) (disposition_event env p disposition reason) r))
    as [Hev Hqueue]; [done..| |].
  { apply event_evolves; [done| |by right]. pose proof (wf_status _ Hwf) as Hs. unfold status_after, STATUSES in *. set_solver. }
  split; [done|]. intros Hp. by apply Hqueue, closed_wf.
Qed.
Lemma inspect_keeps p id c : keeps_queue (λ _, True) (inspect_body p id c).
Proof.
  intros rows a rows' Hq Hb. assert (rows' = rows) as -> by
    (unfold inspect_body in Hb; destruct id; [apply result_bind_Done in Hb as (? & _ & (? & _ & [= _ <-])%result_bind_Done)|
       injection Hb as _ <-]; done).
  split; [reflexivity|done].
Qed.

(** ** The transaction *)
Lemma mark_run env s x s' : mark env s = (x, s') → queue s' = queue s.
Proof.
  unfold mark, mbind, effect_bind, reading, lift, writing. destruct (initialized s); [by intros [= _ <-]|].
  by destruct (io env "mark"); intros [= _ <-].
Qed.
Lemma publish_run env rows s x s' : _publish env rows s = (x, s') →
  queue s' = queue s ∧ (∃ e, x = Raised e) ∨ queue s' = Stored rows ∧ fits rows = true.
Proof.
  unfold _publish, mbind, effect_bind, lift, writing, guard. destruct (fits rows) eqn:Hf; [|intros [= <- <-]; eauto].
  destruct (io env "publish"); [|intros [= <- <-]; eauto]. intros [= _ <-]. by right.
Qed.
(** What reading the state before the body leaves. *)
Definition opened s s' : Prop := queue s' = queue s ∨ queue s = Absent ∧ queue s' = Stored [].
Lemma open_run env s x s' : open_state env s = (x, s') → opened s s' ∧
  ∀ rows, x = Done rows → queue s' = Stored rows ∧ queue_wf rows ∧ fits rows = true ∧ (queue s = Stored rows ∨ queue s = Absent ∧ rows = []).
Proof.
  unfold open_state, opened, mbind, effect_bind, reading, lift, raise, mret, effect_ret, guard.
  destruct (io env "lock"); [|intros [= <- <-]; split; [by left|done]].
  destruct (negb (lock_held env)); [|intros [= <- <-]; split; [by left|done]].
  destruct (queue s) as [| |rows0] eqn:Hq.
  - destruct (negb (initialized s)); [|intros [= <- <-]; split; [by left|done]].
    destruct (mark env s) as [[?|?] s1] eqn:Hm; apply mark_run in Hm; rewrite Hq in Hm; [|intros [= <- <-]; split; [by left|done]].
    destruct (_publish env [] s1) as [[?|?] s2] eqn:Hp; intros [= <- <-];
      apply publish_run in Hp as [[Hp [? ?]]|[Hp Hf]]; rewrite ?Hm in Hp; try done.
    + split; [by right|]. intros rows [= <-]. split_and!; try done; [by apply validate_wf|by right].
    + split; [by left|done].
    + split; [by right|done].
  - destruct (io env "read"); intros [= <- <-]; (split; [by left|done]).
  - destruct (io env "read"); [|intros [= <- <-]; split; [by left|done]].
    destruct (fits rows0 && _validate [] [] rows0) eqn:Hg; [|intros [= <- <-]; split; [by left|done]].
    apply andb_true_iff in Hg as [Hf Hv%validate_wf].
    destruct (mark env s) as [[?|?] s1] eqn:Hm; apply mark_run in Hm; intros [= <- <-]; (split; [left; congruence|]); [|done].
    intros rows [= <-]. rewrite Hm. split_and!; eauto.
Qed.
Lemma transaction_run {A} env write (body : list (row (T:=T)) → result string (A * list (row (T:=T)))) s x s' :
  _transaction env write body s = (x, s') →
  (opened s s' ∧ (write = true → ∃ e, x = Raised e) ∧ ∀ a, x = Done a → ∃ rows rows', queue s' = Stored rows ∧ queue_wf rows ∧ body rows = Done (a, rows')) ∨
  write = true ∧ ∃ rows a rows', (queue s = Stored rows ∨ queue s = Absent ∧ rows = []) ∧ queue_wf rows ∧ fits rows' = true ∧
    body rows = Done (a, rows') ∧ queue_wf rows' ∧ queue s' = Stored rows' ∧ ∀ b, x = Done b → b = a.
Proof.
  unfold _transaction. unfold mbind at 1, effect_bind at 1. destruct (open_state env s) as [[rows|e] s1] eqn:Ho;
    destruct (open_run _ _ _ _ Ho) as [Hop Hrows]; [|intros [= <- <-]; left; split_and!; eauto; done].
  destruct (Hrows rows eq_refl) as (Hq & Hwf & _ & Hfrom). unfold mbind at 1, effect_bind at 1, lift at 1.
  destruct (body rows) as [[a rows']|e] eqn:Hb; [|intros [= <- <-]; left; split_and!; eauto; done].
  destruct write.
  - unfold mbind, effect_bind, lift, guard. destruct (_validate [] [] rows') eqn:Hv; [|intros [= <- <-]; left; split_and!; eauto; done].
    apply validate_wf in Hv. destruct (_publish env rows' s1) as [[?|?] s2] eqn:Hp; intros [= <- <-];
      apply publish_run in Hp as [[Hp [? ?]]|[Hp Hf]]; try done.
    + right. split; [done|]. exists rows, a, rows'. split_and!; try done. by intros ? [= <-].
    + left. unfold opened in *. rewrite Hp. split_and!; eauto; done.
    + right. split; [done|]. exists rows, a, rows'. done.
  - intros [= <- <-]. left. split_and!; [done..|]. intros ? [= <-]. eauto.
Qed.

(** ** Calls *)
Inductive call :=
| Ask env (p : Principal) q
| Inspect env (p : Principal) (id : option string) (include_closed : bool)
| Respond env (p : Principal) (id what : string) (n : Z) (f : string) (o : option string)
| Consume env (p : Principal) (id : string) (n : Z) (f : string)
| Close env (p : Principal) (id : string) (n : Z) (f disposition reason : string).
Definition after (k : call) s : store (T:=T) :=
  match k with
  | Ask env p q => (ask env p q s).2
  | Inspect env p id c => (inspect env p id c s).2
  | Respond env p id what n f o => (respond env p id what n f o s).2
  | Consume env p id n f => (consume env p id n f s).2
  | Close env p id n f d reason => (close env p id n f d reason s).2
  end.
Definition reaches : store (T:=T) → store (T:=T) → Prop := rtc (λ s s', ∃ k, s' = after k s).
(** A stored queue is well formed and fits its file, and stays one whose rows
    have evolved. *)
Definition store_ok s : Prop := match queue s with Stored rows => queue_wf rows ∧ fits rows = true | _ => True end.
Definition progresses s s' : Prop := (store_ok s → store_ok s') ∧
  match queue s with
  | Absent => queue s' ≠ Foreign
  | Foreign => queue s' = Foreign
  | Stored rows => ∃ rows', queue s' = Stored rows' ∧ rows_evolve rows rows'
  end.
#[export] Instance progresses_preorder : PreOrder progresses.
Proof.
  split.
  - intros s. split; [done|]. destruct (queue s) as [| |rows]; [done..|]. exists rows. split; [done|reflexivity].
  - intros s1 s2 s3 [H12 Hq12] [H23 Hq23]. split; [auto|]. destruct (queue s1) as [| |rows1].
    + destruct (queue s2) as [| |rows2]; [done..|]. by destruct Hq23 as (? & -> & _).
    + by rewrite Hq12 in Hq23.
    + destruct Hq12 as (rows2 & Hq2 & He). rewrite Hq2 in Hq23. destruct Hq23 as (rows3 & -> & He').
      exists rows3. split; [done|by etransitivity].
Qed.
Lemma opened_progresses s s' : opened s s' → progresses s s'.
Proof.
  intros [Heq|[Ha Hs]]; unfold progresses, store_ok.
  - rewrite Heq. split; [done|]. destruct (queue s) as [| |rows]; [done..|]. exists rows. split; [done|reflexivity].
  - rewrite Ha, Hs. split; [|done]. intros _. split; [by apply validate_wf|done].
Qed.
Lemma transaction_progresses {A} env write (body : list (row (T:=T)) → result string (A * list (row (T:=T)))) ok :
  keeps_queue ok body → keeps progresses (_transaction env write body).
Proof.
  intros Hb s x s' [(Ho & _)|(_ & rows & a & rows' & Hfrom & Hwf & Hf & Hbody & Hwf' & Hq & _)]%transaction_run; [by apply opened_progresses|].
  destruct (Hb _ _ _ Hwf Hbody) as [Hev _]. unfold progresses, store_ok. rewrite Hq. split; [done|].
  destruct Hfrom as [-> | [-> _]]; [eauto|done].
Qed.
Lemma checked_keeps {A} (R : store (T:=T) → store (T:=T) → Prop) `{!PreOrder R} (c : result string ()) (m : effect (store (T:=T)) string A) :
  (c = Done () → keeps R m) → keeps R (_ ← lift c; m).
Proof. intros Hm s x s'. unfold mbind, effect_bind, lift. destruct c as [[]|]; [by apply Hm|intros [= _ <-]; reflexivity]. Qed.
Lemma call_progresses k s : progresses s (after k s).
Proof.
  destruct k as [env p q|env p id c|env p id what n f o|env p id n f|env p id n f d reason]; simpl.
  - eapply (checked_keeps progresses); [|apply surjective_pairing]. intros Hs.
    eapply (checked_keeps progresses). intros _. by eapply transaction_progresses, request_keeps.
  - eapply transaction_progresses; [apply inspect_keeps|apply surjective_pairing].
  - eapply (checked_keeps progresses); [|apply surjective_pairing]. intros _. eapply transaction_progresses, respond_keeps.
  - eapply transaction_progresses; [apply consume_keeps|apply surjective_pairing].
  - eapply (checked_keeps progresses); [|apply surjective_pairing]. intros Hd%guarded_Done. rewrite !andb_true_iff in Hd.
    destruct Hd as [[Hd%bool_decide_eq_true _] _]. by eapply transaction_progresses, close_keeps.
Qed.
Lemma reaches_progresses s s' : reaches s s' → progresses s s'.
Proof. induction 1 as [|s s1 s' (k & ->) _ IH]; [reflexivity|]. etransitivity; [apply call_progresses|done]. Qed.

(** ** What a queue promises *)
Definition new_store : store (T:=T) := {| queue := Absent; initialized := false |}.
Lemma reachable_store s : reaches new_store s → store_ok s ∧ queue s ≠ Foreign.
Proof. intros [Hok Hq]%reaches_progresses. split; [by apply Hok|done]. Qed.

(** Starting without a queue file, whatever is called and whatever fails in
    it, the queue file is never one that a later call refuses: its rows are
    valid with unique identifiers and keys, and reading them under a free lock
    and a working file system returns them unchanged. *)
Theorem attention_readable s : reaches new_store s → queue s ≠ Foreign ∧
  ∀ rows, queue s = Stored rows → queue_wf rows ∧
    ∀ env, lock_held env = false → (∀ place, io_fails env place = None) →
      ∃ s', open_state env s = (Done rows, s') ∧ queue s' = Stored rows.
Proof.
  intros [Hok Hnf]%reachable_store. split; [done|]. intros rows Hq. unfold store_ok in Hok. rewrite Hq in Hok.
  destruct Hok as [Hwf Hf]. split; [done|]. intros env Hlock Hio.
  assert (∀ place, io env place = Done ()) as Hplace by (intros place; unfold io, touch; by rewrite Hio).
  apply validate_wf in Hwf. unfold open_state, mbind, effect_bind, lift, reading. rewrite Hplace, Hlock. cbn [negb guard]. rewrite Hq, Hplace.
  rewrite Hf, Hwf. cbn [andb guard]. unfold mark, mbind, effect_bind, lift, reading, writing. rewrite !Hplace.
  destruct (initialized s); eexists; (split; [reflexivity|done]).
Qed.

(** The check before publication never refuses what a transition made: on a
    valid queue every request, response, consumption and closing by an
    identified principal leaves a valid queue, if [uuid4] yields a new
    identifier. *)
Theorem transitions_valid rows env p : queue_wf rows → nonempty (subject p) = true →
  (∀ q r rows', _request_shape q = Done () → fresh env rows → request_body env p q rows = Done (r, rows') → _validate [] [] rows' = true) ∧
  (∀ id what n f o r rows', respond_body env p id what n f o rows = Done (r, rows') → _validate [] [] rows' = true) ∧
  (∀ id n f x rows', consume_body env p id n f rows = Done (x, rows') → _validate [] [] rows' = true) ∧
  (∀ id n f disposition reason r rows', disposition ∈ ["closed"; "unknown"] →
     close_body env p id n f disposition reason rows = Done (r, rows') → _validate [] [] rows' = true).
Proof.
  intros Hwf Hp. split_and!; intros; apply validate_wf.
  - by eapply request_keeps.
  - by eapply respond_keeps.
  - by eapply consume_keeps.
  - by eapply close_keeps.
Qed.

(** What a later queue holds of a row. *)
Lemma row_kept s s' rows r : reaches new_store s → queue s = Stored rows → r ∈ rows → reaches s s' →
  ∃ rows' r', queue s' = Stored rows' ∧ r' ∈ rows' ∧ row_evolves r r' ∧ ∀ x, x ∈ rows' → request_id x = request_id r → x = r'.
Proof.
  intros Hs Hq Hr Hs'. destruct (reaches_progresses _ _ Hs') as [_ Hp]. rewrite Hq in Hp.
  destruct Hp as (rows' & Hq' & Hev). destruct (rows_evolve_elem _ _ _ Hev Hr) as (r' & Hr' & He). exists rows', r'. split_and!; try done.
  intros x Hx Hid. assert (reaches new_store s') as [Hok _]%reachable_store by (by etransitivity).
  unfold store_ok in Hok. rewrite Hq' in Hok. destruct Hok as [(_ & Hnd & _) _]. eapply same_id; [done..|]. by rewrite Hid, (ev_id _ _ He).
Qed.

(** C31 A stored request stays in the queue under its identifier for ever: its
    content, fingerprint and creation time are fixed, its history only grows, a
    response once given is never changed, its status moves from open to
    responded, consumed, closed or unknown and never back, and a consumed or
    closed request is never touched again. *)
Theorem row_life_cycle s s' rows r : reaches new_store s → queue s = Stored rows → r ∈ rows → reaches s s' →
  ∃ rows' r', queue s' = Stored rows' ∧ r' ∈ rows' ∧ row_evolves r r' ∧ ∀ x, x ∈ rows' → request_id x = request_id r → x = r'.
Proof. apply row_kept. Qed.

Lemma written_transaction {A} env (body : list (row (T:=T)) → result string (A * list (row (T:=T)))) s a s' :
  _transaction env true body s = (Done a, s') → ∃ rows rows', (queue s = Stored rows ∨ queue s = Absent ∧ rows = []) ∧ queue_wf rows ∧
    body rows = Done (a, rows') ∧ queue_wf rows' ∧ queue s' = Stored rows'.
Proof.
  intros [(_ & Hbad & _)|(_ & rows & b & rows' & Hfrom & Hwf & _ & Hb & Hwf' & Hq & Heq)]%transaction_run.
  - by destruct (Hbad eq_refl).
  - rewrite (Heq a eq_refl). eauto 10.
Qed.
Lemma stored_of s rows r : queue s = Stored rows ∨ queue s = Absent ∧ rows = [] → r ∈ rows → queue s = Stored rows.
Proof. intros [?|[_ ->]]; [done|]. by intros ?%elem_of_nil. Qed.
(** The request is unexpired and its policy is the one in force. *)
Definition timely env (at_ : T) (v : view (T:=T)) r : Prop :=
  t_ltb at_ (expires_at (row_request r)) = true ∧ policy_current v (root env) (row_context r) = Done ().
Lemma current_policy_Done env at_ v r : _current_policy env at_ v r = Done () → timely env at_ v r.
Proof. unfold _current_policy. by intros (? & Ht%guarded_Done & Hp)%result_bind_Done. Qed.
(** The feature owner's hook saw the operation exactly as the request names it,
    still blocked. *)
Definition observed_blocked env r : Prop := timely env (live_now env) (live_view env) r ∧
  ∃ validator, context_validator env = Some validator ∧ validator r = Done (row_context r) ∧ operation_state (row_context r) = "blocked".
Lemma live_Done env r : _live env r = Done () → observed_blocked env r.
Proof.
  unfold _live. intros ([] & Ht%current_policy_Done & Hl)%result_bind_Done. split; [done|].
  destruct (context_validator env) as [validator|]; [|done]. exists validator. split; [done|].
  apply result_bind_Done in Hl as (c & Hc & (c' & Hc' & (? & Heq%guarded_Done & Hb%guarded_Done)%result_bind_Done)%result_bind_Done).
  apply bool_decide_eq_true in Heq, Hb. unfold _context in Hc'. apply result_bind_Done in Hc' as (? & _ & [= ->]). by subst.
Qed.
(** An approval of the policy in force that covers the operation of the
    request and has not expired. *)
Definition approval_stands env r (id : string) : Prop := ∃ st v req n a,
  open_store (approval_view env).1 (root env) (approval_view env).2 = Done st ∧
  _read (approval_view env).1 st (approval_view env).2 = Done v ∧
  default [] (approvals (saved_policy v)) !! n = Some a ∧ Permissions.approval_id a = id ∧
  live_approval (now (approval_view env).1 n) req a ∧
  r_action req = action (row_context r) ∧ subject (r_principal req) = owner (row_context r) ∧
  r_context req = operation_of (row_context r) (if bool_decide (action (row_context r) = "refresh.shared") then Some "shared" else None)
                    (Some (target (row_context r))) ∧
  action (row_context r) ∉ default [] (mandatory (saved_policy v)).
Lemma approved_stands env r id b : approved env r id b → approval_stands env r id.
Proof.
  intros (st & d & Hst & Hd & Hallow & Hid & _ & _). destruct (evaluate_allowed _ _ _ _ _ _ _ Hd Hallow) as (req & v & Hreq & Hv & _ & Hfix & Hwhy).
  destruct (d_approval d) as [a|]; [|done]. injection Hid as <-. destruct Hwhy as (n & Hn & Hl & _).
  apply resolve_Done in Hreq as (Ha & Hp & Hc & _). exists st, v, req, n, a. split_and!; try done.
  - by rewrite Hp.
  - rewrite <-Ha. apply Hfix.
Qed.

(** C30 A response is a qualified human act: only an operator whom the policy
    lets respond answers, with one of the offered options, the open request
    that it inspected, before its expiry, under the policy revision it names
    and, for a decision, against a context that the hook confirms; accepting a
    permission decision rests on an unexpired approval of the policy, named in
    the response; the response and its event are recorded in place, and every
    other row is untouched. *)
Theorem respond_sound env p id what n f o s r' s' : respond env p id what n f o s = (Done r', s') →
  role p = "operator" ∧ ∃ rows r found, queue s = Stored rows ∧ r ∈ rows ∧ request_id r = id ∧
    status r = "open" ∧ n = revision r ∧ f = row_fingerprint r ∧ what ∈ options (row_request r) ∧
    _permission env "attention.respond" p r = Done () ∧ timely env (policy_now env) (policy_view env) r ∧
    (kind (row_request r) = "decision" → is_Some (context_validator env) → observed_blocked env r) ∧
    (if permission_decision (row_request r) && bool_decide (what = "accept")
     then ∃ x a, found = Some a ∧ approval_id a = x ∧ approval_stands env r x else found = None) ∧
    r' = responded env p what found r ∧ queue s' = Stored (replace_row id r' rows).
Proof.
  unfold respond. intros ([] & ? & (Hrole & ->)%lift_Done & Ht)%effect_bind_Done. apply guarded_Done, bool_decide_eq_true in Hrole.
  split; [done|]. apply written_transaction in Ht as (rows & rows' & Hfrom & _ & Hb & _ & Hq).
  apply respond_body_Done in Hb as (r & found & Hin & Hid & Hn & Hf & Hst & Hw & Hp & Hc & Hl & Hfound & Hr' & ->).
  exists rows, r, found. split; [by eapply stored_of|]. do 6 (split; [done|]). split; [done|]. split; [by apply current_policy_Done|].
  split; [by intros Hk Hv; apply live_Done, Hl|]. split; [|done]. destruct (_ && _); [|done].
  destruct Hfound as (x & a & _ & Ha & ->). exists x, a. split; [done|]. apply approved_stands in Ha as Hs.
  destruct Ha as (? & ? & _ & _ & _ & _ & _ & ->). done.
Qed.


(** A request is asked at most once: after it was accepted, repeating it,
    on any later queue and by anyone, adds no row and answers, if it answers at
    all, the row it has become, and another request under its key is refused. *)
Theorem ask_idempotent env p q s r s1 s2 env' p' q' x s3 : reaches new_store s → ask env p q s = (Done r, s1) →
  reaches s1 s2 → key q' = key q → ask env' p' q' s2 = (x, s3) → queue s3 = queue s2 ∧
  ∀ r', x = Done r' → fingerprint q' = fingerprint q ∧ row_evolves r r' ∧ ∃ rows, queue s2 = Stored rows ∧ r' ∈ rows.
Proof.
  intros Hs Hcall H12 Hkey Hagain. pose proof Hcall as Ht. unfold ask in Ht.
  apply effect_bind_Done in Ht as ([] & ? & (_ & ->)%lift_Done & Ht). apply effect_bind_Done in Ht as ([] & ? & (_ & ->)%lift_Done & Ht).
  apply written_transaction in Ht as (rows & rows' & Hfrom & _ & Hb & Hwf & Hq).
  assert (r ∈ rows' ∧ row_key r = key q ∧ row_fingerprint r = fingerprint q) as (Hin & Hk & Hfp).
  { apply request_body_Done in Hb as [(Hw & -> & Hf & _)|(_ & _ & _ & _ & -> & ->)]; [|set_solver]. unfold with_key in Hw.
    apply fmap_Some in Hw as ([i z] & Hz & ->). apply list_find_Some in Hz as (Hi & Hz & _). simpl. split; [by eapply list_elem_of_lookup_2|done]. }
  assert (reaches new_store s1) as Hs1.
  { etransitivity; [done|]. apply rtc_once. exists (Ask env p q). simpl. by rewrite Hcall. }
  destruct (row_kept s1 s2 rows' r Hs1 Hq Hin H12) as (rows2 & r2 & Hq2 & Hr2 & Hev & _).
  assert (reaches new_store s2) as [Hok _]%reachable_store by (by etransitivity). unfold store_ok in Hok. rewrite Hq2 in Hok.
  destruct Hok as [(Hall & Hids & Hkeys) _].
  assert (with_key (key q') rows2 = Some r2) as Hw.
  { apply list_elem_of_lookup in Hr2 as [i Hi]. unfold with_key.
    assert (list_find (λ r, key (row_request r) = key q') rows2 = Some (i, r2)) as ->; [|done].
    apply list_find_Some. split_and!; [done|by rewrite (ev_request _ _ Hev), Hkey|].
    intros j z Hj Hlt Hz. assert (j = i); [|lia]. eapply (NoDup_lookup _ _ _ (key q')); [exact Hkeys|..];
      rewrite list_lookup_fmap, ?Hj, ?Hi; simpl; f_equal; unfold row_key; [done|]. by rewrite (ev_request _ _ Hev), Hkey. }
  unfold ask in Hagain. unfold mbind at 1, effect_bind at 1, lift at 1 in Hagain.
  destruct (_request_shape q') as [[]|]; [|by injection Hagain as <- <-].
  unfold mbind at 1, effect_bind at 1, lift at 1 in Hagain. destruct (_owner p' _) as [[]|]; [|by injection Hagain as <- <-].
  apply transaction_run in Hagain as [(Ho & Hx & _)|(_ & rows3 & z & rows4 & Hfrom3 & _ & _ & Hb3 & _ & Hq3 & Hz)].
  - destruct (Hx eq_refl) as [e ->]. split; [|done]. destruct Ho as [|[Ho _]]; congruence.
  - assert (rows3 = rows2) as -> by (destruct Hfrom3 as [|[? _]]; congruence).
    apply request_body_Done in Hb3 as [(Hw' & -> & Hf' & _)|(Hbad & _)]; [|congruence]. rewrite Hw in Hw'. injection Hw' as <-.
    split; [congruence|]. intros r' ->. rewrite <-(Hz r' eq_refl) in *. split_and!; [|done|eauto].
    rewrite <-Hf', (ev_fingerprint _ _ Hev), Hfp. done.
Qed.
End Queue.
