(* ===== verification/AttentionDemo.v ===== *)
(** * The attention queue at work

    [AttentionDemo]: a session asks for a decision, the operator accepts it
    under an approval of the policy, the session consumes the response; the
    theorems of [AttentionRules] applied to this run. *)
From S2P Require Import Prelude Effects Json Sha256 Datetime Timestamps Permissions PermissionRules PermissionDemo Attention AttentionRules.
Open Scope Z_scope.

(** ** The policy and the request *)
Definition may_respond : layer :=
  {| default_decision := None; actions := Some {[ "attention.respond" := Plain "allow" ]}; profile := None; authorized_profiles := None |}.
Definition human_policy : policy :=
  {| version := 1; global_layer := None; profiles := None; sessions := Some {[ "operator:local" := may_respond ]}; assignments := None;
     mandatory := None; approvals := approvals base_policy; delegations := None; known_actions := None; future_actions_inherit := None;
     policy_adoption := None |}.
Definition governed : world (T:=Z) := (configure (clock 100) site human_policy host 0 ∅).2.
Definition launch_context : Attention.context :=
  {| owner := "thread-1"; Attention.operation_id := "operation-1"; attempt := 1; Attention.task_id := "task-1"; allocation_id := "allocation-1";
     runtime := "codex"; conversation_id := "conversation-1"; account := "account-1"; Attention.target := "thread-1"; Attention.action := "job.launch";
     effect_scope := "job"; policy_root := "/srv/wake"; policy_revision := 1; operation_state := "blocked" |}.
Definition launch_request : Attention.request (T:=Z) :=
  {| key := "launch-1"; kind := "decision"; question := "Launch the job?"; options := ["accept"; "decline"]; evidence := ["plan-1"];
     priority := "normal"; Attention.expires_at := 1767300000; request_context := launch_context; permission_decision := true |}.
Definition at_desk (n : Z) (hex : string) : Attention.Env (T:=Z) :=
  {| created_now := n; policy_now := n; live_now := n; event_now := n; uuid4_hex := hex; lock_held := false; Attention.io_fails := λ _, None;
     root := "/srv/wake"; permission_view := (clock n, governed); policy_view := (clock n, governed); live_view := (clock n, governed);
     approval_view := (clock n, governed); context_validator := Some (λ r, Done (row_context r)) |}.
Definition no_row : row (T:=Z) :=
  {| request_id := ""; Attention.revision := 0; status := ""; created_at := 0; row_request := launch_request; row_fingerprint := "";
     row_response := None; Attention.history := [] |}.

(** ** The run *)
Definition desk1 := at_desk 1767225600 "a1".
Definition desk2 := at_desk 1767225700 "b2".
Definition desk3 := at_desk 1767225800 "c3".
Definition asking_run := ask desk1 agent launch_request (new_store (T:=Z)).
Definition asked : row (T:=Z) := value no_row asking_run.1.
Definition store1 : store (T:=Z) := asking_run.2.
Definition responding_run := respond desk2 host "attention_a1" "accept" 1 (row_fingerprint asked) (Some "approval-1") store1.
Definition answered : row (T:=Z) := value no_row responding_run.1.
Definition store2 : store (T:=Z) := responding_run.2.
Definition consuming_run := consume desk3 agent "attention_a1" 2 (row_fingerprint asked) store2.
Definition no_receipt : receipt :=
  {| receipt_revision := 0; receipt_fingerprint := ""; receipt_choice := ""; receipt_response := ""; receipt_context := launch_context |}.
Definition taken : receipt := value no_receipt consuming_run.1.
Definition store3 : store (T:=Z) := consuming_run.2.
Definition rows_in (s : store (T:=Z)) : list (row (T:=Z)) := match queue s with Stored rows => rows | _ => [] end.
Definition done {A} (r : result string A) : bool := match r with Done _ => true | Raised _ => false end.

Example run_statuses : status <$> rows_in store1 ++ rows_in store2 ++ rows_in store3 = ["open"; "responded"; "consumed"].
Proof. vm_compute. reflexivity. Qed.
Example run_choice : receipt_choice taken = "accept" ∧ receipt_response taken = "response_b2".
Proof. split; vm_compute; reflexivity. Qed.
Example consumed_twice : (consume desk3 agent "attention_a1" 3 (row_fingerprint asked) store3).1 = Raised "attention_not_consumable".
Proof. vm_compute. reflexivity. Qed.
Example without_approval : (respond desk2 host "attention_a1" "accept" 1 (row_fingerprint asked) None store1).1 = Raised "attention_approval_required".
Proof. vm_compute. reflexivity. Qed.
Example too_late : (respond (at_desk 1767300000 "b2") host "attention_a1" "decline" 1 (row_fingerprint asked) None store1).1 = Raised "attention_expired".
Proof. vm_compute. reflexivity. Qed.

Lemma ask_run_Done : ask desk1 agent launch_request (new_store (T:=Z)) = (Done asked, store1).
Proof. vm_compute. reflexivity. Qed.
Lemma responding_Done : respond desk2 host "attention_a1" "accept" 1 (row_fingerprint asked) (Some "approval-1") store1 = (Done answered, store2).
Proof. vm_compute. reflexivity. Qed.
Lemma consuming_Done : consume desk3 agent "attention_a1" 2 (row_fingerprint asked) store2 = (Done taken, store3).
Proof. vm_compute. reflexivity. Qed.
Lemma reaches_store1 : reaches new_store store1.
Proof. apply rtc_once. exists (Ask desk1 agent launch_request). vm_compute. reflexivity. Qed.
Lemma reaches_store2 : reaches store1 store2.
Proof. apply rtc_once. exists (Respond desk2 host "attention_a1" "accept" 1 (row_fingerprint asked) (Some "approval-1")). vm_compute. reflexivity. Qed.
Lemma reaches_store3 : reaches store2 store3.
Proof. apply rtc_once. exists (Consume desk3 agent "attention_a1" 2 (row_fingerprint asked)). vm_compute. reflexivity. Qed.
Lemma store1_rows : queue store1 = Stored [asked].
Proof. vm_compute. reflexivity. Qed.
Lemma store2_rows : queue store2 = Stored [answered].
Proof. vm_compute. reflexivity. Qed.

(** ** The theorems at work *)
Lemma attention_readable_witness : queue store2 = Stored [answered] ∧ queue_wf [answered] ∧
  ∃ s', open_state desk3 store2 = (Done [answered], s') ∧ queue s' = Stored [answered].
Proof.
  destruct (attention_readable store2 (transitivity reaches_store1 reaches_store2)) as [_ Hread].
  destruct (Hread [answered] store2_rows) as [Hwf Hopen].
  exact (conj store2_rows (conj Hwf (Hopen desk3 eq_refl (λ _, eq_refl)))).
Defined.
Lemma answered_wf : queue_wf [answered].
Proof. apply validate_wf. vm_compute. reflexivity. Qed.
Lemma transitions_valid_witness : _validate [] []
  (value (no_receipt, []) (consume_body desk3 agent "attention_a1" 2 (row_fingerprint asked) [answered])).2 = true.
Proof.
  destruct (transitions_valid [answered] desk3 agent answered_wf eq_refl) as (_ & _ & Hconsume & _).
  apply (Hconsume "attention_a1" 2 (row_fingerprint asked) taken). vm_compute. reflexivity.
Defined.
Lemma row_life_cycle_witness : ∃ rows' r', queue store3 = Stored rows' ∧ r' ∈ rows' ∧ row_evolves asked r' ∧
  ∀ x, x ∈ rows' → request_id x = request_id asked → x = r'.
Proof.
  apply (row_life_cycle store1 store3 [asked] asked reaches_store1 store1_rows).
  - apply list_elem_of_singleton. reflexivity.
  - exact (transitivity reaches_store2 reaches_store3).
Defined.
Lemma respond_sound_witness : role host = "operator" ∧ ∃ rows r found, queue store1 = Stored rows ∧ r ∈ rows ∧ request_id r = "attention_a1" ∧
    status r = "open" ∧ 1 = Attention.revision r ∧ row_fingerprint asked = row_fingerprint r ∧ "accept" ∈ options (row_request r) ∧
    _permission desk2 "attention.respond" host r = Done () ∧ timely desk2 (policy_now desk2) (policy_view desk2) r ∧
    (kind (row_request r) = "decision" → is_Some (context_validator desk2) → observed_blocked desk2 r) ∧
    (if permission_decision (row_request r) && bool_decide ("accept" = "accept")
     then ∃ x a, found = Some a ∧ approval_id a = x ∧ approval_stands desk2 r x else found = None) ∧
    answered = responded desk2 host "accept" found r ∧ queue store2 = Stored (replace_row "attention_a1" answered rows).
Proof. exact (respond_sound _ _ _ _ _ _ _ _ _ _ responding_Done). Defined.
Definition asking_again := ask desk2 agent launch_request store3.
Lemma again_Done : ask desk2 agent launch_request store3 = (asking_again.1, asking_again.2).
Proof. vm_compute. reflexivity. Qed.
Lemma ask_idempotent_witness : done asking_again.1 = true ∧ queue asking_again.2 = queue store3.
Proof.
  split; [vm_compute; reflexivity|].
  exact (proj1 (ask_idempotent desk1 agent launch_request _ _ _ _ desk2 agent launch_request _ _ (rtc_refl _ _) ask_run_Done (transitivity reaches_store2 reaches_store3) eq_refl again_Done)).
Defined.
