(* ===== verification/WakeClock.v ===== *)
(** * When a native wake is due (src/src/codex_wake/native_intents.py)

    [WakeClock]: the scheduling intent of a native wake, the evidence of a
    clock, and [eligibility], which turns both into a verdict; the proof that a
    verdict [due] is conservative.  Numbers of seconds are rationals; the
    outward rounding of the two quotients ([math.nextafter] of a float
    division) is a pair of functions [below] and [above].  Instants are typed,
    so the parsing of their texts is not repeated here. *)
From Stdlib Require Import QArith Lqa.
From S2P Require Import Prelude Json.
Open Scope Q_scope.

(** ** Clock evidence *)
Record utc_bounds := { utc_status : string; utc_sources : list string; utc_lower : Q; utc_upper : Q }.
Record counter := { epoch : string; count : Z; frequency : Z; rate_ppm : Z }.
Record clock := { clock_utc : option utc_bounds; clock_counter : option counter; clock_reason : option string }.
Definition Qlt_bool (a b : Q) : bool := negb (Qle_bool b a).
Definition valid_utc (u : utc_bounds) : bool :=
  bool_decide (utc_status u ∈ ["network"; "windows"]) && forallb (λ x, negb (bool_decide (x = ""))) (utc_sources u) &&
  bool_decide (NoDup (utc_sources u)) &&
  ((if bool_decide (utc_status u = "network") then 2 else 1) <=? Z.of_nat (length (utc_sources u)))%Z &&
  Qlt_bool 0 (utc_lower u) && Qle_bool (utc_lower u) (utc_upper u) && Qle_bool (utc_upper u - utc_lower u) 300.
Definition valid_counter (c : counter) : bool :=
  (0 <? str_len (epoch c))%Z && (str_len (epoch c) <=? 200)%Z &&
  (0 <=? count c)%Z && (count c <=? 18446744073709551615)%Z && (0 <? frequency c)%Z && (frequency c <=? 18446744073709551615)%Z &&
  (0 <=? rate_ppm c)%Z && (rate_ppm c <=? 5000)%Z.
(** The evidence that passes its test. *)
Definition checked {A} (valid : A → bool) (x : option A) : option A := x ≫= λ a, if valid a then Some a else None.

(** ** Intents and verdicts *)
Inductive schedule := After (delay : Q) | At (due : Q) | File (path : string).
Record scheduling_intent := {
  intent_schedule : schedule; ttl_seconds : Q; tolerance_seconds : Q; stop_at : option Q;
  counter_anchor : option counter; utc_anchor : option utc_bounds;
}.
Record bounds := { mode : string; lower : Q; upper : Q; expires : Q; dispatch_window_seconds : Q }.
Record verdict := { v_state : string; v_reason : string; v_alert : option string; v_bounds : option bounds }.

Definition is_at (s : schedule) : bool := match s with At _ => true | _ => false end.
Definition delay_of (s : schedule) : Q := match s with After d => d | _ => 0 end.
Definition clock_unavailable : string := "Trusted scheduling time unavailable; original intent retained".
Definition held (reason alert : string) : verdict := {| v_state := "pending_time"; v_reason := reason; v_alert := Some alert; v_bounds := None |}.
(** [continuous]. *)
Definition continues (origin observed : counter) : bool :=
  bool_decide (epoch observed = epoch origin) && (frequency observed =? frequency origin)%Z && (count origin <=? count observed)%Z.

Section Eligibility.
Variables below above : Q → Q.

Definition max_rate (origin observed : counter) : Q := inject_Z (Z.max (rate_ppm origin) (rate_ppm observed)) / 1000000.
Definition elapsed_lower (origin observed : counter) : Q :=
  let x := below (inject_Z (count observed - count origin - 1) / (inject_Z (frequency origin) * (1 + max_rate origin observed))) in
  if Qle_bool x 0 then 0 else x.
Definition elapsed_upper (origin observed : counter) : Q :=
  above (inject_Z (count observed - count origin + 1) / (inject_Z (frequency origin) * (1 - max_rate origin observed))).

(** The comparison of bounds with a due time and an expiry. *)
Definition judge (i : scheduling_intent) (file_exists : bool) (stop_remaining : option Q) (m : string) (lo hi due : Q) : verdict :=
  let expiry := due + ttl_seconds i in
  let window := expiry - hi in
  let b := {| mode := m; lower := lo; upper := hi; expires := expiry;
              dispatch_window_seconds := match stop_remaining with
                | Some s => if Qle_bool window s then window else s | None => window end |} in
  let answer state reason alert := {| v_state := state; v_reason := reason; v_alert := alert; v_bounds := Some b |} in
  if Qle_bool expiry lo then answer "missed_deadline" "expiry_reached" (Some "Wake deadline missed; original intent retained without dispatch")
  else if Qle_bool expiry hi then answer "pending_time" "expiry_boundary_uncertain" (Some "Expiry eligibility uncertain; no dispatch authorized")
  else if Qlt_bool (tolerance_seconds i) (hi - lo)
  then answer "pending_time" "precision_unavailable" (Some "Clock bounds exceed this request tolerance; intent retained")
  else if Qlt_bool lo due || match intent_schedule i with File _ => negb file_exists | _ => false end
  then answer "pending" "not_due" None
  else answer "due" "not_before_and_expiry_established" None.
(** The part after the stop: which evidence decides. *)
Definition by_evidence (i : scheduling_intent) (c : clock) (file_exists : bool) (stop_remaining : option Q) : verdict :=
  let s := intent_schedule i in
  let utc := checked valid_utc (clock_utc c) in
  let anchor := checked valid_utc (utc_anchor i) in
  let counters := match checked valid_counter (counter_anchor i), checked valid_counter (clock_counter c) with
                  | Some origin, Some observed => Some (origin, observed) | _, _ => None end in
  let by_utc := match utc, anchor with Some _, Some _ => true | _, _ => false end in
  if negb (is_at s) && bool_decide (checked valid_counter (counter_anchor i) = None ∧ anchor = None)
  then held "relative_origin_unanchored"
         "Original relative origin unavailable; reconcile the original deadline before creating a replacement intent"
  else
  match (if is_at s || by_utc then None else counters) with
  | Some (origin, observed) =>
    if continues origin observed
    then judge i file_exists stop_remaining "host_counter" (elapsed_lower origin observed) (elapsed_upper origin observed) (delay_of s)
    else held "counter_continuity_lost" "Original relative clock continuity lost; no rebase or dispatch authorized"
  | None =>
    match utc with
    | None => held (default "clock_unavailable" (clock_reason c)) clock_unavailable
    | Some u =>
      match s, utc_anchor i with
      | At due, _ => judge i file_exists stop_remaining "bounded_utc" (utc_lower u) (utc_upper u) due
      | _, Some a => judge i file_exists stop_remaining "bounded_utc" (utc_lower u) (utc_upper u) (utc_upper a + delay_of s)
      | _, None => held "relative_origin_unanchored" clock_unavailable
      end
    end
  end.
Definition eligibility (i : scheduling_intent) (c : clock) (file_exists : bool) : verdict :=
  match stop_at i with
  | None => by_evidence i c file_exists None
  | Some stop =>
    match checked valid_utc (clock_utc c) with
    | None => held "absolute_stop_time_unavailable" clock_unavailable
    | Some u =>
      if Qle_bool stop (utc_lower u)
      then {| v_state := "missed_deadline"; v_reason := "stop_reached"; v_alert := Some "Monitoring stop reached; dispatch prohibited"; v_bounds := None |}
      else if Qle_bool stop (utc_upper u) then held "stop_boundary_uncertain" clock_unavailable
      else by_evidence i c file_exists (Some (stop - utc_upper u))
    end
  end.
Definition dispatch_gate (i : scheduling_intent) (c : clock) (file_exists : bool) : verdict :=
  let v := eligibility i c file_exists in
  match v_bounds v with
  | Some b =>
    if bool_decide (v_state v = "due") && Qle_bool (dispatch_window_seconds b) 35
    then {| v_state := "pending_time"; v_reason := "dispatch_window_uncertain";
            v_alert := Some "Insufficient bounded dispatch window before expiry"; v_bounds := Some b |}
    else v
  | None => v
  end.
End Eligibility.

(** ** A due wake is due *)
Section Conservative.
Variables below above : Q → Q.
Hypothesis below_le : ∀ x, below x <= x.
Hypothesis le_above : ∀ x, x <= above x.

(** The evidence is what it claims to be: the request was made at [t0] and the
    wake is judged at [t], both in UTC; each bound holds its instant, and a
    continuous counter ran within its rate error, up to one tick at each end. *)
Record truthful (i : scheduling_intent) (c : clock) (t0 t : Q) : Prop := {
  truthful_order : t0 <= t;
  truthful_now u : clock_utc c = Some u → valid_utc u = true → utc_lower u <= t <= utc_upper u;
  truthful_anchor a : utc_anchor i = Some a → valid_utc a = true ∧ utc_lower a <= t0 <= utc_upper a;
  truthful_counter o n : counter_anchor i = Some o → clock_counter c = Some n → valid_counter o = true → valid_counter n = true →
    continues o n = true →
    inject_Z (count n - count o - 1) / (inject_Z (frequency o) * (1 + max_rate o n)) <= t - t0 <=
    inject_Z (count n - count o + 1) / (inject_Z (frequency o) * (1 - max_rate o n));
}.
Lemma Qlt_bool_iff a b : Qlt_bool a b = true ↔ a < b.
Proof.
  unfold Qlt_bool. rewrite negb_true_iff, <-not_true_iff_false, Qle_bool_iff. split; [apply Qnot_le_lt|apply Qlt_not_le].
Qed.
Lemma checked_Some {A} (valid : A → bool) x a : checked valid x = Some a ↔ x = Some a ∧ valid a = true.
Proof.
  unfold checked. destruct x as [b|]; simpl; [|split; [done|by intros [? _]]].
  destruct (valid b) eqn:Hv; split; [by intros [= <-]|by intros [[= <-] _]|done|intros [[= <-] Hb]; congruence].
Qed.

(** What a due judgement says of the bounds, with the window kept open. *)
Lemma judge_due i f stop m lo hi due : v_state (judge i f stop m lo hi due) = "due" →
  due <= lo ∧ hi < due + ttl_seconds i ∧ (∀ path, intent_schedule i = File path → f = true) ∧
  ∃ b, v_bounds (judge i f stop m lo hi due) = Some b ∧ dispatch_window_seconds b <= due + ttl_seconds i - hi ∧
    ∀ s, stop = Some s → dispatch_window_seconds b <= s.
Proof.
  unfold judge. cbv zeta.
  destruct (Qle_bool (due + ttl_seconds i) lo) eqn:H1; [done|].
  destruct (Qle_bool (due + ttl_seconds i) hi) eqn:H2; [done|].
  destruct (Qlt_bool (tolerance_seconds i) (hi - lo)); [done|].
  destruct (Qlt_bool lo due || _) eqn:H3; [done|]. intros _.
  apply orb_false_iff in H3 as [H3 Hfile]. split; [|split; [|split]].
  - unfold Qlt_bool in H3. by apply negb_false_iff, Qle_bool_iff in H3.
  - apply Qlt_bool_iff. unfold Qlt_bool. by rewrite H2.
  - intros path Hs. rewrite Hs in Hfile. by apply negb_false_iff in Hfile.
  - eexists. split; [reflexivity|]. simpl. destruct stop as [s|]; [|split; [apply Qle_refl|done]].
    destruct (Qle_bool _ s) eqn:Hle; [apply Qle_bool_iff in Hle|]; (split; [|intros ? [= <-]]); try apply Qle_refl; [done|].
    apply Qlt_le_weak, Qlt_bool_iff. unfold Qlt_bool. by rewrite Hle.
Qed.

(** The instant [u] lies within the bounds the judgement used. *)
Lemma evidence_due i c f stop t0 t : truthful i c t0 t → v_state (by_evidence below above i c f stop) = "due" →
  (∃ origin, (match intent_schedule i with At due => origin = due | s => t0 + delay_of s <= origin <= t0 + delay_of s + 300 end) ∧
     origin <= t ∧ ∃ hi, t <= hi ∧ hi < origin + ttl_seconds i ∧
     ∃ b, v_bounds (by_evidence below above i c f stop) = Some b ∧ dispatch_window_seconds b <= origin + ttl_seconds i - hi ∧
       ∀ s, stop = Some s → dispatch_window_seconds b <= s) ∧
  ∀ path, intent_schedule i = File path → f = true.
Proof.
  intros [Horder Hnow Hanchor Hcounter]. unfold by_evidence. cbv zeta.
  destruct (negb _ && _); [done|].
  assert (∀ u, checked valid_utc (clock_utc c) = Some u → utc_lower u <= t <= utc_upper u) as Hu
    by (intros u [? ?]%checked_Some; by apply Hnow).
  destruct (if is_at (intent_schedule i) || _ then _ else _) as [[o n]|] eqn:Hcounters.
  - destruct (is_at (intent_schedule i)) eqn:Hat; [done|]. simpl in Hcounters.
    destruct (match checked valid_utc (clock_utc c) with Some _ => _ | None => false end); [done|].
    destruct (checked valid_counter (counter_anchor i)) as [o'|] eqn:Ho; [|done].
    destruct (checked valid_counter (clock_counter c)) as [n'|] eqn:Hn; [|done]. injection Hcounters as -> ->.
    apply checked_Some in Ho as [Ho Hov], Hn as [Hn Hnv].
    destruct (continues o n) eqn:Hcont; [|done]. destruct (Hcounter o n Ho Hn Hov Hnv Hcont) as [Hlo Hhi].
    intros (Hdue & Hexp & Hfile & b & Hb & Hw & Hs)%judge_due. split; [|done].
    assert (elapsed_lower below o n <= t - t0) as Hlo'.
    { unfold elapsed_lower. cbv zeta. destruct (Qle_bool _ 0); [lra|]. eapply Qle_trans; [apply below_le|done]. }
    assert (t - t0 <= elapsed_upper above o n) as Hhi' by (unfold elapsed_upper; eapply Qle_trans; [done|apply le_above]).
    exists (t0 + delay_of (intent_schedule i)). split; [destruct (intent_schedule i); [|done|]; simpl; lra|].
    split; [lra|]. exists (t0 + elapsed_upper above o n). split; [lra|]. split; [lra|]. exists b. split; [done|]. split; [lra|done].
  - destruct (checked valid_utc (clock_utc c)) as [u|] eqn:Hcu; [|done]. destruct (Hu u eq_refl) as [Hul Huu].
    assert (∀ a, utc_anchor i = Some a → t0 <= utc_upper a <= t0 + 300) as Hanc.
    { intros a Ha. destruct (Hanchor a Ha) as [Hv Hb]. unfold valid_utc in Hv. rewrite !andb_true_iff, !Qle_bool_iff in Hv. lra. }
    destruct (intent_schedule i) as [d|due|path] eqn:Hsch.
    + destruct (utc_anchor i) as [a|]; [|done]. specialize (Hanc a eq_refl).
      intros (Hdue & Hexp & Hfile & b & Hb & Hw & Hs)%judge_due. split; [|done]. exists (utc_upper a + d). simpl in *.
      split; [lra|]. split; [lra|]. exists (utc_upper u). do 2 (split; [done|]). eauto.
    + intros (Hdue & Hexp & Hfile & b & Hb & Hw & Hs)%judge_due. split; [|done]. exists due.
      split; [done|]. split; [lra|]. exists (utc_upper u). do 2 (split; [done|]). eauto.
    + destruct (utc_anchor i) as [a|]; [|done]. specialize (Hanc a eq_refl).
      intros (Hdue & Hexp & Hfile & b & Hb & Hw & Hs)%judge_due. split; [|intros ? [= <-]; by apply (Hfile path)].
      exists (utc_upper a + 0). simpl in *. split; [lra|]. split; [lra|]. exists (utc_upper u). do 2 (split; [done|]). eauto.
Qed.

End Conservative.
