(* ===== verification/WakeRecords.v ===== *)
(** * Native wake records and the runtime interface

    [WakeRecords]: the wake record of a native intent (schemas 6 and 8 of
    src/src/codex_wake/native_intents.py and wake_policy.py) with one update
    function per field, and the values that the runtime adapter exchanges with
    the dispatch (runtime_delivery.py). *)
From Stdlib Require Import QArith.
From S2P Require Import Prelude Effects Json Sha256 Timestamps Permissions WakeClock.
Open Scope Z_scope.

(** ** Values of the runtime interface (runtime_delivery.py) *)
Record wake_target := {
  thread_id : string; codex_cmd : string; endpoint : string; resume_policy : string; startup_policy : option string;
  wake_route : option string;
}.
Record RuntimeRecipient := { recipient_version : Z; recipient_runtime : string; session_id : string; binding : json }.
Record RuntimeCapability := { capability_state : string; capability_reason : string }.
Record RuntimeObservation := {
  observation_state : string; observation_reason : string; capabilities : gmap string RuntimeCapability; resumed : bool;
}.
Record RuntimeSubmission := {
  submission_state : string; receipt_id : option string; evidence_kind : string; submission_reason : option string;
  failure : option json; exception_type : option string; pre_io : bool;
}.
Record RuntimeReconciliation := { found_evidence : option (list (string * json)); found_reason : option string }.
Record observation_summary := {
  summary_runtime : string; summary_session : string; summary_state : string; summary_reason : string;
  summary_capabilities : gmap string RuntimeCapability;
}.
(** An exception: its class, the state and reason of a [RuntimeTargetError], and
    the texts that an exception of a subprocess carries. *)
Record exception := { exception_class : string; target_error : option (string * string); stdout : option string; stderr : option string }.
Definition exception_of (class : string) : exception :=
  {| exception_class := class; target_error := None; stdout := None; stderr := None |}.
(** What a call of the adapter does: answer, raise an exception, or take the
    process down. *)
Inductive answer (A : Type) := Answer (a : A) | Throws (e : exception) | Killed.
Arguments Answer {A} _.
Arguments Throws {A} _.
Arguments Killed {A}.
Definition killed : string := "killed".

(** ** Records *)
Record owner := { owner_kind : string; owner_id : string }.
#[export] Instance owner_eq_dec : EqDecision owner.
Proof. solve_decision. Defined.
Record permission_context := {
  context_subject : string; context_role : string; context_tasks : list string; context_target : string;
  context_task_id : option string; context_revision : Z;
}.
(** [routed] holds the routes and the context of a policy of version 2. *)
Record wake_policy := {
  lifetime : string; policy_owner : option owner; owner_end : string; startup : string; configuration_revision : string;
  routed : option (list string * permission_context);
}.
Record completion := { completed_owner : owner; event_id : string; completion_state : string; completion_actor : string }.
Record delivery := {
  delivery_state : string; execution : string; submission_id : string; delivery_route : option string;
  prompt_sha256 : option string; queue_id : option json; submission_failure : option json;
  evidence : option (list (string * json)); reconciliation : option (string * option string);
}.
Record progress_entry := { entry_route : string; entry_reason : option string; entry_submission : string }.
Record progress := { next_route : nat; progress_history : list progress_entry }.
Record outcome := { outcome_state : string; outcome_reason : string; outcome_routes : list string }.
#[export] Instance outcome_eq_dec : EqDecision outcome.
Proof. solve_decision. Defined.
Record wake := {
  wake_id : string; status : string; attempts : Z; prompt : string; wake_to : wake_target; wake_root : string;
  intent : scheduling_intent; policy : option wake_policy; native_delivery : option delivery;
  wake_route_progress : option progress; policy_outcome : option outcome; runtime_observation : option observation_summary;
  time_recovery : verdict; permission_check : option (option decision); last_error : option string;
  owner_completion : option completion; events : list (string * option string);
}.
Definition set_status x (w : wake) := {| wake_id := wake_id w; status := x; attempts := attempts w; prompt := prompt w; wake_to := wake_to w;
  wake_root := wake_root w; intent := intent w; policy := policy w; native_delivery := native_delivery w; wake_route_progress := wake_route_progress w;
  policy_outcome := policy_outcome w; runtime_observation := runtime_observation w; time_recovery := time_recovery w;
  permission_check := permission_check w; last_error := last_error w; owner_completion := owner_completion w; events := events w |}.
Definition set_attempts x (w : wake) := {| wake_id := wake_id w; status := status w; attempts := x; prompt := prompt w; wake_to := wake_to w;
  wake_root := wake_root w; intent := intent w; policy := policy w; native_delivery := native_delivery w; wake_route_progress := wake_route_progress w;
  policy_outcome := policy_outcome w; runtime_observation := runtime_observation w; time_recovery := time_recovery w;
  permission_check := permission_check w; last_error := last_error w; owner_completion := owner_completion w; events := events w |}.
Definition set_delivery x (w : wake) := {| wake_id := wake_id w; status := status w; attempts := attempts w; prompt := prompt w; wake_to := wake_to w;
  wake_root := wake_root w; intent := intent w; policy := policy w; native_delivery := x; wake_route_progress := wake_route_progress w;
  policy_outcome := policy_outcome w; runtime_observation := runtime_observation w; time_recovery := time_recovery w;
  permission_check := permission_check w; last_error := last_error w; owner_completion := owner_completion w; events := events w |}.
Definition set_progress x (w : wake) := {| wake_id := wake_id w; status := status w; attempts := attempts w; prompt := prompt w; wake_to := wake_to w;
  wake_root := wake_root w; intent := intent w; policy := policy w; native_delivery := native_delivery w; wake_route_progress := x;
  policy_outcome := policy_outcome w; runtime_observation := runtime_observation w; time_recovery := time_recovery w;
  permission_check := permission_check w; last_error := last_error w; owner_completion := owner_completion w; events := events w |}.
Definition set_outcome x (w : wake) := {| wake_id := wake_id w; status := status w; attempts := attempts w; prompt := prompt w; wake_to := wake_to w;
  wake_root := wake_root w; intent := intent w; policy := policy w; native_delivery := native_delivery w; wake_route_progress := wake_route_progress w;
  policy_outcome := x; runtime_observation := runtime_observation w; time_recovery := time_recovery w;
  permission_check := permission_check w; last_error := last_error w; owner_completion := owner_completion w; events := events w |}.
Definition set_observation x (w : wake) := {| wake_id := wake_id w; status := status w; attempts := attempts w; prompt := prompt w; wake_to := wake_to w;
  wake_root := wake_root w; intent := intent w; policy := policy w; native_delivery := native_delivery w; wake_route_progress := wake_route_progress w;
  policy_outcome := policy_outcome w; runtime_observation := x; time_recovery := time_recovery w;
  permission_check := permission_check w; last_error := last_error w; owner_completion := owner_completion w; events := events w |}.
Definition set_recovery x (w : wake) := {| wake_id := wake_id w; status := status w; attempts := attempts w; prompt := prompt w; wake_to := wake_to w;
  wake_root := wake_root w; intent := intent w; policy := policy w; native_delivery := native_delivery w; wake_route_progress := wake_route_progress w;
  policy_outcome := policy_outcome w; runtime_observation := runtime_observation w; time_recovery := x;
  permission_check := permission_check w; last_error := last_error w; owner_completion := owner_completion w; events := events w |}.
Definition set_check x (w : wake) := {| wake_id := wake_id w; status := status w; attempts := attempts w; prompt := prompt w; wake_to := wake_to w;
  wake_root := wake_root w; intent := intent w; policy := policy w; native_delivery := native_delivery w; wake_route_progress := wake_route_progress w;
  policy_outcome := policy_outcome w; runtime_observation := runtime_observation w; time_recovery := time_recovery w;
  permission_check := x; last_error := last_error w; owner_completion := owner_completion w; events := events w |}.
Definition set_error x (w : wake) := {| wake_id := wake_id w; status := status w; attempts := attempts w; prompt := prompt w; wake_to := wake_to w;
  wake_root := wake_root w; intent := intent w; policy := policy w; native_delivery := native_delivery w; wake_route_progress := wake_route_progress w;
  policy_outcome := policy_outcome w; runtime_observation := runtime_observation w; time_recovery := time_recovery w;
  permission_check := permission_check w; last_error := x; owner_completion := owner_completion w; events := events w |}.
Definition set_completion x (w : wake) := {| wake_id := wake_id w; status := status w; attempts := attempts w; prompt := prompt w; wake_to := wake_to w;
  wake_root := wake_root w; intent := intent w; policy := policy w; native_delivery := native_delivery w; wake_route_progress := wake_route_progress w;
  policy_outcome := policy_outcome w; runtime_observation := runtime_observation w; time_recovery := time_recovery w;
  permission_check := permission_check w; last_error := last_error w; owner_completion := x; events := events w |}.
(** [records.append_event] with no time of its own. *)
Definition append_event (kind : string) (message : option string) (w : wake) := {| wake_id := wake_id w; status := status w; attempts := attempts w; prompt := prompt w;
  wake_to := wake_to w; wake_root := wake_root w; intent := intent w; policy := policy w; native_delivery := native_delivery w;
  wake_route_progress := wake_route_progress w; policy_outcome := policy_outcome w; runtime_observation := runtime_observation w;
  time_recovery := time_recovery w; permission_check := permission_check w; last_error := last_error w;
  owner_completion := owner_completion w; events := events w ++ [(kind, message)] |}.
