(* ===== verification/WakeDelivery.v ===== *)
(** * Delivering a native wake (src/src/codex_wake/native_delivery.py,
      permission_wake.py, native_intents.py, wake_policy.py)

    [WakeDelivery]: what the completion of its owner does to a wake, the
    evaluation that lets it fire, and the dispatch, which has the intent to
    submit on disk before it calls the runtime, along the frozen routes of a
    policy of version 2.  The record is one file that a write replaces at once.
    The surroundings answer for the runtime adapter, the clock and the
    permission files at every moment, and may fail or kill the process at every
    write and every call. *)
From Stdlib Require Import QArith.
From S2P Require Import Prelude Effects Json Sha256 Timestamps Permissions WakeClock WakeRecords.
Open Scope Z_scope.

(** ** Policies of wakes (wake_policy.py, permission_wake.py) *)
Definition LIFETIMES : list string := ["conversation"; "task"; "persistent"].
Definition OWNER_END : list string := ["retire"; "hold"; "retain"].
Definition STARTUP : list string := ["active_tab"; "background_saved"; "create_load_run"].
Definition ROUTES : list (string * string) := [
  ("background", "wake.background"); ("existing_tab", "wake.existing_tab"); ("new_tab", "wake.new_tab"); ("fresh_task", "wake.fresh_task")].
Definition route_action (route : string) : string := default "" (dict_get route ROUTES).
Definition lower_hex (c : Ascii.ascii) : bool :=
  let b := byte_of c in ((48 <=? b) && (b <=? 57)) || ((97 <=? b) && (b <=? 102)).
Definition valid_routes (routes : list string) : bool :=
  negb (bool_decide (routes = [])) && (Z.of_nat (length routes) <=? 4) &&
  forallb (λ x, bool_decide (x ∈ ROUTES.*1)) routes && bool_decide (NoDup routes).
Definition valid_context (c : permission_context) : bool :=
  nonempty (context_subject c) && nonempty (context_target c) &&
  bool_decide (context_role c ∈ ["operator"; "session"; "controller"]) && (Z.of_nat (length (context_tasks c)) <=? 256) &&
  forallb nonempty (context_tasks c) && match context_task_id c with Some t => nonempty t | None => true end &&
  (0 <? context_revision c).
Definition valid_owner (lifetime : string) (o : owner) : bool :=
  bool_decide (owner_kind o = lifetime) && (0 <? str_len (owner_id o)) && (str_len (owner_id o) <=? 256) &&
  forallb (λ c, 32 <=? c) (code_points (owner_id o)).
(** [wake_policy.valid]. *)
Definition valid (p : wake_policy) : bool :=
  bool_decide (lifetime p ∈ LIFETIMES) && bool_decide (owner_end p ∈ OWNER_END) && bool_decide (startup p ∈ STARTUP) &&
  all_chars lower_hex (configuration_revision p) && bool_decide (String.length (configuration_revision p) = 64%nat) &&
  match routed p with Some (routes, c) => valid_routes routes && valid_context c | None => true end &&
  match policy_owner p with
  | None => bool_decide (lifetime p = "persistent")
  | Some o => negb (bool_decide (lifetime p = "persistent")) && valid_owner (lifetime p) o
  end.
(** [permission_wake.valid_progress], on the entries' routes. *)
Fixpoint index_of (x : string) (l : list string) : option nat :=
  match l with [] => None | y :: l => if bool_decide (x = y) then Some 0%nat else S <$> index_of x l end.
Fixpoint ascending (routes : list string) (least : nat) (entries : list progress_entry) : option nat :=
  match entries with
  | [] => Some least
  | e :: entries => i ← index_of (entry_route e) routes; if (least <=? i)%nat then ascending routes (S i) entries else None
  end.
Definition no_progress : progress := {| next_route := 0; progress_history := [] |}.
Definition valid_progress (routes : list string) (p : progress) (d : option delivery) : bool :=
  (next_route p <=? length routes)%nat && (length (progress_history p) <=? length routes)%nat &&
  bool_decide (ascending routes 0 (progress_history p) = Some (next_route p)) &&
  match d with
  | Some d => match delivery_route d with Some r => bool_decide (r ∈ drop (next_route p) routes) | None => false end
  | None => true
  end.

(** [apply_owner_state], with the terminal event of the policy's owner: the
    reason that changed the record, if any. *)
Definition apply_owner_state (terminal : result string (option completion)) (w : wake) : result string (option string * wake) :=
  match policy w with
  | None => Done (None, w)
  | Some p =>
    if negb (valid p) then Done (None, w) else
    match policy_owner p with
    | None => Done (None, w)
    | Some o =>
      terminal ← terminal;
      match terminal with
      | None => Done (None, w)
      | Some t =>
      if bool_decide (owner_end p = "retain") then Done (None, w)
      else if negb (bool_decide (completed_owner t = o) && bool_decide (completion_state t = "completed") &&
                    nonempty (event_id t) && nonempty (completion_actor t)) then Raised "invalid_wake_owner_completion"
      else let w := set_completion (Some t) w in
      if bool_decide (delivery_state <$> native_delivery w = Some "uncertain") then Done (None, w)
      else if negb (bool_decide (status w ∈ ["pending"; "firing"])) then Done (None, w)
      else let retire := bool_decide (owner_end p = "retire") in
           let reason := if retire then "owner_completed_retired" else "owner_completed_review_required" in
           let w := set_status (if retire then "cancelled" else "pending") w in
           Done (Some reason, set_outcome (Some {| outcome_state := if retire then "retired" else "held"; outcome_reason := reason;
                                                   outcome_routes := [] |}) w)
      end
    end
  end.
(** [startup_reason]. *)
Definition startup_reason (w : wake) (o : RuntimeObservation) : option string :=
  match policy w with
  | None => None
  | Some p =>
    if negb (valid p) then Some "invalid_wake_policy"
    else if bool_decide (startup p = "active_tab") &&
            negb (bool_decide (capability_state <$> capabilities o !! "active_tab" = Some "supported")) then Some "active_tab_not_verified"
    else if negb (bool_decide (observation_state o = "ready")) && bool_decide (startup p = "create_load_run")
    then Some "recipient_startup_unavailable_or_unsupported"
    else None
  end.

(** [valid_scheduling_record]: the tests that typed records leave open. *)
Definition valid_record (w : wake) : bool :=
  bool_decide (status w ∈ ["pending"; "firing"; "submitted"; "failed"; "cancelled"; "expired"; "archived"]) &&
  (0 <=? attempts w) && negb (blank (prompt w)) &&
  Qlt_bool 0 (ttl_seconds (intent w)) && Qlt_bool 0 (tolerance_seconds (intent w)) && Qle_bool (tolerance_seconds (intent w)) 300 &&
  match counter_anchor (intent w) with Some c => valid_counter c | None => true end &&
  match utc_anchor (intent w) with Some u => valid_utc u | None => true end &&
  match intent_schedule (intent w) with After d => Qlt_bool 0 d | At _ => true | File path => is_absolute (parse_path path) end &&
  match native_delivery w with Some d => bool_decide (delivery_state d ∈ ["uncertain"; "accepted"]) | None => true end &&
  match policy w with
  | Some p => valid p && match routed p with
      | Some (routes, _) => valid_progress routes (default no_progress (wake_route_progress w)) (native_delivery w)
      | None => true end
  | None => true
  end.

(** [value or otherwise], of texts. *)
Definition first_truthy (x : option string) (otherwise : string) : string :=
  match x with Some t => if nonempty t then t else otherwise | None => otherwise end.

(** ** The surroundings *)
Section Dispatch.
Context {T : Type} {TT : Timestamp T}.

(** The record's file, and the calls of [submit] made for it: the submission,
    its text and route, what was on disk at that moment, and whether the adapter proved
    that no input or output was attempted. *)
Record sent_call := { sent_id : string; sent_text : string; sent_route : option string; on_disk : option delivery; proved_unsent : bool }.
Record store := { stored : wake; sent : list sent_call }.
Definition view : Type := Permissions.Env (T:=T) * world (T:=T).
(** The moments of a dispatch on the [k]-th route. *)
Inductive moment := First | Second | Last.
Record Env := {
  resolve : wake_target → answer RuntimeRecipient;
  observe : RuntimeRecipient → answer RuntimeObservation;
  submit : RuntimeRecipient → string → answer RuntimeSubmission;
  reconcile : RuntimeRecipient → string → answer RuntimeReconciliation;
  clock_at : nat → moment → clock * bool;     (* the clock, and whether the watched file exists *)
  below : Q → Q;
  above : Q → Q;
  permissions_at : nat → moment → view;
  uuid4 : nat → string;
  is_uuid : string → bool;
  write_fails : string → nat → option string;  (* before the replacement *)
  sync_fails : string → nat → option string;   (* after it *)
  terminal : result string (option completion);
  given_adapter : bool;                        (* or the runtime's own *)
  found_current : bool;                        (* the polled record is the stored one *)
  root : string;
}.
Local Notation perform := (effect store string).
Definition with_adapter (env : Env) : Env :=
  {| resolve := resolve env; observe := observe env; submit := submit env; reconcile := reconcile env; clock_at := clock_at env;
     below := below env; above := above env; permissions_at := permissions_at env; uuid4 := uuid4 env; is_uuid := is_uuid env;
     write_fails := write_fails env; sync_fails := sync_fails env; terminal := terminal env; given_adapter := true;
     found_current := found_current env; root := root env |}.
Definition set_stored (w : wake) (s : store) : store := {| stored := w; sent := sent s |}.
Definition log_call (c : sent_call) (s : store) : store := {| stored := stored s; sent := sent s ++ [c] |}.
(** [replace_record] of a record that keeps one file. *)
Definition replace_record (env : Env) (what : string) (k : nat) (w : wake) : perform () :=
  _ ← lift (touch (λ x, write_fails env x k) what);
  _ ← writing (set_stored w);
  lift (touch (λ x, sync_fails env x k) what).
Definition gate (env : Env) (k : nat) (m : moment) (w : wake) : verdict :=
  let '(c, exists_) := clock_at env k m in dispatch_gate (below env) (above env) (intent w) c exists_.
(** [WAKE_TRIGGER_ID=...], the prefix with its three lines. *)
Definition newline : string := String (chr 10) "".
Definition native_prompt (env : Env) (w : wake) : string :=
  ("WAKE_TRIGGER_ID=" +:+ wake_id w) +:+ newline +:+ ("WAKE_TRIGGER_ROOT=" +:+ root env) +:+ newline +:+
  match native_delivery w with
  | Some d => if nonempty (submission_id d) then ("WAKE_NATIVE_SUBMISSION_ID=" +:+ submission_id d) +:+ newline else ""
  | None => ""
  end +:+ prompt w.
Record DispatchResult := { dispatch_status : string; dispatch_message : string }.
Definition answered (status message : string) : DispatchResult := {| dispatch_status := status; dispatch_message := message |}.

(** ** Routes and permissions (permission_wake.py) *)
(** [RouteAdapter.resolve]: the exact target with the route's restrictions. *)
Definition routed_target (route : string) (t : wake_target) : wake_target :=
  {| thread_id := thread_id t; codex_cmd := codex_cmd t; endpoint := endpoint t; resume_policy := "hold";
     startup_policy := Some (if bool_decide (route = "existing_tab") then "active_tab" else "background_saved");
     wake_route := Some route |}.
Definition supported (route : string) (o : RuntimeObservation) : bool :=
  let is_supported name := bool_decide (capability_state <$> capabilities o !! name = Some "supported") in
  match capabilities o !! route_action route with
  | Some c => bool_decide (capability_state c = "supported")
  | None => if bool_decide (route = "existing_tab") then is_supported "active_tab"
            else bool_decide (route = "background") && is_supported "submit"
  end.
(** The exceptions that are a [PermissionDenied]. *)
Definition is_denial (e : string) : bool :=
  bool_decide (is_Some (strip_prefix "permission_" e)) ||
  bool_decide (e ∈ ["wake_permission_policy_unavailable"; "wake_recipient_changed"]).
Definition check_route (v : view) (root : string) (c : permission_context) (t : wake_target) (route : string) : result string (option decision) :=
  let '(permissions, w) := v in
  st ← open_store permissions root w;
  _ ← guard (active st w) "wake_permission_policy_unavailable";
  _ ← guard (bool_decide (context_target c = thread_id t)) "wake_recipient_changed";
  let p := {| subject := context_subject c; role := context_role c; tasks := context_tasks c; predecessor := None; ancestors := [] |} in
  _ ← guard (principal_ok p) "permission_identity_unverified";
  check_operation permissions (store_root st) (route_action route) p
    {| target := Some (thread_id t); relationship := None; task_id := context_task_id c; operation_id := None;
       capability := "not_observed"; readiness := "not_observed"; launch_profile := None |} w.

Definition summary (r : RuntimeRecipient) (o : RuntimeObservation) : observation_summary :=
  {| summary_runtime := recipient_runtime r; summary_session := session_id r; summary_state := observation_state o;
     summary_reason := observation_reason o; summary_capabilities := capabilities o |}.
Definition recipient_ok (t : wake_target) (r : RuntimeRecipient) : bool :=
  (recipient_version r =? 1) && bool_decide (recipient_runtime r = "codex") && bool_decide (session_id r = thread_id t).

(** What the attempts before the submission on one route come to, with the
    record as they leave it. *)
Inductive attempt :=
| Ready (r : RuntimeRecipient)
| Skip (reason : string)
| Stop (reason : string)
| NotDue (v : verdict)
| Dead.
Definition unavailable (route : string) : attempt := Stop (route +:+ ":observation_unavailable").
Definition permitted (env : Env) (k : nat) (m : moment) (c : permission_context) (route : string) (w : wake) (next : wake → wake * attempt) : wake * attempt :=
  match check_route (permissions_at env k m) (root env) c (wake_to w) route with
  | Done d =>
    let w := set_check (Some d) w in
    let v := gate env k m w in
    if bool_decide (v_state v = "due") then next w else (w, NotDue v)
  | Raised e => (w, if is_denial e then Skip (route +:+ ":" +:+ e) else unavailable route)
  end.
Definition prepare (env : Env) (k : nat) (c : permission_context) (route : string) (w : wake) : wake * attempt :=
  permitted env k First c route w (λ w,
    match resolve env (routed_target route (wake_to w)) with
    | Answer r =>
      if negb (recipient_ok (wake_to w) r) then (w, unavailable route) else
      match observe env r with
      | Answer o =>
        let w := set_observation (Some (summary r o)) w in
        if negb (supported route o) then (w, Skip (route +:+ ":unsupported"))
        else if negb (bool_decide (observation_state o = "ready")) then (w, Stop (route +:+ ":not_ready"))
        else permitted env k Second c route w (λ w, (w, Ready r))
      | Killed => (w, Dead)
      | _ => (w, unavailable route)
      end
    | Killed => (w, Dead)
    | _ => (w, unavailable route)
    end).

(** The time verdict that ends a dispatch. *)
Definition time_held (v : verdict) (w : wake) : wake :=
  set_recovery v (set_status (if bool_decide (v_state v = "missed_deadline") then "failed" else "pending") w).
Definition time_result (v : verdict) (w : wake) : DispatchResult :=
  answered (if bool_decide (status w = "failed") then "failed" else "requeued") (v_reason v).

(** ** Submission *)
Definition new_delivery (env : Env) (k : nat) (route : option string) : delivery :=
  {| delivery_state := "uncertain"; execution := "not_observed"; submission_id := uuid4 env k; delivery_route := route;
     prompt_sha256 := None; queue_id := None; submission_failure := None; evidence := None; reconciliation := None |}.
Definition with_prompt (sha : string) (d : delivery) : delivery :=
  {| delivery_state := delivery_state d; execution := execution d; submission_id := submission_id d; delivery_route := delivery_route d;
     prompt_sha256 := Some sha; queue_id := queue_id d; submission_failure := submission_failure d; evidence := evidence d;
     reconciliation := reconciliation d |}.
(** [submitted.failure or {'reason': submitted.reason or ...}]. *)
Definition with_failure (otherwise : string) (x : RuntimeSubmission) (d : delivery) : delivery :=
  {| delivery_state := delivery_state d; execution := execution d; submission_id := submission_id d; delivery_route := delivery_route d;
     prompt_sha256 := prompt_sha256 d; queue_id := queue_id d;
     submission_failure := Some (match failure x with
       | Some f => if json_truthy f then f else JObj [("reason", JStr (first_truthy (submission_reason x) otherwise))]
       | None => JObj [("reason", JStr (first_truthy (submission_reason x) otherwise))] end);
     evidence := evidence d; reconciliation := reconciliation d |}.
Definition accepted (x : RuntimeSubmission) (d : delivery) : delivery :=
  {| delivery_state := "accepted"; execution := execution d; submission_id := submission_id d; delivery_route := delivery_route d;
     prompt_sha256 := prompt_sha256 d; queue_id := JStr <$> receipt_id x; submission_failure := submission_failure d; evidence := evidence d;
     reconciliation := reconciliation d |}.
(** The record with the intent to submit. *)
Definition intending (env : Env) (k : nat) (route : option string) (event : string) (w : wake) : wake :=
  let w := set_delivery (Some (new_delivery env k route)) w in
  let sha := sha256 (native_prompt env w) in
  let w := set_delivery (with_prompt sha <$> native_delivery w) w in
  append_event "native_submission_started" (Some event) (set_attempts (attempts w + 1) w).
Definition uncertain_submission (reason : string) (kind : option string) (failed : option json) : RuntimeSubmission :=
  {| submission_state := "uncertain"; receipt_id := None; evidence_kind := "none"; submission_reason := Some reason; failure := failed;
     exception_type := kind; pre_io := false |}.
Definition denied_submission (e : string) : RuntimeSubmission :=
  {| submission_state := "not_sent"; receipt_id := None; evidence_kind := "none"; submission_reason := Some e; failure := None;
     exception_type := None; pre_io := true |}.
Definition proves_unsent (x : RuntimeSubmission) : bool := bool_decide (submission_state x = "not_sent") && pre_io x.
(** The acceptance that the core believes. *)
Definition checked_submission (env : Env) (x : RuntimeSubmission) : result exception RuntimeSubmission :=
  if negb (bool_decide (submission_state x = "accepted")) then Done x
  else if negb (bool_decide (evidence_kind x = "native_queue_acceptance")) then Raised (exception_of "WakeError")
  else match receipt_id x with
       | Some id => if is_uuid env id then Done x else Raised (exception_of "ValueError")
       | None => Raised (exception_of "TypeError")
       end.
(** The call of [submit] with the checks of its answer. *)
Definition submit_call (env : Env) (r : RuntimeRecipient) (w : wake) : perform (result exception RuntimeSubmission) :=
  let x := submit env r (native_prompt env w) in
  let unsent := match x with Answer x => proves_unsent x | _ => false end in
  _ ← writing (λ s, log_call {| sent_id := default "" (submission_id <$> native_delivery w); sent_text := native_prompt env w;
                                sent_route := native_delivery w ≫= delivery_route; on_disk := native_delivery (stored s);
                                proved_unsent := unsent |} s);
  match x with
  | Answer x => mret (checked_submission env x)
  | Throws e => mret (Raised e)
  | Killed => raise killed
  end.
(** [codex_runtime.submission_failure] of an exception without a result. *)
Fixpoint contains (phrase text : list Z) : bool :=
  bool_decide (take (length phrase) text = phrase) || match text with [] => false | _ :: text => contains phrase text end.
Definition hints : list (string * string) := [
  ("thread not found", "thread_not_found"); ("connection refused", "connection_refused"); ("permission denied", "permission_denied");
  ("unauthorized", "unauthorized"); ("unexpected argument", "cli_usage_error"); ("timed out", "timed_out")].
Definition output_summary (inspect : bool) (value : option string) : json :=
  let text := code_points (default "" value) in
  let lowered := (λ c, if (65 <=? c) && (c <=? 90) then c + 32 else c) <$> take 4096 text in
  JObj [("length", JInt (Z.of_nat (length text))); ("length_unit", JStr "characters"); ("truncated", JBool (4096 <? Z.of_nat (length text)));
        ("hints", JArr (if inspect then (λ '(_, hint), JStr hint) <$> filter (λ '(phrase, _), contains (code_points phrase) lowered) hints else []));
        ("raw_output", JStr "withheld")].
Definition submission_failure_of (reason : string) (e : exception) : json :=
  JObj [("version", JInt 1); ("reason", JStr reason); ("exception_type", JStr (exception_class e)); ("returncode", JNull);
        ("stdout", output_summary false (stdout e)); ("stderr", output_summary true (stderr e))].

(** What the last check on a route and the submission come to, with the record
    as they leave it. *)
Definition submit_on (env : Env) (k : nat) (c : permission_context) (route : string) (r : RuntimeRecipient) (w : wake) :
    perform (wake * RuntimeSubmission) :=
  match check_route (permissions_at env k Last) (root env) c (wake_to w) route with
  | Done d =>
    x ← submit_call env r w;
    mret (set_check (Some d) w, match x with Done x => x | Raised _ => uncertain_submission "adapter_outcome_unknown" None None end)
  | Raised e => mret (w, if is_denial e then denied_submission e else uncertain_submission "adapter_outcome_unknown" None None)
  end.
Definition not_sent (index : nat) (route : string) (x : RuntimeSubmission) (p : progress) (w : wake) : wake :=
  append_event "wake_route_not_sent" (Some ("definitive pre-I/O non-submission on " +:+ route))
    (set_delivery None (set_progress (Some {| next_route := S index; progress_history := progress_history p ++
       [{| entry_route := route; entry_reason := submission_reason x;
           entry_submission := default "" (submission_id <$> native_delivery w) |}] |}) w)).
(** No route is left. *)
Definition routes_held (env : Env) (k : nat) (reasons : list string) (w : wake) : perform DispatchResult :=
  let text := join "," reasons in
  let out := Some {| outcome_state := "held"; outcome_reason := "wake_route_unavailable"; outcome_routes := reasons |} in
  let w := set_status "pending" w in
  let w := if bool_decide (policy_outcome w = out) then w else append_event "wake_routes_held" (Some text) w in
  _ ← replace_record env "held" k (set_outcome out w);
  mret (answered "requeued" ("wake route unavailable: " +:+ text)).
(** The loop over the routes from the [index]-th on. *)
Fixpoint try_routes (env : Env) (c : permission_context) (routes : list string) (index : nat) (p : progress) (reasons : list string)
    (w : wake) : perform DispatchResult :=
  match routes with
  | [] => routes_held env index reasons w
  | route :: routes =>
    match prepare env index c route w with
    | (w, Dead) => raise killed
    | (w, Skip reason) => try_routes env c routes (S index) p (reasons ++ [reason]) w
    | (w, Stop reason) => routes_held env index (reasons ++ [reason]) w
    | (w, NotDue v) =>
      let w := time_held v w in
      catching (replace_record env "time" index w) (λ e, bool_decide (e = killed)) (λ _, mret (time_result v w))
        (λ _, routes_held env index (reasons ++ [route +:+ ":observation_unavailable"]) w)
    | (w, Ready r) =>
      let w := intending env index (Some route) ("wake route " +:+ route +:+ " submission intent") (set_outcome None w) in
      _ ← replace_record env "intent" index w;
      '(w, x) ← submit_on env index c route r w;
      if proves_unsent x then
        let w := not_sent index route x p w in
        _ ← replace_record env "not sent" index w;
        try_routes env c routes (S index) (default no_progress (wake_route_progress w)) reasons w
      else if negb (bool_decide (submission_state x = "accepted")) then
        let text := "uncertain wake route submission; reconcile before fallback" in
        _ ← replace_record env "uncertain" index (set_error (Some text) (set_delivery (with_failure "unknown" x <$> native_delivery w) w));
        mret (answered "skipped" text)
      else
        let w := append_event "native_accepted" (Some ("exact native queue accepted on " +:+ route))
          (set_delivery (accepted x <$> native_delivery w) (set_status "submitted" w)) in
        _ ← replace_record env "accepted" index w;
        mret (answered "submitted" "native queue accepted")
    end
  end.
(** ** Reconciliation (native_delivery.py) *)
Definition evidence_text (e : list (string * json)) (key : string) : option string :=
  match dict_get key e with Some (JStr t) => if nonempty t then Some t else None | _ => None end.
Definition evidence_ok (e : list (string * json)) : bool :=
  let has key := bool_decide (is_Some (evidence_text e key)) in
  match dict_get "source" e with
  | Some (JStr "native_queue") => has "client_message_id" && has "execution" && has "queue_id"
  | Some (JStr "native_turn") => has "client_message_id" && has "execution" && has "turn_id" && has "user_message_id"
  | _ => false
  end.
(** The evidence found and the reason given. *)
Definition look_up (env : Env) (target : wake_target) (w : wake) (d : delivery) : answer RuntimeReconciliation :=
  let text := native_prompt env w in
  let changed := match prompt_sha256 d with Some h => nonempty h && negb (bool_decide (h = sha256 text)) | None => false end in
  if changed then Throws (exception_of "WakeError") else
  match resolve env target with
  | Answer r =>
    if given_adapter env && negb (recipient_ok (wake_to w) r) then Throws (exception_of "WakeError") else
    match reconcile env r text with
    | Answer x => match found_evidence x with
                  | Some e => if evidence_ok e then Answer x else Throws (exception_of "WakeError")
                  | None => Answer x end
    | other => other
    end
  | Throws e => Throws e
  | Killed => Killed
  end.
Definition unresolved (reason : option string) (d : delivery) : delivery :=
  {| delivery_state := delivery_state d; execution := execution d; submission_id := submission_id d; delivery_route := delivery_route d;
     prompt_sha256 := prompt_sha256 d; queue_id := queue_id d; submission_failure := submission_failure d; evidence := evidence d;
     reconciliation := Some ("unresolved", reason) |}.
Definition reconciled (e : list (string * json)) (d : delivery) : delivery :=
  {| delivery_state := "accepted"; execution := default "" (evidence_text e "execution"); submission_id := submission_id d;
     delivery_route := delivery_route d; prompt_sha256 := prompt_sha256 d;
     queue_id := match dict_get "queue_id" e with Some q => if json_truthy q then Some q else queue_id d | None => queue_id d end;
     submission_failure := submission_failure d; evidence := Some e; reconciliation := Some ("resolved", None) |}.
(** [reconcile_native] with no current time. *)
Definition reconcile_native (env : Env) (target : wake_target) (w : wake) : perform DispatchResult :=
  match native_delivery w with
  | None => mret (answered "skipped" "native submission is not uncertain")
  | Some d =>
    if negb (bool_decide (delivery_state d = "uncertain")) then mret (answered "skipped" "native submission is not uncertain") else
    let settle x := match x with
      | (Some e, _) =>
        let w := append_event "native_reconciled" (Some "exact native evidence confirms acceptance; no resend")
                   (set_delivery (Some (reconciled e d)) (set_status "submitted" w)) in
        _ ← replace_record env "reconciled" 0 w;
        mret (answered "submitted" "native acceptance reconciled")
      | (None, reason) =>
        let w' := set_delivery (Some (unresolved reason d)) w in
        let w' := if bool_decide (reason = (reconciliation d ≫= snd)) then w' else append_event "native_unresolved" reason w' in
        _ ← replace_record env "unresolved" 0 w';
        mret (answered "skipped" "native submission unresolved; no resend")
      end in
    match look_up env target w d with
    | Answer x => settle (found_evidence x, found_reason x)
    | Throws e => settle (None, Some ("native_evidence_unavailable:" +:+ exception_class e))
    | Killed => raise killed
    end
  end.

(** ** Dispatch *)
Definition start_routes (env : Env) (routes : list string) (c : permission_context) (w : wake) : perform DispatchResult :=
  let p := default no_progress (wake_route_progress w) in
  if (next_route p <=? length routes)%nat then try_routes env c (drop (next_route p) routes) (next_route p) p [] w
  else mret (answered "skipped" "wake route progress invalid").
(** [permission_wake.dispatch_native]. *)
Definition dispatch_routes (env : Env) (routes : list string) (c : permission_context) (w : wake) : perform DispatchResult :=
  match native_delivery w with
  | Some d =>
    if bool_decide (delivery_state d = "uncertain") then
      match delivery_route d with
      | Some route => if bool_decide (route ∈ routes) then reconcile_native (with_adapter env) (routed_target route (wake_to w)) w
                      else mret (answered "skipped" "uncertain wake route invalid; no resend")
      | None => mret (answered "skipped" "uncertain wake route invalid; no resend")
      end
    else start_routes env routes c w
  | None => start_routes env routes c w
  end.
(** [permission_migration.legacy_wake_held]. *)
Definition legacy_wake_held (v : view) (root : string) (w : wake) : result string bool :=
  st ← open_store (fst v) root (snd v);
  Done (active st (snd v) && negb (bool_decide (is_Some (policy w ≫= routed))) &&
        negb (bool_decide (delivery_state <$> native_delivery w = Some "uncertain"))).
(** The observation without routes: the record it leaves, and the recipient
    when it is ready. *)
Definition observe_exact (env : Env) (w : wake) : wake * answer (option RuntimeRecipient) :=
  let failed e := let '(state, reason) := default ("unavailable", "runtime_observation_unavailable") (target_error e) in
    (set_observation (Some {| summary_runtime := "codex"; summary_session := thread_id (wake_to w); summary_state := state;
                              summary_reason := reason; summary_capabilities := ∅ |}) w, Answer None) in
  let target_failed state reason := failed {| exception_class := "RuntimeTargetError"; target_error := Some (state, reason);
                                              stdout := None; stderr := None |} in
  match resolve env (wake_to w) with
  | Answer r =>
    if negb (recipient_version r =? 1) then target_failed "unsupported" "unsupported_runtime_envelope_version"
    else if negb (recipient_ok (wake_to w) r) then target_failed "unavailable" "resolved_recipient_changed"
    else match observe env r with
         | Answer o =>
           let reason := startup_reason w o in
           let w := set_observation (Some (summary r o)) w in
           let w := match reason with Some t => set_outcome (Some {| outcome_state := "held"; outcome_reason := t; outcome_routes := [] |}) w
                                    | None => w end in
           let w := if resumed o then append_event "native_same_thread_resumed"
                      (Some "explicit workflow policy resumed its exact saved thread") w else w in
           (w, Answer (if bool_decide (observation_state o = "ready") && bool_decide (reason = None) then Some r else None))
         | Throws e => failed e
         | Killed => (w, Killed)
         end
  | Throws e => failed e
  | Killed => (w, Killed)
  end.
Definition native_time_held (env : Env) (k : nat) (v : verdict) (w : wake) : perform DispatchResult :=
  let w := append_event "native_time_held" (Some (v_reason v)) (time_held v w) in
  _ ← replace_record env "time" k w;
  mret (time_result v w).
(** The submission without routes. *)
Definition submit_exact (env : Env) (r : RuntimeRecipient) (w : wake) : perform DispatchResult :=
  let w := intending env 0 None "native queue submission started" w in
  _ ← replace_record env "intent" 0 w;
  x ← submit_call env r w;
  let x := match x with
    | Done x => x
    | Raised e => uncertain_submission "runtime_adapter_exception" (Some (exception_class e))
                    (Some (submission_failure_of "runtime_adapter_exception" e))
    end in
  if negb (bool_decide (submission_state x = "accepted")) then
    let text := "uncertain native submission: " +:+ first_truthy (exception_type x) "RuntimeSubmission" in
    let w := set_delivery (with_failure "runtime_submission_unconfirmed" x <$> native_delivery w) w in
    _ ← replace_record env "uncertain" 0 (append_event "native_uncertain" (Some text) (set_error (Some text) w));
    mret (answered "skipped" text)
  else
    let w := append_event "native_accepted" (Some "native queue accepted; execution not yet observed")
      (set_delivery (accepted x <$> native_delivery w) (set_status "submitted" w)) in
    _ ← replace_record env "accepted" 0 w;
    mret (answered "submitted" "native queue accepted").
(** [native_delivery.dispatch_native] of a scheduling intent. *)
Definition dispatch_native (env : Env) (w : wake) : perform DispatchResult :=
  held ← lift (legacy_wake_held (permissions_at env 0 First) (root env) w);
  if (held : bool) then mret (answered "skipped" "legacy_permission_adoption_required: retain original intent; resolve operator adoption")
  else match policy w ≫= routed with
  | Some (routes, c) => dispatch_routes env routes c w
  | None =>
    if bool_decide (delivery_state <$> native_delivery w = Some "uncertain") then reconcile_native env (wake_to w) w else
    let v := gate env 0 First w in
    if negb (bool_decide (v_state v = "due")) then native_time_held env 0 v w else
    match observe_exact env w with
    | (w, Answer (Some r)) =>
      let v := gate env 0 Second w in
      if negb (bool_decide (v_state v = "due")) then native_time_held env 0 v w else submit_exact env r w
    | (w, Answer None) =>
      let text := "exact recipient is not available and idle" in
      _ ← replace_record env "held" 0 (append_event "native_held" (Some text) (set_status "pending" w));
      mret (answered "requeued" text)
    | (_, _) => raise killed
    end
  end.
(** [native_intents.dispatch]. *)
Definition dispatch (env : Env) : perform DispatchResult :=
  w ← reading stored;
  if negb (valid_record w && bool_decide (status w = "firing") && found_current env && bool_decide (wake_root w = root env))
  then mret (answered "skipped" "native intent changed or root does not match")
  else if bool_decide (delivery_state <$> native_delivery w = Some "uncertain") && bool_decide (policy w ≫= routed = None)
  then reconcile_native env (wake_to w) w
  else dispatch_native env w.

(** ** Evaluation and completion of owners *)
Definition mode_of (v : verdict) : option string := mode <$> v_bounds v.
(** [native_intents.evaluate], with its one look at the clock. *)
Definition evaluate (env : Env) (c : clock) (file_exists : bool) : perform string :=
  w ← reading stored;
  if negb (valid_record w && bool_decide (status w = "pending") && bool_decide (wake_root w = root env)) then mret "pending" else
  let '(ended, w) := match apply_owner_state (terminal env) w with
    | Done x => x
    | Raised e => (Some e, w)
    end in
  match ended with
  | Some reason =>
    let w := set_outcome (Some {| outcome_state := if bool_decide (status w = "cancelled") then "retired" else "held";
                                  outcome_reason := reason; outcome_routes := [] |}) w in
    _ ← replace_record env "owner" 0 w;
    mret (status w)
  | None =>
    let v := eligibility (below env) (above env) (intent w) c file_exists in
    let previous := time_recovery w in
    let w := set_recovery v w in
    let w := if bool_decide (v_state previous = v_state v) && bool_decide (v_reason previous = v_reason v) &&
                bool_decide (mode_of previous = mode_of v)
             then w else append_event "time_recovery" (Some (v_reason v)) w in
    let w := if bool_decide (v_state v = "due") then set_status "firing" w
             else if bool_decide (v_state v = "missed_deadline") then set_status "failed" w else w in
    _ ← replace_record env "evaluated" 0 w;
    mret (status w)
  end.
(** What [complete_owner] does to one wake of the owner, under the wake's lock. *)
Definition complete_wake (env : Env) : perform (option (string * option string)) :=
  w ← reading stored;
  if negb (valid_record w) then mret None else
  '(reason, w) ← lift (apply_owner_state (terminal env) w);
  _ ← replace_record env "completed" 0 w;
  mret (Some (status w, reason)).
End Dispatch.
