(* ===== verification/WakeRules.v ===== *)
(** * What native delivery promises

    Over any history of evaluations, dispatches and owner completions of one
    wake, each of which may stop anywhere: at most one submission can have
    reached the runtime, each was on disk as an intent before it was sent, and
    the record stays one that its own reader accepts.  [triple] is the rule for
    the calls: what holds after a return, and after an exception or the end of
    the process. *)
From Stdlib Require Import QArith.
From S2P Require Import Prelude Effects Json Sha256 Timestamps Permissions PermissionRules WakeClock WakeRecords WakeDelivery.
Open Scope Z_scope.

(** ** Records *)
Definition statuses : list string := ["pending"; "firing"; "submitted"; "failed"; "cancelled"; "expired"; "archived"].
(** The part of [valid_record] that no operation changes. *)
Definition fixed_ok (w : wake) : bool :=
  negb (blank (prompt w)) &&
  Qlt_bool 0 (ttl_seconds (intent w)) && Qlt_bool 0 (tolerance_seconds (intent w)) && Qle_bool (tolerance_seconds (intent w)) 300 &&
  match counter_anchor (intent w) with Some c => valid_counter c | None => true end &&
  match utc_anchor (intent w) with Some u => valid_utc u | None => true end &&
  match intent_schedule (intent w) with After d => Qlt_bool 0 d | At _ => true | File path => is_absolute (parse_path path) end &&
  match policy w with Some p => valid p | None => true end.
Definition routes_of (w : wake) : option (list string) := fst <$> (policy w ≫= routed).
Definition progress_of (w : wake) : progress := default no_progress (wake_route_progress w).
Definition delivery_ok (w : wake) : Prop :=
  (∀ d, native_delivery w = Some d → delivery_state d = "uncertain" ∨ delivery_state d = "accepted") ∧
  (∀ routes, routes_of w = Some routes → valid_progress routes (progress_of w) (native_delivery w) = true).
Lemma valid_record_iff w : valid_record w = true ↔ status w ∈ statuses ∧ 0 <= attempts w ∧ fixed_ok w = true ∧ delivery_ok w.
Proof.
  unfold valid_record, fixed_ok, delivery_ok, routes_of, statuses, progress_of.
  rewrite !andb_true_iff, bool_decide_eq_true, Z.leb_le. destruct (native_delivery w) as [d|], (policy w) as [p|]; simpl;
    rewrite ?andb_true_iff, ?bool_decide_eq_true, ?elem_of_cons, ?elem_of_nil; try destruct (routed p) as [[routes c]|]; simpl; naive_solver.
Qed.
(** ** Records and their calls *)
Section Rules.
Context {T : Type} {TT : Timestamp T}.
Implicit Types (env : Env (T:=T)) (c : permission_context) (k : nat).

(** The fields that the validity and the effects of a record rest on. *)
Definition core (w : wake) :=
  (status w, attempts w, prompt w, intent w, policy w, native_delivery w, wake_route_progress w).
Lemma core_valid w w' : core w = core w' → valid_record w = valid_record w'.
Proof. unfold core. intros [= H1 H2 H3 H4 H5 H6 H7]. unfold valid_record. by rewrite H1, H2, H3, H4, H5, H6, H7. Qed.

(** A call of [submit] was on disk as an intent, with the hash of its text. *)
Definition call_ok (x : sent_call) : Prop :=
  ∃ d, on_disk x = Some d ∧ delivery_state d = "uncertain" ∧ submission_id d = sent_id x ∧ delivery_route d = sent_route x ∧
       prompt_sha256 d = Some (sha256 (sent_text x)).
(** The submissions that may have reached the runtime. *)
Definition unsafe (s : store) : nat := length (filter (λ x, proved_unsent x = false) (sent s)).
Definition effect_ok (n : nat) (w : wake) : Prop :=
  match native_delivery w with
  | None => n = 0%nat
  | Some d => (n <= 1)%nat ∧ (delivery_state d = "accepted" → status w ≠ "pending" ∧ status w ≠ "firing")
  end.
Definition good (n : nat) (w : wake) : Prop := valid_record w = true ∧ effect_ok n w.
Definition base (n : nat) (s : store) : Prop := Forall call_ok (sent s) ∧ unsafe s = n.
Definition rest (n : nat) (s : store) : Prop := base n s ∧ good n (stored s).
Definition inv (s : store) : Prop := rest (unsafe s) s.
Lemma rest_inv n s : rest n s → inv s.
Proof. intros [[? <-] ?]. by split. Qed.
Lemma core_good n w w' : core w = core w' → good n w → good n w'.
Proof.
  intros Hc [Hv He]. split; [by rewrite <-(core_valid _ _ Hc)|]. unfold core in Hc. injection Hc as Hs _ _ _ _ Hd _.
  unfold effect_ok in *. by rewrite <-Hd, <-Hs.
Qed.

Lemma replace_record_cases env what k w s r s' : replace_record env what k w s = (r, s') →
  (r = Done tt ∧ s' = set_stored w s) ∨ (∃ e, r = Raised e) ∧ (s' = s ∨ s' = set_stored w s).
Proof.
  unfold replace_record, mbind, effect_bind, lift, writing, touch.
  destruct (write_fails env what k), (sync_fails env what k); intros [= <- <-]; naive_solver.
Qed.
Lemma replace_rest env what k w n : good n w →
  triple (rest n) (replace_record env what k w) (λ _ s, rest n s ∧ stored s = w) (rest n).
Proof. intros Hw s r s' [Hb Hg] [[-> ->]|[[e ->] [->| ->]]]%replace_record_cases; done. Qed.
Lemma replace_next env what k w n : good n w →
  triple (rest n) (replace_record env what k w) (λ _ s, rest n s ∧ stored s = w) inv.
Proof. intros Hw. eapply triple_raised; [by apply replace_rest|apply rest_inv]. Qed.
(** A write that ends a call. *)
Lemma replace_ends {A} env what k w n (a : A) : good n w →
  triple (rest n) (_ ← replace_record env what k w; mret a) (λ _, inv) inv.
Proof.
  intros Hw. eapply triple_bind; [by apply replace_next|]. intros []. apply triple_ret. intros s [Hs _]. by apply (rest_inv n).
Qed.

(** The record with an intent is storable when nothing unsafe was sent. *)
Lemma intended_call env k route event w x : call_ok {|
   sent_id := default "" (submission_id <$> native_delivery (intending env k route event w)); sent_text := native_prompt env (intending env k route event w);
   sent_route := native_delivery (intending env k route event w) ≫= delivery_route; on_disk := native_delivery (intending env k route event w);
   proved_unsent := x |}.
Proof. eexists. split; [reflexivity|]. simpl. done. Qed.
Lemma unsafe_log x s : unsafe (log_call x s) = (unsafe s + if proved_unsent x then 0 else 1)%nat.
Proof.
  unfold unsafe, log_call. simpl. rewrite filter_app, length_app, filter_cons, filter_nil. destruct (proved_unsent x); by destruct (decide _).
Qed.

Lemma valid_progress_iff routes p d : valid_progress routes p d = true ↔
  (next_route p <= length routes)%nat ∧ (length (progress_history p) <= length routes)%nat ∧
  ascending routes 0 (progress_history p) = Some (next_route p) ∧
  ∀ d', d = Some d' → ∃ r, delivery_route d' = Some r ∧ r ∈ drop (next_route p) routes.
Proof.
  unfold valid_progress. rewrite !andb_true_iff, !Nat.leb_le, bool_decide_eq_true.
  destruct d as [d|]; simpl; [|naive_solver].
  destruct (delivery_route d) eqn:Hr; rewrite ?bool_decide_eq_true; naive_solver.
Qed.
(** A delivery on a route that is still open. *)
Definition route_open (w : wake) (d : delivery) : Prop :=
  ∀ routes, routes_of w = Some routes → ∃ r, delivery_route d = Some r ∧ r ∈ drop (next_route (progress_of w)) routes.
Lemma valid_route_open w d : valid_record w = true → native_delivery w = Some d → route_open w d.
Proof. intros (_ & _ & _ & _ & Hp)%valid_record_iff Hd routes Hr. apply Hp, valid_progress_iff in Hr as (_ & _ & _ & Hr). by apply Hr. Qed.
Lemma good_delivery n w w' d :
  valid_record w = true → core w' = (status w', attempts w', prompt w, intent w, policy w, Some d, wake_route_progress w) →
  status w' ∈ statuses → 0 <= attempts w' → route_open w d → (n <= 1)%nat →
  delivery_state d = "uncertain" ∨ delivery_state d = "accepted" ∧ status w' = "submitted" → good n w'.
Proof.
  intros Hv Hc Hs Ha Hr Hn Hd. unfold core in Hc. injection Hc as Hp Hi Hpo Hde Hpr.
  apply valid_record_iff in Hv as (_ & _ & Hf & _ & Hprog).
  assert (routes_of w' = routes_of w ∧ progress_of w' = progress_of w) as [Hro Hpro] by (unfold routes_of, progress_of; by rewrite Hpo, Hpr).
  split; [|unfold effect_ok; rewrite Hde; destruct Hd as [->|[-> ->]]; by split]. apply valid_record_iff. do 2 (split; [done|]). split.
  - unfold fixed_ok in *. by rewrite Hp, Hi, Hpo.
  - split; [intros ?; rewrite Hde; intros [= <-]; naive_solver|]. intros routes. rewrite Hro, Hpro, Hde. intros Hroutes.
    specialize (Hprog routes Hroutes). apply valid_progress_iff in Hprog as (? & ? & ? & _). apply valid_progress_iff.
    do 3 (split; [done|]). intros ? [= <-]. by apply Hr.
Qed.
(** A record without a delivery under another valid status. *)
Lemma good_status w w' : valid_record w = true → native_delivery w = None →
  core w' = (status w', attempts w, prompt w, intent w, policy w, None, wake_route_progress w) → status w' ∈ statuses → good 0 w'.
Proof.
  intros (_ & Ha & Hf & _ & Hp)%valid_record_iff Hd Hc Hs. unfold core in Hc. injection Hc as Hat Hpr Hi Hpo Hde Hpg.
  split; [|unfold effect_ok; by rewrite Hde]. apply valid_record_iff. split; [done|]. split; [by rewrite Hat|].
  unfold fixed_ok, delivery_ok, routes_of, progress_of in *. rewrite Hpr, Hi, Hpo, Hde, Hpg. split; [done|]. split; [done|].
  by rewrite <-Hd.
Qed.
Lemma statuses_in x : bool_decide (x ∈ statuses) = true → x ∈ statuses.
Proof. apply bool_decide_eq_true. Qed.
Lemma time_held_status v w : status (time_held v w) ∈ statuses.
Proof. unfold time_held. simpl. destruct (bool_decide _); by apply statuses_in. Qed.

Lemma intending_good env k route event n w : valid_record w = true → (n <= 1)%nat →
  route_open w (new_delivery env k route) → good n (intending env k route event w).
Proof.
  intros Hv Hn Hr. pose proof Hv as (Hs & Ha & _)%valid_record_iff.
  eapply (good_delivery n w); [done|reflexivity|done|simpl; lia| |done|by left]. intros routes Hroutes. by apply Hr.
Qed.
Lemma with_failure_good text x n w d : valid_record w = true → native_delivery w = Some d → delivery_state d = "uncertain" → (n <= 1)%nat →
  good n (set_delivery (with_failure text x <$> native_delivery w) w).
Proof.
  intros Hv Hd Hu Hn. pose proof Hv as (Hs & Ha & _)%valid_record_iff. pose proof (valid_route_open w d Hv Hd) as Hr. rewrite Hd.
  eapply (good_delivery n w); [done|reflexivity|done|done| |done|by left]. intros routes Hroutes. by apply Hr.
Qed.
Lemma accepted_good x n w d : valid_record w = true → native_delivery w = Some d → (n <= 1)%nat →
  good n (set_delivery (accepted x <$> native_delivery w) (set_status "submitted" w)).
Proof.
  intros Hv Hd Hn. pose proof Hv as (_ & Ha & _)%valid_record_iff. pose proof (valid_route_open w d Hv Hd) as Hr. rewrite Hd.
  eapply (good_delivery n w); [done|reflexivity|by apply statuses_in|done| |done|by right]. intros routes Hroutes. by apply Hr.
Qed.

(** ** The submission *)
Lemma checked_submission_Done env x y : checked_submission env x = Done y → y = x.
Proof. unfold checked_submission. repeat case_match; naive_solver. Qed.
Lemma unsent_checked env x : proves_unsent x = true → checked_submission env x = Done x.
Proof.
  unfold proves_unsent, checked_submission. rewrite andb_true_iff, bool_decide_eq_true. intros [-> _]. done.
Qed.
(** After the call: at most one submission is unsafe, none if it is proved unsent. *)
Definition after_call (w : wake) (unsent : bool) (s : store) : Prop :=
  stored s = w ∧ ∃ n, (n <= 1)%nat ∧ rest n s ∧ (unsent = true → n = 0%nat).
Lemma submit_call_rest env r k route event w : let w' := intending env k route event w in
  (∀ n, (n <= 1)%nat → good n w') →
  triple (λ s, rest 0 s ∧ stored s = w') (submit_call env r w')
    (λ x, after_call w' (match x with Done y => proves_unsent y | Raised _ => false end)) inv.
Proof.
  intros w' Hgood. unfold submit_call. set (unsent := match submit env r _ with Answer x => proves_unsent x | _ => false end).
  eapply (triple_bind _ _ (λ _ s, stored s = w' ∧ rest (if unsent then 0 else 1)%nat s)).
  - apply triple_writing. intros s [[[Hcalls Hn] _] Hw]. split; [done|]. split; [split|].
    + apply Forall_app. split; [done|]. apply Forall_singleton. rewrite Hw. apply intended_call.
    + rewrite unsafe_log, Hn. by destruct unsent.
    + simpl. rewrite Hw. apply Hgood. destruct unsent; lia.
  - intros []. destruct (submit env r _) as [x|e|] eqn:Hx; subst unsent.
    + apply triple_ret. intros s [Hw Hs]. split; [done|]. eexists. split; [|split; [exact Hs|]]; [destruct (proves_unsent x); lia|].
      destruct (checked_submission env x) as [y|] eqn:Hy; [|done]. apply checked_submission_Done in Hy as ->. by intros ->.
    + apply triple_ret. intros s [Hw Hs]. split; [done|]. exists 1%nat. split; [lia|]. by split.
    + apply triple_raise. intros s [_ Hs]. by eapply rest_inv.
Qed.
Lemma submit_on_rest env k c route r event w : let w' := intending env k (Some route) event w in
  (∀ n, (n <= 1)%nat → good n w') →
  triple (λ s, rest 0 s ∧ stored s = w') (submit_on env k c route r w')
    (λ x s, core (fst x) = core w' ∧ submission_id <$> native_delivery (fst x) = submission_id <$> native_delivery w' ∧
            after_call w' (proves_unsent (snd x)) s) inv.
Proof.
  intros w' Hgood. unfold submit_on. destruct (check_route _ _ c (wake_to w') route) as [d|e].
  - eapply triple_bind; [by apply submit_call_rest|]. intros x. apply triple_ret. intros s (Hw & n & Hn & Hs & Hu).
    do 2 (split; [done|]). split; [done|]. exists n. do 2 (split; [done|]). destruct x; simpl; [done|]. done.
  - apply triple_ret. intros s [Hs Hw]. do 2 (split; [done|]). split; [done|]. exists 0%nat. split; [lia|]. done.
Qed.
Lemma prepare_core env k c route w w' a : prepare env k c route w = (w', a) → core w' = core w.
Proof. unfold prepare, permitted. intros H. repeat case_match; simplify_eq; done. Qed.

(** ** The loop over the routes *)
Lemma index_of_lookup routes i route : NoDup routes → routes !! i = Some route → index_of route routes = Some i.
Proof.
  intros Hnd. revert i. induction Hnd as [|x routes Hx Hnd IH]; intros [|i] Hi; simplify_eq/=.
  - by rewrite bool_decide_true.
  - rewrite bool_decide_false; [by rewrite (IH i)|]. intros ->. apply Hx. by eapply list_elem_of_lookup_2.
Qed.
Lemma ascending_snoc routes entries least m i e : ascending routes least entries = Some m → index_of (entry_route e) routes = Some i →
  (m <= i)%nat → ascending routes least (entries ++ [e]) = Some (S i).
Proof.
  revert least. induction entries as [|e' entries IH]; simpl; intros least Hm Hi Hle; simplify_eq.
  - rewrite Hi. simpl. by rewrite (proj2 (Nat.leb_le _ _) Hle).
  - destruct (index_of (entry_route e') routes) as [j|]; [|done]. simpl in *. destruct (least <=? j)%nat; [|done]. by apply IH.
Qed.
Lemma ascending_length routes entries least m : ascending routes least entries = Some m → (least + length entries <= m)%nat.
Proof.
  revert least. induction entries as [|e entries IH]; simpl; intros least Hm; simplify_eq; [lia|].
  destruct (index_of _ routes) as [j|]; [|done]. simpl in Hm. destruct (least <=? j)%nat eqn:Hj; [|done].
  apply Nat.leb_le in Hj. apply IH in Hm. lia.
Qed.
Lemma routes_nodup w all : valid_record w = true → routes_of w = Some all → NoDup all.
Proof.
  intros (_ & _ & Hf & _)%valid_record_iff. unfold routes_of, fixed_ok in *. apply andb_true_iff in Hf as [_ Hf].
  destruct (policy w) as [q|]; [|done]. simpl. destruct (routed q) as [[l c]|] eqn:Hq; [|done]. intros [= <-].
  unfold valid in Hf. rewrite Hq in Hf. rewrite !andb_true_iff in Hf. destruct Hf as [[_ [Hr _]] _].
  unfold valid_routes in Hr. rewrite !andb_true_iff, !bool_decide_eq_true in Hr. by destruct Hr as [_ ?].
Qed.
Lemma not_sent_good index route x w all : valid_record w = true → routes_of w = Some all → all !! index = Some route →
  (next_route (progress_of w) <= index)%nat → good 0 (not_sent index route x (progress_of w) w).
Proof.
  intros Hv Hall Hi Hle. pose proof (routes_nodup w all Hv Hall) as Hnd. apply valid_record_iff in Hv as (Hs & Ha & Hf & _ & Hp).
  split; [|done]. apply valid_record_iff. do 3 (split; [done|]). split; [done|]. intros routes Hroutes.
  change (routes_of w = Some routes) in Hroutes. assert (routes = all) as -> by congruence. specialize (Hp all Hall).
  apply valid_progress_iff in Hp as (Hn & Hh & Hasc & _). apply lookup_lt_Some in Hi as Hlt.
  apply valid_progress_iff. simpl. split; [lia|].
  set (e := {| entry_route := route; entry_reason := _; entry_submission := _ |}).
  assert (ascending all 0 (progress_history (progress_of w) ++ [e]) = Some (S index)) as Hnew
    by (eapply ascending_snoc; [exact Hasc|by apply index_of_lookup|done]).
  split; [apply ascending_length in Hnew; simpl in Hnew; lia|]. split; [exact Hnew|done].
Qed.
(** Where the loop stands. *)
Record looping (all routes : list string) (index : nat) (p : progress) (w : wake) : Prop := {
  looping_valid : valid_record w = true;
  looping_free : native_delivery w = None;
  looping_all : routes_of w = Some all;
  looping_progress : progress_of w = p;
  looping_next : (next_route p <= index)%nat;
  looping_rest : routes = drop index all;
}.
Lemma core_looping all routes index p w w' : core w' = core w → looping all routes index p w → looping all routes index p w'.
Proof.
  intros Hc [Hv Hf Ha Hp Hn Hr]. rewrite <-(core_valid w' w Hc) in Hv. unfold core in Hc. injection Hc as _ _ _ _ Hpo Hde Hpr.
  split; unfold routes_of, progress_of in *; congruence.
Qed.
Lemma looping_step all route routes index p w : looping all (route :: routes) index p w →
  all !! index = Some route ∧ routes = drop (S index) all.
Proof.
  intros [_ _ _ _ _ Hr]. split.
  - rewrite <-(Nat.add_0_r index), <-lookup_drop, <-Hr. done.
  - by rewrite <-(Nat.add_1_r index), <-drop_drop, <-Hr.
Qed.
Lemma routes_held_inv env k reasons w : valid_record w = true → native_delivery w = None →
  triple (rest 0) (routes_held env k reasons w) (λ _, inv) inv.
Proof.
  intros Hv Hd. unfold routes_held. apply replace_ends. apply (good_status w); [done|done| |].
  - destruct (bool_decide _); unfold core; simpl; by rewrite Hd.
  - destruct (bool_decide _); by apply statuses_in.
Qed.

(** The end of a submission that is not proved unsent. *)
Lemma ending {A} env what k w n (a : A) P : (∀ s, P s → ∃ m, (m <= n)%nat ∧ rest m s) → (∀ m, (m <= n)%nat → good m w) →
  triple P (_ ← replace_record env what k w; mret a) (λ _, inv) inv.
Proof.
  intros HP Hw s r s' Hs. destruct (HP s Hs) as (m & Hm & Hrest). apply (replace_ends env what k w m a); [by apply Hw|done].
Qed.
Lemma try_routes_inv env c routes all index p reasons w : looping all routes index p w →
  triple (rest 0) (try_routes env c routes index p reasons w) (λ _, inv) inv.
Proof.
  revert index p reasons w. induction routes as [|route routes IH]; intros index p reasons w Hl; simpl.
  { apply routes_held_inv; apply Hl. }
  destruct (prepare env index c route w) as [w1 a] eqn:Hprep. apply prepare_core in Hprep.
  pose proof (core_looping _ _ _ _ _ _ Hprep Hl) as Hl1. apply looping_step in Hl as [Hroute Hrest].
  assert (looping all routes (S index) p w1) as Hskip by (destruct Hl1; split; [done..|lia|done]).
  destruct a as [r|reason|reason|v|].
  - set (w2 := intending env index (Some route) _ _).
    assert (∀ n, (n <= 1)%nat → good n w2) as Hgood.
    { intros n Hn. apply intending_good; [apply Hl1|done|]. intros routes' Hr. change (routes_of w1 = Some routes') in Hr.
      change (∃ r, Some route = Some r ∧ r ∈ drop (next_route (progress_of w1)) routes'). exists route. split; [done|].
      destruct Hl1 as [_ _ Ha Hp Hnext _]. assert (routes' = all) as -> by congruence. rewrite Hp.
      apply list_elem_of_lookup. exists (index - next_route p)%nat. rewrite lookup_drop.
      by replace (next_route p + (index - next_route p))%nat with index by lia. }
    eapply triple_bind; [apply replace_next; apply Hgood; lia|]. intros []. eapply triple_bind; [by apply submit_on_rest|].
    intros [w3 x]. simpl. apply triple_assume. intros Hw3. apply triple_assume. intros _.
    assert (valid_record w3 = true) as Hv3 by (rewrite (core_valid w3 w2 Hw3); apply (Hgood 0%nat); lia).
    assert (routes_of w3 = Some all ∧ progress_of w3 = p) as [Ha3 Hp3].
    { unfold core in Hw3. injection Hw3 as _ _ _ _ Hpo Hde Hpr. destruct Hl1 as [_ _ Ha Hp _ _].
      unfold routes_of, progress_of in *. rewrite Hpo, Hpr. done. }
    assert (∃ d, native_delivery w3 = Some d ∧ delivery_state d = "uncertain") as (d & Hd & Hu).
    { unfold core in Hw3. injection Hw3 as _ _ _ _ _ Hde _. rewrite Hde. by eexists. }
    destruct (proves_unsent x) eqn:Hx; [|destruct (negb _)].
    + pose proof (not_sent_good index route x w3 all Hv3 Ha3 Hroute) as Hnot. rewrite Hp3 in Hnot.
      specialize (Hnot (looping_next _ _ _ _ _ Hl1)).
      eapply triple_pre; [intros s (_ & n & _ & Hs & Hn); rewrite (Hn eq_refl) in Hs; exact Hs|].
      eapply triple_bind; [by apply replace_next|]. intros [].
      eapply triple_pre; [intros s [Hs _]; exact Hs|]. apply IH. by split; [apply Hnot|..].
    + apply (ending _ _ _ _ 1); [intros s (_ & n & Hn & Hs & _); by exists n|]. intros n Hn.
      by apply (core_good n (set_delivery (with_failure "unknown" x <$> native_delivery w3) w3)), (with_failure_good _ _ _ _ d).
    + apply (ending _ _ _ _ 1); [intros s (_ & n & Hn & Hs & _); by exists n|]. intros n Hn.
      by apply (core_good n (set_delivery (accepted x <$> native_delivery w3) (set_status "submitted" w3))), (accepted_good _ _ _ d).
  - by apply IH.
  - apply routes_held_inv; apply Hl1.
  - assert (good 0 (time_held v w1)) as Hheld.
    { apply (good_status w1); [apply Hl1|apply Hl1| |apply time_held_status]. unfold core. simpl. by rewrite (looping_free _ _ _ _ _ Hl1). }
    eapply triple_catching; [by apply replace_rest| |intros e _; apply routes_held_inv|by apply rest_inv].
    + intros []. apply triple_ret. intros s [Hs _]. by eapply rest_inv.
    + apply Hheld.
    + exact (looping_free _ _ _ _ _ Hl1).
  - apply triple_raise. intros s Hs. by eapply rest_inv.
Qed.

(** ** The other calls *)
Lemma reconcile_native_inv env target w n : good n w → (n <= 1)%nat →
  triple (rest n) (reconcile_native env target w) (λ _, inv) inv.
Proof.
  intros [Hv He] Hn. unfold reconcile_native.
  assert (∀ s, rest n s → inv s) as Hinv by (intros s; apply rest_inv).
  destruct (native_delivery w) as [d|] eqn:Hd; [|by apply triple_ret].
  destruct (bool_decide (delivery_state d = "uncertain")) eqn:Hu; simpl; [|by apply triple_ret].
  apply bool_decide_eq_true in Hu. pose proof Hv as (Hs & Ha & _)%valid_record_iff. pose proof (valid_route_open w d Hv Hd) as Hr.
  assert (∀ x : option (list (string * json)) * option string, triple (rest n)
    (match x with
     | (Some e, _) => let w := append_event "native_reconciled" (Some "exact native evidence confirms acceptance; no resend")
                   (set_delivery (Some (reconciled e d)) (set_status "submitted" w)) in
        _ ← replace_record env "reconciled" 0 w; mret (answered "submitted" "native acceptance reconciled")
     | (None, reason) => let w' := set_delivery (Some (unresolved reason d)) w in
        let w' := if bool_decide (reason = (reconciliation d ≫= snd)) then w' else append_event "native_unresolved" reason w' in
        _ ← replace_record env "unresolved" 0 w'; mret (answered "skipped" "native submission unresolved; no resend")
     end) (λ _, inv) inv) as Hsettle.
  { intros [[e|] reason]; apply replace_ends.
    - eapply (good_delivery n w _ (reconciled e d)); [done|reflexivity|by apply statuses_in|done| |done|by right].
      intros routes Hroutes. by apply Hr.
    - apply (core_good n (set_delivery (Some (unresolved reason d)) w)); [by destruct (bool_decide _)|].
      eapply (good_delivery n w _ (unresolved reason d)); [done|reflexivity|done|done| |done|by left]. intros routes Hroutes. by apply Hr. }
  destruct (look_up env target w d) as [x|e|]; [apply (Hsettle (_, _))|apply (Hsettle (None, _))|by apply triple_raise].
Qed.
Lemma observe_exact_core env w w' a : observe_exact env w = (w', a) → core w' = core w.
Proof. unfold observe_exact. intros H. repeat case_match; simplify_eq; done. Qed.
Lemma routes_of_None w : policy w ≫= routed = None → routes_of w = None.
Proof. unfold routes_of. by intros ->. Qed.
Lemma submit_exact_inv env r w : valid_record w = true → native_delivery w = None → routes_of w = None →
  triple (rest 0) (submit_exact env r w) (λ _, inv) inv.
Proof.
  intros Hv Hd Hr. unfold submit_exact. set (w1 := intending env 0 None _ w).
  assert (∀ n, (n <= 1)%nat → good n w1) as Hgood.
  { intros n Hn. apply intending_good; [done|done|]. intros routes Hroutes. congruence. }
  eapply triple_bind; [apply replace_next; apply Hgood; lia|]. intros []. eapply triple_bind; [by apply submit_call_rest|].
  intros x. set (x' := match x with Done x => x | Raised e => _ end).
  assert (valid_record w1 = true) as Hv1 by (apply (Hgood 0%nat); lia).
  destruct (negb _); (apply (ending _ _ _ _ 1); [intros s (_ & n & Hn & Hs & _); by exists n|]); intros n Hn.
  - apply (core_good n (set_delivery (with_failure "runtime_submission_unconfirmed" x' <$> native_delivery w1) w1)); [done|].
    by eapply with_failure_good.
  - apply (core_good n (set_delivery (accepted x' <$> native_delivery w1) (set_status "submitted" w1))); [done|].
    by eapply accepted_good.
Qed.
Lemma native_time_held_inv env k v w : valid_record w = true → native_delivery w = None →
  triple (rest 0) (native_time_held env k v w) (λ _, inv) inv.
Proof.
  intros Hv Hd. unfold native_time_held. apply replace_ends. apply (good_status w); [done|done| |apply (time_held_status v w)].
  unfold core. simpl. by rewrite Hd.
Qed.
Lemma start_routes_inv env all c w : valid_record w = true → native_delivery w = None → routes_of w = Some all →
  triple (rest 0) (start_routes env all c w) (λ _, inv) inv.
Proof.
  intros Hv Hd Hr. unfold start_routes. case_match; [|apply triple_ret; intros s; apply rest_inv].
  eapply try_routes_inv. by split.
Qed.

(** A wake that may still act has no delivery or an uncertain one. *)
Lemma good_active n w : good n w → status w = "pending" ∨ status w = "firing" →
  (native_delivery w = None ∧ n = 0%nat) ∨ (n <= 1)%nat ∧ delivery_state <$> native_delivery w = Some "uncertain".
Proof.
  intros [(_ & _ & _ & Hd & _)%valid_record_iff He] Hs. unfold effect_ok in He. destruct (native_delivery w) as [d|]; [right|by left].
  destruct (Hd d eq_refl) as [Hu|Ha]; [split; [by destruct He|by simpl; rewrite Hu]|]. apply He in Ha. naive_solver.
Qed.
Lemma dispatch_native_inv env w n : good n w → status w = "firing" → triple (rest n) (dispatch_native env w) (λ _, inv) inv.
Proof.
  intros Hg Hs. pose proof Hg as [Hv _]. assert (∀ s, rest n s → inv s) as Hinv by (intros s; apply rest_inv).
  unfold dispatch_native. eapply triple_bind; [apply (triple_lift _ _ (λ _, rest n)); [by intros|done]|]. intros held.
  destruct held; [by apply triple_ret|]. destruct (good_active n w Hg (or_intror Hs)) as [[Hd ->]|[Hn Hu]].
  - rewrite Hd. simpl. destruct (policy w ≫= routed) as [[all c]|] eqn:Hp.
    + unfold dispatch_routes. rewrite Hd. apply start_routes_inv; [done|done|]. unfold routes_of. by rewrite Hp.
    + apply routes_of_None in Hp. destruct (negb _); [by apply native_time_held_inv|].
      destruct (observe_exact env w) as [w1 a] eqn:Ho. apply observe_exact_core in Ho as Hc.
      pose proof Hc as Hc'. unfold core in Hc'. injection Hc' as _ _ _ _ Hpo Hde _.
      assert (valid_record w1 = true ∧ native_delivery w1 = None ∧ routes_of w1 = None) as (Hv1 & Hd1 & Hr1).
      { rewrite (core_valid _ _ Hc), Hde. unfold routes_of in *. by rewrite Hpo. }
      destruct a as [[r|]|e|]; [destruct (negb _); [by apply native_time_held_inv|by apply submit_exact_inv]| | |];
        try (by apply triple_raise).
      apply replace_ends. apply (good_status w1); [done|done| |by apply statuses_in]. unfold core. simpl. by rewrite Hd1.
  - destruct (policy w ≫= routed) as [[all c]|].
    + unfold dispatch_routes. destruct (native_delivery w) as [d|]; [|done]. simpl in Hu. injection Hu as Hu. rewrite bool_decide_true by done.
      destruct (delivery_route d) as [route|]; [|by apply triple_ret]. destruct (bool_decide _); [|by apply triple_ret].
      by apply reconcile_native_inv.
    + rewrite bool_decide_true by done. by apply reconcile_native_inv.
Qed.
Lemma dispatch_inv env : triple inv (dispatch env) (λ _, inv) inv.
Proof.
  intros s r s' Hs. change (dispatch env s) with ((if negb (valid_record (stored s) && bool_decide (status (stored s) = "firing") && found_current env &&
    bool_decide (wake_root (stored s) = root env)) then mret (answered "skipped" "native intent changed or root does not match")
    else if bool_decide (delivery_state <$> native_delivery (stored s) = Some "uncertain") && bool_decide (policy (stored s) ≫= routed = None)
    then reconcile_native env (wake_to (stored s)) (stored s) else dispatch_native env (stored s)) s).
  destruct (negb _) eqn:Hn; [by intros [= <- <-]|]. apply negb_false_iff in Hn. rewrite !andb_true_iff, !bool_decide_eq_true in Hn.
  destruct Hn as [[[_ Hf] _] _]. pose proof Hs as [_ Hg].
  destruct (good_active _ _ Hg (or_intror Hf)) as [[Hd H0]|[Hn Hu]].
  - rewrite Hd. apply (dispatch_native_inv env (stored s) (unsafe s) Hg Hf s r s' Hs).
  - destruct (_ && _); [by apply (reconcile_native_inv env (wake_to (stored s)) (stored s) (unsafe s) Hg Hn s r s')|].
    apply (dispatch_native_inv env (stored s) (unsafe s) Hg Hf s r s' Hs).
Qed.
Lemma apply_owner_good n t w reason w' : good n w → apply_owner_state t w = Done (reason, w') → good n w'.
Proof.
  intros Hg. unfold apply_owner_state. destruct (policy w) as [p|]; [|by intros [= _ <-]].
  destruct (negb (valid p)); [by intros [= _ <-]|]. destruct (policy_owner p) as [o|]; [|by intros [= _ <-]].
  destruct t as [[t|]|e]; simpl; [|by intros [= _ <-]|done].
  destruct (bool_decide (owner_end p = "retain")); [by intros [= _ <-]|]. destruct (negb _); [done|].
  destruct (bool_decide (_ = Some "uncertain")) eqn:Hu; [by intros [= _ <-]; apply (core_good n w)|].
  destruct (bool_decide (status _ ∈ _)) eqn:Hs; simpl; [|by intros [= _ <-]; apply (core_good n w)].
  apply bool_decide_eq_true in Hs. apply bool_decide_eq_false in Hu. simpl in *.
  destruct (good_active n w Hg) as [[Hd ->]|[_ ?]]; [set_solver| |done]. destruct Hg as [Hv _].
  intros [= _ <-]. apply (good_status w); [done|done| |].
  - unfold core. simpl. by rewrite Hd.
  - simpl. destruct (bool_decide _); by apply statuses_in.
Qed.

Lemma wake_evaluate_inv env now file_exists : triple inv (evaluate env now file_exists) (λ _, inv) inv.
Proof.
  intros s r s' Hs. unfold evaluate. unfold mbind at 1, effect_bind at 1, reading at 1.
  destruct (negb _) eqn:Hn; [by intros [= <- <-]|]. apply negb_false_iff in Hn. rewrite !andb_true_iff, !bool_decide_eq_true in Hn.
  destruct Hn as [[Hv Hf] _]. pose proof Hs as [_ Hg].
  destruct (match apply_owner_state (terminal env) (stored s) with Done x => x | Raised e => (Some e, stored s) end) as [ended w] eqn:He.
  assert (good (unsafe s) w) as Hgw.
  { destruct (apply_owner_state _ _) as [x|e] eqn:Ha; [subst x; by eapply apply_owner_good|by injection He as _ <-]. }
  destruct ended as [reason|].
  { apply (replace_ends _ _ _ _ (unsafe s)); [|exact Hs]. by apply (core_good _ w). }
  assert (status w = "pending") as Hp.
  { destruct (apply_owner_state _ _) as [x|e] eqn:Ha; [subst x|done]. revert Ha. unfold apply_owner_state, mbind, result_bind.
    intros Ha. repeat case_match; simplify_eq; done. }
  apply (replace_ends _ _ _ _ (unsafe s)); [|exact Hs]. cbv zeta. set (v := eligibility _ _ _ now file_exists). set (w1 := if _ && _ then _ else _).
  assert (core w1 = core w) as Hc by (unfold w1; by destruct (_ && _)). pose proof (core_good _ _ _ (eq_sym Hc) Hgw) as Hg1.
  destruct (bool_decide (v_state v = "due")), (bool_decide (v_state v = "missed_deadline")); try done.
  all: assert (status w1 = "pending") as Hp1 by (unfold core in Hc; by injection Hc as -> _ _ _ _ _ _).
  all: destruct (good_active _ _ Hg1 (or_introl Hp1)) as [[Hd Hz]|[Hle Hu]].
  all: try (rewrite Hz; apply (good_status w1); [apply Hg1|done|unfold core; simpl; by rewrite Hd|by apply statuses_in]).
  all: destruct (native_delivery w1) as [d|] eqn:Hd; [|done]; injection Hu as Hu; pose proof Hg1 as [Hv1 _].
  all: pose proof Hv1 as (_ & Ha & _)%valid_record_iff.
  all: eapply (good_delivery _ w1 _ d); [done|unfold core; simpl; by rewrite Hd|by apply statuses_in|done|by apply valid_route_open|done|by left].
Qed.
Lemma complete_wake_inv env : triple inv (complete_wake env) (λ _, inv) inv.
Proof.
  intros s r s' Hs. unfold complete_wake. unfold mbind at 1, effect_bind at 1, reading at 1.
  destruct (negb _); [by intros [= <- <-]|]. unfold mbind at 1, effect_bind at 1, lift at 1.
  destruct (apply_owner_state _ _) as [[reason w]|e] eqn:Ha; [|by intros [= <- <-]].
  apply (replace_ends _ _ _ _ (unsafe s)); [|exact Hs]. destruct Hs as [_ Hg]. by eapply apply_owner_good.
Qed.

(** ** Histories *)
Inductive call :=
| Dispatching (env : Env (T:=T))
| Evaluating (env : Env (T:=T)) (now : clock) (file_exists : bool)
| Completing (env : Env (T:=T)).
(** What a call leaves on disk and with the runtime, wherever it stops. *)
Definition after (x : call) (s : store) : store :=
  match x with
  | Dispatching env => snd (dispatch env s)
  | Evaluating env now file_exists => snd (evaluate env now file_exists s)
  | Completing env => snd (complete_wake env s)
  end.
Definition step (s s' : store) : Prop := ∃ x, s' = after x s.
(** A wake before its first submission. *)
Definition fresh (w : wake) : store := {| stored := w; sent := [] |}.
Lemma triple_inv {A} (m : effect store string A) s : triple inv m (λ _, inv) inv → inv s → inv (snd (m s)).
Proof. intros Hm Hs. specialize (Hm s (m s).1 (m s).2 Hs (surjective_pairing _)). by destruct (m s).1. Qed.
Lemma step_inv s s' : step s s' → inv s → inv s'.
Proof. intros [[env|env c f|env] ->]; apply triple_inv; [apply dispatch_inv|apply wake_evaluate_inv|apply complete_wake_inv]. Qed.
Lemma wake_reachable_inv w s : valid_record w = true → native_delivery w = None → rtc step (fresh w) s → inv s.
Proof.
  intros Hv Hd. assert (inv (fresh w)) as Hi.
  { split; [by split; [apply Forall_nil|]|]. split; [done|]. unfold effect_ok, fresh. simpl. by rewrite Hd. }
  generalize dependent (fresh w). induction 2 as [|s1 s2 s3 H12 _ IH]; [done|]. apply IH. by eapply step_inv.
Qed.

(** ** One submission *)
(** The record keeps the submission of [d], and nothing more was sent. *)
Definition same_submission (d d' : delivery) : Prop :=
  submission_id d' = submission_id d ∧ delivery_route d' = delivery_route d ∧ prompt_sha256 d' = prompt_sha256 d ∧
  (delivery_state d = "accepted" → delivery_state d' = "accepted").
Definition holding (d : delivery) (w : wake) : Prop := ∃ d', native_delivery w = Some d' ∧ same_submission d d'.
Definition settled_on (d : delivery) (calls : list sent_call) (s : store) : Prop := sent s = calls ∧ holding d (stored s).
Lemma triple_settled {A} (m : effect store string A) d calls s :
  triple (settled_on d calls) m (λ _, settled_on d calls) (settled_on d calls) → settled_on d calls s → settled_on d calls (snd (m s)).
Proof. intros Hm Hs. specialize (Hm s (m s).1 (m s).2 Hs (surjective_pairing _)). by destruct (m s).1. Qed.
Lemma replace_settled {A} env what k w d calls (a : A) : holding d w →
  triple (settled_on d calls) (_ ← replace_record env what k w; mret a) (λ _, settled_on d calls) (settled_on d calls).
Proof.
  intros Hw. eapply (triple_bind _ _ (λ _, settled_on d calls)); [|intros []; by apply triple_ret].
  intros s r s' [Hs Hd] [[-> ->]|[[e ->] [->| ->]]]%replace_record_cases; done.
Qed.
Lemma holding_core d w w' : native_delivery w' = native_delivery w → holding d w → holding d w'.
Proof. unfold holding. by intros ->. Qed.
Lemma reconcile_settled env target w d calls : holding d w →
  triple (settled_on d calls) (reconcile_native env target w) (λ _, settled_on d calls) (settled_on d calls).
Proof.
  intros (d' & Hd & Hid & Hr & Hp & Ha). unfold reconcile_native. rewrite Hd.
  destruct (negb _); [by apply triple_ret|].
  assert (holding d (set_delivery (Some (unresolved None d')) w)) as Hsame by (eexists; by split_and!).
  destruct (look_up env target w d') as [[[e|] reason]|e|]; [| | |by apply triple_raise]; apply replace_settled.
  - eexists. by split_and!.
  - destruct (bool_decide _); (eexists; by split_and!).
  - destruct (bool_decide _); (eexists; by split_and!).
Qed.
Lemma apply_owner_delivery t w reason w' : apply_owner_state t w = Done (reason, w') → native_delivery w' = native_delivery w.
Proof. unfold apply_owner_state, mbind, result_bind. intros H. repeat case_match; simplify_eq; done. Qed.
Lemma dispatch_settled env d calls s : inv s → settled_on d calls s → settled_on d calls (snd (dispatch env s)).
Proof.
  intros [_ Hg] Hs. unfold dispatch. unfold mbind at 1, effect_bind at 1, reading at 1.
  destruct (negb _) eqn:Hn; [done|]. apply negb_false_iff in Hn. rewrite !andb_true_iff, !bool_decide_eq_true in Hn. destruct Hn as [[[_ Hf] _] _].
  destruct (good_active _ _ Hg (or_intror Hf)) as [[Hd _]|[_ Hu]]; [destruct Hs as (_ & d' & ? & _); congruence|].
  pose proof Hs as [_ Hh]. set (m := if _ && _ then _ else _).
  apply (triple_settled m); [subst m|exact Hs]. destruct (_ && _); [by apply reconcile_settled|]. unfold dispatch_native.
  eapply (triple_bind _ _ (λ _, settled_on d calls)); [by apply triple_lift|]. intros held. destruct held; [by apply triple_ret|].
  destruct (policy (stored s) ≫= routed) as [[all c]|]; [|rewrite bool_decide_true by done; by apply reconcile_settled].
  unfold dispatch_routes. destruct Hh as (d' & Hd & Hsame). rewrite Hd in Hu |- *. simpl in Hu. injection Hu as Hu.
  rewrite bool_decide_true by done. destruct (delivery_route d') as [route|]; [|by apply triple_ret].
  destruct (bool_decide _); [|by apply triple_ret]. apply reconcile_settled. by exists d'.
Qed.
Lemma evaluate_settled env now f d calls s : settled_on d calls s → settled_on d calls (snd (evaluate env now f s)).
Proof.
  intros Hs. unfold evaluate. unfold mbind at 1, effect_bind at 1, reading at 1. destruct (negb _); [done|].
  destruct (match apply_owner_state (terminal env) (stored s) with Done x => x | Raised e => (Some e, stored s) end) as [ended w] eqn:He.
  assert (holding d w) as Hw.
  { destruct Hs as [_ Hh]. destruct (apply_owner_state _ _) as [x|e] eqn:Ha; [subst x|by injection He as _ <-].
    by apply (holding_core d (stored s)); [eapply apply_owner_delivery|]. }
  set (m := match ended with Some _ => _ | None => _ end).
  apply (triple_settled m); [subst m|exact Hs]. destruct ended; apply replace_settled; apply (holding_core d w); try done. repeat case_match; done.
Qed.
Lemma complete_settled env d calls s : settled_on d calls s → settled_on d calls (snd (complete_wake env s)).
Proof.
  intros Hs. unfold complete_wake. unfold mbind at 1, effect_bind at 1, reading at 1. destruct (negb _); [done|].
  unfold mbind at 1, effect_bind at 1, lift at 1. destruct (apply_owner_state _ _) as [[reason w]|e] eqn:Ha; [|done].
  apply apply_owner_delivery in Ha. set (m := mbind _ _).
  apply (triple_settled m); [subst m|exact Hs]. apply replace_settled, (holding_core d (stored s)); [done|]. apply Hs.
Qed.



(** C14 (safety). A delivery on disk is never sent again: once a record holds a
    delivery, uncertain or accepted, no later history submits anything, the
    delivery keeps its identifier, route and text hash, and an accepted one
    stays accepted. *)
Theorem wake_never_resent w s1 s2 d : valid_record w = true → native_delivery w = None → rtc step (fresh w) s1 →
  native_delivery (stored s1) = Some d → rtc step s1 s2 →
  sent s2 = sent s1 ∧ ∃ d', native_delivery (stored s2) = Some d' ∧ same_submission d d'.
Proof.
  intros Hv Hw Hs1 Hd H12. pose proof (wake_reachable_inv _ _ Hv Hw Hs1) as Hi. clear Hs1.
  assert (settled_on d (sent s1) s1) as Hset by (split; [done|]; by exists d).
  set (calls := sent s1) in *. clearbody calls. clear Hd. induction H12 as [s|s s' s'' [x ->] _ IH]; [exact Hset|].
  apply IH; [by eapply step_inv; [exists x|]|]. destruct x; [by apply dispatch_settled|by apply evaluate_settled|by apply complete_settled].
Qed.

(** ** What a submission rests on *)
Definition principal_of c : Principal :=
  {| subject := context_subject c; role := context_role c; tasks := context_tasks c; predecessor := None; ancestors := [] |}.
Definition route_context c (t : wake_target) : Permissions.context :=
  {| target := Some (thread_id t); relationship := None; task_id := context_task_id c; operation_id := None;
     capability := "not_observed"; readiness := "not_observed"; launch_profile := None |}.
(** The policy root is active, and allows the route unless it lost its policy. *)
Definition route_allowed (v : view (T:=T)) (root : string) c (t : wake_target) (route : string) : Prop :=
  context_target c = thread_id t ∧ ∃ st st', open_store v.1 root v.2 = Done st ∧ active st v.2 = true ∧
  open_store v.1 (store_root st) v.2 = Done st' ∧
  (active st' v.2 = false ∨ ∃ d req saved, Permissions.evaluate v.1 st' (route_action route) (principal_of c) (route_context c t) v.2 = Done d ∧
     permission d = "allow" ∧ Permissions.resolve (route_action route) (principal_of c) (route_context c t) = Done req ∧
     _read v.1 st' v.2 = Done saved ∧ within_fixed_rules v.1 st' (saved_policy saved) req v.2).
Lemma check_route_allowed v root c t route o : check_route v root c t route = Done o → route_allowed v root c t route.
Proof.
  destruct v as [permissions w]. unfold check_route. intros (st & Hst & H)%result_bind_Done.
  apply result_bind_Done in H as (? & Ha%guarded_Done & H). apply result_bind_Done in H as (? & Ht%guarded_Done & H).
  apply bool_decide_eq_true in Ht. apply result_bind_Done in H as (? & _ & H). split; [done|].
  apply result_bind_Done in H as (st' & Hst' & H). exists st, st'. do 3 (split; [done|]).
  simpl. destruct (active st' w); simpl in H; [right|by left].
  apply result_bind_Done in H as (d & Hd & H). destruct (bool_decide_reflect (permission d = "allow")) as [Hallow|]; [|done].
  destruct (evaluate_allowed _ _ _ _ _ _ _ Hd Hallow) as (req & saved & Hreq & Hsaved & _ & Hfix & _). by exists d, req, saved.
Qed.
(** The recipient was observed ready, and the clock still admits the wake. *)
Definition ready_on (env : Env (T:=T)) (w : wake) (target : wake_target) (r : RuntimeRecipient) (o : RuntimeObservation) : Prop :=
  resolve env target = Answer r ∧ recipient_ok (wake_to w) r = true ∧ observe env r = Answer o ∧ observation_state o = "ready".
Definition route_authorised env (all : list string) c (w : wake) (x : sent_call) : Prop :=
  ∃ k route r o, all !! k = Some route ∧ sent_route x = Some route ∧ ready_on env w (routed_target route (wake_to w)) r o ∧
    supported route o = true ∧ v_state (gate env k Second w) = "due" ∧ route_allowed (permissions_at env k Last) (root env) c (wake_to w) route.
Definition ident (w : wake) := (wake_to w, intent w).
Lemma gate_ident env k m w w' : ident w' = ident w → gate env k m w' = gate env k m w.
Proof. unfold ident, gate. by intros [= _ ->]. Qed.
Lemma prepare_ident env k c route w w' a : prepare env k c route w = (w', a) → ident w' = ident w.
Proof. unfold prepare, permitted. intros H. repeat case_match; simplify_eq; done. Qed.
Lemma prepare_Ready env k c route w w' r : prepare env k c route w = (w', Ready r) →
  ∃ o, ready_on env w (routed_target route (wake_to w)) r o ∧ supported route o = true ∧ v_state (gate env k Second w) = "due".
Proof.
  unfold prepare, permitted, ready_on, gate. intros H.
  repeat (case_match; simplify_eq/=; rewrite ?negb_false_iff, ?bool_decide_eq_true in *); try done; eauto 10.
Qed.

(** The calls made since [calls], in the order of [places]. *)
Definition logged (auth : sent_call → Prop) (calls : list sent_call) (places : list (option string)) (s : store) : Prop :=
  ∃ new, sent s = calls ++ new ∧ Forall auth new ∧ (sent_route <$> new) `sublist_of` places.
Lemma logged_more auth calls places more s : logged auth calls places s → logged auth calls (places ++ more) s.
Proof. intros (new & Hs & Ha & Hr). exists new. do 2 (split; [done|]). by apply sublist_inserts_r. Qed.
Lemma logged_take auth calls all i s : logged auth calls (Some <$> take i all) s → logged auth calls (Some <$> all) s.
Proof.
  replace (Some <$> all) with ((Some <$> take i all) ++ (Some <$> drop i all)) by (by rewrite <-fmap_app, take_drop). apply logged_more.
Qed.
Lemma replace_logged env what k w auth calls places :
  triple (logged auth calls places) (replace_record env what k w) (λ _, logged auth calls places) (logged auth calls places).
Proof. intros s r s' Hs [[-> ->]|[[e ->] [->| ->]]]%replace_record_cases; done. Qed.
Lemma replace_logged_ends {A} env what k w auth calls places (a : A) :
  triple (logged auth calls places) (_ ← replace_record env what k w; mret a) (λ _, logged auth calls places) (logged auth calls places).
Proof. eapply triple_bind; [apply replace_logged|]. intros []. by apply triple_ret. Qed.
Lemma submit_call_logged env r w auth calls places place : native_delivery w ≫= delivery_route = place →
  (∀ x, sent_route x = place → auth x) →
  triple (logged auth calls places) (submit_call env r w) (λ _, logged auth calls (places ++ [place])) (logged auth calls (places ++ [place])).
Proof.
  intros Hp Hauth. unfold submit_call. eapply (triple_bind _ _ (λ _, logged auth calls (places ++ [place]))).
  - apply triple_writing. intros s (new & Hs & Ha & Hr). eexists (new ++ [_]). simpl. split; [by rewrite Hs, app_assoc|]. split.
    + apply Forall_app. split; [done|]. apply Forall_singleton, Hauth. done.
    + rewrite fmap_app. apply sublist_app; [done|]. simpl. by rewrite Hp.
  - intros []. destruct (submit env r _); [by apply triple_ret..|by apply triple_raise].
Qed.
Lemma submit_on_logged env k c route r w auth calls places : native_delivery w ≫= delivery_route = Some route →
  (route_allowed (permissions_at env k Last) (root env) c (wake_to w) route → ∀ x, sent_route x = Some route → auth x) →
  triple (logged auth calls places) (submit_on env k c route r w)
    (λ x s, ident (fst x) = ident w ∧ logged auth calls (places ++ [Some route]) s) (logged auth calls (places ++ [Some route])).
Proof.
  intros Hp Hauth. unfold submit_on. destruct (check_route _ _ c (wake_to w) route) as [d|e] eqn:Hc.
  - apply check_route_allowed in Hc. eapply triple_bind; [by apply submit_call_logged, Hauth|]. intros x. by apply triple_ret.
  - apply triple_ret. intros s Hs. split; [done|]. by apply logged_more.
Qed.
Lemma routes_held_logged env k reasons w auth calls places :
  triple (logged auth calls places) (routes_held env k reasons w) (λ _, logged auth calls places) (logged auth calls places).
Proof. apply replace_logged_ends. Qed.
Lemma try_routes_logged env c routes all w0 calls index p reasons w places :
  ident w = ident w0 → routes = drop index all → places = Some <$> take index all →
  triple (logged (route_authorised env all c w0) calls places) (try_routes env c routes index p reasons w)
    (λ _, logged (route_authorised env all c w0) calls (Some <$> all)) (logged (route_authorised env all c w0) calls (Some <$> all)).
Proof.
  revert index p reasons w places. induction routes as [|route routes IH]; intros index p reasons w places Hw Hr ->.
  { eapply triple_pre; [apply logged_take|]. apply routes_held_logged. }
  assert (all !! index = Some route) as Hroute by (by rewrite <-(Nat.add_0_r index), <-lookup_drop, <-Hr).
  assert (routes = drop (S index) all) as Hrest by (by rewrite <-(Nat.add_1_r index), <-drop_drop, <-Hr).
  assert (Some <$> take (S index) all = (Some <$> take index all) ++ [Some route]) as Htake
    by (rewrite (take_S_r _ _ _ Hroute), fmap_app; done).
  simpl. destruct (prepare env index c route w) as [w1 a] eqn:Hprep. pose proof (prepare_ident _ _ _ _ _ _ _ Hprep) as Hw1.
  assert (∀ s, logged (route_authorised env all c w0) calls (Some <$> take index all) s →
         logged (route_authorised env all c w0) calls (Some <$> take (S index) all) s) as Hskip
    by (intros s Hs; rewrite Htake; by apply logged_more).
  destruct a as [r|reason|reason|v|].
  - apply prepare_Ready in Hprep as (o & Ho & Hsup & Hdue).
    eapply triple_bind; [eapply triple_raised; [apply replace_logged|apply logged_take]|]. intros [].
    eapply triple_bind; [eapply triple_raised; [apply submit_on_logged|rewrite <-Htake; apply logged_take]|].
    + done.
    + intros Hallow x Hx. rewrite (gate_ident env index Second w0 w) in Hdue by done.
      assert (wake_to w = wake_to w0 ∧ wake_to w1 = wake_to w0) as [Hto Hto1].
      { unfold ident in Hw, Hw1. injection Hw as Hto _. injection Hw1 as Hto1 _. split; congruence. }
      change (wake_to (intending _ _ _ _ _)) with (wake_to w1) in Hallow. unfold ready_on in Ho. rewrite Hto in Ho. rewrite Hto1 in Hallow.
      exists index, route, r, o. by split_and!.
    + intros [w3 x]. simpl. apply triple_assume. intros Hw3. rewrite <-Htake.
      destruct (proves_unsent x); [|destruct (negb _); (eapply triple_pre; [apply logged_take|apply replace_logged_ends])].
      eapply triple_bind; [eapply triple_raised; [apply replace_logged|apply logged_take]|]. intros []. apply IH; [|done|done].
      change (ident w3 = ident w0). rewrite Hw3. change (ident w1 = ident w0). congruence.
  - eapply triple_pre; [exact Hskip|]. apply IH; [congruence|done|done].
  - eapply triple_pre; [apply logged_take|]. apply routes_held_logged.
  - eapply triple_pre; [apply logged_take|].
    by eapply triple_catching; [apply replace_logged|intros []; by apply triple_ret|intros e _; apply routes_held_logged|].
  - apply triple_raise. intros s. apply logged_take.
Qed.

Lemma reconcile_logged env target w auth calls places :
  triple (logged auth calls places) (reconcile_native env target w) (λ _, logged auth calls places) (logged auth calls places).
Proof.
  unfold reconcile_native. destruct (native_delivery w) as [d|]; [|by apply triple_ret]. destruct (negb _); [by apply triple_ret|].
  destruct (look_up env target w d) as [[[e|] reason]|e|]; [apply replace_logged_ends..|by apply triple_raise].
Qed.
Lemma observe_exact_ready env w w' r : observe_exact env w = (w', Answer (Some r)) →
  ident w' = ident w ∧ ∃ o, ready_on env w (wake_to w) r o ∧ startup_reason w o = None.
Proof.
  unfold observe_exact, ready_on. intros H.
  destruct (resolve env (wake_to w)) as [r'|e|] eqn:Hr; [|by destruct (default _ _)|done].
  destruct (negb _); [done|]. destruct (recipient_ok (wake_to w) r') eqn:Hok; simpl in H; [|done].
  destruct (observe env r') as [o|e|] eqn:Ho; [|by destruct (default _ _)|done].
  destruct (bool_decide_reflect (observation_state o = "ready")) as [Hst|]; simpl in H; [|done].
  destruct (startup_reason w o) eqn:Hs; simpl in H; [done|]. injection H as <- ->. split; [by destruct (resumed o)|]. by exists o.
Qed.
Definition places_of (w : wake) : list (option string) :=
  match policy w ≫= routed with Some (all, _) => Some <$> all | None => [None] end.
(** What allows a submission [x] for the stored record [w]. *)
Definition authorised env (w : wake) (x : sent_call) : Prop :=
  match policy w ≫= routed with
  | Some (all, c) => route_authorised env all c w x
  | None => v_state (gate env 0 Second w) = "due" ∧ legacy_wake_held (permissions_at env 0 First) (root env) w = Done false ∧
            ∃ r o, ready_on env w (wake_to w) r o ∧ startup_reason w o = None
  end.
Lemma logged_none auth calls places s : logged auth calls [] s → logged auth calls places s.
Proof. exact (logged_more auth calls [] places s). Qed.
Lemma dispatch_native_logged env w calls :
  triple (logged (authorised env w) calls []) (dispatch_native env w)
    (λ _, logged (authorised env w) calls (places_of w)) (logged (authorised env w) calls (places_of w)).
Proof.
  assert (∀ s, logged (authorised env w) calls [] s → logged (authorised env w) calls (places_of w) s) as Hmore by (intros s; apply logged_none).
  unfold dispatch_native. eapply (triple_bind _ _ (λ h s, legacy_wake_held (permissions_at env 0 First) (root env) w = Done h ∧
    logged (authorised env w) calls [] s)); [by apply triple_lift; auto|]. intros held. apply triple_assume. intros Hheld.
  destruct held; [by apply triple_ret|]. destruct (policy w ≫= routed) as [[all c]|] eqn:Hp.
  - unfold dispatch_routes. assert (triple (logged (authorised env w) calls []) (start_routes env all c w)
      (λ _, logged (authorised env w) calls (places_of w)) (logged (authorised env w) calls (places_of w))) as Hstart.
    { unfold start_routes. destruct (_ <=? _)%nat; [|by apply triple_ret]. unfold authorised, places_of. rewrite Hp.
      eapply triple_pre; [|by eapply try_routes_logged]. intros s. apply logged_none. }
    destruct (native_delivery w) as [d|]; [|done]. destruct (bool_decide _); [|done].
    destruct (delivery_route d); [destruct (bool_decide _)|]; try (by apply triple_ret). eapply triple_pre; [exact Hmore|]. apply reconcile_logged.
  - destruct (bool_decide _); [eapply triple_pre; [exact Hmore|]; apply reconcile_logged|].
    destruct (negb _); [eapply triple_pre; [exact Hmore|]; apply replace_logged_ends|].
    destruct (observe_exact env w) as [w1 a] eqn:Ho. destruct a as [[r|]|e|]; try (by apply triple_raise).
    2: eapply triple_pre; [exact Hmore|]; apply replace_logged_ends.
    apply observe_exact_ready in Ho as [Hid Hr]. destruct (negb _) eqn:Hdue; [eapply triple_pre; [exact Hmore|]; apply replace_logged_ends|].
    apply negb_false_iff, bool_decide_eq_true in Hdue. rewrite (gate_ident env 0 Second w w1 Hid) in Hdue.
    assert (places_of w = [] ++ [None]) as -> by (unfold places_of; by rewrite Hp).
    unfold submit_exact. eapply triple_bind; [eapply triple_raised; [apply replace_logged|intros s; apply logged_none]|]. intros [].
    eapply triple_bind; [apply submit_call_logged; [done|]|].
    + intros x _. unfold authorised. rewrite Hp. split; [exact Hdue|]. split; [exact Hheld|by exists r].
    + intros x. destruct (negb _); apply replace_logged_ends.
Qed.


(** ** A dispatch that gets through *)
(** The surroundings at the [k]-th route: permitted and due at every moment, with
    the recipient [r] ready, whose queue accepts the submission as [x] says. *)
Record open_at (env : Env (T:=T)) (w : wake) c (k : nat) (route : string) (r : RuntimeRecipient) (x : RuntimeSubmission) : Prop := {
  open_permitted m : ∃ d, check_route (permissions_at env k m) (root env) c (wake_to w) route = Done d;
  open_due m : v_state (gate env k m w) = "due";
  open_resolved : resolve env (routed_target route (wake_to w)) = Answer r;
  open_recipient : recipient_ok (wake_to w) r = true;
  open_observed : ∃ o, observe env r = Answer o ∧ supported route o = true ∧ observation_state o = "ready";
  open_submitted text : submit env r text = Answer x;
  open_accepted : submission_state x = "accepted";
  open_believed : checked_submission env x = Done x;
}.
Definition disk_works (env : Env (T:=T)) : Prop := ∀ what k, write_fails env what k = None ∧ sync_fails env what k = None.
Definition denied_at (env : Env (T:=T)) (w : wake) c (k : nat) (route : string) : Prop :=
  ∃ e, check_route (permissions_at env k First) (root env) c (wake_to w) route = Raised e ∧ is_denial e = true.
Lemma replace_works env what k w s : disk_works env → replace_record env what k w s = (Done tt, set_stored w s).
Proof.
  intros Hd. destruct (Hd what k) as [Hw Hs].
  unfold replace_record, mbind, effect_bind, lift, touch, writing. by rewrite Hw, Hs.
Qed.
Lemma prepare_open env k c route r x w : open_at env w c k route r x → ∃ w', prepare env k c route w = (w', Ready r).
Proof.
  intros H. destruct (open_permitted _ _ _ _ _ _ _ H First) as [d1 H1], (open_permitted _ _ _ _ _ _ _ H Second) as [d2 H2].
  destruct (open_observed _ _ _ _ _ _ _ H) as (o & Ho & Hs & Hr). unfold prepare, permitted. rewrite H1. cbv zeta.
  rewrite (bool_decide_true (v_state (gate env k First _) = "due")) by apply (open_due _ _ _ _ _ _ _ H).
  simpl. rewrite (open_resolved _ _ _ _ _ _ _ H), (open_recipient _ _ _ _ _ _ _ H). simpl. rewrite Ho, Hs. simpl.
  rewrite (bool_decide_true (observation_state o = "ready")) by done. simpl. rewrite H2.
  rewrite (bool_decide_true (v_state (gate env k Second _) = "due")) by apply (open_due _ _ _ _ _ _ _ H). eauto.
Qed.
Lemma open_ident env w w' c k route r x : ident w' = ident w → open_at env w c k route r x → open_at env w' c k route r x.
Proof.
  intros Hi [H1 H2 H3 H4 H5 H6 H7 H8]. pose proof Hi as Hi'. unfold ident in Hi'. injection Hi' as Hto _.
  split; try done; rewrite ?Hto; try done. intros m. rewrite (gate_ident env k m w w' Hi). apply H2.
Qed.
(** What an accepted submission leaves. *)
Definition delivered (route : option string) (x : RuntimeSubmission) (s s' : store) : Prop :=
  status (stored s') = "submitted" ∧ attempts (stored s') = attempts (stored s) + 1 ∧
  ∃ d y, native_delivery (stored s') = Some d ∧ delivery_state d = "accepted" ∧ delivery_route d = route ∧
    queue_id d = JStr <$> receipt_id x ∧ sent s' = sent s ++ [y] ∧ sent_id y = submission_id d ∧ sent_route y = route ∧ proved_unsent y = false.
Lemma try_routes_open env c before route routes index p reasons w r x s :
  disk_works env → attempts w = attempts (stored s) →
  (∀ j route', before !! j = Some route' → denied_at env w c (index + j) route') → open_at env w c (index + length before) route r x →
  ∃ s', try_routes env c (before ++ route :: routes) index p reasons w s = (Done (answered "submitted" "native queue accepted"), s') ∧
    delivered (Some route) x s s'.
Proof.
  intros Hdisk. revert index reasons w. induction before as [|route' before IH]; intros index reasons w Hatt Hdenied Hopen.
  - simpl in *. rewrite Nat.add_0_r in Hopen. destruct (prepare_open _ _ _ _ _ _ _ Hopen) as [w1 Hprep]. rewrite Hprep.
    pose proof (prepare_ident _ _ _ _ _ _ _ Hprep) as Hid. pose proof (prepare_core _ _ _ _ _ _ _ Hprep) as Hcore.
    pose proof (open_ident _ _ _ _ _ _ _ _ Hid Hopen) as Hopen1. unfold core in Hcore. injection Hcore as _ Hatt1 _ _ _ _ _.
    unfold mbind at 1, effect_bind at 1. rewrite replace_works by done.
    unfold submit_on. change (wake_to (intending _ _ _ _ _)) with (wake_to w1).
    destruct (open_permitted _ _ _ _ _ _ _ Hopen1 Last) as [d ->]. unfold mbind, effect_bind, submit_call, writing.
    rewrite (open_submitted _ _ _ _ _ _ _ Hopen1). unfold mbind, effect_bind, mret, effect_ret.
    rewrite (open_believed _ _ _ _ _ _ _ Hopen1). unfold proves_unsent. rewrite (open_accepted _ _ _ _ _ _ _ Hopen1). simpl.
    rewrite replace_works by done. eexists. split; [reflexivity|]. split; [done|]. split; [simpl; lia|].
    do 2 eexists. by split_and!.
  - destruct (Hdenied 0%nat route' eq_refl) as (e & He & Hden). rewrite Nat.add_0_r in He.
    simpl. unfold prepare, permitted. rewrite He, Hden.
    apply IH; [done| |by replace (S index + length before)%nat with (index + length (route' :: before))%nat by (simpl; lia)].
    intros j route'' Hj. replace (S index + j)%nat with (index + S j)%nat by lia. by apply Hdenied.
Qed.

(** C15 (liveness). A wake gets through: a due wake whose routes are denied up to
    one on which it is permitted, due, and its recipient ready is submitted on
    that route, once, with the acceptance of its queue on disk. *)
Theorem wake_gets_through env s all c i route r x :
  valid_record (stored s) = true → status (stored s) = "firing" → native_delivery (stored s) = None →
  found_current env = true → wake_root (stored s) = root env → policy (stored s) ≫= routed = Some (all, c) →
  legacy_wake_held (permissions_at env 0 First) (root env) (stored s) = Done false → disk_works env →
  all !! i = Some route → (next_route (progress_of (stored s)) <= i)%nat →
  (∀ j route', all !! j = Some route' → (next_route (progress_of (stored s)) <= j < i)%nat → denied_at env (stored s) c j route') →
  open_at env (stored s) c i route r x →
  ∃ s', dispatch env s = (Done (answered "submitted" "native queue accepted"), s') ∧ delivered (Some route) x s s'.
Proof.
  intros Hv Hst Hd Hcur Hroot Hp Hheld Hdisk Hi Hnext Hdenied Hopen. set (w := stored s) in *. set (n := next_route (progress_of w)) in *.
  destruct (try_routes_open env c (drop n (take i all)) route (drop (S i) all) n (progress_of w) [] w r x s) as (s' & Hrun & Hdel); [done|done| | |].
  { intros j route' Hj. rewrite lookup_drop in Hj. pose proof Hj as Hlt%lookup_lt_Some. rewrite length_take in Hlt.
    rewrite lookup_take_lt in Hj by lia. apply Hdenied; [done|lia]. }
  { pose proof (lookup_lt_Some _ _ _ Hi). rewrite length_drop, length_take. by replace (n + (i `min` length all - n))%nat with i by lia. }
  exists s'. split; [|exact Hdel]. pose proof (lookup_lt_Some _ _ _ Hi) as Hlt.
  assert (drop n all = drop n (take i all) ++ route :: drop (S i) all) as Hsplit.
  { rewrite <-(take_drop_middle all i route Hi) at 1. rewrite drop_app_le; [done|]. rewrite length_take. lia. }
  unfold dispatch. unfold mbind at 1, effect_bind at 1, reading at 1. fold w. rewrite Hv, Hcur, Hst, Hd, Hp, !bool_decide_true by done. simpl.
  unfold dispatch_native, mbind at 1, effect_bind at 1, lift. rewrite Hheld, Hp. unfold dispatch_routes. rewrite Hd. unfold start_routes.
  fold (progress_of w). fold n. rewrite (proj2 (Nat.leb_le _ _)) by lia. by rewrite Hsplit.
Qed.

(** ** Wakes that are over *)
Definition over (status_ : string) (calls : list sent_call) (s : store) : Prop := status (stored s) = status_ ∧ sent s = calls.
Lemma over_ends {A} env what k w st calls (a : A) s : status w = st → over st calls s →
  over st calls (snd ((_ ← replace_record env what k w; mret a) s)).
Proof.
  intros Hw Hs. unfold mbind, effect_bind. destruct (replace_record env what k w s) as [r s'] eqn:Hr.
  apply replace_record_cases in Hr as [[-> ->]|[[e ->] [->| ->]]]; simpl; try done; (split; [done|apply Hs]).
Qed.
Lemma apply_owner_inactive t w reason w' : apply_owner_state t w = Done (reason, w') → status w ≠ "pending" → status w ≠ "firing" →
  status w' = status w.
Proof.
  unfold apply_owner_state, mbind, result_bind. intros H Hp Hf. repeat case_match; simplify_eq; try done.
  all: exfalso; simpl in *; rewrite negb_false_iff, bool_decide_eq_true in *; set_solver.
Qed.
Lemma step_over s s' st calls : step s s' → over st calls s → st ≠ "pending" → st ≠ "firing" → over st calls s'.
Proof.
  intros [x ->] Hs Hp Hf. pose proof Hs as [Hst Hc]. destruct x as [env|env now f|env]; simpl.
  - unfold dispatch. unfold mbind at 1, effect_bind at 1, reading at 1. rewrite Hst.
    rewrite (bool_decide_false (st = "firing")) by done. by rewrite andb_false_r.
  - unfold evaluate. unfold mbind at 1, effect_bind at 1, reading at 1. rewrite Hst.
    rewrite (bool_decide_false (st = "pending")) by done. by rewrite andb_false_r.
  - unfold complete_wake. unfold mbind at 1, effect_bind at 1, reading at 1. destruct (negb _); [done|].
    unfold mbind at 1, effect_bind at 1, lift at 1. destruct (apply_owner_state _ _) as [[reason w]|e] eqn:Ha; [|done].
    apply over_ends; [|done]. rewrite <-Hst. by eapply apply_owner_inactive; [exact Ha|rewrite Hst..].
Qed.
Lemma steps_over s s' st calls : rtc step s s' → over st calls s → st ≠ "pending" → st ≠ "firing" → over st calls s'.
Proof. induction 1; [done|]. intros Hs Hp Hf. apply IHrtc; [by eapply step_over|done|done]. Qed.

(** The end of its owner retires a wake for good: a pending or
    firing wake without an uncertain submission, whose policy says so, is
    cancelled when the completion of its owner is applied, and no later history
    revives it or submits anything. *)
Theorem wake_owner_retires env s s2 p o t : disk_works env → valid_record (stored s) = true → policy (stored s) = Some p →
  policy_owner p = Some o → owner_end p = "retire" → terminal env = Done (Some t) → completed_owner t = o → completion_state t = "completed" →
  nonempty (event_id t) = true → nonempty (completion_actor t) = true → status (stored s) = "pending" ∨ status (stored s) = "firing" →
  delivery_state <$> native_delivery (stored s) ≠ Some "uncertain" → rtc step (after (Completing env) s) s2 →
  status (stored s2) = "cancelled" ∧ sent s2 = sent s.
Proof.
  intros Hdisk Hv Hp Ho He Ht Hto Hts Hte Hta Hst Hd H12. eapply (steps_over _ _ "cancelled"); [exact H12| |done|done].
  assert (valid p = true) as Hvp.
  { pose proof Hv as (_ & _ & Hf & _)%valid_record_iff. unfold fixed_ok in Hf. apply andb_true_iff in Hf as [_ Hf]. by rewrite Hp in Hf. }
  simpl. unfold complete_wake. unfold mbind at 1, effect_bind at 1, reading at 1. rewrite Hv. simpl.
  unfold mbind at 1, effect_bind at 1, lift at 1. unfold apply_owner_state. rewrite Hp, Hvp, Ho, Ht. simpl.
  rewrite He. cbn [negb]. rewrite (bool_decide_false ("retire" = "retain")), Hto, Hts, Hte, Hta, (bool_decide_true (o = o)) by done.
  simpl. rewrite (bool_decide_false (_ <$> _ = _)) by done.
  rewrite bool_decide_true by set_solver. simpl. unfold mbind, effect_bind. by rewrite replace_works.
Qed.

(** ** Exceptions stay inside *)
(** The process is not killed inside a call of the adapter. *)
Record survives (env : Env (T:=T)) : Prop := {
  survives_resolve t : resolve env t ≠ Killed;
  survives_observe r : observe env r ≠ Killed;
  survives_submit r text : submit env r text ≠ Killed;
  survives_reconcile r text : reconcile env r text ≠ Killed;
}.
(** The call returns, whatever is stored. *)
Definition returns {A} (m : effect store string A) : Prop := triple (λ _, True) m (λ _ _, True) (λ _, False).
Lemma returns_bind {A B} (m : effect store string A) (k : A → effect store string B) : returns m → (∀ a, returns (k a)) → returns (m ≫= k).
Proof. intros Hm Hk. by eapply triple_bind. Qed.
Lemma returns_ret {A} (a : A) : returns (mret a).
Proof. by apply triple_ret. Qed.
Lemma replace_returns env what k w : disk_works env → returns (replace_record env what k w).
Proof. intros Hd s r s' _. rewrite replace_works by done. by intros [= <- <-]. Qed.
Lemma replace_ret_returns {A} env what k w (a : A) : disk_works env → returns (_ ← replace_record env what k w; mret a).
Proof. intros Hd. apply returns_bind; [by apply replace_returns|]. intros []. apply returns_ret. Qed.
Lemma submit_call_returns env r w : survives env → returns (submit_call env r w).
Proof.
  intros Hs. unfold submit_call. apply returns_bind; [by apply triple_writing|]. intros [].
  destruct (submit env r _) eqn:H; [by apply triple_ret..|]. by apply (survives_submit env Hs) in H.
Qed.
Lemma prepare_survives env k c route w : survives env → (prepare env k c route w).2 ≠ Dead.
Proof.
  intros [Hr Ho _ _]. unfold prepare, permitted. repeat case_match; simpl; try done.
  all: exfalso; by first [eapply Ho; eassumption|eapply Hr; eassumption].
Qed.
Lemma try_routes_returns env c routes index p reasons w : disk_works env → survives env → returns (try_routes env c routes index p reasons w).
Proof.
  intros Hd Hs. revert index p reasons w. induction routes as [|route routes IH]; intros index p reasons w; simpl.
  { by apply replace_ret_returns. }
  pose proof (prepare_survives env index c route w Hs) as Hdead. destruct (prepare env index c route w) as [w1 a]. simpl in Hdead.
  destruct a as [r|reason|reason|v|]; [|by apply IH|by apply replace_ret_returns| |done].
  - apply returns_bind; [by apply replace_returns|]. intros []. apply returns_bind.
    + unfold submit_on. destruct (check_route _ _ c _ route); [|apply returns_ret].
      apply returns_bind; [by apply submit_call_returns|]. intros x. apply returns_ret.
    + intros [w3 x]. destruct (proves_unsent x); [|destruct (negb _); by apply replace_ret_returns].
      apply returns_bind; [by apply replace_returns|]. intros []. apply IH.
  - intros s r s' _. unfold catching. rewrite replace_works by done. by intros [= <- <-].
Qed.
Lemma look_up_survives env target w d : survives env → look_up env target w d ≠ Killed.
Proof.
  intros Hs. unfold look_up. pose proof (survives_resolve env Hs target) as Hr. destruct (match prompt_sha256 d with Some _ => _ | None => _ end); [done|].
  destruct (resolve env target) as [r| |]; [|done|done]. destruct (given_adapter env && _); [done|].
  pose proof (survives_reconcile env Hs r (native_prompt env w)). by repeat case_match.
Qed.
Lemma reconcile_returns env target w : disk_works env → survives env → returns (reconcile_native env target w).
Proof.
  intros Hd Hs. unfold reconcile_native. destruct (native_delivery w) as [d|]; [|apply returns_ret].
  destruct (negb _); [apply returns_ret|]. pose proof (look_up_survives env target w d Hs).
  destruct (look_up env target w d) as [[[e|] reason]|e|]; [by apply replace_ret_returns..|done].
Qed.
Lemma observe_exact_survives env w : survives env → ∃ w' a, observe_exact env w = (w', Answer a).
Proof.
  intros Hs. unfold observe_exact. pose proof (survives_resolve env Hs (wake_to w)).
  destruct (resolve env (wake_to w)) as [r|e|]; [|destruct (default _ _); eauto|done].
  pose proof (survives_observe env Hs r). destruct (negb _); [simpl; eauto|]. destruct (negb _); [simpl; eauto|].
  destruct (observe env r) as [o|e|]; [eauto|destruct (default _ _); eauto|done].
Qed.

End Rules.
