(* ===== verification/WakeDemo.v ===== *)
(** * A wake at work

    [WakeDemo]: a wake with two frozen routes is evaluated, dispatched and
    reconciled, once with the process dying inside the submission and once to
    the end; the theorems of [WakeClock] and [WakeRules] applied to these runs;
    and a policy domain that lost its policy. *)
From Stdlib Require Import QArith Lqa.
From S2P Require Import Prelude Effects Json Sha256 Timestamps Permissions PermissionRules PermissionDemo WakeClock WakeRecords WakeDelivery WakeRules.
Open Scope Z_scope.

(** ** The wake and its policy *)
Definition no_tabs : layer :=
  {| default_decision := None; actions := Some {[ "wake.existing_tab" := Plain "deny" ]}; profile := None; authorized_profiles := None |}.
Definition wake_rules : Permissions.policy :=
  {| version := 1; global_layer := None; profiles := None; sessions := Some {[ "thread-1" := no_tabs ]}; assignments := None; mandatory := None;
     approvals := None; delegations := None; known_actions := None; future_actions_inherit := None; policy_adoption := None |}.
Definition ruled : world (T:=Z) := (configure (PermissionDemo.clock 100) site wake_rules host 0 ∅).2.
Definition frozen : permission_context :=
  {| context_subject := "thread-1"; context_role := "session"; context_tasks := ["task-1"]; context_target := "thread-1"; context_task_id := None;
     context_revision := 1 |}.
Definition the_task : owner := {| owner_kind := "task"; owner_id := "task-1" |}.
Definition routed_policy : wake_policy :=
  {| lifetime := "task"; policy_owner := Some the_task; owner_end := "retire"; startup := "create_load_run";
     configuration_revision := "0123456789abcdef0123456789abcdef0123456789abcdef0123456789abcdef"; routed := Some (["existing_tab"; "background"], frozen) |}.
Definition ticks (n : Z) : counter := {| epoch := "boot-1"; count := n; frequency := 10; rate_ppm := 0 |}.
Definition at_ticks (n : Z) : clock := {| clock_utc := None; clock_counter := Some (ticks n); clock_reason := None |}.
Definition minute : scheduling_intent :=
  {| intent_schedule := After (inject_Z 60); ttl_seconds := inject_Z 3600; tolerance_seconds := inject_Z 5; stop_at := None;
     counter_anchor := Some (ticks 1000); utc_anchor := None |}.
Definition unread : verdict := {| v_state := "pending_time"; v_reason := "scheduling_time_unavailable"; v_alert := None; v_bounds := None |}.
Definition sleeper : wake :=
  {| wake_id := "wake_intent_0"; status := "pending"; attempts := 0; prompt := "Look at the build.";
     wake_to := {| thread_id := "thread-1"; codex_cmd := "/usr/bin/codex"; endpoint := "unix://"; resume_policy := "hold";
                   startup_policy := None; wake_route := None |};
     wake_root := "/srv/wake"; intent := minute; policy := Some routed_policy; native_delivery := None; wake_route_progress := None;
     policy_outcome := None; runtime_observation := None; time_recovery := unread; permission_check := None; last_error := None;
     owner_completion := None; events := [] |}.

(** ** The surroundings *)
Definition thread : RuntimeRecipient := {| recipient_version := 1; recipient_runtime := "codex"; session_id := "thread-1"; binding := JNull |}.
Definition idle : RuntimeObservation :=
  {| observation_state := "ready"; observation_reason := "idle";
     capabilities := {[ "submit" := {| capability_state := "supported"; capability_reason := "" |} ]}; resumed := false |}.
Definition queued : RuntimeSubmission :=
  {| submission_state := "accepted"; receipt_id := Some "queue-7"; evidence_kind := "native_queue_acceptance"; submission_reason := None;
     failure := None; exception_type := None; pre_io := false |}.
Definition found : RuntimeReconciliation :=
  {| found_evidence := Some [("source", JStr "native_queue"); ("client_message_id", JStr "m1"); ("execution", JStr "observed"); ("queue_id", JStr "queue-7")];
     found_reason := None |}.
Definition around (submitting : answer RuntimeSubmission) (ended : option completion) : Env (T:=Z) :=
  {| resolve := λ _, Answer thread; observe := λ _, Answer idle; submit := λ _ _, submitting; reconcile := λ _ _, Answer found;
     clock_at := λ _ _, (at_ticks 2000, true); below := id; above := id; permissions_at := λ _ _, (PermissionDemo.clock 200, ruled);
     uuid4 := λ _, "submission-1"; is_uuid := λ _, true; write_fails := λ _ _, None; sync_fails := λ _ _, None; terminal := Done ended;
     given_adapter := true; found_current := true; root := "/srv/wake" |}.
Definition calm := around (Answer queued) None.
Definition dying := around Killed None.

(** ** The runs *)
Definition due_store : store := after (Evaluating calm (at_ticks 2000) true) (fresh sleeper).
Definition sent_store : store := after (Dispatching calm) due_store.
Definition dead_store : store := after (Dispatching dying) due_store.
Definition found_store : store := after (Dispatching calm) dead_store.
Definition shown (s : store) : string * option string * list (option string * bool) :=
  (status (stored s), delivery_state <$> native_delivery (stored s), (λ x, (sent_route x, proved_unsent x)) <$> sent s).

Example run_due : shown due_store = ("firing", None, []).
Proof. vm_compute. reflexivity. Qed.
Example run_sent : shown sent_store = ("submitted", Some "accepted", [(Some "background", false)]).
Proof. vm_compute. reflexivity. Qed.
Example run_dead : shown dead_store = ("firing", Some "uncertain", [(Some "background", false)]).
Proof. vm_compute. reflexivity. Qed.
Example run_found : shown found_store = ("submitted", Some "accepted", [(Some "background", false)]).
Proof. vm_compute. reflexivity. Qed.
Lemma sleeper_valid : valid_record sleeper = true.
Proof. vm_compute. reflexivity. Qed.
Lemma reaches_due : rtc step (fresh sleeper) due_store.
Proof. apply rtc_once. by exists (Evaluating calm (at_ticks 2000) true). Qed.
Lemma reaches_dead : rtc step (fresh sleeper) dead_store.
Proof. eapply rtc_r; [exact reaches_due|]. by exists (Dispatching dying). Qed.
Lemma dead_to_found : rtc step dead_store found_store.
Proof. apply rtc_once. by exists (Dispatching calm). Qed.

Definition dead_delivery : delivery := default (new_delivery calm 0 None) (native_delivery (stored dead_store)).
Lemma dead_uncertain : native_delivery (stored dead_store) = Some dead_delivery.
Proof. vm_compute. reflexivity. Qed.
Lemma wake_never_resent_witness : sent found_store = sent dead_store ∧
  ∃ d', native_delivery (stored found_store) = Some d' ∧ same_submission dead_delivery d'.
Proof. exact (wake_never_resent sleeper dead_store found_store dead_delivery sleeper_valid eq_refl reaches_dead dead_uncertain dead_to_found). Defined.

Definition is_done {A} (r : result string A) : bool := match r with Done _ => true | Raised _ => false end.
Lemma is_done_Done {A} (r : result string A) : is_done r = true → ∃ a, r = Done a.
Proof. destruct r; [eauto|done]. Qed.
Lemma calm_open : open_at calm (stored due_store) frozen 1 "background" thread queued.
Proof.
  split.
  - intros m. apply is_done_Done. vm_compute. reflexivity.
  - intros m. vm_compute. reflexivity.
  - vm_compute. reflexivity.
  - vm_compute. reflexivity.
  - exists idle. split; [|split]; vm_compute; reflexivity.
  - intros text. reflexivity.
  - reflexivity.
  - vm_compute. reflexivity.
Qed.
Lemma calm_denied : denied_at calm (stored due_store) frozen 0 "existing_tab".
Proof. exists "permission_deny". split; vm_compute; reflexivity. Qed.
Lemma wake_gets_through_witness : ∃ s', dispatch calm due_store = (Done (answered "submitted" "native queue accepted"), s') ∧
  delivered (Some "background") queued due_store s'.
Proof.
  apply (wake_gets_through calm due_store ["existing_tab"; "background"] frozen 1 "background" thread queued).
  1-7: vm_compute; reflexivity.
  - intros what k. split; reflexivity.
  - reflexivity.
  - vm_compute. apply Nat.le_0_l.
  - intros j route' Hj [_ Hlt]. destruct j as [|j]; [|lia]. injection Hj as <-. exact calm_denied.
  - exact calm_open.
Defined.
Definition raising := around (Throws (exception_of "OSError")) None.
Definition task_done : completion :=
  {| completed_owner := the_task; event_id := "event-1"; completion_state := "completed"; completion_actor := "operator:local" |}.
Definition ending := around (Answer queued) (Some task_done).
Lemma wake_owner_retires_witness :
  status (stored (after (Dispatching calm) (after (Completing ending) due_store))) = "cancelled" ∧
  sent (after (Dispatching calm) (after (Completing ending) due_store)) = sent due_store.
Proof.
  apply (wake_owner_retires ending due_store _ routed_policy the_task task_done).
  - intros what k. split; reflexivity.
  - vm_compute. reflexivity.
  - vm_compute. reflexivity.
  - reflexivity.
  - reflexivity.
  - reflexivity.
  - reflexivity.
  - reflexivity.
  - reflexivity.
  - reflexivity.
  - right. vm_compute. reflexivity.
  - vm_compute. discriminate.
  - apply rtc_once. by exists (Dispatching calm).
Defined.

(** ** The clock *)
Lemma minute_truthful : truthful minute (at_ticks 2000) 1000 1100.
Proof.
  split.
  - lra.
  - discriminate.
  - discriminate.
  - intros o n [= <-] [= <-] _ _ _. split; vm_compute; discriminate.
Qed.

(** ** A domain without its policy *)
(** A root is bound to a policy domain whose policy is gone: an operation of the
    root is refused, but a route of a wake is let pass without a decision,
    because its check names the domain, where no policy is active. *)
Definition bound : world (T:=Z) :=
  {[ "/srv/wake" := {| link := JsonFile (JObj [("version", JInt 1); ("root", JStr "/srv/domain"); ("issuer", JStr "operator:local")]);
       directory := NoDirectory; policy_file := NoPolicy; adopted := false; owners_file := NoFile |} ]}.
Example lost_policy_opens_routes :
  check_route (PermissionDemo.clock 200, bound) "/srv/wake" frozen (wake_to sleeper) "background" = Done None ∧
  is_done (check_operation (PermissionDemo.clock 200) "/srv/wake" "wake.background" agent (route_context frozen (wake_to sleeper)) bound) = false.
Proof. split; vm_compute; reflexivity. Qed.
