(* ===== verification/MenuControl.v ===== *)
(** * Guarded menu input (src/src/codex_wake/guarded_interactions.py)

    [MenuControl]: custody of a terminal pane, which is either the human's or
    the automation's and carries a generation that every change increases, and
    the one menu operation that the automation may perform on it: open the
    command palette and close it again, one key at a time, each key an intent
    on disk before it is sent, each result observed before the next.  The files
    are the state [world]; what the pane shows, the clock, the permission files
    and the failures of writes are arguments.  Recorded wall-clock times are
    not carried. *)
From Stdlib Require Import QArith.
From S2P Require Import Prelude Effects Json Sha256 Timestamps Permissions.
Open Scope Z_scope.

(** ** Bindings and tokens *)
Definition BINARY_SHA256 : string := "92c997dfd109c0672d40d5ae6fbd15835d53ffaf12cf9ea124d22aaef3ff23fc".
(** The [GENERATION_KEYS] of a process. *)
Record identity := { pid : Z; start_ticks : Z; boot_id : string; session_id : string; executable_sha256 : string }.
#[export] Instance identity_eq_dec : EqDecision identity.
Proof. solve_decision. Defined.
Record binding := { socket : string; pane : string; process : identity; cwd : string }.
Definition _digest (value : json) : string := sha256 (dumps_ascii value).
Definition pane_key (b : binding) : string := "grok-pane-" +:+ socket b +:+ ":" +:+ pane b.
Definition pane_digest (b : binding) : string := _digest (JStr (pane_key b)).
Record token := { token_pane : string; token_generation : Z; token_binding : string }.
#[export] Instance token_eq_dec : EqDecision token.
Proof. solve_decision. Defined.
Definition identity_json (i : identity) : json :=
  JObj [("pid", JInt (pid i)); ("start_ticks", JInt (start_ticks i)); ("boot_id", JStr (boot_id i)); ("session_id", JStr (session_id i));
        ("executable_sha256", JStr (executable_sha256 i))].
Definition owner_token (b : binding) (generation : Z) : token :=
  {| token_pane := pane_digest b; token_generation := generation; token_binding := _digest (identity_json (process b)) |}.

(** ** What a pane shows *)
(** [str.splitlines] and [str.rstrip], on code points. *)
Definition line_break (c : Z) : bool := ((10 <=? c) && (c <=? 13)) || ((28 <=? c) && (c <=? 30)) || bool_decide (c ∈ [133; 8232; 8233]).
Fixpoint splitlines_from (line text : list Z) : list (list Z) :=
  match text with
  | [] => if bool_decide (line = []) then [] else [line]
  | c :: text =>
    if negb (line_break c) then splitlines_from (line ++ [c]) text
    else line :: match text with
                 | d :: text' => if (c =? 13) && (d =? 10) then splitlines_from [] text' else splitlines_from [] text
                 | [] => []
                 end
  end.
Definition splitlines : list Z → list (list Z) := splitlines_from [].
Fixpoint lstrip (l : list Z) : list Z :=
  match l with c :: l' => if py_space c then lstrip l' else l | [] => [] end.
Definition rstrip (l : list Z) : list Z := rev (lstrip (rev l)).
Definition strip_line (l : list Z) : list Z := rstrip (lstrip l).
Definition _lines (frame : string) : list (list Z) :=
  rstrip <$> filter (λ l, forallb py_space l = false) (splitlines (code_points frame)).
Definition text (s : string) : list Z := code_points s.
(** The [n]-th line from the end, from 1. *)
Definition from_end (n : nat) (lines : list (list Z)) : option (list Z) := rev lines !! Nat.pred n.
Definition prefixed (p l : list Z) : bool := bool_decide (take (length p) l = p).
Fixpoint within (p l : list Z) : bool := prefixed p l || match l with [] => false | _ :: l => within p l end.
(** [Grok 4\.[67] \(high\) · .+ · ctrl\+o transcript], in full. *)
Definition status_line (l : list Z) : bool :=
  let suffix := text " · ctrl+o transcript" in
  existsb (λ version, let prefix := text ("Grok 4." +:+ version +:+ " (high) · ") in
    prefixed prefix l && bool_decide (drop (length l - length suffix) l = suffix) &&
    (length prefix + length suffix <? length l)%nat) ["6"; "7"].
Definition _empty (frame : string) : bool :=
  let lines := _lines frame in
  bool_decide (strip_line <$> from_end 3 lines = Some (text "minimal · /help")) &&
  bool_decide (from_end 2 lines = Some (text "❯")) &&
  match from_end 1 lines with Some l => status_line l | None => false end.
Definition _palette (frame : string) : bool :=
  let lines := _lines frame in
  existsb (λ l, bool_decide (strip_line l = text "Commands")) lines && existsb (λ l, bool_decide (strip_line l = text "search:")) lines &&
  existsb (within (text "◆ New Session")) lines &&
  bool_decide (strip_line <$> from_end 1 lines = Some (text "↑/↓ nav  |  Enter select  |  Esc close")).
(** The digest of [_lines(frame)[-3:]]. *)
Definition encode_line (l : list Z) : string := foldr (λ c s, utf8_encode c +:+ s) "" l.
Definition composer (frame : string) : string :=
  let lines := _lines frame in
  _digest (JArr (JStr ∘ encode_line <$> drop (length lines - 3) lines)).

(** ** Files *)
Inductive file (A : Type) := Missing | Broken (e : string) | Valid (a : A).
Arguments Missing {A}.
Arguments Broken {A} _.
Arguments Valid {A} _.
Record custody_event := { event_actor : string; event_reason : string; event_owner : string; event_generation : Z }.
Record fence := { generation : Z; input_owner : string; fence_history : list custody_event }.
Record profile := { profile_scope : string; profile_binding : binding; profile_issuer : string; profile_reason : string }.
Record menu_step := { step_key : string; step_state : string; post_sha256 : option string }.
Record row := {
  row_operation : string; row_profile : string; row_pane : string; row_token : option token; row_state : string; pre_sha256 : string;
  composer_sha256 : string; steps : list menu_step; row_reason : option string; pending_key : option string;
}.
(** A key that was sent, with the fence and the row on disk at that moment. *)
Record key_press := { press_operation : string; press_pane : string; press_key : string; press_fence : result string fence; press_row : file row }.
Record world := {
  fences : gmap string (file fence); enrolled : gmap string (); profiles : gmap string (file profile); operations : gmap string (file row);
  pressed : list key_press;
}.
Definition file_at {A} (m : gmap string (file A)) (name : string) : file A := default Missing (m !! name).
Definition set_fence name x (w : world) := {| fences := <[name := x]> (fences w); enrolled := enrolled w; profiles := profiles w; operations := operations w; pressed := pressed w |}.
Definition enroll name (w : world) := {| fences := fences w; enrolled := <[name := tt]> (enrolled w); profiles := profiles w; operations := operations w; pressed := pressed w |}.
Definition set_profile name x (w : world) := {| fences := fences w; enrolled := enrolled w; profiles := <[name := x]> (profiles w); operations := operations w; pressed := pressed w |}.
Definition set_operation name x (w : world) := {| fences := fences w; enrolled := enrolled w; profiles := profiles w; operations := <[name := x]> (operations w); pressed := pressed w |}.
Definition press x (w : world) := {| fences := fences w; enrolled := enrolled w; profiles := profiles w; operations := operations w; pressed := pressed w ++ [x] |}.

(** ** The surroundings *)
Section Menu.
Context {T : Type} {TT : Timestamp T}.
Definition view : Type := Permissions.Env (T:=T) * Permissions.world (T:=T).
Record observed := { seen : identity; frame : string; process_cwd : result string string }.
(** Moments of a call are named; polls of a moment are numbered. *)
Record Env := {
  snapshot : string → nat → result string observed;
  monotonic : string → nat → Q;
  refuses : string → option string;                (* before a key reaches the terminal *)
  fails : string → option string;                  (* after it did *)
  permissions_at : string → view;
  write_fails : string → option string;            (* before the replacement of a file *)
  sync_fails : string → option string;             (* after it *)
  resolved_cwd : result string string;
  root : string;
}.
Local Notation perform := (effect world string).
Definition killed : string := "killed".
(** [_write], to the place [what] of the call. *)
Definition _write (env : Env) (what : string) (f : world → world) : perform () :=
  _ ← lift (touch (write_fails env) what);
  _ ← writing f;
  lift (touch (sync_fails env) what).
Definition _read {A} (f : file A) : result string A :=
  match f with Valid a => Done a | Broken e => Raised e | Missing => Raised "FileNotFoundError" end.
(** [_owner]. *)
Definition new_fence : fence := {| generation := 1; input_owner := "automation"; fence_history := [] |}.
Definition _owner (b : binding) (w : world) : result string fence :=
  match file_at (fences w) (pane_digest b) with
  | Missing => if bool_decide (is_Some (enrolled w !! pane_digest b)) then Raised "input_owner_state_missing" else Done new_fence
  | f =>
    x ← _read f;
    _ ← guard ((1 <=? generation x) && bool_decide (input_owner x ∈ ["human"; "automation"])) "input_owner_state_invalid";
    Done x
  end.
Definition _save_owner (env : Env) (b : binding) (x : fence) : perform () :=
  _ ← _write env "owner" (set_fence (pane_digest b) (Valid x));
  _ ← lift (touch (write_fails env) "enrollment");
  writing (enroll (pane_digest b)).
(** [assert_input_allowed]. *)
Definition assert_input_allowed (b : binding) (t : option token) (w : world) : result string fence :=
  state ← _owner b w;
  _ ← guard (bool_decide (input_owner state = "automation")) "human_owns_input";
  _ ← guard (match t with Some t => bool_decide (t = owner_token b (generation state)) | None => true end) "stale_input_owner_generation";
  Done state.
(** [_identity]. *)
Definition last_of (key : string) (lines : list (list Z)) : option (list Z) :=
  last (filter (λ l, prefixed (text key) l = true) (strip_line <$> lines)).
Definition _identity (env : Env) (b : binding) (what : string) (n : nat) : result string observed :=
  o ← snapshot env what n;
  _ ← guard (bool_decide (seen o = process b) && bool_decide (executable_sha256 (seen o) = BINARY_SHA256)) "menu_identity_changed";
  here ← process_cwd o;
  _ ← guard (bool_decide (here = cwd b)) "menu_cwd_changed";
  let lines := _lines (frame o) in
  _ ← guard (bool_decide (last_of "Shell version:" lines = Some (text "Shell version: 1.0.40") ∨
                          last_of "Shell version:" lines = Some (text "Shell version: 1.0.40 [stable]")) &&
             bool_decide (last_of "Session ID:" lines = Some (text ("Session ID: " +:+ session_id (process b)))))
            "menu_session_identity_unavailable";
  Done o.
Definition name_char (c : Ascii.ascii) : bool :=
  let b := byte_of c in ((48 <=? b) && (b <=? 57)) || ((65 <=? b) && (b <=? 90)) || ((97 <=? b) && (b <=? 122)) || (b =? 95) || (b =? 45).
Definition name_ok (limit : nat) (name : string) : bool :=
  nonempty name && (String.length name <=? limit)%nat && all_chars name_char name.
(** [_profile], and [_permission]. *)
Definition _profile (name : string) (w : world) : result string profile :=
  _ ← guard (name_ok 64 name) "invalid_menu_profile";
  match file_at (profiles w) name with
  | Missing => Raised "menu_profile_unavailable"
  | f => p ← _read f; _ ← guard (bool_decide (profile_scope p = "grok-palette-open-cancel")) "menu_profile_invalid"; Done p
  end.
Definition target_context (b : binding) : context :=
  {| target := Some (session_id (process b)); relationship := None; task_id := None; operation_id := None; capability := "not_observed";
     readiness := "not_observed"; launch_profile := None |}.
Definition _permission (env : Env) (what : string) (action : string) (p : Principal) (b : binding) : result string (option decision) :=
  let '(permissions, w) := permissions_at env what in
  st ← open_store permissions (root env) w;
  _ ← guard (active st w) "common_permission_policy_required";
  check_operation permissions (root env) action p (target_context b) w.

(** ** Operations *)
Record inspection := { inspected_profile : string; inspected_scope : string; inspected_session : string; ownership : fence; inspected_token : token }.
Definition inspect (name : string) (w : world) : result string inspection :=
  p ← _profile name w;
  state ← _owner (profile_binding p) w;
  Done {| inspected_profile := name; inspected_scope := profile_scope p; inspected_session := session_id (process (profile_binding p));
          ownership := state; inspected_token := owner_token (profile_binding p) (generation state) |}.
Definition at_cwd (path : string) (b : binding) : binding := {| socket := socket b; pane := pane b; process := process b; cwd := path |}.
Definition configure (env : Env) (name : string) (b : binding) (p : Principal) (reason : string) : perform inspection :=
  _ ← lift (guard (bool_decide (role p = "operator") && nonempty reason) "operator_required");
  _ ← lift (guard (name_ok 64 name) "invalid_menu_profile");
  path ← lift (resolved_cwd env);
  let b := at_cwd path b in
  o ← lift (_identity env b "configure" 0);
  _ ← lift (guard (_empty (frame o)) "menu_empty_composer_required");
  state ← asking (_owner b);
  _ ← _save_owner env b state;
  _ ← _write env "profile" (set_profile name (Valid {| profile_scope := "grok-palette-open-cancel"; profile_binding := b;
                                                       profile_issuer := subject p; profile_reason := reason |}));
  asking (inspect name).
Definition change_owner (env : Env) (name : string) (t : option token) (p : Principal) (human : bool) (reason : string) : perform inspection :=
  _ ← lift (guard (bool_decide (role p = "operator") && nonempty reason) "operator_required");
  profile ← asking (_profile name);
  let b := profile_binding profile in
  state ← asking (_owner b);
  _ ← lift (guard (bool_decide (t = Some (owner_token b (generation state)))) "stale_input_owner_generation");
  _ ← lift (_permission env "owner" (if human then "terminal.takeover" else "terminal.return") p b);
  _ ← lift (if human then Done () else o ← _identity env b "owner" 0; guard (_empty (frame o)) "menu_empty_composer_required");
  let owner := if human then "human" else "automation" in
  _ ← _save_owner env b {| generation := generation state + 1; input_owner := owner;
        fence_history := fence_history state ++ [{| event_actor := subject p; event_reason := reason; event_owner := owner;
                                                    event_generation := generation state + 1 |}] |};
  asking (inspect name).

(** What [run] and [reconcile] answer: the row and what was observed. *)
Record menu_answer := { answer_row : row; reconciliation_observation : option string }.
Definition observe_menu (env : Env) (name : string) (w : world) : string :=
  match (p ← _profile name w; _identity env (profile_binding p) "reconcile" 0) with
  | Done o => if _palette (frame o) then "palette" else if _empty (frame o) then "empty_composer" else "unknown"
  | Raised _ => "unknown"
  end.
Definition reconcile (env : Env) (name operation : string) : perform menu_answer :=
  _ ← lift (guard (name_ok 80 operation) "invalid_menu_operation");
  r ← asking (λ w, _read (file_at (operations w) operation));
  _ ← lift (guard (bool_decide (row_profile r = name)) "operation_profile_changed");
  seen_now ← reading (observe_menu env name);
  mret {| answer_row := r; reconciliation_observation := Some seen_now |}.

(** The loop that waits for a frame: it polls every .05 seconds for 2. *)
Definition no_fuel : string := "no fuel".
Definition polls : nat := 42.
Fixpoint wait (env : Env) (b : binding) (what : string) (expected : string → bool) (deadline : Q) (fuel n : nat) : result string observed :=
  match fuel with
  | O => Raised no_fuel
  | S fuel =>
    o ← _identity env b what n;
    if expected (frame o) then Done o
    else if Qle_bool deadline (monotonic env what n) then Raised "menu_post_state_unconfirmed"
    else wait env b what expected deadline fuel (S n)
  end.
Definition with_state (state : string) (reason : option string) (r : row) : row :=
  {| row_operation := row_operation r; row_profile := row_profile r; row_pane := row_pane r; row_token := row_token r; row_state := state;
     pre_sha256 := pre_sha256 r; composer_sha256 := composer_sha256 r; steps := steps r; row_reason := reason; pending_key := pending_key r |}.
(** The row with the intent of a key, and with its key observed. *)
Definition intend (key : string) (r : row) : row :=
  {| row_operation := row_operation r; row_profile := row_profile r; row_pane := row_pane r; row_token := row_token r; row_state := "uncertain";
     pre_sha256 := pre_sha256 r; composer_sha256 := composer_sha256 r;
     steps := steps r ++ [{| step_key := key; step_state := "uncertain"; post_sha256 := None |}]; row_reason := row_reason r; pending_key := Some key |}.
Definition observe_step (state post : string) (r : row) : row :=
  {| row_operation := row_operation r; row_profile := row_profile r; row_pane := row_pane r; row_token := row_token r; row_state := state;
     pre_sha256 := pre_sha256 r; composer_sha256 := composer_sha256 r;
     steps := alter (λ s, {| step_key := step_key s; step_state := "observed"; post_sha256 := Some post |}) (Nat.pred (length (steps r))) (steps r);
     row_reason := row_reason r; pending_key := None |}.
(** [_tmux(..., 'send-keys', ...)] under the guard of the call, and the wait for
    the frame that the key is expected to bring. *)
Definition send_key (env : Env) (b : binding) (t : token) (operation key : string) (expected : string → bool) : perform observed :=
  _ ← lift (touch (refuses env) key);
  _ ← asking (assert_input_allowed b (Some t));
  _ ← writing (λ w, press {| press_operation := operation; press_pane := pane_digest b; press_key := key;
         press_fence := _owner b w;
         press_row := file_at (operations w) operation |} w);
  _ ← lift (touch (fails env) key);
  lift (wait env b ("after " +:+ key) expected (monotonic env key 0 + 2) polls 0).
Definition keys : list (string * (string → bool) * (string → bool)) := [("C-p", _empty, _palette); ("Escape", _palette, _empty)].
(** The loop over the keys: the row and whether all were observed. *)
Fixpoint press_keys (env : Env) (b : binding) (t : token) (p : Principal) (operation : string)
    (keys : list (string * (string → bool) * (string → bool))) (r : row) : perform row :=
  match keys with
  | [] => mret r
  | (key, precondition, expected) :: keys =>
    _ ← lift (_permission env ("before " +:+ key) "terminal.menu" p b);
    current ← lift (_identity env b ("before " +:+ key) 0);
    if negb (precondition (frame current)) then
      let r := with_state "held" (Some "menu_precondition_changed") r in
      _ ← _write env ("held " +:+ key) (set_operation operation (Valid r));
      mret r
    else
      let r := intend key r in
      _ ← _write env ("intent " +:+ key) (set_operation operation (Valid r));
      catching
        (o ← send_key env b t operation key expected;
         _ ← lift (guard (negb (bool_decide (key = "Escape")) || bool_decide (composer (frame o) = composer_sha256 r)) "menu_post_frame_changed");
         mret o)
        (λ e, bool_decide (e ∈ [killed; no_fuel]))
        (λ o,
         let r := observe_step (if bool_decide (key = "C-p") then "between_steps" else "completed") (_digest (JStr (frame o))) r in
         _ ← _write env ("observed " +:+ key) (set_operation operation (Valid r));
         press_keys env b t p operation keys r)
        (λ e,
         let r := with_state "uncertain" (Some (encode_line (take 200 (code_points e)))) r in
         _ ← _write env ("reason " +:+ key) (set_operation operation (Valid r));
         mret r)
  end.
(** The effects that are unresolved on the pane. *)
Definition unresolved (b : binding) (w : world) : result string () :=
  foldr (λ '(_, f) rest, r ← _read f;
           if bool_decide (row_pane r = pane_digest b) && bool_decide (row_state r = "uncertain") then Raised "unresolved_menu_effect" else rest)
    (Done ()) (map_to_list (operations w)).
Definition run (env : Env) (name : string) (t : option token) (p : Principal) (operation : string) : perform menu_answer :=
  profile ← asking (_profile name);
  let b := profile_binding profile in
  _ ← lift (guard (name_ok 80 operation) "invalid_menu_operation");
  state ← asking (assert_input_allowed b t);
  let context := owner_token b (generation state) in
  existing ← reading (λ w, operations w !! operation);
  match existing with
  | Some _ => reconcile env name operation
  | None =>
    _ ← asking (unresolved b);
    _ ← lift (_permission env "admit" "terminal.menu" p b);
    before ← lift (_identity env b "admit" 0);
    _ ← lift (guard (_empty (frame before)) "menu_empty_composer_required");
    let r := {| row_operation := operation; row_profile := name; row_pane := pane_digest b; row_token := t; row_state := "admitted";
                pre_sha256 := _digest (JStr (frame before)); composer_sha256 := composer (frame before); steps := []; row_reason := None;
                pending_key := None |} in
    _ ← _write env "admit" (set_operation operation (Valid r));
    r ← press_keys env b context p operation keys r;
    mret {| answer_row := r; reconciliation_observation := None |}
  end.
End Menu.
