(* ===== verification/MenuRules.v ===== *)
(** * What guarded menu input promises

    [MenuRules]: over any history of configurations, changes of custody and
    menu runs, each of which may stop anywhere, a key is sent only under the
    automation's custody and the current generation, as an intent on disk, once;
    a takeover stops all input until it is returned, old tokens never work
    again, an unresolved effect locks its pane, and the wait for a frame ends. *)
From Stdlib Require Import QArith Lqa.
From S2P Require Import Prelude Effects Json Sha256 Timestamps Permissions MenuControl.
Open Scope Z_scope.

#[local] Opaque sha256 pane_digest.
Section Rules.
Context {T : Type} {TT : Timestamp T}.
Implicit Types (env : Env (T:=T)) (b : binding) (w : world).

(** ** One write *)
Lemma write_cases env what (f : world → world) w r w' : _write env what f w = (r, w') →
  (r = Done tt ∧ w' = f w) ∨ (∃ e, r = Raised e) ∧ (w' = w ∨ w' = f w).
Proof.
  unfold _write, mbind, effect_bind, lift, writing, touch.
  destruct (write_fails env what), (sync_fails env what); intros [= <- <-]; naive_solver.
Qed.
Lemma write_triple env what (f : world → world) (P : world → Prop) Q I :
  (∀ w, P w → Q (f w)) → (∀ w, P w → I w) → (∀ w, P w → I (f w)) → triple P (_write env what f) (λ _, Q) I.
Proof. intros HQ HI HI' w r w' Hw [[-> ->]|[[e ->] [->| ->]]]%write_cases; auto. Qed.

(** ** A run *)
(** The last key of a row is an intent that is still uncertain. *)
Definition intended (key : string) (r : row) : Prop :=
  row_state r = "uncertain" ∧ pending_key r = Some key ∧
  last (steps r) = Some {| step_key := key; step_state := "uncertain"; post_sha256 := None |}.
(** A key was sent under custody: the automation owned the input, the caller's
    token was the current one, and the intent of this key was on disk. *)
Definition press_ok (x : key_press) : Prop :=
  ∃ f r, press_fence x = Done f ∧ input_owner f = "automation" ∧ press_row x = Valid r ∧ row_operation r = press_operation x ∧
    row_pane r = press_pane x ∧ intended (press_key x) r ∧
    ∀ t, row_token r = Some t → token_generation t = generation f ∧ token_pane t = press_pane x.
(** What a run has to see before it sends a key. *)
Definition press_authorised env b (p : Principal) (x : key_press) : Prop :=
  ∃ precondition expected o d, (press_key x, precondition, expected) ∈ keys ∧
    _permission env ("before " +:+ press_key x) "terminal.menu" p b = Done d ∧
    _identity env b ("before " +:+ press_key x) 0 = Done o ∧ precondition (frame o) = true.
(** The presses of the run of [op] on [b]. *)
Definition by_run env b p op (x : key_press) : Prop :=
  press_ok x ∧ press_operation x = op ∧ press_pane x = pane_digest b ∧ press_authorised env b p x.
Record during env b p op (w0 : world) (sent : list string) w : Prop := {
  during_fences : fences w = fences w0;
  during_enrolled : enrolled w = enrolled w0;
  during_profiles : profiles w = profiles w0;
  during_operations op' : op' ≠ op → operations w !! op' = operations w0 !! op';
  during_pressed : ∃ new, pressed w = pressed w0 ++ new ∧ Forall (by_run env b p op) new ∧ press_key <$> new = sent;
  during_row : sent = [] ∨ is_Some (operations w !! op);
}.
(** What a run leaves: some of the keys, in their order. *)
Definition left_by env b p op (w0 : world) (ks : list string) w : Prop := ∃ sent, sent `prefix_of` ks ∧ during env b p op w0 sent w.
Lemma during_left env b p op w0 sent more w : during env b p op w0 sent w → left_by env b p op w0 (sent ++ more) w.
Proof. intros H. exists sent. split; [by apply prefix_app_r|done]. Qed.
Lemma during_set_operation env b p op w0 sent (f : file row) w : during env b p op w0 sent w → during env b p op w0 sent (set_operation op f w).
Proof.
  intros [H1 H2 H3 H4 H5 _]. split; [done..| |done|].
  - intros op' Hne. simpl. rewrite lookup_insert_ne by done. by apply H4.
  - right. simpl. rewrite lookup_insert_eq. by exists f.
Qed.
Lemma owner_during env b p op w0 sent w : during env b p op w0 sent w → _owner b w = _owner b w0.
Proof. intros [H1 H2 _ _ _ _]. unfold _owner. by rewrite H1, H2. Qed.
Lemma allowed_owner b t w f : assert_input_allowed b t w = Done f →
  _owner b w = Done f ∧ input_owner f = "automation" ∧ ∀ t', t = Some t' → t' = owner_token b (generation f).
Proof.
  unfold assert_input_allowed. intros (f' & Hf & H)%result_bind_Done. apply result_bind_Done in H as (? & Ha%guarded_Done & H).
  apply result_bind_Done in H as (? & Ht%guarded_Done & [= ->]). apply bool_decide_eq_true in Ha. split; [done|]. split; [done|].
  intros t' ->. by apply bool_decide_eq_true in Ht.
Qed.
Lemma during_press env b p op w0 sent w x : during env b p op w0 sent w → by_run env b p op x → is_Some (operations w !! op) →
  during env b p op w0 (sent ++ [press_key x]) (press x w).
Proof.
  intros [H1 H2 H3 H4 (new & Hp & Ha & Hk) _] Hx Hrow. split; [done..| |by right]. exists (new ++ [x]). simpl. rewrite Hp, app_assoc.
  split; [done|]. split; [apply Forall_app; split; [done|by apply Forall_singleton]|]. by rewrite fmap_app, Hk.
Qed.
(** The row that a key is sent under. *)
Definition under b (t : option token) op (r : row) : Prop := row_operation r = op ∧ row_pane r = pane_digest b ∧ row_token r = t.
Lemma send_key_during env b p op w0 sent g key expected precondition o d r t :
  (key, precondition, expected) ∈ keys → _permission env ("before " +:+ key) "terminal.menu" p b = Done d →
  _identity env b ("before " +:+ key) 0 = Done o → precondition (frame o) = true →
  under b t op r → intended key r → (∀ t', t = Some t' → t' = owner_token b g) →
  triple (λ w, during env b p op w0 sent w ∧ file_at (operations w) op = Valid r)
    (send_key env b (owner_token b g) op key expected)
    (λ _, during env b p op w0 (sent ++ [key])) (left_by env b p op w0 (sent ++ [key])).
Proof.
  intros Hkey Hperm Hid Hpre (Hro & Hrp & Hrt) Hint Ht. unfold send_key.
  assert (∀ w, during env b p op w0 sent w → left_by env b p op w0 (sent ++ [key]) w) as Hleft by (intros w; apply during_left).
  eapply (triple_bind _ _ (λ _ w, during env b p op w0 sent w ∧ file_at (operations w) op = Valid r)).
  { apply triple_lift; [done|]. intros w [Hw _]. by apply Hleft. }
  intros _.
  eapply (triple_bind _ _ (λ f w, _owner b w = Done f ∧ input_owner f = "automation" ∧ generation f = g ∧
    during env b p op w0 sent w ∧ file_at (operations w) op = Valid r)).
  { intros w r' w' [Hw Hr]. unfold asking. intros [= <- <-]. destruct (assert_input_allowed _ _ w) as [f|e] eqn:Hf; [|by apply Hleft].
    apply allowed_owner in Hf as (Hf & Ha & Hg). specialize (Hg _ eq_refl). unfold owner_token in Hg. by injection Hg as <-. }
  intros f. eapply (triple_bind _ _ (λ _, during env b p op w0 (sent ++ [key]))).
  - apply triple_writing. intros w (Hf & Ha & Hg & Hw & Hr).
    match goal with |- during _ _ _ _ _ _ (press ?x _) => change [key] with [press_key x]; apply (during_press _ _ _ _ _ _ _ x Hw) end.
    2: { unfold file_at in Hr. destruct (operations w !! op); [by eexists|done]. }
    split; [|by split_and!; try done; exists precondition, expected, o, d].
    exists f, r. simpl. split_and!; try done. intros t' Heq. rewrite Hrt in Heq. rewrite (Ht t' Heq). unfold owner_token. by rewrite Hg.
  - intros _. assert (∀ w, during env b p op w0 (sent ++ [key]) w → left_by env b p op w0 (sent ++ [key]) w) as Hl
      by (intros w Hw; by exists (sent ++ [key])).
    eapply (triple_bind _ _ (λ _, during env b p op w0 (sent ++ [key]))); [by apply triple_lift|]. intros _. by apply triple_lift.
Qed.

Lemma left_more env b p op w0 ks more w : left_by env b p op w0 ks w → left_by env b p op w0 (ks ++ more) w.
Proof. intros (sent & Hs & Hw). exists sent. split; [by apply prefix_app_r|done]. Qed.
Lemma left_set_operation env b p op w0 ks (f : file row) w : left_by env b p op w0 ks w → left_by env b p op w0 ks (set_operation op f w).
Proof. intros (sent & Hs & Hw). exists sent. split; [done|by apply during_set_operation]. Qed.
Lemma write_left env what b p op w0 ks (f : file row) :
  triple (left_by env b p op w0 ks) (_write env what (set_operation op f)) (λ _, left_by env b p op w0 ks) (left_by env b p op w0 ks).
Proof. apply write_triple; intros w Hw; try done; by apply left_set_operation. Qed.
Lemma intend_intended key r : intended key (intend key r).
Proof. split; [done|]. split; [done|]. simpl. by rewrite last_snoc. Qed.
Lemma press_keys_left env b p op w0 t g ks sent all r :
  Forall (.∈ keys) ks → under b t op r → (∀ t', t = Some t' → t' = owner_token b g) → sent ++ ks.*1.*1 = all →
  triple (during env b p op w0 sent) (press_keys env b (owner_token b g) p op ks r) (λ _, left_by env b p op w0 all) (left_by env b p op w0 all).
Proof.
  intros Hks Hr Ht. revert sent r Hr. induction Hks as [|[[key precondition] expected] ks Hkey _ IH]; intros sent r Hr Hall.
  { apply triple_ret. intros w Hw. exists sent. by rewrite <-Hall, app_nil_r. }
  assert (∀ w, during env b p op w0 sent w → left_by env b p op w0 all w) as Hleft by (intros w; rewrite <-Hall; apply during_left).
  assert ((sent ++ [key]) ++ ks.*1.*1 = all) as Hall' by (by rewrite <-app_assoc). cbn [press_keys].
  destruct (_permission env ("before " +:+ key) "terminal.menu" p b) as [d|e] eqn:Hperm;
    [|eapply triple_bind; [apply (triple_lift _ _ (λ _ _, False)); [done|exact Hleft]|by intros ? ? ? ? []]].
  eapply triple_bind; [apply (triple_lift _ _ (λ _, during env b p op w0 sent)); [done|done]|]. intros d'.
  destruct (_identity env b ("before " +:+ key) 0) as [o|e] eqn:Hid;
    [|eapply triple_bind; [apply (triple_lift _ _ (λ _ _, False)); [done|exact Hleft]|by intros ? ? ? ? []]].
  eapply triple_bind; [apply (triple_lift _ _ (λ c w, c = o ∧ during env b p op w0 sent w)); [by intros w a Hw [= <-]|by intros w Hw; apply Hleft]|].
  intros c. apply triple_assume. intros ->. destruct (precondition (frame o)) eqn:Hpre; simpl.
  - eapply (triple_bind _ _ (λ _ w, during env b p op w0 sent w ∧ file_at (operations w) op = Valid (intend key r))).
    { apply write_triple; intros w Hw; [|by apply Hleft|by apply left_set_operation, Hleft].
      split; [by apply during_set_operation|]. unfold file_at. simpl. by rewrite lookup_insert_eq. }
    intros _. eapply (triple_catching _ _ _ _ _ (λ _, during env b p op w0 (sent ++ [key])) (left_by env b p op w0 (sent ++ [key]))).
    + eapply triple_bind; [eapply send_key_during; try done; apply intend_intended|]. intros o'.
      eapply (triple_bind _ _ (λ _, during env b p op w0 (sent ++ [key]))); [|intros _; by apply triple_ret].
      apply triple_lift; [done|]. intros w Hw. by exists (sent ++ [key]).
    + intros o'. eapply (triple_bind _ _ (λ _, during env b p op w0 (sent ++ [key]))).
      * rewrite <-Hall'. apply write_triple; intros w Hw; [by apply during_set_operation|by apply during_left|].
        by apply left_set_operation, during_left.
      * intros _. by apply IH.
    + intros e _. eapply (triple_bind _ _ (λ _, left_by env b p op w0 all)); [|intros _; by apply triple_ret].
      eapply triple_pre; [|apply write_left]. intros w Hw. rewrite <-Hall'. by apply left_more.
    + intros w Hw. rewrite <-Hall'. by apply left_more.
  - eapply triple_bind; [eapply triple_pre; [exact Hleft|apply write_left]|]. intros []. by apply triple_ret.
Qed.

Definition key_names : list string := ["C-p"; "Escape"].
(** What a run that goes ahead starts from, and what it leaves. *)
Record ran env name (t : option token) (p : Principal) op w b (f : fence) w' : Prop := {
  ran_profile : ∃ pr, _profile name w = Done pr ∧ profile_binding pr = b;
  ran_allowed : assert_input_allowed b t w = Done f;
  ran_new : operations w !! op = None;
  ran_resolved : unresolved b w = Done ();
  ran_left : left_by env b p op w key_names w';
}.
Lemma run_cases env name t p op w r w' : run env name t p op w = (r, w') →
  (w' = w ∧ ∀ a, r = Done a → is_Some (operations w !! op)) ∨ ∃ b f, ran env name t p op w b f w'.
Proof.
  intros Hrun. unfold run in Hrun. unfold mbind at 1, effect_bind at 1, asking at 1 in Hrun.
  destruct (_profile name w) as [pr|e] eqn:Hpr; [|left; by injection Hrun as <- <-].
  unfold mbind at 1, effect_bind at 1, lift at 1 in Hrun. destruct (guard (name_ok 80 op) _); [|left; by injection Hrun as <- <-].
  unfold mbind at 1, effect_bind at 1, asking at 1 in Hrun. set (b := profile_binding pr) in *.
  destruct (assert_input_allowed b t w) as [f|e] eqn:Hf; [|left; by injection Hrun as <- <-].
  unfold mbind at 1, effect_bind at 1, reading at 1 in Hrun. destruct (operations w !! op) as [x|] eqn:Hop.
  { left. split; [|by intros; exists x]. revert Hrun. unfold reconcile, mbind, effect_bind, lift, asking, reading.
    destruct (guard (name_ok 80 op) _); [|by intros [= _ <-]]. destruct (_read _); [|by intros [= _ <-]].
    destruct (guard _ _); by intros [= _ <-]. }
  unfold mbind at 1, effect_bind at 1, asking at 1 in Hrun.
  destruct (unresolved b w) as [[]|e] eqn:Hun; [|left; by injection Hrun as <- <-].
  unfold mbind at 1, effect_bind at 1, lift at 1 in Hrun. destruct (_permission _ _ _ _ _) as [d|e]; [|left; by injection Hrun as <- <-].
  unfold mbind at 1, effect_bind at 1, lift at 1 in Hrun. destruct (_identity _ _ _ _) as [o|e]; [|left; by injection Hrun as <- <-].
  unfold mbind at 1, effect_bind at 1, lift at 1 in Hrun. destruct (guard (_empty _) _); [|left; by injection Hrun as <- <-].
  right. exists b, f. split; [by exists pr|done..|]. apply allowed_owner in Hf as (_ & _ & Ht).
  assert (during env b p op w [] w) as Hw by (split; [done..| |by left]; exists []; by rewrite app_nil_r).
  match type of Hrun with ?m w = _ => assert (triple (during env b p op w []) m (λ _, left_by env b p op w key_names) (left_by env b p op w key_names)) as Hm end.
  { eapply (triple_bind _ _ (λ _, during env b p op w [])).
    - apply write_triple; intros w1 Hw1; [by apply during_set_operation|by exists []; split; [apply prefix_nil|]|].
      exists []. split; [apply prefix_nil|by apply during_set_operation].
    - intros _. eapply (triple_bind _ _ (λ _, left_by env b p op w key_names)); [|intros r'; by apply triple_ret].
      eapply (press_keys_left _ _ _ _ _ t); [by apply Forall_forall|done|done|done]. }
  specialize (Hm _ _ _ Hw Hrun). by destruct r.
Qed.

(** ** Custody *)
Definition fence_ok (f : fence) : Prop := 1 <= generation f ∧ (input_owner f = "human" ∨ input_owner f = "automation").
(** A later fence: generations and history only grow, and a generation is never reused. *)
Definition fence_evolves (f f' : fence) : Prop :=
  generation f <= generation f' ∧ fence_history f `prefix_of` fence_history f' ∧ (generation f' = generation f → f' = f).
#[local] Instance fence_evolves_preorder : PreOrder fence_evolves.
Proof.
  split.
  - intros f. by split_and!.
  - intros f1 f2 f3 (H1 & H2 & H3) (H4 & H5 & H6). split_and!; [lia|by etransitivity|].
    intros Heq. assert (generation f2 = generation f1) as E by lia. rewrite <-(H3 E). apply H6. lia.
Qed.
Lemma owner_ok b w f : _owner b w = Done f → fence_ok f.
Proof.
  unfold _owner, fence_ok. destruct (file_at (fences w) (pane_digest b)) as [|e|x]; simpl; [|done|].
  - destruct (bool_decide _); [done|]. intros [= <-]. simpl. split; [lia|by right].
  - intros (? & Hg%guarded_Done & [= <-])%result_bind_Done. rewrite andb_true_iff, Z.leb_le, bool_decide_eq_true in Hg. set_solver.
Qed.
Lemma owner_pane b b' w : pane_digest b' = pane_digest b → _owner b' w = _owner b w.
Proof. unfold _owner. by intros ->. Qed.
Lemma owner_saved b f w : fence_ok f → file_at (fences w) (pane_digest b) = Valid f → _owner b w = Done f.
Proof.
  intros [Hg Ho] Hf. unfold _owner. rewrite Hf. simpl. unfold guard. rewrite (proj2 (Z.leb_le _ _) Hg), bool_decide_true; [done|set_solver].
Qed.
(** What a save of custody leaves. *)
Inductive saved_owner (b : binding) (f : fence) (w : world) : world → Prop :=
| Unsaved : saved_owner b f w w
| Saved : saved_owner b f w (set_fence (pane_digest b) (Valid f) w)
| Enrolled : saved_owner b f w (enroll (pane_digest b) (set_fence (pane_digest b) (Valid f) w)).
Lemma save_owner_cases env b f w r w' : _save_owner env b f w = (r, w') →
  saved_owner b f w w' ∧ (r = Done tt → w' = enroll (pane_digest b) (set_fence (pane_digest b) (Valid f) w)).
Proof.
  unfold _save_owner. intros H. unfold mbind at 1, effect_bind at 1 in H. destruct (_write env "owner" _ w) as [r1 w1] eqn:Hw.
  apply write_cases in Hw as [[-> ->]|[[e ->] Hw]].
  - unfold mbind, effect_bind, lift, touch, writing in H. destruct (write_fails env "enrollment"); apply pair_equal_spec in H as [<- <-]; (split; [constructor|done]).
  - apply pair_equal_spec in H as [<- <-]. split; [|done]. destruct Hw as [->| ->]; constructor.
Qed.
Lemma saved_owner_at b f w w' b' f' : saved_owner b f w w' → fence_ok f → _owner b' w = Done f' →
  (pane_digest b' = pane_digest b → fence_evolves f' f) → ∃ f2, _owner b' w' = Done f2 ∧ fence_evolves f' f2 ∧ (f2 = f' ∨ pane_digest b' = pane_digest b ∧ f2 = f).
Proof.
  intros Hs Hok Hf' Hev. destruct (decide (pane_digest b' = pane_digest b)) as [Heq|Hne].
  - destruct Hs.
    + exists f'. by split_and!; [| |left].
    + exists f. split; [|split; [by apply Hev|by right]]. apply owner_saved; [done|]. unfold file_at. simpl. by rewrite Heq, lookup_insert_eq.
    + exists f. split; [|split; [by apply Hev|by right]]. apply owner_saved; [done|]. unfold file_at. simpl. by rewrite Heq, lookup_insert_eq.
  - apply not_eq_sym in Hne. exists f'. split; [|by split; [|left]]. rewrite <-Hf'. unfold _owner, file_at.
    destruct Hs; simpl; [done|by rewrite lookup_insert_ne by exact Hne|by rewrite !lookup_insert_ne by exact Hne].
Qed.
Lemma saved_owner_rest b f w w' : saved_owner b f w w' → profiles w' = profiles w ∧ operations w' = operations w ∧ pressed w' = pressed w.
Proof. by intros []. Qed.
(** What a change of custody does. *)
Definition handed (b : binding) (f f' : fence) (human : bool) : Prop :=
  generation f' = generation f + 1 ∧ fence_history f `prefix_of` fence_history f' ∧ input_owner f' = if human then "human" else "automation".
Lemma handed_evolves b f f' human : fence_ok f → handed b f f' human → fence_ok f' ∧ fence_evolves f f'.
Proof.
  intros [Hg _] (Hg' & Hh & Ho). split; [split; [lia|]; destruct human; auto|]. split; [lia|]. split; [done|]. lia.
Qed.
Lemma change_owner_cases env name t p human reason w r w' : change_owner env name t p human reason w = (r, w') →
  w' = w ∧ (∃ e, r = Raised e) ∨ ∃ pr f f', _profile name w = Done pr ∧ _owner (profile_binding pr) w = Done f ∧
    t = Some (owner_token (profile_binding pr) (generation f)) ∧ handed (profile_binding pr) f f' human ∧
    saved_owner (profile_binding pr) f' w w' ∧
    (∀ a, r = Done a → w' = enroll (pane_digest (profile_binding pr)) (set_fence (pane_digest (profile_binding pr)) (Valid f') w)).
Proof.
  intros H. unfold change_owner in H. unfold mbind at 1, effect_bind at 1, lift at 1 in H. destruct (guard _ _); [|left; injection H as <- <-; eauto].
  unfold mbind at 1, effect_bind at 1, asking at 1 in H. destruct (_profile name w) as [pr|e] eqn:Hpr; [|left; injection H as <- <-; eauto].
  unfold mbind at 1, effect_bind at 1, asking at 1 in H. destruct (_owner _ w) as [f|e] eqn:Hf; [|left; injection H as <- <-; eauto].
  unfold mbind at 1, effect_bind at 1, lift at 1 in H. destruct (guard (bool_decide (t = _)) _) as [u|] eqn:Ht; [|left; injection H as <- <-; eauto].
  unfold mbind at 1, effect_bind at 1, lift at 1 in H. destruct (_permission _ _ _ _ _); [|left; injection H as <- <-; eauto].
  unfold mbind at 1, effect_bind at 1, lift at 1 in H. destruct (if human then _ else _); [|left; injection H as <- <-; eauto].
  apply guarded_Done, bool_decide_eq_true in Ht. right. unfold mbind, effect_bind in H. set (f' := {| generation := generation f + 1 |}) in H.
  destruct (_save_owner _ _ _ w) as [r1 w1] eqn:Hs. apply save_owner_cases in Hs as [Hs Hd]. exists pr, f, f'.
  assert (w' = w1 ∧ ∀ a, r = Done a → r1 = Done tt) as [-> Hr].
  { destruct r1 as [[]|e]; [unfold asking in H; injection H as <- <-; by split|injection H as <- <-; by split]. }
  do 3 (split; [done|]). split; [split_and!; [done|by apply prefix_app_r|done]|]. split; [done|]. intros y Hy. by apply Hd, (Hr y).
Qed.

Lemma configure_cases env name b p reason w r w' : configure env name b p reason w = (r, w') →
  w' = w ∨ ∃ b f w1, _owner b w = Done f ∧ saved_owner b f w w1 ∧ (w' = w1 ∨ ∃ pr, w' = set_profile name (Valid pr) w1).
Proof.
  intros H. unfold configure in H. unfold mbind at 1, effect_bind at 1, lift at 1 in H. destruct (guard _ _); [|left; by injection H].
  unfold mbind at 1, effect_bind at 1, lift at 1 in H. destruct (guard _ _); [|left; by injection H].
  unfold mbind at 1, effect_bind at 1, lift at 1 in H. destruct (resolved_cwd env) as [path|]; [|left; by injection H].
  unfold mbind at 1, effect_bind at 1, lift at 1 in H. destruct (_identity _ _ _ _); [|left; by injection H].
  unfold mbind at 1, effect_bind at 1, lift at 1 in H. destruct (guard _ _); [|left; by injection H].
  unfold mbind at 1, effect_bind at 1, asking at 1 in H. destruct (_owner _ w) as [f|e] eqn:Hf; [|left; by injection H].
  right. unfold mbind at 1, effect_bind at 1 in H. destruct (_save_owner _ _ _ w) as [r1 w1] eqn:Hs. apply save_owner_cases in Hs as [Hs _].
  exists (at_cwd path b), f, w1. do 2 (split; [done|]). destruct r1 as [[]|e]; [|left; by apply pair_equal_spec in H as [_ <-]].
  unfold mbind at 1, effect_bind at 1 in H. destruct (_write _ _ _ w1) as [r2 w2] eqn:Hw. apply write_cases in Hw as [[-> ->]|[[e ->] Hw]].
  - unfold asking in H. apply pair_equal_spec in H as [_ <-]. right. eauto.
  - apply pair_equal_spec in H as [_ <-]. destruct Hw as [->| ->]; [by left|right; eauto].
Qed.

(** ** Histories *)
Inductive call :=
| Configuring (env : Env (T:=T)) (name : string) (b : binding) (p : Principal) (reason : string)
| Changing (env : Env (T:=T)) (name : string) (t : option token) (p : Principal) (human : bool) (reason : string)
| Running (env : Env (T:=T)) (name : string) (t : option token) (p : Principal) (operation : string).
(** What a call leaves, wherever it stops. *)
Definition after (x : call) (w : world) : world :=
  match x with
  | Configuring env name b p reason => snd (configure env name b p reason w)
  | Changing env name t p human reason => snd (change_owner env name t p human reason w)
  | Running env name t p operation => snd (run env name t p operation w)
  end.
Definition step (w w' : world) : Prop := ∃ x, w' = after x w.
Definition empty_world : world := {| fences := ∅; enrolled := ∅; profiles := ∅; operations := ∅; pressed := [] |}.
(** The call returns the pane to the automation. *)
Definition returns_pane (pane : string) (x : call) w : Prop :=
  ∃ env name t p reason pr, x = Changing env name t p false reason ∧ _profile name w = Done pr ∧ pane_digest (profile_binding pr) = pane.
(** The three ways in which a call moves the files. *)
Inductive moves (x : call) (w : world) : world → Prop :=
| Still : moves x w w
| Custody b f f' w1 w' : _owner b w = Done f → fence_ok f' → fence_evolves f f' →
    (input_owner f = "human" → input_owner f' = "human" ∨ returns_pane (pane_digest b) x w) →
    saved_owner b f' w w1 → w' = w1 ∨ (∃ name pr, w' = set_profile name (Valid pr) w1) → moves x w w'
| Ran env name t p op b f w' : ran env name t p op w b f w' → moves x w w'.
Lemma after_moves x w : moves x w (after x w).
Proof.
  destruct x as [env name b p reason|env name t p human reason|env name t p op]; simpl.
  - destruct (configure env name b p reason w) as [r w'] eqn:H. apply configure_cases in H as [->|(b' & f & w1 & Hf & Hs & Hw)]; [apply Still|].
    eapply Custody; [exact Hf|by eapply owner_ok|done|by left|exact Hs|]. simpl. destruct Hw as [->|[pr ->]]; [by left|right; eauto].
  - destruct (change_owner env name t p human reason w) as [r w'] eqn:H.
    apply change_owner_cases in H as [[-> _]|(pr & f & f' & Hpr & Hf & _ & Hh & Hs & _)]; [apply Still|].
    destruct (handed_evolves _ _ _ _ (owner_ok _ _ _ Hf) Hh) as [Hok Hev].
    eapply Custody; [exact Hf|exact Hok|exact Hev| |exact Hs|by left]. intros _. destruct Hh as (_ & _ & Ho).
    destruct human; [by left|right]. by exists env, name, t, p, reason, pr.
  - destruct (run env name t p op w) as [r w'] eqn:H. apply run_cases in H as [[-> _]|(b & f & H)]; [apply Still|]. by eapply Ran.
Qed.

(** *** What histories keep *)
Record kept (w w' : world) : Prop := {
  kept_rows op x : operations w !! op = Some x → operations w' !! op = Some x;
  kept_pressed : pressed w `prefix_of` pressed w';
  kept_fences b f : _owner b w = Done f → ∃ f', _owner b w' = Done f' ∧ fence_evolves f f';
}.
#[local] Instance kept_preorder : PreOrder kept.
Proof.
  split.
  - intros w. split; [done|done|]. intros b f Hf. by exists f.
  - intros w1 w2 w3 [H1 H2 H3] [H4 H5 H6]. split; [eauto|by etransitivity|]. intros b f (f' & Hf' & He)%H3.
    apply H6 in Hf' as (f2 & Hf2 & He2). exists f2. split; [done|by etransitivity].
Qed.
Lemma ran_owner env name t p op w b f w' b' : ran env name t p op w b f w' → _owner b' w' = _owner b' w.
Proof. intros [_ _ _ _ (sent & _ & Hd)]. unfold _owner. by rewrite (during_fences _ _ _ _ _ _ _ Hd), (during_enrolled _ _ _ _ _ _ _ Hd). Qed.
Lemma ran_rows env name t p op w b f w' op' x : ran env name t p op w b f w' → operations w !! op' = Some x → operations w' !! op' = Some x.
Proof.
  intros [_ _ Hnew _ (sent & _ & Hd)] Hx. destruct (decide (op' = op)) as [->|Hne]; [congruence|].
  by rewrite (during_operations _ _ _ _ _ _ _ Hd).
Qed.
Lemma moves_kept x w w' : moves x w w' → kept w w'.
Proof.
  intros [|b f f' w1 w2 Hf Hok Hev _ Hs Hw|env name t p op b f w2 Hr]; [done| |].
  - destruct (saved_owner_rest _ _ _ _ Hs) as (_ & Hop & Hpr).
    assert (kept w w1) as Hk.
    { split; [by rewrite Hop|by rewrite Hpr|]. intros b' f1 Hf1. destruct (saved_owner_at _ _ _ _ b' f1 Hs Hok Hf1) as (f2 & ? & ? & _); [|eauto].
      intros Heq. rewrite (owner_pane _ _ _ Heq), Hf in Hf1. by injection Hf1 as <-. }
    destruct Hw as [->|(name & pr & ->)]; [done|]. destruct Hk. by split.
  - split; [intros op' y; by eapply ran_rows| |].
    + destruct Hr as [_ _ _ _ (sent & _ & Hd)]. destruct (during_pressed _ _ _ _ _ _ _ Hd) as (new & -> & _). by apply prefix_app_r.
    + intros b' f' Hf'. exists f'. by rewrite (ran_owner _ _ _ _ _ _ _ _ _ _ Hr).
Qed.
Lemma steps_kept w w' : rtc step w w' → kept w w'.
Proof. induction 1 as [w|w1 w2 w3 [x ->] _ IH]; [done|]. etransitivity; [by eapply moves_kept, after_moves|done]. Qed.

(** *** The keys of an operation *)
Definition keys_of (op : string) (w : world) : list string := press_key <$> filter (λ x, press_operation x = op) (pressed w).
Definition menu_inv (w : world) : Prop :=
  Forall press_ok (pressed w) ∧ ∀ op, keys_of op w `prefix_of` key_names ∧ (operations w !! op = None → keys_of op w = []).
Lemma keys_of_app op w w' new : pressed w' = pressed w ++ new → keys_of op w' = keys_of op w ++ (press_key <$> filter (λ x, press_operation x = op) new).
Proof. intros H. unfold keys_of. by rewrite H, filter_app, fmap_app. Qed.
Lemma by_run_keys env b p op op' new : Forall (by_run env b p op) new →
  press_key <$> filter (λ x, press_operation x = op') new = if decide (op' = op) then press_key <$> new else [].
Proof.
  induction 1 as [|x new (_ & Hx & _) _ IH]; [by destruct (decide _)|]. rewrite filter_cons. destruct (decide (op' = op)) as [->|Hne].
  - rewrite decide_True by done. simpl. by f_equal.
  - rewrite decide_False by congruence. done.
Qed.
(** Another operation's run leaves the keys of this one. *)
Lemma ran_keys env name t p op w b f w' op' : ran env name t p op w b f w' → op' ≠ op → keys_of op' w' = keys_of op' w.
Proof.
  intros [_ _ _ _ (sent & _ & Hd)] Hne. destruct (during_pressed _ _ _ _ _ _ _ Hd) as (new & Hp & Hn & _).
  rewrite (keys_of_app _ _ _ _ Hp), (by_run_keys _ _ _ _ _ _ Hn), decide_False, app_nil_r by done. done.
Qed.
Lemma moves_same_presses b f w w1 w' : saved_owner b f w w1 → w' = w1 ∨ (∃ name pr, w' = set_profile name (Valid pr) w1) →
  pressed w' = pressed w ∧ operations w' = operations w.
Proof. intros (_ & Ho & Hp)%saved_owner_rest [->|(name & pr & ->)]; done. Qed.
Lemma moves_inv x w w' : moves x w w' → menu_inv w → menu_inv w'.
Proof.
  intros [|b f f' w1 w2 Hf Hok Hev _ Hs Hw|env name t p op b f w2 Hr] [Hall Hkeys]; [done| |].
  - destruct (moves_same_presses _ _ _ _ _ Hs Hw) as [Hp Ho]. unfold menu_inv, keys_of in *. by rewrite Hp, Ho.
  - pose proof Hr as [_ _ Hnew _ (sent & Hsent & Hd)]. destruct (during_pressed _ _ _ _ _ _ _ Hd) as (new & Hp & Hn & Hk). split.
    { rewrite Hp. apply Forall_app. split; [done|]. eapply Forall_impl; [exact Hn|]. by intros x' [? _]. }
    intros op'. destruct (decide (op' = op)) as [->|Hne].
    + rewrite (keys_of_app _ _ _ _ Hp), (by_run_keys _ _ _ _ _ _ Hn), decide_True by done.
      rewrite (proj2 (Hkeys op) Hnew), Hk. split; [done|]. intros Hnone.
      destruct (during_row _ _ _ _ _ _ _ Hd) as [->|[y Hy]]; [done|congruence].
    + rewrite (ran_keys _ _ _ _ _ _ _ _ _ _ Hr Hne), (during_operations _ _ _ _ _ _ _ Hd op' Hne). apply Hkeys.
Qed.
Lemma menu_reachable_inv w : rtc step empty_world w → menu_inv w.
Proof.
  assert (menu_inv empty_world) as Hi.
  { split; [by apply Forall_nil|]. intros op. split; [apply prefix_nil|reflexivity]. }
  generalize dependent empty_world. induction 2 as [|w1 w2 w3 [x ->] _ IH]; [done|]. apply IH. by eapply moves_inv, Hi; apply after_moves.
Qed.

(** C18 (safety). A key is sent only under custody: over any history of
    configurations, changes of custody and menu runs, ended anywhere, every key
    that was sent was sent while the automation owned the input, by a caller
    whose token, if it gave one, named this pane at the generation of that very
    moment, and while its intent to send this key was on disk as uncertain. *)
Theorem menu_custody w x : rtc step empty_world w → x ∈ pressed w →
  ∃ f r, press_fence x = Done f ∧ input_owner f = "automation" ∧ press_row x = Valid r ∧ row_operation r = press_operation x ∧
    row_state r = "uncertain" ∧ pending_key r = Some (press_key x) ∧
    ∀ t, row_token r = Some t → token_generation t = generation f ∧ token_pane t = press_pane x.
Proof.
  intros [Hall _]%menu_reachable_inv Hx. apply (proj1 (Forall_forall _ _) Hall) in Hx as (f & r & H1 & H2 & H3 & H4 & _ & (H5 & H6 & _) & H7).
  by exists f, r.
Qed.

(** C19 (safety). No key is repeated: over any history an operation sends at most
    the two keys, in their order and each once, and once its row is on disk the
    row and the keys it has sent stay what they are when its run has ended. *)
Theorem menu_keys_once w w' op : rtc step empty_world w → rtc step w w' →
  keys_of op w `prefix_of` ["C-p"; "Escape"] ∧
  ∀ x, operations w !! op = Some x → operations w' !! op = Some x ∧ keys_of op w' = keys_of op w.
Proof.
  intros Hw Hsteps. split; [apply menu_reachable_inv, Hw|]. intros x Hx. clear Hw.
  induction Hsteps as [w|w1 w2 w3 [y ->] Hrest IH]; [done|].
  assert (operations (after y w1) !! op = Some x ∧ keys_of op (after y w1) = keys_of op w1) as [Hx2 Hk].
  { pose proof (after_moves y w1) as Hm. split; [by apply (kept_rows _ _ (moves_kept _ _ _ Hm))|].
    destruct Hm as [|b f f' wa wb Hf Hok Hev _ Hs Hb|env name t p op' b f wb Hr]; [done| |].
    - destruct (moves_same_presses _ _ _ _ _ Hs Hb) as [Hp _]. unfold keys_of. by rewrite Hp.
    - apply (ran_keys _ _ _ _ _ _ _ _ _ _ Hr). intros ->. by rewrite (ran_new _ _ _ _ _ _ _ _ _ Hr) in Hx. }
  destruct (IH Hx2) as [? Hk2]. split; [done|congruence].
Qed.

(** *** Takeovers *)
(** A history in which nobody returns the pane. *)
Definition unreturned (pane : string) (w w' : world) : Prop := ∃ x, w' = after x w ∧ ¬ returns_pane pane x w.
Definition pane_presses (pane : string) (w : world) : list key_press := filter (λ x, press_pane x = pane) (pressed w).
Lemma ran_other_pane env name t p op w b f w' pane : ran env name t p op w b f w' → pane_digest b ≠ pane → pane_presses pane w' = pane_presses pane w.
Proof.
  intros [_ _ _ _ (sent & _ & Hd)] Hne. destruct (during_pressed _ _ _ _ _ _ _ Hd) as (new & Hp & Hn & _).
  unfold pane_presses. rewrite Hp, filter_app. replace (filter _ new) with (@nil key_press); [by rewrite app_nil_r|].
  symmetry. clear Hp. induction Hn as [|x new (_ & _ & Hx & _) _ IH]; [done|]. rewrite filter_cons_False; [done|congruence].
Qed.
Definition human_owns b w : Prop := ∃ f, _owner b w = Done f ∧ input_owner f = "human".
Lemma unreturned_step b w w' : unreturned (pane_digest b) w w' → human_owns b w →
  human_owns b w' ∧ pane_presses (pane_digest b) w' = pane_presses (pane_digest b) w.
Proof.
  intros (x & -> & Hret) (f & Hf & Hh). pose proof (after_moves x w) as Hm.
  destruct Hm as [|b' f1 f' w1 w2 Hf1 Hok Hev Hown Hs Hw|env name t p op b' f1 w2 Hr].
  - split; [by exists f|done].
  - destruct (moves_same_presses _ _ _ _ _ Hs Hw) as [Hp _]. split; [|by unfold pane_presses; rewrite Hp].
    assert (pane_digest b = pane_digest b' → f1 = f) as Hsame.
    { intros Heq. rewrite (owner_pane _ _ _ Heq) in Hf. rewrite Hf1 in Hf. by injection Hf. }
    destruct (saved_owner_at _ _ _ _ b f Hs Hok Hf) as (f2 & Hf2 & _ & Hcase); [by intros Heq; rewrite <-(Hsame Heq)|].
    exists f2. split; [by destruct Hw as [->|(name & pr & ->)]|]. destruct Hcase as [->|[Heq ->]]; [done|].
    destruct Hown as [?|Hr]; [by rewrite (Hsame Heq)|done|]. by rewrite <-Heq in Hr.
  - assert (pane_digest b' ≠ pane_digest b) as Hne.
    { intros Heq. destruct (allowed_owner _ _ _ _ (ran_allowed _ _ _ _ _ _ _ _ _ Hr)) as (Ho & Ha & _).
      rewrite (owner_pane _ _ _ Heq), Hf in Ho. injection Ho as <-. congruence. }
    split; [|by eapply ran_other_pane]. exists f. by rewrite (ran_owner _ _ _ _ _ _ _ _ _ _ Hr).
Qed.

(** C20 (safety). A takeover is respected: after an operator took a pane over, no
    later history sends a key to it until a change of custody returns it. *)
Theorem menu_takeover_respected env name t p reason w a w1 w2 pr :
  change_owner env name t p true reason w = (Done a, w1) → _profile name w = Done pr →
  rtc (unreturned (pane_digest (profile_binding pr))) w1 w2 →
  pane_presses (pane_digest (profile_binding pr)) w2 = pane_presses (pane_digest (profile_binding pr)) w.
Proof.
  intros [[_ [e ?]]|(pr' & f & f' & Hpr' & Hf & _ & Hh & Hs & Hd)]%change_owner_cases Hpr Hsteps; [done|].
  rewrite Hpr in Hpr'. injection Hpr' as <-. set (b := profile_binding pr) in *.
  destruct (handed_evolves _ _ _ _ (owner_ok _ _ _ Hf) Hh) as [Hok _]. destruct Hh as (_ & _ & Hhuman).
  assert (human_owns b w1) as Hown.
  { exists f'. split; [|done]. rewrite (Hd _ eq_refl). apply owner_saved; [done|]. unfold file_at. simpl. by rewrite lookup_insert_eq. }
  assert (pane_presses (pane_digest b) w1 = pane_presses (pane_digest b) w) as <-.
  { destruct (saved_owner_rest _ _ _ _ Hs) as (_ & _ & Hp). unfold pane_presses. by rewrite Hp. }
  clear -Hsteps Hown. induction Hsteps as [w1|w1 w2 w3 H12 _ IH]; [done|].
  destruct (unreturned_step _ _ _ H12 Hown) as [Hown2 <-]. by apply IH.
Qed.

(** Old tokens never work again: generations only grow, so a token
    of a generation below one that the pane has had is refused by every later
    menu run and change of custody on the pane, which then does nothing. *)
Theorem menu_old_token_refused b f1 w1 w2 env name t p op human reason pr :
  _owner b w1 = Done f1 → rtc step w1 w2 → token_generation t < generation f1 →
  _profile name w2 = Done pr → pane_digest (profile_binding pr) = pane_digest b →
  (∃ e, run env name (Some t) p op w2 = (Raised e, w2)) ∧ (∃ e, change_owner env name (Some t) p human reason w2 = (Raised e, w2)).
Proof.
  intros Hf1 Hsteps Ht Hpr Hpane. destruct (kept_fences _ _ (steps_kept _ _ Hsteps) _ _ Hf1) as (f2 & Hf2 & Hg & _).
  rewrite <-(owner_pane _ _ _ Hpane) in Hf2. set (b2 := profile_binding pr) in *.
  assert (t ≠ owner_token b2 (generation f2)) as Hne by (intros ->; simpl in Ht; lia).
  split.
  - unfold run. unfold mbind at 1, effect_bind at 1, asking at 1. rewrite Hpr. fold b2.
    unfold mbind at 1, effect_bind at 1, lift at 1. destruct (guard _ _); [|by eexists].
    unfold mbind at 1, effect_bind at 1, asking at 1. destruct (assert_input_allowed b2 (Some t) w2) as [f|e] eqn:Ha; [|by eexists].
    apply allowed_owner in Ha as (Ho & _ & Htok). specialize (Htok t eq_refl). rewrite Hf2 in Ho. injection Ho as <-. done.
  - destruct (change_owner env name (Some t) p human reason w2) as [r w'] eqn:Hrun.
    apply change_owner_cases in Hrun as [[-> [e ->]]|(pr' & f & f' & Hpr' & Hf & Htok & _)]; [by exists e|].
    rewrite Hpr in Hpr'. injection Hpr' as <-. fold b2 in Hf, Htok. rewrite Hf2 in Hf. injection Hf as <-. by injection Htok.
Qed.

(** *** Unresolved effects *)
Lemma unresolved_row b w op x : unresolved b w = Done () → operations w !! op = Some x →
  ∃ r, x = Valid r ∧ (row_pane r = pane_digest b → row_state r ≠ "uncertain").
Proof.
  unfold unresolved. intros Hun Hop. apply elem_of_map_to_list in Hop. revert Hun Hop. generalize (map_to_list (operations w)). intros l.
  induction l as [|[op' y] l IH]; simpl; [set_solver|]. intros (r & Hr & H)%result_bind_Done [[= -> ->]|Hin]%elem_of_cons.
  - destruct y as [| |r']; try done. injection Hr as <-. exists r'. split; [done|]. intros Hp Hs. by rewrite !bool_decide_true in H.
  - apply IH; [|done]. by destruct (_ && _).
Qed.


(** Every key is checked on its own: whatever a run sends are the
    first of its keys in their order, and right before each of them the action
    policy allowed the menu to the principal, and the pane showed the process,
    the directory and the session of the profile in the state that the key
    needs. *)
Theorem menu_press_authorised env name t p op w r w' : run env name t p op w = (r, w') →
  ∃ new, pressed w' = pressed w ++ new ∧ (press_key <$> new) `prefix_of` ["C-p"; "Escape"] ∧
  ∀ x, x ∈ new → ∃ pr precondition expected o d, _profile name w = Done pr ∧ press_pane x = pane_digest (profile_binding pr) ∧
    press_operation x = op ∧ (press_key x, precondition, expected) ∈ keys ∧
    _permission env ("before " +:+ press_key x) "terminal.menu" p (profile_binding pr) = Done d ∧
    _identity env (profile_binding pr) ("before " +:+ press_key x) 0 = Done o ∧ precondition (frame o) = true.
Proof.
  intros [[-> _]|(b & f & [(pr & Hpr & <-) _ _ _ (sent & Hsent & Hd)])]%run_cases.
  { exists []. rewrite app_nil_r. split; [done|]. split; [apply prefix_nil|]. set_solver. }
  destruct (during_pressed _ _ _ _ _ _ _ Hd) as (new & Hp & Hn & Hk). exists new. split; [done|]. split; [by rewrite Hk|].
  intros x Hx. apply (proj1 (Forall_forall _ _) Hn) in Hx as (_ & Hop & Hpane & precondition & expected & o & d & H1 & H2 & H3 & H4).
  by exists pr, precondition, expected, o, d.
Qed.

(** *** The wait *)
Open Scope Q_scope.
(** The clock is monotonic, and a poll sleeps for .05 seconds. *)
Definition paced env (key : string) : Prop :=
  monotonic env key 0 <= monotonic env ("after " +:+ key) 0 ∧
  ∀ n, monotonic env ("after " +:+ key) n + (1 # 20) <= monotonic env ("after " +:+ key) (S n).
Lemma paced_after env key n : paced env key → monotonic env key 0 + inject_Z (Z.of_nat n) * (1 # 20) <= monotonic env ("after " +:+ key) n.
Proof.
  intros [H0 Hs]. induction n as [|n IH]; [change (inject_Z (Z.of_nat 0)) with 0; lra|]. specialize (Hs n).
  replace (Z.of_nat (S n)) with (Z.of_nat n + 1)%Z by lia. rewrite inject_Z_plus. change (inject_Z 1) with 1. lra.
Qed.
(** The wait is decided at the [n]-th poll. *)
Definition decided env b (what : string) (expected : string → bool) (deadline : Q) (n : nat) : Prop :=
  match _identity env b what n with
  | Done o => expected (frame o) = true ∨ deadline <= monotonic env what n
  | Raised _ => True
  end.
Lemma wait_decided env b what expected deadline n fuel more : decided env b what expected deadline (n + fuel) →
  wait env b what expected deadline (S fuel) n = wait env b what expected deadline (S fuel + more) n.
Proof.
  revert n. induction fuel as [|fuel IH]; intros n Hdec; simpl.
  - rewrite Nat.add_0_r in Hdec. unfold decided in Hdec. destruct (_identity env b what n) as [o|e]; [|done]. simpl.
    destruct (expected (frame o)); [done|]. destruct Hdec as [?|Hdec]; [done|]. apply Qle_bool_iff in Hdec. by rewrite Hdec.
  - destruct (_identity env b what n) as [o|e]; [|done]. simpl. destruct (expected (frame o)); [done|].
    destruct (Qle_bool deadline (monotonic env what n)); [done|]. apply IH. by replace (S n + fuel)%nat with (n + S fuel)%nat by lia.
Qed.

(** C22 (termination). The wait for a frame ends: on a monotonic clock whose polls
    are .05 seconds apart, the loop with its deadline of 2 seconds is decided
    by the 41st poll at the latest, so that the number of polls that a run is
    given never cuts it short. *)
Theorem menu_wait_ends env b key expected : paced env key →
  decided env b ("after " +:+ key) expected (monotonic env key 0 + 2) 40 ∧
  ∀ more, wait env b ("after " +:+ key) expected (monotonic env key 0 + 2) (polls + more) 0 =
          wait env b ("after " +:+ key) expected (monotonic env key 0 + 2) polls 0.
Proof.
  intros Hp. assert (∀ n, (40 <= n)%nat → decided env b ("after " +:+ key) expected (monotonic env key 0 + 2) n) as Hdec.
  { intros n Hn. unfold decided. destruct (_identity _ _ _ _); [|done]. right. pose proof (paced_after env key n Hp) as Hle.
    assert (inject_Z 40 <= inject_Z (Z.of_nat n)) as H40 by (rewrite <-Zle_Qle; lia). change (inject_Z 40) with 40 in H40. lra. }
  split; [by apply Hdec|]. intros more. symmetry. apply wait_decided, Hdec. simpl. lia.
Qed.
Open Scope Z_scope.

(** *** A run that gets through *)
Definition disk_works env : Prop := ∀ what, write_fails env what = None ∧ sync_fails env what = None.
Lemma write_works env what f w : disk_works env → _write env what f w = (Done tt, f w).
Proof. intros Hd. destruct (Hd what) as [H1 H2]. unfold _write, mbind, effect_bind, lift, writing, touch. by rewrite H1, H2. Qed.
Lemma write_then {A} env what f w (k : () → effect world string A) : disk_works env → (_write env what f ≫= k) w = k tt (f w).
Proof. intros Hd. unfold mbind, effect_bind. by rewrite write_works. Qed.
(** The pane answers a key as it should. *)
Record answers env b (p : Principal) (key : string) (precondition expected : string → bool) (o : observed) : Prop := {
  answers_permitted : ∃ d, _permission env ("before " +:+ key) "terminal.menu" p b = Done d;
  answers_before : ∃ o', _identity env b ("before " +:+ key) 0 = Done o' ∧ precondition (frame o') = true;
  answers_sent : refuses env key = None ∧ fails env key = None;
  answers_after : wait env b ("after " +:+ key) expected (monotonic env key 0 + 2) polls 0 = Done o;
}.
Definition pressing b op key w : key_press :=
  {| press_operation := op; press_pane := pane_digest b; press_key := key; press_fence := _owner b w; press_row := file_at (operations w) op |}.
Lemma allowed_set_operation b t op (f : file row) w : assert_input_allowed b t (set_operation op f w) = assert_input_allowed b t w.
Proof. done. Qed.
Lemma allowed_press b t x w : assert_input_allowed b t (press x w) = assert_input_allowed b t w.
Proof. done. Qed.
Lemma press_one env b g p op key precondition expected ks r o f w : disk_works env → answers env b p key precondition expected o →
  assert_input_allowed b (Some (owner_token b g)) w = Done f → (key = "Escape" → composer (frame o) = composer_sha256 r) →
  let r1 := intend key r in let w1 := set_operation op (Valid r1) w in
  let r2 := observe_step (if bool_decide (key = "C-p") then "between_steps" else "completed") (_digest (JStr (frame o))) r1 in
  press_keys env b (owner_token b g) p op ((key, precondition, expected) :: ks) r w =
  press_keys env b (owner_token b g) p op ks r2 (set_operation op (Valid r2) (press (pressing b op key w1) w1)).
Proof.
  intros Hd [[d Hperm] (o' & Hid & Hpre) [Hrefuse Hfail] Hwait] Hallow Hcomposer r1 w1 r2. cbn [press_keys].
  unfold mbind at 1, effect_bind at 1, lift at 1. rewrite Hperm. unfold mbind at 1, effect_bind at 1, lift at 1. rewrite Hid, Hpre. cbn [negb].
  cbv iota zeta. rewrite (write_then env _ _ w _ Hd). fold r1. fold w1.
  unfold catching, send_key. unfold mbind, effect_bind, lift, asking, writing, touch. rewrite Hrefuse. unfold w1 at 1. rewrite allowed_set_operation, Hallow, Hfail, Hwait.
  change (composer_sha256 r1) with (composer_sha256 r). unfold guard.
  assert (negb (bool_decide (key = "Escape")) || bool_decide (composer (frame o) = composer_sha256 r) = true) as ->.
  { destruct (bool_decide_reflect (key = "Escape")) as [He|]; [|done]. simpl. by apply bool_decide_eq_true, Hcomposer. }
  unfold mret, effect_ret. by rewrite (write_works env _ _ _ Hd).
Qed.

(** C23 (liveness). A menu run on a pane that behaves completes: with a current
    token, nothing unresolved on the pane and a new operation, a pane that shows
    the empty composer, the palette after the first key and the same composer
    after the second makes the run answer a completed row, which is on disk,
    after sending exactly the two keys. *)
Theorem menu_run_completes env name t p op w pr f before o1 o2 :
  disk_works env → _profile name w = Done pr → name_ok 80 op = true → assert_input_allowed (profile_binding pr) t w = Done f →
  operations w !! op = None → unresolved (profile_binding pr) w = Done () →
  (∃ d, _permission env "admit" "terminal.menu" p (profile_binding pr) = Done d) →
  _identity env (profile_binding pr) "admit" 0 = Done before → _empty (frame before) = true →
  answers env (profile_binding pr) p "C-p" _empty _palette o1 → answers env (profile_binding pr) p "Escape" _palette _empty o2 →
  composer (frame o2) = composer (frame before) →
  ∃ r w', run env name t p op w = (Done {| answer_row := r; reconciliation_observation := None |}, w') ∧ row_state r = "completed" ∧
    (step_state <$> steps r) = ["observed"; "observed"] ∧ operations w' !! op = Some (Valid r) ∧
    ∃ new, pressed w' = pressed w ++ new ∧ press_key <$> new = ["C-p"; "Escape"].
Proof.
  intros Hd Hpr Hname Hallow Hnew Hun [d Hperm] Hid Hempty H1 H2 Hcomposer. set (b := profile_binding pr) in *.
  unfold run. unfold mbind at 1, effect_bind at 1, asking at 1. rewrite Hpr. fold b. unfold mbind at 1, effect_bind at 1, lift at 1. rewrite Hname. cbn [guard].
  cbv iota. unfold mbind at 1, effect_bind at 1, asking at 1. rewrite Hallow. unfold mbind at 1, effect_bind at 1, reading at 1. rewrite Hnew.
  unfold mbind at 1, effect_bind at 1, asking at 1. rewrite Hun. unfold mbind at 1, effect_bind at 1, lift at 1. rewrite Hperm.
  unfold mbind at 1, effect_bind at 1, lift at 1. rewrite Hid. unfold mbind at 1, effect_bind at 1, lift at 1. rewrite Hempty. cbn [guard]. cbv iota zeta.
  rewrite (write_then env _ _ _ _ Hd). unfold mbind at 1, effect_bind at 1.
  assert (assert_input_allowed b (Some (owner_token b (generation f))) w = Done f) as Hallow'.
  { destruct (allowed_owner _ _ _ _ Hallow) as (Ho & Ha & _). unfold assert_input_allowed. rewrite Ho. simpl. rewrite Ha. by rewrite !bool_decide_true by done. }
  unfold keys. rewrite (press_one _ _ _ _ _ _ _ _ _ _ o1 f) by (try exact Hallow'; done).
  rewrite (press_one _ _ _ _ _ _ _ _ _ _ o2 f) by (try exact Hallow'; done).
  do 2 eexists. split; [reflexivity|]. split; [done|]. split; [done|]. split; [apply lookup_insert_eq|].
  eexists. split; [simpl; rewrite <-app_assoc; reflexivity|done].
Qed.
End Rules.
