(* ===== verification/MenuDemo.v ===== *)
(** * Guarded menus at work

    [MenuDemo]: a pane is enrolled, a menu run completes on it, a human takes it
    over and returns it, a key whose effect is lost locks it; the theorems of
    [MenuRules] applied to these runs; and a run without a token. *)
From Stdlib Require Import QArith Lqa.
From S2P Require Import Prelude Effects Json Sha256 Timestamps Permissions PermissionDemo MenuControl MenuRules.
Open Scope Z_scope.

(** ** The pane and its policy *)
Definition menu_allowed : layer :=
  {| default_decision := None;
     actions := Some {[ "terminal.menu" := Plain "allow"; "terminal.takeover" := Plain "allow"; "terminal.return" := Plain "allow" ]};
     Permissions.profile := None; authorized_profiles := None |}.
Definition menu_policy : policy :=
  {| version := 1; global_layer := None; Permissions.profiles := None; sessions := Some {[ "operator:local" := menu_allowed ]}; assignments := None;
     mandatory := None; approvals := None; delegations := None; known_actions := None; future_actions_inherit := None; policy_adoption := None |}.
Definition menu_world : Permissions.world (T:=Z) := Eval vm_compute in (Permissions.configure (clock 100) site menu_policy host 0 ∅).2.
Definition grok : identity :=
  {| pid := 4711; start_ticks := 99; boot_id := "boot-1"; session_id := "session-1"; executable_sha256 := BINARY_SHA256 |}.
Definition the_pane : binding := {| socket := "/run/tmux.sock"; pane := "%3"; process := grok; cwd := "/work" |}.
Definition screen (lines : list string) : string :=
  join (String (chr 10) "") (["Shell version: 1.0.40"; "Session ID: session-1"] ++ lines).
Definition empty_screen : string := screen ["minimal · /help"; "❯"; "Grok 4.6 (high) · build · ctrl+o transcript"].
Definition palette_screen : string :=
  screen ["  Commands"; "search:"; "  ◆ New Session"; "↑/↓ nav  |  Enter select  |  Esc close"].
Example screens : _empty empty_screen = true ∧ _palette empty_screen = false ∧ _empty palette_screen = false ∧ _palette palette_screen = true.
Proof. split_and!; vm_compute; reflexivity. Qed.
Definition shows (what : string) : string :=
  if bool_decide (what ∈ ["after C-p"; "before Escape"]) then palette_screen else empty_screen.
(** A pane that behaves, and one that loses the key [lost]. *)
Definition tmux (lost : option string) : Env (T:=Z) :=
  {| snapshot := λ what _, Done {| seen := grok; frame := shows what; process_cwd := Done "/work" |};
     monotonic := λ _ n, (inject_Z (Z.of_nat n) * (1 # 20))%Q; refuses := λ _, None;
     fails := λ key, if bool_decide (Some key = lost) then Some "terminal_operation_unavailable" else None;
     permissions_at := λ _, (clock 200, menu_world); write_fails := λ _, None; sync_fails := λ _, None; resolved_cwd := Done "/work";
     root := "/srv/wake" |}.
Definition good_pane := tmux None.
Definition token_at (n : Z) : option token := Some (owner_token the_pane n).

(** Closed equations by evaluation, one cast and no normal form of the goal. *)
Local Ltac evaluated := lazymatch goal with |- ?a = ?b => exact (@eq_refl _ b <: a = b) end.

(** ** The runs
    The files each call leaves are written out by evaluation; the lemmas below
    say that the calls leave them. *)
Definition configuring : call := Configuring good_pane "menu" the_pane host "pilot".
Definition running : call := Running good_pane "menu" (token_at 1) host "op-1".
Definition taking : call := Changing good_pane "menu" (token_at 1) host true "typing".
Definition returning : call := Changing good_pane "menu" (token_at 2) host false "done".
Definition losing : call := Running (tmux (Some "C-p")) "menu" (token_at 1) host "op-2".
Definition configured : world := Eval vm_compute in after configuring empty_world.
Definition ran_once : world := Eval vm_compute in after running configured.
Definition taken : world := Eval vm_compute in after taking ran_once.
Definition returned : world := Eval vm_compute in after returning taken.
Definition lost : world := Eval vm_compute in after losing ran_once.
Definition run_answer : result string menu_answer := Eval vm_compute in (run good_pane "menu" (token_at 1) host "op-1" configured).1.
Definition taken_answer : result string inspection := Eval vm_compute in (change_owner good_pane "menu" (token_at 1) host true "typing" ran_once).1.
Lemma configures : after configuring empty_world = configured.
Proof. evaluated. Qed.
Lemma runs : run good_pane "menu" (token_at 1) host "op-1" configured = (run_answer, ran_once).
Proof. evaluated. Qed.
Lemma takes : change_owner good_pane "menu" (token_at 1) host true "typing" ran_once = (taken_answer, taken).
Proof. evaluated. Qed.
Lemma returns : after returning taken = returned.
Proof. evaluated. Qed.
Lemma loses : after losing ran_once = lost.
Proof. evaluated. Qed.
Definition shown (w : world) : list (string * string) * option (Z * string) :=
  ((λ x, (press_operation x, press_key x)) <$> pressed w,
   match _owner the_pane w with Done f => Some (generation f, input_owner f) | Raised _ => None end).
Definition state_of (op : string) (w : world) : option string := match file_at (operations w) op with Valid r => Some (row_state r) | _ => None end.
Example run_once : shown ran_once = ([("op-1", "C-p"); ("op-1", "Escape")], Some (1, "automation")) ∧ state_of "op-1" ran_once = Some "completed".
Proof. split; evaluated. Qed.
Example run_taken : shown taken = ([("op-1", "C-p"); ("op-1", "Escape")], Some (2, "human")) ∧
  (run good_pane "menu" None host "op-3" taken).1 = Raised "human_owns_input".
Proof. split; evaluated. Qed.
Example run_lost : state_of "op-2" lost = Some "uncertain" ∧
  (run good_pane "menu" (token_at 1) host "op-3" lost).1 = Raised "unresolved_menu_effect".
Proof. split; evaluated. Qed.
(** A run that gives no token is not held to a generation. *)
Example null_token_runs : (run good_pane "menu" (token_at 1) host "op-3" returned).1 = Raised "stale_input_owner_generation" ∧
  state_of "op-3" (after (Running good_pane "menu" None host "op-3") returned) = Some "completed".
Proof. split; evaluated. Qed.

(** ** The theorems at work *)
Lemma stepped x w w' : after x w = w' → rtc step w w'.
Proof. intros <-. apply rtc_once. by exists x. Qed.
Lemma ran : after running configured = ran_once.
Proof. apply (f_equal snd runs). Qed.
Lemma took : after taking ran_once = taken.
Proof. apply (f_equal snd takes). Qed.
Lemma reaches_ran : rtc step empty_world ran_once.
Proof. transitivity configured; [apply (stepped _ _ _ configures)|apply (stepped _ _ _ ran)]. Qed.
Lemma reaches_lost : rtc step empty_world lost.
Proof. transitivity ran_once; [exact reaches_ran|apply (stepped _ _ _ loses)]. Qed.
Lemma taken_to_returned : rtc step taken returned.
Proof. apply (stepped _ _ _ returns). Qed.
Lemma ran_to_returned : rtc step ran_once returned.
Proof. transitivity taken; [apply (stepped _ _ _ took)|exact taken_to_returned]. Qed.
Definition no_press : key_press :=
  {| press_operation := ""; press_pane := ""; press_key := ""; press_fence := Raised ""; press_row := Missing |}.
Definition lost_press : key_press := Eval vm_compute in default no_press (last (pressed lost)).
Lemma lost_press_in : lost_press ∈ pressed lost.
Proof. apply list_elem_of_lookup_2 with (Nat.pred (length (pressed lost))). evaluated. Qed.
Lemma menu_custody_witness : ∃ f r, press_fence lost_press = Done f ∧ input_owner f = "automation" ∧ press_row lost_press = Valid r ∧
  row_operation r = press_operation lost_press ∧ row_state r = "uncertain" ∧ pending_key r = Some (press_key lost_press) ∧
  ∀ t, row_token r = Some t → token_generation t = generation f ∧ token_pane t = press_pane lost_press.
Proof. exact (menu_custody lost lost_press reaches_lost lost_press_in). Defined.
Lemma menu_keys_once_witness : keys_of "op-1" ran_once `prefix_of` ["C-p"; "Escape"] ∧
  ∀ x, operations ran_once !! "op-1" = Some x → operations returned !! "op-1" = Some x ∧ keys_of "op-1" returned = keys_of "op-1" ran_once.
Proof. exact (menu_keys_once ran_once returned "op-1" reaches_ran ran_to_returned). Defined.

Definition the_profile : MenuControl.profile :=
  {| profile_scope := "grok-palette-open-cancel"; profile_binding := the_pane; profile_issuer := "operator:local"; profile_reason := "pilot" |}.
Lemma ran_profile_stored : _profile "menu" ran_once = Done the_profile.
Proof. evaluated. Qed.
Definition refused_later : world := after (Running good_pane "menu" None host "op-4") taken.
Lemma menu_takeover_respected_witness :
  pane_presses (pane_digest (profile_binding the_profile)) refused_later = pane_presses (pane_digest (profile_binding the_profile)) ran_once.
Proof.
  apply (menu_takeover_respected _ _ _ _ _ _ _ _ _ the_profile takes ran_profile_stored).
  apply rtc_once. exists (Running good_pane "menu" None host "op-4"). split; [reflexivity|].
  intros (env & name & t & p & reason & pr & Hx & _). discriminate.
Defined.
Definition fence_at (w : world) : fence := match _owner the_pane w with Done f => f | Raised _ => new_fence end.
Lemma taken_fence : _owner the_pane taken = Done (fence_at taken).
Proof. evaluated. Qed.
Lemma returned_profile : _profile "menu" returned = Done the_profile.
Proof. evaluated. Qed.
Lemma menu_old_token_refused_witness :
  (∃ e, run good_pane "menu" (Some (owner_token the_pane 1)) host "op-3" returned = (Raised e, returned)) ∧
  (∃ e, change_owner good_pane "menu" (Some (owner_token the_pane 1)) host true "again" returned = (Raised e, returned)).
Proof.
  apply (menu_old_token_refused the_pane (fence_at taken) taken returned _ _ _ _ _ _ _ the_profile taken_fence taken_to_returned);
    [vm_compute; reflexivity|exact returned_profile|reflexivity].
Defined.
Definition no_row : row :=
  {| row_operation := ""; row_profile := ""; row_pane := ""; row_token := None; row_state := ""; pre_sha256 := ""; composer_sha256 := "";
     steps := []; row_reason := None; pending_key := None |}.
Definition lost_row : row := Eval vm_compute in match file_at (operations lost) "op-2" with Valid r => r | _ => no_row end.
Lemma lost_row_stored : operations lost !! "op-2" = Some (Valid lost_row).
Proof. evaluated. Qed.
Lemma menu_press_authorised_witness : ∃ new, pressed ran_once = pressed configured ++ new ∧ (press_key <$> new) `prefix_of` ["C-p"; "Escape"] ∧
  ∀ x, x ∈ new → ∃ pr precondition expected o d, _profile "menu" configured = Done pr ∧ press_pane x = pane_digest (profile_binding pr) ∧
    press_operation x = "op-1" ∧ (press_key x, precondition, expected) ∈ keys ∧
    _permission good_pane ("before " +:+ press_key x) "terminal.menu" host (profile_binding pr) = Done d ∧
    _identity good_pane (profile_binding pr) ("before " +:+ press_key x) 0 = Done o ∧ precondition (frame o) = true.
Proof. apply (menu_press_authorised _ _ _ _ _ _ _ _ runs). Defined.
Lemma good_paced : paced good_pane "C-p".
Proof.
  split; [vm_compute; discriminate|]. intros n. change (inject_Z (Z.of_nat n) * (1 # 20) + (1 # 20) <= inject_Z (Z.of_nat (S n)) * (1 # 20))%Q.
  replace (Z.of_nat (S n)) with (Z.of_nat n + 1) by lia. rewrite inject_Z_plus. change (inject_Z 1) with 1%Q. lra.
Qed.
Lemma menu_wait_ends_witness :
  decided good_pane the_pane "after C-p" _empty (monotonic good_pane "C-p" 0 + 2)%Q 40 ∧
  ∀ more, wait good_pane the_pane "after C-p" _empty (monotonic good_pane "C-p" 0 + 2)%Q (polls + more) 0 =
          wait good_pane the_pane "after C-p" _empty (monotonic good_pane "C-p" 0 + 2)%Q polls 0.
Proof. exact (menu_wait_ends good_pane the_pane "C-p" _empty good_paced). Defined.
Definition looks (what : string) : observed := {| seen := grok; frame := shows what; process_cwd := Done "/work" |}.
Definition answered {A} (r : result string A) : bool := match r with Done _ => true | Raised _ => false end.
Lemma answered_Done {A} (r : result string A) : answered r = true → ∃ a, r = Done a.
Proof. destruct r; [eauto|done]. Qed.
Lemma menu_run_completes_witness : ∃ r w', run good_pane "menu" (token_at 1) host "op-1" configured =
    (Done {| answer_row := r; reconciliation_observation := None |}, w') ∧ row_state r = "completed" ∧
    (step_state <$> steps r) = ["observed"; "observed"] ∧ operations w' !! "op-1" = Some (Valid r) ∧
    ∃ new, pressed w' = pressed configured ++ new ∧ press_key <$> new = ["C-p"; "Escape"].
Proof.
  apply (menu_run_completes good_pane "menu" (token_at 1) host "op-1" configured the_profile (fence_at configured) (looks "admit")
           (looks "after C-p") (looks "after Escape")).
  - intros what. split; reflexivity.
  - evaluated.
  - reflexivity.
  - evaluated.
  - evaluated.
  - evaluated.
  - apply answered_Done. evaluated.
  - evaluated.
  - evaluated.
  - split; [apply answered_Done; evaluated|exists (looks "before C-p"); split; evaluated|by split|evaluated].
  - split; [apply answered_Done; evaluated|exists (looks "before Escape"); split; evaluated|by split|evaluated].
  - evaluated.
Defined.
